(* ===== verification/_CoqProject ===== *)
-Q . S2P
Prelude.v
Abi.v
Bpf.v
CapNamespace.v
CapFdRights.v
CapRights.v
CapShim.v
CapEnter.v
CapConfine.v
CapLimit.v
Ctype.v
Unvis.v
Vis.v
B64.v
Strto.v
Numbers.v
Humanize.v
SetMode.v
SetModeMeaning.v
SetModeSpec.v
StrMode.v
Zopen.v
ZopenBits.v
ZopenStream.v
ZopenLzw.v
ZopenWrite.v
ZopenRead.v
ZopenRound.v
ZopenEdge.v
Arith.v
ArithGrammar.v
ArithComplete.v
ArithTotal.v
ArithSound.v
ArithCorrect.v
Heapsort.v
HeapsortOrder.v
Splay.v
TrSet.v
TrMap.v
TrStr.v
Tr.v
TrNext.v
TrCorrect.v
TrComplement.v
TrCase.v
TrEdge.v
TsortHash.v
Tsort.v
TsortGraph.v
TsortInput.v
TsortCycle.v
TsortCorrect.v
FindPlan.v
FindGrammar.v
AwkFa.v
AwkLang.v
AwkSets.v
AwkDfa.v
AwkInit.v
AwkTree.v
AwkMk.v
AwkMatch.v
AwkCorrect.v
AwkRe.v
AwkEdge.v
AwkGrammar.v
AwkLex.v
AwkParse.v
AwkText.v
Ohash.v
OhashProbe.v
OhashTable.v
OhashMap.v
