(* ===== verification/Prelude.v ===== *)
(** * astroutils: the support code of a hardened userland

    astroutils is a set of FreeBSD command line tools ported to Linux, a
    compatibility library, and a sandbox shim.  Its own logic is in three layers:

    - src.compat/: the shim capsicum.c, which gives Linux the capsicum calls the
      tools make ([caph_enter], [caph_rights_limit], ...) out of seccomp filters
      and Landlock, and replacements for missing C library functions (b64.c, ...);
    - src.freebsd/compat/: the FreeBSD library functions the tools share
      (setmode.c, vis.c, unvis.c, heapsort.c, ohash.c, ...);
    - the tools, src.freebsd/ and src.custom/, which call both.

    The development models the first two layers and those parts of the tools that
    are algorithms of their own: the LZW stream of compress, the arithmetic of the
    shell, tr, tsort, the expressions of find and the regular expressions of awk.

    ** Conventions

    A C integer is a [Z] with its wrap-around written out ([u8] .. [u64], [s32],
    [s64]); a byte is a [Z] below 256; a C string is the list of its bytes without
    the final NUL.  An access to an array is checked: out of the array it is a
    value of its own ([None], [fault], [RErr], ...), never a default, so that a
    theorem that gives a result also shows that the code stays in bounds.
    Whatever is outside the sources is a parameter: the kernel ([CapShim.Kernel],
    [Bpf.BpfMachine]), the system call numbers ([Abi]), the locale
    ([Vis.Locale], [TrSet.Wctypes], [TrStr.TrLocale]), the allocator, [fwrite], the shell's variables
    ([Arith.Vars]), the caller's comparison function ([HeapsortOrder.Compare]).
    Each such class has an instance on which the witnesses run.

    [Prelude] holds integers, checked arrays and the shared tactics, [Ctype]
    characters, [Strto] the number conversions of the C library.

    ** The sandbox shim (src.compat/capsicum.c)

    [Abi] and [Bpf] are the ground: system call numbers, the BPF assembler over
    its array of 512 instructions, and the interface to the machine that runs
    filters.  [CapNamespace] is the filter of [install_namespace_filter],
    [CapFdRights] the filters of [caph_rights_limit], [CapRights] the rights sets
    and the registry ([lim_find], [lim_merge]), [CapShim] the whole program, each
    public call a computation over the shim's statics, [errno] and the trace of
    the kernel's answers.  The theorems are in [CapNamespace] (the assembled
    filter is the documented policy for every call and mode), [CapFdRights] (what
    each filter refuses, and the entries it misses), [CapEnter] (entering is all
    or nothing, and what Landlock enforces), [CapConfine] (over every sequence of
    calls restrictions only grow, and a confined process stays confined; the one
    store outside an array) and [CapLimit] (a limit registered before entering
    and one installed after it permit the same calls).

    ** Text (src.freebsd/compat/unvis.c, vis.c; src.compat/b64.c)

    [Unvis] is the decoder, a state machine on one character at a time, proved
    equal to a decoding function on lists; [Vis] the encoder, with the buffers
    the theorems show large enough, and the round trip through [Unvis].  [B64]
    encodes and decodes base 64: exact sizes, round trip, and the one spelling
    that the decoder accepts for each text.

    ** Numbers with units (src.freebsd/compat/expand_number.c, humanize_number.c; src.compat/strtonum.c)

    [Numbers] reads a number with a unit letter and [strtonum]: exact on every
    string, in unbounded integers.  [Humanize] writes one: which scale it chooses,
    which text that is, and when the text is whole in the buffer.

    ** File modes (src.freebsd/compat/setmode.c, strmode.c)

    [SetMode] compiles a mode string into an array of commands, compacts it in
    place and runs it.  [SetMode] ends with the array related to the calls that a
    string makes, under every allocation failure; [SetModeMeaning] shows that the
    compaction changes no result, and that every mode written out sets itself.
    [SetModeSpec] has the grammar of chmod's modes and what a mode does to each bit,
    both without the code's parser and tables, and shows that [setmode] and [getmode]
    do it; the corners where manual and code part are theorems of their own.
    [StrMode] is the text of [ls -l], which determines the mode.

    ** Compressed streams (src.freebsd/compress/zopen.c)

    [Zopen] has the writer and the reader as in the source.  [ZopenBits] and
    [ZopenStream] are the bits and groups of codes, [ZopenLzw] a reference decoder
    on code sequences and what both dictionaries mean, [ZopenWrite] and [ZopenRead]
    the two halves, [ZopenRound] the round trip and totality, [ZopenEdge] the
    streams on which the reader fails.

    ** Shell arithmetic (src.freebsd/sh/arith_yacc.c, arith_yylex.c)

    [Arith] is the lexer and the parser that evaluates as it reads.
    [ArithGrammar] is the specification: trees, their meaning, the tokens of a
    string.  [ArithComplete] and [ArithSound] are the two halves of the refinement,
    [ArithTotal] termination, [ArithCorrect] the statements.

    ** Translating characters (src.freebsd/coreutils/tr/)

    [Splay] is the top-down splaying that cset.c and cmap.c repeat, with its two
    assembly trees as lists of frames.  [TrSet] (cset.c, cset.h) refines a finite
    set with classes, [TrMap] (cmap.c, cmap.h) a finite map with a default.
    [TrStr] (str.c, extern.h) is [next] with all that it calls, on the argument as
    an array that the code also writes to.  [Tr] (tr.c) is [main] behind the
    options, from the two arguments and the wide characters of the input to
    those of the output.  [TrNext] renders a sequence of items (characters,
    escapes, ranges, repetitions) as an argument and shows that [next] delivers
    their characters; [TrCorrect] is deleting, squeezing and translating for
    every such argument, [TrComplement] [tr -c], [TrCase] the conversion of case
    by classes, [TrEdge] the arguments on which the program hangs, reads too far
    or does nothing.  The laws the proofs need of a locale are [TrNext.TrLocaleOk];
    the C locale is an instance.

    ** Sorting a graph (src.freebsd/coreutils/tsort/tsort.c)

    [TsortHash] is the table that finds nodes by name, its chains and its list of
    free cells in one pool; [Tsort] the program, a state monad over the records of
    the nodes, whose list is doubly linked through pointers to links.
    [TsortGraph] says which graph the records stand for, and what adding an arc and
    removing a node do to it; [TsortInput] what is read; [TsortCycle] that
    [find_cycle], with its three flags, finds a cycle when there is one and stays in
    its logs; [TsortCorrect] the order of the output.

    ** The plans of find (src.freebsd/findutils/find/operator.c, find.c, function.c)

    [FindPlan] is [find_formplan] behind the options, the three passes over the plan
    and the execution of a plan; the primaries are parameters.  [FindGrammar] has the
    grammar and the meaning of expressions, and shows that the passes parse it.

    ** The regular expressions of awk (src.freebsd/awk/b.c; u8_rune and adjbuf of run.c)

    [AwkRe] is the lexer, which rewrites its own text to expand repetitions, and the
    parser; [AwkFa] the automaton: numbered leaves, follow sets computed by marking
    [setvec], states made while a string is read, tables with binary search, and the
    searches [match], [pmatch] and [nematch].  [AwkLang] is the language of a tree,
    and what may follow each leaf, told by the path to the root; [AwkSets] shows that
    the marks are these sets; [AwkDfa] the invariant of the states and that [cgoto]
    keeps it; [AwkInit] [makeinit]; [AwkTree] and [AwkMk] connect positions and
    texts; [AwkMatch] the searches on any such automaton, [AwkCorrect] the
    statements.  [AwkGrammar] is the grammar of the texts with their expansions and
    trees, [AwkLex] and [AwkParse] show that the lexer and the parser read it, and
    [AwkText] gives a text its meaning as a language and shows that the tree that is
    read has it.  [AwkEdge] has the expressions and strings on which the code fails.

    ** Heaps and hash tables (src.freebsd/compat/heapsort.c, ohash.c)

    [Heapsort] is the sort on an array of records, a permutation for any
    comparison function; [HeapsortOrder] is its order.  [Ohash] is the table,
    [OhashProbe] its probe sequence, [OhashTable] the invariant of a table that
    can be searched, [OhashMap] the refinement of a finite map.

    ** Fuel

    Loops that are not structural take fuel, and each has a theorem that its fuel
    is enough: the parser of [Arith] takes [8 * length s + 8]
    ([ArithTotal]), the hash search of [Zopen] the size of the
    table ([ZopenLzw]), the output loop of the reader the size of the stack (after
    which the code has left it), the heap the length of the array, the lookup of
    [Ohash] the size of the table ([OhashTable.lookup_loop_spec]; a full table
    shows where no fuel would do), the decoders the length of the text.  [next] of
    tr takes [2 * length + 2], since of two calls of itself one moves the string
    on ([TrNext]); the loops of tr's [main] take what the caller gives, and the
    theorems ask for more than there are characters, [tr -c] for 512 more.  The
    loops of tsort take one more than the number of nodes, its input loop one more
    than the length of the input.  The searches of awk take one more than the length of
    the string, the marking of follow sets the size of the tree; the parser of awk takes
    what the caller gives, and [AwkText] shows that there is an amount that is enough.

    ** Not modelled

    Filters are run by an interpreter for the instructions the shim emits; the
    kernel's own checker is not modelled.  The caller's threads are not: the
    sources keep static state and make no promise about them.  Of stdio only what
    a function reads and writes is modelled.  The debugging output of setmode.c,
    the allocation of records in ohash.c and the stack allocator of the shell are
    left out.  [mergesort], which tr calls on a range of a locale, is a parameter,
    and so is every weight of the locale; the nodes that tr's [main] allocates
    are there ([TrSet] and [TrMap] have the failures).  The sizes of zopen's reads and
    writes are unbounded where the code has int and u_int: the model is exact for
    blocks below 2^31 bytes, and compress uses blocks of 1024.  Of awk's regular
    expressions the cache in [makedfa] and [fnematch], which reads a stream, are left
    out.  The remaining tools are listed, with reasons, in the manifest: they
    are system calls and stream formatting around these parts, editors and network
    clients, or algorithms still to be done (the parser and expansion of the
    shell, sort, find, sed, diff, the B-trees of dbcompat). *)

From Stdlib Require Export ZArith Lia.
From stdpp Require Export prelude strings.
#[global] Open Scope Z_scope.

(** * C integers at their width *)

Definition u8 (z : Z) : Z := z mod 2 ^ 8.
Definition u16 (z : Z) : Z := z mod 2 ^ 16.
Definition u32 (z : Z) : Z := z mod 2 ^ 32.
Definition u64 (z : Z) : Z := z mod 2 ^ 64.

(** Two's complement reading of the low [w] bits. *)
Definition sext (w : Z) (z : Z) : Z :=
  let r := z mod 2 ^ w in if r <? 2 ^ (w - 1) then r else r - 2 ^ w.
Definition s32 (z : Z) : Z := sext 32 z.
Definition s64 (z : Z) : Z := sext 64 z.

Declare Scope c_scope.
Delimit Scope c_scope with c.
Infix ".&" := Z.land (at level 40, left associativity) : c_scope.
Infix ".|" := Z.lor (at level 50, left associativity) : c_scope.
Infix ".<<" := Z.shiftl (at level 40, left associativity) : c_scope.
Infix ".>>" := Z.shiftr (at level 40, left associativity) : c_scope.
Notation "x .&~ y" := (Z.land x (Z.lnot y))
  (at level 40, left associativity) : c_scope.
#[global] Open Scope c_scope.

(** C truth of a masked value: [if (x & y)]. *)
Definition tst (x y : Z) : bool := negb (x .& y =? 0).

Create HintDb cint.

(** A single bit is tested or absent. *)
Lemma land_bit x k : 0 <= k -> x .& 2 ^ k = if tst x (2 ^ k) then 2 ^ k else 0.
Proof.
  intros Hk. unfold tst. assert (x .& 2 ^ k = if Z.testbit x k then 2 ^ k else 0) as E.
  { apply Z.bits_inj'. intros n Hn. rewrite Z.land_spec, Z.pow2_bits_eqb by done.
    destruct (Z.eqb_spec k n) as [->|Hne]; [rewrite andb_true_r|rewrite andb_false_r].
    - destruct (Z.testbit x n); [by rewrite Z.pow2_bits_true|by rewrite Z.bits_0].
    - destruct (Z.testbit x k); [by rewrite Z.pow2_bits_false|by rewrite Z.bits_0]. }
  rewrite E. destruct (Z.testbit x k); [|done].
  rewrite (proj2 (Z.eqb_neq _ _)); [done|]. pose proof (Z.pow_pos_nonneg 2 k). lia.
Qed.

Lemma u8_range z : 0 <= u8 z < 2 ^ 8.
Proof. unfold u8. apply Z.mod_pos_bound. lia. Qed.
Lemma u32_range z : 0 <= u32 z < 2 ^ 32.
Proof. unfold u32. apply Z.mod_pos_bound. lia. Qed.
Lemma u8_small z : 0 <= z < 256 -> u8 z = z.
Proof. intros. unfold u8. apply Z.mod_small. lia. Qed.
Lemma u16_small z : 0 <= z < 65536 -> u16 z = z.
Proof. intros. unfold u16. apply Z.mod_small. lia. Qed.
Lemma u32_small z : 0 <= z < 4294967296 -> u32 z = z.
Proof. intros. unfold u32. apply Z.mod_small. lia. Qed.
Lemma u32_idem z : u32 (u32 z) = u32 z.
Proof. apply u32_small. pose proof (u32_range z). lia. Qed.

Lemma sext_small w z : 0 < w -> - 2 ^ (w - 1) <= z < 2 ^ (w - 1) -> sext w z = z.
Proof.
  intros Hw Hz. unfold sext. assert (2 ^ w = 2 * 2 ^ (w - 1)) as E.
  { rewrite <- Z.pow_succ_r by lia. f_equal. lia. }
  rewrite E. set (h := 2 ^ (w - 1)) in *. destruct (Z.ltb_spec z 0) as [Hn|Hn].
  - replace (z mod (2 * h)) with (z + 2 * h) by (apply (Z.mod_unique _ _ (-1)); lia).
    rewrite (proj2 (Z.ltb_ge _ _)) by lia. lia.
  - rewrite Z.mod_small by lia. by rewrite (proj2 (Z.ltb_lt _ _)) by lia.
Qed.
Lemma s32_small z : - 2 ^ 31 <= z < 2 ^ 31 -> s32 z = z.
Proof. by apply (sext_small 32). Qed.

Lemma u8_idem z : u8 (u8 z) = u8 z.
Proof. apply u8_small. pose proof (u8_range z). lia. Qed.

Create Rewrite HintDb cint.
#[export] Hint Rewrite u32_idem : cint.
#[export] Hint Resolve u8_range u32_range u8_small u32_small : cint.

(** Bitwise equalities by extensionality. *)
Ltac zbits :=
  apply Z.bits_inj'; let n := fresh "n" in let Hn := fresh "Hn" in
  intros n Hn;
  repeat first [ rewrite Z.land_spec | rewrite Z.lor_spec | rewrite Z.lxor_spec
               | rewrite Z.lnot_spec by assumption | rewrite Z.bits_0 ];
  repeat match goal with
         | |- context [Z.testbit ?x n] =>
             is_var x; destruct (Z.testbit x n)
         end; try reflexivity.

(** Boolean tests of the code turned into propositions. *)
Ltac zbool :=
  repeat match goal with
  | H : (_ =? _) = true |- _ => apply Z.eqb_eq in H
  | H : (_ =? _) = false |- _ => apply Z.eqb_neq in H
  | H : (_ <? _) = true |- _ => apply Z.ltb_lt in H
  | H : (_ <? _) = false |- _ => apply Z.ltb_ge in H
  | H : (_ <=? _) = true |- _ => apply Z.leb_le in H
  | H : (_ <=? _) = false |- _ => apply Z.leb_gt in H
  | H : _ && _ = true |- _ => apply andb_true_iff in H as [? ?]
  | H : _ || _ = false |- _ => apply orb_false_iff in H as [? ?]
  | H : negb _ = true |- _ => apply negb_true_iff in H
  | H : negb _ = false |- _ => apply negb_false_iff in H
  end.

(** * Arrays: lists with checked writes *)

(** A store to [a[i]]: [None] when the index is out of bounds. *)
Definition awrite {A} (l : list A) (i : nat) (x : A) : option (list A) :=
  if decide (i < length l)%nat then Some (<[i := x]> l) else None.

Lemma awrite_Some {A} (l : list A) i x :
  (i < length l)%nat -> awrite l i x = Some (<[i := x]> l).
Proof. intros H. unfold awrite. by rewrite decide_True. Qed.

Lemma awrite_inv {A} (l l' : list A) i x :
  awrite l i x = Some l' -> (i < length l)%nat /\ l' = <[i := x]> l.
Proof. unfold awrite. case_decide; naive_solver. Qed.

(** Writing just behind a prefix turns the next cell. *)
Lemma awrite_app_cons {A} (l r : list A) x y :
  awrite (l ++ x :: r) (length l) y = Some (l ++ y :: r).
Proof.
  rewrite awrite_Some by (rewrite length_app; simpl; lia).
  by rewrite insert_app_r_alt, Nat.sub_diag by lia.
Qed.

Lemma awrite_at {A} (l r : list A) x y n : n = length l -> awrite (l ++ x :: r) n y = Some (l ++ y :: r).
Proof. intros ->. apply awrite_app_cons. Qed.

Lemma lookup_at {A} (l r : list A) x n : n = length l -> (l ++ x :: r) !! n = Some x.
Proof. intros ->. by rewrite lookup_app_r, Nat.sub_diag. Qed.

Lemma length_omap {A B} (f : A -> option B) (l : list A) : (length (omap f l) <= length l)%nat.
Proof.
  induction l as [|x l IH]; [done|]. csimpl. destruct (f x); csimpl; lia.
Qed.

(** * Membership in a list of names, as a test that computes *)

Definition smem (X : string) (names : list string) : bool := existsb (String.eqb X) names.

Lemma smem_spec X names : smem X names = true <-> X ∈ names.
Proof.
  unfold smem. rewrite existsb_exists. split.
  - intros (Y & HY%list_elem_of_In & ->%String.eqb_eq). done.
  - intros HX. exists X. rewrite String.eqb_refl. by rewrite <- list_elem_of_In.
Qed.

Lemma smem_app X l1 l2 : smem X (l1 ++ l2) = smem X l1 || smem X l2.
Proof. apply existsb_app. Qed.

Lemma smem_cons X Y l : smem X (Y :: l) = (X =? Y)%string || smem X l.
Proof. done. Qed.
