(* ===== verification/Abi.v ===== *)
(** The target's system call numbers and libc constants.

    The sandbox shim is compiled against <sys/syscall.h>, <fcntl.h> and
    <asm/ioctls.h>; the numbers differ between architectures and some calls do
    not exist on all of them ([#ifdef SYS_x]).  They are parameters of the model:
    [sys X] is the value of the macro [SYS_X], [None] when it is not defined.
    [AbiOk] states what every Linux ABI guarantees.  [x86_64] is the instance the
    witnesses run on. *)


From S2P Require Import Prelude.

Class Abi := {
  sys : string -> option Z;
  ioctl_no : string -> option Z;
  CU_AUDIT_ARCH : Z;
  O_ACCMODE : Z; O_RDONLY : Z; O_CREAT : Z; O_TRUNC : Z; O_APPEND : Z;
  O_TMPFILE : Z;
  F_GETFD : Z; F_SETFD : Z; F_GETFL : Z; F_SETFL : Z
}.

(** Distinct calls have distinct numbers, all of them 32-bit; the commands that
    [CAP_FCNTL_GETFL] and [CAP_FCNTL_SETFL] are defined as are not 0. *)
Class AbiOk `{Abi} : Prop := {
  sys_inj : forall X Y n, sys X = Some n -> sys Y = Some n -> X = Y;
  sys_range : forall X n, sys X = Some n -> 0 <= n < 2 ^ 32;
  arch_range : 0 <= CU_AUDIT_ARCH < 2 ^ 32;
  rdonly_range : 0 <= O_RDONLY < 2 ^ 32;
  fcntl_flags : F_GETFL <> 0 /\ F_SETFL <> 0
}.

Fixpoint table_find (X : string) (t : list (string * Z)) : option Z :=
  match t with
  | [] => None
  | (Y, n) :: t => if decide (X = Y) then Some n else table_find X t
  end.

(** A table without a repeated number gives an injective naming. *)
Lemma table_find_elem X n t : table_find X t = Some n -> (X, n) ∈ t.
Proof.
  induction t as [|[Y m] t IH]; simpl; [done|]. case_decide.
  - intros [= ->]. subst. apply list_elem_of_here.
  - intros H'. apply list_elem_of_further. by apply IH.
Qed.

Lemma NoDup_snd_inj (t : list (string * Z)) X Y n :
  NoDup t.*2 -> (X, n) ∈ t -> (Y, n) ∈ t -> X = Y.
Proof.
  induction t as [|[Z m] t IH]; simpl; intros Hnd HX HY; [by apply elem_of_nil in HX|].
  apply NoDup_cons in Hnd as [Hm Hnd]. rewrite elem_of_cons in HX, HY.
  destruct HX as [?|HX], HY as [?|HY]; simplify_eq; [done| | |by apply IH].
  - destruct Hm. by apply (list_elem_of_fmap_2 snd t (Y, m)).
  - destruct Hm. by apply (list_elem_of_fmap_2 snd t (X, m)).
Qed.

Lemma table_find_inj t X Y n :
  NoDup t.*2 -> table_find X t = Some n -> table_find Y t = Some n -> X = Y.
Proof. eauto using NoDup_snd_inj, table_find_elem. Qed.

Lemma table_find_Forall (P : Z -> Prop) t X n :
  Forall P t.*2 -> table_find X t = Some n -> P n.
Proof.
  intros HP HX%table_find_elem. rewrite Forall_forall in HP. apply HP.
  by apply (list_elem_of_fmap_2 snd t (X, n)).
Qed.

(** ** x86-64 Linux *)

Definition x86_64_syscalls : list (string * Z) := [
  ("read", 0); ("write", 1); ("open", 2); ("stat", 4); ("fstat", 5); ("lstat", 6);
  ("lseek", 8); ("mmap", 9); ("ioctl", 16); ("pread64", 17); ("pwrite64", 18);
  ("readv", 19); ("writev", 20); ("access", 21); ("dup", 32); ("socket", 41);
  ("connect", 42); ("accept", 43); ("shutdown", 48); ("bind", 49); ("listen", 50);
  ("socketpair", 53); ("execve", 59); ("fcntl", 72); ("fsync", 74);
  ("fdatasync", 75); ("truncate", 76); ("ftruncate", 77); ("getcwd", 79);
  ("chdir", 80); ("rename", 82); ("mkdir", 83); ("rmdir", 84); ("creat", 85);
  ("link", 86); ("unlink", 87); ("symlink", 88); ("readlink", 89); ("chmod", 90);
  ("chown", 92); ("lchown", 94); ("ptrace", 101); ("utime", 132); ("mknod", 133);
  ("pivot_root", 155); ("chroot", 161); ("acct", 163); ("mount", 165);
  ("umount2", 166); ("swapon", 167); ("swapoff", 168); ("init_module", 175);
  ("delete_module", 176); ("quotactl", 179); ("setxattr", 188);
  ("exit_group", 231); ("utimes", 235); ("kexec_load", 246); ("add_key", 248);
  ("request_key", 249); ("keyctl", 250); ("inotify_add_watch", 254);
  ("openat", 257); ("mkdirat", 258); ("mknodat", 259); ("fchownat", 260);
  ("futimesat", 261); ("newfstatat", 262); ("unlinkat", 263); ("renameat", 264);
  ("linkat", 265); ("symlinkat", 266); ("readlinkat", 267); ("fchmodat", 268);
  ("faccessat", 269); ("unshare", 272); ("utimensat", 280); ("accept4", 288);
  ("preadv", 295); ("pwritev", 296); ("perf_event_open", 298);
  ("fanotify_mark", 301); ("name_to_handle_at", 303); ("open_by_handle_at", 304);
  ("setns", 308); ("process_vm_readv", 310); ("process_vm_writev", 311);
  ("kcmp", 312); ("finit_module", 313); ("renameat2", 316); ("seccomp", 317);
  ("kexec_file_load", 320); ("bpf", 321); ("execveat", 322); ("preadv2", 327);
  ("pwritev2", 328); ("statx", 332); ("io_uring_setup", 425); ("open_tree", 428);
  ("move_mount", 429); ("fsopen", 430); ("fsconfig", 431); ("fsmount", 432);
  ("fspick", 433); ("openat2", 437); ("faccessat2", 439); ("mount_setattr", 442);
  ("landlock_create_ruleset", 444); ("landlock_add_rule", 445);
  ("landlock_restrict_self", 446)].

Definition linux_ioctls : list (string * Z) := [
  ("FIONREAD", 0x541B); ("FIOCLEX", 0x5451); ("FIONCLEX", 0x5450);
  ("TCGETS", 0x5401); ("TIOCGWINSZ", 0x5413)].

Definition x86_64 : Abi := {|
  sys X := table_find X x86_64_syscalls;
  ioctl_no X := table_find X linux_ioctls;
  CU_AUDIT_ARCH := 0xC000003E;
  O_ACCMODE := 3; O_RDONLY := 0; O_CREAT := 64; O_TRUNC := 512; O_APPEND := 1024;
  O_TMPFILE := 0x410000;
  F_GETFD := 1; F_SETFD := 2; F_GETFL := 3; F_SETFL := 4
|}.

Lemma x86_64_ok : @AbiOk x86_64.
Proof.
  constructor.
  - intros X Y n. apply table_find_inj. 
    apply (bool_decide_unpack (NoDup x86_64_syscalls.*2)). vm_cast_no_check I.
  - intros X n. apply (table_find_Forall (fun n => 0 <= n < 2 ^ 32)).
    repeat constructor; done.
  - done.
  - done.
  - done.
Qed.
