(* ===== verification/Bpf.v ===== *)
(** Classic BPF programs as the sandbox shim assembles them
    (src.compat/capsicum.c, "tiny BPF assembler").

    - [sock_filter], [emit] and the [E_*] macros: the assembler, a program
      buffer of 512 instructions whose overflow is [abort()] ([None]).
    - [BpfMachine]: the interface to the kernel's interpreter.  The shim only
      relies on the four documented instruction forms it emits; every theorem
      about a filter is proved against this class.
    - [bpf_interp]: an executable interpreter that satisfies the interface, so
      that filters can be run on concrete system calls.
    - [code_at] and [Emits]: the reasoning layer, "the program has this code at
      this address" and "this emitter appends exactly this code". *)

From S2P Require Import Prelude.

(** * Instructions *)

Record sock_filter := Insn { code : Z; jt : Z; jf : Z; k : Z }.

#[export] Instance sock_filter_eq_dec : EqDecision sock_filter.
Proof. solve_decision. Defined.

(** Opcode fields of <linux/bpf_common.h>. *)
Definition BPF_LD : Z := 0x00.
Definition BPF_ALU : Z := 0x04.
Definition BPF_JMP : Z := 0x05.
Definition BPF_RET : Z := 0x06.
Definition BPF_W : Z := 0x00.
Definition BPF_ABS : Z := 0x20.
Definition BPF_AND : Z := 0x50.
Definition BPF_JEQ : Z := 0x10.
Definition BPF_K : Z := 0x00.

Definition op_ld_abs : Z := BPF_LD .| BPF_W .| BPF_ABS.
Definition op_and_k : Z := BPF_ALU .| BPF_AND .| BPF_K.
Definition op_jeq_k : Z := BPF_JMP .| BPF_JEQ .| BPF_K.
Definition op_ret_k : Z := BPF_RET .| BPF_K.

(** Filter return values of <linux/seccomp.h>. *)
Definition SECCOMP_RET_KILL_PROCESS : Z := 0x80000000.
Definition SECCOMP_RET_ERRNO : Z := 0x00050000.
Definition SECCOMP_RET_DATA : Z := 0x0000ffff.
Definition SECCOMP_RET_ALLOW : Z := 0x7fff0000.
Definition EPERM : Z := 1.

(** [struct seccomp_data]: six 64-bit arguments, read as 32-bit words on a
    little-endian machine. *)
Record seccomp_data := SeccompData {
  sd_nr : Z;
  sd_arch : Z;
  sd_ip : Z;
  sd_args : nat -> Z
}.

Definition offsetof_nr : Z := 0.
Definition offsetof_arch : Z := 4.
Definition offsetof_args (n : nat) : Z := 16 + 8 * Z.of_nat n.

(** Low word of argument [n], what [LD_ARG(n)] loads. *)
Definition arg32 (d : seccomp_data) (n : nat) : Z := u32 (sd_args d n).
Definition nr32 (d : seccomp_data) : Z := u32 (sd_nr d).
Definition arch32 (d : seccomp_data) : Z := u32 (sd_arch d).

Definition sd_word (d : seccomp_data) (off : Z) : option Z :=
  if off =? 0 then Some (nr32 d)
  else if off =? 4 then Some (arch32 d)
  else if off =? 8 then Some (u32 (sd_ip d))
  else if off =? 12 then Some (u32 (sd_ip d .>> 32))
  else if (16 <=? off) && (off <? 64) && (off mod 4 =? 0) then
    let n := Z.to_nat ((off - 16) / 8) in
    if off mod 8 =? 0 then Some (arg32 d n) else Some (u32 (sd_args d n .>> 32))
  else None.

(** * The assembler *)

(** [struct bpf_prog]: [insns[512]] and [len]; the list is the first [len]
    entries. *)
Abbreviation bpf_prog := (list sock_filter).
Definition bpf_max_insns : nat := 512.

(** Emitters run on the program buffer; [None] is [abort()]. *)
Definition Asm : Type := bpf_prog -> option bpf_prog.
Definition aseq (m1 m2 : Asm) : Asm := fun p => p' ← m1 p; m2 p'.
Definition askip : Asm := fun p => Some p.
Infix ";;;" := aseq (at level 60, right associativity) : c_scope.

Definition emit (code jt jf k : Z) : Asm := fun p =>
  if decide (bpf_max_insns <= length p)%nat then None
  else Some (p ++ [Insn (u16 code) (u8 jt) (u8 jf) (u32 k)]).

Definition E_STMT (c k : Z) : Asm := emit c 0 0 k.
Definition E_JUMP (c k t f : Z) : Asm := emit c t f k.
Definition E_LD (off : Z) : Asm := E_STMT op_ld_abs off.
Definition E_AND (v : Z) : Asm := E_STMT op_and_k v.
Definition E_JEQ (v t f : Z) : Asm := E_JUMP op_jeq_k v t f.
Definition E_RET (v : Z) : Asm := E_STMT op_ret_k v.

Definition LD_NR : Asm := E_LD offsetof_nr.
Definition LD_ARG (n : nat) : Asm := E_LD (offsetof_args n).
Definition ret_allow : Z := SECCOMP_RET_ALLOW.
Definition ret_eperm : Z := SECCOMP_RET_ERRNO .| (EPERM .& SECCOMP_RET_DATA).
Definition ret_kill : Z := SECCOMP_RET_KILL_PROCESS.
Definition RET_ALLOW : Asm := E_RET ret_allow.
Definition RET_EPERM : Asm := E_RET ret_eperm.
Definition RET_KILL : Asm := E_RET ret_kill.

(** [p->insns[idx].jf = (uint8_t)v] and the same for [jt]. *)
Definition patch_jf (idx : nat) (v : Z) : Asm := fun p =>
  Some (alter (fun i => Insn (code i) (jt i) (u8 v) (k i)) idx p).
Definition patch_jt (idx : nat) (v : Z) : Asm := fun p =>
  Some (alter (fun i => Insn (code i) (u8 v) (jf i) (k i)) idx p).

(** * The kernel's interpreter *)

Definition insn_ld (off : Z) : sock_filter := Insn op_ld_abs 0 0 off.
Definition insn_and (v : Z) : sock_filter := Insn op_and_k 0 0 v.
Definition insn_jeq (v t f : Z) : sock_filter := Insn op_jeq_k t f v.
Definition insn_ret (v : Z) : sock_filter := Insn op_ret_k 0 0 v.

Class BpfMachine := {
  (** result of running a program from an address with an accumulator *)
  bpf_run : bpf_prog -> nat -> Z -> seccomp_data -> option Z;
  bpf_run_ld : forall p pc a d off w,
    p !! pc = Some (insn_ld off) -> sd_word d off = Some w ->
    bpf_run p pc a d = bpf_run p (S pc) w d;
  bpf_run_and : forall p pc a d v,
    p !! pc = Some (insn_and v) ->
    bpf_run p pc a d = bpf_run p (S pc) (a .& v) d;
  bpf_run_jeq : forall p pc a d v t f,
    p !! pc = Some (insn_jeq v t f) ->
    bpf_run p pc a d =
      bpf_run p (S pc + Z.to_nat (if (a =? v)%Z then t else f)) a d;
  bpf_run_ret : forall p pc a d v,
    p !! pc = Some (insn_ret v) -> bpf_run p pc a d = Some v
}.

(** What a filter answers for a system call. *)
Definition filter_result `{BpfMachine} (p : bpf_prog) (d : seccomp_data) : option Z :=
  bpf_run p 0 0 d.

(** ** An executable instance *)

Fixpoint bpf_exec (fuel : nat) (p : bpf_prog) (pc : nat) (a : Z)
    (d : seccomp_data) : option Z :=
  match fuel with
  | O => None
  | S fuel =>
    match p !! pc with
    | None => None
    | Some i =>
      if code i =? op_ld_abs then
        match sd_word d (k i) with
        | Some w => bpf_exec fuel p (S pc) w d
        | None => None
        end
      else if code i =? op_and_k then bpf_exec fuel p (S pc) (a .& k i) d
      else if code i =? op_jeq_k then
        bpf_exec fuel p (S pc + Z.to_nat (if a =? k i then jt i else jf i)) a d
      else if code i =? op_ret_k then Some (k i)
      else None
    end
  end.

Lemma bpf_exec_fuel p d : forall f1 f2 pc a,
  (length p - pc < f1)%nat -> (length p - pc < f2)%nat ->
  bpf_exec f1 p pc a d = bpf_exec f2 p pc a d.
Proof.
  induction f1 as [|f1 IH]; intros [|f2] pc a H1 H2; try lia. simpl.
  destruct (p !! pc) as [i|] eqn:E; [|done].
  apply lookup_lt_Some in E.
  destruct (code i =? op_ld_abs); [destruct (sd_word d (k i)); [apply IH; lia|done]|].
  destruct (code i =? op_and_k); [apply IH; lia|].
  destruct (code i =? op_jeq_k); [apply IH; lia|done].
Qed.

Lemma bpf_exec_next p d i pc pc' a a' :
  p !! pc = Some i -> (pc < pc')%nat ->
  (forall f, bpf_exec (S f) p pc a d = bpf_exec f p pc' a' d) ->
  bpf_exec (S (length p)) p pc a d = bpf_exec (S (length p)) p pc' a' d.
Proof.
  intros Hp Hlt Hstep. apply lookup_lt_Some in Hp. rewrite Hstep.
  apply bpf_exec_fuel; lia.
Qed.

#[export] Instance bpf_interp : BpfMachine.
Proof.
  refine (Build_BpfMachine (fun p pc a d => bpf_exec (S (length p)) p pc a d) _ _ _ _).
  - intros p pc a d off w Hp Hw. eapply bpf_exec_next; [done|lia|].
    intros f. cbn [bpf_exec]. rewrite Hp. cbn. by rewrite Hw.
  - intros p pc a d v Hp. eapply bpf_exec_next; [done|lia|].
    intros f. simpl. by rewrite Hp.
  - intros p pc a d v t f Hp. eapply bpf_exec_next; [done|lia|].
    intros f'. simpl. by rewrite Hp.
  - intros p pc a d v Hp. simpl. by rewrite Hp.
Defined.

(** * Reasoning about assembled programs *)

(** Program [p] holds the code [c] from address [pc] on. *)
Definition code_at (p : bpf_prog) (pc : nat) (c : list sock_filter) : Prop :=
  forall i x, c !! i = Some x -> p !! (pc + i)%nat = Some x.

Lemma code_at_self p c q : code_at (p ++ c ++ q) (length p) c.
Proof.
  intros i x Hi. rewrite lookup_app_r by lia.
  replace (length p + i - length p)%nat with i by lia. by apply lookup_app_l_Some.
Qed.

Lemma code_at_all p : code_at p 0 p.
Proof. intros i x H. exact H. Qed.

Lemma code_at_head p pc x c : code_at p pc (x :: c) -> p !! pc = Some x.
Proof. intros H. specialize (H 0%nat x eq_refl). by rewrite Nat.add_0_r in H. Qed.

Lemma code_at_tail p pc x c : code_at p pc (x :: c) -> code_at p (S pc) c.
Proof. intros H i y Hi. specialize (H (S i) y Hi). by rewrite Nat.add_succ_r in H. Qed.

Lemma code_at_app p pc c1 c2 :
  code_at p pc (c1 ++ c2) <-> code_at p pc c1 /\ code_at p (pc + length c1) c2.
Proof.
  split.
  - intros H. split; intros i x Hi.
    + apply H. by apply lookup_app_l_Some.
    + rewrite <- Nat.add_assoc. apply H. rewrite lookup_app_r by lia.
      by replace (length c1 + i - length c1)%nat with i by lia.
  - intros [H1 H2] i x [Hi|[Hge Hi]]%lookup_app_Some; [by apply H1|].
    replace (pc + i)%nat with (pc + length c1 + (i - length c1))%nat by lia.
    by apply H2.
Qed.

Lemma code_at_nth p pc c i x :
  code_at p pc c -> c !! i = Some x -> p !! (pc + i)%nat = Some x.
Proof. intros H. apply H. Qed.

(** An emitter that appends exactly the code [c]. *)
Class Emits (m : Asm) (c : list sock_filter) : Prop :=
  emits : forall p, (length p + length c <= bpf_max_insns)%nat -> m p = Some (p ++ c).

#[export] Instance emits_skip : Emits askip [].
Proof. intros p _. unfold askip. by rewrite app_nil_r. Qed.

#[export] Instance emits_seq m1 m2 c1 c2 :
  Emits m1 c1 -> Emits m2 c2 -> Emits (m1 ;;; m2) (c1 ++ c2).
Proof.
  intros H1 H2 p Hp. rewrite length_app in Hp. unfold aseq.
  rewrite (H1 p) by lia. simpl. rewrite (H2 (p ++ c1)) by (rewrite length_app; lia).
  by rewrite app_assoc.
Qed.

#[export] Instance emits_emit c t f v :
  Emits (emit c t f v) [Insn (u16 c) (u8 t) (u8 f) (u32 v)].
Proof.
  intros p Hp. unfold emit. simpl in Hp. rewrite decide_False; [done|lia].
Qed.

#[export] Instance emits_ld off : Emits (E_LD off) [insn_ld (u32 off)].
Proof. exact (emits_emit _ _ _ _). Qed.
#[export] Instance emits_and v : Emits (E_AND v) [insn_and (u32 v)].
Proof. exact (emits_emit _ _ _ _). Qed.
#[export] Instance emits_jeq v t f : Emits (E_JEQ v t f) [insn_jeq (u32 v) (u8 t) (u8 f)].
Proof. exact (emits_emit _ _ _ _). Qed.
#[export] Instance emits_ret v : Emits (E_RET v) [insn_ret (u32 v)].
Proof. exact (emits_emit _ _ _ _). Qed.

Definition c_ret_allow : sock_filter := insn_ret ret_allow.
Definition c_ret_eperm : sock_filter := insn_ret ret_eperm.
Definition c_ret_kill : sock_filter := insn_ret ret_kill.

#[export] Instance emits_ret_allow : Emits RET_ALLOW [c_ret_allow].
Proof. exact (emits_emit _ _ _ _). Qed.
#[export] Instance emits_ret_eperm : Emits RET_EPERM [c_ret_eperm].
Proof. exact (emits_emit _ _ _ _). Qed.
#[export] Instance emits_ret_kill : Emits RET_KILL [c_ret_kill].
Proof. exact (emits_emit _ _ _ _). Qed.
#[export] Instance emits_ld_nr : Emits LD_NR [insn_ld offsetof_nr].
Proof. exact (emits_emit _ _ _ _). Qed.

Section Run.
Context `{BpfMachine}.

Lemma run_ld_nr p pc a d :
  p !! pc = Some (insn_ld offsetof_nr) -> bpf_run p pc a d = bpf_run p (S pc) (nr32 d) d.
Proof. intros Hp. exact (bpf_run_ld _ _ _ _ _ _ Hp eq_refl). Qed.

Lemma run_ld_arch p pc a d :
  p !! pc = Some (insn_ld offsetof_arch) -> bpf_run p pc a d = bpf_run p (S pc) (arch32 d) d.
Proof. intros Hp. exact (bpf_run_ld _ _ _ _ _ _ Hp eq_refl). Qed.

Lemma sd_word_arg d n : (n < 6)%nat -> sd_word d (u32 (offsetof_args n)) = Some (arg32 d n).
Proof. intros Hn. do 6 (destruct n as [|n]; [reflexivity|]). lia. Qed.

Lemma run_ld_arg p pc a d n : (n < 6)%nat ->
  p !! pc = Some (insn_ld (u32 (offsetof_args n))) ->
  bpf_run p pc a d = bpf_run p (S pc) (arg32 d n) d.
Proof. intros Hn Hp. exact (bpf_run_ld _ _ _ _ _ _ Hp (sd_word_arg d n Hn)). Qed.

(** A jump-if-equal whose taken or untaken offset is a given number. *)
Lemma run_jeq_eq p pc a d v t f :
  p !! pc = Some (insn_jeq v t f) -> a = v ->
  bpf_run p pc a d = bpf_run p (S pc + Z.to_nat t) a d.
Proof. intros Hp ->. by rewrite (bpf_run_jeq _ _ _ _ _ _ _ Hp), Z.eqb_refl. Qed.

Lemma run_jeq_ne p pc a d v t f :
  p !! pc = Some (insn_jeq v t f) -> a <> v ->
  bpf_run p pc a d = bpf_run p (S pc + Z.to_nat f) a d.
Proof. intros Hp Hne. by rewrite (bpf_run_jeq _ _ _ _ _ _ _ Hp), (proj2 (Z.eqb_neq a v)). Qed.

End Run.
