(* ===== verification/CapNamespace.v ===== *)
(** The namespace filter of the sandbox shim (src.compat/capsicum.c,
    [emit_arch_guard] .. [install_namespace_filter]).

    [namespace_filter] assembles the denylist program block by block in the
    order of the source.  [ns_denied] is the abstract policy: for each call, by
    name, whether the mode refuses it.  [Guarded] relates an emitter to the
    blocks it stands for, and the main theorem runs the assembled program on an
    arbitrary call. *)

From S2P Require Import Prelude Abi Bpf.

(** Enforcement modes, [MODE_FULL] .. [MODE_PATHS]. *)
Inductive cap_mode := MODE_FULL | MODE_CASPER | MODE_PATHS.

#[export] Instance cap_mode_eq_dec : EqDecision cap_mode.
Proof. solve_decision. Defined.

Section Emitters.
Context `{Abi}.

(** [#ifdef SYS_X ... #endif] *)
Definition ifdef (X : string) (body : Z -> Asm) : Asm :=
  match sys X with Some nr => body nr | None => askip end.

Definition emit_arch_guard : Asm :=
  E_LD offsetof_arch ;;; E_JEQ CU_AUDIT_ARCH 1 0 ;;; RET_KILL.

Definition open_mutate_flags : Z := O_CREAT .| O_TRUNC .| O_APPEND .| O_TMPFILE.

(** Allow [nr] only with read-only open flags. *)
Definition emit_openflags_check (nr : Z) (argn : nat) : Asm :=
  E_JEQ (u32 nr) 0 8 ;;;
  LD_ARG argn ;;;
  E_AND O_ACCMODE ;;;
  E_JEQ O_RDONLY 0 3 ;;;
  LD_ARG argn ;;;
  E_AND open_mutate_flags ;;;
  E_JEQ 0 1 0 ;;;
  RET_EPERM ;;;
  RET_ALLOW.

(** The loop [for (j = 0; j < lookup_nfds; j++)], [n] being [lookup_nfds]. *)
Fixpoint emit_lookup_loop (n j : nat) (fds : list Z) : Asm :=
  match fds with
  | [] => askip
  | fd :: fds =>
    E_JEQ (u32 fd) (u8 (Z.of_nat n - Z.of_nat j)) 0 ;;;
    emit_lookup_loop n (S j) fds
  end.

(** Deny [nr] unless argument 0 is a registered lookup fd. *)
Definition emit_lookup_check (lookup_fds : list Z) (nr : Z) : Asm :=
  let lookup_nfds := length lookup_fds in
  E_JEQ (u32 nr) 0 (u8 (Z.of_nat lookup_nfds + 3)) ;;;
  LD_ARG 0 ;;;
  emit_lookup_loop lookup_nfds 0 lookup_fds ;;;
  RET_EPERM ;;;
  RET_ALLOW.

Definition DENY (nr : Z) : Asm := E_JEQ nr 0 1 ;;; RET_EPERM.

Fixpoint deny_all (names : list string) : Asm :=
  match names with
  | [] => askip
  | X :: names => ifdef X DENY ;;; deny_all names
  end.

(** The calls refused in all modes but the path-scoped one, lines 408-508. *)
Definition path_mutation_syscalls : list string := [
  "link"; "linkat"; "symlink"; "symlinkat"; "rename"; "renameat"; "renameat2";
  "mkdir"; "mkdirat"; "rmdir"; "unlink"; "unlinkat"; "mknod"; "mknodat"; "chdir";
  "chroot"; "mount"; "umount2"; "pivot_root"; "fsopen"; "fsmount"; "fsconfig";
  "fspick"; "move_mount"; "open_tree"; "mount_setattr"; "swapon"; "swapoff";
  "truncate"; "utime"; "utimes"; "utimensat"; "futimesat"].

(** Path reads, refused in full mode only. *)
Definition path_read_syscalls : list string := [
  "access"; "faccessat"; "faccessat2"; "stat"; "lstat"; "readlink"; "readlinkat";
  "getcwd"].

(** Refused in every mode. *)
Definition always_denied_syscalls : list string := [
  "inotify_add_watch"; "fanotify_mark"; "name_to_handle_at"; "open_by_handle_at";
  "execve"; "execveat"; "socket"; "socketpair"; "connect"; "bind"; "listen";
  "accept"; "accept4"; "ptrace"; "process_vm_readv"; "process_vm_writev"; "kcmp";
  "kexec_load"; "kexec_file_load"; "init_module"; "finit_module"; "delete_module";
  "bpf"; "perf_event_open"; "io_uring_setup"; "setns"; "unshare"; "acct";
  "add_key"; "keyctl"; "request_key"; "quotactl"].

Definition lookup_or_deny (lookup_fds : list Z) (nr : Z) : Asm :=
  if decide (0 < length lookup_fds)%nat then emit_lookup_check lookup_fds nr
  else DENY nr.

(** The program [install_namespace_filter] builds. *)
Definition namespace_filter (mode : cap_mode) (lookup_fds : list Z) : Asm :=
  emit_arch_guard ;;;
  LD_NR ;;;
  ifdef "open" (fun nr =>
    match mode with
    | MODE_CASPER => emit_openflags_check nr 1
    | MODE_FULL => DENY nr
    | MODE_PATHS => askip
    end) ;;;
  ifdef "openat" (fun nr =>
    match mode with
    | MODE_CASPER => emit_openflags_check nr 2
    | MODE_FULL => lookup_or_deny lookup_fds nr
    | MODE_PATHS => askip
    end) ;;;
  (if decide (mode = MODE_FULL) then
    ifdef "newfstatat" (lookup_or_deny lookup_fds) ;;;
    ifdef "statx" (lookup_or_deny lookup_fds)
   else askip) ;;;
  (if decide (mode <> MODE_PATHS) then ifdef "openat2" DENY else askip) ;;;
  (if decide (mode <> MODE_PATHS) then ifdef "creat" DENY else askip) ;;;
  (if decide (mode <> MODE_PATHS) then deny_all path_mutation_syscalls else askip) ;;;
  (if decide (mode = MODE_FULL) then deny_all path_read_syscalls else askip) ;;;
  deny_all always_denied_syscalls ;;;
  RET_ALLOW.

(** ** The policy *)

(** Open flags that cannot modify the file system. *)
Definition ro_open (flags : Z) : bool :=
  (flags .& u32 O_ACCMODE =? O_RDONLY) && (flags .& u32 open_mutate_flags =? 0).

Definition lookup_ok (lookup_fds : list Z) (d : seccomp_data) : bool :=
  existsb (fun fd => arg32 d 0 =? u32 fd) lookup_fds.

(** Does the mode refuse the call named [X] with the arguments of [d]? *)
Definition ns_denied (mode : cap_mode) (lookup_fds : list Z) (X : string)
    (d : seccomp_data) : bool :=
  match mode with
  | MODE_FULL =>
    if smem X ["openat"; "newfstatat"; "statx"]
    then negb (lookup_ok lookup_fds d)
    else smem X (["open"; "openat2"; "creat"] ++ path_mutation_syscalls ++
                 path_read_syscalls ++ always_denied_syscalls)
  | MODE_CASPER =>
    if (X =? "open")%string then negb (ro_open (arg32 d 1))
    else if (X =? "openat")%string then negb (ro_open (arg32 d 2))
    else smem X (["openat2"; "creat"] ++ path_mutation_syscalls ++ always_denied_syscalls)
  | MODE_PATHS => smem X always_denied_syscalls
  end.

End Emitters.

(** * Blocks *)

Section Blocks.
Context `{AbiOk} `{BpfMachine}.

Definition verdict : Type := seccomp_data -> bool.

(** The first block whose call is the one made decides. *)
Fixpoint scan (bs : list (string * verdict)) (d : seccomp_data) : option bool :=
  match bs with
  | [] => None
  | (X, v) :: bs => if bool_decide (sys X = Some (nr32 d)) then Some (v d) else scan bs d
  end.

Lemma scan_app bs1 bs2 d :
  scan (bs1 ++ bs2) d = match scan bs1 d with Some b => Some b | None => scan bs2 d end.
Proof. induction bs1 as [|[X v] bs1 IH]; simpl; [done|]. by case_bool_decide. Qed.

Definition answer (b : bool) : option Z := Some (if b then ret_eperm else ret_allow).

(** [m] emits at most [n] instructions that, entered with the call number in
    the accumulator, decide the calls of [bs] and fall through on all others
    with the accumulator unchanged. *)
Definition Guarded (m : Asm) (n : nat) (bs : list (string * verdict)) : Prop :=
  exists c, Emits m c /\ (length c <= n)%nat /\
    forall p pc d, code_at p pc c ->
      bpf_run p pc (nr32 d) d =
        match scan bs d with
        | Some b => answer b
        | None => bpf_run p (pc + length c) (nr32 d) d
        end.

Lemma guarded_skip : Guarded askip 0 [].
Proof. exists []. split; [apply _|]. split; [done|]. intros. by rewrite Nat.add_0_r. Qed.

Lemma guarded_seq m1 m2 n1 n2 bs1 bs2 :
  Guarded m1 n1 bs1 -> Guarded m2 n2 bs2 -> Guarded (m1 ;;; m2) (n1 + n2) (bs1 ++ bs2).
Proof.
  intros (c1 & He1 & Hl1 & Hr1) (c2 & He2 & Hl2 & Hr2).
  exists (c1 ++ c2). split; [by apply emits_seq|]. rewrite length_app. split; [lia|].
  intros p pc d [Hc1 Hc2]%code_at_app. rewrite (Hr1 _ _ _ Hc1), scan_app.
  destruct (scan bs1 d); [done|]. by rewrite (Hr2 _ _ _ Hc2), Nat.add_assoc.
Qed.

Lemma sys_match X nr d : sys X = Some nr ->
  bool_decide (sys X = Some (nr32 d)) = (nr32 d =? u32 nr).
Proof.
  intros HX. pose proof (sys_range _ _ HX). rewrite HX, (u32_small nr) by lia.
  destruct (Z.eqb_spec (nr32 d) nr) as [->|Hne].
  - by rewrite bool_decide_eq_true_2.
  - rewrite bool_decide_eq_false_2; congruence.
Qed.

Lemma guarded_deny X nr : sys X = Some nr -> Guarded (DENY nr) 2 [(X, fun _ => true)].
Proof.
  intros HX. eexists. split; [unfold DENY; apply _|]. split; [done|].
  intros p pc d Hc. simpl. rewrite (sys_match X nr d HX).
  rewrite (bpf_run_jeq _ _ _ _ _ _ _ (code_at_head _ _ _ _ Hc)).
  apply code_at_tail in Hc. destruct (nr32 d =? u32 nr).
  - rewrite Nat.add_0_r. by rewrite (bpf_run_ret _ _ _ _ _ (code_at_head _ _ _ _ Hc)).
  - change (Z.to_nat (u8 1)) with 1%nat. f_equal. simpl. lia.
Qed.

Lemma guarded_ifdef X body n v :
  (forall nr, sys X = Some nr -> Guarded (body nr) n [(X, v)]) ->
  Guarded (ifdef X body) n [(X, v)].
Proof.
  intros Hb. unfold ifdef. destruct (sys X) as [nr|] eqn:HX; [by apply Hb|].
  destruct guarded_skip as (c & He & Hl & Hr). exists c. split; [done|].
  split; [lia|]. intros p pc d Hc. rewrite (Hr _ _ _ Hc). simpl. by rewrite HX.
Qed.

Lemma guarded_ifdef_skip X : Guarded (ifdef X (fun _ => askip)) 0 [].
Proof. unfold ifdef. destruct (sys X); apply guarded_skip. Qed.

Definition denies (names : list string) : list (string * verdict) :=
  map (fun X => (X, fun _ => true)) names.

Lemma guarded_deny_all names :
  Guarded (deny_all names) (2 * length names) (denies names).
Proof.
  induction names as [|X names IH]; [apply guarded_skip|]. simpl deny_all.
  replace (2 * length (X :: names))%nat with (2 + 2 * length names)%nat by (simpl; lia).
  apply (guarded_seq _ _ _ _ [_]); [|done]. apply guarded_ifdef, guarded_deny.
Qed.

Lemma guarded_when (b : bool) m n bs :
  Guarded m n bs -> Guarded (if b then m else askip) n (if b then bs else []).
Proof.
  destruct b; [done|]. intros _. destruct guarded_skip as (c & ? & ? & ?).
  exists c. split; [done|]. split; [lia|done].
Qed.

(** Step through straight-line code, [Hc] being the [code_at] fact. *)
Ltac code_step Hc lem :=
  first [ rewrite (lem _ _ _ _ _ (code_at_head _ _ _ _ Hc))
        | rewrite (lem _ _ _ _ _ _ _ (code_at_head _ _ _ _ Hc)) ];
  apply code_at_tail in Hc.

Lemma guarded_openflags X nr argn : sys X = Some nr -> (argn < 6)%nat ->
  Guarded (emit_openflags_check nr argn) 9 [(X, fun d => negb (ro_open (arg32 d argn)))].
Proof.
  intros HX Hn. eexists. split; [unfold emit_openflags_check, LD_ARG; apply _|].
  split; [done|]. intros p pc d Hc. cbn [scan app] in *. rewrite (sys_match X nr d HX).
  assert (forall i x, _ !! i = Some x -> p !! (pc + i)%nat = Some x) as Hat by exact Hc.
  rewrite (bpf_run_jeq _ _ _ _ _ _ _ (code_at_head _ _ _ _ Hc)), u32_idem.
  destruct (nr32 d =? u32 nr) eqn:E; [|by rewrite Nat.add_succ_l, <- Nat.add_succ_r].
  change (Z.to_nat (u8 0)) with 0%nat. rewrite Nat.add_0_r. apply code_at_tail in Hc.
  rewrite (run_ld_arg _ _ _ _ _ Hn (code_at_head _ _ _ _ Hc)). apply code_at_tail in Hc.
  code_step Hc bpf_run_and.
  rewrite (bpf_run_jeq _ _ _ _ _ _ _ (code_at_head _ _ _ _ Hc)). apply code_at_tail in Hc.
  pose proof rdonly_range. rewrite (u32_small O_RDONLY) by lia. unfold ro_open.
  destruct (arg32 d argn .& u32 O_ACCMODE =? O_RDONLY).
  - change (Z.to_nat (u8 0)) with 0%nat. rewrite Nat.add_0_r.
    rewrite (run_ld_arg _ _ _ _ _ Hn (code_at_head _ _ _ _ Hc)). apply code_at_tail in Hc.
    code_step Hc bpf_run_and.
    rewrite (bpf_run_jeq _ _ _ _ _ _ _ (code_at_head _ _ _ _ Hc)). apply code_at_tail in Hc.
    change (u32 0) with 0. destruct (_ =? 0).
    + apply code_at_tail in Hc. change (Z.to_nat (u8 1)) with 1%nat. rewrite Nat.add_1_r.
      by rewrite (bpf_run_ret _ _ _ _ _ (code_at_head _ _ _ _ Hc)).
    + change (Z.to_nat (u8 0)) with 0%nat. rewrite Nat.add_0_r.
      by rewrite (bpf_run_ret _ _ _ _ _ (code_at_head _ _ _ _ Hc)).
  - change (Z.to_nat (u8 3)) with 3%nat. do 3 apply code_at_tail in Hc.
    rewrite !Nat.add_succ_r, Nat.add_0_r.
    by rewrite (bpf_run_ret _ _ _ _ _ (code_at_head _ _ _ _ Hc)).
Qed.

Fixpoint lookup_code (n j : nat) (fds : list Z) : list sock_filter :=
  match fds with
  | [] => []
  | fd :: fds =>
    insn_jeq (u32 (u32 fd)) (u8 (u8 (Z.of_nat n - Z.of_nat j))) (u8 0)
      :: lookup_code n (S j) fds
  end.

Lemma lookup_code_length fds : forall n j, length (lookup_code n j fds) = length fds.
Proof. induction fds; intros; simpl; [done|]. by rewrite IHfds. Qed.

#[local] Instance emits_lookup_loop n : forall fds j,
  Emits (emit_lookup_loop n j fds) (lookup_code n j fds).
Proof.
  induction fds as [|fd fds IH]; intros j; [apply _|].
  apply (emits_seq _ _ [_]); [apply _|apply IH].
Qed.

(** The loop jumps one past the [RET_EPERM] that follows it on a listed fd. *)
Lemma run_lookup_loop n : (n <= 8)%nat -> forall fds j p pc a d,
  (j + length fds = n)%nat -> code_at p pc (lookup_code n j fds) ->
  bpf_run p pc a d =
    bpf_run p (pc + length fds + if existsb (fun fd => (a =? u32 fd)%Z) fds then 1 else 0) a d.
Proof.
  intros Hn. induction fds as [|fd fds IH]; intros j p pc a d Hj Hc; simpl.
  { f_equal. lia. }
  rewrite (bpf_run_jeq _ _ _ _ _ _ _ (code_at_head _ _ _ _ Hc)), u32_idem.
  apply code_at_tail in Hc. destruct (a =? u32 fd).
  - rewrite (u8_small (Z.of_nat n - Z.of_nat j)) by (simpl in Hj; lia).
    rewrite u8_small by (simpl in Hj; lia). f_equal. simpl in *. lia.
  - change (Z.to_nat (u8 0)) with 0%nat. rewrite Nat.add_0_r.
    rewrite (IH (S j) p (S pc) a d); [|simpl in Hj; lia|done].
    f_equal. simpl. lia.
Qed.

Lemma guarded_lookup fds X nr : (length fds <= 8)%nat -> sys X = Some nr ->
  Guarded (emit_lookup_check fds nr) 12 [(X, fun d => negb (lookup_ok fds d))].
Proof.
  intros Hn HX. eexists. split; [unfold emit_lookup_check, LD_ARG; apply _|].
  split. { rewrite !length_app, lookup_code_length. simpl. lia. }
  intros p pc d Hc. cbn [scan]. rewrite (sys_match X nr d HX).
  rewrite (bpf_run_jeq _ _ _ _ _ _ _ (code_at_head _ _ _ _ Hc)), u32_idem.
  apply code_at_tail in Hc. destruct (nr32 d =? u32 nr) eqn:E.
  - change (Z.to_nat (u8 0)) with 0%nat. rewrite Nat.add_0_r.
    rewrite (run_ld_arg p (S pc) _ d 0 ltac:(lia) (code_at_head _ _ _ _ Hc)).
    apply code_at_tail, code_at_app in Hc as [Hl Hr].
    rewrite (run_lookup_loop _ Hn fds 0 _ _ _ _ eq_refl Hl).
    rewrite lookup_code_length in Hr. unfold lookup_ok.
    destruct (existsb _ fds); cbn [negb].
    + apply code_at_tail in Hr. rewrite Nat.add_1_r.
      by rewrite (bpf_run_ret _ _ _ _ _ (code_at_head _ _ _ _ Hr)).
    + rewrite Nat.add_0_r. by rewrite (bpf_run_ret _ _ _ _ _ (code_at_head _ _ _ _ Hr)).
  - rewrite (u8_small (Z.of_nat (length fds) + 3)) by lia. rewrite u8_small by lia.
    f_equal. rewrite !length_app, lookup_code_length. simpl. lia.
Qed.

Lemma guarded_lookup_or_deny fds X nr : (length fds <= 8)%nat -> sys X = Some nr ->
  Guarded (lookup_or_deny fds nr) 12 [(X, fun d => negb (lookup_ok fds d))].
Proof.
  intros Hn HX. unfold lookup_or_deny. case_decide; [by apply guarded_lookup|].
  destruct fds; [|simpl in *; lia].
  destruct (guarded_deny X nr HX) as (c & He & Hl & Hr).
  exists c. split; [done|]. split; [lia|done].
Qed.

(** ** The whole filter as blocks *)

Definition open_blocks (mode : cap_mode) (fds : list Z) : list (string * verdict) :=
  match mode with
  | MODE_FULL =>
    [("open", fun _ => true); ("openat", fun d => negb (lookup_ok fds d));
     ("newfstatat", fun d => negb (lookup_ok fds d));
     ("statx", fun d => negb (lookup_ok fds d));
     ("openat2", fun _ => true); ("creat", fun _ => true)]
  | MODE_CASPER =>
    [("open", fun d => negb (ro_open (arg32 d 1)));
     ("openat", fun d => negb (ro_open (arg32 d 2)));
     ("openat2", fun _ => true); ("creat", fun _ => true)]
  | MODE_PATHS => []
  end.

Definition denied_names (mode : cap_mode) : list string :=
  match mode with
  | MODE_FULL => path_mutation_syscalls ++ path_read_syscalls ++ always_denied_syscalls
  | MODE_CASPER => path_mutation_syscalls ++ always_denied_syscalls
  | MODE_PATHS => always_denied_syscalls
  end.

Definition filter_blocks (mode : cap_mode) (fds : list Z) : list (string * verdict) :=
  open_blocks mode fds ++ denies (denied_names mode).

(** A program tail that ends in [RET_ALLOW] and so decides every call. *)
Definition Decides (m : Asm) (n : nat) (bs : list (string * verdict)) : Prop :=
  exists c, Emits m c /\ (length c <= n)%nat /\
    forall p pc d, code_at p pc c ->
      bpf_run p pc (nr32 d) d = answer (default false (scan bs d)).

Lemma decides_allow : Decides RET_ALLOW 1 [].
Proof.
  eexists. split; [apply _|]. split; [done|]. intros p pc d Hc.
  by rewrite (bpf_run_ret _ _ _ _ _ (code_at_head _ _ _ _ Hc)).
Qed.

Lemma decides_seq m1 m2 n1 n2 bs1 bs2 :
  Guarded m1 n1 bs1 -> Decides m2 n2 bs2 -> Decides (m1 ;;; m2) (n1 + n2) (bs1 ++ bs2).
Proof.
  intros (c1 & He1 & Hl1 & Hr1) (c2 & He2 & Hl2 & Hr2).
  exists (c1 ++ c2). split; [by apply emits_seq|]. rewrite length_app. split; [lia|].
  intros p pc d [Hc1 Hc2]%code_at_app. rewrite (Hr1 _ _ _ Hc1), scan_app.
  destruct (scan bs1 d); [done|]. by rewrite (Hr2 _ _ _ Hc2).
Qed.

(** The arch guard and the load of the call number in front of a tail that
    answers [R d] for every call [d]. *)
Lemma arch_program m c (R : seccomp_data -> option Z) :
  Emits m c -> (length c <= 500)%nat ->
  (forall p pc d, code_at p pc c -> bpf_run p pc (nr32 d) d = R d) ->
  exists p, (emit_arch_guard ;;; LD_NR ;;; m) [] = Some p /\
    forall d, filter_result p d = if arch32 d =? CU_AUDIT_ARCH then R d else Some ret_kill.
Proof.
  intros He Hl Hr.
  pose proof (emits_seq _ _ _ _ (ltac:(unfold emit_arch_guard; apply _) : Emits emit_arch_guard _)
    (emits_seq _ _ _ _ emits_ld_nr He)) as Hall.
  eexists. split. { apply Hall. simpl. unfold bpf_max_insns. lia. }
  intros d. unfold filter_result. rewrite app_nil_l.
  match goal with |- bpf_run ?p _ _ _ = _ => pose proof (code_at_all p) as Hc;
    revert Hc; generalize p at 1 3; intros p' Hc end.
  rewrite (run_ld_arch _ _ _ _ (code_at_head _ _ _ _ Hc)). apply code_at_tail in Hc.
  rewrite (bpf_run_jeq _ _ _ _ _ _ _ (code_at_head _ _ _ _ Hc)). apply code_at_tail in Hc.
  pose proof arch_range. rewrite (u32_small CU_AUDIT_ARCH) by lia.
  destruct (arch32 d =? CU_AUDIT_ARCH).
  - apply code_at_tail in Hc. change (2 + Z.to_nat (u8 1))%nat with 3%nat.
    rewrite (run_ld_nr _ _ _ _ (code_at_head _ _ _ _ Hc)). apply code_at_tail in Hc.
    exact (Hr _ _ _ Hc).
  - change (Z.to_nat (u8 0)) with 0%nat. rewrite Nat.add_0_r.
    by rewrite (bpf_run_ret _ _ _ _ _ (code_at_head _ _ _ _ Hc)).
Qed.

Lemma guarded_program m n bs' bs : Decides m n bs' -> bs' = bs -> (n <= 500)%nat ->
  exists p, (emit_arch_guard ;;; LD_NR ;;; m) [] = Some p /\
    forall d, filter_result p d =
      if arch32 d =? CU_AUDIT_ARCH then answer (default false (scan bs d))
      else Some ret_kill.
Proof.
  intros (c & He & Hl & Hr) <- Hn.
  apply (arch_program m c (fun d => answer (default false (scan bs' d)))); [done|lia|done].
Qed.

Lemma namespace_filter_scans mode fds : (length fds <= 8)%nat ->
  exists p, namespace_filter mode fds [] = Some p /\
    forall d, filter_result p d =
      if arch32 d =? CU_AUDIT_ARCH
      then answer (default false (scan (filter_blocks mode fds) d))
      else Some ret_kill.
Proof.
  intros Hn. unfold namespace_filter, filter_blocks.
  pose proof (fun X => guarded_ifdef X _ _ _ (fun nr => guarded_lookup_or_deny fds X nr Hn)) as Hlk.
  pose proof (fun X => guarded_ifdef X _ _ _ (guarded_deny X)) as Hdeny.
  pose proof (fun X n H => guarded_ifdef X _ _ _ (fun nr HX => guarded_openflags X nr n HX H)) as Hro.
  pose proof guarded_deny_all as Hall.
  pose proof (decides_seq _ _ _ _ _ _ (Hall always_denied_syscalls) decides_allow) as Htail.
  rewrite app_nil_r in Htail.
  destruct mode;
    repeat first [ rewrite decide_True by done | rewrite decide_False by (tauto || done) ];
    (eapply guarded_program;
     [ repeat (first [ exact Htail | eapply decides_seq | eapply guarded_seq
                     | apply guarded_ifdef_skip | apply guarded_skip | apply Hdeny
                     | apply Hlk | apply (Hro _ 1%nat); lia | apply (Hro _ 2%nat); lia
                     | apply Hall ])
     | reflexivity
     | apply Nat.leb_le; reflexivity ]).
Qed.

(** ** From blocks to the policy *)

Fixpoint assoc (X : string) (bs : list (string * verdict)) : option verdict :=
  match bs with
  | [] => None
  | (Y, v) :: bs => if (X =? Y)%string then Some v else assoc X bs
  end.

Lemma scan_assoc X bs d : sys X = Some (nr32 d) -> scan bs d = (fun v => v d) <$> assoc X bs.
Proof.
  intros HX. induction bs as [|[Y v] bs IH]; simpl; [done|]. rewrite IH.
  destruct (String.eqb_spec X Y) as [<-|E].
  - by rewrite bool_decide_eq_true_2.
  - rewrite bool_decide_eq_false_2; [done|]. intros HY. eauto using sys_inj.
Qed.

Lemma scan_unknown bs d : (forall X, sys X <> Some (nr32 d)) -> scan bs d = None.
Proof.
  intros Hno. induction bs as [|[Y v] bs IH]; simpl; [done|].
  by rewrite bool_decide_eq_false_2.
Qed.

Lemma assoc_app X bs1 bs2 :
  assoc X (bs1 ++ bs2) = match assoc X bs1 with Some v => Some v | None => assoc X bs2 end.
Proof. induction bs1 as [|[Y v] bs1 IH]; simpl; [done|]. by destruct (X =? Y)%string. Qed.

Lemma assoc_denies X names d :
  default false ((fun v => v d) <$> assoc X (denies names)) = smem X names.
Proof.
  induction names as [|Y names IH]; [done|]. rewrite smem_cons. simpl.
  by destruct (X =? Y)%string.
Qed.

(** The blocks of a mode implement its policy. *)
Lemma blocks_policy mode fds X d : sys X = Some (nr32 d) ->
  default false (scan (filter_blocks mode fds) d) = ns_denied mode fds X d.
Proof.
  intros HX. rewrite (scan_assoc X) by done. unfold filter_blocks. rewrite assoc_app.
  destruct mode; unfold ns_denied; cbn [open_blocks assoc denied_names];
    rewrite ?smem_app, ?smem_cons.
  all: repeat match goal with
       | |- context [(?x =? ?Y)%string] => destruct (String.eqb_spec x Y) as [->|]; [reflexivity|]
       end.
  all: by rewrite assoc_denies, ?smem_app.
Qed.

(** The filter answers as the policy says. *)
Lemma namespace_filter_exact mode lookup_fds :
  (length lookup_fds <= 8)%nat ->
  exists p, namespace_filter mode lookup_fds [] = Some p /\
    forall d,
      (arch32 d <> CU_AUDIT_ARCH -> filter_result p d = Some ret_kill) /\
      (arch32 d = CU_AUDIT_ARCH ->
        (forall X, sys X = Some (nr32 d) ->
          filter_result p d =
            Some (if ns_denied mode lookup_fds X d then ret_eperm else ret_allow)) /\
        ((forall X, sys X <> Some (nr32 d)) -> filter_result p d = Some ret_allow)).
Proof.
  intros Hn. destruct (namespace_filter_scans mode lookup_fds Hn) as (p & Hp & Hr).
  exists p. split; [done|]. intros d. rewrite Hr. split; intros Harch.
  - by rewrite (proj2 (Z.eqb_neq _ _) Harch).
  - rewrite Harch, Z.eqb_refl. split.
    + intros X HX. by rewrite (blocks_policy mode lookup_fds X d HX).
    + intros Hno. by rewrite scan_unknown.
Qed.

End Blocks.

(** * Properties *)

(** C3. The namespace filter implements the mode's policy exactly: the program
    always fits its buffer, kills a call made through another architecture,
    answers EPERM for precisely the calls (with precisely the arguments) the
    policy refuses, and allows everything else. *)
Theorem namespace_filter_policy `{AbiOk} `{BpfMachine} mode lookup_fds :
  (length lookup_fds <= 8)%nat ->
  exists p, namespace_filter mode lookup_fds [] = Some p /\
    forall d,
      (arch32 d <> CU_AUDIT_ARCH -> filter_result p d = Some ret_kill) /\
      (arch32 d = CU_AUDIT_ARCH ->
        (forall X, sys X = Some (nr32 d) ->
          filter_result p d =
            Some (if ns_denied mode lookup_fds X d then ret_eperm else ret_allow)) /\
        ((forall X, sys X <> Some (nr32 d)) -> filter_result p d = Some ret_allow)).
Proof. apply namespace_filter_exact. Qed.

Lemma namespace_filter_policy_witness :
  exists p, @namespace_filter x86_64 MODE_CASPER [] [] = Some p /\
    filter_result p (SeccompData 59 0xC000003E 0 (fun _ => 0)) = Some ret_eperm /\
    filter_result p (SeccompData 257 0xC000003E 0 (fun _ => 0)) = Some ret_allow /\
    filter_result p (SeccompData 257 0xC000003E 0 (fun _ => 1)) = Some ret_eperm.
Proof.
  destruct (namespace_filter_policy (H0 := x86_64_ok) MODE_CASPER [] ltac:(simpl; lia))
    as (p & Hp & Hr).
  exists p. split; [exact Hp|].
  repeat split.
  - exact (proj1 (proj2 (Hr (SeccompData 59 0xC000003E 0 _)) eq_refl) "execve" eq_refl).
  - exact (proj1 (proj2 (Hr (SeccompData 257 0xC000003E 0 _)) eq_refl) "openat" eq_refl).
  - exact (proj1 (proj2 (Hr (SeccompData 257 0xC000003E 0 _)) eq_refl) "openat" eq_refl).
Defined.

(** The modes are ordered: without registered lookup directories, whatever
    the path-scoped mode refuses the read-only mode refuses, and whatever the
    read-only mode refuses full lockdown refuses, for every call and argument. *)
Theorem mode_strictness `{Abi} X d :
  (ns_denied MODE_PATHS [] X d = true -> ns_denied MODE_CASPER [] X d = true) /\
  (ns_denied MODE_CASPER [] X d = true -> ns_denied MODE_FULL [] X d = true).
Proof.
  unfold ns_denied. rewrite !smem_app, !smem_cons.
  change (smem X []) with false. change (lookup_ok [] d) with false.
  destruct (String.eqb_spec X "open") as [->|]; [by destruct (ro_open _)|].
  destruct (String.eqb_spec X "openat") as [->|]; [by destruct (ro_open _)|].
  destruct (smem X path_mutation_syscalls), (smem X path_read_syscalls),
    (smem X always_denied_syscalls).
  all: repeat match goal with
       | |- context [(?x =? ?Y)%string] => destruct (x =? Y)%string
       end; done.
Qed.

(** Calls the shim's policy does not name are allowed in every mode: path-based
    changes of ownership, permission bits and extended attributes are among
    them, and Landlock has no access right for them either. *)
Lemma metadata_changes_allowed `{Abi} mode fds d :
  Forall (fun X => ns_denied mode fds X d = false)
    ["chmod"; "fchmodat"; "chown"; "lchown"; "fchownat"; "setxattr"].
Proof. destruct mode; repeat constructor. Qed.

(** On x86-64 a call made through the x32 table carries the same architecture
    tag and a number with bit 30 set, which no entry of the denylist matches:
    x32 [execve] (520) passes the filter of every mode. *)
Lemma x32_execve_allowed mode :
  (fun p => filter_result p
     (SeccompData (0x40000000 + 520) 0xC000003E 0 (fun _ => 0))) <$>
    @namespace_filter x86_64 mode [] [] = Some (Some ret_allow).
Proof. destruct mode; vm_compute; reflexivity. Qed.
