(* ===== verification/CapFdRights.v ===== *)
(** The per-descriptor filters of the sandbox shim (src.compat/capsicum.c,
    [emit_fd_deny], [limit_fd_syscalls], [limit_fd_arg1], [install_entry_chunk],
    [install_arg1_limits]).

    [fd_filter] refuses listed calls on listed descriptors, [arg1_filter] and
    [arg1_limits_filter] restrict the second argument of ioctl and fcntl to an
    allowlist, patching forward jumps after the code is laid out.  Each filter is
    run on an arbitrary call and compared with what it is meant to refuse. *)

From S2P Require Import Prelude Abi Bpf CapNamespace.

(** * Deny entries *)

(** [struct deny_ent] *)
Record deny_ent := DenyEnt { de_nr : Z; de_argn : nat; de_fd : Z }.

Section Emitters.
Context `{Abi}.

(** The loop of [emit_fd_deny]; [n] entries in all, [i] already emitted. *)
Fixpoint emit_fd_deny_loop (n i : nat) (ents : list deny_ent) : Asm :=
  match ents with
  | [] => askip
  | e :: ents =>
    E_JEQ (u32 (de_nr e)) 0 2 ;;;
    LD_ARG (de_argn e) ;;;
    E_JEQ (u32 (de_fd e)) (u8 (3 * (Z.of_nat n - Z.of_nat i) - 2)) 0 ;;;
    emit_fd_deny_loop n (S i) ents
  end.

Definition emit_fd_deny (ents : list deny_ent) : Asm :=
  emit_fd_deny_loop (length ents) 0 ents ;;;
  RET_ALLOW ;;;
  RET_EPERM.

(** The program of [install_entry_chunk] and of [limit_fd_syscalls]. *)
Definition install_entry_chunk (ents : list deny_ent) : Asm :=
  emit_arch_guard ;;; LD_NR ;;; emit_fd_deny ents.

(** [limit_fd_syscalls] writes its descriptor into every entry first; no program
    is built for an empty list. *)
Definition limit_fd_syscalls (fd : Z) (ents : list deny_ent) : option Asm :=
  if decide (ents = []) then None
  else Some (install_entry_chunk
               (map (fun e => DenyEnt (de_nr e) (de_argn e) fd) ents)).

(** * Second-argument allowlists *)

(** Read [p->len]. *)
Definition with_len (f : nat -> Asm) : Asm := fun p => f (length p) p.

Fixpoint emit_cmds (cmds : list Z) : Asm :=
  match cmds with
  | [] => askip
  | c :: cmds => E_JEQ (u32 c) 0 0 ;;; emit_cmds cmds
  end.

(** [insns[idx].jf = (uint8_t)(allow_idx - idx - 1)] and the same for [jt]. *)
Definition patch_jf_to (allow_idx idx : nat) : Asm :=
  patch_jf idx (Z.of_nat allow_idx - Z.of_nat idx - 1).
Definition patch_jt_to (allow_idx idx : nat) : Asm :=
  patch_jt idx (Z.of_nat allow_idx - Z.of_nat idx - 1).

Fixpoint patch_all_jt (allow_idx : nat) (idxs : list nat) : Asm :=
  match idxs with
  | [] => askip
  | idx :: idxs => patch_jt_to allow_idx idx ;;; patch_all_jt allow_idx idxs
  end.

(** [limit_fd_arg1]: refuse [nr] on [fd] unless argument 1 is listed. *)
Definition limit_fd_arg1 (fd nr : Z) (allowed : list Z) : Asm :=
  emit_arch_guard ;;;
  LD_NR ;;;
  with_len (fun start =>
    E_JEQ (u32 nr) 0 0 ;;;
    LD_ARG 0 ;;;
    E_JEQ (u32 fd) 0 0 ;;;
    LD_ARG 1 ;;;
    emit_cmds allowed ;;;
    RET_EPERM ;;;
    with_len (fun allow_idx =>
      RET_ALLOW ;;;
      patch_jf_to allow_idx start ;;;
      patch_jf_to allow_idx (start + 2) ;;;
      patch_all_jt allow_idx (seq (start + 4) (length allowed)))).

(** ** One filter for all registered descriptors *)

(** [cmd_idx[96]] on the stack of [install_arg1_limits]. *)
Definition cmd_idx_size : nat := 96.

Inductive arg1_outcome :=
| NothingToLoad
| Load (p : bpf_prog)
| RefusedENOSPC
| Aborted
| CmdIdxOverflow.

(** State of the emission loop. *)
Record arg1_state := Arg1State {
  a1_prog : bpf_prog;
  a1_prev_fd_idx : option nat;
  a1_cmd_idx : list nat
}.

Inductive arg1_fault := FaultAbort | FaultOverflow.

Definition run_asm (m : Asm) (s : arg1_state) : arg1_fault + arg1_state :=
  match m (a1_prog s) with
  | Some p => inr (Arg1State p (a1_prev_fd_idx s) (a1_cmd_idx s))
  | None => inl FaultAbort
  end.

Definition rbind {A B} (r : arg1_fault + A) (f : A -> arg1_fault + B) : arg1_fault + B :=
  match r with inl e => inl e | inr a => f a end.

(** [for (j = 0; j < nlist; j++) { cmd_idx[ncmd++] = p->len; E_JEQ(..); }] *)
Fixpoint arg1_cmds (cmds : list Z) (s : arg1_state) : arg1_fault + arg1_state :=
  match cmds with
  | [] => inr s
  | c :: cmds =>
    if decide (length (a1_cmd_idx s) < cmd_idx_size)%nat then
      let s := Arg1State (a1_prog s) (a1_prev_fd_idx s)
                 (a1_cmd_idx s ++ [length (a1_prog s)]) in
      rbind (run_asm (E_JEQ (u32 c) 0 0) s) (arg1_cmds cmds)
    else inl FaultOverflow
  end.

(** One iteration of the loop over the registry. *)
Definition arg1_block (fd : Z) (cmds : list Z) (s : arg1_state) : arg1_fault + arg1_state :=
  rbind (match a1_prev_fd_idx s with
         | Some prev => run_asm (with_len (fun len => patch_jf_to len prev)) s
         | None => inr s
         end) (fun s =>
  rbind (run_asm (LD_ARG 0) s) (fun s =>
  let prev := length (a1_prog s) in
  rbind (run_asm (E_JEQ (u32 fd) 0 0) s) (fun s =>
  rbind (run_asm (LD_ARG 1) (Arg1State (a1_prog s) (Some prev) (a1_cmd_idx s))) (fun s =>
  rbind (arg1_cmds cmds s) (run_asm RET_EPERM))))).

Fixpoint arg1_blocks (lims : list (Z * list Z)) (s : arg1_state) : arg1_fault + arg1_state :=
  match lims with
  | [] => inr s
  | (fd, cmds) :: lims => rbind (arg1_block fd cmds s) (arg1_blocks lims)
  end.

(** After the loop: [RET_ALLOW], then every pending jump is patched to it. *)
Definition arg1_patches (nr_idx : nat) (s : arg1_state) : arg1_fault + (nat * bpf_prog) :=
  let allow_idx := length (a1_prog s) in
  rbind (run_asm RET_ALLOW s) (fun s =>
  rbind (run_asm (match a1_prev_fd_idx s with
                  | Some prev => patch_jf_to allow_idx prev
                  | None => askip
                  end) s) (fun s =>
  rbind (run_asm (patch_jf_to allow_idx nr_idx) s) (fun s =>
  rbind (run_asm (patch_all_jt allow_idx (a1_cmd_idx s)) s) (fun s =>
  inr (allow_idx, a1_prog s))))).

Definition arg1_program (nr : Z) (lims : list (Z * list Z)) : arg1_fault + (nat * bpf_prog) :=
  rbind (run_asm (emit_arch_guard ;;; LD_NR) (Arg1State [] None [])) (fun s =>
  let nr_idx := length (a1_prog s) in
  rbind (run_asm (E_JEQ (u32 nr) 0 0) s) (fun s =>
  rbind (arg1_blocks lims s) (arg1_patches nr_idx))).

(** [install_arg1_limits] on the descriptors that have an allowlist. *)
Definition install_arg1_limits (nr : Z) (lims : list (Z * list Z)) : arg1_outcome :=
  if decide (lims = []) then NothingToLoad
  else
    match arg1_program nr lims with
    | inl FaultAbort => Aborted
    | inl FaultOverflow => CmdIdxOverflow
    | inr (allow_idx, p) =>
      if decide (200 < allow_idx)%nat then RefusedENOSPC else Load p
    end.

End Emitters.

(** * What the deny entries do *)

Section FdDeny.
Context `{AbiOk} `{BpfMachine}.

(** The walk over the entries with the accumulator [a]: the call number until
    an entry matches it, the argument that entry loaded from then on. *)
Fixpoint fd_scan (ents : list deny_ent) (a : Z) (d : seccomp_data) : bool :=
  match ents with
  | [] => false
  | e :: ents =>
    if a =? u32 (de_nr e) then
      let a' := arg32 d (de_argn e) in
      if a' =? u32 (de_fd e) then true else fd_scan ents a' d
    else fd_scan ents a d
  end.

Definition args_ok (ents : list deny_ent) : Prop := Forall (fun e => (de_argn e < 6)%nat) ents.

Fixpoint fd_code (n i : nat) (ents : list deny_ent) : list sock_filter :=
  match ents with
  | [] => []
  | e :: ents =>
    [insn_jeq (u32 (u32 (de_nr e))) (u8 0) (u8 2)] ++
    [insn_ld (u32 (offsetof_args (de_argn e)))] ++
    [insn_jeq (u32 (u32 (de_fd e))) (u8 (u8 (3 * (Z.of_nat n - Z.of_nat i) - 2))) (u8 0)] ++
    fd_code n (S i) ents
  end.

Lemma fd_code_length ents : forall n i, length (fd_code n i ents) = (3 * length ents)%nat.
Proof. induction ents as [|e ents IH]; intros; simpl; [done|]. rewrite IH. lia. Qed.

#[local] Instance emits_fd_loop n : forall ents i, Emits (emit_fd_deny_loop n i ents) (fd_code n i ents).
Proof.
  induction ents as [|e ents IH]; intros i; [apply _|].
  cbn [emit_fd_deny_loop fd_code]. unfold LD_ARG.
  repeat (apply emits_seq; [apply _|]). apply IH.
Qed.

Lemma run_fd_loop n : (n <= 85)%nat -> forall ents i p pc a d,
  args_ok ents -> (i + length ents = n)%nat ->
  code_at p pc (fd_code n i ents ++ [c_ret_allow] ++ [c_ret_eperm]) ->
  bpf_run p pc a d = answer (fd_scan ents a d).
Proof.
  intros Hn. induction ents as [|e ents IH]; intros i p pc a d Hargs Hi Hc.
  { by rewrite (bpf_run_ret _ _ _ _ _ (code_at_head _ _ _ _ Hc)). }
  apply Forall_cons in Hargs as [Harg Hargs]. simpl in Hi.
  pose proof Hc as Hall. cbn [fd_code app] in Hc.
  pose proof (code_at_head _ _ _ _ Hc) as H0c. apply code_at_tail in Hc.
  pose proof (code_at_head _ _ _ _ Hc) as H1c. apply code_at_tail in Hc.
  pose proof (code_at_head _ _ _ _ Hc) as H2c. apply code_at_tail in Hc.
  rewrite (bpf_run_jeq _ _ _ _ _ _ _ H0c), u32_idem. cbn [fd_scan].
  destruct (a =? u32 (de_nr e)).
  - change (Z.to_nat (u8 0)) with 0%nat. rewrite Nat.add_0_r.
    rewrite (run_ld_arg _ _ _ _ _ Harg H1c), (bpf_run_jeq _ _ _ _ _ _ _ H2c), u32_idem.
    destruct (arg32 d (de_argn e) =? u32 (de_fd e)).
    + rewrite (u8_small (3 * _ - 2)) by lia. rewrite u8_small by lia.
      rewrite (bpf_run_ret _ _ _ _ ret_eperm); [done|].
      replace (S (S (S pc)) + _)%nat with (pc + (3 * length (e :: ents) + 1))%nat
        by (simpl length; lia).
      apply (code_at_nth _ _ _ _ _ Hall).
      rewrite lookup_app_r by (rewrite fd_code_length; lia).
      rewrite fd_code_length.
      by replace (3 * length (e :: ents) + 1 - 3 * length (e :: ents))%nat with 1%nat by lia.
    + change (Z.to_nat (u8 0)) with 0%nat. rewrite Nat.add_0_r.
      apply (IH (S i)); [done|lia|done].
  - change (Z.to_nat (u8 2)) with 2%nat. replace (S pc + 2)%nat with (S (S (S pc))) by lia.
    apply (IH (S i)); [done|lia|done].
Qed.

(** The filter of a chunk of entries is the walk over them. *)
Lemma install_entry_chunk_scan ents : args_ok ents -> (length ents <= 60)%nat ->
  exists p, install_entry_chunk ents [] = Some p /\
    forall d, filter_result p d =
      if arch32 d =? CU_AUDIT_ARCH then answer (fd_scan ents (nr32 d) d) else Some ret_kill.
Proof.
  intros Hargs Hn. eapply arch_program.
  - unfold emit_fd_deny. apply _.
  - rewrite !length_app, fd_code_length. simpl. lia.
  - intros p pc d Hc. apply (run_fd_loop (length ents) ltac:(lia) ents 0 p pc); done.
Qed.

(** ** Consequences of the walk *)

Lemma fd_scan_skip pre ents a d :
  Forall (fun e => u32 (de_nr e) <> a) pre -> fd_scan (pre ++ ents) a d = fd_scan ents a d.
Proof.
  induction 1 as [|e pre He Hpre IH]; [done|]. simpl.
  by rewrite (proj2 (Z.eqb_neq _ _)) by congruence.
Qed.

Lemma fd_scan_none ents a d : Forall (fun e => u32 (de_nr e) <> a) ents -> fd_scan ents a d = false.
Proof. intros Hf. rewrite <- (app_nil_r ents). by rewrite fd_scan_skip. Qed.

(** A refusal needs an entry that lists the call, or an entry of the call whose
    loaded argument happens to be another entry's call number. *)
Lemma fd_scan_sound ents : forall a d, fd_scan ents a d = true ->
  (exists e, e ∈ ents /\ a = u32 (de_nr e) /\ arg32 d (de_argn e) = u32 (de_fd e)) \/
  (exists e1 e2, e1 ∈ ents /\ e2 ∈ ents /\ a = u32 (de_nr e1) /\
     arg32 d (de_argn e1) = u32 (de_nr e2)).
Proof.
  induction ents as [|e ents IH]; intros a d; simpl; [done|].
  destruct (Z.eqb_spec a (u32 (de_nr e))) as [->|Hne].
  - destruct (Z.eqb_spec (arg32 d (de_argn e)) (u32 (de_fd e))) as [Heq|Hfd].
    + intros _. left. exists e. set_solver.
    + intros [(e' & Hin & Ha & _)|(e1 & e2 & Hin & _ & Ha & _)]%IH; right.
      * exists e, e'. set_solver.
      * exists e, e1. set_solver.
  - intros [(e' & Hin & Ha)|(e1 & e2 & Hin & Hin2 & Ha)]%IH.
    + left. exists e'. set_solver.
    + right. exists e1, e2. set_solver.
Qed.

(** When every entry of the call matches, one suffices. *)
Lemma fd_scan_hit ents a d :
  Forall (fun e => a = u32 (de_nr e) -> arg32 d (de_argn e) = u32 (de_fd e)) ents ->
  Exists (fun e => a = u32 (de_nr e)) ents -> fd_scan ents a d = true.
Proof.
  induction ents as [|e ents IH]; simpl; [by intros _ ?%Exists_nil|].
  rewrite Forall_cons, Exists_cons. intros [He Hents] Hex.
  destruct (Z.eqb_spec a (u32 (de_nr e))) as [Ha|Ha].
  - by rewrite (He Ha), Z.eqb_refl.
  - apply IH; [done|]. by destruct Hex.
Qed.

Lemma fd_scan_complete ents d e :
  NoDup (map (fun e => u32 (de_nr e)) ents) -> e ∈ ents ->
  nr32 d = u32 (de_nr e) -> arg32 d (de_argn e) = u32 (de_fd e) ->
  fd_scan ents (nr32 d) d = true.
Proof.
  intros Hnd (pre & post & ->)%list_elem_of_split Hnr Harg.
  rewrite map_app in Hnd. apply NoDup_app in Hnd as (_ & Hd & _).
  rewrite fd_scan_skip.
  - simpl. by rewrite Hnr, Z.eqb_refl, Harg, Z.eqb_refl.
  - apply Forall_forall. intros e' He' Heq. apply (Hd (u32 (de_nr e'))).
    + by apply (list_elem_of_fmap_2 (fun e => u32 (de_nr e))).
    + simpl. rewrite Heq, Hnr. apply list_elem_of_here.
Qed.

End FdDeny.

(** * What the second-argument filters do *)

Section Arg1.
Context `{AbiOk} `{BpfMachine}.

Definition listed (a : Z) (cmds : list Z) : bool := existsb (fun c => a =? u32 c) cmds.

(** ** Laying out and patching a run of command tests *)

Definition raw_cmds (cmds : list Z) : list sock_filter :=
  map (fun c => insn_jeq (u32 (u32 c)) (u8 0) (u8 0)) cmds.

#[local] Instance emits_raw_cmds cmds : Emits (emit_cmds cmds) (raw_cmds cmds).
Proof. induction cmds; [apply _|]. apply (emits_seq _ _ [_]); [apply _|done]. Qed.

(** The tests as they end up, [off] instructions before the common target. *)
Fixpoint cmds_code (off : nat) (cmds : list Z) : list sock_filter :=
  match cmds with
  | [] => []
  | c :: cmds =>
    insn_jeq (u32 (u32 c)) (u8 (Z.of_nat (length cmds + off))) (u8 0) :: cmds_code off cmds
  end.

Lemma cmds_code_length off cmds : length (cmds_code off cmds) = length cmds.
Proof. induction cmds; simpl; congruence. Qed.

Lemma alter_mid {A} (f : A -> A) (q r : list A) x :
  alter f (length q) (q ++ x :: r) = q ++ f x :: r.
Proof. by rewrite alter_app_r_alt, Nat.sub_diag by lia. Qed.

Lemma patch_all_app allow l1 l2 p :
  patch_all_jt allow (l1 ++ l2) p = (p' ← patch_all_jt allow l1 p; patch_all_jt allow l2 p').
Proof. revert p. induction l1 as [|i l1 IH]; intros p; [done|]. apply IH. Qed.

Lemma patch_cmds off cmds : forall q r,
  patch_all_jt (length q + length cmds + off) (seq (length q) (length cmds))
    (q ++ raw_cmds cmds ++ r) = Some (q ++ cmds_code off cmds ++ r).
Proof.
  induction cmds as [|c cmds IH]; intros q r; [done|].
  cbn [length seq patch_all_jt raw_cmds map cmds_code app].
  unfold aseq at 1. unfold patch_jt_to, patch_jt at 1. rewrite alter_mid. cbn [mbind option_bind].
  cbn [code jt jf k insn_jeq].
  replace (Z.of_nat (length q + S (length cmds) + off) - Z.of_nat (length q) - 1)
    with (Z.of_nat (length cmds + off)) by lia.
  specialize (IH (q ++ [insn_jeq (u32 (u32 c)) (u8 (Z.of_nat (length cmds + off))) (u8 0)]) r).
  rewrite length_app in IH. cbn [length] in IH. rewrite <- !app_assoc in IH. cbn [app] in IH.
  replace (length q + 1)%nat with (S (length q)) in IH by lia.
  replace (S (length q) + length cmds + off)%nat with (length q + S (length cmds) + off)%nat
    in IH by lia.
  exact IH.
Qed.

(** Running the tests: the common target when a command is listed. *)
Lemma run_cmds off cmds : forall p pc a d,
  (length cmds + off <= 255)%nat -> code_at p pc (cmds_code off cmds) ->
  bpf_run p pc a d =
    bpf_run p (pc + length cmds + if listed a cmds then off else 0) a d.
Proof.
  induction cmds as [|c cmds IH]; intros p pc a d Hn Hc; simpl.
  { f_equal. lia. }
  rewrite (bpf_run_jeq _ _ _ _ _ _ _ (code_at_head _ _ _ _ Hc)), u32_idem.
  apply code_at_tail in Hc. unfold listed. simpl in *. destruct (a =? u32 c).
  - rewrite u8_small by lia. f_equal. simpl. lia.
  - change (Z.to_nat (u8 0)) with 0%nat. rewrite Nat.add_0_r.
    rewrite (IH p (S pc) a d ltac:(lia) Hc). f_equal. unfold listed. simpl. lia.
Qed.

(** ** [limit_fd_arg1] *)

Definition arg1_code (fd nr : Z) (allowed : list Z) : list sock_filter :=
  let n := length allowed in
  [insn_jeq (u32 (u32 nr)) (u8 0) (u8 (Z.of_nat n + 4)); insn_ld (u32 (offsetof_args 0));
   insn_jeq (u32 (u32 fd)) (u8 0) (u8 (Z.of_nat n + 2)); insn_ld (u32 (offsetof_args 1))] ++
  cmds_code 1 allowed ++ [c_ret_eperm; c_ret_allow].

Lemma emits_with_len f c :
  (forall p, (length p + length c <= bpf_max_insns)%nat -> f (length p) p = Some (p ++ c)) ->
  Emits (with_len f) c.
Proof. intros Hf p Hp. by apply Hf. Qed.

Lemma aseq_emits m c p m2 : Emits m c -> (length p + length c <= bpf_max_insns)%nat ->
  (m ;;; m2) p = m2 (p ++ c).
Proof. intros He Hp. unfold aseq. by rewrite (He p Hp). Qed.

#[local] Instance emits_arg1_code fd nr allowed : Emits (with_len (fun start =>
    E_JEQ (u32 nr) 0 0 ;;; LD_ARG 0 ;;; E_JEQ (u32 fd) 0 0 ;;; LD_ARG 1 ;;;
    emit_cmds allowed ;;; RET_EPERM ;;;
    with_len (fun allow_idx =>
      RET_ALLOW ;;; patch_jf_to allow_idx start ;;; patch_jf_to allow_idx (start + 2) ;;;
      patch_all_jt allow_idx (seq (start + 4) (length allowed)))))
  (arg1_code fd nr allowed).
Proof.
  apply emits_with_len. intros p Hp. unfold arg1_code in Hp. rewrite !length_app in Hp.
  cbn [length] in Hp. rewrite cmds_code_length in Hp. unfold LD_ARG.
  do 6 (erewrite aseq_emits; [|apply _|unfold raw_cmds; rewrite ?length_app, ?length_map;
    simpl; lia]).
  unfold with_len. erewrite aseq_emits; [|apply _|unfold raw_cmds; rewrite ?length_app,
    ?length_map; simpl; lia].
  set (raw := raw_cmds allowed). rewrite <- !app_assoc. cbn [app].
  match goal with |- context [patch_jf_to ?l _] =>
    replace l with (length p + 4 + length allowed + 1)%nat
      by (unfold raw, raw_cmds; rewrite !length_app; cbn [length];
          rewrite length_app, length_map; cbn [length]; lia) end.
  unfold aseq, patch_jf_to, patch_jf. rewrite alter_mid. cbn [mbind option_bind].
  set (n := length allowed) in *.
  replace (Z.of_nat (length p + 4 + n + 1) - Z.of_nat (length p) - 1)
    with (Z.of_nat n + 4) by lia.
  replace (Z.of_nat (length p + 4 + n + 1) - Z.of_nat (length p + 2) - 1)
    with (Z.of_nat n + 2) by lia.
  match goal with |- context [alter ?f (length p + 2)%nat (p ++ ?x :: ?y :: ?l)] =>
    replace (alter f (length p + 2)%nat (p ++ x :: y :: l))
      with (alter f (length (p ++ [x; y])) ((p ++ [x; y]) ++ l))
      by (rewrite length_app, <- app_assoc; done) end.
  rewrite alter_mid. cbn [mbind option_bind code jt jf k insn_jeq].
  rewrite <- !app_assoc. cbn [app].
  match goal with |- patch_all_jt _ _ (p ++ ?a :: ?b :: ?c :: ?e :: raw ++ _) = _ =>
    pose proof (patch_cmds 1 allowed (p ++ [a; b; c; e]) [c_ret_eperm; c_ret_allow]) as Hpc end.
  rewrite length_app in Hpc. cbn [length] in Hpc. rewrite <- !app_assoc in Hpc.
  cbn [app] in Hpc. exact Hpc.
Qed.

Lemma run_arg1_code fd nr allowed p pc d : (length allowed <= 250)%nat ->
  code_at p pc (arg1_code fd nr allowed) ->
  bpf_run p pc (nr32 d) d =
    answer ((nr32 d =? u32 nr) && (arg32 d 0 =? u32 fd) && negb (listed (arg32 d 1) allowed)).
Proof.
  intros Hn Hc. pose proof Hc as Hall.
  assert (Hallow : p !! (pc + (4 + length allowed + 1))%nat = Some c_ret_allow).
  { apply (code_at_nth _ _ _ _ _ Hall). unfold arg1_code.
    rewrite app_assoc, lookup_app_r by (rewrite length_app, cmds_code_length; simpl; lia).
    rewrite length_app, cmds_code_length. cbn [length].
    by replace (4 + length allowed + 1 - (4 + length allowed))%nat with 1%nat by lia. }
  unfold arg1_code in Hc. cbn [app] in Hc.
  rewrite (bpf_run_jeq _ _ _ _ _ _ _ (code_at_head _ _ _ _ Hc)), u32_idem.
  apply code_at_tail in Hc. destruct (nr32 d =? u32 nr); cbn [andb].
  2:{ rewrite u8_small by lia. rewrite (bpf_run_ret _ _ _ _ ret_allow); [done|].
      match goal with |- p !! ?i = _ =>
        replace i with (pc + (4 + length allowed + 1))%nat by lia end. exact Hallow. }
  change (Z.to_nat (u8 0)) with 0%nat. rewrite Nat.add_0_r.
  rewrite (run_ld_arg _ _ _ _ 0 ltac:(lia) (code_at_head _ _ _ _ Hc)). apply code_at_tail in Hc.
  rewrite (bpf_run_jeq _ _ _ _ _ _ _ (code_at_head _ _ _ _ Hc)), u32_idem.
  apply code_at_tail in Hc. destruct (arg32 d 0 =? u32 fd); cbn [andb].
  2:{ rewrite u8_small by lia. rewrite (bpf_run_ret _ _ _ _ ret_allow); [done|].
      match goal with |- p !! ?i = _ =>
        replace i with (pc + (4 + length allowed + 1))%nat by lia end. exact Hallow. }
  change (Z.to_nat (u8 0)) with 0%nat. rewrite Nat.add_0_r.
  rewrite (run_ld_arg _ _ _ _ 1 ltac:(lia) (code_at_head _ _ _ _ Hc)). apply code_at_tail in Hc.
  apply code_at_app in Hc as [Hc1 Hc2]. rewrite cmds_code_length in Hc2.
  rewrite (run_cmds 1 allowed _ _ _ _ ltac:(lia) Hc1).
  destruct (listed (arg32 d 1) allowed); cbn [negb].
  - apply code_at_tail in Hc2. rewrite Nat.add_1_r.
    by rewrite (bpf_run_ret _ _ _ _ _ (code_at_head _ _ _ _ Hc2)).
  - rewrite Nat.add_0_r. by rewrite (bpf_run_ret _ _ _ _ _ (code_at_head _ _ _ _ Hc2)).
Qed.

Lemma limit_fd_arg1_exact fd nr allowed : (length allowed <= 250)%nat ->
  exists p, limit_fd_arg1 fd nr allowed [] = Some p /\
    forall d, filter_result p d =
      if arch32 d =? CU_AUDIT_ARCH then
        answer ((nr32 d =? u32 nr) && (arg32 d 0 =? u32 fd) &&
                negb (listed (arg32 d 1) allowed))
      else Some ret_kill.
Proof.
  intros Hn. eapply arch_program; [apply _| |].
  - unfold arg1_code. rewrite !length_app, cmds_code_length. simpl. lia.
  - intros p pc d. by apply run_arg1_code.
Qed.

(** ** [install_arg1_limits] *)

Definition raw_block (fd : Z) (cmds : list Z) (v : Z) : list sock_filter :=
  [insn_ld (u32 (offsetof_args 0)); insn_jeq (u32 (u32 fd)) (u8 0) (u8 v);
   insn_ld (u32 (offsetof_args 1))] ++ raw_cmds cmds ++ [c_ret_eperm].

Lemma raw_block_length fd cmds v : length (raw_block fd cmds v) = (4 + length cmds)%nat.
Proof. unfold raw_block, raw_cmds. rewrite !length_app, length_map. simpl. lia. Qed.

Lemma raw_block_eq fd cmds v : raw_block fd cmds v =
  [insn_ld (u32 (offsetof_args 0)); insn_jeq (u32 (u32 fd)) (u8 0) (u8 v);
   insn_ld (u32 (offsetof_args 1))] ++ raw_cmds cmds ++ [c_ret_eperm].
Proof. done. Qed.

#[local] Opaque raw_block.

Definition fd_dist (cmds : list Z) : Z := Z.of_nat (length cmds + 2).

Fixpoint done_blocks (lims : list (Z * list Z)) : list sock_filter :=
  match lims with
  | [] => []
  | (fd, cmds) :: lims => raw_block fd cmds (fd_dist cmds) ++ done_blocks lims
  end.

Fixpoint total_cmds (lims : list (Z * list Z)) : nat :=
  match lims with [] => 0 | (_, cmds) :: lims => length cmds + total_cmds lims end.

Definition blocks_len (lims : list (Z * list Z)) : nat :=
  4 * length lims + total_cmds lims.

Lemma done_blocks_length lims : length (done_blocks lims) = blocks_len lims.
Proof.
  unfold blocks_len. induction lims as [|[fd cmds] lims IH]; [done|].
  cbn [done_blocks length total_cmds]. rewrite length_app, IH, raw_block_length. lia.
Qed.

Fixpoint block_idxs (start : nat) (lims : list (Z * list Z)) : list nat :=
  match lims with
  | [] => []
  | (_, cmds) :: lims =>
    seq (start + 3) (length cmds) ++ block_idxs (start + 4 + length cmds) lims
  end.

Lemma run_asm_emits m c s : Emits m c ->
  (length (a1_prog s) + length c <= bpf_max_insns)%nat ->
  run_asm m s = inr (Arg1State (a1_prog s ++ c) (a1_prev_fd_idx s) (a1_cmd_idx s)).
Proof. intros He Hl. unfold run_asm. by rewrite (He _ Hl). Qed.

Lemma run_asm_some m s p : m (a1_prog s) = Some p ->
  run_asm m s = inr (Arg1State p (a1_prev_fd_idx s) (a1_cmd_idx s)).
Proof. intros Hm. unfold run_asm. by rewrite Hm. Qed.

Lemma arg1_cmds_ok cmds : forall s,
  (length (a1_cmd_idx s) + length cmds <= cmd_idx_size)%nat ->
  (length (a1_prog s) + length cmds <= bpf_max_insns)%nat ->
  arg1_cmds cmds s =
    inr (Arg1State (a1_prog s ++ raw_cmds cmds) (a1_prev_fd_idx s)
           (a1_cmd_idx s ++ seq (length (a1_prog s)) (length cmds))).
Proof.
  induction cmds as [|c cmds IH]; intros [p pr idx] Hi Hp; simpl in *.
  { by rewrite !app_nil_r. }
  rewrite decide_True by lia. erewrite run_asm_emits; [|apply _|simpl; lia]. simpl.
  rewrite IH; simpl; rewrite ?length_app; simpl; [|lia..].
  rewrite <- !app_assoc. simpl. by rewrite Nat.add_1_r.
Qed.

Lemma arg1_cmds_overflow cmds : forall s,
  (cmd_idx_size < length (a1_cmd_idx s) + length cmds)%nat ->
  (length (a1_cmd_idx s) <= cmd_idx_size)%nat ->
  (length (a1_prog s) <= length (a1_cmd_idx s) + 200)%nat ->
  arg1_cmds cmds s = inl FaultOverflow.
Proof.
  unfold cmd_idx_size. induction cmds as [|c cmds IH]; intros [p pr idx] Hi Hn Hp; simpl in *; [lia|].
  unfold cmd_idx_size. case_decide; [|done].
  erewrite run_asm_emits; [|apply _|unfold bpf_max_insns; simpl; lia]. simpl.
  apply IH; simpl; rewrite ?length_app; simpl; lia.
Qed.

(** The index of the descriptor test of the block before, when there is one. *)
Definition prev_ok (s : arg1_state) (q : list sock_filter) (last : option (Z * list Z)) : Prop :=
  match last with
  | None => a1_prev_fd_idx s = None /\ a1_prog s = q
  | Some (fd, cmds) =>
    a1_prev_fd_idx s = Some (length q + 1)%nat /\ a1_prog s = q ++ raw_block fd cmds 0
  end.

Definition close_last (q : list sock_filter) (last : option (Z * list Z)) : list sock_filter :=
  match last with None => q | Some (fd, cmds) => q ++ raw_block fd cmds (fd_dist cmds) end.

Lemma close_last_length s q last : prev_ok s q last ->
  length (close_last q last) = length (a1_prog s).
Proof.
  destruct last as [[fd cmds]|]; simpl; [|intros [_ ->]; done].
  intros [_ ->]. by rewrite !length_app, !raw_block_length.
Qed.

Lemma patch_prev q fd cmds v w :
  patch_jf (length q + 1) w (q ++ raw_block fd cmds v) = Some (q ++ raw_block fd cmds w).
Proof.
  unfold patch_jf. rewrite !raw_block_eq. cbn [app]. f_equal.
  match goal with |- alter ?f _ (q ++ ?x :: ?y :: ?l) = _ =>
    replace (alter f (length q + 1)%nat (q ++ x :: y :: l))
      with (alter f (length (q ++ [x])) ((q ++ [x]) ++ y :: l))
      by (rewrite length_app, <- app_assoc; done) end.
  rewrite alter_mid. by rewrite <- app_assoc.
Qed.

Lemma patch_prev_app q fd cmds v w r :
  patch_jf (length q + 1) w ((q ++ raw_block fd cmds v) ++ r) =
    Some ((q ++ raw_block fd cmds w) ++ r).
Proof.
  pose proof (patch_prev q fd cmds v w) as Hp. unfold patch_jf in *. f_equal.
  rewrite alter_app_l by (rewrite length_app, raw_block_length; lia). by injection Hp as ->.
Qed.

Lemma close_prev s q last : prev_ok s q last ->
  match a1_prev_fd_idx s with
  | Some prev => run_asm (with_len (fun len => patch_jf_to len prev)) s
  | None => inr s
  end = inr (Arg1State (close_last q last) (a1_prev_fd_idx s) (a1_cmd_idx s)).
Proof.
  destruct s as [p pr idx], last as [[fd cmds]|]; simpl; intros [-> ->]; [|done].
  unfold run_asm, with_len, patch_jf_to. simpl.
  rewrite length_app, raw_block_length.
  replace (Z.of_nat (length q + (4 + length cmds)) - Z.of_nat (length q + 1) - 1)
    with (fd_dist cmds) by (unfold fd_dist; lia).
  pose proof (patch_prev q fd cmds 0 (fd_dist cmds)) as Hpp. unfold patch_jf in Hpp.
  by injection Hpp as ->.
Qed.

Lemma arg1_block_ok fd cmds s q last : prev_ok s q last ->
  (length (a1_cmd_idx s) + length cmds <= cmd_idx_size)%nat ->
  (length (a1_prog s) + 4 + length cmds <= bpf_max_insns)%nat ->
  exists s', arg1_block fd cmds s = inr s' /\
    prev_ok s' (close_last q last) (Some (fd, cmds)) /\
    a1_cmd_idx s' = a1_cmd_idx s ++ seq (length (a1_prog s) + 3) (length cmds).
Proof.
  intros Hprev Hi Hp. pose proof (close_last_length _ _ _ Hprev) as Hlen.
  unfold arg1_block, LD_ARG. rewrite (close_prev _ _ _ Hprev). cbn [rbind].
  do 3 (erewrite run_asm_emits; [|apply _|simpl; rewrite ?length_app; simpl; lia]; cbn [rbind]).
  rewrite arg1_cmds_ok; simpl; [|lia|rewrite !length_app; simpl; lia]. cbn [rbind].
  erewrite run_asm_emits;
    [|apply _|simpl; unfold raw_cmds; rewrite !length_app, length_map; simpl; lia].
  eexists. split; [reflexivity|]. simpl. rewrite !length_app. simpl. split.
  - split; [by rewrite Hlen|]. rewrite raw_block_eq. by rewrite <- !app_assoc.
  - do 2 f_equal. lia.
Qed.

Lemma arg1_block_overflow fd cmds s q last : prev_ok s q last ->
  (cmd_idx_size < length (a1_cmd_idx s) + length cmds)%nat ->
  (length (a1_cmd_idx s) <= cmd_idx_size)%nat ->
  (length (a1_prog s) + 4 <= length (a1_cmd_idx s) + 200)%nat ->
  arg1_block fd cmds s = inl FaultOverflow.
Proof.
  intros Hprev Hi Hn Hp. pose proof (close_last_length _ _ _ Hprev) as Hlen.
  unfold cmd_idx_size in Hn.
  unfold arg1_block, LD_ARG. rewrite (close_prev _ _ _ Hprev). cbn [rbind].
  do 3 (erewrite run_asm_emits;
    [|apply _|simpl; rewrite ?length_app; unfold bpf_max_insns; simpl; lia]; cbn [rbind]).
  rewrite arg1_cmds_overflow; simpl; rewrite ?length_app; unfold cmd_idx_size; simpl; done || lia.
Qed.

Lemma arg1_blocks_ok lims : forall s q last, prev_ok s q last ->
  (length (a1_cmd_idx s) + total_cmds lims <= cmd_idx_size)%nat ->
  (length (a1_prog s) + blocks_len lims <= bpf_max_insns)%nat ->
  exists s' q' last', arg1_blocks lims s = inr s' /\ prev_ok s' q' last' /\
    close_last q' last' = close_last q last ++ done_blocks lims /\
    a1_cmd_idx s' = a1_cmd_idx s ++ block_idxs (length (a1_prog s)) lims /\
    (last <> None \/ lims <> [] -> last' <> None).
Proof.
  unfold blocks_len.
  induction lims as [|[fd cmds] lims IH]; intros s q last Hprev Hi Hp; simpl in *.
  { exists s, q, last. rewrite !app_nil_r. naive_solver. }
  destruct (arg1_block_ok fd cmds s q last Hprev) as (s1 & -> & Hprev1 & Hidx1); [lia|lia|].
  cbn [rbind]. pose proof (close_last_length _ _ _ Hprev) as Hl.
  assert (length (a1_prog s1) = length (a1_prog s) + 4 + length cmds)%nat as Hp1.
  { destruct Hprev1 as [_ ->]. rewrite length_app, raw_block_length. lia. }
  destruct (IH s1 _ _ Hprev1) as (s' & q' & last' & Hs' & Hprev' & Hcl & Hidx' & Hsome).
  { rewrite Hidx1, length_app, length_seq. lia. }
  { rewrite Hp1. lia. }
  exists s', q', last'. rewrite Hs'. split; [done|]. split; [done|]. split; [|split].
  - rewrite Hcl. simpl. by rewrite <- app_assoc.
  - rewrite Hidx', Hidx1, Hp1, <- app_assoc. done.
  - intros _. apply Hsome. by left.
Qed.

Lemma arg1_blocks_overflow lims : forall s q last, prev_ok s q last ->
  (cmd_idx_size < length (a1_cmd_idx s) + total_cmds lims)%nat ->
  (length (a1_cmd_idx s) <= cmd_idx_size)%nat ->
  (length (a1_prog s) + 4 * length lims <= length (a1_cmd_idx s) + 200)%nat ->
  arg1_blocks lims s = inl FaultOverflow.
Proof.
  induction lims as [|[fd cmds] lims IH]; intros s q last Hprev Hi Hn Hp; simpl in *; [lia|].
  pose proof (close_last_length _ _ _ Hprev) as Hl.
  destruct (decide (cmd_idx_size < length (a1_cmd_idx s) + length cmds)%nat).
  - rewrite (arg1_block_overflow fd cmds s q last Hprev) by lia. done.
  - destruct (arg1_block_ok fd cmds s q last Hprev) as (s1 & -> & Hprev1 & Hidx1);
      [lia|unfold bpf_max_insns, cmd_idx_size in *; lia|].
    assert (length (a1_prog s1) = length (a1_prog s) + 4 + length cmds)%nat as Hp1.
    { destruct Hprev1 as [_ ->]. rewrite length_app, raw_block_length. lia. }
    cbn [rbind]. apply (IH s1 _ _ Hprev1); rewrite ?Hidx1, ?Hp1, ?length_app, ?length_seq; lia.
Qed.

(** ** The finished program *)

Fixpoint final_blocks (lims : list (Z * list Z)) : list sock_filter :=
  match lims with
  | [] => []
  | (fd, cmds) :: lims =>
    [insn_ld (u32 (offsetof_args 0)); insn_jeq (u32 (u32 fd)) (u8 0) (u8 (fd_dist cmds));
     insn_ld (u32 (offsetof_args 1))] ++
    cmds_code (1 + blocks_len lims) cmds ++ [c_ret_eperm] ++ final_blocks lims
  end.

Lemma final_blocks_length lims : length (final_blocks lims) = blocks_len lims.
Proof.
  unfold blocks_len. induction lims as [|[fd cmds] lims IH]; [done|].
  cbn [final_blocks length total_cmds app]. rewrite !length_app, cmds_code_length.
  cbn [length]. rewrite IH. lia.
Qed.

Lemma patch_blocks lims : forall q r,
  patch_all_jt (length q + blocks_len lims) (block_idxs (length q) lims)
    (q ++ done_blocks lims ++ r) = Some (q ++ final_blocks lims ++ r).
Proof.
  induction lims as [|[fd cmds] lims IH]; intros q r; [done|].
  cbn [block_idxs done_blocks]. rewrite patch_all_app, raw_block_eq.
  set (h := [insn_ld (u32 (offsetof_args 0));
             insn_jeq (u32 (u32 fd)) (u8 0) (u8 (fd_dist cmds));
             insn_ld (u32 (offsetof_args 1))]).
  pose proof (patch_cmds (1 + blocks_len lims) cmds (q ++ h) (c_ret_eperm :: done_blocks lims ++ r))
    as Hp. rewrite length_app in Hp. cbn [length h] in Hp.
  replace (length q + 3 + length cmds + (1 + blocks_len lims))%nat
    with (length q + blocks_len ((fd, cmds) :: lims))%nat in Hp
    by (unfold blocks_len; simpl; lia).
  rewrite <- !app_assoc in Hp. rewrite <- !app_assoc. cbn [app] in Hp |- *. fold h in Hp |- *.
  unfold h in *. cbn [app] in Hp |- *. rewrite Hp. cbn [mbind option_bind].
  specialize (IH (q ++ h ++ cmds_code (1 + blocks_len lims) cmds ++ [c_ret_eperm]) r).
  rewrite !length_app, cmds_code_length in IH. cbn [length h] in IH.
  replace (length q + (3 + (length cmds + 1)))%nat with (length q + 4 + length cmds)%nat in IH by lia.
  replace (length q + 4 + length cmds + blocks_len lims)%nat
    with (length q + blocks_len ((fd, cmds) :: lims))%nat in IH
    by (unfold blocks_len; simpl; lia).
  rewrite <- !app_assoc in IH. unfold h in IH. cbn [app] in IH. rewrite IH.
  cbn [final_blocks app]. by rewrite <- !app_assoc.
Qed.

(** Does the allowlist of the descriptor in argument 0 refuse the command? *)
Fixpoint arg1_refuses (lims : list (Z * list Z)) (d : seccomp_data) : bool :=
  match lims with
  | [] => false
  | (fd, cmds) :: lims =>
    if arg32 d 0 =? u32 fd then negb (listed (arg32 d 1) cmds) else arg1_refuses lims d
  end.

Lemma run_final_blocks lims : forall p pc a d, (blocks_len lims <= 250)%nat ->
  code_at p pc (final_blocks lims ++ [c_ret_allow]) ->
  bpf_run p pc a d = answer (arg1_refuses lims d).
Proof.
  unfold blocks_len.
  induction lims as [|[fd cmds] lims IH]; intros p pc a d Hn Hc; cbn [arg1_refuses].
  { by rewrite (bpf_run_ret _ _ _ _ _ (code_at_head _ _ _ _ Hc)). }
  cbn [length total_cmds] in Hn. cbn [final_blocks app] in Hc.
  rewrite (run_ld_arg _ _ _ _ 0 ltac:(lia) (code_at_head _ _ _ _ Hc)). apply code_at_tail in Hc.
  rewrite (bpf_run_jeq _ _ _ _ _ _ _ (code_at_head _ _ _ _ Hc)), u32_idem.
  apply code_at_tail in Hc. pose proof (code_at_head _ _ _ _ Hc) as Hld1.
  apply code_at_tail in Hc. rewrite <- !app_assoc in Hc.
  apply code_at_app in Hc as [Hcmds Hc]. rewrite cmds_code_length in Hc.
  destruct (arg32 d 0 =? u32 fd).
  - change (Z.to_nat (u8 0)) with 0%nat. rewrite Nat.add_0_r.
    rewrite (run_ld_arg _ _ _ _ 1 ltac:(lia) Hld1).
    rewrite (run_cmds (1 + blocks_len lims) cmds _ _ _ _ ltac:(unfold blocks_len; lia) Hcmds).
    destruct (listed (arg32 d 1) cmds); cbn [negb].
    + cbn [app] in Hc. apply code_at_tail, code_at_app in Hc as [_ Hc].
      rewrite final_blocks_length in Hc. apply code_at_head in Hc.
      rewrite (bpf_run_ret _ _ _ _ ret_allow); [done|].
      match goal with |- p !! ?i = _ => match type of Hc with p !! ?j = _ =>
        replace i with j by lia end end. exact Hc.
    + rewrite Nat.add_0_r. by rewrite (bpf_run_ret _ _ _ _ _ (code_at_head _ _ _ _ Hc)).
  - unfold fd_dist. rewrite u8_small by lia. cbn [app] in Hc. apply code_at_tail in Hc.
    match type of Hc with code_at p ?j _ => match goal with |- bpf_run p ?i _ _ = _ =>
      replace i with j by lia end end.
    apply IH; [lia|exact Hc].
Qed.

Definition arg1_head : list sock_filter :=
  ([insn_ld (u32 offsetof_arch)] ++ [insn_jeq (u32 CU_AUDIT_ARCH) (u8 1) (u8 0)] ++
   [c_ret_kill]) ++ [insn_ld offsetof_nr].

Definition nr_test (nr v : Z) : sock_filter := insn_jeq (u32 (u32 nr)) (u8 0) (u8 v).

Lemma run_arg1_program nr lims d (p := arg1_head ++ [nr_test nr (Z.of_nat (blocks_len lims))] ++
    final_blocks lims ++ [c_ret_allow]) : (blocks_len lims <= 250)%nat ->
  filter_result p d =
    if arch32 d =? CU_AUDIT_ARCH then answer ((nr32 d =? u32 nr) && arg1_refuses lims d)
    else Some ret_kill.
Proof.
  intros Hn.
  destruct (arch_program (fun q => Some (q ++ [nr_test nr (Z.of_nat (blocks_len lims))] ++
    final_blocks lims ++ [c_ret_allow])) _
    (fun d => answer ((nr32 d =? u32 nr) && arg1_refuses lims d)) (fun q _ => eq_refl))
    as (p' & Hp' & Hr).
  - rewrite !length_app, final_blocks_length. simpl. lia.
  - intros q pc d' Hc. cbn [app] in Hc.
    rewrite (bpf_run_jeq _ _ _ _ _ _ _ (code_at_head _ _ _ _ Hc)), u32_idem.
    apply code_at_tail in Hc. destruct (nr32 d' =? u32 nr); cbn [andb].
    + change (Z.to_nat (u8 0)) with 0%nat. rewrite Nat.add_0_r.
      by apply run_final_blocks.
    + rewrite u8_small, Nat2Z.id by lia. apply code_at_app in Hc as [_ Hc].
      rewrite final_blocks_length in Hc. apply code_at_head in Hc.
      by rewrite (bpf_run_ret _ _ _ _ _ Hc).
  - unfold aseq in Hp'. injection Hp' as <-. exact (Hr d).
Qed.

Lemma arg1_prologue nr lims :
  arg1_program nr lims =
  rbind (arg1_blocks lims (Arg1State (arg1_head ++ [nr_test nr 0]) None [])) (arg1_patches 4).
Proof.
  unfold arg1_program.
  assert (Emits (emit_arch_guard ;;; LD_NR) arg1_head) as Hguard
    by (unfold emit_arch_guard; apply _).
  rewrite (run_asm_emits _ _ _ Hguard) by (unfold bpf_max_insns; simpl; lia). cbn [rbind].
  erewrite run_asm_emits; [|apply _|unfold bpf_max_insns; simpl; lia]. done.
Qed.

(** The tail of [install_arg1_limits] after the loop over the registry. *)
Lemma arg1_epilogue nr lims s q last (allow := (5 + blocks_len lims)%nat) :
  prev_ok s q last -> last <> None -> (allow < bpf_max_insns)%nat ->
  close_last q last = (arg1_head ++ [nr_test nr 0]) ++ done_blocks lims ->
  a1_cmd_idx s = block_idxs 5 lims ->
  arg1_patches 4 s =
  inr (allow, arg1_head ++ [nr_test nr (Z.of_nat (blocks_len lims))] ++
              final_blocks lims ++ [c_ret_allow]).
Proof.
  intros Hprev Hsome Hfit Hcl Hidx. unfold bpf_max_insns in Hfit.
  pose proof (close_last_length _ _ _ Hprev) as Hlen.
  rewrite Hcl, !length_app, done_blocks_length in Hlen.
  change (length arg1_head) with 4%nat in Hlen. cbn [length] in Hlen.
  unfold arg1_patches. rewrite <- Hlen.
  change (4 + 1 + blocks_len lims)%nat with allow.
  destruct s as [p pr idx]. cbn [a1_prog a1_prev_fd_idx a1_cmd_idx] in *. subst idx.
  rewrite (run_asm_emits _ _ _ emits_ret_allow) by (unfold bpf_max_insns; simpl; lia).
  cbn [rbind a1_prog a1_prev_fd_idx a1_cmd_idx].
  destruct last as [[fd cmds]|]; [|done]. destruct Hprev as [Hpr Hp].
  cbn [a1_prog a1_prev_fd_idx] in Hpr, Hp. subst p pr. cbn [close_last] in Hcl.
  rewrite length_app, raw_block_length in Hlen.
  assert (patch_jf_to allow (length q + 1) ((q ++ raw_block fd cmds 0) ++ [c_ret_allow]) =
    Some (arg1_head ++ nr_test nr 0 :: done_blocks lims ++ [c_ret_allow])) as H1p.
  { unfold patch_jf_to.
    replace (Z.of_nat allow - Z.of_nat (length q + 1) - 1) with (fd_dist cmds)
      by (unfold fd_dist, allow; lia).
    by rewrite patch_prev_app, Hcl, <- !app_assoc. }
  rewrite (run_asm_some _ (Arg1State _ _ _) _ H1p). cbn [rbind a1_prev_fd_idx a1_cmd_idx].
  assert (patch_jf_to allow 4 (arg1_head ++ nr_test nr 0 :: done_blocks lims ++ [c_ret_allow]) =
    Some (arg1_head ++ nr_test nr (Z.of_nat (blocks_len lims)) ::
          done_blocks lims ++ [c_ret_allow])) as H2p.
  { unfold patch_jf_to, patch_jf.
    replace (Z.of_nat allow - Z.of_nat 4 - 1) with (Z.of_nat (blocks_len lims))
      by (unfold allow; lia).
    change 4%nat with (length arg1_head). by rewrite alter_mid. }
  rewrite (run_asm_some _ (Arg1State _ _ _) _ H2p). cbn [rbind a1_prev_fd_idx a1_cmd_idx].
  pose proof (patch_blocks lims (arg1_head ++ [nr_test nr (Z.of_nat (blocks_len lims))])
    [c_ret_allow]) as Hpb.
  rewrite <- !app_assoc in Hpb. change (length (arg1_head ++ _)) with 5%nat in Hpb.
  by rewrite (run_asm_some _ (Arg1State _ _ _) _ Hpb).
Qed.

(** Every outcome of [install_arg1_limits], decided by the sizes alone. *)
Lemma install_arg1_limits_exact nr lims : lims <> [] -> (length lims <= 32)%nat ->
  if decide (cmd_idx_size < total_cmds lims)%nat then
    install_arg1_limits nr lims = CmdIdxOverflow
  else if decide (200 < 5 + blocks_len lims)%nat then
    install_arg1_limits nr lims = RefusedENOSPC
  else exists p, install_arg1_limits nr lims = Load p /\
    forall d, filter_result p d =
      if arch32 d =? CU_AUDIT_ARCH then
        answer ((nr32 d =? u32 nr) && arg1_refuses lims d)
      else Some ret_kill.
Proof.
  intros Hne Hlen. unfold install_arg1_limits.
  rewrite (decide_False (P := lims = [])) by done. rewrite arg1_prologue.
  set (s0 := Arg1State _ _ _).
  assert (prev_ok s0 (arg1_head ++ [nr_test nr 0]) None) as Hprev by done.
  case_decide as Hover.
  { rewrite (arg1_blocks_overflow lims s0 _ _ Hprev); [done|..].
    all: change (length (a1_prog s0)) with 5%nat || idtac; cbn [a1_cmd_idx s0 length]; lia. }
  unfold cmd_idx_size in Hover.
  destruct (arg1_blocks_ok lims s0 _ _ Hprev)
    as (s1 & q1 & last1 & -> & Hprev1 & Hcl & Hidx & Hsome).
  { unfold cmd_idx_size. simpl. lia. }
  { change (length (a1_prog s0)) with 5%nat. unfold blocks_len, bpf_max_insns. lia. }
  cbn [rbind].
  assert (length (a1_prog s1) = 5 + blocks_len lims)%nat as Hl1.
  { rewrite <- (close_last_length _ _ _ Hprev1), Hcl, !length_app, done_blocks_length. done. }
  rewrite (arg1_epilogue nr lims s1 q1 last1 Hprev1); [|by auto| |done|done].
  2:{ unfold blocks_len, bpf_max_insns. lia. }
  case_decide; [done|]. eexists. split; [reflexivity|]. intros d.
  apply run_arg1_program. lia.
Qed.

Lemma listed_false a cmds : listed a cmds = false <-> Forall (fun c => a <> u32 c) cmds.
Proof.
  unfold listed. induction cmds as [|c cs IH]; [by split|]. cbn [existsb].
  by rewrite orb_false_iff, Forall_cons, Z.eqb_neq, IH.
Qed.

Lemma answer_eperm b : answer b = Some ret_eperm <-> b = true.
Proof. by destruct b. Qed.

End Arg1.

(** * Properties *)

Definition entry_lists (d : seccomp_data) (e : deny_ent) : Prop :=
  nr32 d = u32 (de_nr e) /\ arg32 d (de_argn e) = u32 (de_fd e).

(** Limiting one descriptor: the filter built for distinct calls refuses
    every listed call on the descriptor, and it allows a call that no entry
    lists, provided the argument an entry for that call loads is not itself the
    number of a listed call. *)
Theorem limit_fd_syscalls_refuses `{AbiOk} `{BpfMachine} fd ents :
  ents <> [] -> args_ok ents -> (length ents <= 60)%nat ->
  NoDup (map (fun e => u32 (de_nr e)) ents) ->
  exists m p, limit_fd_syscalls fd ents = Some m /\ m [] = Some p /\
    forall d, arch32 d = CU_AUDIT_ARCH ->
      (forall e, e ∈ ents -> nr32 d = u32 (de_nr e) -> arg32 d (de_argn e) = u32 fd ->
        filter_result p d = Some ret_eperm) /\
      ((forall e, e ∈ ents -> nr32 d = u32 (de_nr e) ->
          arg32 d (de_argn e) <> u32 fd /\
          forall e', e' ∈ ents -> arg32 d (de_argn e) <> u32 (de_nr e')) ->
        filter_result p d = Some ret_allow).
Proof.
  intros Hne Hargs Hlen Hnd. unfold limit_fd_syscalls. rewrite decide_False by done.
  set (set_fd := fun e => DenyEnt (de_nr e) (de_argn e) fd).
  assert (args_ok (map set_fd ents)) as Hargs'.
  { unfold args_ok. apply Forall_map. exact Hargs. }
  destruct (install_entry_chunk_scan (map set_fd ents) Hargs') as (p & Hp & Hr).
  { by rewrite length_map. }
  eexists _, p. split; [done|]. split; [done|].
  intros d Harch. rewrite Hr, Harch, Z.eqb_refl. split.
  - intros e He Hnr Harg. rewrite (fd_scan_complete _ d (set_fd e)); [done| |by apply list_elem_of_fmap_2|done|done].
    by rewrite map_map.
  - intros Hno. destruct (fd_scan _ _ _) eqn:E; [|done]. exfalso.
    apply fd_scan_sound in E as [(e & He & Ha & Harg)|(e1 & e2 & He1 & He2 & Ha & Harg)].
    + apply list_elem_of_fmap in He as (e0 & -> & He0). by destruct (Hno e0 He0 Ha).
    + apply list_elem_of_fmap in He1 as (e0 & -> & He0).
      apply list_elem_of_fmap in He2 as (e0' & -> & He0').
      destruct (Hno e0 He0 Ha) as [_ Hcol]. by apply (Hcol e0').
Qed.

Lemma limit_fd_syscalls_refuses_witness :
  exists m p, @limit_fd_syscalls x86_64 7 [DenyEnt 0 0 0; DenyEnt 8 0 0] = Some m /\
    m [] = Some p /\
    filter_result p (SeccompData 8 0xC000003E 0 (fun _ => 7)) = Some ret_eperm /\
    filter_result p (SeccompData 8 0xC000003E 0 (fun _ => 5)) = Some ret_allow.
Proof.
  destruct (limit_fd_syscalls_refuses (H0 := x86_64_ok) 7 [DenyEnt 0 0 0; DenyEnt 8 0 0])
    as (m & p & Hm & Hp & Hr).
  - done.
  - repeat constructor; simpl; lia.
  - simpl; lia.
  - apply (bool_decide_unpack (NoDup [0; 8])). exact I.
  - exists m, p. split; [exact Hm|]. split; [exact Hp|]. split.
    + apply (proj1 (Hr (SeccompData 8 0xC000003E 0 (fun _ => 7)) eq_refl) (DenyEnt 8 0 0));
        [|reflexivity|reflexivity].
      right. left.
    + apply (proj2 (Hr (SeccompData 8 0xC000003E 0 (fun _ => 5)) eq_refl)).
      intros e [->|[->|[]%elem_of_nil]%elem_of_cons]%elem_of_cons; intros Hnr; [done|].
      split; [done|]. intros e' [->|[->|[]%elem_of_nil]%elem_of_cons]%elem_of_cons; done.
Defined.

(** C23. In a chunk that covers several descriptors the first entry of a call
    decides: it refuses the call on its own descriptor, but on any other
    descriptor the call is allowed even when a later entry lists exactly that
    call and that descriptor, because the accumulator then holds the descriptor
    instead of the call number. *)
Theorem chunk_first_entry_decides `{AbiOk} `{BpfMachine} pre e post :
  args_ok (pre ++ e :: post) -> (length (pre ++ e :: post) <= 60)%nat ->
  Forall (fun e' => u32 (de_nr e') <> u32 (de_nr e)) pre ->
  exists p, install_entry_chunk (pre ++ e :: post) [] = Some p /\
    forall d, arch32 d = CU_AUDIT_ARCH -> nr32 d = u32 (de_nr e) ->
      (arg32 d (de_argn e) = u32 (de_fd e) -> filter_result p d = Some ret_eperm) /\
      (arg32 d (de_argn e) <> u32 (de_fd e) ->
        Forall (fun e' => u32 (de_nr e') <> arg32 d (de_argn e)) post ->
        filter_result p d = Some ret_allow).
Proof.
  intros Hargs Hlen Hpre.
  destruct (install_entry_chunk_scan _ Hargs Hlen) as (p & Hp & Hr).
  exists p. split; [done|]. intros d Harch Hnr.
  rewrite Hr, Harch, Z.eqb_refl, Hnr, fd_scan_skip by done.
  cbn [fd_scan]. rewrite Z.eqb_refl. split.
  - intros ->. by rewrite Z.eqb_refl.
  - intros Hne Hpost. rewrite (proj2 (Z.eqb_neq _ _) Hne). by rewrite fd_scan_none.
Qed.

(** Concretely: the entries refuse lseek on descriptors 0 and 1, yet lseek on
    descriptor 1 passes. *)
Lemma chunk_first_entry_decides_witness :
  exists p, @install_entry_chunk x86_64 [DenyEnt 8 0 0; DenyEnt 8 0 1] [] = Some p /\
    filter_result p (SeccompData 8 0xC000003E 0 (fun _ => 0)) = Some ret_eperm /\
    filter_result p (SeccompData 8 0xC000003E 0 (fun _ => 1)) = Some ret_allow.
Proof.
  destruct (chunk_first_entry_decides (H0 := x86_64_ok) [] (DenyEnt 8 0 0) [DenyEnt 8 0 1])
    as (p & Hp & Hr).
  - repeat constructor; simpl; lia.
  - simpl; lia.
  - constructor.
  - exists p. split; [exact Hp|]. split.
    + by apply (proj1 (Hr (SeccompData 8 0xC000003E 0 (fun _ => 0)) eq_refl eq_refl)).
    + apply (proj2 (Hr (SeccompData 8 0xC000003E 0 (fun _ => 1)) eq_refl eq_refl)); [done|].
      by repeat constructor.
Defined.

(** The ioctl/fcntl allowlist filter is exact: with all its jumps patched it
    refuses the call on the descriptor if and only if the low word of the second
    argument is not listed, and it leaves every other call alone. *)
Theorem limit_fd_arg1_allowlist `{AbiOk} `{BpfMachine} fd nr allowed :
  (length allowed <= 16)%nat ->
  exists p, limit_fd_arg1 fd nr allowed [] = Some p /\
    forall d, arch32 d = CU_AUDIT_ARCH ->
      (filter_result p d = Some ret_eperm <->
        nr32 d = u32 nr /\ arg32 d 0 = u32 fd /\
        Forall (fun c => arg32 d 1 <> u32 c) allowed) /\
      (filter_result p d = Some ret_eperm \/ filter_result p d = Some ret_allow).
Proof.
  intros Hn. destruct (limit_fd_arg1_exact fd nr allowed) as (p & Hp & Hr); [lia|].
  exists p. split; [done|]. intros d Harch. rewrite Hr, Harch, Z.eqb_refl. split.
  - rewrite answer_eperm, !andb_true_iff, negb_true_iff, !Z.eqb_eq, listed_false. tauto.
  - destruct (_ && _); [by left|by right].
Qed.

Lemma limit_fd_arg1_allowlist_witness :
  exists p, @limit_fd_arg1 x86_64 4 16 [0x5413] [] = Some p /\
    filter_result p (SeccompData 16 0xC000003E 0 (fun n => if n is 0%nat then 4 else 0x5412))
      = Some ret_eperm.
Proof.
  destruct (limit_fd_arg1_allowlist (H0 := x86_64_ok) 4 16 [0x5413]) as (p & Hp & Hr).
  - simpl. lia.
  - exists p. split; [exact Hp|]. 
    apply (proj1 (Hr (SeccompData 16 0xC000003E 0 (fun n => if n is 0%nat then 4 else 0x5412))
                    eq_refl)).
    split; [done|]. split; [done|]. by repeat constructor.
Defined.

(** C22. The combined ioctl/fcntl filter over all registered descriptors: with at
    most 96 commands in all and a program of at most 200 instructions the filter
    is loaded and refuses a call exactly when its descriptor is registered and
    the command is not in that descriptor's list; a longer program is refused
    with ENOSPC; more than 96 commands write past the end of the [cmd_idx]
    array, before the length is ever looked at. *)
Theorem install_arg1_limits_outcomes `{AbiOk} `{BpfMachine} nr lims :
  lims <> [] -> (length lims <= 32)%nat ->
  ((total_cmds lims <= 96)%nat -> (5 + blocks_len lims <= 200)%nat ->
    exists p, install_arg1_limits nr lims = Load p /\
      forall d, arch32 d = CU_AUDIT_ARCH ->
        filter_result p d =
          answer ((nr32 d =? u32 nr) && arg1_refuses lims d)) /\
  ((total_cmds lims <= 96)%nat -> (200 < 5 + blocks_len lims)%nat ->
    install_arg1_limits nr lims = RefusedENOSPC) /\
  ((96 < total_cmds lims)%nat -> install_arg1_limits nr lims = CmdIdxOverflow).
Proof.
  intros Hne Hlen. pose proof (install_arg1_limits_exact nr lims Hne Hlen) as Hx.
  unfold cmd_idx_size in Hx. repeat case_decide; split_and!; try lia; try done.
  intros _ _. destruct Hx as (p & Hp & Hr). exists p. split; [done|].
  intros d Harch. by rewrite Hr, Harch, Z.eqb_refl.
Qed.

(** Twenty descriptors with the five commands [safe_ioctls] lists: the array is
    overrun although the program would have fitted. *)
Lemma install_arg1_limits_outcomes_witness :
  @install_arg1_limits x86_64 16
    (map (fun n => (Z.of_nat n, [0x5401; 0x5413; 0x540F; 0x80086601; 0x540B])) (seq 3 20))
  = CmdIdxOverflow.
Proof.
  apply (install_arg1_limits_outcomes (H0 := x86_64_ok)); [done|simpl; lia|].
  apply Nat.ltb_lt. vm_compute. reflexivity.
Defined.
