(* ===== verification/CapRights.v ===== *)
(** Capability rights and the registry of descriptor limits
    (include/sys/capsicum.h; src.compat/capsicum.c, [lim_find], [lim_merge],
    [collect_rights], [cu_cap_rights_*]).

    A rights set is a 64-bit mask; the variadic calls are modelled on the list of
    their arguments, which the macros end with [CU_CAP_END].  The registry is the
    list of the first [nfd_limits] records; the two allowlists of a record are C
    arrays (16 and 6 cells) with a length that is -1 while unrestricted, and
    [lim_merge] works in place on them. *)

From S2P Require Import Prelude.

(** * Rights *)

Definition CAP_READ : Z := 1 .<< 0.
Definition CAP_WRITE : Z := 1 .<< 1.
Definition CAP_SEEK : Z := 1 .<< 2.
Definition CAP_FSTAT : Z := 1 .<< 3.
Definition CAP_FSYNC : Z := 1 .<< 4.
Definition CAP_FCNTL : Z := 1 .<< 5.
Definition CAP_FTRUNCATE : Z := 1 .<< 7.
Definition CAP_IOCTL : Z := 1 .<< 8.
Definition CAP_MMAP : Z := 1 .<< 9.
Definition CAP_LOOKUP : Z := 1 .<< 11.
Definition CAP_PWRITE : Z := 1 .<< 12.
Definition CAP_SHUTDOWN : Z := 1 .<< 14.
Definition CAP_MMAP_R : Z := CAP_MMAP .| CAP_SEEK .| CAP_READ.

Definition CU_CAP_END : Z := 2 ^ 64 - 1.

(** [while (r != CU_CAP_END) { m |= r; r = va_arg(..); }]: [None] when the
    argument list ends without the sentinel. *)
Fixpoint collect_from (m : Z) (args : list Z) : option Z :=
  match args with
  | [] => None
  | r :: args => if r =? CU_CAP_END then Some m else collect_from (m .| r) args
  end.

Definition collect_rights (args : list Z) : option Z := collect_from 0 args.

Definition cu_cap_rights_init (mask : Z) (args : list Z) : option Z := collect_rights args.
Definition cu_cap_rights_set (mask : Z) (args : list Z) : option Z :=
  m ← collect_rights args; Some (mask .| m).
Definition cu_cap_rights_clear (mask : Z) (args : list Z) : option Z :=
  m ← collect_rights args; Some (mask .&~ m).
Definition cu_cap_rights_is_set (mask : Z) (args : list Z) : option bool :=
  want ← collect_rights args; Some (mask .& want =? want).

(** The macros [cap_rights_init] and so on append the sentinel. *)
Definition cap_rights_init (mask : Z) (rs : list Z) := cu_cap_rights_init mask (rs ++ [CU_CAP_END]).
Definition cap_rights_set (mask : Z) (rs : list Z) := cu_cap_rights_set mask (rs ++ [CU_CAP_END]).
Definition cap_rights_clear (mask : Z) (rs : list Z) :=
  cu_cap_rights_clear mask (rs ++ [CU_CAP_END]).
Definition cap_rights_is_set (mask : Z) (rs : list Z) :=
  cu_cap_rights_is_set mask (rs ++ [CU_CAP_END]).

(** * The registry *)

Definition LDENY_RD : Z := 0x01.
Definition LDENY_WR : Z := 0x02.
Definition LDENY_SEEK : Z := 0x04.
Definition LDENY_TRUNC : Z := 0x08.
Definition LDENY_FSYNC : Z := 0x10.
Definition LDENY_SHUT : Z := 0x20.
Definition LDENY_MMAP : Z := 0x40.

(** [struct fd_limit] *)
Record fd_limit := FdLimit {
  L_fd : Z;
  L_deny : Z;
  L_ioctls : list Z;
  L_nioctls : Z;
  L_fcntls : list Z;
  L_nfcntls : Z
}.

Definition fd_limits_size : nat := 32.

(** A fresh record; the arrays are static storage, hence zero. *)
Definition new_limit (fd : Z) : fd_limit :=
  FdLimit fd 0 (replicate 16 0) (-1) (replicate 6 0) (-1).

(** The index of the record of [fd], appended when there is none and room is
    left. *)
Definition lim_find (ls : list fd_limit) (fd : Z) : option (nat * list fd_limit) :=
  match list_find (fun L => L_fd L = fd) ls with
  | Some (i, _) => Some (i, ls)
  | None =>
    if decide (length ls = fd_limits_size) then None
    else Some (length ls, ls ++ [new_limit fd])
  end.

(** [for (i = 0; i < sn; i++) dst[i] = src[i]] *)
Fixpoint copy_cells (dst : list Z) (i : nat) (src : list Z) : option (list Z) :=
  match src with
  | [] => Some dst
  | c :: src => dst ← awrite dst i c; copy_cells dst (S i) src
  end.

(** The compacting loop: [k] cells left to look at, [i] the reading and [n] the
    writing index. *)
Fixpoint intersect_cells (src : list Z) (k i n : nat) (dst : list Z) : option (list Z * nat) :=
  match k with
  | O => Some (dst, n)
  | S k =>
    x ← dst !! i;
    if existsb (Z.eqb x) src then
      dst ← awrite dst n x; intersect_cells src k (S i) (S n) dst
    else intersect_cells src k (S i) n dst
  end.

(** [None] when a store falls outside the array. *)
Definition lim_merge (dst : list Z) (dn : Z) (src : list Z) : option (list Z * Z) :=
  if dn <? 0 then
    let src := take 16 src in
    dst ← copy_cells dst 0 src; Some (dst, Z.of_nat (length src))
  else
    '(dst, n) ← intersect_cells src (Z.to_nat dn) 0 0 dst; Some (dst, Z.of_nat n).

Definition merge_ioctls (L : fd_limit) (src : list Z) : option fd_limit :=
  '(a, n) ← lim_merge (L_ioctls L) (L_nioctls L) src;
  Some (FdLimit (L_fd L) (L_deny L) a n (L_fcntls L) (L_nfcntls L)).

Definition merge_fcntls (L : fd_limit) (src : list Z) : option fd_limit :=
  '(a, n) ← lim_merge (L_fcntls L) (L_nfcntls L) src;
  Some (FdLimit (L_fd L) (L_deny L) (L_ioctls L) (L_nioctls L) a n).

Definition add_deny (L : fd_limit) (bit : Z) : fd_limit :=
  FdLimit (L_fd L) (L_deny L .| bit) (L_ioctls L) (L_nioctls L) (L_fcntls L) (L_nfcntls L).

(** [if ((rights->mask & right) == 0) L->deny |= bit], in the order of
    [caph_rights_limit]. *)
Definition deny_unless (mask right bit : Z) (L : fd_limit) : fd_limit :=
  if mask .& right =? 0 then add_deny L bit else L.

Definition register_denials (mask : Z) (L : fd_limit) : fd_limit :=
  let L := deny_unless mask CAP_READ LDENY_RD L in
  let L := deny_unless mask (CAP_WRITE .| CAP_PWRITE) LDENY_WR L in
  let L := deny_unless mask CAP_SEEK LDENY_SEEK L in
  let L := deny_unless mask CAP_FTRUNCATE LDENY_TRUNC L in
  let L := deny_unless mask CAP_FSYNC LDENY_FSYNC L in
  let L := deny_unless mask CAP_SHUTDOWN LDENY_SHUT L in
  deny_unless mask CAP_MMAP LDENY_MMAP L.

(** What an allowlist means: [None] is "unrestricted". *)
Definition allowlist (cells : list Z) (n : Z) : option (list Z) :=
  if n <? 0 then None else Some (take (Z.to_nat n) cells).
Definition ioctl_list (L : fd_limit) : option (list Z) := allowlist (L_ioctls L) (L_nioctls L).
Definition fcntl_list (L : fd_limit) : option (list Z) := allowlist (L_fcntls L) (L_nfcntls L).

(** * Lemmas on rights *)

Section Rights.

Lemma collect_from_sentinel rs : forall m, Forall (fun r => r <> CU_CAP_END) rs ->
  collect_from m (rs ++ [CU_CAP_END]) = Some (foldl Z.lor m rs).
Proof.
  induction rs as [|r rs IH]; intros m Hrs; simpl; [done|].
  apply Forall_cons in Hrs as [Hr Hrs]. rewrite (proj2 (Z.eqb_neq _ _) Hr). by apply IH.
Qed.

Lemma foldl_lor_testbit rs n : 0 <= n -> forall m,
  Z.testbit (foldl Z.lor m rs) n = Z.testbit m n || existsb (fun r => Z.testbit r n) rs.
Proof.
  intros Hn. induction rs as [|r rs IH]; intros m; simpl; [by rewrite orb_false_r|].
  by rewrite IH, Z.lor_spec, orb_assoc.
Qed.

Lemma subset_testbit mask want :
  (mask .& want =? want) = true <->
  forall n, 0 <= n -> Z.testbit want n = true -> Z.testbit mask n = true.
Proof.
  rewrite Z.eqb_eq. split.
  - intros Heq n Hn Hw. rewrite <- Heq, Z.land_spec in Hw. by apply andb_true_iff in Hw as [??].
  - intros Hall. apply Z.bits_inj'. intros n Hn. rewrite Z.land_spec.
    destruct (Z.testbit want n) eqn:Hw; [|by rewrite andb_false_r]. by rewrite (Hall n).
Qed.

End Rights.

(** * Lemmas on the registry *)

Section Registry.

(** The loops of [lim_merge] in closed form. *)
Lemma copy_cells_app src : forall pre cells, (length src <= length cells)%nat ->
  copy_cells (pre ++ cells) (length pre) src = Some (pre ++ src ++ drop (length src) cells).
Proof.
  induction src as [|c src IH]; intros pre cells Hlen; simpl; [by rewrite drop_0|].
  destruct cells as [|x cells]; simpl in *; [lia|].
  rewrite awrite_app_cons. cbn [mbind option_bind].
  specialize (IH (pre ++ [c]) cells). rewrite length_app, <- !app_assoc in IH. simpl in IH.
  rewrite Nat.add_1_r in IH. apply IH. lia.
Qed.

Lemma intersect_cells_app src : forall todo kept junk rest,
  exists junk', intersect_cells src (length todo) (length kept + length junk) (length kept)
      (kept ++ junk ++ todo ++ rest) =
    Some (kept ++ filter (fun x => existsb (Z.eqb x) src = true) todo ++ junk' ++ rest,
          length kept + length (filter (fun x => existsb (Z.eqb x) src = true) todo))%nat /\
    (length junk' + length (filter (fun x => existsb (Z.eqb x) src = true) todo) =
     length junk + length todo)%nat.
Proof.
  induction todo as [|x todo IH]; intros kept junk rest.
  { exists junk. simpl. by rewrite !Nat.add_0_r. }
  cbn [intersect_cells length].
  assert ((kept ++ junk ++ (x :: todo) ++ rest) !! (length kept + length junk)%nat = Some x) as ->.
  { rewrite app_assoc, lookup_app_r by (rewrite length_app; lia).
    by rewrite length_app, Nat.sub_diag. }
  cbn [mbind option_bind]. rewrite filter_cons. case_decide as Hin; rewrite ?Hin.
  - destruct junk as [|j junk].
    + simpl. rewrite Nat.add_0_r. rewrite awrite_app_cons. cbn [mbind option_bind].
      destruct (IH (kept ++ [x]) [] rest) as (junk' & He & Hl). exists junk'.
      rewrite length_app, <- !app_assoc in He. simpl in He, Hl |- *.
      rewrite Nat.add_0_r, Nat.add_1_r in He. rewrite He. split; [|lia].
      do 2 f_equal. lia.
    + simpl. rewrite awrite_app_cons. cbn [mbind option_bind].
      destruct (IH (kept ++ [x]) (junk ++ [x]) rest) as (junk' & He & Hl). exists junk'.
      rewrite !length_app, <- !app_assoc in He. simpl in He. rewrite length_app in Hl. simpl in Hl |- *.
      replace (S (length kept + S (length junk)))%nat
        with (length kept + 1 + (length junk + 1))%nat by lia.
      rewrite Nat.add_1_r in *. rewrite He. split; [|lia]. do 2 f_equal. lia.
  - destruct (existsb (Z.eqb x) src) eqn:E; [done|].
    destruct (IH kept (junk ++ [x]) rest) as (junk' & He & Hl). exists junk'.
    rewrite !length_app, <- !app_assoc in He. simpl in He. rewrite length_app in Hl. simpl in Hl |- *.
    replace (S (length kept + length junk))%nat with (length kept + (length junk + 1))%nat by lia.
    rewrite He. split; [done|lia].
Qed.

(** [lim_merge] in terms of allowlists: adopt the first 16 entries of the new
    list, or keep the entries of the old list that are in the new one. *)
Definition merged (old : option (list Z)) (src : list Z) : list Z :=
  match old with
  | None => take 16 src
  | Some l => filter (fun x => existsb (Z.eqb x) src = true) l
  end.

Definition cells_ok (cells : list Z) (n : Z) : Prop := -1 <= n <= Z.of_nat (length cells).

Lemma lim_merge_spec cells n src :
  cells_ok cells n -> (length (take 16 src) <= length cells)%nat ->
  exists cells' n', lim_merge cells n src = Some (cells', n') /\
    length cells' = length cells /\ cells_ok cells' n' /\ 0 <= n' /\
    allowlist cells' n' = Some (merged (allowlist cells n) src).
Proof.
  intros Hok Hlen. unfold lim_merge, cells_ok, allowlist in *. destruct (Z.ltb_spec n 0) as [Hn|Hn].
  - pose proof (copy_cells_app (take 16 src) [] cells Hlen) as Hc. cbn [app length] in Hc.
    rewrite Hc. cbn [mbind option_bind merged].
    eexists _, _. split; [done|]. rewrite length_app, length_drop. split; [lia|].
    split; [lia|]. split; [lia|].
    rewrite (proj2 (Z.ltb_ge _ _)), Nat2Z.id, take_app_length by lia. done.
  - set (k := Z.to_nat n). assert (length (take k cells) = k) as Hk by (rewrite length_take; lia).
    destruct (intersect_cells_app src (take k cells) [] [] (drop k cells)) as (junk & He & Hl).
    cbn [app length] in He. rewrite Hk, take_drop in He. simpl in He. rewrite He.
    cbn [mbind option_bind merged]. set (l := filter _ _) in *.
    rewrite length_take in Hl. simpl in Hl.
    eexists _, _. split; [done|]. rewrite !length_app, length_drop. split; [lia|].
    split; [lia|]. split; [lia|].
    by rewrite (proj2 (Z.ltb_ge _ _)), Nat2Z.id, take_app_length by lia.
Qed.

(** Well-formed records. *)
Definition limit_ok (L : fd_limit) : Prop :=
  length (L_ioctls L) = 16%nat /\ length (L_fcntls L) = 6%nat /\
  cells_ok (L_ioctls L) (L_nioctls L) /\ cells_ok (L_fcntls L) (L_nfcntls L).

Definition registry_ok (ls : list fd_limit) : Prop :=
  (length ls <= fd_limits_size)%nat /\ NoDup (map L_fd ls) /\ Forall limit_ok ls.

Lemma new_limit_ok fd : limit_ok (new_limit fd).
Proof. unfold limit_ok, cells_ok. simpl. lia. Qed.

Lemma lim_find_spec ls fd : registry_ok ls ->
  match lim_find ls fd with
  | Some (i, ls') => exists L, registry_ok ls' /\ ls' !! i = Some L /\ L_fd L = fd /\
      ((ls' = ls) \/ (ls' = ls ++ [new_limit fd] /\ L = new_limit fd /\ fd ∉ map L_fd ls))
  | None => fd ∉ map L_fd ls /\ length ls = fd_limits_size
  end.
Proof.
  intros (Hlen & Hnd & Hf). unfold lim_find.
  destruct (list_find (fun L => L_fd L = fd) ls) as [[i L]|] eqn:E.
  - apply list_find_Some in E as (HL & Hfd & _). exists L. unfold registry_ok. auto 10.
  - apply list_find_None in E.
    assert (fd ∉ map L_fd ls) as Hni.
    { intros (L & Heq & HL)%list_elem_of_fmap. rewrite Forall_forall in E. by apply (E L). }
    case_decide as Hfull; [done|]. exists (new_limit fd). split_and!; try done.
    + split_and!.
      * rewrite length_app. unfold fd_limits_size in *. simpl. lia.
      * rewrite map_app. apply NoDup_app. split_and!; [done| |apply NoDup_singleton].
        intros x Hx ->%list_elem_of_singleton. done.
      * apply Forall_app. split; [done|]. repeat constructor; try done; simpl; lia.
    + by rewrite lookup_app_r, Nat.sub_diag by done.
    + by right.
Qed.

(** ** The order "at least as restrictive" *)

Definition list_le (new old : option (list Z)) : Prop :=
  match old with
  | None => True
  | Some l => exists l', new = Some l' /\ forall x, x ∈ l' -> x ∈ l
  end.

Definition limit_le (new old : fd_limit) : Prop :=
  L_fd new = L_fd old /\
  (forall n, 0 <= n -> Z.testbit (L_deny old) n = true -> Z.testbit (L_deny new) n = true) /\
  list_le (ioctl_list new) (ioctl_list old) /\ list_le (fcntl_list new) (fcntl_list old).

Definition registry_le (new old : list fd_limit) : Prop :=
  forall i L, old !! i = Some L -> exists L', new !! i = Some L' /\ limit_le L' L.

#[global] Instance list_le_refl : Reflexive list_le.
Proof. intros [l|]; simpl; [|done]. by exists l. Qed.
#[global] Instance limit_le_refl : Reflexive limit_le.
Proof. intros L. repeat split; done. Qed.
#[global] Instance registry_le_refl : Reflexive registry_le.
Proof. intros ls i L HL. by exists L. Qed.
#[global] Instance list_le_trans : Transitive list_le.
Proof.
  intros a b c Hab Hbc. destruct c as [c|]; [|done]. destruct Hbc as (b' & -> & Hb).
  destruct Hab as (a' & -> & Ha). exists a'. naive_solver.
Qed.
#[global] Instance limit_le_trans : Transitive limit_le.
Proof.
  intros a b c (H1 & H2 & H3 & H4) (H5 & H6 & H7 & H8). split_and!.
  - congruence.
  - auto.
  - by etransitivity.
  - by etransitivity.
Qed.
#[global] Instance registry_le_trans : Transitive registry_le.
Proof.
  intros a b c Hab Hbc i L (L1 & H1 & Hle1)%Hbc. apply Hab in H1 as (L2 & H2 & Hle2).
  exists L2. split; [done|]. by etransitivity.
Qed.

Lemma merged_le old src : list_le (Some (merged old src)) old.
Proof.
  destruct old as [l|]; simpl; [|done]. eexists. split; [done|].
  intros x Hx. by apply list_elem_of_filter in Hx as [_ ?].
Qed.

Lemma merge_ioctls_spec L src : limit_ok L ->
  exists L', merge_ioctls L src = Some L' /\ limit_ok L' /\ limit_le L' L /\
    L_deny L' = L_deny L /\ fcntl_list L' = fcntl_list L /\
    ioctl_list L' = Some (merged (ioctl_list L) src).
Proof.
  intros (Hi & Hf & Hci & Hcf). unfold merge_ioctls.
  destruct (lim_merge_spec (L_ioctls L) (L_nioctls L) src Hci) as (a & n & -> & Hl & Hc & Hn & He).
  { rewrite length_take. lia. }
  cbn [mbind option_bind]. eexists. split; [done|]. unfold limit_ok, limit_le, ioctl_list in *.
  simpl. rewrite He. split_and!; try done; [congruence|apply merged_le].
Qed.

Lemma merge_fcntls_spec L src : (length src <= 6)%nat -> limit_ok L ->
  exists L', merge_fcntls L src = Some L' /\ limit_ok L' /\ limit_le L' L /\
    L_deny L' = L_deny L /\ ioctl_list L' = ioctl_list L /\
    fcntl_list L' = Some (merged (fcntl_list L) src).
Proof.
  intros Hs (Hi & Hf & Hci & Hcf). unfold merge_fcntls.
  destruct (lim_merge_spec (L_fcntls L) (L_nfcntls L) src Hcf) as (a & n & -> & Hl & Hc & Hn & He).
  { rewrite length_take. lia. }
  cbn [mbind option_bind]. eexists. split; [done|]. unfold limit_ok, limit_le, fcntl_list in *.
  simpl. rewrite He. split_and!; try done; [congruence|apply merged_le].
Qed.

Lemma deny_unless_spec mask right bit L : limit_ok L ->
  limit_ok (deny_unless mask right bit L) /\ limit_le (deny_unless mask right bit L) L.
Proof.
  intros Hok. unfold deny_unless. destruct (_ =? 0); [|by split]. split; [done|].
  split_and!; [done| |done|done]. intros n Hn Hb. simpl. by rewrite Z.lor_spec, Hb.
Qed.

Lemma register_denials_spec mask L : limit_ok L ->
  limit_ok (register_denials mask L) /\ limit_le (register_denials mask L) L /\
  ioctl_list (register_denials mask L) = ioctl_list L /\
  fcntl_list (register_denials mask L) = fcntl_list L.
Proof.
  intros Hok. unfold register_denials.
  assert (forall r b L0, ioctl_list (deny_unless mask r b L0) = ioctl_list L0 /\
            fcntl_list (deny_unless mask r b L0) = fcntl_list L0) as Hlists.
  { intros r b L0. unfold deny_unless. by destruct (_ =? 0). }
  assert (forall r b L0, limit_ok L0 /\ limit_le L0 L ->
            limit_ok (deny_unless mask r b L0) /\ limit_le (deny_unless mask r b L0) L) as Hstep.
  { intros r b L0 [H1 H2]. destruct (deny_unless_spec mask r b L0 H1) as [H3 H4].
    split; [done|]. by etransitivity. }
  apply and_assoc. split; [by repeat apply Hstep|].
  split; repeat first [rewrite (proj1 (Hlists _ _ _))|rewrite (proj2 (Hlists _ _ _))]; done.
Qed.

(** Replacing a record by a more restrictive one. *)
Lemma registry_update ls i L L' : registry_ok ls -> ls !! i = Some L ->
  limit_ok L' -> limit_le L' L ->
  registry_ok (<[i := L']> ls) /\ registry_le (<[i := L']> ls) ls.
Proof.
  intros (Hlen & Hnd & Hf) HL Hok Hle. pose proof (lookup_lt_Some _ _ _ HL) as Hi. split.
  - split_and!.
    + by rewrite length_insert.
    + replace (map L_fd (<[i:=L']> ls)) with (map L_fd ls); [done|].
      apply list_eq. intros j. change (map L_fd) with (fmap (M:=list) L_fd).
      rewrite !list_lookup_fmap. destruct (decide (i = j)) as [<-|Hne].
      * rewrite HL, list_lookup_insert_eq by done. simpl. f_equal. symmetry. apply Hle.
      * by rewrite list_lookup_insert_ne.
    + by apply Forall_insert.
  - intros j M HM. destruct (decide (i = j)) as [<-|Hne].
    + exists L'. rewrite list_lookup_insert_eq by done. split; [done|]. congruence.
    + exists M. rewrite list_lookup_insert_ne by done. split; [done|]. reflexivity.
Qed.

Lemma registry_le_app ls x : registry_le (ls ++ x) ls.
Proof. intros i L HL. exists L. split; [by apply lookup_app_l_Some|]. reflexivity. Qed.

End Registry.

(** * Properties *)

(** The rights calls are the set operations on masks: whatever list of rights
    they are given (none being the sentinel), [cap_rights_set] holds afterwards
    for exactly the old and the given rights, [cap_rights_clear] for exactly the
    old ones that are not given, [cap_rights_init] for exactly the given ones,
    and [cap_rights_is_set] tells whether every given right is held. *)
Theorem cap_rights_algebra mask rs :
  Forall (fun r => r <> CU_CAP_END) rs ->
  exists mi ms mc b,
    cap_rights_init mask rs = Some mi /\ cap_rights_set mask rs = Some ms /\
    cap_rights_clear mask rs = Some mc /\ cap_rights_is_set mask rs = Some b /\
    (forall n, 0 <= n ->
      Z.testbit mi n = existsb (fun r => Z.testbit r n) rs /\
      Z.testbit ms n = Z.testbit mask n || existsb (fun r => Z.testbit r n) rs /\
      Z.testbit mc n = Z.testbit mask n && negb (existsb (fun r => Z.testbit r n) rs)) /\
    (b = true <-> forall n, 0 <= n -> existsb (fun r => Z.testbit r n) rs = true ->
                    Z.testbit mask n = true).
Proof.
  intros Hrs.
  unfold cap_rights_init, cap_rights_set, cap_rights_clear, cap_rights_is_set,
    cu_cap_rights_init, cu_cap_rights_set, cu_cap_rights_clear, cu_cap_rights_is_set,
    collect_rights.
  rewrite (collect_from_sentinel rs 0 Hrs). set (m := foldl Z.lor 0 rs).
  assert (forall n, 0 <= n -> Z.testbit m n = existsb (fun r => Z.testbit r n) rs) as Hm.
  { intros n Hn. unfold m. by rewrite foldl_lor_testbit, Z.testbit_0_l. }
  eexists m, (mask .| m), (mask .&~ m), (mask .& m =? m). split_and!; try done.
  - intros n Hn. rewrite Z.lor_spec, Z.land_spec, Z.lnot_spec, Hm by done. done.
  - rewrite subset_testbit. split; intros Hall n Hn Hb; apply Hall; try done.
    + by rewrite Hm.
    + by rewrite Hm in Hb.
Qed.

Lemma cap_rights_algebra_witness :
  exists mi, cap_rights_init 0 [CAP_READ; CAP_MMAP_R] = Some mi /\
    cap_rights_is_set mi [CAP_SEEK] = Some true /\ Z.testbit mi 2 = true.
Proof.
  destruct (cap_rights_algebra 0 [CAP_READ; CAP_MMAP_R]) as (mi & ms & mc & b & Hi & _ & _ & _ & Hb & _).
  - by repeat constructor.
  - exists mi. split; [exact Hi|]. split; [|exact (proj1 (Hb 2 ltac:(lia)))].
    vm_compute in Hi. injection Hi as <-. reflexivity.
Defined.

(** C25. Limiting a descriptor again never widens it: merging an allowlist into a
    registered record stays inside its arrays, keeps exactly the old commands
    that are also in the new list (the first 16 of the new list when there was
    no restriction), and leaves every other restriction of the record as it
    was. *)
Theorem merge_only_restricts L src :
  limit_ok L ->
  exists L', merge_ioctls L src = Some L' /\ limit_ok L' /\ limit_le L' L /\
    ((length src <= 6)%nat ->
      exists L'', merge_fcntls L' src = Some L'' /\ limit_ok L'' /\ limit_le L'' L /\
        ioctl_list L'' = Some (merged (ioctl_list L) src) /\
        fcntl_list L'' = Some (merged (fcntl_list L) src)).
Proof.
  intros Hok. destruct (merge_ioctls_spec L src Hok) as (L' & HL' & Hok' & Hle & _ & Hf & Hi).
  exists L'. split_and!; try done. intros Hs.
  destruct (merge_fcntls_spec L' src Hs Hok') as (L2 & HL2 & Hok2 & Hle2 & _ & Hi2 & Hf2).
  exists L2. rewrite Hi2, Hf2, Hf. split_and!; try done. by etransitivity.
Qed.

Lemma merge_only_restricts_witness :
  exists L', merge_ioctls (FdLimit 1 0 ([5; 6; 7] ++ replicate 13 0) 3 (replicate 6 0) (-1)) [7; 5] = Some L'
    /\ limit_ok L'.
Proof.
  destruct (merge_only_restricts
    (FdLimit 1 0 ([5; 6; 7] ++ replicate 13 0) 3 (replicate 6 0) (-1)) [7; 5])
    as (L' & HL & Hok & _).
  - unfold limit_ok, cells_ok. simpl. lia.
  - exists L'. exact (conj HL Hok).
Defined.
