(* ===== verification/CapShim.v ===== *)
(** The sandbox shim as a program (src.compat/capsicum.c, the [caph_*] calls).

    The shim's static variables are the record [shim]; a [world] adds [errno] and
    the trace of the kernel calls made with their answers.  Every function of the
    source is a computation in the monad [M]: a step from world to world that
    returns the function's result, or a [fault] ([abort()], or a store outside a
    stack array).  The kernel and the environment are parameters ([Kernel]): the
    answer to a call is an arbitrary function of the trace so far, so every
    failure of every call is covered.  [run_api] is the interface the tools use,
    [steps] its closure over call sequences. *)

From S2P Require Import Prelude Abi Bpf CapNamespace CapFdRights CapRights.

(** * The world *)

(** Kernel and libc calls the shim makes. *)
Inductive kcall :=
| KNoNewPrivs                                  (* prctl(PR_SET_NO_NEW_PRIVS, 1) *)
| KSeccompLoad (p : bpf_prog)                  (* seccomp(SECCOMP_SET_MODE_FILTER) *)
| KLandlockVersion                             (* landlock_create_ruleset(NULL, 0, VERSION) *)
| KLandlockCreate (handled : Z)
| KLandlockAddRule (ruleset fd allowed : Z)    (* LANDLOCK_RULE_PATH_BENEATH *)
| KLandlockRestrict (ruleset : Z)
| KClose (fd : Z)
| KFcntlGetFd (fd : Z)
| KFstat (fd : Z)                              (* the answer's [k_out] is st_mode *)
| KOpenDir (path : string)                     (* open(path, O_RDONLY | O_DIRECTORY) *)
| KWrite (fd : Z) (msg : string)
| KOpenlog
| KTzset.

Record kans := KAns { k_ret : Z; k_errno : Z; k_out : Z }.
Abbreviation ktrace := (list (kcall * kans)).

Class Kernel := {
  kernel : ktrace -> kcall -> kans;
  getenv : string -> option string
}.

(** Which optional access rights <linux/landlock.h> defines. *)
Class LandlockHeader := { have_REFER : bool; have_TRUNCATE : bool }.

Record shim := Shim {
  lookup_fds : list Z;
  allow_fds : list Z;
  sandbox_entered : bool;
  fd_limits : list fd_limit
}.

Record world := World { st : shim; errno : Z; trace : ktrace }.

Inductive fault := AbortCalled | StackOverrun.

Inductive outcome (A : Type) :=
| Ret (a : A) (w : world)
| Fault (f : fault).
Arguments Ret {A} a w.
Arguments Fault {A} f.

Definition M (A : Type) : Type := world -> outcome A.

#[export] Instance M_ret : MRet M := fun A a w => Ret a w.
#[export] Instance M_bind : MBind M := fun A B f m w =>
  match m w with Ret a w' => f a w' | Fault e => Fault e end.

Definition get_shim : M shim := fun w => Ret (st w) w.
Definition put_shim (s : shim) : M unit := fun w => Ret () (World s (errno w) (trace w)).
Definition get_errno : M Z := fun w => Ret (errno w) w.
Definition set_errno (e : Z) : M unit := fun w => Ret () (World (st w) e (trace w)).
Definition fault_with {A} (f : fault) : M A := fun _ => Fault f.

(** [if (m < 0) return -1; k] *)
Definition or_fail (m k : M Z) : M Z := r ← m; if r <? 0 then mret (-1) else k.
Infix ";?" := or_fail (at level 62, right associativity) : c_scope.

(** [errno = e; return -1] *)
Definition fail_errno (e : Z) : M Z := _ ← set_errno e; mret (-1).

Definition ENOSPC : Z := 28.
Definition ENOTDIR : Z := 20.
Definition ENOSYS : Z := 38.

Definition LANDLOCK_ACCESS_FS_EXECUTE : Z := 1 .<< 0.
Definition LANDLOCK_ACCESS_FS_WRITE_FILE : Z := 1 .<< 1.
Definition LANDLOCK_ACCESS_FS_READ_FILE : Z := 1 .<< 2.
Definition LANDLOCK_ACCESS_FS_READ_DIR : Z := 1 .<< 3.
Definition LANDLOCK_ACCESS_FS_REMOVE_DIR : Z := 1 .<< 4.
Definition LANDLOCK_ACCESS_FS_REMOVE_FILE : Z := 1 .<< 5.
Definition LANDLOCK_ACCESS_FS_MAKE_CHAR : Z := 1 .<< 6.
Definition LANDLOCK_ACCESS_FS_MAKE_DIR : Z := 1 .<< 7.
Definition LANDLOCK_ACCESS_FS_MAKE_REG : Z := 1 .<< 8.
Definition LANDLOCK_ACCESS_FS_MAKE_SOCK : Z := 1 .<< 9.
Definition LANDLOCK_ACCESS_FS_MAKE_FIFO : Z := 1 .<< 10.
Definition LANDLOCK_ACCESS_FS_MAKE_BLOCK : Z := 1 .<< 11.
Definition LANDLOCK_ACCESS_FS_MAKE_SYM : Z := 1 .<< 12.
Definition LANDLOCK_ACCESS_FS_REFER : Z := 1 .<< 13.
Definition LANDLOCK_ACCESS_FS_TRUNCATE : Z := 1 .<< 14.

Definition CAPH_IGNORE_EBADF : Z := 0x0001.
Definition CAPH_READ : Z := 0x0002.
Definition CAPH_WRITE : Z := 0x0004.

Section Shim.
Context {ABI : Abi} {KRN : Kernel} {LLH : LandlockHeader}.

(** A kernel call: [errno] is set when it fails. *)
Definition ksys (c : kcall) : M kans := fun w =>
  let a := kernel (trace w) c in
  Ret a (World (st w) (if k_ret a <? 0 then k_errno a else errno w) (trace w ++ [(c, a)])).
Definition kcall_ret (c : kcall) : M Z := a ← ksys c; mret (s32 (k_ret a)).

Definition sandbox_disabled : bool :=
  match getenv "ASTROUTILS_SANDBOX" with
  | Some e => String.eqb e "NONE"
  | None => false
  end.

(** * Loading filters *)

Definition debug_msg : string := "seccomp_load" +:+ String (Ascii.ascii_of_nat 10) EmptyString.

(** [prog.len = (unsigned short)p->len]: [emit] keeps [len] at or below 512, so
    the kernel is handed all of the program. *)
Definition seccomp_load (p : bpf_prog) : M Z :=
  kcall_ret KNoNewPrivs ;?
  (_ ← match getenv "CU_SANDBOX_DEBUG" with
       | Some _ => kcall_ret (KWrite 2 debug_msg)
       | None => mret 0
       end;
   kcall_ret (KSeccompLoad p)).

Definition load_asm (m : Asm) : M Z :=
  match m [] with
  | Some p => seccomp_load p
  | None => fault_with AbortCalled
  end.

Definition install_namespace_filter (mode : cap_mode) : M Z :=
  s ← get_shim; load_asm (namespace_filter mode (lookup_fds s)).

(** * Landlock *)

Definition mutate_access (abi : Z) : Z :=
  let mutate := LANDLOCK_ACCESS_FS_WRITE_FILE .|
    LANDLOCK_ACCESS_FS_REMOVE_DIR .| LANDLOCK_ACCESS_FS_REMOVE_FILE .|
    LANDLOCK_ACCESS_FS_MAKE_CHAR .| LANDLOCK_ACCESS_FS_MAKE_DIR .|
    LANDLOCK_ACCESS_FS_MAKE_REG .| LANDLOCK_ACCESS_FS_MAKE_SOCK .|
    LANDLOCK_ACCESS_FS_MAKE_FIFO .| LANDLOCK_ACCESS_FS_MAKE_BLOCK .|
    LANDLOCK_ACCESS_FS_MAKE_SYM in
  let mutate := if have_REFER && (2 <=? abi)
                then mutate .| LANDLOCK_ACCESS_FS_REFER else mutate in
  if have_TRUNCATE && (3 <=? abi) then mutate .| LANDLOCK_ACCESS_FS_TRUNCATE else mutate.

Definition handled_access (mode : cap_mode) (abi : Z) : Z :=
  match mode with
  | MODE_CASPER => mutate_access abi
  | _ => mutate_access abi .| LANDLOCK_ACCESS_FS_EXECUTE .|
         LANDLOCK_ACCESS_FS_READ_FILE .| LANDLOCK_ACCESS_FS_READ_DIR
  end.

(** [int e = errno; close(ruleset); errno = e; return -1] *)
Definition close_and_fail (ruleset : Z) : M Z :=
  e ← get_errno; _ ← ksys (KClose ruleset); fail_errno e.

(** The rule loops; [k] is what follows them. *)
Fixpoint add_rules (ruleset handled : Z) (fds : list Z) (k : M Z) : M Z :=
  match fds with
  | [] => k
  | fd :: fds =>
    a ← ksys (KLandlockAddRule ruleset fd handled);
    if k_ret a <? 0 then close_and_fail ruleset else add_rules ruleset handled fds k
  end.

(** The descriptors each mode excepts. *)
Definition full_fds (mode : cap_mode) (s : shim) : list Z :=
  if decide (mode = MODE_FULL) then lookup_fds s else [].
Definition paths_fds (mode : cap_mode) (s : shim) : list Z :=
  if decide (mode = MODE_PATHS) then allow_fds s else [].

Definition landlock_lockdown (mode : cap_mode) : M Z :=
  match sys "landlock_create_ruleset", sys "landlock_restrict_self" with
  | Some _, Some _ =>
    abi ← kcall_ret KLandlockVersion;
    if abi <? 1 then fail_errno ENOSYS
    else
      let handled := handled_access mode abi in
      ruleset ← kcall_ret (KLandlockCreate handled);
      if ruleset <? 0 then mret (-1)
      else
        s ← get_shim;
        add_rules ruleset handled (full_fds mode s)
          (add_rules ruleset handled (paths_fds mode s)
            (a ← ksys (KLandlockRestrict ruleset);
             if k_ret a <? 0 then close_and_fail ruleset
             else _ ← ksys (KClose ruleset); mret 0))
  | _, _ => fail_errno ENOSYS
  end.

(** * Flushing the registry *)

Definition FLUSH_CHUNK : nat := 60.

Definition ents_of (names : list string) (argn : nat) (fd : Z) : list deny_ent :=
  map (fun nr => DenyEnt nr argn fd) (omap sys names).

Definition read_syscalls := ["read"; "readv"; "pread64"; "preadv"; "preadv2"].
Definition write_syscalls := ["write"; "writev"; "pwrite64"; "pwritev"; "pwritev2"].
Definition seek_syscalls := ["lseek"; "_llseek"].
Definition trunc_syscalls := ["ftruncate"; "ftruncate64"].
Definition fsync_syscalls := ["fsync"; "fdatasync"].
Definition shut_syscalls := ["shutdown"].
Definition mmap_syscalls := ["mmap"; "mmap2"].

Definition when (b : bool) (ents : list deny_ent) : list deny_ent := if b then ents else [].

(** The entries [flush_registered_limits] adds for one record. *)
Definition limit_ents (fd d : Z) : list deny_ent :=
  when (tst d LDENY_RD) (ents_of read_syscalls 0 fd) ++
  when (tst d LDENY_WR) (ents_of write_syscalls 0 fd) ++
  when (tst d LDENY_SEEK) (ents_of seek_syscalls 0 fd) ++
  when (tst d LDENY_TRUNC) (ents_of trunc_syscalls 0 fd) ++
  when (tst d LDENY_FSYNC) (ents_of fsync_syscalls 0 fd) ++
  when (tst d LDENY_SHUT) (ents_of shut_syscalls 0 fd) ++
  when (tst d LDENY_MMAP) (ents_of mmap_syscalls 4 fd).

(** [ADD] for each entry; [ents] is the buffer, the result [None] when a chunk
    could not be installed. *)
Fixpoint add_ents (ents new : list deny_ent) : M (option (list deny_ent)) :=
  match new with
  | [] => mret (Some ents)
  | e :: new =>
    let ents := ents ++ [e] in
    if decide (length ents = FLUSH_CHUNK) then
      r ← load_asm (install_entry_chunk ents);
      if r <? 0 then mret None else add_ents [] new
    else add_ents ents new
  end.

Definition arg1_lims (which : fd_limit -> option (list Z)) (ls : list fd_limit) : list (Z * list Z) :=
  omap (fun L => l ← which L; Some (L_fd L, l)) ls.

Definition load_arg1_limits (nr : Z) (which : fd_limit -> option (list Z)) : M Z :=
  s ← get_shim;
  match install_arg1_limits nr (arg1_lims which (fd_limits s)) with
  | NothingToLoad => mret 0
  | Load p => seccomp_load p
  | RefusedENOSPC => fail_errno ENOSPC
  | Aborted => fault_with AbortCalled
  | CmdIdxOverflow => fault_with StackOverrun
  end.

(** [SYS_fcntl] or else [SYS_fcntl64] *)
Definition sys_fcntl : option Z :=
  match sys "fcntl" with Some nr => Some nr | None => sys "fcntl64" end.

Definition flush_registered_limits : M Z :=
  s ← get_shim;
  r ← add_ents [] (flat_map (fun L => limit_ents (L_fd L) (L_deny L)) (fd_limits s));
  match r with
  | None => mret (-1)
  | Some ents =>
    (if decide (ents = []) then mret 0 else load_asm (install_entry_chunk ents)) ;?
    match sys "ioctl" with Some nr => load_arg1_limits nr ioctl_list | None => mret 0 end ;?
    match sys_fcntl with Some nr => load_arg1_limits nr fcntl_list | None => mret 0 end ;?
    mret 0
  end.

(** * Limiting descriptors *)

(** Find or append the record of [fd] and update it. *)
Definition update_limit (fd : Z) (f : fd_limit -> option fd_limit) : M Z :=
  s ← get_shim;
  match lim_find (fd_limits s) fd with
  | None => fail_errno ENOSPC
  | Some (i, ls) =>
    match L ← ls !! i; f L with
    | Some L' =>
      _ ← put_shim (Shim (lookup_fds s) (allow_fds s) (sandbox_entered s) (<[i := L']> ls));
      mret 0
    | None => fault_with StackOverrun
    end
  end.

Definition load_fd_arg1 (fd : Z) (nr : option Z) (allowed : list Z) : M Z :=
  match nr with Some nr => load_asm (limit_fd_arg1 fd nr allowed) | None => mret 0 end.

Definition caph_ioctls_limit (fd : Z) (cmds : list Z) : M Z :=
  if sandbox_disabled then mret 0
  else
    let allowed := map s64 (take 16 cmds) in
    s ← get_shim;
    if sandbox_entered s then load_fd_arg1 fd (sys "ioctl") allowed
    else update_limit fd (fun L => merge_ioctls L allowed).

Definition CAP_FCNTL_GETFL : Z := F_GETFL.
Definition CAP_FCNTL_SETFL : Z := F_SETFL.

Definition caph_fcntls_limit (fd fcntlrights : Z) : M Z :=
  if sandbox_disabled then mret 0
  else
    let allowed := [F_GETFD; F_SETFD] ++
      (if tst fcntlrights CAP_FCNTL_GETFL then [F_GETFL] else []) ++
      (if tst fcntlrights CAP_FCNTL_SETFL then [F_SETFL] else []) in
    s ← get_shim;
    if sandbox_entered s then load_fd_arg1 fd sys_fcntl allowed
    else update_limit fd (fun L => merge_fcntls L allowed).

Definition safe_ioctls : list Z :=
  omap ioctl_no ["FIONREAD"; "FIOCLEX"; "FIONCLEX"; "TCGETS"; "TIOCGWINSZ"].

Definition S_ISDIR (m : Z) : bool := m .& 0xF000 =? 0x4000.

(** The entries [caph_rights_limit] installs at once when already entered. *)
Definition rights_ents (mask fd : Z) : list deny_ent :=
  when (mask .& CAP_READ =? 0) (ents_of read_syscalls 0 fd) ++
  when (mask .& (CAP_WRITE .| CAP_PWRITE) =? 0) (ents_of write_syscalls 0 fd) ++
  when (mask .& CAP_SEEK =? 0) (ents_of seek_syscalls 0 fd) ++
  when (mask .& CAP_FTRUNCATE =? 0) (ents_of trunc_syscalls 0 fd) ++
  when (mask .& CAP_FSYNC =? 0) (ents_of fsync_syscalls 0 fd) ++
  when (mask .& CAP_SHUTDOWN =? 0) (ents_of shut_syscalls 0 fd) ++
  when (mask .& CAP_MMAP =? 0) (ents_of mmap_syscalls 4 fd).

(** What [caph_rights_limit] accumulates in a record. *)
Definition register_rights (mask : Z) (L : fd_limit) : option fd_limit :=
  let L := register_denials mask L in
  L ← (if mask .& CAP_IOCTL =? 0 then merge_ioctls L (map s64 safe_ioctls) else Some L);
  if mask .& CAP_FCNTL =? 0 then merge_fcntls L [F_GETFD; F_SETFD; F_GETFL; F_SETFL] else Some L.

(** Registering a [CAP_LOOKUP] directory. *)
Definition register_lookup (fd : Z) : M Z :=
  s ← get_shim;
  if sandbox_entered s then fail_errno ENOSYS
  else
    a ← ksys (KFstat fd);
    if k_ret a <? 0 then mret (-1)
    else if negb (S_ISDIR (k_out a)) then fail_errno ENOTDIR
    else if decide (length (lookup_fds s) < 8)%nat then
      _ ← put_shim (Shim (lookup_fds s ++ [fd]) (allow_fds s) (sandbox_entered s) (fd_limits s));
      mret 0
    else mret 0.

(** Post-enter limits: installed immediately. *)
Definition limit_now (fd mask : Z) : M Z :=
  match limit_fd_syscalls fd (rights_ents mask fd) with
  | Some m => load_asm m
  | None => mret 0
  end ;?
  (if mask .& CAP_IOCTL =? 0 then caph_ioctls_limit fd safe_ioctls else mret 0) ;?
  (if mask .& CAP_FCNTL =? 0
   then caph_fcntls_limit fd (CAP_FCNTL_GETFL .| CAP_FCNTL_SETFL) else mret 0) ;?
  mret 0.

Definition caph_rights_limit (fd mask : Z) : M Z :=
  if sandbox_disabled then mret 0
  else
    kcall_ret (KFcntlGetFd fd) ;?
    (if tst mask CAP_LOOKUP then register_lookup fd else mret 0) ;?
    (s ← get_shim;
     if sandbox_entered s then limit_now fd mask
     else update_limit fd (register_rights mask)).

Definition caph_limit_stream (fd flags : Z) : M Z :=
  if sandbox_disabled then mret 0
  else
    r ← kcall_ret (KFcntlGetFd fd);
    if r <? 0 then mret (if tst flags CAPH_IGNORE_EBADF then 0 else -1)
    else
      let mask := CAP_FSTAT in
      let mask := if tst flags CAPH_READ then mask .| CAP_READ else mask in
      let mask := if tst flags CAPH_WRITE then mask .| (CAP_WRITE .| CAP_PWRITE) else mask in
      caph_rights_limit fd mask.

Definition caph_limit_stdin : M Z := caph_limit_stream 0 CAPH_READ.
Definition caph_limit_stdout : M Z := caph_limit_stream 1 CAPH_WRITE.
Definition caph_limit_stderr : M Z := caph_limit_stream 2 CAPH_WRITE.
Definition caph_limit_stdio : M Z :=
  caph_limit_stdin ;? caph_limit_stdout ;? caph_limit_stderr ;? mret 0.

(** * Entering *)

Definition set_entered : M Z :=
  s ← get_shim;
  _ ← put_shim (Shim (lookup_fds s) (allow_fds s) true (fd_limits s));
  mret 0.

Definition enter_mode (mode : cap_mode) : M Z :=
  if sandbox_disabled then mret 0
  else
    s ← get_shim;
    if sandbox_entered s then mret 0
    else
      kcall_ret KNoNewPrivs ;?
      landlock_lockdown mode ;?
      install_namespace_filter mode ;?
      flush_registered_limits ;?
      set_entered.

Definition caph_enter : M Z := enter_mode MODE_FULL.
Definition caph_enter_casper : M Z :=
  _ ← (if sandbox_disabled then mret 0 else kcall_ret KOpenlog);
  enter_mode MODE_CASPER.
Definition caph_enter_paths : M Z := enter_mode MODE_PATHS.

Definition caph_allow_path (path : string) : M Z :=
  if sandbox_disabled then mret 0
  else
    s ← get_shim;
    if sandbox_entered s then fail_errno ENOSYS
    else
      fd ← kcall_ret (KOpenDir path);
      if fd <? 0 then mret (-1)
      else if decide (length (allow_fds s) = 8)%nat then
        _ ← ksys (KClose fd); fail_errno ENOSPC
      else
        _ ← put_shim (Shim (lookup_fds s) (allow_fds s ++ [fd]) (sandbox_entered s) (fd_limits s));
        mret 0.

Definition caph_cache_tzdata : M Z :=
  if sandbox_disabled then mret 0 else _ ← ksys KTzset; mret 0.
Definition caph_cache_catpages : M Z := mret 0.

(** * The interface *)

Inductive api_call :=
| Enter (mode : cap_mode)
| AllowPath (path : string)
| RightsLimit (fd mask : Z)
| IoctlsLimit (fd : Z) (cmds : list Z)
| FcntlsLimit (fd rights : Z)
| LimitStream (fd flags : Z)
| LimitStdio
| CacheTzdata
| CacheCatpages.

Definition run_api (c : api_call) : M Z :=
  match c with
  | Enter MODE_FULL => caph_enter
  | Enter MODE_CASPER => caph_enter_casper
  | Enter MODE_PATHS => caph_enter_paths
  | AllowPath path => caph_allow_path path
  | RightsLimit fd mask => caph_rights_limit fd mask
  | IoctlsLimit fd cmds => caph_ioctls_limit fd cmds
  | FcntlsLimit fd r => caph_fcntls_limit fd r
  | LimitStream fd flags => caph_limit_stream fd flags
  | LimitStdio => caph_limit_stdio
  | CacheTzdata => caph_cache_tzdata
  | CacheCatpages => caph_cache_catpages
  end.

(** Sequences of calls that return. *)
Inductive steps : world -> world -> Prop :=
| steps_refl w : steps w w
| steps_call w1 w2 w3 c r : steps w1 w2 -> run_api c w2 = Ret r w3 -> steps w1 w3.

(** The state at program start: static storage, nothing called yet. *)
Definition initial (e : Z) : world := World (Shim [] [] false []) e [].
Definition reachable (w : world) : Prop := exists e, steps (initial e) w.

(** The filters in force: those whose load succeeded. *)
Definition loaded (ev : kcall * kans) : option bpf_prog :=
  match ev with
  | (KSeccompLoad p, a) => if k_ret a =? 0 then Some p else None
  | _ => None
  end.
Definition filters (w : world) : list bpf_prog := omap loaded (trace w).

(** A call goes through when every filter allows it. *)
Definition permitted `{BpfMachine} (w : world) (d : seccomp_data) : Prop :=
  Forall (fun p => filter_result p d = Some ret_allow) (filters w).

End Shim.

(** * Reasoning about the monad *)

(** [wp F m w Q]: [m] run in [w] either faults in [F] or returns in [Q]. *)
Definition wp {A} (F : fault -> Prop) (m : M A) (w : world) (Q : A -> world -> Prop) : Prop :=
  match m w with Ret a w' => Q a w' | Fault f => F f end.

Definition no_fault : fault -> Prop := fun _ => False.

Lemma wp_ret {A} F (a : A) w (Q : A -> world -> Prop) : Q a w -> wp F (mret a) w Q.
Proof. done. Qed.

Lemma wp_bind {A B} F (m : M A) (k : A -> M B) w Q :
  wp F m w (fun a w' => wp F (k a) w' Q) -> wp F (m ≫= k) w Q.
Proof. unfold wp, mbind, M_bind. by destruct (m w). Qed.

Lemma wp_mono {A} (F F' : fault -> Prop) (m : M A) w (Q Q' : A -> world -> Prop) :
  wp F m w Q -> (forall f, F f -> F' f) -> (forall a w', Q a w' -> Q' a w') -> wp F' m w Q'.
Proof. unfold wp. destruct (m w); auto. Qed.

Lemma wp_or_fail F m k w Q :
  wp F m w (fun r w' => if r <? 0 then Q (-1) w' else wp F k w' Q) -> wp F (m ;? k) w Q.
Proof.
  intros Hm. unfold or_fail. apply wp_bind. eapply wp_mono; [exact Hm|done|].
  intros r w'. cbv beta. by destruct (r <? 0).
Qed.

(** [m] keeps the preorder [R] between the worlds before and after. *)
Class Keeps (R : relation world) {A} (m : M A) : Prop :=
  keeps : forall w, wp no_fault m w (fun _ w' => R w w').

Section Keeps.
Context (R : relation world) `{!PreOrder R}.

#[export] Instance keeps_ret {A} (a : A) : Keeps R (mret a).
Proof. intros w. apply wp_ret. reflexivity. Qed.
#[export] Instance keeps_bind {A B} (m : M A) (k : A -> M B) :
  Keeps R m -> (forall a, Keeps R (k a)) -> Keeps R (m ≫= k).
Proof.
  intros Hm Hk w. apply wp_bind. eapply wp_mono; [apply Hm|done|].
  cbv beta. intros a w1 H1. eapply wp_mono; [apply Hk|done|].
  cbv beta. intros b w2 H2. by transitivity w1.
Qed.
#[export] Instance keeps_if {A} (b : bool) (m1 m2 : M A) :
  Keeps R m1 -> Keeps R m2 -> Keeps R (if b then m1 else m2).
Proof. by destruct b. Qed.
#[export] Instance keeps_or_fail m k : Keeps R m -> Keeps R k -> Keeps R (m ;? k).
Proof. intros. apply keeps_bind; [done|]. intros r. apply _. Qed.
#[export] Instance keeps_get_shim : Keeps R get_shim.
Proof. intros w. unfold wp. simpl. reflexivity. Qed.
#[export] Instance keeps_get_errno : Keeps R get_errno.
Proof. intros w. unfold wp. simpl. reflexivity. Qed.

End Keeps.

Section KernelOnly.
Context {ABI : Abi} {KRN : Kernel} {LLH : LandlockHeader}.

(** [loads ps w w']: between [w] and [w'] only kernel calls were made; the shim's
    variables keep their values, the trace grew, and exactly the filters [ps]
    came into force, in this order. *)
Definition loads (ps : list bpf_prog) (w w' : world) : Prop :=
  st w' = st w /\ trace w `prefix_of` trace w' /\ filters w' = filters w ++ ps.

Lemma loads_trans ps qs w1 w2 w3 : loads ps w1 w2 -> loads qs w2 w3 -> loads (ps ++ qs) w1 w3.
Proof.
  intros (H1 & H2 & H3) (H4 & H5 & H6). split; [congruence|]. split; [by etransitivity|].
  by rewrite H6, H3, app_assoc.
Qed.

#[export] Instance loads_nothing : PreOrder (loads []).
Proof.
  split.
  - intros w. split_and!; try done. by rewrite app_nil_r.
  - intros w1 w2 w3. apply (loads_trans [] []).
Qed.

Abbreviation Quiet m := (Keeps (loads []) m).

Lemma filters_snoc w c a s e :
  filters (World s e (trace w ++ [(c, a)])) = filters w ++ omap loaded [(c, a)].
Proof. unfold filters. simpl. by rewrite omap_app. Qed.

#[export] Instance quiet_set_errno e : Quiet (set_errno e).
Proof. intros w. unfold wp. simpl. split_and!; try done. by rewrite app_nil_r. Qed.
#[export] Instance quiet_fail_errno e : Quiet (fail_errno e).
Proof. apply _. Qed.

Definition is_load (c : kcall) : bool := if c is KSeccompLoad _ then true else false.

#[export] Instance quiet_ksys c : TCEq (is_load c) false -> Quiet (ksys c).
Proof.
  intros Hc%TCEq_eq w. unfold wp, ksys. split_and!; [done|by apply prefix_app_r|].
  rewrite filters_snoc. by destruct c.
Qed.
#[export] Instance quiet_kcall_ret c : TCEq (is_load c) false -> Quiet (kcall_ret c).
Proof. intros. unfold kcall_ret. apply _. Qed.
#[export] Instance quiet_close_and_fail rs : Quiet (close_and_fail rs).
Proof. unfold close_and_fail. apply _. Qed.
#[export] Instance quiet_add_rules rs h fds k : Quiet k -> Quiet (add_rules rs h fds k).
Proof. intros. induction fds; cbn [add_rules]; apply _. Qed.
#[export] Instance quiet_landlock mode : Quiet (landlock_lockdown mode).
Proof. unfold landlock_lockdown. repeat case_match; apply _. Qed.

End KernelOnly.

(** * What each step loads *)

(** Documented behaviour of the kernel calls: they return -1 or a value that fits
    an [int], and seccomp(2) returns 0 on success. *)
Class KernelOk `{Kernel} : Prop := {
  kernel_ret_range : forall t c, -1 <= k_ret (kernel t c) < 2 ^ 31;
  kernel_seccomp_ret : forall t p, k_ret (kernel t (KSeccompLoad p)) <= 0
}.

Section Loading.
Context {ABI : Abi} {KRN : Kernel} {LLH : LandlockHeader}.
Context `{!AbiOk} `{!KernelOk} {BPF : BpfMachine}.

(** Success with all of [ps] in force, or -1 with some first part of them. *)
Definition attempt (ps : list bpf_prog) (w : world) (r : Z) (w' : world) : Prop :=
  (r = 0 /\ loads ps w w') \/ (r = -1 /\ exists qs, qs `prefix_of` ps /\ loads qs w w').

Lemma attempt_fail w1 w2 w3 ps qs : loads ps w1 w2 -> attempt qs w2 (-1) w3 ->
  attempt (ps ++ qs) w1 (-1) w3.
Proof.
  intros H1 [[? _]|(_ & rs & Hp & H2)]; [done|]. right. split; [done|].
  exists (ps ++ rs). split; [by apply prefix_app|]. by eapply loads_trans.
Qed.

Lemma attempt_seq F m k ps qs w :
  wp F m w (attempt ps w) -> (forall w', loads ps w w' -> wp F k w' (attempt qs w')) ->
  wp F (m ;? k) w (attempt (ps ++ qs) w).
Proof.
  intros Hm Hk. apply wp_or_fail. eapply wp_mono; [exact Hm|done|].
  cbv beta. intros r w1 [[-> H1]|(-> & rs & Hp & H1)]; simpl.
  - eapply wp_mono; [by apply Hk|done|]. cbv beta. intros r w2 [[-> H2]|(-> & H2)].
    + left. split; [done|]. by eapply loads_trans.
    + eapply attempt_fail; [done|]. by right.
  - right. split; [done|]. exists rs. split; [|done]. by apply prefix_app_r.
Qed.

Lemma attempt_ret F w : wp F (mret 0) w (attempt [] w).
Proof. apply wp_ret. left. split; [done|]. reflexivity. Qed.

Lemma kcall_ret_wp c w (Q : Z -> world -> Prop) :
  (let a := kernel (trace w) c in
   Q (k_ret a) (World (st w) (if k_ret a <? 0 then k_errno a else errno w) (trace w ++ [(c, a)]))) ->
  forall F, wp F (kcall_ret c) w Q.
Proof.
  intros HQ F. unfold kcall_ret, wp, mbind, M_bind, ksys, mret, M_ret.
  pose proof (kernel_ret_range (trace w) c). rewrite s32_small by lia. exact HQ.
Qed.

Lemma attempt_weaken w1 w2 ps r w3 : loads [] w1 w2 -> attempt ps w2 r w3 -> attempt ps w1 r w3.
Proof.
  intros HL [[-> H2]|(-> & qs & Hp & H2)].
  - left. split; [done|]. by apply (loads_trans [] ps _ w2).
  - right. split; [done|]. exists qs. split; [done|]. by apply (loads_trans [] qs _ w2).
Qed.

Lemma attempt_quiet_fail ps w w' : loads [] w w' -> attempt ps w (-1) w'.
Proof. intros HL. right. split; [done|]. exists []. split; [apply prefix_nil|done]. Qed.

Lemma quiet_bind {A} F (m : M A) k qs w : Keeps (loads []) m ->
  (forall a w', loads [] w w' -> wp F (k a) w' (attempt qs w')) ->
  wp F (m ≫= k) w (attempt qs w).
Proof.
  intros Hm Hk. apply wp_bind. eapply wp_mono; [apply Hm|by intros f []|].
  cbv beta. intros a w1 H1. eapply wp_mono; [by apply Hk|done|].
  intros r w2. by apply attempt_weaken.
Qed.

Lemma quiet_or_fail F (m : M Z) k qs w : Keeps (loads []) m ->
  (forall w', loads [] w w' -> wp F k w' (attempt qs w')) ->
  wp F (m ;? k) w (attempt qs w).
Proof.
  intros Hm Hk. apply quiet_bind; [done|]. intros r w' HL. destruct (r <? 0); [|by apply Hk].
  apply wp_ret. by apply attempt_quiet_fail.
Qed.

Lemma seccomp_load_wp F p w : wp F (seccomp_load p) w (attempt [p] w).
Proof.
  unfold seccomp_load. apply quiet_or_fail; [apply _|]. intros w1 _.
  apply quiet_bind; [destruct (getenv _); apply _|]. intros _ w2 _.
  apply kcall_ret_wp. simpl. set (a := kernel _ _).
  pose proof (kernel_ret_range (trace w2) (KSeccompLoad p)) as Hr.
  pose proof (kernel_seccomp_ret (trace w2) p) as Hs. fold a in Hr, Hs.
  unfold attempt, loads. rewrite filters_snoc. simpl.
  destruct (Z.eqb_spec (k_ret a) 0) as [E|E].
  - left. split_and!; [done|done|by apply prefix_app_r|done].
  - right. split; [lia|]. exists []. split; [apply prefix_nil|].
    split_and!; [done|by apply prefix_app_r|done].
Qed.

Lemma load_asm_wp F m p w : m [] = Some p -> wp F (load_asm m) w (attempt [p] w).
Proof. intros Hm. unfold load_asm. rewrite Hm. apply seccomp_load_wp. Qed.

(** ** The registry's filters *)

Definition asm_prog (m : Asm) : bpf_prog := default [] (m []).

(** The chunks the entries are installed in. *)
Fixpoint chunks (ents new : list deny_ent) : list (list deny_ent) :=
  match new with
  | [] => if decide (ents = []) then [] else [ents]
  | e :: new =>
    let ents := ents ++ [e] in
    if decide (length ents = FLUSH_CHUNK) then ents :: chunks [] new else chunks ents new
  end.

Definition chunk_prog (ents : list deny_ent) : bpf_prog := asm_prog (install_entry_chunk ents).

Lemma chunk_load_wp F ents w : args_ok ents -> (length ents <= 60)%nat ->
  wp F (load_asm (install_entry_chunk ents)) w (attempt [chunk_prog ents] w).
Proof.
  intros Ha Hl. destruct (install_entry_chunk_scan ents Ha Hl) as (p & Hp & _).
  unfold chunk_prog, asm_prog. rewrite Hp. by apply load_asm_wp.
Qed.

Definition flush_rest (k : M Z) (r : option (list deny_ent)) : M Z :=
  match r with
  | None => mret (-1)
  | Some ents =>
    (if decide (ents = []) then mret 0 else load_asm (install_entry_chunk ents)) ;? k
  end.

Lemma add_ents_wp F k ps new : forall ents w, args_ok (ents ++ new) -> (length ents < 60)%nat ->
  (forall w', st w' = st w -> wp F k w' (attempt ps w')) ->
  wp F (add_ents ents new ≫= flush_rest k) w (attempt (map chunk_prog (chunks ents new) ++ ps) w).
Proof.
  induction new as [|e new IH]; intros ents w Ha Hl Hk; cbn [add_ents chunks].
  - apply wp_bind, wp_ret. cbn [flush_rest]. rewrite app_nil_r in Ha. apply attempt_seq.
    + case_decide; [apply attempt_ret|]. apply chunk_load_wp; [done|lia].
    + intros w' (Hst & _). by apply Hk.
  - rewrite (cons_middle e ents new), app_assoc in Ha. case_decide as Hfull.
    + pose proof Ha as (Ha1 & Ha2)%Forall_app.
      assert (wp F (load_asm (install_entry_chunk (ents ++ [e])) ;?
                (add_ents [] new ≫= flush_rest k)) w
                (attempt ([chunk_prog (ents ++ [e])] ++
                          (map chunk_prog (chunks [] new) ++ ps)) w)) as Hseq.
      { apply attempt_seq; [apply chunk_load_wp; [done|]; unfold FLUSH_CHUNK in *; lia|].
        intros w' (Hst & _). apply IH; [done|simpl; lia|]. intros w2 Hw2. apply Hk. congruence. }
      revert Hseq. unfold wp, or_fail, mbind, M_bind.
      destruct (load_asm _ w) as [r w'|]; [|done]. by destruct (r <? 0).
    + apply IH; [done| |done]. rewrite length_app in *. unfold FLUSH_CHUNK in *. simpl in *. lia.
Qed.

Definition arg1_progs (nr : option Z) (which : fd_limit -> option (list Z)) (s : shim)
    : list bpf_prog :=
  match nr with
  | None => []
  | Some nr =>
    match install_arg1_limits nr (arg1_lims which (fd_limits s)) with
    | Load p => [p]
    | _ => []
    end
  end.

(** All filters [flush_registered_limits] installs. *)
Definition registry_ents (s : shim) : list deny_ent :=
  flat_map (fun L => limit_ents (L_fd L) (L_deny L)) (fd_limits s).
Definition flush_programs (s : shim) : list bpf_prog :=
  map chunk_prog (chunks [] (registry_ents s)) ++
  arg1_progs (sys "ioctl") ioctl_list s ++ arg1_progs sys_fcntl fcntl_list s.

(** The one fault: more allowlisted commands than [cmd_idx] holds. *)
Definition overruns (s : shim) : Prop :=
  exists which, (96 < total_cmds (arg1_lims which (fd_limits s)))%nat.
Definition overrun_fault (s : shim) (f : fault) : Prop := f = StackOverrun /\ overruns s.

Lemma when_args_ok b names argn fd : (argn < 6)%nat -> args_ok (when b (ents_of names argn fd)).
Proof. intros Ha. destruct b; [|constructor]. apply Forall_map, Forall_true. done. Qed.

Lemma limit_args_ok fd d : args_ok (limit_ents fd d).
Proof. unfold limit_ents. repeat (apply Forall_app; split); apply when_args_ok; lia. Qed.

Lemma rights_args_ok mask fd : args_ok (rights_ents mask fd).
Proof. unfold rights_ents. repeat (apply Forall_app; split); apply when_args_ok; lia. Qed.

Lemma registry_args_ok s : args_ok (registry_ents s).
Proof.
  unfold registry_ents. induction (fd_limits s) as [|L ls IH]; [constructor|].
  apply Forall_app. split; [apply limit_args_ok|exact IH].
Qed.

Lemma arg1_load_wp nr which w : (length (fd_limits (st w)) <= 32)%nat ->
  wp (overrun_fault (st w))
    (match nr with Some nr => load_arg1_limits nr which | None => mret 0 end) w
    (attempt (arg1_progs nr which (st w)) w).
Proof.
  intros Hl. destruct nr as [nr|]; [|apply attempt_ret]. unfold load_arg1_limits, arg1_progs.
  apply wp_bind. unfold get_shim at 1, wp at 1.
  set (lims := arg1_lims which (fd_limits (st w))).
  assert (length lims <= 32)%nat as Hlims.
  { etransitivity; [|exact Hl]. apply length_omap. }
  destruct (decide (lims = [])) as [Hnil|Hne].
  { rewrite Hnil. unfold install_arg1_limits. simpl. apply attempt_ret. }
  pose proof (install_arg1_limits_exact nr lims Hne Hlims) as Hx.
  repeat case_decide.
  - rewrite Hx. split; [done|]. by exists which.
  - rewrite Hx. apply attempt_quiet_fail. split_and!; [done|done|by rewrite app_nil_r].
  - destruct Hx as (p & -> & _). apply seccomp_load_wp.
Qed.

Lemma flush_wp w : (length (fd_limits (st w)) <= 32)%nat ->
  wp (overrun_fault (st w)) flush_registered_limits w (attempt (flush_programs (st w)) w).
Proof.
  intros Hl. unfold flush_registered_limits, flush_programs.
  apply wp_bind. unfold get_shim at 1, wp at 1.
  apply (add_ents_wp _ (match sys "ioctl" with Some nr => load_arg1_limits nr ioctl_list
                        | None => mret 0 end ;?
                        match sys_fcntl with Some nr => load_arg1_limits nr fcntl_list
                        | None => mret 0 end ;? mret 0)).
  - apply registry_args_ok.
  - simpl. lia.
  - intros w1 Hw1. rewrite <- Hw1 in *. apply attempt_seq; [by apply arg1_load_wp|].
    intros w2 (Hw2 & _). rewrite <- Hw2 in *.
    rewrite <- (app_nil_r (arg1_progs sys_fcntl _ _)).
    apply attempt_seq; [by apply arg1_load_wp|]. intros w3 _. apply attempt_ret.
Qed.

End Loading.
