(* ===== verification/CapEnter.v ===== *)
(** Entering the sandbox (src.compat/capsicum.c, [landlock_lockdown],
    [enter_mode]), and what every call of the interface preserves.

    [landlock_enforced] and [landlock_failed] describe the events of a lockdown;
    [evolves] is the invariant of every call sequence: the registry and the
    descriptor lists stay within their arrays, restrictions only grow, and after
    entering the shim's state is frozen. *)

From S2P Require Import Prelude Abi Bpf CapNamespace CapFdRights CapRights CapShim.

Lemma wp_and {A} F (m : M A) w (Q Q' : A -> world -> Prop) :
  wp F m w Q -> wp F m w Q' -> wp F m w (fun a w' => Q a w' /\ Q' a w').
Proof. unfold wp. by destruct (m w). Qed.

Section Enter.
Context {ABI : Abi} {KRN : Kernel} {LLH : LandlockHeader}.
Context `{!AbiOk} `{!KernelOk} {BPF : BpfMachine}.

(** * The events of a Landlock lockdown *)

Definition rules_added (ruleset handled : Z) (fds : list Z) (evs : ktrace) : Prop :=
  Forall2 (fun fd ev => exists a, ev = (KLandlockAddRule ruleset fd handled, a) /\ 0 <= k_ret a)
    fds evs.

(** A complete lockdown: a ruleset handling what the mode restricts, one rule for
    each excepted descriptor, then the restriction of the process. *)
Definition landlock_enforced (mode : cap_mode) (s : shim) (evs : ktrace) : Prop :=
  exists aV aC aR aX rules,
    let handled := handled_access mode (k_ret aV) in
    evs = (KLandlockVersion, aV) :: (KLandlockCreate handled, aC) :: rules ++
          [(KLandlockRestrict (k_ret aC), aR); (KClose (k_ret aC), aX)] /\
    1 <= k_ret aV /\ 0 <= k_ret aC /\ 0 <= k_ret aR /\
    rules_added (k_ret aC) handled (full_fds mode s ++ paths_fds mode s) rules.

Definition is_restrict (c : kcall) : bool := if c is KLandlockRestrict _ then true else false.
Definition is_close (c : kcall) : bool := if c is KClose _ then true else false.

(** A failed one restricts nothing, and [errno] is the failing call's, whatever
    closing the ruleset did to it. *)
Definition landlock_failed (evs : ktrace) (e : Z) : Prop :=
  Forall (fun ev => is_restrict ev.1 = true -> k_ret ev.2 < 0) evs /\
  (e = ENOSYS \/ exists c a, (c, a) ∈ evs /\ is_close c = false /\ k_ret a < 0 /\ e = k_errno a).

Lemma rules_added_plain rs h fds evs : rules_added rs h fds evs ->
  Forall (fun ev => is_restrict ev.1 = false) evs.
Proof. induction 1 as [|fd ev fds evs (a & -> & _) Hr IH]; constructor; done. Qed.

Lemma ksys_wp F c w (Q : kans -> world -> Prop) :
  (forall a, -1 <= k_ret a < 2 ^ 31 ->
    Q a (World (st w) (if k_ret a <? 0 then k_errno a else errno w) (trace w ++ [(c, a)]))) ->
  wp F (ksys c) w Q.
Proof. intros HQ. unfold wp, ksys. apply HQ, kernel_ret_range. Qed.

Lemma kcall_wp F c w (Q : Z -> world -> Prop) :
  (forall a, -1 <= k_ret a < 2 ^ 31 ->
    Q (k_ret a) (World (st w) (if k_ret a <? 0 then k_errno a else errno w) (trace w ++ [(c, a)]))) ->
  wp F (kcall_ret c) w Q.
Proof. intros HQ. apply kcall_ret_wp. simpl. apply HQ, kernel_ret_range. Qed.

Lemma close_and_fail_wp F rs w (Q : Z -> world -> Prop) :
  (forall aX, Q (-1) (World (st w) (errno w) (trace w ++ [(KClose rs, aX)]))) ->
  wp F (close_and_fail rs) w Q.
Proof. intros HQ. unfold close_and_fail, wp, ksys. apply HQ. Qed.

Lemma add_rules_wp F rs h k (Q : Z -> world -> Prop) fds : forall w,
  (forall w' rules, st w' = st w -> trace w' = trace w ++ rules ->
     rules_added rs h fds rules -> wp F k w' Q) ->
  (forall w' rules fd a aX, st w' = st w -> errno w' = k_errno a -> k_ret a < 0 ->
     trace w' = trace w ++ rules ++ [(KLandlockAddRule rs fd h, a); (KClose rs, aX)] ->
     Forall (fun ev => is_restrict ev.1 = false) rules -> Q (-1) w') ->
  wp F (add_rules rs h fds k) w Q.
Proof.
  induction fds as [|fd fds IH]; intros w Hok Hbad; cbn [add_rules].
  { apply (Hok w []); [done|by rewrite app_nil_r|constructor]. }
  apply wp_bind, ksys_wp. intros a Ha. destruct (Z.ltb_spec (k_ret a) 0) as [Hneg|Hpos].
  - apply close_and_fail_wp. intros aX. eapply (Hbad _ [] fd a aX); try done.
    simpl. by rewrite <- app_assoc.
  - apply IH; simpl.
    + intros w' rules Hst Ht Hr. apply (Hok w' ((KLandlockAddRule rs fd h, a) :: rules)); [done| |].
      * rewrite Ht, <- app_assoc. done.
      * constructor; [|done]. by exists a.
    + intros w' rules fd' a' aX Hst He Hn Ht Hr.
      eapply (Hbad w' ((KLandlockAddRule rs fd h, a) :: rules) fd' a' aX); try done.
      * rewrite Ht, <- app_assoc. done.
      * by constructor.
Qed.

Lemma landlock_failed_intro pre c a tail e :
  Forall (fun ev => is_restrict ev.1 = false) pre ->
  Forall (fun ev => is_restrict ev.1 = false) tail ->
  is_close c = false -> k_ret a < 0 -> e = k_errno a ->
  landlock_failed (pre ++ (c, a) :: tail) e.
Proof.
  intros Hpre Htail Hc Ha ->. split.
  - apply Forall_app. split; [|constructor; [done|]].
    + eapply Forall_impl; [exact Hpre|]. by intros ev ->.
    + eapply Forall_impl; [exact Htail|]. by intros ev ->.
  - right. exists c, a. split_and!; try done.
    apply elem_of_app. right. apply list_elem_of_here.
Qed.

Lemma landlock_lockdown_wp F mode w :
  wp F (landlock_lockdown mode) w (fun r w' => st w' = st w /\ exists evs,
    trace w' = trace w ++ evs /\
    ((r = 0 /\ landlock_enforced mode (st w) evs) \/
     (r = -1 /\ landlock_failed evs (errno w')))).
Proof.
  assert (forall w0 evs, st w0 = st w -> trace w0 = trace w ++ evs ->
    Forall (fun ev => is_restrict ev.1 = false) evs ->
    wp F (fail_errno ENOSYS) w0 (fun r w' => st w' = st w /\ exists evs,
      trace w' = trace w ++ evs /\
      ((r = 0 /\ landlock_enforced mode (st w) evs) \/
       (r = -1 /\ landlock_failed evs (errno w'))))) as Hnosys.
  { intros w0 evs Hst Ht Hr. unfold wp. simpl. split; [done|]. exists evs. split; [done|].
    right. split; [done|]. split; [|by left].
    eapply Forall_impl; [exact Hr|]. by intros ev ->. }
  unfold landlock_lockdown.
  destruct (sys "landlock_create_ruleset"), (sys "landlock_restrict_self");
    try by apply (Hnosys w []); rewrite ?app_nil_r.
  apply wp_bind, kcall_wp. intros aV HaV. destruct (Z.ltb_spec (k_ret aV) 1) as [|HV].
  { apply (Hnosys _ [(KLandlockVersion, aV)]); [done|done|]. by repeat constructor. }
  apply wp_bind, kcall_wp. intros aC HaC. destruct (Z.ltb_spec (k_ret aC) 0) as [HC|HC].
  { apply wp_ret. simpl. split; [done|]. eexists. rewrite <- app_assoc. split; [done|].
    right. split; [done|]. apply (landlock_failed_intro [_] _ aC []); try done.
    all: by repeat constructor. }
  apply wp_bind. unfold get_shim at 1, wp at 1.
  apply add_rules_wp.
  2:{ intros w' rules fd a aX Hst He Hn Ht Hr. simpl in Hst. split; [done|].
      eexists. simpl in Ht. rewrite Ht, <- !app_assoc. split; [done|]. right. split; [done|].
      apply (landlock_failed_intro ([_; _] ++ rules)); try done.
      all: repeat constructor; done. }
  intros w1 rules1 Hst1 Ht1 Hr1. apply add_rules_wp.
  2:{ intros w' rules fd a aX Hst He Hn Ht Hr. simpl in Hst1. split; [congruence|].
      eexists. simpl in Ht1. rewrite Ht, Ht1, <- !app_assoc. split; [done|]. right. split; [done|].
      rewrite !app_assoc. apply (landlock_failed_intro ([_; _] ++ rules1 ++ rules)); try done.
      { apply Forall_app. split; [by repeat constructor|]. apply Forall_app. split; [|done].
        by eapply rules_added_plain. }
      by repeat constructor. }
  intros w2 rules2 Hst2 Ht2 Hr2. simpl in Hst1, Ht1. apply wp_bind, ksys_wp. intros aR HaR.
  assert (trace w2 = trace w ++ ([(KLandlockVersion, aV);
            (KLandlockCreate (handled_access mode (k_ret aV)), aC)] ++ rules1) ++ rules2) as Ht.
  { by rewrite Ht2, Ht1, <- !app_assoc. }
  destruct (Z.ltb_spec (k_ret aR) 0) as [HR|HR].
  - apply close_and_fail_wp. intros aX. simpl. split; [congruence|]. eexists.
    rewrite Ht, <- app_assoc. split; [by rewrite <- app_assoc|]. right. split; [done|].
    rewrite <- app_assoc. split; [|right; exists (KLandlockRestrict (k_ret aC)), aR; split_and!; [set_solver|done|done|done]].
    rewrite !Forall_app. split_and!; try by repeat constructor.
    all: eapply Forall_impl; [by eapply rules_added_plain|]; by intros ev ->.
  - apply wp_bind, ksys_wp. intros aX HaX. apply wp_ret. simpl. split; [congruence|].
    eexists. rewrite Ht, <- !app_assoc. split; [done|]. left. split; [done|].
    exists aV, aC, aR, aX, (rules1 ++ rules2). split; [by rewrite <- !app_assoc|].
    split_and!; try done. by apply Forall2_app.
Qed.

(** * Entering *)

Definition entered_shim (s : shim) : shim := Shim (lookup_fds s) (allow_fds s) true (fd_limits s).

(** The shim's lists stay within its arrays. *)
Definition shim_ok (s : shim) : Prop :=
  registry_ok (fd_limits s) /\ (length (lookup_fds s) <= 8)%nat /\ (length (allow_fds s) <= 8)%nat.

(** What a return of [enter_mode] means. *)
Definition enter_outcome (mode : cap_mode) (w : world) (r : Z) (w' : world) : Prop :=
  trace w `prefix_of` trace w' /\
  ((r = 0 /\ st w' = entered_shim (st w) /\
    (exists p, namespace_filter mode (lookup_fds (st w)) [] = Some p /\
       filters w' = filters w ++ p :: flush_programs (st w)) /\
    exists a evs rest, 0 <= k_ret a /\ landlock_enforced mode (st w) evs /\
      trace w' = trace w ++ (KNoNewPrivs, a) :: evs ++ rest) \/
   (r = -1 /\ st w' = st w /\
    exists qs, filters w' = filters w ++ qs /\
      forall p, namespace_filter mode (lookup_fds (st w)) [] = Some p ->
        qs `prefix_of` p :: flush_programs (st w))).

Lemma enter_mode_wp mode w : sandbox_disabled = false -> shim_ok (st w) ->
  sandbox_entered (st w) = false ->
  wp (overrun_fault (st w)) (enter_mode mode) w (enter_outcome mode w).
Proof.
  intros Hdis (Hreg & Hlk & Hal) Hent. unfold enter_mode. rewrite Hdis.
  apply wp_bind. unfold get_shim at 1, wp at 1. rewrite Hent.
  apply wp_or_fail, kcall_wp. intros a Ha. set (w1 := World _ _ _).
  assert (loads [] w w1) as HL1.
  { split_and!; [done|by apply prefix_app_r|]. unfold w1. by rewrite filters_snoc. }
  destruct (Z.ltb_spec (k_ret a) 0) as [Hn|Hn].
  { split; [apply HL1|]. right. split_and!; [done|done|]. exists [].
    split; [apply HL1|]. intros. apply prefix_nil. }
  apply wp_or_fail. eapply wp_mono.
  { apply wp_and; [apply (landlock_lockdown_wp _ mode)|].
    eapply (wp_mono no_fault _ _ _ _ (fun _ w' => loads [] w1 w'));
      [apply quiet_landlock|by intros f []|done]. }
  { done. }
  cbv beta. intros r w2 [[Hst2 (evs & Ht2 & Hr2)] HL2].
  assert (loads [] w w2) as HL12 by (by apply (loads_trans [] [] _ w1)).
  destruct Hr2 as [[-> Henf]|[-> Hfail]]; simpl.
  2:{ split; [apply HL12|]. right. split_and!; [done|done|]. exists [].
      split; [apply HL12|]. intros. apply prefix_nil. }
  destruct (namespace_filter_exact mode (lookup_fds (st w)) Hlk) as (p & Hp & _).
  assert (st w2 = st w) as Hst by apply HL12.
  apply wp_or_fail. unfold install_namespace_filter. apply wp_bind.
  unfold get_shim at 1, wp at 1. rewrite Hst.
  eapply wp_mono; [by apply (load_asm_wp _ _ p)|done|].
  cbv beta. intros r w3 Hatt.
  assert (forall w4 qs, loads qs w2 w4 -> trace w `prefix_of` trace w4 /\ st w4 = st w /\
            filters w4 = filters w ++ qs) as Hsum.
  { intros w4 qs (H1 & H2 & H3). destruct HL12 as (H4 & H5 & H6).
    split_and!; [by etransitivity|congruence|]. by rewrite H3, H6, app_nil_r. }
  assert (forall w4 qs, loads qs w2 w4 -> qs `prefix_of` p :: flush_programs (st w) ->
            enter_outcome mode w (-1) w4) as Hfails.
  { intros w4 qs HL Hpre. destruct (Hsum _ _ HL) as (H1 & H2 & H3). split; [done|]. right.
    split_and!; [done|done|]. exists qs. split; [done|]. intros p' Hp'. by simplify_eq. }
  destruct Hatt as [[-> HL3]|(-> & qs & Hqs & HL3)]; simpl.
  2:{ apply (Hfails _ qs HL3). etransitivity; [exact Hqs|]. by eexists. }
  apply wp_or_fail. assert (st w3 = st w) as Hst3 by apply (Hsum _ _ HL3).
  rewrite <- Hst3. eapply wp_mono; [apply flush_wp; rewrite Hst3; apply Hreg|done|].
  rewrite Hst3. cbv beta. intros r w4 [[-> HL4]|(-> & qs & Hqs & HL4)]; simpl.
  - pose proof (loads_trans _ _ _ _ _ HL3 HL4) as HL.
    destruct (Hsum _ _ HL) as (H1 & H2 & H3). unfold set_entered, wp. simpl. rewrite H2.
    split; [done|]. left. split_and!; [done|done| |].
    { exists p. split; [done|]. exact H3. }
    destruct HL as (_ & (rest & Hrest) & _). exists a, evs, rest. split_and!; [done|done|].
    rewrite Hrest, Ht2. unfold w1. simpl. by rewrite <- !app_assoc.
  - apply (Hfails _ ([p] ++ qs)); [by eapply loads_trans|]. by apply (prefix_app [p]).
Qed.

(** * The filters of the registry *)

(** The deny entries of the registry are in force: every one is in a filter that
    refuses what the walk over its entries refuses. *)
Definition denials_in_force (s : shim) (ps : list bpf_prog) : Prop :=
  exists cs, concat cs = registry_ents s /\
    Forall2 (fun ents p => forall d, filter_result p d =
      if arch32 d =? CU_AUDIT_ARCH then answer (fd_scan ents (nr32 d) d) else Some ret_kill) cs ps.

(** The allowlists for the call [nr] are in force: when a descriptor has one, there
    is a filter that refuses the other commands on it. *)
Definition allowlists_in_force (nr : option Z) (which : fd_limit -> option (list Z)) (s : shim) (ps : list bpf_prog) : Prop :=
  match nr with
  | None => ps = []
  | Some nr =>
    let lims := arg1_lims which (fd_limits s) in
    if decide (lims = []) then ps = []
    else exists p, ps = [p] /\ forall d, filter_result p d =
      if arch32 d =? CU_AUDIT_ARCH then answer ((nr32 d =? u32 nr) && arg1_refuses lims d) else Some ret_kill
  end.

Definition registry_in_force (s : shim) (ps : list bpf_prog) : Prop :=
  exists ps1 ps2 ps3, ps = ps1 ++ ps2 ++ ps3 /\ denials_in_force s ps1 /\
    allowlists_in_force (sys "ioctl") ioctl_list s ps2 /\ allowlists_in_force sys_fcntl fcntl_list s ps3.

Lemma concat_chunks new : forall ents, concat (chunks ents new) = ents ++ new.
Proof.
  induction new as [|e new IH]; intros ents; cbn [chunks].
  - case_decide as E; [by rewrite E|]. cbn. by rewrite !app_nil_r.
  - case_decide; [cbn [concat]; rewrite IH|rewrite IH]; by rewrite <- app_assoc.
Qed.
Lemma chunks_small new : forall ents, (length ents < 60)%nat -> Forall (fun c => (length c <= 60)%nat) (chunks ents new).
Proof.
  induction new as [|e new IH]; intros ents Hl; cbn [chunks].
  - case_decide; [constructor|apply Forall_singleton; lia].
  - case_decide as E; [constructor; [unfold FLUSH_CHUNK in E; lia|apply IH; simpl; lia]|].
    apply IH. rewrite length_app in *. unfold FLUSH_CHUNK in *. simpl in *. lia.
Qed.

Lemma flush_denials s : denials_in_force s (map chunk_prog (chunks [] (registry_ents s))).
Proof.
  exists (chunks [] (registry_ents s)). split; [apply concat_chunks|].
  pose proof (chunks_small (registry_ents s) [] ltac:(simpl; lia)) as Hsmall.
  pose proof (registry_args_ok s) as Hargs. rewrite <- (concat_chunks (registry_ents s) [] : _ = registry_ents s) in Hargs at 1.
  revert Hsmall Hargs. generalize (chunks [] (registry_ents s)) as cs. induction cs as [|c cs IH]; [by constructor|].
  intros [Hc Hcs]%Forall_cons [Ha Has]%Forall_app. constructor; [|by apply IH].
  destruct (install_entry_chunk_scan c Ha Hc) as (p & Hp & Hr). unfold chunk_prog, asm_prog. by rewrite Hp.
Qed.

(** A flush that succeeds refused no filter as too long. *)
Lemma or_fail_ret (m k : M Z) w w' : (m ;? k) w = Ret 0 w' -> exists r w1, m w = Ret r w1 /\ 0 <= r /\ k w1 = Ret 0 w'.
Proof.
  unfold or_fail, mbind, M_bind. destruct (m w) as [r w1|]; [|done]. destruct (Z.ltb_spec r 0); [done|].
  intros Hk. by exists r, w1.
Qed.

Lemma arg1_in_force nr which w r w' : (length (fd_limits (st w)) <= 32)%nat ->
  match nr with Some nr => load_arg1_limits nr which | None => mret 0 end w = Ret r w' -> 0 <= r ->
  allowlists_in_force nr which (st w) (arg1_progs nr which (st w)).
Proof.
  intros Hl Hrun Hr. destruct nr as [nr|]; [|done]. cbn [allowlists_in_force].
  unfold load_arg1_limits, mbind, M_bind, get_shim in Hrun. unfold arg1_progs. set (lims := arg1_lims which (fd_limits (st w))) in *.
  case_decide as Hnil; [by rewrite Hnil|].
  assert (length lims <= 32)%nat as Hlims by (etransitivity; [|exact Hl]; apply length_omap).
  pose proof (install_arg1_limits_exact nr lims Hnil Hlims) as Hx. repeat case_decide.
  - by rewrite Hx in Hrun.
  - rewrite Hx in Hrun. cbn in Hrun. injection Hrun as <- _. lia.
  - destruct Hx as (p & -> & Hp). by exists p.
Qed.

Lemma st_load F m ps w r w' : wp F m w (attempt ps w) -> m w = Ret r w' -> st w' = st w.
Proof. unfold wp. intros Hm E. rewrite E in Hm. by destruct Hm as [(_ & H1 & _)|(_ & qs & _ & H1 & _)]. Qed.

Lemma add_ents_rest k new : forall ents w w', args_ok (ents ++ new) -> (length ents < 60)%nat ->
  (add_ents ents new ≫= flush_rest k) w = Ret 0 w' -> exists w1, st w1 = st w /\ k w1 = Ret 0 w'.
Proof.
  induction new as [|e new IH]; intros ents w w' Ha Hl Hrun; cbn [add_ents] in Hrun.
  - cbn [mbind M_bind mret M_ret flush_rest] in Hrun. apply or_fail_ret in Hrun as (r & w1 & Hm & _ & Hk).
    exists w1. split; [|done]. case_decide; [by injection Hm as _ <-|]. rewrite app_nil_r in Ha.
    eapply (st_load no_fault); [|exact Hm]. apply chunk_load_wp; [done|lia].
  - rewrite (cons_middle e ents new), app_assoc in Ha. case_decide as Hfull.
    + pose proof Ha as (Ha1 & Ha2)%Forall_app. unfold mbind at 1 2, M_bind at 1 2 in Hrun.
      destruct (load_asm _ w) as [r w1|] eqn:E; [|done]. assert (st w1 = st w) as Hst.
      { eapply (st_load no_fault); [|exact E]. apply chunk_load_wp; [done|]. unfold FLUSH_CHUNK in *. lia. }
      destruct (r <? 0); [done|]. destruct (IH [] w1 w') as (w2 & Hw2 & Hk); [done|simpl; lia|exact Hrun|].
      exists w2. split; [congruence|done].
    + apply (IH _ _ _ Ha); [|done]. rewrite length_app in *. unfold FLUSH_CHUNK in *. simpl in *. lia.
Qed.

Lemma flush_in_force w w' : (length (fd_limits (st w)) <= 32)%nat -> flush_registered_limits w = Ret 0 w' ->
  registry_in_force (st w) (flush_programs (st w)).
Proof.
  intros Hl Hrun. unfold flush_registered_limits in Hrun. unfold mbind at 1, M_bind at 1, get_shim in Hrun.
  apply add_ents_rest in Hrun as (w1 & Hw1 & Hrun); [|apply registry_args_ok|simpl; lia].
  apply or_fail_ret in Hrun as (r1 & w2 & H1 & Hr1 & Hrun). apply or_fail_ret in Hrun as (r2 & w3 & H2 & Hr2 & _).
  assert (st w2 = st w) as Hw2.
  { rewrite <- Hw1. eapply st_load; [|exact H1]. apply arg1_load_wp. by rewrite Hw1. }
  apply arg1_in_force in H1; [|by rewrite Hw1|done]. apply arg1_in_force in H2; [|by rewrite Hw2|done]. rewrite Hw1 in H1. rewrite Hw2 in H2.
  eexists _, _, _. split; [reflexivity|]. split; [apply flush_denials|]. by split.
Qed.

Lemma enter_in_force mode w w' : sandbox_disabled = false -> shim_ok (st w) -> sandbox_entered (st w) = false ->
  enter_mode mode w = Ret 0 w' -> registry_in_force (st w) (flush_programs (st w)).
Proof.
  intros Hdis (Hreg & Hlk & Hal) Hent Hrun. unfold enter_mode in Hrun. rewrite Hdis in Hrun.
  unfold mbind at 1, M_bind at 1, get_shim in Hrun. rewrite Hent in Hrun.
  apply or_fail_ret in Hrun as (r1 & w1 & H1 & _ & Hrun). apply or_fail_ret in Hrun as (r2 & w2 & H2 & _ & Hrun).
  apply or_fail_ret in Hrun as (r3 & w3 & H3 & _ & Hrun). apply or_fail_ret in Hrun as (r4 & w4 & H4 & Hr4 & Hrun).
  assert (st w1 = st w) as E1 by (cbn in H1; by injection H1 as _ <-).
  assert (st w2 = st w1) as E2.
  { pose proof (landlock_lockdown_wp no_fault mode w1) as Hwp. unfold wp in Hwp. rewrite H2 in Hwp. by destruct Hwp. }
  destruct (namespace_filter_exact mode (lookup_fds (st w2))) as (p & Hp & _); [by rewrite E2, E1|].
  assert (st w3 = st w2) as E3.
  { unfold install_namespace_filter in H3. unfold mbind, M_bind, get_shim in H3. eapply (st_load no_fault); [|exact H3]. by eapply load_asm_wp. }
  assert (st w3 = st w) as E by congruence. rewrite <- E. apply (flush_in_force w3 w4); [rewrite E; apply Hreg|].
  assert (r4 = 0) as ->; [|done].
  pose proof (flush_wp w3 ltac:(rewrite E; apply Hreg)) as Hwp. unfold wp in Hwp. rewrite H4 in Hwp. destruct Hwp as [[? _]|[? _]]; lia.
Qed.

End Enter.

(** ** A kernel on which everything succeeds *)

Definition good_kernel : Kernel := {|
  kernel _ c :=
    match c with
    | KLandlockVersion => KAns 3 0 0
    | KLandlockCreate _ => KAns 5 0 0
    | KOpenDir _ => KAns 6 0 0
    | _ => KAns 0 0 0x4000
    end;
  getenv _ := None
|}.

Lemma good_kernel_ok : @KernelOk good_kernel.
Proof. constructor; simpl; [|lia]. intros t c. destruct c; simpl; lia. Qed.

Definition full_header : LandlockHeader := {| have_REFER := true; have_TRUNCATE := true |}.

Lemma initial_ok e : shim_ok (st (initial e)).
Proof. repeat split; simpl; [unfold fd_limits_size; lia|constructor|constructor|lia|lia]. Qed.

(** The access rights Landlock ABI [abi] knows: 13 at first, then REFER and
    TRUNCATE. *)
Definition known_access (abi : Z) : Z :=
  Z.ones (if abi <? 2 then 13 else if abi <? 3 then 14 else 15).

(** * Properties *)



(** C24. A Landlock lockdown either enforces a ruleset that handles exactly the
    mode's access rights with one rule for each excepted descriptor (the
    CAP_LOOKUP directories in full mode, the allowed paths in path mode), or it
    returns -1, restricts nothing and leaves in [errno] the error of the call
    that failed (ENOSYS when the kernel has no Landlock), not that of closing the
    ruleset. *)
Theorem landlock_lockdown_outcome `{AbiOk} `{KernelOk} `{LandlockHeader} mode w :
  exists r w' evs, landlock_lockdown mode w = Ret r w' /\ st w' = st w /\
    trace w' = trace w ++ evs /\
    ((r = 0 /\ landlock_enforced mode (st w) evs) \/
     (r = -1 /\ landlock_failed evs (errno w'))).
Proof.
  pose proof (landlock_lockdown_wp no_fault mode w) as Hwp. unfold wp in Hwp.
  destruct (landlock_lockdown mode w) as [r w'|]; [|done].
  destruct Hwp as (Hst & evs & Ht & Hr). by exists r, w', evs.
Qed.

(** A kernel on which the restriction fails with EINVAL and closing the ruleset
    with EBADF. *)
Definition refusing_kernel : Kernel := {|
  kernel _ c :=
    match c with
    | KLandlockVersion => KAns 1 0 0
    | KLandlockRestrict _ => KAns (-1) 22 0
    | KClose _ => KAns (-1) 9 0
    | _ => KAns 0 0 0
    end;
  getenv _ := None
|}.

Lemma refusing_kernel_ok : @KernelOk refusing_kernel.
Proof. constructor; simpl; [|lia]. intros t c. destruct c; simpl; lia. Qed.

Lemma landlock_lockdown_outcome_witness :
  exists r w' evs,
    @landlock_lockdown x86_64 refusing_kernel full_header MODE_FULL (initial 0) = Ret r w' /\
    trace w' = evs /\ r = -1 /\ errno w' = 22.
Proof.
  destruct (@landlock_lockdown_outcome x86_64 x86_64_ok refusing_kernel refusing_kernel_ok full_header
    MODE_FULL (initial 0)) as (r & w' & evs & Hrun & _ & Ht & _).
  exists r, w', evs. split; [exact Hrun|]. split; [exact Ht|].
  vm_compute in Hrun. injection Hrun as <- <-. split; reflexivity.
Defined.

(** Whatever ABI version the kernel reports, the handled rights are rights
    that version knows (others would make the kernel refuse the ruleset); casper
    mode handles none of the rights to execute, read files or list directories,
    and the other modes handle all three. *)
Theorem handled_access_known `{LandlockHeader} mode abi :
  Z.land (handled_access mode abi) (known_access abi) = handled_access mode abi /\
  let reads := LANDLOCK_ACCESS_FS_EXECUTE .| LANDLOCK_ACCESS_FS_READ_FILE .|
               LANDLOCK_ACCESS_FS_READ_DIR in
  handled_access mode abi .& reads = if decide (mode = MODE_CASPER) then 0 else reads.
Proof.
  unfold handled_access, mutate_access, known_access.
  destruct (Z.leb_spec 2 abi), (Z.leb_spec 3 abi), (Z.ltb_spec abi 2), (Z.ltb_spec abi 3); try lia.
  all: destruct mode, have_REFER, have_TRUNCATE; vm_compute; done.
Qed.
