(* ===== verification/CapConfine.v ===== *)
(** What holds over every sequence of calls to the sandbox shim
    (src.compat/capsicum.c, the public [caph_*] functions).

    [evolves] relates the worlds before and after a call: the trace grows, the
    lists stay inside their arrays, the registry only becomes more restrictive,
    and once entered the shim's state is frozen.  It is proved for each call and,
    by induction on [steps], for every sequence; confinement follows. *)

From S2P Require Import Prelude Abi Bpf CapNamespace CapFdRights CapRights CapShim CapEnter.

Section Confine.
Context {ABI : Abi} {KRN : Kernel} {LLH : LandlockHeader}.
Context `{!AbiOk} `{!KernelOk} {BPF : BpfMachine}.

Definition shim_le (new old : shim) : Prop :=
  registry_le (fd_limits new) (fd_limits old) /\
  lookup_fds old `prefix_of` lookup_fds new /\ allow_fds old `prefix_of` allow_fds new /\
  (sandbox_entered old = true -> new = old).

#[export] Instance shim_le_refl : Reflexive shim_le.
Proof. intros s. split_and!; done. Qed.
#[export] Instance shim_le_trans : Transitive shim_le.
Proof.
  intros a b c (H1 & H2 & H3 & H4) (H5 & H6 & H7 & H8). split_and!; try by etransitivity.
  intros Hc. pose proof (H8 Hc) as ->. auto.
Qed.

Definition evolves (w w' : world) : Prop :=
  trace w `prefix_of` trace w' /\ shim_ok (st w') /\ shim_le (st w') (st w).

Lemma evolves_trans w1 w2 w3 : evolves w1 w2 -> evolves w2 w3 -> evolves w1 w3.
Proof. intros (H1 & H2 & H3) (H4 & H5 & H6). split_and!; [|done|]; by etransitivity. Qed.

Lemma evolves_loads ps w w' : shim_ok (st w) -> loads ps w w' -> evolves w w'.
Proof. intros Hok (Hst & Ht & _). unfold evolves. rewrite Hst. split_and!; done. Qed.

Lemma evolves_refl w : shim_ok (st w) -> evolves w w.
Proof. intros. apply (evolves_loads []); [done|reflexivity]. Qed.

(** [Evolving F m]: from every good world, [m] evolves it or faults in [F]. *)
Definition Evolving (F : shim -> fault -> Prop) {A} (m : M A) : Prop :=
  forall w, shim_ok (st w) -> wp (F (st w)) m w (fun _ w' => evolves w w').

Abbreviation never := (fun _ _ => False).

Lemma evolving_then {A B} F (m : M A) (k : A -> M B) w :
  wp F m w (fun _ w' => evolves w w') ->
  (forall a w', evolves w w' -> wp F (k a) w' (fun _ w' => evolves w w')) ->
  wp F (m ≫= k) w (fun _ w' => evolves w w').
Proof.
  intros Hm Hk. apply wp_bind. eapply wp_mono; [exact Hm|done|]. cbv beta. intros a w1 H1.
  by apply Hk.
Qed.

Lemma evolving_bind {A B} (m : M A) (k : A -> M B) :
  Evolving never m -> (forall a, Evolving never (k a)) -> Evolving never (m ≫= k).
Proof.
  intros Hm Hk w Hok. apply wp_bind. eapply wp_mono; [by apply Hm|done|].
  cbv beta. intros a w1 H1. eapply wp_mono; [apply Hk; apply H1|done|].
  cbv beta. intros b w2 H2. by eapply evolves_trans.
Qed.

Lemma evolving_ret {A} (a : A) : Evolving never (mret a).
Proof. intros w Hok. apply wp_ret. by apply evolves_refl. Qed.

Lemma evolving_or_fail m k : Evolving never m -> Evolving never k -> Evolving never (m ;? k).
Proof.
  intros Hm Hk. apply evolving_bind; [done|]. intros r. destruct (r <? 0); [|done].
  apply evolving_ret.
Qed.

Lemma evolving_quiet {A} (m : M A) : Keeps (loads []) m -> Evolving never m.
Proof.
  intros Hm w Hok. eapply wp_mono; [apply Hm|by intros f []|]. cbv beta. intros a w' HL.
  by eapply evolves_loads.
Qed.

Lemma evolving_load m p : m [] = Some p -> Evolving never (load_asm m).
Proof.
  intros Hm w Hok. eapply wp_mono; [by apply (load_asm_wp (fun _ => False))|done|].
  cbv beta. intros r w' [[_ HL]|(_ & qs & _ & HL)]; by eapply evolves_loads.
Qed.

Lemma evolving_after {A} (m : M A) w w1 : evolves w w1 -> Evolving never m ->
  wp no_fault m w1 (fun _ w' => evolves w w').
Proof.
  intros H1 Hm. eapply wp_mono; [apply Hm; apply H1|done|]. cbv beta. intros a w2 H2.
  by eapply evolves_trans.
Qed.

(** Reading the state to decide what to do. *)
Lemma evolving_get_shim {A} (k : shim -> M A) :
  (forall w, shim_ok (st w) -> wp no_fault (k (st w)) w (fun _ w' => evolves w w')) ->
  Evolving never (get_shim ≫= k).
Proof. intros Hk w Hok. apply wp_bind. unfold get_shim at 1, wp at 1. by apply Hk. Qed.

(** * The calls that limit a descriptor *)

Definition restricting (f : fd_limit -> option fd_limit) : Prop :=
  forall L, limit_ok L -> exists L', f L = Some L' /\ limit_ok L' /\ limit_le L' L.

Lemma update_limit_wp fd f w : restricting f -> shim_ok (st w) -> sandbox_entered (st w) = false ->
  wp no_fault (update_limit fd f) w (fun _ w' => evolves w w').
Proof.
  intros Hf Hok Hent. unfold update_limit. apply wp_bind. unfold get_shim at 1, wp at 1.
  pose proof Hok as (Hreg & Hlk & Hal). pose proof (lim_find_spec _ fd Hreg) as Hfind.
  destruct (lim_find (fd_limits (st w)) fd) as [[i ls]|].
  2:{ apply (evolving_quiet (fail_errno ENOSPC)); [apply _|done]. }
  destruct Hfind as (L & Hls & HL & Hfd & Hcase). rewrite HL. cbn [mbind option_bind].
  assert (limit_ok L) as HLok by (destruct Hls as (_ & _ & Hall); by eapply Forall_lookup_1).
  destruct (Hf L HLok) as (L' & -> & Hok' & Hle).
  destruct (registry_update ls i L L' Hls HL Hok' Hle) as [Hreg' Hle'].
  unfold wp. simpl. unfold evolves. simpl. split; [done|]. split; [by split_and!|].
  split_and!; [|done|done|congruence]. etransitivity; [exact Hle'|].
  destruct Hcase as [->|(-> & _)]; [done|apply registry_le_app].
Qed.

Lemma restricting_ioctls src : restricting (fun L => merge_ioctls L src).
Proof. intros L HL. destruct (merge_ioctls_spec L src HL) as (L' & H1 & H2 & H3 & _). eauto. Qed.

Lemma restricting_fcntls src : (length src <= 6)%nat -> restricting (fun L => merge_fcntls L src).
Proof. intros Hs L HL. destruct (merge_fcntls_spec L src Hs HL) as (L' & H1 & H2 & H3 & _). eauto. Qed.

Lemma restricting_rights mask : restricting (register_rights mask).
Proof.
  intros L HL. unfold register_rights.
  destruct (register_denials_spec mask L HL) as (H1 & H2 & _ & _).
  set (L1 := register_denials mask L) in *.
  assert (exists L2, (if mask .& CAP_IOCTL =? 0 then merge_ioctls L1 (map s64 safe_ioctls)
                      else Some L1) = Some L2 /\ limit_ok L2 /\ limit_le L2 L) as (L2 & -> & H3 & H4).
  { destruct (_ =? 0); [|by eauto].
    destruct (restricting_ioctls (map s64 safe_ioctls) L1 H1) as (L2 & -> & H3 & H4).
    exists L2. split_and!; try done. by etransitivity. }
  cbn [mbind option_bind]. destruct (_ =? 0); [|by eauto].
  destruct (restricting_fcntls [F_GETFD; F_SETFD; F_GETFL; F_SETFL] ltac:(simpl; lia) L2 H3)
    as (L3 & -> & H5 & H6).
  exists L3. split_and!; try done. by etransitivity.
Qed.

Lemma evolving_fd_arg1 fd nr allowed : (length allowed <= 250)%nat ->
  Evolving never (load_fd_arg1 fd nr allowed).
Proof.
  intros Hl. destruct nr as [nr|]; [|apply evolving_ret].
  destruct (limit_fd_arg1_exact fd nr allowed Hl) as (p & Hp & _). by apply (evolving_load _ p).
Qed.

Lemma evolving_ioctls fd cmds : Evolving never (caph_ioctls_limit fd cmds).
Proof.
  unfold caph_ioctls_limit. destruct sandbox_disabled; [apply evolving_ret|].
  apply evolving_get_shim. intros w Hok. destruct (sandbox_entered (st w)) eqn:Hent.
  - apply evolving_fd_arg1; [|done]. rewrite length_map, length_take. lia.
  - apply update_limit_wp; [apply restricting_ioctls|done|done].
Qed.

Lemma evolving_fcntls fd rights : Evolving never (caph_fcntls_limit fd rights).
Proof.
  unfold caph_fcntls_limit. destruct sandbox_disabled; [apply evolving_ret|].
  set (allowed := _ ++ _). assert (length allowed <= 6)%nat as Hl.
  { unfold allowed. destruct (tst _ _), (tst _ _); simpl; lia. }
  apply evolving_get_shim. intros w Hok. destruct (sandbox_entered (st w)) eqn:Hent.
  - apply evolving_fd_arg1; [lia|done].
  - apply update_limit_wp; [by apply restricting_fcntls|done|done].
Qed.

Lemma when_length b names argn fd :
  (length (when b (ents_of names argn fd)) <= length names)%nat.
Proof. destruct b; simpl; [|lia]. unfold ents_of. rewrite length_map. apply length_omap. Qed.

(** [caph_rights_limit] never fills more than 19 of the 24 cells of [ents]. *)
Lemma rights_ents_length mask fd : (length (rights_ents mask fd) <= 19)%nat.
Proof.
  unfold rights_ents. rewrite !length_app.
  repeat match goal with
  | |- context [length (when ?b (ents_of ?ns ?a ?f))] =>
    let E := fresh in
    pose proof (when_length b ns a f) as E; simpl (length ns) in E;
    set (length (when b (ents_of ns a f))) in *
  end. lia.
Qed.

Lemma evolving_limit_now fd mask : Evolving never (limit_now fd mask).
Proof.
  unfold limit_now. apply evolving_or_fail; [|apply evolving_or_fail; [|apply evolving_or_fail]].
  - unfold limit_fd_syscalls. case_decide; [apply evolving_ret|].
    destruct (install_entry_chunk_scan
      (map (fun e => DenyEnt (de_nr e) (de_argn e) fd) (rights_ents mask fd))) as (p & Hp & _).
    + apply Forall_map. apply rights_args_ok.
    + rewrite length_map. pose proof (rights_ents_length mask fd). lia.
    + by apply (evolving_load _ p).
  - destruct (_ =? 0); [apply evolving_ioctls|apply evolving_ret].
  - destruct (_ =? 0); [apply evolving_fcntls|apply evolving_ret].
  - apply evolving_ret.
Qed.

Lemma evolving_register_lookup fd : Evolving never (register_lookup fd).
Proof.
  unfold register_lookup. apply evolving_get_shim. intros w Hok.
  destruct (sandbox_entered (st w)) eqn:Hent.
  { apply (evolving_quiet (fail_errno ENOSYS)); [apply _|done]. }
  apply wp_bind, ksys_wp. intros a _. set (w1 := World _ _ _).
  assert (evolves w w1) as H1.
  { split_and!; [by apply prefix_app_r|apply Hok..|done]. }
  destruct (_ <? 0); [by apply wp_ret|].
  destruct (negb _); [apply (evolving_after _ _ _ H1), evolving_quiet, _|].
  destruct Hok as (Hreg & Hlk & Hal).
  case_decide; [|by apply wp_ret]. unfold wp, evolves. simpl.
  split; [by apply prefix_app_r|]. split.
  - split_and!; simpl; try done. rewrite length_app. simpl. lia.
  - split_and!; simpl; try done; [by apply prefix_app_r|congruence].
Qed.

Lemma evolving_rights fd mask : Evolving never (caph_rights_limit fd mask).
Proof.
  unfold caph_rights_limit. destruct sandbox_disabled; [apply evolving_ret|].
  apply evolving_or_fail; [apply evolving_quiet, _|].
  apply evolving_or_fail.
  { destruct (tst _ _); [apply evolving_register_lookup|apply evolving_ret]. }
  apply evolving_get_shim. intros w Hok. destruct (sandbox_entered (st w)) eqn:Hent.
  - by apply evolving_limit_now.
  - apply update_limit_wp; [apply restricting_rights|done|done].
Qed.

Lemma evolving_stream fd flags : Evolving never (caph_limit_stream fd flags).
Proof.
  unfold caph_limit_stream. destruct sandbox_disabled; [apply evolving_ret|].
  apply evolving_bind; [apply evolving_quiet, _|]. intros r.
  destruct (r <? 0); [apply evolving_ret|apply evolving_rights].
Qed.

Lemma evolving_stdio : Evolving never caph_limit_stdio.
Proof. repeat apply evolving_or_fail; try apply evolving_stream. apply evolving_ret. Qed.

Lemma evolving_allow_path path : Evolving never (caph_allow_path path).
Proof.
  unfold caph_allow_path. destruct sandbox_disabled; [apply evolving_ret|].
  apply evolving_get_shim. intros w Hok. destruct (sandbox_entered (st w)) eqn:Hent.
  { apply (evolving_quiet (fail_errno ENOSYS)); [apply _|done]. }
  apply wp_bind, kcall_wp. intros a _. set (w1 := World _ _ _).
  assert (evolves w w1) as H1.
  { split_and!; [by apply prefix_app_r|apply Hok..|done]. }
  destruct (_ <? 0); [by apply wp_ret|].
  destruct Hok as (Hreg & Hlk & Hal). case_decide as Hfull.
  { apply (evolving_after _ _ _ H1), evolving_quiet, _. }
  unfold wp, evolves. simpl. split; [by apply prefix_app_r|]. split.
  - split_and!; simpl; try done. rewrite length_app. simpl. lia.
  - split_and!; simpl; try done; [by apply prefix_app_r|congruence].
Qed.

(** * Entering *)

Lemma evolves_enter mode w r w' : shim_ok (st w) -> sandbox_entered (st w) = false ->
  enter_outcome mode w r w' -> evolves w w'.
Proof.
  intros Hok Hent [Ht [(-> & Hst & _)|(-> & Hst & _)]]; unfold evolves; rewrite Hst.
  - split; [done|]. split; [exact Hok|]. split_and!; try done. by rewrite Hent.
  - split_and!; done.
Qed.

Lemma evolving_enter_mode mode : Evolving overrun_fault (enter_mode mode).
Proof.
  intros w Hok. destruct sandbox_disabled eqn:Hdis.
  { unfold enter_mode. rewrite Hdis. apply wp_ret. by apply evolves_refl. }
  destruct (sandbox_entered (st w)) eqn:Hent.
  { unfold enter_mode. rewrite Hdis. apply wp_bind. unfold get_shim at 1, wp at 1.
    rewrite Hent. apply wp_ret. by apply evolves_refl. }
  eapply wp_mono; [by apply enter_mode_wp|done|]. cbv beta. intros r w'.
  by apply evolves_enter.
Qed.

Definition may_overrun (c : api_call) (s : shim) (f : fault) : Prop :=
  exists mode, c = Enter mode /\ overrun_fault s f.

Lemma evolving_api c : Evolving (may_overrun c) (run_api c).
Proof.
  assert (forall (m : M Z), Evolving never m -> Evolving (may_overrun c) m) as Hnever.
  { intros m Hm w Hok. eapply wp_mono; [by apply Hm|by intros f []|done]. }
  assert (forall mode w, c = Enter mode -> shim_ok (st w) ->
    wp (may_overrun c (st w)) (enter_mode mode) w (fun _ w' => evolves w w')) as Henter.
  { intros mode w -> Hok. eapply wp_mono; [by apply evolving_enter_mode| |done].
    intros f Hf. by exists mode. }
  destruct c as [[]|path|fd mask|fd cmds|fd rights|fd flags| | |]; cbn [run_api].
  - intros w. by apply Henter.
  - intros w Hok. unfold caph_enter_casper. apply wp_bind.
    assert (Keeps (loads []) (if sandbox_disabled then mret 0 else kcall_ret KOpenlog)) as Hq
      by apply _.
    eapply wp_mono; [apply Hq|by intros f []|]. cbv beta. intros r w1 HL.
    assert (st w1 = st w) as Hst by apply HL.
    rewrite <- Hst. eapply wp_mono; [apply Henter; [done|by rewrite Hst]|done|].
    cbv beta. intros r2 w2 H2. eapply evolves_trans; [by eapply evolves_loads|done].
  - intros w. by apply Henter.
  - apply Hnever, evolving_allow_path.
  - apply Hnever, evolving_rights.
  - apply Hnever, evolving_ioctls.
  - apply Hnever, evolving_fcntls.
  - apply Hnever, evolving_stream.
  - apply Hnever, evolving_stdio.
  - apply Hnever, evolving_quiet. unfold caph_cache_tzdata. apply _.
  - apply Hnever, evolving_ret.
Qed.

(** * Call sequences *)

Lemma call_evolves c w r w' : shim_ok (st w) -> run_api c w = Ret r w' -> evolves w w'.
Proof. intros Hok Hrun. pose proof (evolving_api c w Hok) as Hwp. unfold wp in Hwp. by rewrite Hrun in Hwp. Qed.

Lemma steps_evolve w w' : shim_ok (st w) -> steps w w' -> evolves w w'.
Proof.
  intros Hok. induction 1 as [w|w1 w2 w3 c r Hs IH Hrun]; [by apply evolves_refl|].
  pose proof (IH Hok) as H12. eapply evolves_trans; [exact H12|].
  eapply call_evolves; [apply H12|exact Hrun].
Qed.

Lemma reachable_ok w : reachable w -> shim_ok (st w).
Proof. intros (e & Hs). apply (steps_evolve (initial e)); [apply initial_ok|done]. Qed.

Lemma filters_grow w w' : trace w `prefix_of` trace w' -> filters w `prefix_of` filters w'.
Proof. intros (evs & Ht). unfold filters. rewrite Ht, omap_app. by apply prefix_app_r. Qed.

Lemma permitted_mono w w' d : trace w `prefix_of` trace w' -> permitted w' d -> permitted w d.
Proof.
  intros (fs & Hf)%filters_grow. unfold permitted. rewrite Hf. by intros [??]%Forall_app.
Qed.

(** The namespace filter of the mode is in force. *)
Definition confined (mode : cap_mode) (w : world) : Prop :=
  exists p, namespace_filter mode (lookup_fds (st w)) [] = Some p /\ p ∈ filters w.

(** What a successful entry installed. *)
Definition entry_filters (mode : cap_mode) (w w' : world) : Prop :=
  st w' = entered_shim (st w) /\
  exists p, namespace_filter mode (lookup_fds (st w)) [] = Some p /\
    filters w' = filters w ++ p :: flush_programs (st w).

Lemma enter_mode_filters mode w w' : shim_ok (st w) -> sandbox_disabled = false ->
  sandbox_entered (st w) = false -> enter_mode mode w = Ret 0 w' -> entry_filters mode w w'.
Proof.
  intros Hok Hdis Hent Hrun. pose proof (enter_mode_wp mode w Hdis Hok Hent) as Hwp.
  unfold wp in Hwp. rewrite Hrun in Hwp.
  by destruct Hwp as [_ [(_ & Hst & Hp & _)|(? & _)]].
Qed.

Lemma enter_filters mode w w' : shim_ok (st w) -> sandbox_disabled = false ->
  sandbox_entered (st w) = false -> run_api (Enter mode) w = Ret 0 w' -> entry_filters mode w w'.
Proof.
  intros Hok Hdis Hent Hrun. destruct mode; [by apply enter_mode_filters| |by apply enter_mode_filters].
  cbn [run_api] in Hrun. unfold caph_enter_casper in Hrun. rewrite Hdis in Hrun.
  pose proof (quiet_kcall_ret KOpenlog (TCEq_refl _) w) as Hq.
  unfold wp, mbind, M_bind in Hq, Hrun. destruct (kcall_ret KOpenlog w) as [r w1|]; [|done].
  destruct Hq as (Hst & _ & Hf). rewrite app_nil_r in Hf.
  unfold entry_filters. rewrite <- Hst, <- Hf in *. by apply enter_mode_filters.
Qed.

Lemma enter_confines mode w w' : shim_ok (st w) -> sandbox_disabled = false ->
  sandbox_entered (st w) = false -> run_api (Enter mode) w = Ret 0 w' ->
  confined mode w' /\ st w' = entered_shim (st w).
Proof.
  intros Hok Hdis Hent Hrun.
  destruct (enter_filters mode w w' Hok Hdis Hent Hrun) as (Hst & p & Hp & Hf).
  split; [|done]. exists p. rewrite Hst. split; [exact Hp|]. rewrite Hf. set_solver.
Qed.

Lemma confined_denies mode w X d : shim_ok (st w) -> confined mode w ->
  arch32 d = CU_AUDIT_ARCH -> sys X = Some (nr32 d) ->
  ns_denied mode (lookup_fds (st w)) X d = true -> ~ permitted w d.
Proof.
  intros (_ & Hlk & _) (p & Hp & Hin) Harch HX Hden Hperm.
  destruct (namespace_filter_exact mode _ Hlk) as (p' & Hp' & Hr). simplify_eq.
  destruct (Hr d) as [_ Hr']. destruct (Hr' Harch) as [Hr2 _].
  unfold permitted in Hperm. rewrite Forall_forall in Hperm. specialize (Hperm _ Hin).
  rewrite (Hr2 X HX), Hden in Hperm. by injection Hperm.
Qed.

Lemma confined_kills mode w d : shim_ok (st w) -> confined mode w ->
  arch32 d <> CU_AUDIT_ARCH -> ~ permitted w d.
Proof.
  intros (_ & Hlk & _) (p & Hp & Hin) Harch Hperm.
  destruct (namespace_filter_exact mode _ Hlk) as (p' & Hp' & Hr). simplify_eq.
  destruct (Hr d) as [Hr' _]. unfold permitted in Hperm. rewrite Forall_forall in Hperm.
  specialize (Hperm _ Hin). rewrite (Hr' Harch) in Hperm. by injection Hperm.
Qed.

End Confine.

(** * Properties *)

(** C1. Confinement is irrevocable: once entering a mode has returned 0, no
    later sequence of calls to the shim, whatever the kernel answers, makes a
    call that the mode refuses possible again, nor a call through a foreign
    architecture. *)
Theorem confinement `{AbiOk} `{KernelOk} `{LandlockHeader} `{BpfMachine} mode w0 w1 w2 d :
  reachable w0 -> sandbox_disabled = false -> sandbox_entered (st w0) = false ->
  run_api (Enter mode) w0 = Ret 0 w1 -> steps w1 w2 ->
  (arch32 d <> CU_AUDIT_ARCH \/
   exists X, arch32 d = CU_AUDIT_ARCH /\ sys X = Some (nr32 d) /\
     ns_denied mode (lookup_fds (st w0)) X d = true) ->
  ~ permitted w2 d.
Proof.
  intros Hreach Hdis Hent Hrun Hs Hd Hperm. pose proof (reachable_ok _ Hreach) as Hok.
  destruct (enter_confines mode w0 w1 Hok Hdis Hent Hrun) as [Hconf Hst].
  assert (shim_ok (st w1)) as Hok1 by (by rewrite Hst).
  pose proof (steps_evolve w1 w2 Hok1 Hs) as (Ht & _ & _).
  apply (permitted_mono w1) in Hperm; [|done].
  destruct Hd as [Hd|(X & Harch & HX & Hd)].
  - by apply (confined_kills mode w1 d).
  - apply (confined_denies mode w1 X d); try done. by rewrite Hst.
Qed.

(** Entering casper mode, then limiting a descriptor: execve stays refused. *)
Lemma confinement_witness :
  exists w1 w2,
    @run_api x86_64 good_kernel full_header (Enter MODE_CASPER) (initial 0) = Ret 0 w1 /\
    @run_api x86_64 good_kernel full_header (RightsLimit 0 CAP_READ) w1 = Ret 0 w2 /\
    ~ permitted w2 (SeccompData 59 0xC000003E 0 (fun _ => 0)).
Proof.
  eexists _, _. split; [vm_compute; reflexivity|]. split; [vm_compute; reflexivity|].
  eapply (confinement (H0 := x86_64_ok) (H2 := good_kernel_ok) (H3 := full_header)
    MODE_CASPER (initial 0)).
  - exists 0. apply steps_refl.
  - reflexivity.
  - reflexivity.
  - vm_compute. reflexivity.
  - eapply (steps_call _ _ _ (RightsLimit 0 CAP_READ)); [apply steps_refl|vm_compute; reflexivity].
  - right. exists "execve". split; [reflexivity|]. split; reflexivity.
Defined.

(** C16. Restrictions are monotone: from any reachable state, every sequence of
    calls keeps the shim's lists inside its arrays with one record per
    descriptor, never drops a denied group, a registered directory or an
    allowlist entry's absence from the registry, and leaves the whole state
    unchanged once the sandbox is entered. *)
Theorem restrictions_monotone `{AbiOk} `{KernelOk} `{LandlockHeader} `{BpfMachine} w w' :
  reachable w -> steps w w' ->
  shim_ok (st w) /\ shim_ok (st w') /\
  registry_le (fd_limits (st w')) (fd_limits (st w)) /\
  lookup_fds (st w) `prefix_of` lookup_fds (st w') /\
  allow_fds (st w) `prefix_of` allow_fds (st w') /\
  (sandbox_entered (st w) = true -> st w' = st w) /\
  (forall d, permitted w' d -> permitted w d).
Proof.
  intros Hreach Hs. pose proof (reachable_ok _ Hreach) as Hok.
  destruct (steps_evolve w w' Hok Hs) as (Ht & Hok' & Hle & Hlk & Hal & Hfr).
  split_and!; try done. intros d. by apply permitted_mono.
Qed.

Lemma restrictions_monotone_witness :
  exists w', @run_api x86_64 good_kernel full_header LimitStdio (initial 0) = Ret 0 w' /\
    length (fd_limits (st w')) = 3%nat /\ shim_ok (st w').
Proof.
  eexists. split; [vm_compute; reflexivity|]. split; [reflexivity|].
  eapply (restrictions_monotone (H0 := x86_64_ok) (H2 := good_kernel_ok) (H3 := full_header)
    (H4 := bpf_interp) (initial 0)).
  - exists 0. apply steps_refl.
  - eapply (steps_call _ _ _ LimitStdio); [apply steps_refl|vm_compute; reflexivity].
Defined.

(** The escape hatch: with ASTROUTILS_SANDBOX=NONE every call returns 0 and
    changes nothing, without a single call to the kernel. *)
Theorem disabled_is_noop `{Abi} `{Kernel} `{LandlockHeader} c w :
  getenv "ASTROUTILS_SANDBOX" = Some "NONE" -> run_api c w = Ret 0 w.
Proof.
  intros Hn. assert (sandbox_disabled = true) as Hdis.
  { unfold sandbox_disabled. rewrite Hn. done. }
  destruct c as [[]| | | | | | | |]; cbn [run_api];
    unfold caph_enter, caph_enter_casper, caph_enter_paths, enter_mode, caph_allow_path,
      caph_rights_limit, caph_ioctls_limit, caph_fcntls_limit, caph_cache_tzdata, caph_limit_stdio,
      caph_limit_stdin, caph_limit_stdout, caph_limit_stderr, caph_limit_stream;
    rewrite ?Hdis; reflexivity.
Qed.

Lemma disabled_is_noop_witness :
  @run_api x86_64 {| kernel _ _ := KAns (-1) 1 0; getenv _ := Some "NONE" |} full_header
    (Enter MODE_FULL) (initial 0) = Ret 0 (initial 0).
Proof.
  apply (@disabled_is_noop x86_64
    {| kernel _ _ := KAns (-1) 1 0; getenv _ := Some "NONE" |}). reflexivity.
Defined.

(** C21. The shim never aborts, and the only store outside an array is the
    [cmd_idx] overrun while entering with more than 96 allowlisted commands
    registered: every other call, in every reachable state and for every answer
    of the kernel, returns. *)
Theorem faults_only_on_overrun `{AbiOk} `{KernelOk} `{LandlockHeader} `{BpfMachine} w c :
  reachable w ->
  (exists r w', run_api c w = Ret r w') \/
  (run_api c w = Fault StackOverrun /\ (exists mode, c = Enter mode) /\ overruns (st w)).
Proof.
  intros Hreach. pose proof (evolving_api c w (reachable_ok _ Hreach)) as Hwp. unfold wp in Hwp.
  destruct (run_api c w) as [r w'|f]; [left; eauto|]. right.
  destruct Hwp as (mode & -> & -> & Hov). eauto.
Qed.

Lemma faults_only_on_overrun_witness :
  exists r w', @run_api x86_64 good_kernel full_header (Enter MODE_PATHS) (initial 0) = Ret r w'.
Proof.
  destruct (faults_only_on_overrun (H0 := x86_64_ok) (H2 := good_kernel_ok) (H3 := full_header)
    (H4 := bpf_interp) (initial 0) (Enter MODE_PATHS)) as [Hr|(Hr & _)].
  - exists 0. apply steps_refl.
  - exact Hr.
  - vm_compute in Hr. discriminate.
Defined.
