(* ===== verification/CapLimit.v ===== *)
(** Limiting a descriptor, end to end (src.compat/capsicum.c,
    [caph_rights_limit] before and after entering).

    A rights set is registered, the sandbox is entered, and the filters in force
    are run on a call on that descriptor: the call is permitted exactly when the
    rights allow it.  The entries installed at once after entering and those
    accumulated in the registry before it are the same. *)

From S2P Require Import Prelude Abi Bpf CapNamespace CapFdRights CapRights CapShim CapEnter CapConfine.

(** The groups of calls a right governs, with the argument that is the
    descriptor. *)
Definition limit_groups : list (list string * Z * nat) := [
  (read_syscalls, CAP_READ, 0%nat); (write_syscalls, CAP_WRITE .| CAP_PWRITE, 0%nat);
  (seek_syscalls, CAP_SEEK, 0%nat); (trunc_syscalls, CAP_FTRUNCATE, 0%nat);
  (fsync_syscalls, CAP_FSYNC, 0%nat); (shut_syscalls, CAP_SHUTDOWN, 0%nat);
  (mmap_syscalls, CAP_MMAP, 4%nat)].

Lemma u32_s64 z : u32 (s64 z) = u32 z.
Proof.
  unfold u32, s64, sext.
  assert ((z mod 2 ^ 64) mod 2 ^ 32 = z mod 2 ^ 32) as E.
  { rewrite <- (Znumtheory.Zmod_div_mod (2 ^ 32) (2 ^ 64)); try lia. by exists (2 ^ 32). }
  destruct (_ <? _); [done|].
  replace (z mod 2 ^ 64 - 2 ^ 64) with (z mod 2 ^ 64 + (- 2 ^ 32) * 2 ^ 32) by lia.
  by rewrite Z.mod_add.
Qed.

Section Limit.
Context {ABI : Abi} {KRN : Kernel} {LLH : LandlockHeader}.
Context `{!AbiOk} `{!KernelOk} {BPF : BpfMachine}.

(** ** Registered and immediate limits agree *)

(** The names of the calls that a rights set refuses. *)
Definition refused_names (mask : Z) : list string :=
  flat_map (fun g : list string * Z * nat =>
    let '(names, rt, argn) := g in if mask .& rt =? 0 then names else []) limit_groups.

Lemma registered_ents fd mask L : register_rights mask (new_limit fd) = Some L ->
  limit_ents fd (L_deny L) = rights_ents mask fd.
Proof.
  unfold register_rights. intros HL.
  assert (L_deny L = L_deny (register_denials mask (new_limit fd))) as ->.
  { set (L0 := register_denials _ _) in *. apply bind_Some in HL as (L1 & H1 & H2).
    transitivity (L_deny L1).
    - destruct (mask .& CAP_FCNTL =? 0); simplify_eq; [|done].
      unfold merge_fcntls in H2. apply bind_Some in H2 as ([a n] & _ & [= <-]). done.
    - destruct (mask .& CAP_IOCTL =? 0); simplify_eq; [|done].
      unfold merge_ioctls in H1. apply bind_Some in H1 as ([a n] & _ & [= <-]). done. }
  unfold register_denials, deny_unless, limit_ents, rights_ents.
  destruct (mask .& CAP_READ =? 0), (mask .& (CAP_WRITE .| CAP_PWRITE) =? 0),
    (mask .& CAP_SEEK =? 0), (mask .& CAP_FTRUNCATE =? 0), (mask .& CAP_FSYNC =? 0),
    (mask .& CAP_SHUTDOWN =? 0), (mask .& CAP_MMAP =? 0); reflexivity.
Qed.

(** ** The entries of a rights set *)

Lemma ents_of_elem e names argn fd : e ∈ ents_of names argn fd <->
  exists X, X ∈ names /\ sys X = Some (de_nr e) /\ e = DenyEnt (de_nr e) argn fd.
Proof.
  unfold ents_of. rewrite list_elem_of_fmap. split.
  - intros (nr & -> & (X & HX & Hs)%list_elem_of_omap). by exists X.
  - intros (X & HX & Hs & ->). exists (de_nr e). split; [done|].
    apply list_elem_of_omap. by exists X.
Qed.

Lemma rights_ents_flat mask fd : rights_ents mask fd =
  flat_map (fun g : list string * Z * nat =>
    let '(names, rt, argn) := g in when (mask .& rt =? 0) (ents_of names argn fd)) limit_groups.
Proof. unfold rights_ents. cbn [flat_map limit_groups]. by rewrite app_nil_r. Qed.

Lemma rights_ents_elem mask fd e : e ∈ rights_ents mask fd <->
  exists names rt argn X, (names, rt, argn) ∈ limit_groups /\ X ∈ names /\
    mask .& rt = 0 /\ sys X = Some (de_nr e) /\ e = DenyEnt (de_nr e) argn fd.
Proof.
  rewrite rights_ents_flat, list_elem_of_In, in_flat_map. split.
  - intros ([[names rt] argn] & Hg%list_elem_of_In & He).
    destruct (Z.eqb_spec (mask .& rt) 0) as [Hr|]; simpl in He; [|done].
    apply list_elem_of_In, ents_of_elem in He as (X & HX & Hs & He).
    exists names, rt, argn, X. done.
  - intros (names & rt & argn & X & Hg & HX & Hr & Hs & He).
    exists (names, rt, argn). split; [by apply list_elem_of_In|].
    rewrite Hr. simpl. apply list_elem_of_In, ents_of_elem. by exists X.
Qed.

(** A call belongs to at most one group. *)
Lemma groups_disjoint g1 g2 X : g1 ∈ limit_groups -> g2 ∈ limit_groups ->
  X ∈ g1.1.1 -> X ∈ g2.1.1 -> g1 = g2.
Proof.
  assert (Forall (fun g1 => Forall (fun g2 => Forall (fun X => X ∈ g2.1.1 -> g1 = g2) g1.1.1)
    limit_groups) limit_groups) as Hall.
  { apply (bool_decide_unpack _). vm_compute. exact I. }
  intros H1 H2 HX1 HX2. rewrite Forall_forall in Hall. specialize (Hall _ H1).
  rewrite Forall_forall in Hall. specialize (Hall _ H2).
  rewrite Forall_forall in Hall. exact (Hall X HX1 HX2).
Qed.

Definition group_names : list string := flat_map (fun g => g.1.1) limit_groups.

Lemma nr_inj X Y n d : sys X = Some (nr32 d) -> sys Y = Some n -> nr32 d = u32 n -> X = Y.
Proof.
  intros HX HY Hn. pose proof (sys_range _ _ HY). rewrite u32_small in Hn by lia.
  apply (sys_inj _ _ n); congruence.
Qed.

(** The walk over the entries of one descriptor decides a call on it. *)
Lemma fd_scan_rights mask fd names rt argn X d :
  (names, rt, argn) ∈ limit_groups -> X ∈ names -> sys X = Some (nr32 d) ->
  arg32 d argn = u32 fd ->
  fd_scan (rights_ents mask fd) (nr32 d) d = (mask .& rt =? 0).
Proof.
  intros Hg HX HsX Harg.
  assert (forall e, e ∈ rights_ents mask fd -> nr32 d = u32 (de_nr e) ->
            mask .& rt = 0 /\ e = DenyEnt (de_nr e) argn fd) as Hent.
  { intros e He Hnr. apply rights_ents_elem in He as (ns & r & a & Y & Hg' & HY & Hr & Hs & He).
    pose proof (nr_inj X Y _ d HsX Hs Hnr) as ->.
    pose proof (groups_disjoint _ _ Y Hg Hg' HX HY) as Heq. by simplify_eq. }
  destruct (Z.eqb_spec (mask .& rt) 0) as [Hr|Hr].
  - apply fd_scan_hit.
    + apply Forall_forall. intros e He Hnr. by destruct (Hent e He Hnr) as [_ ->].
    + apply Exists_exists. exists (DenyEnt (nr32 d) argn fd). split.
      * apply rights_ents_elem. by exists names, rt, argn, X.
      * simpl. symmetry. apply u32_idem.
  - apply fd_scan_none, Forall_forall. intros e He Hnr. by destruct (Hent e He (eq_sym Hnr)).
Qed.

(** It does not touch a call of no group. *)
Lemma fd_scan_other mask fd X d : X ∉ group_names -> sys X = Some (nr32 d) ->
  fd_scan (rights_ents mask fd) (nr32 d) d = false.
Proof.
  intros HX HsX. apply fd_scan_none, Forall_forall. intros e He Hnr.
  apply rights_ents_elem in He as (ns & r & a & Y & Hg & HY & _ & Hs & _).
  pose proof (nr_inj X Y _ d HsX Hs (eq_sym Hnr)) as ->. apply HX.
  apply list_elem_of_In, in_flat_map. exists (ns, r, a). by rewrite <- !list_elem_of_In.
Qed.

(** ** The world after registering one rights set *)

Definition same_registry (w w' : world) : Prop :=
  fd_limits (st w') = fd_limits (st w) /\ sandbox_entered (st w') = sandbox_entered (st w) /\
  filters w' = filters w.

Lemma register_lookup_wp fd w : wp no_fault (register_lookup fd) w (fun _ w' => same_registry w w').
Proof.
  unfold register_lookup. apply wp_bind. unfold get_shim at 1, wp at 1.
  destruct (sandbox_entered (st w)) eqn:Hent; [done|].
  apply wp_bind, ksys_wp. intros a _. set (w1 := World _ _ _).
  assert (filters w1 = filters w) as Hf.
  { unfold w1. by rewrite filters_snoc, app_nil_r. }
  destruct (_ <? 0); [done|]. destruct (negb _); [done|]. by case_decide.
Qed.

Lemma register_first fd mask e w1 : sandbox_disabled = false ->
  caph_rights_limit fd mask (initial e) = Ret 0 w1 ->
  exists L, register_rights mask (new_limit fd) = Some L /\ limit_ok L /\
    fd_limits (st w1) = [L] /\ sandbox_entered (st w1) = false /\ filters w1 = [] /\ L_fd L = fd.
Proof.
  intros Hdis. unfold caph_rights_limit. rewrite Hdis.
  destruct (restricting_rights mask (new_limit fd) (new_limit_ok fd)) as (L & HL & Hok & Hle).
  assert (forall w, fd_limits (st w) = [] -> sandbox_entered (st w) = false -> filters w = [] ->
    wp no_fault (update_limit fd (register_rights mask)) w (fun r w' => r = 0 ->
      fd_limits (st w') = [L] /\ sandbox_entered (st w') = false /\ filters w' = [])) as Hupd.
  { intros w Hl He Hf. unfold update_limit, wp, mbind, M_bind, get_shim. rewrite Hl.
    change (lim_find [] fd) with (Some (0%nat, [new_limit fd])).
    cbn -[register_rights new_limit]. rewrite HL. cbn. done. }
  assert (wp no_fault (kcall_ret (KFcntlGetFd fd) ;?
    (if tst mask CAP_LOOKUP then register_lookup fd else mret 0) ;?
    (s ← get_shim;
     if sandbox_entered s then limit_now fd mask
     else update_limit fd (register_rights mask))) (initial e) (fun r w' => r = 0 ->
      fd_limits (st w') = [L] /\ sandbox_entered (st w') = false /\ filters w' = [])) as Hwp.
  { apply wp_or_fail, kcall_wp. intros a _. case_match; [done|].
    apply wp_or_fail. set (w0 := World _ _ _).
    assert (same_registry (initial e) w0) as Hsame.
    { split_and!; [done|done|]. unfold w0. by rewrite filters_snoc. }
    eapply (wp_mono no_fault _ _ _ (fun _ w' => same_registry w0 w')); [|done|].
    { destruct (tst _ _); [apply register_lookup_wp|done]. }
    cbv beta. intros r w2 (H4 & H5 & H6). destruct Hsame as (S1 & S2 & S3).
    rewrite S1 in H4. rewrite S2 in H5. rewrite S3 in H6.
    destruct (r <? 0); [done|]. apply wp_bind. unfold get_shim at 1, wp at 1. rewrite H5.
    by apply Hupd. }
  intros Hrun. unfold wp in Hwp. rewrite Hrun in Hwp.
  destruct (Hwp eq_refl) as (H1 & H2 & H3). exists L. split_and!; try done. apply Hle.
Qed.

(** ** The filters in force after entering *)

Lemma chunks_one ents : forall buf, (length buf + length ents < 60)%nat ->
  chunks buf ents = if decide (buf ++ ents = []) then [] else [buf ++ ents].
Proof.
  induction ents as [|e ents IH]; intros buf Hl; cbn [chunks length] in *; [by rewrite app_nil_r|].
  rewrite decide_False by (rewrite length_app; unfold FLUSH_CHUNK; simpl; lia).
  rewrite IH by (rewrite length_app; simpl; lia).
  replace ((buf ++ [e]) ++ ents) with (buf ++ e :: ents) by (by rewrite <- app_assoc). done.
Qed.

(** Every filter of a list answers [b] or allows, one of them answering [b]. *)
Definition refusals (ps : list bpf_prog) (d : seccomp_data) (b : bool) : Prop :=
  Forall (fun p => filter_result p d = Some ret_allow) ps <-> b = false.

Lemma refusals_nil d : refusals [] d false.
Proof. by split. Qed.

Lemma refusals_one p d b : filter_result p d = answer b -> refusals [p] d b.
Proof. intros Hp. unfold refusals. rewrite Forall_singleton, Hp. by destruct b. Qed.

Lemma refusals_app ps qs d b c : refusals ps d b -> refusals qs d c -> refusals (ps ++ qs) d (b || c).
Proof. unfold refusals. intros Hp Hq. rewrite Forall_app, Hp, Hq, orb_false_iff. done. Qed.

Lemma chunk_refusals ents d : args_ok ents -> (length ents < 60)%nat -> arch32 d = CU_AUDIT_ARCH ->
  refusals (map chunk_prog (chunks [] ents)) d (fd_scan ents (nr32 d) d).
Proof.
  intros Ha Hl Harch. rewrite chunks_one by (simpl; lia). cbn [app]. case_decide as Hnil.
  { subst. apply refusals_nil. }
  destruct (install_entry_chunk_scan ents Ha ltac:(lia)) as (p & Hp & Hr).
  apply refusals_one. unfold chunk_prog, asm_prog. rewrite Hp. cbn [default].
  by rewrite Hr, Harch, Z.eqb_refl.
Qed.

Lemma arg1_refusals nr which L d l s : fd_limits s = [L] -> which L = Some l ->
  (length l <= 96)%nat -> arch32 d = CU_AUDIT_ARCH ->
  refusals (arg1_progs (Some nr) which s) d
    ((nr32 d =? u32 nr) && (arg32 d 0 =? u32 (L_fd L)) && negb (listed (arg32 d 1) l)).
Proof.
  intros Hs HL Hlen Harch. unfold arg1_progs, arg1_lims. rewrite Hs. csimpl. rewrite HL. csimpl.
  pose proof (install_arg1_limits_exact nr [(L_fd L, l)] ltac:(done) ltac:(simpl; lia)) as Hx.
  rewrite decide_False in Hx by (unfold total_cmds, cmd_idx_size; simpl; lia).
  rewrite decide_False in Hx by (unfold blocks_len, total_cmds; simpl; lia).
  destruct Hx as (p & -> & Hr). apply refusals_one. rewrite Hr, Harch, Z.eqb_refl. f_equal.
  cbn [arg1_refuses]. destruct (_ =? u32 nr), (_ =? u32 (L_fd L)); done.
Qed.

Lemma arg1_unlimited nr which L s d : fd_limits s = [L] -> which L = None ->
  refusals (arg1_progs nr which s) d false.
Proof.
  intros Hs HL. destruct nr as [nr|]; [|apply refusals_nil].
  unfold arg1_progs, arg1_lims. rewrite Hs. csimpl. rewrite HL. csimpl. apply refusals_nil.
Qed.

(** The ioctl and fcntl lists a rights set leaves. *)
Definition safe_fcntls : list Z := [F_GETFD; F_SETFD; F_GETFL; F_SETFL].

Lemma register_rights_lists fd mask L : register_rights mask (new_limit fd) = Some L ->
  ioctl_list L = (if mask .& CAP_IOCTL =? 0 then Some (map s64 safe_ioctls) else None) /\
  fcntl_list L = (if mask .& CAP_FCNTL =? 0 then Some safe_fcntls else None).
Proof.
  unfold register_rights. intros HL.
  destruct (register_denials_spec mask _ (new_limit_ok fd)) as (H1 & _ & H2 & H3).
  set (L0 := register_denials mask (new_limit fd)) in *.
  change (ioctl_list (new_limit fd)) with (@None (list Z)) in H2.
  change (fcntl_list (new_limit fd)) with (@None (list Z)) in H3.
  assert (take 16 (map s64 safe_ioctls) = map s64 safe_ioctls) as Htake.
  { apply take_ge. rewrite length_map. etransitivity; [apply length_omap|simpl; lia]. }
  assert (exists L1, (if mask .& CAP_IOCTL =? 0 then merge_ioctls L0 (map s64 safe_ioctls)
            else Some L0) = Some L1 /\ limit_ok L1 /\ fcntl_list L1 = None /\
            ioctl_list L1 = if mask .& CAP_IOCTL =? 0 then Some (map s64 safe_ioctls) else None)
    as (L1 & E & Hok1 & Hf1 & Hi1).
  { destruct (mask .& CAP_IOCTL =? 0); [|by exists L0].
    destruct (merge_ioctls_spec L0 (map s64 safe_ioctls) H1) as (L1 & -> & Hok & _ & _ & Hf & Hi).
    exists L1. rewrite Hf, Hi, H2, H3. cbn [merged]. by rewrite Htake. }
  rewrite E in HL. cbn [mbind option_bind] in HL. rewrite <- Hi1.
  destruct (mask .& CAP_FCNTL =? 0); [|by simplify_eq].
  destruct (merge_fcntls_spec L1 safe_fcntls ltac:(simpl; lia) Hok1)
    as (L2 & E2 & _ & _ & _ & Hi2 & Hf2).
  unfold safe_fcntls in *. simplify_eq. by rewrite Hi2, Hf2, Hf1.
Qed.

(** The verdict of all filters of the registry on a call on the descriptor. *)
Definition limit_refuses (mask fd : Z) (d : seccomp_data) : bool :=
  fd_scan (rights_ents mask fd) (nr32 d) d ||
  ((mask .& CAP_IOCTL =? 0) && bool_decide (sys "ioctl" = Some (nr32 d)) &&
     (arg32 d 0 =? u32 fd) && negb (listed (arg32 d 1) safe_ioctls)) ||
  ((mask .& CAP_FCNTL =? 0) && bool_decide (sys_fcntl = Some (nr32 d)) &&
     (arg32 d 0 =? u32 fd) && negb (listed (arg32 d 1) safe_fcntls)).

Lemma listed_s64 a l : listed a (map s64 l) = listed a l.
Proof.
  unfold listed. induction l as [|c l IH]; [done|]. cbn [map existsb]. by rewrite IH, u32_s64.
Qed.

Lemma nr_match nr d : 0 <= nr < 2 ^ 32 ->
  (nr32 d =? u32 nr) = bool_decide (Some nr = Some (nr32 d)).
Proof.
  intros Hr. rewrite (u32_small nr) by lia. destruct (Z.eqb_spec (nr32 d) nr) as [->|Hne].
  - by rewrite bool_decide_eq_true_2.
  - rewrite bool_decide_eq_false_2; congruence.
Qed.

Lemma sys_fcntl_range nr : sys_fcntl = Some nr -> 0 <= nr < 2 ^ 32.
Proof. unfold sys_fcntl. case_match; intros ?; simplify_eq; by eapply sys_range. Qed.

(** One allowlist filter of the registry, whether or not the call exists and the
    list is restricted. *)
Lemma arg1_verdict nr which s L d (b : bool) l : fd_limits s = [L] ->
  which L = (if b then Some l else None) -> (length l <= 96)%nat -> arch32 d = CU_AUDIT_ARCH ->
  (forall n, nr = Some n -> 0 <= n < 2 ^ 32) ->
  refusals (arg1_progs nr which s) d
    (b && bool_decide (nr = Some (nr32 d)) && (arg32 d 0 =? u32 (L_fd L)) &&
     negb (listed (arg32 d 1) l)).
Proof.
  intros Hs Hw Hl Harch Hnr. destruct b; cbn [andb]; [|by eapply arg1_unlimited].
  destruct nr as [nr|].
  - rewrite <- nr_match by (by apply Hnr). by apply arg1_refusals.
  - rewrite bool_decide_eq_false_2 by done. apply refusals_nil.
Qed.

Lemma registered_verdict fd mask mode e w1 w2 d :
  sandbox_disabled = false ->
  run_api (RightsLimit fd mask) (initial e) = Ret 0 w1 ->
  run_api (Enter mode) w1 = Ret 0 w2 -> arch32 d = CU_AUDIT_ARCH ->
  exists p, namespace_filter mode (lookup_fds (st w1)) [] = Some p /\
    (permitted w2 d <-> filter_result p d = Some ret_allow /\ limit_refuses mask fd d = false).
Proof.
  intros Hdis Hlim Hent Harch.
  destruct (register_first fd mask e w1 Hdis Hlim) as (L & HL & HLok & Hls & Hne & Hf1 & Hfd).
  assert (shim_ok (st w1)) as Hok1.
  { eapply call_evolves; [apply (initial_ok e)|exact Hlim]. }
  destruct (enter_filters mode w1 w2 Hok1 Hdis Hne Hent) as (_ & p & Hp & Hf2).
  exists p. split; [done|]. unfold permitted. rewrite Hf2, Hf1, app_nil_l, Forall_cons.
  assert (refusals (flush_programs (st w1)) d (limit_refuses mask fd d)) as Href; [|unfold refusals in Href; split; intros [? ?]; split; try done; by apply Href].
  destruct (register_rights_lists fd mask L HL) as [Hio Hfc].
  unfold flush_programs, limit_refuses, registry_ents. rewrite Hls, <- orb_assoc.
  cbn [flat_map]. rewrite app_nil_r, Hfd, (registered_ents fd mask L HL).
  apply refusals_app; [|apply refusals_app].
  - apply chunk_refusals; [apply rights_args_ok| |done].
    pose proof (rights_ents_length mask fd). lia.
  - rewrite <- (listed_s64 _ safe_ioctls), <- Hfd.
    eapply arg1_verdict; [exact Hls|exact Hio| |done|].
    + rewrite length_map. etransitivity; [apply length_omap|simpl; lia].
    + intros n Hn. by eapply sys_range.
  - rewrite <- Hfd. eapply arg1_verdict; [exact Hls|exact Hfc|simpl; lia|done|].
    intros n Hn. by apply sys_fcntl_range.
Qed.

Lemma entry_verdict fd mask mode e w1 w2 d X :
  sandbox_disabled = false ->
  run_api (RightsLimit fd mask) (initial e) = Ret 0 w1 ->
  run_api (Enter mode) w1 = Ret 0 w2 ->
  arch32 d = CU_AUDIT_ARCH -> sys X = Some (nr32 d) ->
  ns_denied mode (lookup_fds (st w1)) X d = false ->
  permitted w2 d <-> limit_refuses mask fd d = false.
Proof.
  intros Hdis Hlim Hent Harch HX Hns.
  destruct (registered_verdict fd mask mode e w1 w2 d Hdis Hlim Hent Harch) as (p & Hp & ->).
  assert (shim_ok (st w1)) as Hok1.
  { eapply call_evolves; [apply (initial_ok e)|exact Hlim]. }
  destruct (namespace_filter_exact mode (lookup_fds (st w1)) ltac:(apply Hok1))
    as (p' & Hp' & Hr). simplify_eq.
  destruct (Hr d) as [_ Hr']. destruct (Hr' Harch) as [Hr2 _]. rewrite (Hr2 X HX), Hns.
  by split; [intros [_ ?]|intros ?; split].
Qed.

(** ** Limits made after entering *)

(** The filters that [caph_rights_limit] installs at once. *)
Definition arg1_now (nr : option Z) (fd : Z) (allowed : list Z) : list bpf_prog :=
  match nr with Some nr => [asm_prog (limit_fd_arg1 fd nr allowed)] | None => [] end.
Definition now_progs (fd mask : Z) : list bpf_prog :=
  (if decide (rights_ents mask fd = []) then [] else [chunk_prog (rights_ents mask fd)]) ++
  (if mask .& CAP_IOCTL =? 0 then arg1_now (sys "ioctl") fd (map s64 (take 16 safe_ioctls)) else []) ++
  (if mask .& CAP_FCNTL =? 0 then arg1_now sys_fcntl fd safe_fcntls else []).

Lemma rights_ents_fd mask fd : map (fun e => DenyEnt (de_nr e) (de_argn e) fd) (rights_ents mask fd) = rights_ents mask fd.
Proof.
  transitivity (map id (rights_ents mask fd)); [|by rewrite map_id]. apply map_ext_in. intros e He%list_elem_of_In.
  apply rights_ents_elem in He as (? & ? & ? & ? & _ & _ & _ & _ & ->). done.
Qed.

Lemma tst_lor_l x y : x <> 0 -> tst (x .| y) x = true.
Proof.
  intros Hx. unfold tst. assert ((x .| y) .& x = x) as -> by (Z.bitwise; destruct (Z.testbit x m), (Z.testbit y m); done).
  by rewrite (proj2 (Z.eqb_neq x 0) Hx).
Qed.

Lemma load_fd_arg1_wp fd nr allowed w : (length allowed <= 250)%nat ->
  wp no_fault (load_fd_arg1 fd nr allowed) w (attempt (arg1_now nr fd allowed) w).
Proof.
  intros Hl. destruct nr as [nr|]; [|apply attempt_ret]. destruct (limit_fd_arg1_exact fd nr allowed Hl) as (p & Hp & _).
  unfold load_fd_arg1, arg1_now, asm_prog. rewrite Hp. by apply load_asm_wp.
Qed.

Lemma limit_now_wp fd mask w : sandbox_disabled = false -> sandbox_entered (st w) = true ->
  wp no_fault (limit_now fd mask) w (attempt (now_progs fd mask) w).
Proof.
  intros Hdis Hent. unfold limit_now, now_progs. apply attempt_seq.
  { unfold limit_fd_syscalls. case_decide; [apply attempt_ret|]. rewrite rights_ents_fd.
    apply chunk_load_wp; [apply rights_args_ok|]. pose proof (rights_ents_length mask fd). lia. }
  intros w1 (Hw1 & _). apply attempt_seq.
  { destruct (_ =? 0); [|apply attempt_ret]. unfold caph_ioctls_limit. rewrite Hdis. apply wp_bind.
    unfold get_shim at 1, wp at 1. rewrite Hw1, Hent. apply load_fd_arg1_wp. rewrite length_map, length_take. lia. }
  intros w2 (Hw2 & _). rewrite <- (app_nil_r (if mask .& CAP_FCNTL =? 0 then _ else _)). apply attempt_seq.
  { destruct (mask .& CAP_FCNTL =? 0); [|apply attempt_ret]. unfold caph_fcntls_limit. rewrite Hdis. apply wp_bind.
    unfold get_shim at 1, wp at 1. rewrite Hw2, Hw1, Hent.
    assert (tst (CAP_FCNTL_GETFL .| CAP_FCNTL_SETFL) CAP_FCNTL_GETFL = true) as -> by (apply tst_lor_l, fcntl_flags).
    assert (tst (CAP_FCNTL_GETFL .| CAP_FCNTL_SETFL) CAP_FCNTL_SETFL = true) as -> by (rewrite Z.lor_comm; apply tst_lor_l, fcntl_flags).
    apply (load_fd_arg1_wp fd sys_fcntl safe_fcntls). simpl. lia. }
  intros w3 _. apply attempt_ret.
Qed.

Lemma arg1_now_refusals nr fd l d : (length l <= 250)%nat -> arch32 d = CU_AUDIT_ARCH -> (forall n, nr = Some n -> 0 <= n < 2 ^ 32) ->
  refusals (arg1_now nr fd l) d (bool_decide (nr = Some (nr32 d)) && (arg32 d 0 =? u32 fd) && negb (listed (arg32 d 1) l)).
Proof.
  intros Hl Harch Hnr. destruct nr as [nr|]; [|rewrite bool_decide_eq_false_2 by done; apply refusals_nil].
  rewrite <- nr_match by (by apply Hnr). destruct (limit_fd_arg1_exact fd nr l Hl) as (p & Hp & Hr).
  apply refusals_one. unfold asm_prog. rewrite Hp. cbn [default]. by rewrite Hr, Harch, Z.eqb_refl.
Qed.

Lemma now_refusals fd mask d : arch32 d = CU_AUDIT_ARCH -> refusals (now_progs fd mask) d (limit_refuses mask fd d).
Proof.
  intros Harch. unfold now_progs, limit_refuses. rewrite <- orb_assoc.
  apply refusals_app; [|apply refusals_app].
  - assert (length (rights_ents mask fd) < 60)%nat as Hl by (pose proof (rights_ents_length mask fd); lia).
    pose proof (chunk_refusals (rights_ents mask fd) d (rights_args_ok mask fd) Hl Harch) as Hc.
    rewrite chunks_one in Hc by (simpl; lia). cbn [app] in Hc. by case_decide.
  - destruct (mask .& CAP_IOCTL =? 0); [|apply refusals_nil]. rewrite <- (listed_s64 _ safe_ioctls).
    assert (take 16 safe_ioctls = safe_ioctls) as -> by (apply take_ge; etransitivity; [apply length_omap|simpl; lia]).
    apply arg1_now_refusals; [|done|intros n Hn; by eapply sys_range].
    rewrite length_map. etransitivity; [apply length_omap|simpl; lia].
  - destruct (mask .& CAP_FCNTL =? 0); [|apply refusals_nil].
    apply arg1_now_refusals; [simpl; lia|done|intros n Hn; by apply sys_fcntl_range].
Qed.

(** Without CAP_LOOKUP no directory is registered, and after entering it fails. *)
Lemma no_lookup_registered fd mask e w1 : sandbox_disabled = false -> tst mask CAP_LOOKUP = false ->
  caph_rights_limit fd mask (initial e) = Ret 0 w1 -> lookup_fds (st w1) = [].
Proof.
  intros Hdis Hlk Hrun. unfold caph_rights_limit in Hrun. rewrite Hdis, Hlk in Hrun.
  apply or_fail_ret in Hrun as (r1 & w & H1 & _ & Hrun). apply or_fail_ret in Hrun as (r2 & w' & H2 & _ & Hrun).
  cbn in H1. injection H1 as _ <-. cbn in H2. injection H2 as _ <-.
  unfold mbind, M_bind, get_shim in Hrun. cbn -[update_limit register_rights] in Hrun.
  unfold update_limit, mbind, M_bind, get_shim in Hrun. cbn -[register_rights new_limit lim_find] in Hrun.
  change (lim_find [] fd) with (Some (0%nat, [new_limit fd])) in Hrun. cbn -[register_rights new_limit] in Hrun.
  destruct (register_rights mask (new_limit fd)); [|done]. cbn in Hrun. by injection Hrun as <-.
Qed.

Lemma entered_limit fd mask w w' : sandbox_disabled = false -> sandbox_entered (st w) = true ->
  caph_rights_limit fd mask w = Ret 0 w' -> tst mask CAP_LOOKUP = false /\ filters w' = filters w ++ now_progs fd mask.
Proof.
  intros Hdis Hent Hrun. unfold caph_rights_limit in Hrun. rewrite Hdis in Hrun.
  apply or_fail_ret in Hrun as (r1 & w1 & H1 & _ & Hrun). apply or_fail_ret in Hrun as (r2 & w2 & H2 & Hr2 & Hrun).
  assert (st w1 = st w /\ filters w1 = filters w) as [E1 F1].
  { cbn in H1. injection H1 as _ <-. split; [done|]. by rewrite filters_snoc, app_nil_r. }
  destruct (tst mask CAP_LOOKUP).
  { unfold register_lookup, mbind, M_bind, get_shim in H2. rewrite E1, Hent in H2. cbn in H2. injection H2 as <- _. lia. }
  split; [done|]. cbn in H2. injection H2 as _ <-. unfold mbind, M_bind, get_shim in Hrun. rewrite E1, Hent in Hrun.
  pose proof (limit_now_wp fd mask w1 Hdis ltac:(by rewrite E1)) as Hwp. unfold wp in Hwp. rewrite Hrun in Hwp.
  destruct Hwp as [[_ (_ & _ & ->)]|[? _]]; [by rewrite F1|done].
Qed.

(** The namespace filters leave the calls of the groups, ioctl and fcntl alone. *)
Lemma group_calls_not_denied mode fds X d :
  X ∈ ["ioctl"; "fcntl"; "fcntl64"] ++ group_names -> ns_denied mode fds X d = false.
Proof.
  intros HX.
  assert (Forall (fun X =>
    smem X ["open"; "openat"; "newfstatat"; "statx"] = false /\
    smem X (["openat2"; "creat"] ++ path_mutation_syscalls ++ path_read_syscalls ++
            always_denied_syscalls) = false) (["ioctl"; "fcntl"; "fcntl64"] ++ group_names)) as Hall.
  { apply (bool_decide_unpack _). vm_compute. exact I. }
  rewrite Forall_forall in Hall. destruct (Hall X HX) as [H1 H2].
  rewrite !smem_app, !smem_cons in *. zbool.
  unfold ns_denied. rewrite !smem_app, !smem_cons.
  repeat match goal with E : ?x = false |- _ => rewrite E end. by destruct mode.
Qed.

Lemma not_in_groups X : X ∈ ["ioctl"; "fcntl"; "fcntl64"] -> X ∉ group_names.
Proof.
  intros HX. assert (Forall (fun X => X ∉ group_names) ["ioctl"; "fcntl"; "fcntl64"]) as Hall.
  { apply (bool_decide_unpack _). vm_compute. exact I. }
  rewrite Forall_forall in Hall. by apply Hall.
Qed.

Lemma sys_name X Y d : sys X = Some (nr32 d) -> sys Y = Some (nr32 d) -> X = Y.
Proof. apply sys_inj. Qed.

Lemma sys_fcntl_name X d : sys X = Some (nr32 d) -> sys_fcntl = Some (nr32 d) ->
  X ∈ ["fcntl"; "fcntl64"].
Proof.
  unfold sys_fcntl. intros HX Hf. destruct (sys "fcntl") eqn:E; simplify_eq.
  - rewrite (sys_name X "fcntl" d HX E). set_solver.
  - rewrite (sys_name X "fcntl64" d HX Hf). set_solver.
Qed.

Lemma group_refusal mask fd names rt argn X d :
  (names, rt, argn) ∈ limit_groups -> X ∈ names -> sys X = Some (nr32 d) ->
  arg32 d argn = u32 fd -> limit_refuses mask fd d = (mask .& rt =? 0).
Proof.
  intros Hg HX HsX Harg. assert (X ∈ group_names) as HXg.
  { apply list_elem_of_In, in_flat_map. exists (names, rt, argn). by rewrite <- !list_elem_of_In. }
  unfold limit_refuses. rewrite (fd_scan_rights mask fd names rt argn X d) by done.
  rewrite (bool_decide_eq_false_2 (sys "ioctl" = _)).
  2:{ intros Hi. apply (not_in_groups "ioctl"); [set_solver|]. by rewrite <- (sys_name X _ d HsX Hi). }
  rewrite (bool_decide_eq_false_2 (sys_fcntl = _)).
  2:{ intros Hf%(sys_fcntl_name X d HsX). apply (not_in_groups X); [set_solver|done]. }
  by rewrite !andb_false_r, !orb_false_r.
Qed.

Lemma ioctl_refusal mask fd d : sys "ioctl" = Some (nr32 d) -> arg32 d 0 = u32 fd ->
  limit_refuses mask fd d = (mask .& CAP_IOCTL =? 0) && negb (listed (arg32 d 1) safe_ioctls).
Proof.
  intros HsX Harg. unfold limit_refuses.
  rewrite (fd_scan_other mask fd "ioctl" d) by (done || (apply not_in_groups; set_solver)).
  rewrite (bool_decide_eq_true_2 (sys "ioctl" = _)) by done.
  rewrite (bool_decide_eq_false_2 (sys_fcntl = _)).
  2:{ intros Hf%(sys_fcntl_name "ioctl" d HsX). revert Hf. by apply (bool_decide_unpack (_ ∉ _)). }
  by rewrite Harg, Z.eqb_refl, !andb_false_r, !andb_true_r, orb_false_r.
Qed.

Lemma fcntl_refusal mask fd X d : sys X = Some (nr32 d) -> sys_fcntl = Some (nr32 d) ->
  arg32 d 0 = u32 fd ->
  limit_refuses mask fd d = (mask .& CAP_FCNTL =? 0) && negb (listed (arg32 d 1) safe_fcntls).
Proof.
  intros HsX Hf Harg. pose proof (sys_fcntl_name X d HsX Hf) as HX. unfold limit_refuses.
  rewrite (fd_scan_other mask fd X d) by (done || (apply not_in_groups; set_solver)).
  rewrite (bool_decide_eq_true_2 (sys_fcntl = _)) by done.
  rewrite (bool_decide_eq_false_2 (sys "ioctl" = _)).
  2:{ intros Hi. rewrite (sys_name X _ d HsX Hi) in HX. revert HX.
      by apply (bool_decide_unpack (_ ∉ _)). }
  by rewrite Harg, Z.eqb_refl, !andb_false_r, !andb_true_r.
Qed.

End Limit.

(** * Properties *)

(** C15. Limiting one descriptor works end to end: after the rights were
    registered and a mode entered, a call of one of the seven groups on that
    descriptor is permitted if and only if the group's right is held, an ioctl if
    and only if CAP_IOCTL is held or the command is one of the safe ones, an
    fcntl if and only if CAP_FCNTL is held or the command is one of the four
    flag commands. *)
Theorem single_limit_enforced `{AbiOk} `{KernelOk} `{LandlockHeader} `{BpfMachine}
    fd mask mode e w1 w2 d X :
  sandbox_disabled = false ->
  run_api (RightsLimit fd mask) (initial e) = Ret 0 w1 ->
  run_api (Enter mode) w1 = Ret 0 w2 ->
  arch32 d = CU_AUDIT_ARCH -> sys X = Some (nr32 d) ->
  (forall names rt argn, (names, rt, argn) ∈ limit_groups -> X ∈ names ->
     arg32 d argn = u32 fd -> (permitted w2 d <-> mask .& rt <> 0)) /\
  (X = "ioctl" -> arg32 d 0 = u32 fd ->
     (permitted w2 d <-> mask .& CAP_IOCTL <> 0 \/ listed (arg32 d 1) safe_ioctls = true)) /\
  (sys_fcntl = Some (nr32 d) -> arg32 d 0 = u32 fd ->
     (permitted w2 d <-> mask .& CAP_FCNTL <> 0 \/ listed (arg32 d 1) safe_fcntls = true)).
Proof.
  intros Hdis Hlim Hent Harch HX.
  assert (X ∈ ["ioctl"; "fcntl"; "fcntl64"] ++ group_names ->
    permitted w2 d <-> limit_refuses mask fd d = false) as Hv.
  { intros HXin. eapply entry_verdict; try done. by apply group_calls_not_denied. }
  split_and!.
  - intros names rt argn Hg HXn Harg. rewrite Hv.
    + rewrite (group_refusal mask fd names rt argn X) by done. apply Z.eqb_neq.
    + apply elem_of_app. right. apply list_elem_of_In, in_flat_map.
      exists (names, rt, argn). by rewrite <- !list_elem_of_In.
  - intros -> Harg. rewrite Hv by set_solver. rewrite ioctl_refusal by done.
    by rewrite andb_false_iff, Z.eqb_neq, negb_false_iff.
  - intros Hf Harg. pose proof (sys_fcntl_name X d HX Hf).
    rewrite Hv by set_solver. rewrite (fcntl_refusal mask fd X) by done.
    by rewrite andb_false_iff, Z.eqb_neq, negb_false_iff.
Qed.

(** Standard input limited to reading: lseek is refused. *)
Lemma single_limit_enforced_witness :
  exists w1 w2,
    @run_api x86_64 good_kernel full_header (RightsLimit 0 CAP_READ) (initial 0) = Ret 0 w1 /\
    @run_api x86_64 good_kernel full_header (Enter MODE_FULL) w1 = Ret 0 w2 /\
    (permitted w2 (SeccompData 8 0xC000003E 0 (fun _ => 0)) <-> CAP_READ .& CAP_SEEK <> 0).
Proof.
  destruct (@run_api x86_64 good_kernel full_header (RightsLimit 0 CAP_READ) (initial 0))
    as [r1 w1|] eqn:E1; [|vm_compute in E1; discriminate].
  assert (r1 = 0) as -> by (vm_compute in E1; by injection E1).
  destruct (@run_api x86_64 good_kernel full_header (Enter MODE_FULL) w1)
    as [r2 w2|] eqn:E2; [|vm_compute in E1; injection E1 as <-; vm_compute in E2; discriminate].
  assert (r2 = 0) as -> by (vm_compute in E1; injection E1 as <-; vm_compute in E2; by injection E2).
  exists w1, w2. split; [reflexivity|]. split; [exact E2|].
  destruct (@single_limit_enforced x86_64 x86_64_ok good_kernel good_kernel_ok full_header
    bpf_interp 0 CAP_READ MODE_FULL 0 w1 w2 (SeccompData 8 0xC000003E 0 (fun _ => 0)) "lseek")
    as [Hg _]; [..|apply (Hg seek_syscalls CAP_SEEK 0%nat)].
  - reflexivity.
  - exact E1.
  - exact E2.
  - reflexivity.
  - reflexivity.
  - right. right. left.
  - left.
  - reflexivity.
Defined.

(** C26. A limit made before entering and one made after it do the same: when one
    descriptor is limited and a mode entered, in either order and both succeeding,
    the filters in force permit the same calls, on every descriptor and of every
    architecture, the ioctl and fcntl commands included. *)
Theorem limit_before_is_limit_after `{AbiOk} `{KernelOk} `{LandlockHeader} `{BpfMachine}
    fd mask mode e e' w1 w2 v1 v2 d :
  sandbox_disabled = false ->
  run_api (RightsLimit fd mask) (initial e) = Ret 0 w1 -> run_api (Enter mode) w1 = Ret 0 w2 ->
  run_api (Enter mode) (initial e') = Ret 0 v1 -> run_api (RightsLimit fd mask) v1 = Ret 0 v2 ->
  permitted w2 d <-> permitted v2 d.
Proof.
  intros Hdis R1 R2 R3 R4.
  destruct (enter_filters mode (initial e') v1 (initial_ok e') Hdis eq_refl R3) as (Hst & p & Hp & Hf).
  assert (sandbox_entered (st v1) = true) as Hent by (by rewrite Hst).
  destruct (entered_limit fd mask v1 v2 Hdis Hent R4) as [Hlk Hf2].
  pose proof (no_lookup_registered fd mask e w1 Hdis Hlk R1) as Hnil.
  assert (permitted v2 d <-> filter_result p d = Some ret_allow /\
    Forall (fun q => filter_result q d = Some ret_allow) (now_progs fd mask)) as ->.
  { unfold permitted. rewrite Hf2, Hf. change (filters (initial e')) with (@nil bpf_prog). unfold flush_programs, registry_ents, arg1_progs, arg1_lims.
    cbn [initial st fd_limits flat_map chunks omap list_omap map app]. destruct (sys "ioctl"), sys_fcntl; cbn [app]; by rewrite Forall_cons. }
  destruct (decide (arch32 d = CU_AUDIT_ARCH)) as [Harch|Harch].
  - destruct (registered_verdict fd mask mode e w1 w2 d Hdis R1 R2 Harch) as (p' & Hp' & ->).
    rewrite Hnil in Hp'. cbn [initial st lookup_fds] in Hp. rewrite Hp in Hp'. injection Hp' as <-.
    pose proof (now_refusals fd mask d Harch) as Href. unfold refusals in Href. split; intros [? ?]; (split; [done|by apply Href]).
  - assert (forall p0 fds, namespace_filter mode fds [] = Some p0 -> (length fds <= 8)%nat -> filter_result p0 d <> Some ret_allow) as Hkill.
    { intros p0 fds Hp0 Hl. destruct (namespace_filter_exact mode fds Hl) as (p' & Hp' & Hr). simplify_eq.
      destruct (Hr d) as [Hk _]. by rewrite (Hk Harch). }
    split; [intros Hperm|intros [Hperm _]; by destruct (Hkill p _ Hp ltac:(simpl; lia))].
    assert (shim_ok (st w1)) as Hok1 by (eapply call_evolves; [apply (initial_ok e)|exact R1]).
    destruct (register_first fd mask e w1 Hdis R1) as (L & _ & _ & _ & Hne & _).
    destruct (enter_filters mode w1 w2 Hok1 Hdis Hne R2) as (_ & q & Hq & Hfq).
    unfold permitted in Hperm. rewrite Hfq, Forall_app, Forall_cons in Hperm. destruct Hperm as (_ & Hq' & _).
    by destruct (Hkill q _ Hq ltac:(apply Hok1)).
Qed.

(** Standard input limited to reading, in both orders: lseek. *)
Lemma limit_before_is_limit_after_witness :
  exists w1 w2 v1 v2,
    @run_api x86_64 good_kernel full_header (RightsLimit 0 CAP_READ) (initial 0) = Ret 0 w1 /\
    @run_api x86_64 good_kernel full_header (Enter MODE_FULL) w1 = Ret 0 w2 /\
    @run_api x86_64 good_kernel full_header (Enter MODE_FULL) (initial 0) = Ret 0 v1 /\
    @run_api x86_64 good_kernel full_header (RightsLimit 0 CAP_READ) v1 = Ret 0 v2 /\
    (permitted w2 (SeccompData 8 0xC000003E 0 (fun _ => 0)) <-> permitted v2 (SeccompData 8 0xC000003E 0 (fun _ => 0))).
Proof.
  destruct (@run_api x86_64 good_kernel full_header (RightsLimit 0 CAP_READ) (initial 0))
    as [r1 w1|] eqn:E1; [|vm_compute in E1; discriminate].
  assert (r1 = 0) as -> by (vm_compute in E1; by injection E1).
  destruct (@run_api x86_64 good_kernel full_header (Enter MODE_FULL) w1)
    as [r2 w2|] eqn:E2; [|vm_compute in E1; injection E1 as <-; vm_compute in E2; discriminate].
  assert (r2 = 0) as -> by (vm_compute in E1; injection E1 as <-; vm_compute in E2; by injection E2).
  destruct (@run_api x86_64 good_kernel full_header (Enter MODE_FULL) (initial 0))
    as [r3 v1|] eqn:E3; [|vm_compute in E3; discriminate].
  assert (r3 = 0) as -> by (vm_compute in E3; by injection E3).
  destruct (@run_api x86_64 good_kernel full_header (RightsLimit 0 CAP_READ) v1)
    as [r4 v2|] eqn:E4; [|vm_compute in E3; injection E3 as <-; vm_compute in E4; discriminate].
  assert (r4 = 0) as -> by (vm_compute in E3; injection E3 as <-; vm_compute in E4; by injection E4).
  exists w1, w2, v1, v2. split; [reflexivity|]. split; [exact E2|]. split; [reflexivity|]. split; [exact E4|].
  apply (@limit_before_is_limit_after x86_64 x86_64_ok good_kernel good_kernel_ok full_header
    bpf_interp 0 CAP_READ MODE_FULL 0 0 w1 w2 v1 v2).
  - reflexivity.
  - exact E1.
  - exact E2.
  - exact E3.
  - exact E4.
Defined.
