(* ===== verification/Ctype.v ===== *)
(** Characters: codes, the <ctype.h> classes of the C locale, and C strings as
    lists of byte values. *)

From S2P Require Import Prelude.

(** The code of the first character of a literal, and of all of them. *)
Definition acode (a : Ascii.ascii) : Z := Z.of_N (Ascii.N_of_ascii a).
Fixpoint codes (s : string) : list Z :=
  match s with EmptyString => [] | String a s => acode a :: codes s end.
Definition chr (s : string) : Z := match s with String a _ => acode a | EmptyString => 0 end.

Definition isdigit (c : Z) : bool := (48 <=? c) && (c <=? 57).
Definition isupper (c : Z) : bool := (65 <=? c) && (c <=? 90).
Definition islower (c : Z) : bool := (97 <=? c) && (c <=? 122).
Definition isalpha (c : Z) : bool := isupper c || islower c.
Definition isalnum (c : Z) : bool := isalpha c || isdigit c.
Definition isxdigit (c : Z) : bool :=
  isdigit c || ((65 <=? c) && (c <=? 70)) || ((97 <=? c) && (c <=? 102)).
Definition isspace (c : Z) : bool := (c =? 32) || ((9 <=? c) && (c <=? 13)).
Definition isgraph (c : Z) : bool := (33 <=? c) && (c <=? 126).
Definition iscntrl (c : Z) : bool := ((0 <=? c) && (c <=? 31)) || (c =? 127).
Definition tolower (c : Z) : Z := if isupper c then c + 32 else c.
Definition toupper (c : Z) : Z := if islower c then c - 32 else c.

(** A byte, and a C string: bytes other than NUL. *)
Definition is_byte (c : Z) : Prop := 0 <= c < 256.
Definition is_char (c : Z) : Prop := 0 < c < 256.
Definition s8 (c : Z) : Z := sext 8 c.

(** All bytes, for checks by evaluation. *)
Definition all_bytes : list Z := map Z.of_nat (seq 0 256).

Lemma all_bytes_elem c : is_byte c -> c ∈ all_bytes.
Proof.
  intros Hc. apply list_elem_of_fmap. exists (Z.to_nat c). split; [rewrite Z2Nat.id; [done|apply Hc]|].
  apply elem_of_seq. unfold is_byte in Hc. lia.
Qed.

(** A property of bytes follows from its check on all of them. *)
Lemma forall_bytes (P : Z -> bool) : forallb P all_bytes = true ->
  forall c, is_byte c -> P c = true.
Proof.
  intros HP c Hc. rewrite forallb_forall in HP. apply HP, list_elem_of_In. by apply all_bytes_elem.
Qed.

(** The same for a range of small integers. *)
Definition range (n : nat) : list Z := map Z.of_nat (seq 0 n).

Lemma range_elem n x : 0 <= x < Z.of_nat n -> x ∈ range n.
Proof.
  intros Hx. apply list_elem_of_fmap. exists (Z.to_nat x). split; [lia|]. apply elem_of_seq. lia.
Qed.

Lemma forall_range n (P : Z -> bool) : forallb P (range n) = true ->
  forall x, 0 <= x < Z.of_nat n -> P x = true.
Proof.
  intros HP x Hx. rewrite forallb_forall in HP. apply HP, list_elem_of_In. by apply range_elem.
Qed.

Lemma forall_range2 n m (P : Z -> Z -> bool) :
  forallb (fun x => forallb (P x) (range m)) (range n) = true ->
  forall x y, 0 <= x < Z.of_nat n -> 0 <= y < Z.of_nat m -> P x y = true.
Proof.
  intros HP x y Hx Hy. pose proof (forall_range n _ HP x Hx) as H. cbv beta in H.
  by apply (forall_range m (P x)).
Qed.

Lemma u8_byte c : is_byte c -> u8 c = c.
Proof. intros Hc. apply u8_small. exact Hc. Qed.

Lemma u8_s8 c : is_byte c -> u8 (s8 c) = c.
Proof.
  intros Hc. assert (forallb (fun c => u8 (s8 c) =? c) all_bytes = true) as Hall by (by vm_compute).
  apply Z.eqb_eq. exact (forall_bytes _ Hall c Hc).
Qed.
