(* ===== verification/Unvis.v ===== *)
(** unvis(3): decoding visually encoded strings (src.freebsd/compat/unvis.c).

    [unvis] is the character-driven state machine, on the caller's [*cp] (a byte)
    and [*astate] (a 32-bit word: the state in the low byte, an index into the
    entity name in the high one).  [strnunvisx] drives it over a C string and
    stores into a buffer; every access to the entity table and every store is
    checked, and the theorems show that no check ever fails.  [udecode] is the
    specification, decoding as a function on lists. *)

From S2P Require Import Prelude Ctype.

(** * Constants *)

Definition S_GROUND : Z := 0.
Definition S_START : Z := 1.
Definition S_META : Z := 2.
Definition S_META1 : Z := 3.
Definition S_CTRL : Z := 4.
Definition S_OCTAL2 : Z := 5.
Definition S_OCTAL3 : Z := 6.
Definition S_HEX : Z := 7.
Definition S_HEX1 : Z := 8.
Definition S_HEX2 : Z := 9.
Definition S_MIME1 : Z := 10.
Definition S_MIME2 : Z := 11.
Definition S_EATCRNL : Z := 12.
Definition S_AMP : Z := 13.
Definition S_NUMBER : Z := 14.
Definition S_STRING : Z := 15.

Definition UNVIS_VALID : Z := 1.
Definition UNVIS_VALIDPUSH : Z := 2.
Definition UNVIS_NOCHAR : Z := 3.
Definition UNVIS_SYNBAD : Z := -1.

Definition VIS_HTTP1808 : Z := 0x0080.
Definition VIS_MIMESTYLE : Z := 0x0200.
Definition VIS_HTTP1866 : Z := 0x0400.
Definition VIS_NOESCAPE : Z := 0x0800.
Definition UNVIS_END : Z := 0x1000.

Definition ENOSPC : Z := 28.
Definition EINVAL : Z := 22.

Definition isoctal (c : Z) : bool := (48 <=? u8 c) && (u8 c <=? 55).
Definition xtod (c : Z) : Z := if isdigit c then c - 48 else (tolower c - 97) + 10.
Definition XTOD (c : Z) : Z := if isdigit c then c - 48 else (c - 65) + 10.

(** The entity table of RFC 1866. *)
Definition nv : list (string * Z) := [
  ("AElig", 198); ("Aacute", 193); ("Acirc", 194); ("Agrave", 192); ("Aring", 197);
  ("Atilde", 195); ("Auml", 196); ("Ccedil", 199); ("ETH", 208); ("Eacute", 201);
  ("Ecirc", 202); ("Egrave", 200); ("Euml", 203); ("Iacute", 205); ("Icirc", 206);
  ("Igrave", 204); ("Iuml", 207); ("Ntilde", 209); ("Oacute", 211); ("Ocirc", 212);
  ("Ograve", 210); ("Oslash", 216); ("Otilde", 213); ("Ouml", 214); ("THORN", 222);
  ("Uacute", 218); ("Ucirc", 219); ("Ugrave", 217); ("Uuml", 220); ("Yacute", 221);
  ("aacute", 225); ("acirc", 226); ("acute", 180); ("aelig", 230); ("agrave", 224);
  ("amp", 38); ("aring", 229); ("atilde", 227); ("auml", 228); ("brvbar", 166);
  ("ccedil", 231); ("cedil", 184); ("cent", 162); ("copy", 169); ("curren", 164);
  ("deg", 176); ("divide", 247); ("eacute", 233); ("ecirc", 234); ("egrave", 232);
  ("eth", 240); ("euml", 235); ("frac12", 189); ("frac14", 188); ("frac34", 190);
  ("gt", 62); ("iacute", 237); ("icirc", 238); ("iexcl", 161); ("igrave", 236);
  ("iquest", 191); ("iuml", 239); ("laquo", 171); ("lt", 60); ("macr", 175);
  ("micro", 181); ("middot", 183); ("nbsp", 160); ("not", 172); ("ntilde", 241);
  ("oacute", 243); ("ocirc", 244); ("ograve", 242); ("ordf", 170); ("ordm", 186);
  ("oslash", 248); ("otilde", 245); ("ouml", 246); ("para", 182); ("plusmn", 177);
  ("pound", 163); ("quot", 34); ("raquo", 187); ("reg", 174); ("sect", 167); ("shy", 173);
  ("sup1", 185); ("sup2", 178); ("sup3", 179); ("szlig", 223); ("thorn", 254);
  ("times", 215); ("uacute", 250); ("ucirc", 251); ("ugrave", 249); ("uml", 168);
  ("uuml", 252); ("yacute", 253); ("yen", 165); ("yuml", 255)].

(** [nv[ia].name[ix]]: the names are arrays of 7 characters, padded with NUL;
    [None] is an access outside the table or the name. *)
Definition nv_name (ia ix : Z) : option Z :=
  if ix <? 7 then
    e ← nv !! Z.to_nat ia;
    Some (match String.get (Z.to_nat ix) (fst e) with Some a => acode a | None => 0 end)
  else None.

(** * The state machine *)

Definition GS (a : Z) : Z := a .& 0xff.
Definition SS (a b : Z) : Z := u32 (u32 a .<< 24) .| b.
Definition GI (a : Z) : Z := u32 a .>> 24.

(** The result: the return value with the new [*cp] and [*astate], or an access
    outside the entity table. *)
Inductive ures := URet (ret cp astate : Z) | UOutOfBounds.

Definition bad (cp : Z) : ures := URet UNVIS_SYNBAD cp (SS 0 S_GROUND).
Definition valid (cp : Z) : ures := URet UNVIS_VALID cp (SS 0 S_GROUND).

(** The scan of the table from [ia]: [rest] entries are left. *)
Fixpoint nv_scan (rest : nat) (ia ix lc uc : Z) : option (option Z) :=
  match rest with
  | O => Some None
  | S rest =>
    prev ← (if ix =? 0 then Some lc else nv_name ia (ix - 1));
    if negb (ix =? 0) && negb (prev =? lc) then Some None
    else
      here ← nv_name ia ix;
      if here =? uc then Some (Some ia) else nv_scan rest (ia + 1) ix lc uc
  end.

(** [case S_STRING] *)
Definition unvis_string (cp uc astate : Z) : ures :=
  let ia := cp in
  let ix := GI astate in
  match (if ix =? 0 then Some 0 else nv_name ia (ix - 1)) with
  | None => UOutOfBounds
  | Some lc =>
    let uc := if uc =? chr ";" then 0 else uc in
    match nv_scan (length nv - Z.to_nat ia) ia ix lc uc with
    | None => UOutOfBounds
    | Some None => bad cp
    | Some (Some ia) =>
      if negb (uc =? 0) then URet UNVIS_NOCHAR ia (SS (ix + 1) S_STRING)
      else match nv !! Z.to_nat ia with
           | Some e => valid (snd e)
           | None => UOutOfBounds
           end
    end
  end.

(** [case S_START] *)
Definition unvis_start (cp c : Z) : ures :=
  if c =? chr "\" then valid (u8 c)
  else if (48 <=? c) && (c <=? 55) then URet UNVIS_NOCHAR (u8 (c - 48)) (SS 0 S_OCTAL2)
  else if c =? chr "M" then URet UNVIS_NOCHAR 128 (SS 0 S_META)
  else if c =? chr "^" then URet UNVIS_NOCHAR cp (SS 0 S_CTRL)
  else if c =? chr "n" then valid 10
  else if c =? chr "r" then valid 13
  else if c =? chr "b" then valid 8
  else if c =? chr "a" then valid 7
  else if c =? chr "v" then valid 11
  else if c =? chr "t" then valid 9
  else if c =? chr "f" then valid 12
  else if c =? chr "s" then valid 32
  else if c =? chr "E" then valid 27
  else if c =? chr "x" then URet UNVIS_NOCHAR cp (SS 0 S_HEX)
  else if c =? 10 then URet UNVIS_NOCHAR cp (SS 0 S_GROUND)
  else if c =? chr "$" then URet UNVIS_NOCHAR cp (SS 0 S_GROUND)
  else if isgraph c then valid (u8 c)
  else bad cp.

(** [case S_GROUND] *)
Definition unvis_ground (c astate flag : Z) : ures :=
  if negb (tst flag VIS_NOESCAPE) && (c =? chr "\") then URet UNVIS_NOCHAR 0 (SS 0 S_START)
  else if tst flag VIS_HTTP1808 && (c =? chr "%") then URet UNVIS_NOCHAR 0 (SS 0 S_HEX1)
  else if tst flag VIS_HTTP1866 && (c =? chr "&") then URet UNVIS_NOCHAR 0 (SS 0 S_AMP)
  else if tst flag VIS_MIMESTYLE && (c =? chr "=") then URet UNVIS_NOCHAR 0 (SS 0 S_MIME1)
  else URet UNVIS_VALID (u8 c) astate.

(** [case S_HEX1], which [case S_HEX] falls into. *)
Definition unvis_hex1 (cp uc : Z) : ures :=
  if isxdigit uc then URet UNVIS_NOCHAR (u8 (xtod uc)) (SS 0 S_HEX2)
  else URet UNVIS_VALIDPUSH cp (SS 0 S_GROUND).

Definition mime_digit (uc : Z) : bool := isxdigit uc && (isdigit uc || isupper uc).

(** [if (flag & UNVIS_END)] *)
Definition unvis_end (cp astate : Z) : ures :=
  let st := GS astate in
  if (st =? S_OCTAL2) || (st =? S_OCTAL3) || (st =? S_HEX2) then valid cp
  else if st =? S_GROUND then URet UNVIS_NOCHAR cp astate
  else URet UNVIS_SYNBAD cp astate.

Definition unvis (cp c astate flag : Z) : ures :=
  let uc := u8 c in
  let st := GS astate in
  if tst flag UNVIS_END then unvis_end cp astate
  else if st =? S_GROUND then unvis_ground c astate flag
  else if st =? S_START then unvis_start cp c
  else if st =? S_META then
    if c =? chr "-" then URet UNVIS_NOCHAR cp (SS 0 S_META1)
    else if c =? chr "^" then URet UNVIS_NOCHAR cp (SS 0 S_CTRL)
    else bad cp
  else if st =? S_META1 then valid (u8 (cp .| c))
  else if st =? S_CTRL then
    if c =? chr "?" then valid (u8 (cp .| 127)) else valid (u8 (cp .| (c .& 31)))
  else if st =? S_OCTAL2 then
    if isoctal uc then URet UNVIS_NOCHAR (u8 ((cp .<< 3) + (c - 48))) (SS 0 S_OCTAL3)
    else URet UNVIS_VALIDPUSH cp (SS 0 S_GROUND)
  else if st =? S_OCTAL3 then
    if isoctal uc then valid (u8 ((cp .<< 3) + (c - 48)))
    else URet UNVIS_VALIDPUSH cp (SS 0 S_GROUND)
  else if st =? S_HEX then if isxdigit uc then unvis_hex1 cp uc else bad cp
  else if st =? S_HEX1 then unvis_hex1 cp uc
  else if st =? S_HEX2 then
    if isxdigit uc then URet UNVIS_VALID (u8 (xtod uc .| (cp .<< 4))) S_GROUND
    else URet UNVIS_VALIDPUSH cp S_GROUND
  else if st =? S_MIME1 then
    if (uc =? 10) || (uc =? 13) then URet UNVIS_NOCHAR cp (SS 0 S_EATCRNL)
    else if mime_digit uc then URet UNVIS_NOCHAR (u8 (XTOD uc)) (SS 0 S_MIME2)
    else bad cp
  else if st =? S_MIME2 then
    if mime_digit uc then valid (u8 (XTOD uc .| (cp .<< 4))) else bad cp
  else if st =? S_EATCRNL then
    if (uc =? 13) || (uc =? 10) then URet UNVIS_NOCHAR cp astate
    else if uc =? chr "=" then URet UNVIS_NOCHAR cp (SS 0 S_MIME1)
    else valid uc
  else if st =? S_AMP then
    if uc =? chr "#" then URet UNVIS_NOCHAR 0 (SS 0 S_NUMBER)
    else unvis_string 0 uc (SS 0 S_STRING)
  else if st =? S_STRING then unvis_string cp uc astate
  else if st =? S_NUMBER then
    if uc =? chr ";" then URet UNVIS_VALID cp astate
    else if negb (isdigit uc) then bad cp
    else if 255 - (uc - 48) <? cp * 10 then bad cp
    else URet UNVIS_NOCHAR (u8 (cp * 10 + uc - 48)) astate
  else bad cp.

(** * The driver *)

Inductive sres :=
| SRet (ret err : Z) (buf : list Z)   (* [err]: [errno] when [ret] is -1 *)
| SFault                              (* access out of bounds *)
| SLoop.                              (* the pushed-back character again *)

Record dec := Dec { d_t : Z; d_state : Z; d_pos : nat; d_dlen : Z; d_buf : list Z }.

(** [CHECKSPACE(); *dst++ = t;] then [k]. *)
Definition put (d : dec) (t state : Z) (k : dec -> sres) : sres :=
  if d_dlen d =? 0 then SRet (-1) ENOSPC (d_buf d)
  else match awrite (d_buf d) (d_pos d) t with
       | Some buf => k (Dec t state (S (d_pos d)) (d_dlen d - 1) buf)
       | None => SFault
       end.

(** One character; [fuel] bounds the jumps to [again]. *)
Fixpoint dec_char (fuel : nat) (flag c : Z) (d : dec) (k : dec -> sres) : sres :=
  match fuel with
  | O => SLoop
  | S fuel =>
    match unvis (d_t d) c (d_state d) flag with
    | UOutOfBounds => SFault
    | URet r t s =>
      if r =? UNVIS_VALID then put d t s k
      else if r =? UNVIS_VALIDPUSH then put d t s (fun d => dec_char fuel flag c d k)
      else if r =? UNVIS_NOCHAR then k (Dec t s (d_pos d) (d_dlen d) (d_buf d))
      else SRet (-1) EINVAL (d_buf d)
    end
  end.

(** After the loop: the flush and the terminating NUL. *)
Definition dec_finish (d : dec) : sres :=
  let terminate d := put d 0 (d_state d) (fun d' => SRet (s32 (Z.of_nat (d_pos d))) 0 (d_buf d')) in
  match unvis (d_t d) 0 (d_state d) UNVIS_END with
  | UOutOfBounds => SFault
  | URet r t s =>
    if r =? UNVIS_VALID then put d t s terminate
    else terminate (Dec t s (d_pos d) (d_dlen d) (d_buf d))
  end.

Fixpoint dec_loop (flag : Z) (src : list Z) (d : dec) : sres :=
  match src with
  | [] => dec_finish d
  | c :: src => dec_char 2 flag (s8 c) d (dec_loop flag src)
  end.

(** [src] is the C string without its NUL, [buf] the memory at [dst]. *)
Definition strnunvisx (buf : list Z) (dlen : Z) (src : list Z) (flag : Z) : sres :=
  dec_loop flag src (Dec 0 0 0 dlen buf).

Definition SIZE_MAX : Z := 2 ^ 64 - 1.
Definition strunvisx (buf src : list Z) (flag : Z) : sres := strnunvisx buf SIZE_MAX src flag.
Definition strunvis (buf src : list Z) : sres := strnunvisx buf SIZE_MAX src 0.
Definition strnunvis (buf : list Z) (dlen : Z) (src : list Z) : sres := strnunvisx buf dlen src 0.

(** * Specification *)

(** The effect of one character: what it emits, with the state afterwards. *)
Definition ustep (flag c t s : Z) : option (list Z * Z * Z) :=
  match unvis t c s flag with
  | UOutOfBounds => None
  | URet r t1 s1 =>
    if r =? UNVIS_VALID then Some ([t1], t1, s1)
    else if r =? UNVIS_VALIDPUSH then
      match unvis t1 c s1 flag with
      | UOutOfBounds => None
      | URet r2 t2 s2 =>
        if r2 =? UNVIS_VALID then Some ([t1; t2], t2, s2)
        else if r2 =? UNVIS_NOCHAR then Some ([t1], t2, s2) else None
      end
    else if r =? UNVIS_NOCHAR then Some ([], t1, s1) else None
  end.

(** What the flush at the end emits. *)
Definition uflush (t s : Z) : list Z :=
  match unvis t 0 s UNVIS_END with
  | URet r t _ => if r =? UNVIS_VALID then [t] else []
  | UOutOfBounds => []
  end.

(** The characters decoded, and whether the end was reached without a syntax
    error. *)
Fixpoint udec (flag : Z) (src : list Z) (t s : Z) : list Z * bool :=
  match src with
  | [] => (uflush t s, true)
  | c :: src =>
    match ustep flag (s8 c) t s with
    | Some (o, t, s) => let '(out, ok) := udec flag src t s in (o ++ out, ok)
    | None => ([], false)
    end
  end.

Definition udecode (flag : Z) (src : list Z) : option (list Z) :=
  let '(out, ok) := udec flag src 0 0 in if ok then Some out else None.

(** * The entity table *)

Lemma nv_size : length nv = 100%nat.
Proof. reflexivity. Qed.

Definition ix_range : list Z := range 7.
Definition ia_range : list Z := range 100.

Lemma nv_value_byte ia e : nv !! ia = Some e -> is_byte (snd e).
Proof.
  intros He%list_elem_of_lookup_2.
  assert (Forall (fun e => is_byte (snd e)) nv) as Hall.
  { unfold is_byte. apply (bool_decide_unpack _). vm_compute. exact I. }
  rewrite Forall_forall in Hall. by apply Hall.
Qed.

(** Every access in range succeeds, and a name has at most six characters. *)
Lemma nv_name_some ia ix : 0 <= ia < 100 -> 0 <= ix < 7 -> exists x, nv_name ia ix = Some x.
Proof.
  intros Hia Hix. unfold nv_name. rewrite (proj2 (Z.ltb_lt ix 7)) by lia.
  destruct (nv !! Z.to_nat ia) as [e|] eqn:E; [by eexists|].
  apply lookup_ge_None in E. rewrite nv_size in E. lia.
Qed.

Lemma nv_name_short ia ix x : 0 <= ia < 100 -> 0 <= ix < 7 -> nv_name ia ix = Some x -> x <> 0 ->
  ix < 6.
Proof.
  intros Hia Hix Hx Hne.
  assert (Forall (fun ia => nv_name ia 6 = Some 0) ia_range) as Hall.
  { apply (bool_decide_unpack _). vm_compute. exact I. }
  rewrite Forall_forall in Hall. destruct (decide (ix = 6)) as [->|]; [|lia].
  rewrite Hall in Hx by (by apply (range_elem 100)). congruence.
Qed.

Lemma nv_scan_spec rest : forall ia ix lc uc, 0 <= ia -> ia + Z.of_nat rest = 100 -> 0 <= ix < 7 ->
  exists r, nv_scan rest ia ix lc uc = Some r /\
    forall ia', r = Some ia' -> ia <= ia' < 100 /\ nv_name ia' ix = Some uc.
Proof.
  induction rest as [|rest IH]; intros ia ix lc uc Hia Hr Hix; cbn [nv_scan].
  { exists None. by split. }
  destruct (nv_name_some ia ix) as (here & Hh); [lia|done|].
  assert (exists prev, (if ix =? 0 then Some lc else nv_name ia (ix - 1)) = Some prev) as (prev & ->).
  { destruct (Z.eqb_spec ix 0); [by eexists|]. apply nv_name_some; lia. }
  cbn [mbind option_bind]. destruct (_ && _); [exists None; by split|].
  rewrite Hh. cbn [mbind option_bind]. destruct (Z.eqb_spec here uc) as [->|].
  - exists (Some ia). split; [done|]. intros ia' [= <-]. split; [lia|done].
  - destruct (IH (ia + 1) ix lc uc) as (r & -> & Hspec); [lia|lia|done|].
    exists r. split; [done|]. intros ia' Hia'. destruct (Hspec ia' Hia') as [? ?]. split; [lia|done].
Qed.

(** * Reachable states *)

(** The state word is one of the 15 plain states, or it is inside an entity name
    of which [k] characters have matched the entry [t]. *)
Definition in_name (t s : Z) : Prop :=
  exists k x, 1 <= k <= 6 /\ s = SS k S_STRING /\ 0 <= t < 100 /\
    nv_name t (k - 1) = Some x /\ x <> 0.
Definition good (t s : Z) : Prop := is_byte t /\ (0 <= s <= 14 \/ in_name t s).

Lemma SS_string k : 0 <= k <= 6 ->
  GS (SS k S_STRING) = S_STRING /\ GI (SS k S_STRING) = k.
Proof.
  intros Hk. assert (k ∈ ix_range) as Hin by (apply (range_elem 7); lia).
  assert (Forall (fun k => GS (SS k S_STRING) = S_STRING /\ GI (SS k S_STRING) = k) ix_range) as Hall.
  { apply (bool_decide_unpack _). vm_compute. exact I. }
  rewrite Forall_forall in Hall. by apply Hall.
Qed.

Lemma GS_plain s : 0 <= s <= 14 -> GS s = s.
Proof.
  intros Hs. unfold GS. change 0xff with (Z.ones 8). rewrite Z.land_ones by lia.
  apply Z.mod_small. lia.
Qed.

(** The outcome of one step from a good state. *)
Definition step_ok (s0 : Z) (r : ures) : Prop :=
  exists ret t s, r = URet ret t s /\ good t s /\
    (ret = UNVIS_VALID /\ (s = S_GROUND \/ s = s0) \/ ret = UNVIS_VALIDPUSH /\ s = S_GROUND \/ ret = UNVIS_NOCHAR \/
     ret = UNVIS_SYNBAD).

Lemma ground_range : 0 <= S_GROUND <= 14.
Proof. unfold S_GROUND. lia. Qed.
Lemma step_valid s0 t : is_byte t -> step_ok s0 (valid t).
Proof.
  intros Ht. do 3 eexists. split; [done|]. split; [|by left; split; [|left]].
  split; [done|left; apply ground_range].
Qed.
Lemma step_bad s0 t : is_byte t -> step_ok s0 (bad t).
Proof.
  intros Ht. do 3 eexists. split; [done|]. split; [|by do 3 right].
  split; [done|left; apply ground_range].
Qed.
Lemma step_nochar s0 t s : is_byte t -> 0 <= s <= 14 -> step_ok s0 (URet UNVIS_NOCHAR t s).
Proof. intros Ht Hs. do 3 eexists. split; [done|]. split; [|by do 2 right; left]. split; [done|by left]. Qed.
Lemma step_push s0 t : is_byte t -> step_ok s0 (URet UNVIS_VALIDPUSH t S_GROUND).
Proof.
  intros Ht. do 3 eexists. split; [done|]. split; [|right; left; done].
  split; [done|left; apply ground_range].
Qed.
Lemma step_char t s : is_byte t -> 0 <= s <= 14 -> step_ok s (URet UNVIS_VALID t s).
Proof.
  intros Ht Hs. do 3 eexists. split; [done|]. split; [|by left; split; [|right]].
  split; [done|by left].
Qed.

Lemma u8_is_byte z : is_byte (u8 z).
Proof. apply u8_range. Qed.

Lemma step_string s0 t s c : is_byte t -> (s = SS 0 S_STRING /\ t = 0 \/ in_name t s) ->
  step_ok s0 (unvis_string t (u8 c) s).
Proof.
  intros Ht Hs.
  assert (exists k, 0 <= k <= 6 /\ s = SS k S_STRING /\ 0 <= t < 100) as (k & Hk & -> & Ht100).
  { destruct Hs as [[-> ->]|(k & x & Hk & -> & Hx & _)]; [exists 0|exists k]; split_and!; lia || done. }
  unfold unvis_string. destruct (SS_string k Hk) as [_ ->].
  assert (exists lc, (if k =? 0 then Some 0 else nv_name t (k - 1)) = Some lc) as (lc & ->).
  { destruct (Z.eqb_spec k 0); [by eexists|]. apply nv_name_some; lia. }
  set (uc := if u8 c =? chr ";" then 0 else u8 c).
  destruct (nv_scan_spec (length nv - Z.to_nat t) t k lc uc) as (r & -> & Hr);
    [lia|rewrite nv_size; lia|lia|].
  destruct r as [ia|]; [|by apply step_bad]. destruct (Hr ia eq_refl) as [Hia Hname].
  destruct (Z.eqb_spec uc 0) as [Hz|Hz]; cbn [negb].
  - destruct (nv !! Z.to_nat ia) as [e|] eqn:E.
    + apply step_valid. by eapply nv_value_byte.
    + apply lookup_ge_None in E. rewrite nv_size in E. lia.
  - pose proof (nv_name_short ia k uc ltac:(lia) ltac:(lia) Hname Hz).
    do 3 eexists. split; [done|]. split; [|by do 2 right; left]. split; [unfold is_byte; lia|].
    right. exists (k + 1), uc. replace (k + 1 - 1) with k by lia. split_and!; lia || done.
Qed.

(** Every step from a good state stays inside the table and ends in one. *)
Lemma unvis_step t c s flag : good t s -> step_ok s (unvis t c s flag).
Proof.
  intros [Ht Hs]. unfold unvis. pose proof (u8_is_byte c) as Hc.
  destruct (tst flag UNVIS_END).
  { unfold unvis_end. destruct (_ || _); [by apply step_valid|]. destruct (_ =? _).
    - do 3 eexists. split; [done|]. split; [by split|]. by do 2 right; left.
    - do 3 eexists. split; [done|]. split; [by split|]. by do 3 right. }
  destruct Hs as [Hs|Hname].
  2:{ pose proof Hname as (k & x & Hk & -> & _). destruct (SS_string k ltac:(lia)) as [-> _].
      cbn -[unvis_string]. apply step_string; [done|by right]. }
  rewrite (GS_plain s Hs).
  unfold unvis_ground, unvis_start, unvis_hex1.
  repeat match goal with
  | |- step_ok _ (if ?b then _ else _) => destruct b eqn:?
  end.
  all: try solve [apply step_valid; apply u8_is_byte || (vm_compute; split; congruence) || done].
  all: try solve [apply step_bad; done].
  all: try solve [apply step_nochar; [apply u8_is_byte || done || (vm_compute; split; congruence)|
                    done || (vm_compute; split; congruence)]].
  all: try solve [apply step_valid; apply u8_is_byte].
  all: try solve [apply step_char; [apply u8_is_byte || done|done || (vm_compute; split; congruence)]].
  all: try solve [apply step_push; done].
  - apply step_string; [vm_compute; split; congruence|by left].
  - zbool. unfold S_STRING in *. lia.
Qed.

(** ** One character, with its push-back *)

(** A ground state never pushes back, so [again] is taken at most once. *)
Lemma ground_step t c flag : unvis t c S_GROUND flag =
  if tst flag UNVIS_END then URet UNVIS_NOCHAR t S_GROUND else unvis_ground c S_GROUND flag.
Proof. unfold unvis. destruct (tst _ _); done. Qed.

Lemma ground_step_kind c flag : exists r t s, unvis_ground c S_GROUND flag = URet r t s /\
  (r = UNVIS_VALID \/ r = UNVIS_NOCHAR).
Proof.
  unfold unvis_ground.
  repeat match goal with |- context [if ?b then _ else _] => destruct b end;
    do 3 eexists; split; try done; auto.
Qed.

(** What a step emits is paid for by its character and the pending one. *)
Definition pending (s : Z) : nat := if s =? S_GROUND then 0 else 1.

Definition step_result (t s : Z) (r : option (list Z * Z * Z)) : Prop :=
  match r with
  | None => True
  | Some (o, t', s') => good t' s' /\ Forall is_byte o /\ (length o + pending s' <= 1 + pending s)%nat
  end.

Lemma pending_le s : (pending s <= 1)%nat.
Proof. unfold pending. destruct (_ =? _); lia. Qed.

Lemma ustep_good flag c t s : tst flag UNVIS_END = false -> good t s -> step_result t s (ustep flag c t s).
Proof.
  intros Hend Hg. unfold ustep, step_result.
  destruct (unvis_step t c s flag Hg) as (r & t1 & s1 & E & Hg1 & Hr). rewrite E.
  pose proof (pending_le s1). pose proof (pending_le s). destruct Hg1 as [Ht1 Hs1].
  destruct Hr as [[-> Hs]|[[-> ->]|[->| ->]]]; cbn -[pending unvis good]; try done.
  - split_and!; [by split|by rewrite ?Forall_cons, Forall_nil|]. destruct Hs as [->| ->]; [|lia].
    change (pending S_GROUND) with 0%nat. lia.
  - assert (pending s = 1%nat) as Hp.
    { unfold pending. destruct (Z.eqb_spec s S_GROUND) as [->|]; [|done].
      rewrite ground_step, Hend in E. destruct (ground_step_kind c flag) as (r & t' & s' & E' & Hr').
      rewrite E in E'. injection E' as <- _ _. by destruct Hr'. }
    assert (good t1 S_GROUND) as Hg1 by (by split).
    destruct (unvis_step t1 c S_GROUND flag Hg1) as (r2 & t2 & s2 & E2 & [Ht2 Hs2] & Hr2).
    pose proof (pending_le s2). rewrite E2.
    destruct Hr2 as [[-> Hs]|[[-> ->]|[->| ->]]]; cbn -[pending unvis good]; try done.
    + split_and!; [by split|by rewrite ?Forall_cons, Forall_nil|]. replace s2 with S_GROUND by (by destruct Hs).
      rewrite Hp. change (pending S_GROUND) with 0%nat. lia.
    + split_and!; [by split|by rewrite ?Forall_cons, Forall_nil|]. lia.
  - split_and!; [by split|constructor|]. lia.
Qed.

Lemma uflush_good t s : good t s -> Forall is_byte (uflush t s) /\ (length (uflush t s) <= pending s)%nat.
Proof.
  intros [Ht Hs]. unfold uflush, unvis. change (tst UNVIS_END UNVIS_END) with true. cbn [negb].
  unfold unvis_end. destruct (_ || _) eqn:E; simpl.
  - split; [by rewrite ?Forall_cons, Forall_nil|]. unfold pending. destruct (Z.eqb_spec s S_GROUND) as [->|]; [done|lia].
  - destruct (_ =? S_GROUND); simpl; split; try constructor; lia.
Qed.

(** Decoding never produces more characters than it reads. *)
Lemma udec_length flag src : tst flag UNVIS_END = false -> forall t s, good t s ->
  Forall is_byte (fst (udec flag src t s)) /\
  (length (fst (udec flag src t s)) <= length src + pending s)%nat.
Proof.
  intros Hend. induction src as [|c src IH]; intros t s Hg; cbn [udec].
  { by apply uflush_good. }
  pose proof (ustep_good flag (s8 c) t s Hend Hg) as Hstep. unfold step_result in Hstep.
  destruct (ustep flag (s8 c) t s) as [[[o t'] s']|]; [|simpl; split; [constructor|lia]].
  destruct Hstep as (Hg' & Ho & Hl). specialize (IH t' s' Hg').
  destruct (udec flag src t' s') as [out ok]. simpl in *. rewrite length_app.
  split; [apply Forall_app; split; [done|apply IH]|]. destruct IH as [_ IH]. lia.
Qed.

(** * The driver refines the specification *)

Definition dec_at (pre rest : list Z) (t s n : Z) : dec := Dec t s (length pre) n (pre ++ rest).

(** Storing [out] and then the NUL behind [pre], with room for [n] characters. *)
Fixpoint store (pre rest : list Z) (n : Z) (out : list Z) (k : list Z -> list Z -> Z -> sres) : sres :=
  match out with
  | [] => k pre rest n
  | t :: out =>
    if n =? 0 then SRet (-1) ENOSPC (pre ++ rest)
    else store (pre ++ [t]) (tail rest) (n - 1) out k
  end.

Definition store_end (ok : bool) (pre rest : list Z) (n : Z) : sres :=
  if ok then
    if n =? 0 then SRet (-1) ENOSPC (pre ++ rest)
    else SRet (s32 (Z.of_nat (length pre))) 0 (pre ++ 0 :: tail rest)
  else SRet (-1) EINVAL (pre ++ rest).

(** Room: the buffer has [n] more cells, or enough for all that is left. *)
Definition room (rest : list Z) (n : Z) (more : nat) : Prop :=
  0 <= n /\ (n <= Z.of_nat (length rest) \/ (more <= length rest)%nat).

Lemma put_at pre rest t0 s0 n t s k more : room rest n (S more) ->
  put (dec_at pre rest t0 s0 n) t s k =
    if n =? 0 then SRet (-1) ENOSPC (pre ++ rest)
    else k (dec_at (pre ++ [t]) (tail rest) t s (n - 1)).
Proof.
  intros [Hn Hroom]. unfold put, dec_at. cbn [d_dlen d_buf d_pos].
  destruct (Z.eqb_spec n 0) as [|Hne]; [done|].
  destruct rest as [|x rest]; [simpl in *; lia|].
  rewrite awrite_app_cons. cbn [tail]. rewrite length_app, <- app_assoc. simpl.
  by rewrite Nat.add_1_r.
Qed.

Lemma room_tail rest n more : room rest n (S more) -> n <> 0 -> room (tail rest) (n - 1) more.
Proof. intros [Hn Hroom] Hne. split; [lia|]. destruct rest; simpl in *; lia. Qed.

Lemma room_le rest n m1 m2 : room rest n m1 -> (m2 <= m1)%nat -> room rest n m2.
Proof. intros [Hn Hroom] Hle. split; [done|]. lia. Qed.

Lemma store_app out1 : forall pre rest n out2 k,
  store pre rest n (out1 ++ out2) k = store pre rest n out1 (fun pre rest n => store pre rest n out2 k).
Proof.
  induction out1 as [|t out1 IH]; intros pre rest n out2 k; cbn [store app]; [done|].
  destruct (n =? 0); [done|]. apply IH.
Qed.

Lemma dec_finish_at pre rest t s n : good t s -> room rest n (S (length (uflush t s))) ->
  dec_finish (dec_at pre rest t s n) = store pre rest n (uflush t s) (store_end true).
Proof.
  intros Hg Hroom. unfold dec_finish, uflush in *. cbn [d_t d_state dec_at].
  assert (forall pre rest t s n, room rest n 1 ->
    put (dec_at pre rest t s n) 0 (d_state (dec_at pre rest t s n))
      (fun d' => SRet (s32 (Z.of_nat (d_pos (dec_at pre rest t s n)))) 0 (d_buf d')) =
    store_end true pre rest n) as Hterm.
  { intros pre1 rest1 t1 s1 n1 Hr1. rewrite (put_at _ _ _ _ _ _ _ _ 0) by done.
    unfold store_end. destruct (n1 =? 0); [done|]. simpl. by rewrite <- app_assoc. }
  destruct (unvis_step t 0 s UNVIS_END Hg) as (r & t' & s' & E & _ & _). rewrite E in *.
  destruct (r =? UNVIS_VALID).
  - cbn [length] in Hroom. rewrite (put_at _ _ _ _ _ _ _ _ 1) by done. cbn [store].
    destruct (Z.eqb_spec n 0) as [|Hn]; [done|]. apply Hterm. by apply room_tail.
  - cbn [store]. apply (Hterm pre rest t' s' n). done.
Qed.

Lemma dec_char_at flag c pre rest t s n k : tst flag UNVIS_END = false -> good t s ->
  room rest n (S (match ustep flag c t s with Some (o, _, _) => length o | None => 0 end)) ->
  dec_char 2 flag c (dec_at pre rest t s n) k =
    match ustep flag c t s with
    | Some (o, t', s') => store pre rest n o (fun pre rest n => k (dec_at pre rest t' s' n))
    | None => SRet (-1) EINVAL (pre ++ rest)
    end.
Proof.
  intros Hend Hg Hroom. unfold ustep in *. cbn [dec_char d_t d_state dec_at] in *.
  destruct (unvis_step t c s flag Hg) as (r & t1 & s1 & E & Hg1 & Hr). rewrite E in *.
  destruct Hr as [[-> Hs]|[[-> ->]|[->| ->]]]; cbn -[unvis good put store length] in *; try done.
  - rewrite (put_at _ _ _ _ _ _ _ _ 1) by done. cbn [store]. by destruct (n =? 0).
  - assert (exists r2 t2 s2, unvis t1 c S_GROUND flag = URet r2 t2 s2 /\
      (r2 = UNVIS_VALID \/ r2 = UNVIS_NOCHAR)) as (r2 & t2 & s2 & E2 & Hr2).
    { rewrite ground_step, Hend. apply ground_step_kind. }
    rewrite E2 in *. destruct Hr2 as [->| ->]; cbn -[unvis good put store length] in *.
    + rewrite (put_at _ _ _ _ _ _ _ _ 2) by done. cbn [store].
      destruct (Z.eqb_spec n 0) as [|Hn]; [done|]. cbn [d_t d_state dec_at]. rewrite E2.
      cbn -[unvis good put store]. rewrite (put_at _ _ _ _ _ _ _ _ 1) by (by apply room_tail).
      by destruct (n - 1 =? 0).
    + rewrite (put_at _ _ _ _ _ _ _ _ 1) by done. cbn [store].
      destruct (Z.eqb_spec n 0) as [|Hn]; [done|]. cbn [d_t d_state dec_at]. by rewrite E2.
Qed.

(** Storing does not look at what follows when the room runs out. *)
Lemma store_ext out : forall pre rest n k1 k2 more,
  room rest n (length out + more) ->
  (forall pre rest n, room rest n more -> k1 pre rest n = k2 pre rest n) ->
  store pre rest n out k1 = store pre rest n out k2.
Proof.
  induction out as [|t out IH]; intros pre rest n k1 k2 more Hroom Hk; cbn [store]; [by apply Hk|].
  destruct (Z.eqb_spec n 0) as [|Hn]; [done|]. eapply IH; [|exact Hk]. by apply room_tail.
Qed.

Lemma dec_loop_at flag src : tst flag UNVIS_END = false -> forall pre rest t s n,
  good t s -> room rest n (S (length (fst (udec flag src t s)))) ->
  dec_loop flag src (dec_at pre rest t s n) =
    store pre rest n (fst (udec flag src t s)) (store_end (snd (udec flag src t s))).
Proof.
  intros Hend. induction src as [|c src IH]; intros pre rest t s n Hg Hroom.
  { by apply dec_finish_at. }
  cbn [dec_loop udec] in *. pose proof (ustep_good flag (s8 c) t s Hend Hg) as Hstep.
  rewrite dec_char_at; [|done|done|].
  2:{ eapply room_le; [exact Hroom|]. destruct (ustep _ _ _ _) as [[[o t'] s']|]; [|simpl; lia].
      destruct (udec _ _ _ _). simpl. rewrite length_app. lia. }
  destruct (ustep flag (s8 c) t s) as [[[o t'] s']|]; [|done].
  destruct Hstep as (Hg' & _ & _). specialize (fun pre rest n => IH pre rest t' s' n Hg').
  destruct (udec flag src t' s') as [out ok]. cbn [fst snd] in *. rewrite store_app.
  apply (store_ext _ _ _ _ _ _ (S (length out))).
  - eapply room_le; [exact Hroom|]. rewrite length_app. lia.
  - intros pre' rest' n' Hr'. by apply IH.
Qed.

(** [store] in closed form: what is in the buffer at the end. *)
Definition over (out buf : list Z) : list Z := out ++ drop (length out) buf.

Lemma store_closed out ok : forall pre rest n, room rest n (S (length out)) ->
  store pre rest n out (store_end ok) =
    if (n <? Z.of_nat (length out)) || (ok && (n =? Z.of_nat (length out)))
    then SRet (-1) ENOSPC (pre ++ over (take (Z.to_nat n) out) rest)
    else if ok then SRet (s32 (Z.of_nat (length (pre ++ out)))) 0 (pre ++ over (out ++ [0]) rest)
    else SRet (-1) EINVAL (pre ++ over out rest).
Proof.
  induction out as [|t out IH]; intros pre rest n [Hn Hroom].
  - cbn [store store_end length over take app]. unfold store_end. rewrite app_nil_r, take_nil, drop_0.
    change (Z.of_nat 0) with 0. rewrite (proj2 (Z.ltb_ge n 0)) by lia. cbn [orb].
    destruct ok; [|done]. cbn [andb]. destruct (n =? 0); [done|].
    by destruct rest.
  - cbn [store]. destruct (Z.eqb_spec n 0) as [->|Hne].
    { rewrite (proj2 (Z.ltb_lt 0 _)) by (simpl; lia). done. }
    rewrite IH by (by apply room_tail). rewrite <- !app_assoc. cbn [app length].
    replace (Z.to_nat n) with (S (Z.to_nat (n - 1))) by lia.
    assert (forall l, over (t :: l) rest = t :: over l (tail rest)) as Hover.
    { intros l. unfold over. cbn [app length]. destruct rest; simpl; by rewrite ?drop_nil. }
    cbn [take]. rewrite !Hover.
    replace (n - 1 <? Z.of_nat (length out)) with (n <? Z.of_nat (S (length out)))
      by (apply eq_true_iff_eq; rewrite !Z.ltb_lt; lia).
    replace (n - 1 =? Z.of_nat (length out)) with (n =? Z.of_nat (S (length out)))
      by (apply eq_true_iff_eq; rewrite !Z.eqb_eq; lia).
    done.
Qed.

Lemma good_start : good 0 0.
Proof. split; [unfold is_byte|left]; lia. Qed.

(** The driver in closed form. *)
Lemma strnunvisx_closed buf dlen src flag :
  tst flag UNVIS_END = false -> 0 <= dlen ->
  (dlen <= Z.of_nat (length buf) \/ (length src < length buf)%nat) ->
  strnunvisx buf dlen src flag =
    let '(out, ok) := udec flag src 0 0 in
    if (dlen <? Z.of_nat (length out)) || (ok && (dlen =? Z.of_nat (length out)))
    then SRet (-1) ENOSPC (over (take (Z.to_nat dlen) out) buf)
    else if ok then SRet (s32 (Z.of_nat (length out))) 0 (over (out ++ [0]) buf)
    else SRet (-1) EINVAL (over out buf).
Proof.
  intros Hend Hd Hbuf. unfold strnunvisx.
  pose proof (udec_length flag src Hend 0 0 good_start) as [_ Hl].
  change (pending 0) with 0%nat in Hl.
  assert (room buf dlen (S (length (fst (udec flag src 0 0))))) as Hroom by (split; [done|lia]).
  pose proof (dec_loop_at flag src Hend [] buf 0 0 dlen good_start Hroom) as Hloop.
  change (dec_at [] buf 0 0 dlen) with (Dec 0 0 0 dlen buf) in Hloop. rewrite Hloop.
  destruct (udec flag src 0 0) as [out ok]. cbn [fst snd] in *. by apply store_closed.
Qed.

(** ** Decoding a prefix *)

Fixpoint urun (flag : Z) (src : list Z) (t s : Z) : option (list Z * Z * Z) :=
  match src with
  | [] => Some ([], t, s)
  | c :: src =>
    match ustep flag (s8 c) t s with
    | Some (o, t, s) =>
      match urun flag src t s with
      | Some (out, t, s) => Some (o ++ out, t, s)
      | None => None
      end
    | None => None
    end
  end.

Lemma udec_app flag src rest : forall t s out t' s', urun flag src t s = Some (out, t', s') ->
  udec flag (src ++ rest) t s =
    (out ++ fst (udec flag rest t' s'), snd (udec flag rest t' s')).
Proof.
  induction src as [|c src IH]; intros t s out t' s' Hrun; cbn [urun udec app] in *.
  { simplify_eq. by destruct (udec flag rest t' s'). }
  destruct (ustep flag (s8 c) t s) as [[[o t1] s1]|]; [|done].
  destruct (urun flag src t1 s1) as [[[out1 t2] s2]|] eqn:E; [|done]. simplify_eq.
  rewrite (IH t1 s1 out1 t' s' E). by rewrite app_assoc.
Qed.

(** * Properties *)

(** C31. [strnunvisx] never reads outside the entity table, never writes outside
    the buffer and never gets stuck on a pushed-back character, whatever the
    input; it returns the decoding of the source with its length and a final NUL,
    or -1 with EINVAL on a syntax error, or -1 with ENOSPC exactly when the
    decoded characters (with the NUL) do not fit [dlen], after storing those that
    do. *)
Theorem strnunvisx_decodes buf dlen src flag :
  tst flag UNVIS_END = false -> 0 <= dlen <= Z.of_nat (length buf) ->
  let '(out, ok) := udec flag src 0 0 in
  strnunvisx buf dlen src flag =
    (if (dlen <? Z.of_nat (length out)) || (ok && (dlen =? Z.of_nat (length out)))
     then SRet (-1) ENOSPC (over (take (Z.to_nat dlen) out) buf)
     else if ok then SRet (s32 (Z.of_nat (length out))) 0 (over (out ++ [0]) buf)
     else SRet (-1) EINVAL (over out buf)) /\
  Forall is_byte out /\ (length out <= length src)%nat.
Proof.
  intros Hend Hd. pose proof (strnunvisx_closed buf dlen src flag Hend) as Hc.
  pose proof (udec_length flag src Hend 0 0 good_start) as [Hb Hl].
  change (pending 0) with 0%nat in Hl.
  destruct (udec flag src 0 0) as [out ok]. cbn [fst snd] in *.
  split; [apply Hc; lia|]. split; [done|lia].
Qed.

Lemma strnunvisx_decodes_witness :
  strnunvisx [1; 2; 3; 4] 3 (codes "a\101") 0 = SRet 2 0 [97; 65; 0; 4].
Proof.
  exact (proj1 (strnunvisx_decodes [1; 2; 3; 4] 3 (codes "a\101") 0 eq_refl
    ltac:(simpl; lia))).
Defined.

(** [strunvis], which is given no size, needs a buffer one longer than the
    encoded string and never more: it then returns the decoding or -1 with
    EINVAL. *)
Theorem strunvis_fits buf src :
  (length src < length buf)%nat -> Z.of_nat (length src) < SIZE_MAX ->
  strunvis buf src =
    match udecode 0 src with
    | Some out => SRet (s32 (Z.of_nat (length out))) 0 (over (out ++ [0]) buf)
    | None => SRet (-1) EINVAL (over (fst (udec 0 src 0 0)) buf)
    end.
Proof.
  intros Hbuf Hmax. unfold strunvis, udecode.
  rewrite (strnunvisx_closed buf SIZE_MAX src 0 eq_refl) by (unfold SIZE_MAX in *; lia).
  pose proof (udec_length 0 src eq_refl 0 0 good_start) as [_ Hl].
  change (pending 0) with 0%nat in Hl. destruct (udec 0 src 0 0) as [out ok]. cbn [fst] in *.
  rewrite (proj2 (Z.ltb_ge _ _)) by lia. rewrite (proj2 (Z.eqb_neq _ _)) by lia.
  rewrite andb_false_r. by destruct ok.
Qed.

Lemma strunvis_fits_witness : strunvis [9; 9; 9; 9; 9] (codes "\^A") = SRet 1 0 [1; 0; 9; 9; 9].
Proof. rewrite (strunvis_fits [9; 9; 9; 9; 9] (codes "\^A")); [reflexivity|simpl; lia|reflexivity]. Defined.

(** Every named entity of RFC 1866 decodes to its character, followed by
    whatever the rest of the string decodes to. *)
Theorem entity_decodes name value rest :
  (name, value) ∈ nv ->
  udec VIS_HTTP1866 (codes "&" ++ codes name ++ codes ";" ++ rest) 0 0 =
    (value :: fst (udec VIS_HTTP1866 rest value 0), snd (udec VIS_HTTP1866 rest value 0)).
Proof.
  intros Hin.
  assert (Forall (fun e => urun VIS_HTTP1866 (codes "&" ++ codes (fst e) ++ codes ";") 0 0 =
    Some ([snd e], snd e, 0)) nv) as Hall.
  { apply (bool_decide_unpack _). vm_compute. exact I. }
  rewrite Forall_forall in Hall. specialize (Hall _ Hin). cbn [fst snd] in Hall.
  rewrite (app_assoc (codes name)), (app_assoc (codes "&")).
  by apply (udec_app _ _ rest _ _ [value]).
Qed.

Lemma entity_decodes_witness :
  fst (udec VIS_HTTP1866 (codes "&" ++ codes "szlig" ++ codes ";" ++ codes "x") 0 0) = [223; 120].
Proof.
  rewrite (entity_decodes "szlig" 223).
  - reflexivity.
  - apply (bool_decide_unpack (("szlig", 223) ∈ nv)). vm_compute. exact I.
Defined.

(** Entity names are only compared by their last character once an entry is
    picked, so names that are in no table entry decode too, and the state of a
    numeric entity is not reset at its semicolon, so that text behind one is
    refused. *)
Theorem entity_confusions :
  ~ (exists value, ("rect", value) ∈ nv) /\
  udecode VIS_HTTP1866 (codes "&rect;") = udecode VIS_HTTP1866 (codes "&sect;") /\
  udecode VIS_HTTP1866 (codes "&#65;") = Some [65] /\
  udecode VIS_HTTP1866 (codes "&#65;X") = None /\
  udecode VIS_HTTP1866 (codes "&#6;5;") = Some [6; 65].
Proof.
  split_and!; try (vm_compute; reflexivity).
  intros (value & Hin). assert ("rect" ∈ nv.*1) as Hin'.
  { apply list_elem_of_fmap. by exists ("rect", value). }
  revert Hin'. apply (bool_decide_unpack ("rect" ∉ nv.*1)). vm_compute. exact I.
Qed.
