(* ===== verification/Vis.v ===== *)
(** vis(3): visually encoding strings (src.freebsd/compat/vis.c).

    [do_mbyte], [do_svis], [do_hvis] and [do_mvis] return the wide characters the
    C functions store behind [dst]; [istrsenvisx] is the whole conversion: the
    multibyte input loop, the encoding into a buffer of 16 wide characters for
    each input byte, and the output loop into the caller's buffer.  The locale's
    functions are a parameter ([Locale]), allocation failures an argument. *)

From S2P Require Import Prelude Ctype Unvis.

Definition VIS_OCTAL : Z := 0x0001.
Definition VIS_CSTYLE : Z := 0x0002.
Definition VIS_SP : Z := 0x0004.
Definition VIS_TAB : Z := 0x0008.
Definition VIS_NL : Z := 0x0010.
Definition VIS_SAFE : Z := 0x0020.
Definition VIS_NOSLASH : Z := 0x0040.
Definition VIS_HTTPSTYLE : Z := 0x0080.
Definition VIS_GLOB : Z := 0x0100.
Definition VIS_SHELL : Z := 0x2000.
Definition VIS_NOLOCALE : Z := 0x4000.
Definition VIS_DQ : Z := 0x8000.
Definition ENOMEM : Z := 12.

(** The locale: classes of wide characters, and the stateful conversions.
    [mbrtowc] yields a length (0 for NUL, negative for an error) and a wide
    character; [wcrtomb] the bytes of a wide character, [None] for an error;
    [mbsrtowcs] all wide characters, or where the first that is invalid is. *)
Class Locale := {
  iswgraph : Z -> bool;
  iswalnum : Z -> bool;
  iswspace : Z -> bool;
  iswcntrl : Z -> bool;
  MB_LEN_MAX : nat;
  MB_CUR_MAX : Z;
  mbstate : Type;
  mbstate0 : mbstate;
  mbrtowc : mbstate -> list Z -> Z * Z * mbstate;
  wcrtomb : mbstate -> Z -> option (list Z) * mbstate;
  mbsrtowcs : list Z -> nat + list Z
}.

Definition char_shell : list Z :=
  codes "'`" ++ [34] ++ codes ";&<>()|{}]\$!^~".
Definition char_glob : list Z := codes "*?[#".

(** [wcschr(s, c)] finds the terminating NUL as well. *)
Definition wcschr (s : list Z) (c : Z) : bool := (c =? 0) || existsb (Z.eqb c) s.

Definition iswoctal (c : Z) : bool := (48 <=? u8 c) && (u8 c <=? 55).
Definition iswwhite (c : Z) : bool := (c =? 32) || (c =? 9) || (c =? 10).
Definition iswsafe (c : Z) : bool := (c =? 8) || (c =? 7) || (c =? 13).
Definition xtoa (c : Z) : Z := nth (Z.to_nat c) (codes "0123456789abcdef") 0.
Definition XTOA (c : Z) : Z := nth (Z.to_nat c) (codes "0123456789ABCDEF") 0.

Section Vis.
Context {LOC : Locale}.

Definition ISGRAPH (flags c : Z) : bool :=
  if tst flags VIS_NOLOCALE then isgraph c else iswgraph c.

(** The [switch] under [VIS_CSTYLE]; [None] when it falls out. *)
Definition cstyle (c flags nextc : Z) : option (list Z) :=
  let bs := chr "\" in
  if c =? 10 then Some [bs; chr "n"]
  else if c =? 13 then Some [bs; chr "r"]
  else if c =? 8 then Some [bs; chr "b"]
  else if c =? 7 then Some [bs; chr "a"]
  else if c =? 11 then Some [bs; chr "v"]
  else if c =? 9 then Some [bs; chr "t"]
  else if c =? 12 then Some [bs; chr "f"]
  else if c =? 32 then Some [bs; chr "s"]
  else if c =? 0 then
    Some ([bs; chr "0"] ++ (if iswoctal nextc then [chr "0"; chr "0"] else []))
  else if existsb (Z.eqb c) (codes "nrbavtfs0M^$") then None
  else if ISGRAPH flags c && negb (iswoctal c) then Some [bs; c]
  else None.

Definition do_mbyte (c flags nextc : Z) (iswextra : bool) : list Z :=
  match (if tst flags VIS_CSTYLE then cstyle c flags nextc else None) with
  | Some w => w
  | None =>
    if iswextra || (c .& 127 =? 32) || tst flags VIS_OCTAL then
      [chr "\"; ((u8 c .>> 6) .& 3) + 48; ((u8 c .>> 3) .& 7) + 48; (c .& 7) + 48]
    else
      (if tst flags VIS_NOSLASH then [] else [chr "\"]) ++
      (if tst c 128 then [chr "M"] else []) ++
      let c := if tst c 128 then c .& 127 else c in
      if iswcntrl c then [chr "^"; if c =? 127 then chr "?" else c + 64]
      else [chr "-"; c]
  end.

(** The loop over the bytes of [c], from byte [i - 1] down. *)
Fixpoint svis_bytes (i : nat) (wmsk c flags nextc : Z) (iswextra : bool) : list Z :=
  match i with
  | O => []
  | S i =>
    let shft := 8 * Z.of_nat i in
    let bmsk := 0xff .<< shft in
    let wmsk := wmsk .| bmsk in
    (if tst c wmsk || (i =? 0)%nat
     then do_mbyte ((c .& bmsk) .>> shft) flags nextc iswextra else []) ++
    svis_bytes i wmsk c flags nextc iswextra
  end.

Definition do_svis (c flags nextc : Z) (extra : list Z) : list Z :=
  let iswextra := wcschr extra c in
  if negb iswextra && (ISGRAPH flags c || iswwhite c || (tst flags VIS_SAFE && iswsafe c))
  then [c]
  else svis_bytes 8 0 c flags nextc iswextra.

Definition http_safe (c : Z) : bool := iswalnum c || existsb (Z.eqb c) (codes "$-_.+!*'(),").

Definition do_hvis (c flags nextc : Z) (extra : list Z) : list Z :=
  if http_safe c then do_svis c flags nextc extra
  else [chr "%"; xtoa ((c .>> 4) .& 0xf); xtoa (c .& 0xf)].

Definition mime_escape (c nextc : Z) : bool :=
  negb (c =? 10) &&
  ((iswspace c && ((nextc =? 13) || (nextc =? 10))) ||
   (negb (iswspace c) && ((c <? 33) || ((60 <? c) && (c <? 62)) || (126 <? c))) ||
   wcschr (codes "#$@[\]^`{|}~") c).

Definition do_mvis (c flags nextc : Z) (extra : list Z) : list Z :=
  if mime_escape c nextc then [chr "="; XTOA ((c .>> 4) .& 0xf); XTOA (c .& 0xf)]
  else do_svis c flags nextc extra.

Definition getvisfun (flags : Z) : Z -> Z -> Z -> list Z -> list Z :=
  if tst flags VIS_HTTPSTYLE then do_hvis
  else if tst flags VIS_MIMESTYLE then do_mvis
  else do_svis.

(** What the flags add to the list. *)
Definition more_extras (flags : Z) : list Z :=
  (if tst flags VIS_GLOB then char_glob else []) ++
  (if tst flags VIS_SHELL then char_shell else []) ++
  (if tst flags VIS_SP then [32] else []) ++
  (if tst flags VIS_TAB then [9] else []) ++
  (if tst flags VIS_NL then [10] else []) ++
  (if tst flags VIS_DQ then [34] else []) ++
  (if tst flags VIS_NOSLASH then [] else [chr "\"]).

(** [src]: the bytes of the C string.  When [mbsrtowcs] fails it has advanced [src] to
    the invalid character, and the bytes are taken from there: [None] is a read behind
    the string. *)
Definition makeextralist (flags : Z) (src : list Z) : option (list Z) :=
  match (if tst flags VIS_NOLOCALE then inl 0%nat else mbsrtowcs src) with
  | inl O => Some (map u8 src ++ more_extras flags)
  | inl (S _) => None
  | inr w => Some (w ++ more_extras flags)
  end.

(** * The conversion *)

Inductive vres :=
| VRet (olen : Z) (buf : list Z)     (* the length returned, the memory at [*mbdstp] *)
| VErr (err : Z)                     (* -1 with [errno] *)
| VNoMem                             (* an allocation failed: -1 *)
| VEmpty (buf : list Z)              (* no extra list: the empty string and 0 *)
| VFault                             (* store out of bounds *)
| VAssert.                           (* a failed assertion *)

(** The input loop on the [n] bytes left; the wide characters and [cerr]. *)
Fixpoint in_loop (fuel : nat) (n : nat) (cerr : bool) (ps : mbstate) (mbsrc : list Z)
    : option (list Z * bool) :=
  match fuel, n with
  | _, O => Some ([], cerr)
  | O, _ => None
  | S fuel, S _ =>
    let b := hd 0 mbsrc in
    let '(clen, w, ps) :=
      if cerr then (0, 0, ps) else mbrtowc ps (take (Nat.min n MB_LEN_MAX) mbsrc) in
    let w := if negb cerr && (clen =? 1) && (0xd800 <=? w) && (w <=? 0xdfff) && (u8 b =? u8 w)
             then u8 w else w in
    let '(w, clen, cerr) := if cerr || (clen <? 0) then (u8 b, 1, true) else (w, clen, cerr) in
    let clen := if clen =? 0 then 1 else clen in
    if (0 <? clen) && (clen <=? Z.of_nat n) then
      r ← in_loop fuel (n - Z.to_nat clen) cerr ps (drop (Z.to_nat clen) mbsrc);
      Some (w :: fst r, snd r)
    else None
  end.

(** The main loop: [len] characters of [src], with look-ahead; [calloc] leaves a
    zero behind the last character. *)
Fixpoint enc_loop (len : nat) (f : Z -> Z -> Z -> list Z -> list Z) (flags : Z)
    (extra src : list Z) : list Z :=
  match len, src with
  | S len, c :: src => f c flags (hd 0 src) extra ++ enc_loop len f flags extra src
  | _, _ => []
  end.

(** Store bytes at [pos]. *)
Fixpoint store_bytes (buf : list Z) (pos : nat) (bs : list Z) : option (list Z) :=
  match bs with
  | [] => Some buf
  | b :: bs => buf ← awrite buf pos b; store_bytes buf (S pos) bs
  end.

(** The bytes of a wide character that the byte-wise output stores. *)
Fixpoint out_bytes (i : nat) (wmsk w : Z) : list Z :=
  match i with
  | O => []
  | S i =>
    let shft := 8 * Z.of_nat i in
    let bmsk := 0xff .<< shft in
    let wmsk := wmsk .| bmsk in
    (if tst w wmsk || (i =? 0)%nat then [u8 ((w .& bmsk) .>> shft)] else []) ++
    out_bytes i wmsk w
  end.

(** Byte-wise output with its check before each store. *)
Fixpoint put_bytes (maxolen : Z) (olen : nat) (bs buf : list Z) : vres + (nat * list Z) :=
  match bs with
  | [] => inr (olen, buf)
  | b :: bs =>
    if maxolen <=? Z.of_nat olen + 1 then inl (VErr ENOSPC)
    else match awrite buf olen b with
         | Some buf => put_bytes maxolen (S olen) bs buf
         | None => inl VFault
         end
  end.

Fixpoint out_loop (maxolen : Z) (cerr : bool) (ps : mbstate) (ws : list Z) (olen : nat)
    (buf : list Z) : vres :=
  match ws with
  | [] =>
    if Z.of_nat olen <? maxolen then
      match awrite buf olen 0 with
      | Some buf => VRet (s32 (Z.of_nat olen)) buf
      | None => VFault
      end
    else VAssert
  | w :: ws =>
    let bytewise ps :=
      match put_bytes maxolen olen (out_bytes 8 0 w) buf with
      | inl r => r
      | inr (olen, buf) => out_loop maxolen true ps ws olen buf
      end in
    if cerr then bytewise ps
    else
      match wcrtomb ps w with
      | (None, ps) => bytewise ps
      | (Some bs, ps) =>
        let clen := Z.of_nat (length bs) in
        if negb (MB_CUR_MAX <? maxolen - Z.of_nat olen) && (0 <? clen) &&
           (maxolen <=? Z.of_nat olen + clen) then VErr ENOSPC
        else match store_bytes buf olen bs with
             | Some buf =>
               if Z.of_nat olen + clen <? maxolen
               then out_loop maxolen cerr ps ws (olen + length bs) buf else VAssert
             | None => VFault
             end
      end
  end.

(** Which of the four allocations succeed. *)
Record allocs := Allocs { al_src : bool; al_dst : bool; al_mdst : bool; al_extra : bool }.

Definition until_nul (ws : list Z) : list Z :=
  (fix go ws := match ws with [] => [] | w :: ws => if w =? 0 then [] else w :: go ws end) ws.

(** [mbdst]: the memory at [*mbdstp], [None] for a null pointer; [mbsrc]: the
    memory at [mbsrc]; [cerr0]: [*cerr_ptr] when the caller passes it. *)
Definition istrsenvisx (al : allocs) (mbdst : option (list Z)) (dlen : option Z)
    (mbsrc : list Z) (mblength : nat) (flags : Z) (mbextra : list Z) (cerr0 : option bool) : vres :=
  let mbslength := if (mblength =? 1)%nat then 2%nat else mblength in
  if (SIZE_MAX - 1) / 16 <? Z.of_nat mbslength then VErr ENOMEM
  else if negb (al_src al) then VNoMem
  else if negb (al_dst al) then VNoMem
  else
    match (match mbdst with
           | Some buf => Some buf
           | None => if al_mdst al then Some (replicate (16 * mbslength + 1) 0) else None
           end) with
    | None => VNoMem
    | Some buf =>
      let cerr := if tst flags VIS_NOLOCALE then true else default false cerr0 in
      match in_loop mbslength mbslength cerr mbstate0 mbsrc with
      | None => VAssert
      | Some (src, cerr) =>
        let len := if (mblength <? length src)%nat then mblength else length src in
        if negb (al_extra al) then
          match dlen with
          | Some 0 => VErr ENOSPC
          | _ => match awrite buf 0 0 with Some buf => VEmpty buf | None => VFault end
          end
        else
          match makeextralist flags mbextra with
          | None => VFault
          | Some extra =>
            let ws := enc_loop len (getvisfun flags) flags extra src in
            if (16 * mbslength + 1 <? length ws + 1)%nat then VFault
            else
              let ws := until_nul ws in
              match dlen with
              | Some 0 => VErr ENOSPC
              | Some d => out_loop d cerr mbstate0 ws 0 buf
              | None =>
                if (SIZE_MAX - 1) / Z.of_nat MB_LEN_MAX <? Z.of_nat (length ws) then VErr ENOSPC
                else out_loop (Z.of_nat (length ws) * Z.of_nat MB_LEN_MAX + 1) cerr mbstate0 ws 0 buf
              end
          end
      end
    end.

(** The public functions; a C string is its bytes, [al] the allocations. *)
Definition svis (al : allocs) (buf : list Z) (c flags nextc : Z) (mbextra : list Z) : vres :=
  istrsenvisx al (Some buf) None [u8 c; u8 nextc] 1 flags mbextra None.
Definition snvis (al : allocs) (buf : list Z) (dlen c flags nextc : Z) (mbextra : list Z) : vres :=
  istrsenvisx al (Some buf) (Some dlen) [u8 c; u8 nextc] 1 flags mbextra None.
Definition strsvis (al : allocs) (buf mbsrc : list Z) (flags : Z) (mbextra : list Z) : vres :=
  istrsenvisx al (Some buf) None (mbsrc ++ [0]) (length mbsrc) flags mbextra None.
Definition strsnvis (al : allocs) (buf : list Z) (dlen : Z) (mbsrc : list Z) (flags : Z)
    (mbextra : list Z) : vres :=
  istrsenvisx al (Some buf) (Some dlen) (mbsrc ++ [0]) (length mbsrc) flags mbextra None.
Definition strsvisx (al : allocs) (buf mbsrc : list Z) (len : nat) (flags : Z) (mbextra : list Z) : vres :=
  istrsenvisx al (Some buf) None mbsrc len flags mbextra None.
Definition strsnvisx (al : allocs) (buf : list Z) (dlen : Z) (mbsrc : list Z) (len : nat) (flags : Z)
    (mbextra : list Z) : vres :=
  istrsenvisx al (Some buf) (Some dlen) mbsrc len flags mbextra None.
Definition strsenvisx (al : allocs) (buf : list Z) (dlen : Z) (mbsrc : list Z) (len : nat) (flags : Z)
    (mbextra : list Z) (cerr : bool) : vres :=
  istrsenvisx al (Some buf) (Some dlen) mbsrc len flags mbextra (Some cerr).
Definition vis (al : allocs) (buf : list Z) (c flags nextc : Z) : vres := svis al buf c flags nextc [].
Definition nvis (al : allocs) (buf : list Z) (dlen c flags nextc : Z) : vres :=
  snvis al buf dlen c flags nextc [].
Definition strvis (al : allocs) (buf mbsrc : list Z) (flags : Z) : vres := strsvis al buf mbsrc flags [].
Definition strnvis (al : allocs) (buf : list Z) (dlen : Z) (mbsrc : list Z) (flags : Z) : vres :=
  strsnvis al buf dlen mbsrc flags [].
Definition stravis (al : allocs) (mbsrc : list Z) (flags : Z) : vres :=
  istrsenvisx al None None (mbsrc ++ [0]) (length mbsrc) flags [] None.
Definition strvisx (al : allocs) (buf mbsrc : list Z) (len : nat) (flags : Z) : vres :=
  strsvisx al buf mbsrc len flags [].
Definition strnvisx (al : allocs) (buf : list Z) (dlen : Z) (mbsrc : list Z) (len : nat) (flags : Z) : vres :=
  strsnvisx al buf dlen mbsrc len flags [].
Definition strenvisx (al : allocs) (buf : list Z) (dlen : Z) (mbsrc : list Z) (len : nat) (flags : Z)
    (cerr : bool) : vres :=
  strsenvisx al buf dlen mbsrc len flags [] cerr.

End Vis.

(** * Reducing the encoders to finitely many cases *)

(** The locale agrees with ASCII on the first 128 characters. *)
Class LocaleOk `{Locale} : Prop := {
  iswgraph_ascii : forall c, 0 <= c < 128 -> iswgraph c = isgraph c;
  iswalnum_ascii : forall c, 0 <= c < 128 -> iswalnum c = isalnum c;
  iswspace_ascii : forall c, 0 <= c < 128 -> iswspace c = isspace c;
  iswcntrl_ascii : forall c, 0 <= c < 128 -> iswcntrl c = iscntrl c
}.

(** The C locale: every byte is a character. *)
Definition c_locale : Locale := {|
  iswgraph := isgraph; iswalnum := isalnum; iswspace := isspace; iswcntrl := iscntrl;
  MB_LEN_MAX := 16; MB_CUR_MAX := 1; mbstate := unit; mbstate0 := tt;
  mbrtowc _ bs := match bs with [] => (0, 0, tt) | b :: _ => (if b =? 0 then 0 else 1, b, tt) end;
  wcrtomb _ w := if (0 <=? w) && (w <? 256) then (Some [w], tt) else (None, tt);
  mbsrtowcs bs := inr bs
|}.

Lemma c_locale_ok : @LocaleOk c_locale.
Proof. by constructor. Qed.

Lemma tst_high c m : is_byte c -> m mod 256 = 0 -> tst c m = false.
Proof.
  intros Hc Hm. unfold tst. assert (c .& m = 0) as ->; [|done].
  assert (c = c .& Z.ones 8) as E.
  { rewrite Z.land_ones by lia. symmetry. by apply Z.mod_small. }
  rewrite E, <- Z.land_assoc, (Z.land_comm (Z.ones 8)), Z.land_ones by lia.
  change (2 ^ 8) with 256. by rewrite Hm, Z.land_0_r.
Qed.

Lemma land_byte c : is_byte c -> c .& 255 = c.
Proof. intros Hc. change 255 with (Z.ones 8). rewrite Z.land_ones by lia. by apply Z.mod_small. Qed.

(** For a byte the loop of [do_svis] runs [do_mbyte] once. *)
Lemma svis_bytes_byte `{Locale} c flags nextc x : is_byte c ->
  svis_bytes 8 0 c flags nextc x = do_mbyte c flags nextc x.
Proof.
  intros Hc. cbn [svis_bytes Nat.eqb].
  rewrite !tst_high by (done || (vm_compute; reflexivity)). cbn [orb app].
  rewrite orb_true_r, app_nil_r. change (0xff .<< (8 * Z.of_nat 0)) with 255.
  by rewrite land_byte, Z.shiftr_0_r by done.
Qed.

Section Encoders.
Context {LOC : Locale} `{!LocaleOk}.

(** The bits of [flags] the encoders look at. *)
Definition vis_bits : list Z := [VIS_OCTAL; VIS_CSTYLE; VIS_SAFE; VIS_NOSLASH; VIS_NOLOCALE].
Definition vis_mask : Z := foldr Z.lor 0 vis_bits.

Lemma tst_mask flags b : b ∈ vis_bits -> tst (flags .& vis_mask) b = tst flags b.
Proof.
  intros Hb. unfold tst. rewrite <- Z.land_assoc.
  assert (Forall (fun b => vis_mask .& b = b) vis_bits) as Hall.
  { apply (bool_decide_unpack _). vm_compute. exact I. }
  rewrite Forall_forall in Hall. by rewrite (Hall b Hb).
Qed.

(** A byte's plain encoding depends on the flags only through these bits, on the
    following character only through "is an octal digit", on the extra list only
    through membership and on the locale not at all. *)
Lemma do_svis_canonical c flags nextc extra :
  is_byte c -> tst flags VIS_NOLOCALE = true ->
  do_svis c flags nextc extra =
    @do_svis c_locale c (flags .& vis_mask) (if iswoctal nextc then 48 else 65)
      (if wcschr extra c then [c] else []).
Proof.
  intros Hc Hnl. unfold do_svis. rewrite !svis_bytes_byte by done.
  assert (wcschr (if wcschr extra c then [c] else []) c = wcschr extra c) as ->.
  { unfold wcschr at 1. destruct (wcschr extra c) eqn:E; simpl.
    - by rewrite Z.eqb_refl, orb_true_r.
    - unfold wcschr in E. apply orb_false_iff in E as [-> _]. done. }
  unfold ISGRAPH, do_mbyte, cstyle, ISGRAPH.
  assert (iswoctal (if iswoctal nextc then 48 else 65) = iswoctal nextc) as ->
    by (by destruct (iswoctal nextc)).
  rewrite !(tst_mask flags) by (unfold vis_bits; set_solver). rewrite Hnl.
  assert (forall c', 0 <= c' < 128 -> iswcntrl c' = @iswcntrl c_locale c') as Hcn.
  { intros c' Hc'. by apply iswcntrl_ascii. }
  assert (0 <= (if tst c 128 then c .& 127 else c) < 128) as Hlow.
  { assert (forallb (fun c => let d := if tst c 128 then c .& 127 else c in
      (0 <=? d) && (d <? 128)) all_bytes = true) as Hall by (by vm_compute).
    pose proof (forall_bytes _ Hall c Hc) as Hb. cbv beta zeta in Hb. zbool. lia. }
  by rewrite (Hcn _ Hlow).
Qed.

(** The flags that matter, when the C locale is used and slashes are printed. *)
Definition plain_flags : list Z :=
  a ← [0; VIS_OCTAL]; b ← [0; VIS_CSTYLE]; d ← [0; VIS_SAFE]; [a .| (b .| (d .| VIS_NOLOCALE))].

Lemma masked_flags flags : tst flags VIS_NOLOCALE = true -> tst flags VIS_NOSLASH = false ->
  flags .& vis_mask ∈ plain_flags.
Proof.
  intros Hnl Hns. unfold vis_mask, vis_bits. cbn [foldr]. rewrite !Z.land_lor_distr_r, Z.land_0_r.
  pose proof (land_bit flags 0 ltac:(lia)) as H0. pose proof (land_bit flags 1 ltac:(lia)) as H1.
  pose proof (land_bit flags 5 ltac:(lia)) as H2. pose proof (land_bit flags 6 ltac:(lia)) as H3.
  pose proof (land_bit flags 14 ltac:(lia)) as H4.
  change (2 ^ 0) with VIS_OCTAL in H0. change (2 ^ 1) with VIS_CSTYLE in H1.
  change (2 ^ 5) with VIS_SAFE in H2. change (2 ^ 6) with VIS_NOSLASH in H3.
  change (2 ^ 14) with VIS_NOLOCALE in H4. rewrite H0, H1, H2, H3, H4, Hnl, Hns.
  destruct (tst flags VIS_OCTAL), (tst flags VIS_CSTYLE), (tst flags VIS_SAFE);
    apply (bool_decide_unpack (_ ∈ plain_flags)); vm_compute; exact I.
Qed.

(** The decoder flag that undoes an encoding style. *)
Definition unvis_flag (flags : Z) : Z :=
  if tst flags VIS_HTTPSTYLE then VIS_HTTP1808
  else if tst flags VIS_MIMESTYLE then VIS_MIMESTYLE else 0.

(** What the round trip needs of one encoded character: at most four characters,
    none of them NUL, not starting with an octal digit unless the character is
    one, and decoding to the character, or to a pending NUL when no octal digit
    follows. *)
Definition decodes_to (df nextc c : Z) (e : list Z) : bool :=
  (0 <? length e)%nat && (length e <=? 4)%nat && forallb (fun b => (0 <? b) && (b <? 256)) e &&
  (iswoctal c || negb (isoctal (s8 (hd 0 e)))) &&
  match urun df e 0 0 with
  | Some ([c'], _, s) => (c' =? c) && (s =? S_GROUND)
  | Some ([], t, s) => (c =? 0) && (t =? 0) && (s =? S_OCTAL2) && negb (iswoctal nextc)
  | _ => false
  end.

(** The characters whose plain encoding a decoder undoes: the backslash has to
    be encoded, the style's own escape character too, and under VIS_CSTYLE the
    extra list must not force a backslash before [x] or [E]. *)
Definition decodable (df f c : Z) (x : bool) : bool :=
  (x || negb ((c =? 92) || (c =? 0))) &&
  negb (tst f VIS_CSTYLE && ((c =? chr "x") || (c =? chr "E")) && x) &&
  negb (tst df VIS_HTTP1808 && (c =? chr "%")) && negb (tst df VIS_MIMESTYLE && (c =? chr "=")).

Definition svis_case (df f n c : Z) (x : bool) : bool :=
  negb (decodable df f c x) ||
  decodes_to df n c (@do_svis c_locale c f n (if x then [c] else [])).

Definition all_cases (P : Z -> Z -> Z -> Z -> bool -> bool) : bool :=
  forallb (fun df => forallb (fun f => forallb (fun n => forallb (fun c => forallb (P df f n c)
    [true; false]) all_bytes) [48; 65]) plain_flags) [0; VIS_HTTP1808; VIS_MIMESTYLE].

Lemma all_cases_spec P df f n c x : all_cases P = true ->
  df ∈ [0; VIS_HTTP1808; VIS_MIMESTYLE] -> f ∈ plain_flags -> n ∈ [48; 65] -> is_byte c ->
  P df f n c x = true.
Proof.
  intros Hall Hdf Hf Hn Hc. unfold all_cases in Hall.
  rewrite forallb_forall in Hall. specialize (Hall df ltac:(by apply list_elem_of_In)).
  rewrite forallb_forall in Hall. specialize (Hall f ltac:(by apply list_elem_of_In)).
  rewrite forallb_forall in Hall. specialize (Hall n ltac:(by apply list_elem_of_In)).
  rewrite forallb_forall in Hall.
  specialize (Hall c ltac:(apply list_elem_of_In; by apply all_bytes_elem)).
  rewrite forallb_forall in Hall. apply Hall. destruct x; [by left|by right; left].
Qed.

Lemma svis_cases_ok : all_cases svis_case = true.
Proof. vm_cast_no_check (eq_refl true). Qed.

Lemma decodable_mask df flags c x : decodable df (flags .& vis_mask) c x = decodable df flags c x.
Proof. unfold decodable. by rewrite tst_mask by (unfold vis_bits; set_solver). Qed.

Lemma nextc_canonical df nextc c e :
  decodes_to df (if iswoctal nextc then 48 else 65) c e = decodes_to df nextc c e.
Proof.
  unfold decodes_to.
  assert (iswoctal (if iswoctal nextc then 48 else 65) = iswoctal nextc) as ->
    by (by destruct (iswoctal nextc)).
  done.
Qed.

Lemma do_svis_decodes df c flags nextc extra :
  df ∈ [0; VIS_HTTP1808; VIS_MIMESTYLE] -> is_byte c ->
  tst flags VIS_NOLOCALE = true -> tst flags VIS_NOSLASH = false ->
  decodable df flags c (wcschr extra c) = true ->
  decodes_to df nextc c (do_svis c flags nextc extra) = true.
Proof.
  intros Hdf Hc Hnl Hns Hdec. rewrite do_svis_canonical by done. rewrite <- nextc_canonical.
  pose proof (all_cases_spec svis_case df (flags .& vis_mask) (if iswoctal nextc then 48 else 65)
    c (wcschr extra c) svis_cases_ok Hdf (masked_flags _ Hnl Hns)) as Hcase.
  unfold svis_case in Hcase. rewrite decodable_mask, Hdec in Hcase. apply Hcase; [|done].
  destruct (iswoctal nextc); set_solver.
Qed.

(** The two hexadecimal encodings. *)
Lemma hex_decodes df (esc : string) (digit : Z -> Z) nextc c :
  (df = VIS_HTTP1808 /\ esc = "%" /\ digit = xtoa \/
   df = VIS_MIMESTYLE /\ esc = "=" /\ digit = XTOA) -> is_byte c ->
  decodes_to df nextc c [chr esc; digit ((c .>> 4) .& 0xf); digit (c .& 0xf)] = true.
Proof.
  intros Hdf Hc. rewrite <- nextc_canonical.
  assert (forall n, n ∈ [48; 65] ->
    decodes_to df n c [chr esc; digit ((c .>> 4) .& 0xf); digit (c .& 0xf)] = true) as Hall.
  { intros n Hn. revert c Hc. apply forall_bytes.
    destruct Hdf as [(-> & -> & ->)|(-> & -> & ->)];
      rewrite !elem_of_cons, elem_of_nil in Hn; destruct Hn as [->|[->|[]]]; vm_compute; done. }
  apply Hall. destruct (iswoctal nextc); set_solver.
Qed.

Lemma wcschr_in extra c : c ∈ extra -> wcschr extra c = true.
Proof.
  intros Hc. unfold wcschr. apply orb_true_iff. right. apply existsb_exists. exists c.
  split; [by apply list_elem_of_In|apply Z.eqb_refl].
Qed.

Lemma wcschr_notin extra c : c <> 0 -> c ∉ extra -> wcschr extra c = false.
Proof.
  intros Hc Hn. unfold wcschr. rewrite (proj2 (Z.eqb_neq _ _) Hc). cbn [orb].
  destruct (existsb (Z.eqb c) extra) eqn:E; [|done]. destruct Hn.
  apply existsb_exists in E as (x & Hx & ->%Z.eqb_eq). by apply list_elem_of_In.
Qed.

(** The conditions on the flags and the extra list for decoding to be exact. *)
Definition reversible (flags : Z) (extra : list Z) : Prop :=
  tst flags VIS_NOLOCALE = true /\ tst flags VIS_NOSLASH = false /\ chr "\" ∈ extra /\
  (tst flags VIS_CSTYLE = true -> chr "x" ∉ extra /\ chr "E" ∉ extra).

Lemma reversible_decodable df flags extra c : reversible flags extra ->
  (tst df VIS_HTTP1808 = true -> c <> chr "%") -> (tst df VIS_MIMESTYLE = true -> c <> chr "=") ->
  decodable df flags c (wcschr extra c) = true.
Proof.
  intros (_ & _ & Hbs & Hcs) Hh Hm. unfold decodable. rewrite !andb_true_iff, !negb_true_iff.
  split_and!.
  - destruct (Z.eqb_spec c 92) as [->|]; [by rewrite wcschr_in|].
    destruct (Z.eqb_spec c 0) as [->|]; [done|]. by rewrite orb_true_r.
  - destruct (tst flags VIS_CSTYLE) eqn:E; [|done]. destruct (Hcs eq_refl) as [Hx HE].
    destruct (Z.eqb_spec c (chr "x")) as [->|]; [by rewrite wcschr_notin|].
    destruct (Z.eqb_spec c (chr "E")) as [->|]; [by rewrite wcschr_notin|]. done.
  - destruct (tst df VIS_HTTP1808); [|done]. by apply Z.eqb_neq, Hh.
  - destruct (tst df VIS_MIMESTYLE); [|done]. by apply Z.eqb_neq, Hm.
Qed.

(** Every style's encoding of a byte decodes to the byte. *)
Lemma enc_decodes flags extra nextc c : is_byte c -> reversible flags extra ->
  decodes_to (unvis_flag flags) nextc c (getvisfun flags c flags nextc extra) = true.
Proof.
  intros Hc Hrev. pose proof Hrev as (Hnl & Hns & _). unfold getvisfun, unvis_flag.
  destruct (tst flags VIS_HTTPSTYLE); [|destruct (tst flags VIS_MIMESTYLE)].
  - unfold do_hvis. destruct (http_safe c) eqn:Hs; [|apply (hex_decodes _ "%" xtoa); auto].
    apply do_svis_decodes; [set_solver|done|done|done|]. apply reversible_decodable; [done| |done].
    intros _ ->. unfold http_safe in Hs. by rewrite iswalnum_ascii in Hs by (vm_compute; split; congruence).
  - unfold do_mvis. destruct (mime_escape c nextc) eqn:Hs; [apply (hex_decodes _ "=" XTOA); auto|].
    apply do_svis_decodes; [set_solver|done|done|done|]. apply reversible_decodable; [done|done|].
    intros _ ->. unfold mime_escape in Hs.
    rewrite iswspace_ascii in Hs by (vm_compute; split; congruence). done.
  - apply do_svis_decodes; [set_solver|done|done|done|]. by apply reversible_decodable.
Qed.

(** ** The encoded stream *)

Definition encoded (flags : Z) (extra s : list Z) (next : Z) : list Z :=
  enc_loop (length s) (getvisfun flags) flags extra (s ++ [next]).

Lemma encoded_cons flags extra c s next : encoded flags extra (c :: s) next =
  getvisfun flags c flags (hd next s) extra ++ encoded flags extra s next.
Proof. unfold encoded. cbn [length enc_loop app]. do 2 f_equal. by destruct s. Qed.

(** Decoding from the ground state ignores the last character stored. *)
Lemma udec_ground df src t : tst df UNVIS_END = false -> udec df src t 0 = udec df src 0 0.
Proof.
  intros Hend. destruct src as [|c src]; [done|]. cbn [udec]. unfold ustep.
  change 0 with S_GROUND at 1 3. rewrite !ground_step, Hend. done.
Qed.

(** A pending octal sequence ends at a character that is not an octal digit. *)
Lemma udec_push df c src : tst df UNVIS_END = false -> isoctal (s8 c) = false ->
  udec df (c :: src) 0 S_OCTAL2 =
    (0 :: fst (udec df (c :: src) 0 0), snd (udec df (c :: src) 0 0)).
Proof.
  intros Hend Hoct. cbn [udec].
  assert (unvis 0 (s8 c) S_OCTAL2 df = URet UNVIS_VALIDPUSH 0 S_GROUND) as E.
  { unfold unvis. rewrite Hend. unfold isoctal in *. by rewrite u8_idem, Hoct. }
  unfold ustep. rewrite E. change 0 with S_GROUND at 5. rewrite ground_step, Hend.
  change (unvis 0 (s8 c) 0 df) with (unvis 0 (s8 c) S_GROUND df). rewrite ground_step, Hend.
  destruct (ground_step_kind (s8 c) df) as (r & t & s & -> & [->| ->]); cbn -[udec];
    destruct (udec df src t s); done.
Qed.

Lemma unvis_flag_end flags : tst (unvis_flag flags) UNVIS_END = false.
Proof. unfold unvis_flag. by destruct (tst flags VIS_HTTPSTYLE), (tst flags VIS_MIMESTYLE). Qed.

(** [decodes_to] taken apart. *)
Lemma decodes_to_spec df nextc c e : decodes_to df nextc c e = true ->
  (length e <= 4)%nat /\ Forall is_char e /\
  (exists b r, e = b :: r /\ (iswoctal c = false -> isoctal (s8 b) = false)) /\
  ((exists t, urun df e 0 0 = Some ([c], t, 0)) \/
   (c = 0 /\ iswoctal nextc = false /\ urun df e 0 0 = Some ([], 0, S_OCTAL2))).
Proof.
  unfold decodes_to. rewrite !andb_true_iff. intros [[[[H0 H4] Hch] Hoct] Hrun]. split_and!.
  - by apply Nat.leb_le.
  - rewrite forallb_forall in Hch. apply Forall_forall. intros b Hb%list_elem_of_In.
    specialize (Hch b Hb). unfold is_char. zbool. lia.
  - destruct e as [|b r]; [done|]. exists b, r. split; [done|]. intros Hn. rewrite Hn in Hoct.
    by apply negb_true_iff in Hoct.
  - destruct (urun df e 0 0) as [[[[|c' [|]] t] s]|]; try done.
    + apply andb_true_iff in Hrun as [Hrun Hn]. apply negb_true_iff in Hn. zbool.
      right. split_and!; congruence.
    + zbool. left. exists t. unfold S_GROUND in *. congruence.
Qed.

Lemma encoded_decodes flags extra next : reversible flags extra ->
  forall s, Forall is_byte s ->
  udec (unvis_flag flags) (encoded flags extra s next) 0 0 = (s, true) /\
  (iswoctal (hd next s) = false ->
    udec (unvis_flag flags) (encoded flags extra s next) 0 S_OCTAL2 = (0 :: s, true)).
Proof.
  intros Hrev. set (df := unvis_flag flags). pose proof (unvis_flag_end flags) as Hend. fold df in Hend.
  induction s as [|c s IH]; intros Hs; [by split|].
  apply Forall_cons in Hs as [Hc Hs]. destruct (IH Hs) as [IH1 IH2].
  rewrite encoded_cons. set (e := getvisfun flags c flags (hd next s) extra).
  pose proof (enc_decodes flags extra (hd next s) c Hc Hrev) as Hdec. fold df e in Hdec.
  apply decodes_to_spec in Hdec as (_ & _ & (b & r & He & Hoct) & Hrun).
  assert (udec df (e ++ encoded flags extra s next) 0 0 = (c :: s, true)) as H1.
  { destruct Hrun as [(t & Hrun)|(-> & Hn & Hrun)]; rewrite (udec_app _ _ _ _ _ _ _ _ Hrun).
    - by rewrite udec_ground, IH1.
    - by rewrite (IH2 Hn). }
  split; [exact H1|]. intros Hn. cbn [hd] in Hn. rewrite He in *. cbn [app] in *.
  by rewrite udec_push, H1 by auto.
Qed.

(** The encoding is short, and made of characters. *)
Lemma encoded_chars flags extra next : reversible flags extra ->
  forall s, Forall is_byte s ->
  Forall is_char (encoded flags extra s next) /\
  (length (encoded flags extra s next) <= 4 * length s)%nat.
Proof.
  intros Hrev. induction s as [|c s IH]; intros Hs; [by split; [constructor|]|].
  apply Forall_cons in Hs as [Hc Hs]. destruct (IH Hs) as [IH1 IH2]. rewrite encoded_cons.
  pose proof (enc_decodes flags extra (hd next s) c Hc Hrev) as Hdec.
  apply decodes_to_spec in Hdec as (Hl & Hch & _). split.
  - by apply Forall_app.
  - rewrite length_app. cbn [length]. lia.
Qed.

(** * The conversion in the C locale *)

Lemma in_loop_bytes n : forall fuel ps mbsrc, (n <= fuel)%nat -> (n <= length mbsrc)%nat ->
  in_loop fuel n true ps mbsrc = Some (map u8 (take n mbsrc), true).
Proof.
  induction n as [|n IH]; intros fuel ps mbsrc Hf Hl; [by destruct fuel|].
  destruct fuel as [|fuel]; [lia|]. destruct mbsrc as [|b mbsrc]; simpl in Hl; [lia|].
  cbn [in_loop hd negb andb orb]. change (0 <? 1) with true. change (1 =? 0) with false.
  cbn [andb]. rewrite (proj2 (Z.leb_le 1 (Z.of_nat (S n)))) by lia.
  change (drop (Z.to_nat 1) (b :: mbsrc)) with mbsrc. change (Z.to_nat 1) with 1%nat.
  rewrite Nat.sub_succ, Nat.sub_0_r, (IH fuel ps mbsrc) by lia. done.
Qed.

Lemma out_bytes_char w : is_char w -> out_bytes 8 0 w = [w].
Proof.
  intros Hw. assert (is_byte w) as Hb by (unfold is_char, is_byte in *; lia).
  cbn [out_bytes Nat.eqb]. rewrite !tst_high by (done || (vm_compute; reflexivity)).
  rewrite orb_true_r. change (0xff .<< (8 * Z.of_nat 0)) with 255. cbn [orb app].
  by rewrite land_byte, Z.shiftr_0_r, u8_byte by done.
Qed.

Lemma out_loop_bytes maxolen ps ws : forall olen pre rest,
  Forall is_char ws -> length pre = olen -> Z.of_nat olen < maxolen ->
  (maxolen <= Z.of_nat (olen + length rest) \/ (length ws < length rest)%nat) ->
  out_loop maxolen true ps ws olen (pre ++ rest) =
    if Z.of_nat (olen + length ws) <? maxolen
    then VRet (s32 (Z.of_nat (olen + length ws))) (pre ++ over (ws ++ [0]) rest)
    else VErr ENOSPC.
Proof.
  induction ws as [|w ws IH]; intros olen pre rest Hws Hpre Hmax Hroom.
  - cbn [out_loop length]. rewrite Nat.add_0_r, (proj2 (Z.ltb_lt _ _)) by done.
    destruct rest as [|x rest]; [simpl in *; lia|]. by rewrite <- Hpre, awrite_app_cons.
  - apply Forall_cons in Hws as [Hw Hws]. cbn [out_loop]. rewrite out_bytes_char by done.
    cbn [put_bytes length]. destruct (Z.leb_spec maxolen (Z.of_nat olen + 1)) as [Hfull|Hfull].
    { by rewrite (proj2 (Z.ltb_ge _ _)) by lia. }
    destruct rest as [|x rest]; [simpl in *; lia|]. rewrite <- Hpre, awrite_app_cons, Hpre.
    rewrite (cons_middle w pre rest), app_assoc.
    rewrite IH; [|done|rewrite length_app; simpl; lia|lia|simpl in *; lia].
    replace (S olen + length ws)%nat with (olen + S (length ws))%nat by lia.
    destruct (_ <? _); [|done]. f_equal. by rewrite <- app_assoc.
Qed.

Lemma until_nul_chars ws : Forall is_char ws -> until_nul ws = ws.
Proof.
  unfold until_nul. induction 1 as [|w ws Hw Hws IH]; [done|]. unfold is_char in Hw.
  rewrite (proj2 (Z.eqb_neq w 0)) by lia. by rewrite IH.
Qed.

Lemma enc_loop_take len f flags extra : forall src next, (len <= length src)%nat ->
  enc_loop len f flags extra (src ++ next) =
  enc_loop (length (take len src)) f flags extra (take len src ++ [hd 0 (drop len src ++ next)]).
Proof.
  induction len as [|len IH]; intros src next Hl; [by destruct src|].
  destruct src as [|c src]; simpl in Hl; [lia|]. cbn [app take length enc_loop drop].
  rewrite (IH src next) by lia. f_equal. f_equal. destruct src as [|c2 src]; [|by destruct len].
  simpl in Hl. replace len with 0%nat by lia. done.
Qed.

(** A string that is followed by a zero is encoded the same without it. *)
Lemma enc_loop_zero s f flags extra :
  enc_loop (length s) f flags extra s = enc_loop (length s) f flags extra (s ++ [0]).
Proof.
  induction s as [|c s IH]; [done|]. cbn [length enc_loop app]. rewrite IH. f_equal.
  f_equal. by destruct s.
Qed.

(** The list in the C locale. *)
Definition byte_extras (flags : Z) (src : list Z) : list Z := map u8 src ++ more_extras flags.
Lemma makeextralist_bytes flags mbextra : tst flags VIS_NOLOCALE = true -> makeextralist flags mbextra = Some (byte_extras flags mbextra).
Proof. intros E. unfold makeextralist. by rewrite E. Qed.

Lemma makeextralist_reversible flags mbextra :
  tst flags VIS_NOLOCALE = true -> tst flags VIS_NOSLASH = false -> Forall is_byte mbextra ->
  (tst flags VIS_CSTYLE = true -> chr "x" ∉ mbextra /\ chr "E" ∉ mbextra) ->
  reversible flags (byte_extras flags mbextra).
Proof.
  intros Hnl Hns Hb Hcs. unfold byte_extras, more_extras. rewrite Hns.
  assert (map u8 mbextra = mbextra) as ->.
  { induction Hb as [|c l Hc Hl IH]; [done|]. cbn [map]. rewrite u8_byte by done. f_equal.
    apply IH. intros E. destruct (Hcs E). set_solver. }
  split_and!; [done|done|by rewrite !elem_of_app, elem_of_cons; auto 10|].
  intros E. destruct (Hcs E) as [Hx HE].
  assert (forall c, c ∉ char_glob -> c ∉ char_shell -> c ∉ [32; 9; 10; 34; chr "\"] ->
    c ∉ mbextra -> c ∉ mbextra ++ (if tst flags VIS_GLOB then char_glob else []) ++
      (if tst flags VIS_SHELL then char_shell else []) ++ (if tst flags VIS_SP then [32] else []) ++
      (if tst flags VIS_TAB then [9] else []) ++ (if tst flags VIS_NL then [10] else []) ++
      (if tst flags VIS_DQ then [34] else []) ++ [chr "\"]) as Hn.
  { intros c H1 H2 H3 H4. rewrite !not_elem_of_cons in H3.
    assert (forall (b : bool) l, c ∉ l -> c ∉ (if b then l else [])) as Hif.
    { intros b l Hl. destruct b; [done|apply not_elem_of_nil]. }
    assert (forall x, c <> x -> c ∉ [x]) as Hone.
    { intros x Hne Hin%list_elem_of_singleton. done. }
    rewrite !not_elem_of_app. split_and!; try apply Hif; try apply Hone; tauto. }
  split; apply Hn; try done; apply (bool_decide_unpack (_ ∉ _)); vm_compute; exact I.
Qed.

(** The character that follows the encoded block, as the code sees it: what is in
    memory for a block of one byte, otherwise zero. *)
Definition next_of (n : nat) (mbsrc : list Z) : Z :=
  if (n =? 1)%nat then u8 (nth 1 mbsrc 0) else 0.

Definition all_good (al : allocs) : Prop := al = Allocs true true true true.

(** Everything up to the output loop. *)
Lemma istrsenvisx_bytes buf dlen mbsrc n flags mbextra cerr0 :
  let ws := encoded flags (byte_extras flags mbextra) (take n mbsrc) (next_of n mbsrc) in
  tst flags VIS_NOLOCALE = true -> reversible flags (byte_extras flags mbextra) ->
  Forall is_byte mbsrc -> ((if n =? 1 then 2 else n) <= length mbsrc)%nat ->
  Z.of_nat n <= (SIZE_MAX - 1) / 16 ->
  istrsenvisx (Allocs true true true true) (Some buf) dlen mbsrc n flags mbextra cerr0 =
    match dlen with
    | Some 0 => VErr ENOSPC
    | Some d => out_loop d true mbstate0 ws 0 buf
    | None =>
      if (SIZE_MAX - 1) / Z.of_nat MB_LEN_MAX <? Z.of_nat (length ws) then VErr ENOSPC
      else out_loop (Z.of_nat (length ws) * Z.of_nat MB_LEN_MAX + 1) true mbstate0 ws 0 buf
    end.
Proof.
  intros ws Hnl Hrev Hb Hlen Hmax. unfold istrsenvisx. cbn [al_src al_dst al_mdst al_extra negb].
  set (m := if (n =? 1)%nat then 2%nat else n) in *.
  rewrite (proj2 (Z.ltb_ge _ _)).
  2:{ unfold m. destruct (Nat.eqb_spec n 1) as [->|]; [vm_compute; congruence|done]. }
  rewrite (makeextralist_bytes flags mbextra Hnl), Hnl, in_loop_bytes by lia.
  assert (map u8 (take m mbsrc) = take m mbsrc) as ->.
  { assert (Forall is_byte (take m mbsrc)) as Ht by (by apply Forall_take).
    induction Ht as [|c l Hc Hl IH]; [done|]. cbn [map]. by rewrite u8_byte, IH. }
  assert ((if (n <? length (take m mbsrc))%nat then n else length (take m mbsrc)) = n) as ->.
  { rewrite length_take. unfold m in *. destruct (Nat.eqb_spec n 1) as [->|].
    - rewrite Nat.min_l by lia. done.
    - rewrite Nat.min_l by lia. by rewrite Nat.ltb_irrefl. }
  assert (enc_loop n (getvisfun flags) flags (byte_extras flags mbextra) (take m mbsrc) = ws) as ->.
  { unfold ws, encoded, next_of, m in *. destruct (Nat.eqb_spec n 1) as [->|].
    - destruct mbsrc as [|c [|c2 mbsrc]]; simpl in Hlen; [lia|lia|]. cbn [take length nth].
      apply Forall_cons in Hb as [_ Hb]. apply Forall_cons in Hb as [Hc2 _].
      by rewrite u8_byte.
    - rewrite <- enc_loop_zero. f_equal. rewrite length_take. lia. }
  destruct (encoded_chars flags (byte_extras flags mbextra) (next_of n mbsrc) Hrev
    (take n mbsrc) ltac:(by apply Forall_take)) as [Hch Hl]. fold ws in Hch, Hl.
  rewrite length_take in Hl. rewrite until_nul_chars by done.
  rewrite (proj2 (Nat.ltb_ge _ _)); [done|]. unfold m. destruct (n =? 1)%nat eqn:E; [|lia].
  apply Nat.eqb_eq in E as ->. lia.
Qed.

(** The visible part of the output. *)
Definition visible (flags b : Z) : bool :=
  isgraph b || iswwhite b || (tst flags VIS_SAFE && iswsafe b).

Definition visible_case (df f n c : Z) (x : bool) : bool :=
  forallb (visible f) (@do_svis c_locale c f n (if x then [c] else [])).

Lemma visible_cases_ok : all_cases visible_case = true.
Proof. vm_cast_no_check (eq_refl true). Qed.

Lemma enc_visible flags extra nextc c : is_byte c ->
  tst flags VIS_NOLOCALE = true -> tst flags VIS_NOSLASH = false ->
  Forall (fun b => visible flags b = true) (getvisfun flags c flags nextc extra).
Proof.
  intros Hc Hnl Hns.
  assert (Forall (fun b => visible flags b = true) (do_svis c flags nextc extra)) as Hsvis.
  { rewrite do_svis_canonical by done.
    pose proof (all_cases_spec visible_case 0 (flags .& vis_mask) (if iswoctal nextc then 48 else 65)
      c (wcschr extra c) visible_cases_ok ltac:(set_solver) (masked_flags _ Hnl Hns)) as Hcase.
    assert (visible_case 0 (flags .& vis_mask) (if iswoctal nextc then 48 else 65) c
      (wcschr extra c) = true) as Hv.
    { apply Hcase; [|done]. destruct (iswoctal nextc); set_solver. }
    unfold visible_case in Hv. rewrite forallb_forall in Hv. apply Forall_forall.
    intros b Hbin%list_elem_of_In. specialize (Hv b Hbin). unfold visible in *.
    by rewrite tst_mask in Hv by (unfold vis_bits; set_solver). }
  assert (forall digit esc, digit = xtoa \/ digit = XTOA -> esc = chr "%" \/ esc = chr "=" ->
    Forall (fun b => visible flags b = true) [esc; digit ((c .>> 4) .& 0xf); digit (c .& 0xf)]) as Hhex.
  { intros digit esc Hd He.
    assert (forallb isgraph [esc; digit ((c .>> 4) .& 0xf); digit (c .& 0xf)] = true) as Hg.
    { revert c Hc Hsvis. intros c Hc _. revert c Hc. apply forall_bytes.
      destruct Hd as [->| ->], He as [->| ->]; vm_compute; done. }
    rewrite forallb_forall in Hg. apply Forall_forall. intros b Hbin%list_elem_of_In.
    unfold visible. by rewrite (Hg b Hbin). }
  unfold getvisfun. destruct (tst flags VIS_HTTPSTYLE); [|destruct (tst flags VIS_MIMESTYLE)].
  - unfold do_hvis. destruct (http_safe c); [done|]. apply Hhex; auto.
  - unfold do_mvis. destruct (mime_escape c nextc); [|done]. apply Hhex; auto.
  - done.
Qed.

End Encoders.

Lemma map_u8_bytes l : Forall is_byte l -> map u8 l = l.
Proof. induction 1 as [|c l Hc Hl IH]; [done|]. cbn [map]. by rewrite u8_byte, IH. Qed.

(** * Properties *)

(** C30. Encoding and decoding round trip: in the C locale (with VIS_NOLOCALE), for
    every block of bytes (NULs included), every combination of the other flags that
    prints slashes (without VIS_NOSLASH) and every extra list, which with VIS_CSTYLE
    may hold neither x nor E, [strsvisx] into a
    buffer of four bytes for each input byte and one for the NUL returns the
    encoding, and unvis with the flag of the style used returns the block. *)
Theorem vis_unvis_roundtrip `{LocaleOk} buf buf2 s rest flags mbextra :
  (0 < MB_LEN_MAX)%nat -> (MB_LEN_MAX <= 64)%nat ->
  tst flags VIS_NOLOCALE = true -> tst flags VIS_NOSLASH = false ->
  Forall is_byte mbextra -> Forall is_byte (s ++ rest) ->
  (tst flags VIS_CSTYLE = true -> chr "x" ∉ mbextra /\ chr "E" ∉ mbextra) ->
  (length s = 1%nat -> rest <> []) -> Z.of_nat (length s) < 2 ^ 29 ->
  (4 * length s < length buf)%nat -> (4 * length s < length buf2)%nat ->
  exists enc, Forall is_char enc /\
    strsvisx (Allocs true true true true) buf (s ++ rest) (length s) flags mbextra =
      VRet (Z.of_nat (length enc)) (over (enc ++ [0]) buf) /\
    strunvisx buf2 enc (unvis_flag flags) =
      SRet (Z.of_nat (length s)) 0 (over (s ++ [0]) buf2).
Proof.
  intros Hmb0 Hmb Hnl Hns Hbe Hbs Hcs Hone Hlen Hbuf Hbuf2.
  pose proof (makeextralist_reversible flags mbextra Hnl Hns Hbe Hcs) as Hrev.
  set (n := length s). set (next := next_of n (s ++ rest)).
  assert (take n (s ++ rest) = s) as Htake by (unfold n; apply take_app_length).
  assert (Forall is_byte s) as Hs by (by apply Forall_app in Hbs as [? _]).
  destruct (encoded_chars flags _ next Hrev s Hs) as [Hch Hl].
  destruct (encoded_decodes flags _ next Hrev s Hs) as [Hdec _].
  set (enc := encoded flags (byte_extras flags mbextra) s next) in *.
  exists enc. split; [done|]. split.
  - unfold strsvisx. rewrite istrsenvisx_bytes; try done.
    + rewrite Htake. fold n next enc. rewrite (proj2 (Z.ltb_ge _ _)).
      2:{ unfold SIZE_MAX. apply Z.div_le_lower_bound; [lia|]. nia. }
      rewrite (out_loop_bytes _ _ enc 0 [] buf); [|done|done|nia|right; lia].
      rewrite (proj2 (Z.ltb_lt _ _)) by nia. cbn [app Nat.add]. f_equal.
      rewrite s32_small; [done|]. unfold n in *. lia.
    + rewrite length_app. unfold n. destruct (Nat.eqb_spec (length s) 1) as [E|]; [|lia].
      specialize (Hone E). destruct rest; [done|]. simpl. lia.
    + unfold SIZE_MAX, n. apply Z.div_le_lower_bound; lia.
  - unfold strunvisx. rewrite strnunvisx_closed.
    + rewrite Hdec. unfold SIZE_MAX. rewrite (proj2 (Z.ltb_ge _ _)) by lia.
      rewrite (proj2 (Z.eqb_neq _ _)) by lia. cbn [andb orb]. rewrite s32_small by lia. done.
    + apply unvis_flag_end.
    + unfold SIZE_MAX. lia.
    + right. lia.
Qed.

Lemma vis_unvis_roundtrip_witness :
  exists enc, Forall is_char enc /\
    @strsvisx c_locale (Allocs true true true true) (replicate 20 7) ([1; 200; 0] ++ [0]) 3
      (VIS_NOLOCALE .| VIS_CSTYLE) [] =
      VRet (Z.of_nat (length enc)) (over (enc ++ [0]) (replicate 20 7)) /\
    strunvisx (replicate 20 9) enc 0 = SRet 3 0 (over [1; 200; 0; 0] (replicate 20 9)).
Proof.
  apply (@vis_unvis_roundtrip c_locale c_locale_ok (replicate 20 7) (replicate 20 9)
    [1; 200; 0] [0] (VIS_NOLOCALE .| VIS_CSTYLE) []); try (simpl; lia).
  - reflexivity.
  - reflexivity.
  - constructor.
  - unfold is_byte. repeat constructor; lia.
  - intros _. split; apply (bool_decide_unpack (_ ∉ _)); exact I.
Defined.

(** C32. With a size the encoder is exact about its buffer, in the C locale
    (VIS_NOLOCALE) with slashes printed and an extra list that VIS_CSTYLE allows:
    there is one encoding of the block, at most four bytes for each byte of it and
    decoded to it by unvis with the flag of the style, such that for every buffer
    and every [dlen] within it the result is this encoding with its NUL and its
    length when they fit [dlen], and ENOSPC otherwise; nothing is ever stored
    outside the buffer. *)
Theorem strsnvisx_bounded `{LocaleOk} s rest flags mbextra :
  tst flags VIS_NOLOCALE = true -> tst flags VIS_NOSLASH = false ->
  Forall is_byte mbextra -> Forall is_byte (s ++ rest) ->
  (tst flags VIS_CSTYLE = true -> chr "x" ∉ mbextra /\ chr "E" ∉ mbextra) ->
  (length s = 1%nat -> rest <> []) -> Z.of_nat (length s) <= (SIZE_MAX - 1) / 16 ->
  exists enc, Forall is_char enc /\ (length enc <= 4 * length s)%nat /\ udecode (unvis_flag flags) enc = Some s /\
    forall buf dlen, 0 <= dlen <= Z.of_nat (length buf) ->
      strsnvisx (Allocs true true true true) buf dlen (s ++ rest) (length s) flags mbextra =
        if Z.of_nat (length enc) <? dlen
        then VRet (s32 (Z.of_nat (length enc))) (over (enc ++ [0]) buf)
        else VErr ENOSPC.
Proof.
  intros Hnl Hns Hbe Hbs Hcs Hone Hlen.
  pose proof (makeextralist_reversible flags mbextra Hnl Hns Hbe Hcs) as Hrev.
  assert (take (length s) (s ++ rest) = s) as Htake by apply take_app_length.
  assert (Forall is_byte s) as Hs by (by apply Forall_app in Hbs as [? _]).
  destruct (encoded_chars flags _ (next_of (length s) (s ++ rest)) Hrev s Hs) as [Hch Hl].
  destruct (encoded_decodes flags _ (next_of (length s) (s ++ rest)) Hrev s Hs) as [Hdec _].
  set (enc := encoded flags _ s _) in *. exists enc. split; [done|]. split; [done|]. split; [unfold udecode; by rewrite Hdec|]. intros buf dlen Hd.
  unfold strsnvisx. rewrite istrsenvisx_bytes; try done.
  - rewrite Htake. fold enc. destruct (Z.eqb_spec dlen 0) as [->|Hd0].
    { by rewrite (proj2 (Z.ltb_ge _ _)) by lia. }
    pose proof (out_loop_bytes dlen mbstate0 enc 0 [] buf Hch eq_refl ltac:(lia)) as Ho.
    cbn [app Nat.add] in Ho. rewrite <- Ho by (left; simpl; lia). by destruct dlen.
  - rewrite length_app. destruct (Nat.eqb_spec (length s) 1) as [E|]; [|lia].
    specialize (Hone E). destruct rest; [done|]. simpl. lia.
Qed.

Lemma strsnvisx_bounded_witness :
  exists enc, Forall is_char enc /\ (length enc <= 4)%nat /\ udecode (unvis_flag VIS_NOLOCALE) enc = Some [1] /\
    @strsnvisx c_locale (Allocs true true true true) [7; 7; 7] 3 ([1] ++ [0]) 1 VIS_NOLOCALE [] =
      if Z.of_nat (length enc) <? 3
      then VRet (s32 (Z.of_nat (length enc))) (over (enc ++ [0]) [7; 7; 7])
      else VErr ENOSPC.
Proof.
  destruct (@strsnvisx_bounded c_locale c_locale_ok [1] [0] VIS_NOLOCALE []) as (enc & Hc & Hl & Hd & Hrun).
  - reflexivity.
  - reflexivity.
  - constructor.
  - unfold is_byte. repeat constructor; lia.
  - intros Hx. vm_compute in Hx. discriminate.
  - discriminate.
  - vm_compute. discriminate.
  - exists enc. split; [exact Hc|]. split; [exact Hl|]. split; [exact Hd|]. apply Hrun. simpl. lia.
Defined.

(** An extra list with an invalid character behind the first is read behind its end. *)
Theorem extra_overrun {LOC : Locale} (buf mbextra : list Z) flags c nextc k : tst flags VIS_NOLOCALE = false ->
  mbsrtowcs mbextra = inl (S k) -> in_loop 2 2 false mbstate0 [u8 c; u8 nextc] <> None ->
  svis (Allocs true true true true) buf c flags nextc mbextra = VFault.
Proof.
  intros Hnl Hk Hin. unfold svis, istrsenvisx. cbn [Nat.eqb al_src al_dst al_mdst al_extra negb]. rewrite Hnl.
  change ((SIZE_MAX - 1) / 16 <? Z.of_nat 2) with false. cbn [default id].
  change (if false then true else default false None) with false. cbv iota.
  destruct (in_loop 2 2 false mbstate0 [u8 c; u8 nextc]) as [[src cerr]|]; [|done]. unfold makeextralist. by rewrite Hnl, Hk.
Qed.

(** The encoding is safe to display: in the C locale, with slashes printed,
    every character produced for any input byte is graphic or a blank (space, tab
    or newline), or with VIS_SAFE one of backspace, bell and return. *)
Theorem vis_output_visible `{LocaleOk} flags extra nextc c :
  is_byte c -> tst flags VIS_NOLOCALE = true -> tst flags VIS_NOSLASH = false ->
  Forall (fun b => visible flags b = true) (getvisfun flags c flags nextc extra).
Proof. apply enc_visible. Qed.

Lemma vis_output_visible_witness :
  Forall (fun b => visible VIS_NOLOCALE b = true)
    (@getvisfun c_locale VIS_NOLOCALE 155 VIS_NOLOCALE 0 [chr "\"]).
Proof.
  apply (@vis_output_visible c_locale c_locale_ok);
    [unfold is_byte; lia|reflexivity|reflexivity].
Defined.

(** VIS_CSTYLE does not exclude the escapes of hexadecimal digits and of ESC:
    with x or E in the extra list the encoding of these letters decodes to
    nothing and to the ESC character. *)
Theorem cstyle_extra_collision :
  let al := Allocs true true true true in
  @strsvis c_locale al [0; 0; 0] (codes "x") (VIS_NOLOCALE .| VIS_CSTYLE) (codes "x") =
    VRet 2 (codes "\x" ++ [0]) /\
  udecode 0 (codes "\x") = Some [] /\
  @strsvis c_locale al [0; 0; 0] (codes "E") (VIS_NOLOCALE .| VIS_CSTYLE) (codes "E") =
    VRet 2 (codes "\E" ++ [0]) /\
  udecode 0 (codes "\E") = Some [27].
Proof. vm_compute. split_and!; reflexivity. Qed.
