(* ===== verification/B64.v ===== *)
(** Base 64 (src.compat/b64.c): [compat_b64_ntop] encodes a block of bytes,
    [compat_b64_pton] decodes a C string, skipping white space.  Stores into the
    target are checked; a null target only counts. *)

From S2P Require Import Prelude Ctype.

Definition Base64 : list Z :=
  codes "ABCDEFGHIJKLMNOPQRSTUVWXYZabcdefghijklmnopqrstuvwxyz0123456789+/".
Definition Pad64 : Z := chr "=".
Definition b64_char (v : Z) : Z := nth (Z.to_nat v) Base64 0.

(** * Encoding *)

Inductive bres := BRet (n : Z) (target : list Z) | BFault.

(** [target[datalength++] = c] for each [c]. *)
Fixpoint append_chars (target : list Z) (datalength : nat) (cs : list Z) : option (list Z * nat) :=
  match cs with
  | [] => Some (target, datalength)
  | c :: cs => target ← awrite target datalength c; append_chars target (S datalength) cs
  end.

Definition output0 (i0 i1 i2 : Z) : Z := u8 (i0 .>> 2).
Definition output1 (i0 i1 i2 : Z) : Z := u8 (((i0 .& 0x03) .<< 4) + (i1 .>> 4)).
Definition output2 (i0 i1 i2 : Z) : Z := u8 (((i1 .& 0x0f) .<< 2) + (i2 .>> 6)).
Definition output3 (i0 i1 i2 : Z) : Z := u8 (i2 .& 0x3f).

(** After the loop: the padded group of one or two bytes, and the NUL. *)
Definition ntop_tail (src : list Z) (target : list Z) (datalength : nat) (targsize : Z) : bres :=
  let finish target datalength :=
    if targsize <=? Z.of_nat datalength then BRet (-1) target
    else match awrite target datalength 0 with
         | Some target => BRet (s32 (Z.of_nat datalength)) target
         | None => BFault
         end in
  match src with
  | [] => finish target datalength
  | _ =>
    let i0 := nth 0 src 0 in let i1 := nth 1 src 0 in let i2 := 0 in
    if targsize <? Z.of_nat datalength + 4 then BRet (-1) target
    else
      match append_chars target datalength
              [b64_char (output0 i0 i1 i2); b64_char (output1 i0 i1 i2);
               if (length src =? 1)%nat then Pad64 else b64_char (output2 i0 i1 i2); Pad64] with
      | Some (target, datalength) => finish target datalength
      | None => BFault
      end
  end.

(** [while (2 < srclength)] *)
Fixpoint ntop_loop (src : list Z) (target : list Z) (datalength : nat) (targsize : Z) : bres :=
  match src with
  | i0 :: i1 :: i2 :: src =>
    if targsize <? Z.of_nat datalength + 4 then BRet (-1) target
    else
      match append_chars target datalength
              [b64_char (output0 i0 i1 i2); b64_char (output1 i0 i1 i2);
               b64_char (output2 i0 i1 i2); b64_char (output3 i0 i1 i2)] with
      | Some (target, datalength) => ntop_loop src target datalength targsize
      | None => BFault
      end
  | _ => ntop_tail src target datalength targsize
  end.

Definition compat_b64_ntop (src target : list Z) (targsize : Z) : bres :=
  ntop_loop src target 0 targsize.

(** * Decoding *)

(** [pos - Base64] for [strchr(Base64, ch)]. *)
Definition b64_pos (ch : Z) : option Z :=
  match list_find (fun b => b = ch) Base64 with
  | Some (i, _) => Some (Z.of_nat i)
  | None => None
  end.

Inductive pres :=
| PRet (n : Z) (target : option (list Z))   (* the value returned, the target *)
| PFault.                                   (* access outside the target *)

(** [target[i] = v] and [target[i] |= v]; nothing for a null target. *)
Definition tset (target : option (list Z)) (i : nat) (v : Z) : option (option (list Z)) :=
  match target with
  | None => Some None
  | Some t => t ← awrite t i (u8 v); Some (Some t)
  end.
Definition tor (target : option (list Z)) (i : nat) (v : Z) : option (option (list Z)) :=
  match target with
  | None => Some None
  | Some t => x ← t !! i; t ← awrite t i (u8 (x .| v)); Some (Some t)
  end.

(** [if (target) if (n >= targsize) return -1] *)
Definition no_room (target : option (list Z)) (n : nat) (targsize : Z) : bool :=
  match target with Some _ => targsize <=? Z.of_nat n | None => false end.

(** One base-64 digit in the given state: [inl] is a return of -1. *)
Definition pton_digit (v : Z) (state tarindex : nat) (target : option (list Z)) (targsize : Z)
    : option (option (nat * nat * option (list Z))) :=
  match state with
  | 0%nat =>
    if no_room target tarindex targsize then Some None
    else target ← tset target tarindex (v .<< 2); Some (Some (1%nat, tarindex, target))
  | 1%nat =>
    if no_room target (S tarindex) targsize then Some None
    else target ← tor target tarindex (v .>> 4);
         target ← tset target (S tarindex) ((v .& 0x0f) .<< 4);
         Some (Some (2%nat, S tarindex, target))
  | 2%nat =>
    if no_room target (S tarindex) targsize then Some None
    else target ← tor target tarindex (v .>> 2);
         target ← tset target (S tarindex) ((v .& 0x03) .<< 6);
         Some (Some (3%nat, S tarindex, target))
  | _ =>
    if no_room target tarindex targsize then Some None
    else target ← tor target tarindex v; Some (Some (0%nat, S tarindex, target))
  end.

(** The rest of the string behind a first pad character. *)
Fixpoint skip_space (src : list Z) : list Z :=
  match src with c :: src' => if isspace c then skip_space src' else src | [] => [] end.

Definition pton_pad (src : list Z) (state tarindex : nat) (target : option (list Z)) : pres :=
  let fail := PRet (-1) target in
  (* "case 3": only white space may follow, and the slop bits must be zero *)
  let last src :=
    match skip_space src with
    | _ :: _ => fail
    | [] =>
      match target with
      | None => PRet (s32 (Z.of_nat tarindex)) target
      | Some t =>
        match t !! tarindex with
        | None => PFault
        | Some x => if x =? 0 then PRet (s32 (Z.of_nat tarindex)) target else fail
        end
      end
    end in
  match state with
  | 0%nat | 1%nat => fail
  | 2%nat => match skip_space src with
         | c :: src => if c =? Pad64 then last src else fail
         | [] => fail
         end
  | _ => last src
  end.

(** [while ((ch = *src++) != '\0')] *)
Fixpoint pton_loop (src : list Z) (state tarindex : nat) (target : option (list Z)) (targsize : Z)
    : pres :=
  match src with
  | [] => if (state =? 0)%nat then PRet (s32 (Z.of_nat tarindex)) target else PRet (-1) target
  | ch :: src =>
    if isspace ch then pton_loop src state tarindex target targsize
    else if ch =? Pad64 then pton_pad src state tarindex target
    else
      match b64_pos ch with
      | None => PRet (-1) target
      | Some v =>
        match pton_digit v state tarindex target targsize with
        | None => PFault
        | Some None => PRet (-1) target
        | Some (Some (state, tarindex, target)) => pton_loop src state tarindex target targsize
        end
      end
  end.

Definition compat_b64_pton (src : list Z) (target : option (list Z)) (targsize : Z) : pres :=
  pton_loop src 0 0 target targsize.

(** * The encoding as a function *)

Fixpoint b64_encode (src : list Z) : list Z :=
  match src with
  | i0 :: i1 :: i2 :: src =>
    [b64_char (output0 i0 i1 i2); b64_char (output1 i0 i1 i2);
     b64_char (output2 i0 i1 i2); b64_char (output3 i0 i1 i2)] ++ b64_encode src
  | [] => []
  | _ =>
    let i0 := nth 0 src 0 in let i1 := nth 1 src 0 in
    [b64_char (output0 i0 i1 0); b64_char (output1 i0 i1 0);
     if (length src =? 1)%nat then Pad64 else b64_char (output2 i0 i1 0); Pad64]
  end.

(** * Groups *)

Definition sextet (v : Z) : Prop := 0 <= v < 64.

(** A digit is a character other than white space and the pad, and its position
    is its value. *)
Lemma b64_char_spec v : sextet v ->
  isspace (b64_char v) = false /\ (b64_char v =? Pad64) = false /\ b64_pos (b64_char v) = Some v /\
  is_char (b64_char v).
Proof.
  intros Hv.
  assert (forallb (fun v => negb (isspace (b64_char v)) && negb (b64_char v =? Pad64) &&
    bool_decide (b64_pos (b64_char v) = Some v) && (0 <? b64_char v) && (b64_char v <? 256))
    (range 64) = true) as Hall by (vm_compute; reflexivity).
  pose proof (forall_range 64 _ Hall v Hv) as H. cbv beta in H. rewrite !andb_true_iff in H.
  destruct H as [[[[H1 H2] H3] H4] H5]. apply bool_decide_eq_true_1 in H3. zbool.
  unfold is_char. split_and!; first [done|by apply Z.eqb_neq|lia].
Qed.

Lemma b64_pos_spec ch v : b64_pos ch = Some v -> sextet v /\ ch = b64_char v.
Proof.
  unfold b64_pos, b64_char, sextet. destruct (list_find _ Base64) as [[i b]|] eqn:E; [|done].
  intros [= <-]. apply list_find_Some in E as (Hi & -> & _). rewrite Nat2Z.id.
  pose proof (lookup_lt_Some _ _ _ Hi) as Hlt. change (length Base64) with 64%nat in Hlt.
  split; [lia|]. symmetry. by apply nth_lookup_Some.
Qed.

(** The bytes the decoder assembles from pieces of two digits. *)
Definition join62 (h l : Z) : Z := u8 (u8 (h .<< 2) .| l).
Definition join44 (h l : Z) : Z := u8 (u8 (h .<< 4) .| l).
Definition join26 (h l : Z) : Z := u8 (u8 (h .<< 6) .| l).

Lemma join62_split h l : 0 <= h < 64 -> 0 <= l < 4 ->
  join62 h l .>> 2 = h /\ join62 h l .& 3 = l /\ is_byte (join62 h l).
Proof.
  intros Hh Hl. pose proof (forall_range2 64 4 (fun h l =>
    (join62 h l .>> 2 =? h) && (join62 h l .& 3 =? l)) ltac:(vm_compute; reflexivity) h l Hh Hl) as H.
  cbv beta in H. zbool. split_and!; try done. apply u8_range.
Qed.
Lemma join44_split h l : 0 <= h < 16 -> 0 <= l < 16 ->
  join44 h l .>> 4 = h /\ join44 h l .& 15 = l /\ is_byte (join44 h l).
Proof.
  intros Hh Hl. pose proof (forall_range2 16 16 (fun h l =>
    (join44 h l .>> 4 =? h) && (join44 h l .& 15 =? l)) ltac:(vm_compute; reflexivity) h l Hh Hl) as H.
  cbv beta in H. zbool. split_and!; try done. apply u8_range.
Qed.
Lemma join26_split h l : 0 <= h < 4 -> 0 <= l < 64 ->
  join26 h l .>> 6 = h /\ join26 h l .& 63 = l /\ is_byte (join26 h l).
Proof.
  intros Hh Hl. pose proof (forall_range2 4 64 (fun h l =>
    (join26 h l .>> 6 =? h) && (join26 h l .& 63 =? l)) ltac:(vm_compute; reflexivity) h l Hh Hl) as H.
  cbv beta in H. zbool. split_and!; try done. apply u8_range.
Qed.

Lemma byte_split i : is_byte i ->
  (join62 (i .>> 2) (i .& 3) = i /\ 0 <= i .>> 2 < 64 /\ 0 <= i .& 3 < 4) /\
  (join44 (i .>> 4) (i .& 15) = i /\ 0 <= i .>> 4 < 16 /\ 0 <= i .& 15 < 16) /\
  (join26 (i .>> 6) (i .& 63) = i /\ 0 <= i .>> 6 < 4 /\ 0 <= i .& 63 < 64).
Proof.
  assert (forallb (fun i =>
    (join62 (i .>> 2) (i .& 3) =? i) && (0 <=? i .>> 2) && (i .>> 2 <? 64) && (0 <=? i .& 3) && (i .& 3 <? 4) &&
    (join44 (i .>> 4) (i .& 15) =? i) && (0 <=? i .>> 4) && (i .>> 4 <? 16) && (0 <=? i .& 15) && (i .& 15 <? 16) &&
    (join26 (i .>> 6) (i .& 63) =? i) && (0 <=? i .>> 6) && (i .>> 6 <? 4) && (0 <=? i .& 63) && (i .& 63 <? 64))
    all_bytes = true) as Hall by (vm_compute; reflexivity).
  intros Hi. pose proof (forall_bytes _ Hall i Hi) as H. cbv beta in H. zbool. split_and!; done.
Qed.

(** A digit is made of two pieces as well. *)
Definition glue4 (a b : Z) : Z := u8 ((a .<< 4) + b).
Definition glue2 (a b : Z) : Z := u8 ((a .<< 2) + b).

Lemma glue4_split a b : 0 <= a < 4 -> 0 <= b < 16 ->
  glue4 a b .>> 4 = a /\ glue4 a b .& 15 = b /\ sextet (glue4 a b).
Proof.
  intros Ha Hb. pose proof (forall_range2 4 16 (fun a b =>
    (glue4 a b .>> 4 =? a) && (glue4 a b .& 15 =? b) && (0 <=? glue4 a b) && (glue4 a b <? 64))
    ltac:(vm_compute; reflexivity) a b Ha Hb) as H.
  cbv beta in H. zbool. split_and!; done.
Qed.
Lemma glue2_split a b : 0 <= a < 16 -> 0 <= b < 4 ->
  glue2 a b .>> 2 = a /\ glue2 a b .& 3 = b /\ sextet (glue2 a b).
Proof.
  intros Ha Hb. pose proof (forall_range2 16 4 (fun a b =>
    (glue2 a b .>> 2 =? a) && (glue2 a b .& 3 =? b) && (0 <=? glue2 a b) && (glue2 a b <? 64))
    ltac:(vm_compute; reflexivity) a b Ha Hb) as H.
  cbv beta in H. zbool. split_and!; done.
Qed.
Lemma sextet_split v : sextet v ->
  (glue4 (v .>> 4) (v .& 15) = v /\ 0 <= v .>> 4 < 4 /\ 0 <= v .& 15 < 16) /\
  (glue2 (v .>> 2) (v .& 3) = v /\ 0 <= v .>> 2 < 16 /\ 0 <= v .& 3 < 4).
Proof.
  intros Hv. pose proof (forall_range 64 (fun v =>
    (glue4 (v .>> 4) (v .& 15) =? v) && (0 <=? v .>> 4) && (v .>> 4 <? 4) && (0 <=? v .& 15) && (v .& 15 <? 16) &&
    (glue2 (v .>> 2) (v .& 3) =? v) && (0 <=? v .>> 2) && (v .>> 2 <? 16) && (0 <=? v .& 3) && (v .& 3 <? 4))
    ltac:(vm_compute; reflexivity) v Hv) as H.
  cbv beta in H. zbool. split_and!; done.
Qed.

(** The outputs in terms of these pieces. *)
Lemma outputs_pieces i0 i1 i2 : is_byte i0 -> is_byte i1 -> is_byte i2 ->
  output0 i0 i1 i2 = i0 .>> 2 /\ output1 i0 i1 i2 = glue4 (i0 .& 3) (i1 .>> 4) /\
  output2 i0 i1 i2 = glue2 (i1 .& 15) (i2 .>> 6) /\ output3 i0 i1 i2 = i2 .& 63.
Proof.
  intros H0 H1 H2. unfold output0, output1, output2, output3.
  destruct (byte_split i0 H0) as [(_ & R0 & _) _]. destruct (byte_split i2 H2) as (_ & _ & (_ & _ & R2)).
  split_and!; try done; apply u8_small; lia.
Qed.

(** * The encoding *)

Lemma three_ind (P : list Z -> Prop) :
  P [] -> (forall a, P [a]) -> (forall a b, P [a; b]) ->
  (forall a b c l, P l -> P (a :: b :: c :: l)) -> forall l, P l.
Proof.
  intros H0 H1 H2 H3.
  assert (forall n l, (length l <= n)%nat -> P l) as Hn.
  { induction n as [|n IH]; intros [|a [|b [|c l]]] Hl; simpl in Hl; try lia; auto.
    apply H3, IH. lia. }
  intros l. by apply (Hn (length l)).
Qed.

Definition triples (l : list Z) : Prop := Nat.modulo (length l) 3 = 0%nat.

Lemma triples_cons a b c l : triples (a :: b :: c :: l) <-> triples l.
Proof.
  unfold triples. cbn [length]. replace (S (S (S (length l)))) with (length l + 1 * 3)%nat by lia.
  by rewrite Nat.Div0.mod_add.
Qed.

Lemma b64_encode_app pre l : triples pre -> b64_encode (pre ++ l) = b64_encode pre ++ b64_encode l.
Proof.
  revert pre. induction pre as [|a|a b|a b c pre IH] using three_ind; intros Ht; try done.
  apply triples_cons in Ht. cbn [b64_encode app]. by rewrite (IH Ht).
Qed.

Lemma b64_encode_length l : length (b64_encode l) = (4 * ((length l + 2) / 3))%nat.
Proof.
  induction l as [|a|a b|a b c l IH] using three_ind; try done.
  cbn [b64_encode length app]. rewrite IH.
  replace (S (S (S (length l))) + 2)%nat with (length l + 2 + 1 * 3)%nat by lia.
  rewrite Nat.div_add by lia. lia.
Qed.

(** What the encoder does, group after group. *)
Lemma append_chars_app cs : forall pre rest, (length cs <= length rest)%nat ->
  append_chars (pre ++ rest) (length pre) cs =
    Some (pre ++ cs ++ drop (length cs) rest, (length pre + length cs)%nat).
Proof.
  induction cs as [|c cs IH]; intros pre rest Hl; cbn [append_chars length app].
  { by rewrite drop_0, Nat.add_0_r. }
  destruct rest as [|x rest]; simpl in Hl; [lia|]. rewrite awrite_app_cons. cbn [mbind option_bind].
  specialize (IH (pre ++ [c]) rest). rewrite length_app, <- !app_assoc in IH. simpl in IH.
  rewrite Nat.add_1_r in IH. rewrite IH by lia. cbn [drop]. do 2 f_equal. lia.
Qed.

Definition stored (out target : list Z) : list Z := out ++ drop (length out) target.

Lemma ntop_finish pre rest targsize :
  Z.of_nat (length pre) <= targsize -> targsize <= Z.of_nat (length pre + length rest) ->
  ntop_tail [] (pre ++ rest) (length pre) targsize =
    if Z.of_nat (length pre) <? targsize
    then BRet (s32 (Z.of_nat (length pre))) (pre ++ stored [0] rest)
    else BRet (-1) (pre ++ rest).
Proof.
  intros H1 H2. unfold ntop_tail. destruct (Z.leb_spec targsize (Z.of_nat (length pre))).
  - by rewrite (proj2 (Z.ltb_ge _ _)) by lia.
  - rewrite (proj2 (Z.ltb_lt _ _)) by lia. destruct rest as [|x rest]; [simpl in *; lia|].
    by rewrite awrite_app_cons.
Qed.

(** The result of encoding what is left, [len] characters of it, behind [pre]. *)
Definition ntop_result (targsize : Z) (pre rest out : list Z) (r : bres) : Prop :=
  exists t, length t = length rest /\
    r = if Z.of_nat (length pre + length out) <? targsize
        then BRet (s32 (Z.of_nat (length pre + length out))) (pre ++ stored (out ++ [0]) rest)
        else BRet (-1) (pre ++ t).

Lemma ntop_group targsize (k : list Z -> nat -> bres) pre rest cs out :
  length cs = 4%nat -> targsize <= Z.of_nat (length pre + length rest) ->
  (Z.of_nat (length (pre ++ cs)) <= targsize ->
   ntop_result targsize (pre ++ cs) (drop 4 rest) out
     (k ((pre ++ cs) ++ drop 4 rest) (length (pre ++ cs)))) ->
  ntop_result targsize pre rest (cs ++ out)
    (if targsize <? Z.of_nat (length pre) + 4 then BRet (-1) (pre ++ rest)
     else match append_chars (pre ++ rest) (length pre) cs with
          | Some (target, datalength) => k target datalength
          | None => BFault
          end).
Proof.
  intros Hcs H2 Hk. unfold ntop_result. rewrite length_app, Hcs in *.
  destruct (Z.ltb_spec targsize (Z.of_nat (length pre) + 4)) as [Hlt|Hge].
  - exists rest. split; [done|]. by rewrite (proj2 (Z.ltb_ge _ _)) by lia.
  - destruct Hk as (t & Ht & Hkt); [lia|]. rewrite append_chars_app by lia.
    rewrite Hcs, app_assoc, Hkt. exists (cs ++ t). split.
    + rewrite length_app, Ht, length_drop, Hcs. lia.
    + rewrite length_app, Hcs, <- !Nat.add_assoc. destruct (Z.of_nat (length pre + (4 + length out)) <? targsize); [|by rewrite app_assoc].
      f_equal. unfold stored. rewrite <- !app_assoc. do 2 f_equal.
      rewrite !length_app, Hcs, drop_drop. done.
Qed.

(** The encoder in closed form. *)
Lemma ntop_loop_closed targsize src : forall pre rest,
  Z.of_nat (length pre) <= targsize -> targsize <= Z.of_nat (length pre + length rest) ->
  ntop_result targsize pre rest (b64_encode src)
    (ntop_loop src (pre ++ rest) (length pre) targsize).
Proof.
  assert (forall pre rest, Z.of_nat (length pre) <= targsize ->
    targsize <= Z.of_nat (length pre + length rest) ->
    ntop_result targsize pre rest [] (ntop_tail [] (pre ++ rest) (length pre) targsize)) as Hend.
  { intros pre rest H1 H2. exists rest. split; [done|]. cbn [length app]. rewrite Nat.add_0_r.
    by apply (ntop_finish pre rest targsize). }
  assert (forall pre rest cs, length cs = 4%nat -> targsize <= Z.of_nat (length pre + length rest) ->
    ntop_result targsize pre rest cs
      (if targsize <? Z.of_nat (length pre) + 4 then BRet (-1) (pre ++ rest)
       else match append_chars (pre ++ rest) (length pre) cs with
            | Some (target, datalength) => ntop_tail [] target datalength targsize
            | None => BFault
            end)) as Htail.
  { intros pre rest cs Hcs H2. rewrite <- (app_nil_r cs) at 1. apply ntop_group; [done|done|].
    intros H1. apply Hend; [done|]. rewrite length_app, length_drop in *. lia. }
  induction src as [|a|a b|a b c src IH] using three_ind; intros pre rest H1 H2.
  - by apply Hend.
  - by apply (Htail pre rest [_; _; _; _]).
  - by apply (Htail pre rest [_; _; _; _]).
  - cbn [ntop_loop b64_encode].
    apply (ntop_group targsize (fun t n => ntop_loop src t n targsize) pre rest [_; _; _; _]);
      [done|done|].
    intros H3. apply IH; [done|]. rewrite length_app, length_drop in *. simpl in *. lia.
Qed.

(** * The decoder *)

(** White space is skipped wherever it stands. *)
Definition visible_chars (src : list Z) : list Z := filter (fun c => isspace c = false) src.

Lemma skip_space_filter src : skip_space (visible_chars src) = visible_chars (skip_space src).
Proof.
  unfold visible_chars. induction src as [|c src IH]; [done|]. cbn [skip_space].
  rewrite filter_cons. destruct (isspace c) eqn:E.
  - by rewrite decide_False by done.
  - rewrite decide_True by done. cbn [skip_space]. by rewrite E, filter_cons, decide_True.
Qed.

Lemma skip_space_head src : match skip_space src with c :: _ => isspace c = false | [] => True end.
Proof. induction src as [|c src IH]; [done|]. cbn. by destruct (isspace c) eqn:E. Qed.

Lemma visible_nil src : visible_chars src = [] <-> skip_space src = [].
Proof.
  unfold visible_chars. induction src as [|c src IH]; [done|]. rewrite filter_cons. cbn [skip_space].
  destruct (isspace c); [by rewrite decide_False by done|by rewrite decide_True].
Qed.

Lemma visible_skip src : visible_chars src = visible_chars (skip_space src).
Proof.
  induction src as [|c src IH]; [done|]. cbn [skip_space]. destruct (isspace c) eqn:E; [|done].
  unfold visible_chars. rewrite filter_cons, decide_False by congruence. exact IH.
Qed.

(** Where the decoder stands: [cs] are the digits read, the complete groups of
    which are the encoding of [pre], the stored bytes before the current group. *)
Inductive pinv (t : list Z) : nat -> nat -> list Z -> Prop :=
| pinv0 pre r : triples pre -> Forall is_byte pre -> t = pre ++ r ->
    pinv t 0 (length pre) (b64_encode pre)
| pinv1 pre v0 r : triples pre -> Forall is_byte pre -> sextet v0 -> t = pre ++ u8 (v0 .<< 2) :: r ->
    pinv t 1 (length pre) (b64_encode pre ++ [b64_char v0])
| pinv2 pre v0 v1 r : triples pre -> Forall is_byte pre -> sextet v0 -> sextet v1 ->
    t = pre ++ join62 v0 (v1 .>> 4) :: u8 ((v1 .& 15) .<< 4) :: r ->
    pinv t 2 (S (length pre)) (b64_encode pre ++ [b64_char v0; b64_char v1])
| pinv3 pre v0 v1 v2 r : triples pre -> Forall is_byte pre -> sextet v0 -> sextet v1 -> sextet v2 ->
    t = pre ++ join62 v0 (v1 .>> 4) :: join44 (v1 .& 15) (v2 .>> 2) :: u8 ((v2 .& 3) .<< 6) :: r ->
    pinv t 3 (S (S (length pre))) (b64_encode pre ++ [b64_char v0; b64_char v1; b64_char v2]).

Lemma triples_snoc pre b0 b1 b2 : triples pre -> triples (pre ++ [b0; b1; b2]).
Proof.
  unfold triples. intros Ht. rewrite length_app. cbn [length].
  replace (length pre + 3)%nat with (length pre + 1 * 3)%nat by lia. by rewrite Nat.Div0.mod_add.
Qed.

(** A complete group is encoded by the digits it was read from. *)
Lemma encode_group v0 v1 v2 v3 : sextet v0 -> sextet v1 -> sextet v2 -> sextet v3 ->
  let b0 := join62 v0 (v1 .>> 4) in let b1 := join44 (v1 .& 15) (v2 .>> 2) in
  let b2 := join26 (v2 .& 3) v3 in
  b64_encode [b0; b1; b2] = [b64_char v0; b64_char v1; b64_char v2; b64_char v3] /\
  Forall is_byte [b0; b1; b2].
Proof.
  intros H0 H1 H2 H3.
  destruct (sextet_split v1 H1) as [(E1 & R1 & R1') _].
  destruct (sextet_split v2 H2) as [_ (E2 & R2 & R2')].
  destruct (join62_split v0 (v1 .>> 4) H0 R1) as (A1 & A2 & A3).
  destruct (join44_split (v1 .& 15) (v2 .>> 2) R1' R2) as (B1 & B2 & B3).
  destruct (join26_split (v2 .& 3) v3 R2' H3) as (C1 & C2 & C3).
  destruct (outputs_pieces _ _ _ A3 B3 C3) as (O0 & O1 & O2 & O3).
  cbv zeta. cbn [b64_encode app]. rewrite O0, O1, O2, O3, A1, A2, B1, B2, C1, C2, E1, E2.
  split; [done|]. by rewrite !Forall_cons, Forall_nil.
Qed.

Lemma encode_pair v0 v1 v2 : sextet v0 -> sextet v1 -> sextet v2 -> u8 ((v2 .& 3) .<< 6) = 0 ->
  let b0 := join62 v0 (v1 .>> 4) in let b1 := join44 (v1 .& 15) (v2 .>> 2) in
  b64_encode [b0; b1] = [b64_char v0; b64_char v1; b64_char v2; Pad64].
Proof.
  intros H0 H1 H2 Hz. assert (v2 .& 3 = 0) as Hv2.
  { pose proof (forall_range 64 (fun v => negb (u8 ((v .& 3) .<< 6) =? 0) || (v .& 3 =? 0))
      ltac:(vm_compute; reflexivity) v2 H2) as H. cbv beta in H. rewrite Hz in H. exact (proj1 (Z.eqb_eq _ _) H). }
  destruct (sextet_split v1 H1) as [(E1 & R1 & R1') _].
  destruct (sextet_split v2 H2) as [_ (E2 & R2 & R2')].
  destruct (join62_split v0 (v1 .>> 4) H0 R1) as (A1 & A2 & A3).
  destruct (join44_split (v1 .& 15) (v2 .>> 2) R1' R2) as (B1 & B2 & B3).
  destruct (outputs_pieces _ _ 0 A3 B3 ltac:(unfold is_byte; lia)) as (O0 & O1 & O2 & _).
  cbv zeta. cbn [b64_encode nth length Nat.eqb]. rewrite O0, O1, O2, A1, A2, B1, B2, E1.
  change (0 .>> 6) with 0. rewrite <- Hv2, E2. done.
Qed.

Lemma encode_single v0 v1 : sextet v0 -> sextet v1 -> u8 ((v1 .& 15) .<< 4) = 0 ->
  b64_encode [join62 v0 (v1 .>> 4)] = [b64_char v0; b64_char v1; Pad64; Pad64].
Proof.
  intros H0 H1 Hz. assert (v1 .& 15 = 0) as Hv1.
  { pose proof (forall_range 64 (fun v => negb (u8 ((v .& 15) .<< 4) =? 0) || (v .& 15 =? 0))
      ltac:(vm_compute; reflexivity) v1 H1) as H. cbv beta in H. rewrite Hz in H. exact (proj1 (Z.eqb_eq _ _) H). }
  destruct (sextet_split v1 H1) as [(E1 & R1 & R1') _].
  destruct (join62_split v0 (v1 .>> 4) H0 R1) as (A1 & A2 & A3).
  destruct (outputs_pieces _ 0 0 A3 ltac:(unfold is_byte; lia) ltac:(unfold is_byte; lia))
    as (O0 & O1 & _ & _).
  cbn [b64_encode nth length Nat.eqb]. rewrite O0, O1, A1, A2. change (0 .>> 4) with 0.
  rewrite <- Hv1, E1. done.
Qed.

(** One digit keeps the invariant, or there is no room. *)
Lemma pton_digit_step t st idx cs v sz : pinv t st idx cs -> sextet v -> sz <= Z.of_nat (length t) ->
  pton_digit v st idx (Some t) sz = Some None \/
  exists st' idx' t', pton_digit v st idx (Some t) sz = Some (Some (st', idx', Some t')) /\
    pinv t' st' idx' (cs ++ [b64_char v]) /\ length t' = length t.
Proof.
  intros Hinv Hv Hsz. destruct Hinv as [pre r Ht Hb ->|pre v0 r Ht Hb H0 ->|pre v0 v1 r Ht Hb H0 H1 ->|
    pre v0 v1 v2 r Ht Hb H0 H1 H2 ->]; unfold pton_digit, no_room.
  - destruct (Z.leb_spec sz (Z.of_nat (length pre))); [by left|right].
    rewrite length_app in Hsz. destruct r as [|x r]; [simpl in *; lia|].
    unfold tset. rewrite awrite_app_cons. cbn [mbind option_bind].
    do 3 eexists. split; [done|]. split; [by apply (pinv1 _ _ _ r)|].
    by rewrite !length_app.
  - destruct (Z.leb_spec sz (Z.of_nat (S (length pre)))); [by left|right].
    rewrite length_app in Hsz. destruct r as [|x r]; [simpl in *; lia|].
    unfold tor. rewrite lookup_at by done. cbn [mbind option_bind].
    rewrite awrite_app_cons. cbn [mbind option_bind tset].
    rewrite (cons_middle _ pre), app_assoc, awrite_at by (rewrite length_app; simpl; lia).
    cbn [mbind option_bind]. do 3 eexists. split; [done|].
    rewrite <- app_assoc. cbn [app]. split; [|by rewrite !length_app].
    rewrite <- app_assoc. cbn [app]. by apply (pinv2 _ _ _ _ r).
  - destruct (Z.leb_spec sz (Z.of_nat (S (S (length pre))))); [by left|right].
    rewrite length_app in Hsz. destruct r as [|x r]; [simpl in *; lia|].
    rewrite (cons_middle _ pre), app_assoc.
    unfold tor. rewrite lookup_at by (rewrite length_app; simpl; lia). cbn [mbind option_bind].
    rewrite awrite_at by (rewrite length_app; simpl; lia). cbn [mbind option_bind tset].
    rewrite (cons_middle _ (pre ++ _)), app_assoc, awrite_at by (rewrite !length_app; simpl; lia).
    cbn [mbind option_bind]. do 3 eexists. split; [done|].
    rewrite <- !app_assoc. cbn [app]. split; [|by rewrite !length_app].
    by apply (pinv3 _ _ _ _ _ r).
  - destruct (Z.leb_spec sz (Z.of_nat (S (S (length pre))))); [by left|right].
    rewrite (cons_middle _ pre), app_assoc, (cons_middle _ (pre ++ _)), app_assoc.
    unfold tor. rewrite lookup_at by (rewrite !length_app; simpl; lia). cbn [mbind option_bind].
    rewrite awrite_at by (rewrite !length_app; simpl; lia). cbn [mbind option_bind].
    do 3 eexists. split; [done|]. split; [|by rewrite !length_app].
    destruct (encode_group v0 v1 v2 v H0 H1 H2 Hv) as [He Hbs].
    set (b0 := join62 _ _) in *. set (b1 := join44 _ _) in *.
    change (u8 (u8 ((v2 .& 3) .<< 6) .| v)) with (join26 (v2 .& 3) v).
    set (b2 := join26 _ _) in *.
    replace (S (S (S (length pre)))) with (length (pre ++ [b0; b1; b2]))
      by (rewrite length_app; simpl; lia).
    rewrite <- (app_assoc (b64_encode pre)). cbn [app]. rewrite <- He, <- b64_encode_app by done.
    apply (pinv0 _ _ r); [by apply triples_snoc|by apply Forall_app|].
    by rewrite <- !app_assoc.
Qed.

(** ** The result of decoding *)

(** A return of [n] bytes [take n t'] that encode to the visible characters. *)
Definition pton_ok (sz : Z) (t : list Z) (cs src : list Z) (r : pres) : Prop :=
  exists n t', r = PRet n (Some t') /\ length t' = length t /\
    (n = -1 \/
     (0 <= n <= sz /\ b64_encode (take (Z.to_nat n) t') = cs ++ visible_chars src /\
      Forall is_byte (take (Z.to_nat n) t'))).

Lemma visible_in c src : isspace c = false -> visible_chars (c :: src) = c :: visible_chars src.
Proof. intros Hc. unfold visible_chars. by rewrite filter_cons, decide_True. Qed.
Lemma visible_out c src : isspace c = true -> visible_chars (c :: src) = visible_chars src.
Proof. intros Hc. unfold visible_chars. by rewrite filter_cons, decide_False by congruence. Qed.

Lemma pinv_index t st idx cs : pinv t st idx cs -> (idx <= length t)%nat.
Proof. destruct 1; subst; rewrite length_app; simpl; lia. Qed.

(** The two padded endings: the slop byte is there, and when it is zero the
    digits read are the canonical ones. *)
Lemma pinv_pad2 t idx cs : pinv t 2 idx cs ->
  exists x, t !! idx = Some x /\
    (x = 0 -> b64_encode (take idx t) = cs ++ [Pad64; Pad64] /\ Forall is_byte (take idx t)).
Proof.
  intros H. inversion H as [| |pre v0 v1 r Ht Hb H0 H1 E|]; subst; clear H.
  exists (u8 ((v1 .& 15) .<< 4)). rewrite (cons_middle _ pre), app_assoc.
  assert (S (length pre) = length (pre ++ [join62 v0 (v1 .>> 4)])) as Hl by (rewrite length_app; simpl; lia).
  split; [by apply lookup_at|]. intros Hz. rewrite Hl, take_app_length, <- app_assoc.
  cbn [app]. rewrite b64_encode_app, encode_single by done. split; [done|].
  apply Forall_app_2; [done|]. apply Forall_singleton, u8_range.
Qed.

Lemma pinv_pad3 t idx cs : pinv t 3 idx cs ->
  exists x, t !! idx = Some x /\
    (x = 0 -> b64_encode (take idx t) = cs ++ [Pad64] /\ Forall is_byte (take idx t)).
Proof.
  intros H. inversion H as [| | |pre v0 v1 v2 r Ht Hb H0 H1 H2 E]; subst; clear H.
  exists (u8 ((v2 .& 3) .<< 6)). set (b0 := join62 _ _). set (b1 := join44 _ _).
  replace (pre ++ b0 :: b1 :: u8 ((v2 .& 3) .<< 6) :: r)
    with ((pre ++ [b0; b1]) ++ u8 ((v2 .& 3) .<< 6) :: r) by (by rewrite <- app_assoc).
  assert (S (S (length pre)) = length (pre ++ [b0; b1])) as Hl by (rewrite length_app; simpl; lia).
  split; [by apply lookup_at|]. intros Hz. rewrite Hl, take_app_length, <- app_assoc.
  cbn [app]. rewrite b64_encode_app by done. unfold b0, b1. rewrite encode_pair by done.
  split; [done|]. apply Forall_app_2; [done|]. by repeat constructor; apply u8_range.
Qed.

Lemma pton_fail sz t cs src : pton_ok sz t cs src (PRet (-1) (Some t)).
Proof. exists (-1), t. auto. Qed.

Lemma pton_done sz t idx cs src : (idx <= length t)%nat -> Z.of_nat (length t) < 2 ^ 31 ->
  Z.of_nat idx <= sz -> b64_encode (take idx t) = cs ++ visible_chars src -> Forall is_byte (take idx t) ->
  pton_ok sz t cs src (PRet (s32 (Z.of_nat idx)) (Some t)).
Proof.
  intros H1 H2 H3 H4 H5. rewrite s32_small by lia. exists (Z.of_nat idx), t. rewrite Nat2Z.id.
  split_and!; [done|done|right]. split_and!; [lia|done|done|done].
Qed.

Lemma pton_pad_ok t st idx cs src : pinv t st idx cs -> Z.of_nat (length t) < 2 ^ 31 ->
  pton_ok (Z.of_nat (length t)) t cs (Pad64 :: src) (pton_pad src st idx (Some t)).
Proof.
  intros Hinv Hlen. pose proof (pinv_index _ _ _ _ Hinv) as Hi.
  unfold pton_pad. destruct st as [|[|[|st]]]; [apply pton_fail|apply pton_fail| |].
  - destruct (skip_space src) as [|c rest] eqn:Es; [apply pton_fail|].
    destruct (Z.eqb_spec c Pad64) as [->|]; [|apply pton_fail].
    destruct (skip_space rest) eqn:Er; [|apply pton_fail].
    destruct (pinv_pad2 _ _ _ Hinv) as (x & -> & Hx). destruct (Z.eqb_spec x 0) as [H0|]; [|apply pton_fail].
    destruct (Hx H0) as [He Hb]. apply pton_done; [done|done|lia| |done].
    rewrite He, visible_in, visible_skip, Es, visible_in by done. by rewrite (proj2 (visible_nil rest)).
  - assert (st = 0)%nat as -> by (by inversion Hinv).
    destruct (skip_space src) eqn:Er; [|apply pton_fail].
    destruct (pinv_pad3 _ _ _ Hinv) as (x & -> & Hx). destruct (Z.eqb_spec x 0) as [H0|]; [|apply pton_fail].
    destruct (Hx H0) as [He Hb]. apply pton_done; [done|done|lia| |done].
    rewrite He, visible_in by done. by rewrite (proj2 (visible_nil src)).
Qed.

Lemma pton_ok_step sz t t' cs c src r : length t' = length t -> isspace c = false ->
  pton_ok sz t' (cs ++ [c]) src r -> pton_ok sz t cs (c :: src) r.
Proof.
  intros Hl Hc (n & u & -> & Hu & Hn). exists n, u. split; [done|]. split; [congruence|].
  rewrite visible_in by done. by rewrite <- app_assoc in Hn.
Qed.

Lemma pton_loop_ok src : forall t st idx cs, pinv t st idx cs -> Z.of_nat (length t) < 2 ^ 31 ->
  pton_ok (Z.of_nat (length t)) t cs src (pton_loop src st idx (Some t) (Z.of_nat (length t))).
Proof.
  induction src as [|c src IH]; intros t st idx cs Hinv Hlen; cbn [pton_loop].
  - destruct (Nat.eqb_spec st 0) as [->|]; [|apply pton_fail].
    pose proof (pinv_index _ _ _ _ Hinv). inversion Hinv; subst.
    apply pton_done; [done|done|lia| |]; rewrite take_app_length; [by rewrite app_nil_r|done].
  - destruct (isspace c) eqn:Ec.
    + destruct (IH t st idx cs Hinv Hlen) as (n & u & Hr & Hu & Hn). exists n, u.
      by rewrite visible_out.
    + destruct (Z.eqb_spec c Pad64) as [->|]; [by apply pton_pad_ok|].
      destruct (b64_pos c) as [v|] eqn:Ep; [|apply pton_fail].
      apply b64_pos_spec in Ep as [Hv ->].
      destruct (pton_digit_step t st idx cs v (Z.of_nat (length t)) Hinv Hv ltac:(lia))
        as [->|(st' & idx' & t' & -> & Hinv' & Hl)]; [apply pton_fail|].
      apply (pton_ok_step _ t t'); [done|done|]. rewrite <- Hl. apply IH; [done|lia].
Qed.

(** White space changes nothing, before a pad character or behind it. *)
Lemma pton_pad_visible src st idx tgt :
  pton_pad (visible_chars src) st idx tgt = pton_pad src st idx tgt.
Proof.
  unfold pton_pad. destruct st as [|[|[|st]]]; [done|done| |].
  - rewrite skip_space_filter. pose proof (skip_space_head src) as Hh.
    destruct (skip_space src) as [|c rest]; [done|]. rewrite visible_in by done.
    destruct (c =? Pad64); [|done]. rewrite skip_space_filter.
    pose proof (skip_space_head rest) as Hr.
    destruct (skip_space rest) as [|d rest']; [done|]. by rewrite visible_in.
  - rewrite skip_space_filter. pose proof (skip_space_head src) as Hh.
    destruct (skip_space src) as [|c rest]; [done|]. by rewrite visible_in.
Qed.

Lemma pton_loop_visible src : forall st idx tgt sz,
  pton_loop (visible_chars src) st idx tgt sz = pton_loop src st idx tgt sz.
Proof.
  induction src as [|c src IH]; intros st idx tgt sz; [done|]. destruct (isspace c) eqn:Ec.
  - rewrite visible_out by done. cbn [pton_loop]. by rewrite Ec.
  - rewrite visible_in by done. cbn [pton_loop]. rewrite Ec, pton_pad_visible.
    destruct (c =? Pad64); [done|]. destruct (b64_pos c) as [v|]; [|done].
    destruct (pton_digit v st idx tgt sz) as [[[[? ?] ?]|]|]; [apply IH|done|done].
Qed.

(** ** Digits that find room *)

Section Room.
Context (sz : Z) (pre r src : list Z) (x h v : Z) (Hv : sextet v).

Lemma pton_digit_char st idx tgt : pton_loop (b64_char v :: src) st idx tgt sz =
  match pton_digit v st idx tgt sz with
  | None => PFault
  | Some None => PRet (-1) tgt
  | Some (Some (st, idx, tgt)) => pton_loop src st idx tgt sz
  end.
Proof. destruct (b64_char_spec v Hv) as (H1 & H2 & H3 & _). cbn [pton_loop]. by rewrite H1, H2, H3. Qed.

Lemma room_true n : Z.of_nat n < sz -> (sz <=? Z.of_nat n) = false.
Proof. intros. apply Z.leb_gt. lia. Qed.

Lemma pton_fwd0 : Z.of_nat (length pre) < sz ->
  pton_loop (b64_char v :: src) 0 (length pre) (Some (pre ++ x :: r)) sz =
  pton_loop src 1 (length pre) (Some (pre ++ u8 (v .<< 2) :: r)) sz.
Proof.
  intros H. rewrite pton_digit_char. unfold pton_digit, no_room, tset.
  by rewrite room_true, awrite_app_cons.
Qed.

Lemma pton_fwd3 : Z.of_nat (length pre) < sz ->
  pton_loop (b64_char v :: src) 3 (length pre) (Some (pre ++ h :: r)) sz =
  pton_loop src 0 (S (length pre)) (Some (pre ++ u8 (h .| v) :: r)) sz.
Proof.
  intros H. rewrite pton_digit_char. unfold pton_digit, no_room, tor.
  rewrite room_true, lookup_at by done. cbn [mbind option_bind]. by rewrite awrite_app_cons.
Qed.

(** The two middle digits finish a byte and start the next. *)
Lemma pton_mid (a b : Z) (out : nat) :
  (target ← tor (Some (pre ++ h :: x :: r)) (length pre) a;
   target ← tset target (S (length pre)) b; Some (Some (out, S (length pre), target))) =
  Some (Some (out, S (length pre), Some (pre ++ u8 (h .| a) :: u8 b :: r))).
Proof.
  unfold tor. rewrite lookup_at by done. cbn [mbind option_bind]. rewrite awrite_app_cons.
  cbn [mbind option_bind tset]. rewrite (cons_middle _ pre), app_assoc, awrite_at
    by (rewrite length_app; simpl; lia). cbn [mbind option_bind]. by rewrite <- app_assoc.
Qed.

Lemma pton_fwd1 : Z.of_nat (S (length pre)) < sz ->
  pton_loop (b64_char v :: src) 1 (length pre) (Some (pre ++ h :: x :: r)) sz =
  pton_loop src 2 (S (length pre)) (Some (pre ++ u8 (h .| v .>> 4) :: u8 ((v .& 15) .<< 4) :: r)) sz.
Proof.
  intros H. rewrite pton_digit_char. unfold pton_digit, no_room. by rewrite room_true, pton_mid.
Qed.

Lemma pton_fwd2 : Z.of_nat (S (length pre)) < sz ->
  pton_loop (b64_char v :: src) 2 (length pre) (Some (pre ++ h :: x :: r)) sz =
  pton_loop src 3 (S (length pre)) (Some (pre ++ u8 (h .| v .>> 2) :: u8 ((v .& 3) .<< 6) :: r)) sz.
Proof.
  intros H. rewrite pton_digit_char. unfold pton_digit, no_room. by rewrite room_true, pton_mid.
Qed.

End Room.

Lemma length_snoc {A} (l : list A) x : S (length l) = length (l ++ [x]).
Proof. rewrite length_app. simpl. lia. Qed.

(** The first three digits of a group. *)
Lemma pton_group3 sz pre i0 i1 v2 src x y z r :
  is_byte i0 -> is_byte i1 -> sextet v2 -> v2 .>> 2 = i1 .& 15 ->
  Z.of_nat (length pre) + 2 < sz ->
  pton_loop (b64_char (output0 i0 i1 0) :: b64_char (output1 i0 i1 0) :: b64_char v2 :: src)
    0 (length pre) (Some (pre ++ x :: y :: z :: r)) sz =
  pton_loop src 3 (length (pre ++ [i0; i1])) (Some ((pre ++ [i0; i1]) ++ u8 ((v2 .& 3) .<< 6) :: r)) sz.
Proof.
  intros H0 H1 Hv2 E2 Hsz.
  destruct (outputs_pieces i0 i1 0 H0 H1 ltac:(unfold is_byte; lia)) as (-> & -> & _).
  destruct (byte_split i0 H0) as [(J0 & R0 & R0') _].
  destruct (byte_split i1 H1) as (_ & (J1 & R1 & R1') & _).
  destruct (glue4_split (i0 .& 3) (i1 .>> 4) R0' R1) as (G1 & G2 & G3).
  rewrite pton_fwd0, pton_fwd1 by first [done|lia]. rewrite G1, G2.
  change (u8 (u8 (i0 .>> 2 .<< 2) .| i0 .& 3)) with (join62 (i0 .>> 2) (i0 .& 3)). rewrite J0.
  rewrite (length_snoc pre i0), (cons_middle i0 pre (_ :: _)), (app_assoc pre).
  rewrite pton_fwd2 by first [done|rewrite <- length_snoc; lia]. rewrite E2.
  change (u8 (u8 (i1 .>> 4 .<< 4) .| i1 .& 15)) with (join44 (i1 .>> 4) (i1 .& 15)). rewrite J1.
  rewrite (length_snoc (pre ++ [i0]) i1), (cons_middle i1 (pre ++ [i0]) (_ :: _)), (app_assoc (pre ++ [i0])).
  by rewrite <- !app_assoc.
Qed.

Lemma pton_group4 sz pre i0 i1 i2 src x y z r :
  is_byte i0 -> is_byte i1 -> is_byte i2 -> Z.of_nat (length pre) + 2 < sz ->
  pton_loop (b64_encode [i0; i1; i2] ++ src) 0 (length pre) (Some (pre ++ x :: y :: z :: r)) sz =
  pton_loop src 0 (length (pre ++ [i0; i1; i2])) (Some ((pre ++ [i0; i1; i2]) ++ r)) sz.
Proof.
  intros H0 H1 H2 Hsz. cbn [b64_encode app].
  destruct (outputs_pieces i0 i1 i2 H0 H1 H2) as (_ & _ & E2 & E3).
  destruct (byte_split i1 H1) as (_ & (_ & _ & R1) & _).
  destruct (byte_split i2 H2) as (_ & _ & (J2 & R2 & R2')).
  destruct (glue2_split (i1 .& 15) (i2 .>> 6) R1 R2) as (G1 & G2 & G3).
  unfold output0 at 1, output1 at 1. fold (output0 i0 i1 0). fold (output1 i0 i1 0).
  rewrite pton_group3 by first [done|lia|by rewrite E2]. rewrite E2, E3, G2.
  rewrite pton_fwd3 by first [done|rewrite length_app; simpl; lia].
  change (u8 (u8 (i2 .>> 6 .<< 6) .| i2 .& 63)) with (join26 (i2 .>> 6) (i2 .& 63)). rewrite J2.
  rewrite (length_snoc _ i2), (cons_middle i2 (pre ++ [i0; i1]) r), (app_assoc (pre ++ [i0; i1])).
  by rewrite <- !(app_assoc pre).
Qed.

(** The padded endings. *)
Lemma pton_group_pair sz pre i0 i1 x y z r : is_byte i0 -> is_byte i1 ->
  Z.of_nat (length pre) + 2 < sz ->
  pton_loop (b64_encode [i0; i1]) 0 (length pre) (Some (pre ++ x :: y :: z :: r)) sz =
  PRet (s32 (Z.of_nat (length (pre ++ [i0; i1])))) (Some ((pre ++ [i0; i1]) ++ 0 :: r)).
Proof.
  intros H0 H1 Hsz. cbn [b64_encode nth length Nat.eqb].
  destruct (outputs_pieces i0 i1 0 H0 H1 ltac:(unfold is_byte; lia)) as (_ & _ & E2 & _).
  destruct (byte_split i1 H1) as (_ & (_ & _ & R1) & _).
  destruct (glue2_split (i1 .& 15) (0 .>> 6) R1 ltac:(vm_compute; done)) as (G1 & G2 & G3).
  rewrite pton_group3 by first [done|lia|by rewrite E2]. rewrite E2, G2.
  cbn [pton_loop]. change (isspace Pad64) with false. rewrite Z.eqb_refl. cbn [pton_pad skip_space].
  by rewrite lookup_at.
Qed.

Lemma pton_group_single sz pre i0 x y r : is_byte i0 -> Z.of_nat (length pre) + 1 < sz ->
  pton_loop (b64_encode [i0]) 0 (length pre) (Some (pre ++ x :: y :: r)) sz =
  PRet (s32 (Z.of_nat (length (pre ++ [i0])))) (Some ((pre ++ [i0]) ++ 0 :: r)).
Proof.
  intros H0 Hsz. cbn [b64_encode nth length Nat.eqb].
  destruct (outputs_pieces i0 0 0 H0 ltac:(unfold is_byte; lia) ltac:(unfold is_byte; lia)) as (-> & -> & _).
  destruct (byte_split i0 H0) as [(J0 & R0 & R0') _].
  destruct (glue4_split (i0 .& 3) (0 .>> 4) R0' ltac:(vm_compute; done)) as (G1 & G2 & G3).
  rewrite pton_fwd0, pton_fwd1 by first [done|lia]. rewrite G1, G2.
  change (u8 (u8 (i0 .>> 2 .<< 2) .| i0 .& 3)) with (join62 (i0 .>> 2) (i0 .& 3)). rewrite J0.
  rewrite (length_snoc pre i0), (cons_middle i0 pre (_ :: _)), (app_assoc pre).
  cbn [pton_loop]. change (isspace Pad64) with false. rewrite Z.eqb_refl. cbn [pton_pad skip_space].
  change (isspace Pad64) with false. cbn iota. rewrite Z.eqb_refl. cbn [skip_space].
  by rewrite lookup_at.
Qed.

(** Decoding the encoding behind [pre], where the target has room for the bytes
    and, unless they are whole groups, for one more. *)
Lemma pton_encode sz src : Forall is_byte src -> forall pre r,
  (length src + (if decide (triples src) then 0 else 1) <= length r)%nat ->
  Z.of_nat (length (pre ++ r)) <= sz ->
  exists r', length r' = (length r - length src)%nat /\
    pton_loop (b64_encode src) 0 (length pre) (Some (pre ++ r)) sz =
    PRet (s32 (Z.of_nat (length (pre ++ src)))) (Some (pre ++ src ++ r')).
Proof.
  induction src as [|a|a b|a b c src IH] using three_ind; intros Hb pre r Hr Hsz.
  - exists r. split; [simpl; lia|]. by rewrite app_nil_r.
  - apply Forall_cons in Hb as [Ha _]. rewrite decide_False in Hr by done.
    rewrite length_app in Hsz. destruct r as [|x [|y r]]; simpl in Hr; try lia. simpl in Hsz.
    exists (0 :: r). split; [simpl; lia|]. rewrite pton_group_single by first [done|lia].
    by rewrite <- app_assoc.
  - rewrite !Forall_cons in Hb. destruct Hb as (Ha & Hb & _). rewrite decide_False in Hr by done.
    rewrite length_app in Hsz. destruct r as [|x [|y [|z r]]]; simpl in Hr; try lia. simpl in Hsz.
    exists (0 :: r). split; [simpl; lia|]. rewrite pton_group_pair by first [done|lia].
    by rewrite <- app_assoc.
  - rewrite !Forall_cons in Hb. destruct Hb as (Ha & Hb & Hc & Hs).
    rewrite length_app in Hsz. destruct r as [|x [|y [|z r]]]; try (simpl in Hr; lia). simpl in Hsz.
    change (b64_encode (a :: b :: c :: src)) with (b64_encode [a; b; c] ++ b64_encode src).
    rewrite pton_group4 by first [done|lia].
    destruct (IH Hs (pre ++ [a; b; c]) r) as (r' & Hr' & E).
    + pose proof (triples_cons a b c src) as Htr. simpl length in Hr.
      repeat case_decide; first [tauto|lia].
    + rewrite !length_app. simpl. lia.
    + exists r'. split; [simpl; lia|]. rewrite E. by rewrite <- !app_assoc.
Qed.

(** * Properties *)

(** [compat_b64_ntop] is exact at its bound: into a target of at least
    [targsize] bytes it never stores outside; it returns the length of the
    encoding, with the encoding and its NUL at the start of the target and the
    rest untouched, when all of it fits in [targsize], and -1 otherwise. *)
Theorem b64_ntop_exact targsize src target :
  0 <= targsize <= Z.of_nat (length target) ->
  let len := (4 * ((length src + 2) / 3))%nat in
  length (b64_encode src) = len /\
  if Z.of_nat len <? targsize
  then compat_b64_ntop src target targsize =
         BRet (s32 (Z.of_nat len)) (b64_encode src ++ 0 :: drop (S len) target)
  else exists t, length t = length target /\ compat_b64_ntop src target targsize = BRet (-1) t.
Proof.
  intros H len. pose proof (b64_encode_length src) as Hlen. split; [done|].
  destruct (ntop_loop_closed targsize src [] target ltac:(simpl; lia) ltac:(simpl; lia)) as (t & Ht & E).
  cbn [app length Nat.add] in E. rewrite Hlen in E. fold len in E. unfold compat_b64_ntop.
  destruct (Z.of_nat len <? targsize); [|by exists t].
  rewrite E. unfold stored. rewrite length_app, Hlen, <- app_assoc. cbn [length app].
  by rewrite Nat.add_1_r.
Qed.

Lemma b64_ntop_exact_witness :
  compat_b64_ntop (codes "M") (codes "......") 6 = BRet 4 (codes "TQ==" ++ 0 :: codes ".").
Proof. exact (proj2 (b64_ntop_exact 6 (codes "M") (codes "......") ltac:(vm_compute; split; discriminate))). Defined.

(** C34. What [compat_b64_ntop] writes, [compat_b64_pton] reads back, whatever
    white space has been put between its characters: it returns the number of
    the bytes encoded and has stored them, given room for them and, when they are
    not whole groups of three, for one byte more. *)
Theorem b64_roundtrip src target k t1 w u :
  Forall is_byte src -> Z.of_nat (length src) < 2 ^ 28 ->
  compat_b64_ntop src target (Z.of_nat (length target)) = BRet k t1 -> 0 <= k ->
  visible_chars w = take (Z.to_nat k) t1 ->
  (length src + (if decide (triples src) then 0 else 1) <= length u)%nat ->
  exists u', compat_b64_pton w (Some u) (Z.of_nat (length u)) = PRet (Z.of_nat (length src)) (Some (src ++ u')) /\
    length u' = (length u - length src)%nat.
Proof.
  intros Hb Hn E Hk Hw Hu. unfold compat_b64_ntop in E.
  pose proof (b64_encode_length src) as Hlen.
  pose proof (Nat.Div0.div_le_upper_bound (length src + 2) 3 (length src + 2) ltac:(lia)) as Hdiv.
  destruct (ntop_loop_closed (Z.of_nat (length target)) src [] target ltac:(simpl; lia) ltac:(simpl; lia)) as (t & Ht & E').
  cbn [app length Nat.add] in E'. rewrite E in E'.
  destruct (_ <? _); [|injection E'; lia]. rewrite s32_small in E' by lia. injection E' as -> ->.
  unfold stored in Hw. rewrite Nat2Z.id, <- app_assoc, take_app_length in Hw.
  unfold compat_b64_pton. rewrite <- pton_loop_visible, Hw.
  destruct (pton_encode (Z.of_nat (length u)) src Hb [] u Hu (Z.le_refl _)) as (r' & Hr' & Er).
  cbn [app length] in Er. exists r'. split; [|done]. rewrite Er, s32_small by lia. done.
Qed.

Lemma b64_roundtrip_witness :
  exists u', compat_b64_pton (codes " TW Fu IA= = ") (Some (codes ".....")) 5 =
    PRet 4 (Some (codes "Man " ++ u')) /\ length u' = 1%nat.
Proof.
  apply (b64_roundtrip (codes "Man ") (repeat 0 9) 8 (codes "TWFuIA==" ++ [0]) (codes " TW Fu IA= = ") (codes ".....")).
  - repeat constructor; discriminate.
  - reflexivity.
  - vm_compute; reflexivity.
  - lia.
  - vm_compute; reflexivity.
  - vm_compute. lia.
Defined.

(** C33. [compat_b64_pton] on any string: it never touches a byte outside the
    target, and it returns -1 or the number [n] of bytes stored, in which case
    the visible characters of the string are exactly the encoding of these bytes:
    a byte string has one accepted spelling only (no unpadded or over-padded
    form, no stray bits in the last digit). *)
Theorem b64_pton_canonical src target : Z.of_nat (length target) < 2 ^ 31 ->
  exists n t, compat_b64_pton src (Some target) (Z.of_nat (length target)) = PRet n (Some t) /\
    length t = length target /\
    (n = -1 \/
     0 <= n <= Z.of_nat (length target) /\ Forall is_byte (take (Z.to_nat n) t) /\
     visible_chars src = b64_encode (take (Z.to_nat n) t)).
Proof.
  intros Hlen. unfold compat_b64_pton.
  destruct (pton_loop_ok src target 0 0 [] (pinv0 target [] target eq_refl (Forall_nil_2 _) eq_refl) Hlen)
    as (n & t & E & Ht & Hn).
  exists n, t. split_and!; [done|done|]. destruct Hn as [->|(H1 & H2 & H3)]; [by left|right].
  by rewrite H2.
Qed.

Lemma b64_pton_canonical_witness :
  (exists n t, compat_b64_pton (codes "TR==") (Some [0; 0]) 2 = PRet n (Some t) /\
    length t = 2%nat /\ (n = -1 \/ 0 <= n <= 2 /\ Forall is_byte (take (Z.to_nat n) t) /\
     visible_chars (codes "TR==") = b64_encode (take (Z.to_nat n) t))) /\
  compat_b64_pton (codes "TR==") (Some [0; 0]) 2 = PRet (-1) (Some [77; 16]).
Proof.
  split; [exact (b64_pton_canonical (codes "TR==") [0; 0] ltac:(vm_compute; reflexivity))|vm_compute; reflexivity].
Defined.
