(* ===== verification/Strto.v ===== *)
(** The number conversions of the C library that the sources call: [strtoumax] and
    [strtoimax] (C17 7.8.2.3, 7.22.1.4) in the C locale, and the decimal output of
    [printf]; with the round trip from the one to the other. *)

From S2P Require Import Prelude Ctype.

Definition UINTMAX_MAX : Z := 2 ^ 64 - 1.
Definition INTMAX_MAX : Z := 2 ^ 63 - 1.
Definition INTMAX_MIN : Z := - 2 ^ 63.
Definition is_imax (z : Z) : Prop := INTMAX_MIN <= z <= INTMAX_MAX.

Definition digit_value (c : Z) : Z :=
  if isdigit c then c - 48 else if islower c then c - 87 else if isupper c then c - 55 else 36.

(** The digits in a base: their value behind [acc], and the rest. *)
Fixpoint scan (base acc : Z) (s : list Z) : Z * list Z :=
  match s with
  | [] => (acc, [])
  | c :: s' => if digit_value c <? base then scan base (acc * base + digit_value c) s' else (acc, s)
  end.

(** The base, and the string behind the prefix of base 16. *)
Definition base_prefix (base : Z) (s : list Z) : Z * list Z :=
  match s with
  | z :: x :: d :: _ =>
    if ((base =? 0) || (base =? 16)) && (z =? 48) && (tolower x =? 120) && (digit_value d <? 16)
    then (16, drop 2 s)
    else if base =? 0 then (if z =? 48 then 8 else 10, s) else (base, s)
  | z :: _ => if base =? 0 then (if z =? 48 then 8 else 10, s) else (base, s)
  | [] => (if base =? 0 then 10 else base, s)
  end.

Fixpoint skip_space (s : list Z) : list Z :=
  match s with c :: s' => if isspace c then skip_space s' else s | [] => [] end.

(** Sign, magnitude and rest of the subject sequence; [None] without digits. *)
Definition subject (base : Z) (s : list Z) : option (bool * Z * list Z) :=
  let s := skip_space s in
  let '(neg, s) := match s with
                   | c :: s' => if c =? 45 then (true, s') else if c =? 43 then (false, s') else (false, s)
                   | [] => (false, [])
                   end in
  let '(base, s) := base_prefix base s in
  match s with
  | d :: _ => if digit_value d <? base then let '(v, s) := scan base 0 s in Some (neg, v, s) else None
  | [] => None
  end.

(** Value, rest, and whether [errno] becomes ERANGE. *)
Definition strtoumax (base : Z) (s : list Z) : Z * list Z * bool :=
  match subject base s with
  | None => (0, s, false)
  | Some (neg, v, rest) =>
    if UINTMAX_MAX <? v then (UINTMAX_MAX, rest, true)
    else (if neg : bool then u64 (- v) else v, rest, false)
  end.

Definition strtoimax (base : Z) (s : list Z) : Z * list Z * bool :=
  match subject base s with
  | None => (0, s, false)
  | Some (neg, v, rest) =>
    if neg : bool then if v <=? 2 ^ 63 then (- v, rest, false) else (INTMAX_MIN, rest, true)
    else if v <=? INTMAX_MAX then (v, rest, false) else (INTMAX_MAX, rest, true)
  end.

(** [printf("%jd")]. *)
Fixpoint decimal (fuel : nat) (n : Z) (acc : list Z) : list Z :=
  match fuel with
  | O => acc
  | S fuel =>
    let acc := 48 + n mod 10 :: acc in
    if n / 10 =? 0 then acc else decimal fuel (n / 10) acc
  end.
Definition print_imax (z : Z) : list Z :=
  if z <? 0 then 45 :: decimal 20 (- z) [] else decimal 20 z [].

(** * Reading back what was printed *)

Definition digits (s : list Z) : Prop := Forall (fun c => isdigit c = true) s.
Definition value_from (a : Z) (s : list Z) : Z := foldl (fun a c => a * 10 + (c - 48)) a s.

Lemma digit_value_digit c : isdigit c = true -> digit_value c = c - 48 /\ 0 <= c - 48 < 10.
Proof. intros H. unfold digit_value. rewrite H. unfold isdigit in H. zbool. lia. Qed.

Lemma scan_digits s : digits s -> forall a, scan 10 a s = (value_from a s, []).
Proof.
  induction 1 as [|c s Hc _ IH]; intros a; [done|]. cbn [scan value_from foldl].
  destruct (digit_value_digit c Hc) as [-> ?]. rewrite (proj2 (Z.ltb_lt _ _)) by lia. apply IH.
Qed.

Lemma decimal_spec fuel : forall n acc, (fuel <> 0)%nat -> 0 <= n < 10 ^ Z.of_nat fuel ->
  exists d ds, decimal fuel n acc = (d :: ds) ++ acc /\ digits (d :: ds) /\ value_from 0 (d :: ds) = n /\
    (d = 48 -> ds = []) /\ (length ds < fuel)%nat.
Proof.
  induction fuel as [|fuel IH]; intros n acc Hf Hn; [done|]. cbn [decimal].
  pose proof (Z.mod_pos_bound n 10 ltac:(lia)) as Hm. pose proof (Z.div_mod n 10 ltac:(lia)) as Hd.
  assert (isdigit (48 + n mod 10) = true) as Hdig
    by (unfold isdigit; rewrite !(proj2 (Z.leb_le _ _)) by lia; done).
  destruct (Z.eqb_spec (n / 10) 0) as [E|E].
  - exists (48 + n mod 10), []. split_and!; [done|by repeat constructor|cbn; lia|done|cbn; lia].
  - assert (0 <= n / 10 < 10 ^ Z.of_nat fuel) as Hq.
    { split; [apply Z.div_pos; lia|]. apply Z.div_lt_upper_bound; [lia|].
      rewrite Nat2Z.inj_succ, Z.pow_succ_r in Hn by lia. lia. }
    assert (fuel <> 0%nat) as Hf' by (intros ->; cbn in Hq; lia).
    destruct (IH (n / 10) (48 + n mod 10 :: acc) Hf' Hq) as (d & ds & -> & Hds & Hv & H0 & Hl).
    exists d, (ds ++ [48 + n mod 10]). split_and!.
    + change ((d :: ds) ++ 48 + n mod 10 :: acc = ((d :: ds) ++ [48 + n mod 10]) ++ acc). by rewrite <- app_assoc.
    + change (d :: ds ++ [48 + n mod 10]) with ((d :: ds) ++ [48 + n mod 10]). apply Forall_app_2; [done|by repeat constructor].
    + change (d :: ds ++ [48 + n mod 10]) with ((d :: ds) ++ [48 + n mod 10]).
      unfold value_from in *. rewrite foldl_app, Hv. cbn. lia.
    + intros Hz. exfalso. apply E. rewrite <- Hv, Hz, (H0 Hz). done.
    + rewrite length_app. cbn. lia.
Qed.

(** The subject sequence of digits that do not begin with a useless zero. *)
Lemma subject_digits d ds : digits (d :: ds) -> (d = 48 -> ds = []) ->
  base_prefix 0 (d :: ds) = (if d =? 48 then 8 else 10, d :: ds) /\
  scan (if d =? 48 then 8 else 10) 0 (d :: ds) = (value_from 0 (d :: ds), []) /\
  digit_value d <? (if d =? 48 then 8 else 10) = true.
Proof.
  intros Hd H0. destruct (Z.eqb_spec d 48) as [->|Hne].
  - rewrite (H0 eq_refl). done.
  - pose proof (Forall_inv Hd) as Hdd. destruct (digit_value_digit d Hdd) as [Ev ?].
    split_and!; [|by apply scan_digits|apply Z.ltb_lt; lia].
    unfold base_prefix. destruct ds as [|x [|y ds]]; rewrite ?(proj2 (Z.eqb_neq d 48)) by done; cbn; try done.
Qed.

Lemma skip_space_digit d s : isdigit d = true -> skip_space (d :: s) = d :: s.
Proof.
  intros H. cbn [skip_space]. replace (isspace d) with false; [done|]. symmetry. unfold isspace, isdigit in *. zbool.
  rewrite (proj2 (Z.eqb_neq d 32)) by lia. cbn [orb]. apply andb_false_iff. right. apply Z.leb_gt. lia.
Qed.

Lemma subject_decimal n : 0 <= n <= 2 ^ 63 ->
  subject 0 (decimal 20 n []) = Some (false, n, []) /\ subject 0 (45 :: decimal 20 n []) = Some (true, n, []) /\
  (length (decimal 20 n []) <= 20)%nat.
Proof.
  intros Hn. destruct (decimal_spec 20 n [] ltac:(lia) ltac:(change (10 ^ Z.of_nat 20) with 100000000000000000000; lia))
    as (d & ds & -> & Hd & Hv & H0 & Hl).
  rewrite app_nil_r. destruct (subject_digits d ds Hd H0) as (Hb & Hs & Hlt).
  pose proof (Forall_inv Hd) as Hdd. split_and!; [| |cbn; lia].
  - unfold subject. rewrite skip_space_digit by done.
    rewrite (proj2 (Z.eqb_neq d 45)), (proj2 (Z.eqb_neq d 43)) by (unfold isdigit in Hdd; zbool; lia).
    rewrite Hb, Hlt, Hs. by rewrite Hv.
  - unfold subject. cbn [skip_space]. change (isspace 45) with false. cbn match. change (45 =? 45) with true. cbn match.
    rewrite Hb, Hlt, Hs. by rewrite Hv.
Qed.

Lemma decimal_first n : 0 <= n <= 2 ^ 63 ->
  exists d ds, decimal 20 n [] = d :: ds /\ isdigit d = true /\ (d = 48 -> n = 0).
Proof.
  intros Hn. destruct (decimal_spec 20 n [] ltac:(lia) ltac:(change (10 ^ Z.of_nat 20) with 100000000000000000000; lia))
    as (d & ds & -> & Hd & Hv & H0 & Hl).
  rewrite app_nil_r. exists d, ds. split_and!; [done|exact (Forall_inv Hd)|].
  intros E. by rewrite <- Hv, E, (H0 E).
Qed.

(** * Values are not negative *)

Lemma digit_value_nonneg c : 0 <= digit_value c.
Proof.
  unfold digit_value, isdigit, islower, isupper. repeat case_match; zbool; lia.
Qed.

Lemma scan_nonneg base s : 0 <= base -> forall acc, 0 <= acc -> 0 <= (scan base acc s).1.
Proof.
  intros Hb. induction s as [|c s IH]; intros acc Ha; cbn [scan]; [done|].
  case_match; [|done]. apply IH. pose proof (digit_value_nonneg c). nia.
Qed.

Lemma subject_nonneg s neg v r : subject 0 s = Some (neg, v, r) -> 0 <= v.
Proof.
  unfold subject. destruct (match skip_space s with [] => _ | _ => _ end) as [n s1].
  destruct (base_prefix 0 s1) as [base s2] eqn:E. destruct s2 as [|d s2]; [done|].
  assert (0 <= base) as Hb.
  { unfold base_prefix in E. change (0 =? 0) with true in E. repeat case_match; simplify_eq; lia. }
  case_match; [|done]. pose proof (scan_nonneg base (d :: s2) Hb 0 ltac:(lia)) as Hs.
  destruct (scan base 0 (d :: s2)). intros [= <- <- <-]. done.
Qed.
