(* ===== verification/Numbers.v ===== *)
(** Numbers on the command line: [expand_number] and [expand_unsigned]
    (src.freebsd/compat/expand_number.c), a number with a unit such as 10k or
    2GB, and [strtonum] (src.compat/strtonum.c). *)

From S2P Require Import Prelude Ctype Strto.

Definition EINVAL : Z := 22.
Definition ERANGE : Z := 34.

Inductive num_res (A : Type) : Type := NOk (a : A) | NErr (errno : Z).
Arguments NOk {A} a.
Arguments NErr {A} errno.

(** * expand_number.c *)

(** The optional sign: whether it is a minus, and the string behind it. *)
Definition sign (buf : list Z) : bool * list Z :=
  match buf with
  | c :: buf' => if c =? chr "-" then (true, buf') else if c =? chr "+" then (false, buf') else (false, buf)
  | [] => (false, [])
  end.

(** The switch on the unit. *)
Definition unit_shift (endptr : list Z) : Z * list Z :=
  match endptr with
  | c :: rest =>
    let c := tolower c in
    if c =? chr "e" then (60, rest)
    else if c =? chr "p" then (50, rest)
    else if c =? chr "t" then (40, rest)
    else if c =? chr "g" then (30, rest)
    else if c =? chr "m" then (20, rest)
    else if c =? chr "k" then (10, rest)
    else (0, endptr)
  | [] => (0, [])
  end.

(** The [b] that is ignored. *)
Definition skip_b (endptr : list Z) : list Z :=
  match endptr with c :: rest => if tolower c =? chr "b" then rest else endptr | [] => [] end.

Definition expand_impl (buf : list Z) : num_res (bool * Z) :=
  let '(neg, buf) := sign (skip_space buf) in
  if negb (isdigit (hd 0 buf)) then NErr EINVAL
  else
    let '(number, endptr, range) := strtoumax 0 buf in
    if range : bool then NErr ERANGE
    else
      let '(shift, endptr) := unit_shift endptr in
      match skip_b endptr with
      | _ :: _ => NErr EINVAL
      | [] => if negb (u64 (number .<< shift) .>> shift =? number) then NErr ERANGE
              else NOk (neg, u64 (number .<< shift))
      end.

Definition expand_number (buf : list Z) : num_res Z :=
  match expand_impl buf with
  | NErr e => NErr e
  | NOk (neg, number) =>
    if neg : bool
    then if 0x8000000000000000 <? number then NErr ERANGE else NOk (s64 (u64 (- number)))
    else if INTMAX_MAX <? number then NErr ERANGE else NOk (s64 number)
  end.

Definition expand_unsigned (buf : list Z) : num_res Z :=
  match expand_impl buf with
  | NErr e => NErr e
  | NOk (neg, number) => if neg && (0 <? number) then NErr ERANGE else NOk number
  end.

(** * strtonum.c *)

(** Value and [*errstr]: [None] for the null pointer. [strtoll] is [strtoimax]. *)
Definition strtonum (nptr : list Z) (minv maxv : Z) : Z * option string :=
  let '(ret, err, _) := strtoimax 10 nptr in
  match err with
  | _ :: _ => (0, Some "invalid"%string)
  | [] => if ret <? minv then (0, Some "too small"%string)
          else if maxv <? ret then (0, Some "too large"%string)
          else (ret, None)
  end.

(** * What a string says, in unbounded integers *)

(** The units, in either case. *)
Inductive unit_of : Z -> Z -> Prop :=
  | unit_k c : tolower c = chr "k" -> unit_of c 1
  | unit_m c : tolower c = chr "m" -> unit_of c 2
  | unit_g c : tolower c = chr "g" -> unit_of c 3
  | unit_t c : tolower c = chr "t" -> unit_of c 4
  | unit_p c : tolower c = chr "p" -> unit_of c 5
  | unit_e c : tolower c = chr "e" -> unit_of c 6.

(** A unit and an optional [b] behind it. *)
Inductive suffix : list Z -> Z -> Prop :=
  | suffix_none : suffix [] 1
  | suffix_b b : tolower b = chr "b" -> suffix [b] 1
  | suffix_unit c k : unit_of c k -> suffix [c] (1024 ^ k)
  | suffix_unit_b c k b : unit_of c k -> tolower b = chr "b" -> suffix [c; b] (1024 ^ k).

(** White space, a sign, a C integer constant as long as it goes, a suffix. *)
Inductive says (buf : list Z) : Z -> Prop :=
  | says_intro (neg : bool) digits v rest m :
      sign (skip_space buf) = (neg, digits) -> isdigit (hd 0 digits) = true ->
      subject 0 digits = Some (false, v, rest) -> suffix rest m ->
      says buf (if neg then - (v * m) else v * m).

(** * The suffix *)

Lemma unit_shift_of c k rest : unit_of c k -> unit_shift (c :: rest) = (10 * k, rest) /\ 1024 ^ k = 2 ^ (10 * k).
Proof. intros H. destruct H as [c H|c H|c H|c H|c H|c H]; cbn [unit_shift]; rewrite H; done. Qed.

Lemma unit_shift_b b rest : tolower b = chr "b" -> unit_shift (b :: rest) = (0, b :: rest).
Proof. intros H. cbn [unit_shift]. rewrite H. done. Qed.

(** The code's test for the end of the string accepts exactly the suffixes. *)
Lemma suffix_code rest m : suffix rest m -> skip_b (unit_shift rest).2 = [] /\ m = 2 ^ (unit_shift rest).1.
Proof.
  intros H. destruct H as [|b Hb|c k Hc|c k b Hc Hb]; [done| | |].
  - rewrite unit_shift_b by done. cbn [fst snd skip_b]. rewrite Hb. done.
  - destruct (unit_shift_of c k [] Hc) as [-> ->]. done.
  - destruct (unit_shift_of c k [b] Hc) as [-> ->]. cbn [fst snd skip_b]. rewrite Hb. done.
Qed.

Lemma skip_b_nil l : skip_b l = [] -> l = [] \/ exists b, l = [b] /\ tolower b = chr "b".
Proof.
  destruct l as [|b l]; [by left|]. cbn [skip_b]. destruct (Z.eqb_spec (tolower b) (chr "b")); [|done].
  intros ->. right. by exists b.
Qed.

Lemma code_suffix rest : skip_b (unit_shift rest).2 = [] -> suffix rest (2 ^ (unit_shift rest).1).
Proof.
  destruct rest as [|c rest]; [constructor|].
  assert ((exists k, unit_of c k) \/ unit_shift (c :: rest) = (0, c :: rest)) as [[k Hk]| ->].
  { cbn [unit_shift]. repeat match goal with |- context [tolower c =? ?y] =>
      destruct (Z.eqb_spec (tolower c) y) as [E|_]; [left; eexists; (constructor; exact E)|] end. by right. }
  - destruct (unit_shift_of c k rest Hk) as [-> E]. cbn [fst snd]. rewrite <- E.
    intros [->|(b & -> & Hb)]%skip_b_nil; by constructor.
  - intros [[=]|(b & [= -> ->] & Hb)]%skip_b_nil. by constructor.
Qed.

Lemma unit_shift_range rest : 0 <= (unit_shift rest).1 <= 60.
Proof. destruct rest as [|c rest]; [done|]. cbn [unit_shift]. repeat destruct (_ =? _); done. Qed.

(** * The digits *)

(** Behind a first digit there is a number, without a sign. *)
Lemma subject_digit s : isdigit (hd 0 s) = true -> exists v rest, subject 0 s = Some (false, v, rest) /\ 0 <= v.
Proof.
  destruct s as [|d s]; [done|]. cbn [hd]. intros Hd. unfold subject. rewrite skip_space_digit by done.
  destruct (digit_value_digit d Hd) as [Hv ?].
  rewrite (proj2 (Z.eqb_neq d 45)), (proj2 (Z.eqb_neq d 43)) by lia.
  assert (exists b d' s', base_prefix 0 (d :: s) = (b, d' :: s') /\ 0 <= b /\ digit_value d' < b) as (b & d' & s' & -> & Hb & Hlt).
  { unfold base_prefix. destruct s as [|x [|y s]]; cbn [Z.eqb orb andb]; try (case_match; zbool; do 3 eexists; (split; [done|lia])).
    destruct (d =? 48) eqn:E0; cbn [andb]; [|do 3 eexists; (split; [done|lia])]. zbool.
    destruct (tolower x =? 120) eqn:Ex; cbn [andb]; [|do 3 eexists; (split; [done|lia])].
    destruct (digit_value y <? 16) eqn:Ey; zbool; do 3 eexists; (split; [done|lia]). }
  rewrite (proj2 (Z.ltb_lt _ _) Hlt). pose proof (scan_nonneg b (d' :: s') Hb 0 ltac:(lia)) as Hn.
  destruct (scan b 0 (d' :: s')) as [v r]. by exists v, r.
Qed.

(** * The overflow test *)

Lemma shift_exact v k : 0 <= v -> 0 <= k -> u64 (v .<< k) .>> k = v <-> v * 2 ^ k < 2 ^ 64.
Proof.
  intros Hv Hk. rewrite Z.shiftl_mul_pow2, Z.shiftr_div_pow2 by done. unfold u64.
  pose proof (Z.pow_pos_nonneg 2 k ltac:(lia) Hk) as Hp.
  pose proof (Z.mod_pos_bound (v * 2 ^ k) (2 ^ 64) ltac:(lia)) as Hm.
  split; intros H.
  - pose proof (Z.mul_div_le (v * 2 ^ k mod 2 ^ 64) (2 ^ k) Hp). rewrite H in H0. lia.
  - rewrite Z.mod_small by nia. apply Z.div_mul. lia.
Qed.

(** * What expand_number.c computes *)

(** The parts of a string that says something. *)
Inductive parts (buf : list Z) (neg : bool) (n : Z) : Prop :=
  | parts_intro digits v rest m :
      sign (skip_space buf) = (neg, digits) -> isdigit (hd 0 digits) = true ->
      subject 0 digits = Some (false, v, rest) -> suffix rest m -> 0 <= v -> n = v * m -> parts buf neg n.

Lemma says_parts buf z : says buf z -> exists neg n, parts buf neg n /\ z = if neg : bool then - n else n.
Proof.
  intros [neg digits v rest m Hs Hd Hv Hm]. exists neg, (v * m). split; [|done].
  destruct (subject_digit digits Hd) as (v' & rest' & E & Hn). rewrite Hv in E. injection E as <- <-.
  by apply (parts_intro buf neg (v * m) digits v rest m).
Qed.

Lemma parts_says buf neg n : parts buf neg n -> says buf (if neg then - n else n).
Proof. intros [digits v rest m Hs Hd Hv Hm _ ->]. by apply (says_intro buf neg digits v rest m). Qed.

Lemma expand_impl_cases buf :
  match expand_impl buf with
  | NOk (neg, n) => parts buf neg n /\ 0 <= n < 2 ^ 64
  | NErr e => (e = EINVAL \/ e = ERANGE) /\ forall neg n, parts buf neg n -> e = ERANGE /\ 2 ^ 64 <= n
  end.
Proof.
  unfold expand_impl. destruct (sign (skip_space buf)) as [neg digits] eqn:Hs.
  destruct (isdigit (hd 0 digits)) eqn:Hd; cbn [negb].
  2: { split; [by left|]. intros neg' n [d' v rest m Hs' Hd' _ _ _ _]. congruence. }
  unfold strtoumax. destruct (subject_digit digits Hd) as (v & rest & E & Hn). rewrite E.
  assert (forall neg' n, parts buf neg' n -> exists m, suffix rest m /\ n = v * m) as Hp.
  { intros neg' n [d' v' rest' m Hs' Hd' Hv' Hm _ ->]. rewrite Hs in Hs'. injection Hs' as <- <-.
    rewrite E in Hv'. injection Hv' as <- <-. by exists m. }
  unfold UINTMAX_MAX. destruct (Z.ltb_spec (2 ^ 64 - 1) v) as [Hbig|Hsmall].
  { split; [by right|]. intros neg' n Hn'. destruct (Hp _ _ Hn') as (m & Hm & ->). split; [done|].
    destruct (suffix_code rest m Hm) as [_ ->]. pose proof (Z.pow_pos_nonneg 2 (unit_shift rest).1 ltac:(lia)
      (proj1 (unit_shift_range rest))). nia. }
  destruct (unit_shift rest) as [k r'] eqn:Eu. pose proof (unit_shift_range rest) as Hk. rewrite Eu in Hk. cbn [fst] in Hk.
  destruct (skip_b r') as [|b l] eqn:Eb.
  - assert (suffix rest (2 ^ k)) as Hm by (pose proof (code_suffix rest) as H; rewrite Eu in H; exact (H Eb)).
    pose proof (shift_exact v k Hn (proj1 Hk)) as Hx.
    destruct (Z.eqb_spec (u64 (v .<< k) .>> k) v) as [Ef|Ef]; cbn [negb].
    + apply Hx in Ef. rewrite Z.shiftl_mul_pow2 by lia. pose proof (Z.pow_pos_nonneg 2 k ltac:(lia) (proj1 Hk)).
      unfold u64. rewrite Z.mod_small by nia. split; [|nia]. by apply (parts_intro buf neg (v * 2 ^ k) digits v rest (2 ^ k)).
    + split; [by right|]. intros neg' n Hn'. destruct (Hp _ _ Hn') as (m & Hm' & ->). split; [done|].
      destruct (suffix_code rest m Hm') as [_ ->]. rewrite Eu. cbn [fst]. apply Z.nlt_ge. by rewrite <- Hx.
  - split; [by left|]. intros neg' n Hn'. destruct (Hp _ _ Hn') as (m & Hm & ->).
    destruct (suffix_code rest m Hm) as [H _]. rewrite Eu in H. cbn [snd] in H. congruence.
Qed.

Lemma says_inj buf z z' : says buf z -> says buf z' -> z = z'.
Proof.
  intros [neg d v rest m Hs Hd Hv Hm] [neg' d' v' rest' m' Hs' Hd' Hv' Hm'].
  rewrite Hs in Hs'. injection Hs' as <- <-. rewrite Hv in Hv'. injection Hv' as <- <-.
  by rewrite (proj2 (suffix_code rest m Hm)), (proj2 (suffix_code rest m' Hm')).
Qed.

Lemma s64_neg n : 0 <= n <= 2 ^ 63 -> s64 (u64 (- n)) = - n.
Proof.
  intros Hn. unfold s64, u64, sext. rewrite Zmod_mod. destruct (decide (n = 0)) as [->|Hn0]; [done|].
  rewrite <- (Z.mod_unique (- n) (2 ^ 64) (-1) (2 ^ 64 - n)) by lia.
  rewrite (proj2 (Z.ltb_ge _ _)) by (change (2 ^ (64 - 1)) with (2 ^ 63); lia). lia.
Qed.

Lemma expand_number_cases buf :
  match expand_number buf with
  | NOk z => says buf z /\ is_imax z
  | NErr e => (e = EINVAL \/ e = ERANGE) /\ forall z, says buf z -> e = ERANGE /\ ~ is_imax z
  end.
Proof.
  unfold expand_number. pose proof (expand_impl_cases buf) as H. unfold is_imax, INTMAX_MAX, INTMAX_MIN.
  destruct (expand_impl buf) as [[neg n]|e].
  - destruct H as [Hp Hn]. pose proof (parts_says _ _ _ Hp) as Hsay. destruct neg.
    + destruct (Z.ltb_spec 0x8000000000000000 n) as [Hlt|Hge].
      * split; [by right|]. intros z Hz. rewrite (says_inj _ _ _ Hz Hsay). split; [done|lia].
      * rewrite s64_neg by lia. split; [done|lia].
    + destruct (Z.ltb_spec (2 ^ 63 - 1) n) as [Hlt|Hge].
      * split; [by right|]. intros z Hz. rewrite (says_inj _ _ _ Hz Hsay). split; [done|lia].
      * unfold s64. rewrite sext_small by lia. split; [done|lia].
  - destruct H as [He Hp]. split; [done|]. intros z (neg & n & Hn & ->)%says_parts.
    destruct (Hp neg n Hn) as [-> ?]. split; [done|]. destruct neg; lia.
Qed.

(** C37. [expand_number] stores what the string says in unbounded integers when it
    fits into an [int64_t], answers ERANGE when it says something that does not
    fit, and otherwise fails: no product of a number and a unit wraps. *)
Theorem expand_number_exact buf :
  (forall z, expand_number buf = NOk z <-> says buf z /\ is_imax z) /\
  (forall z, says buf z -> ~ is_imax z -> expand_number buf = NErr ERANGE) /\
  ((forall z, ~ says buf z) -> exists e, expand_number buf = NErr e /\ (e = EINVAL \/ e = ERANGE)).
Proof.
  pose proof (expand_number_cases buf) as H. destruct (expand_number buf) as [z|e].
  - destruct H as [Hs Hr]. split_and!.
    + intros z'. split; [by intros [= <-]|]. intros [Hs' _]. f_equal. exact (says_inj _ _ _ Hs Hs').
    + intros z' Hs' Hr'. by rewrite (says_inj _ _ _ Hs Hs') in Hr.
    + intros Hno. by apply Hno in Hs.
  - destruct H as [He Hp]. split_and!.
    + intros z. split; [done|]. intros [Hs Hr]. by destruct (Hp z Hs).
    + intros z Hs _. by destruct (Hp z Hs) as [-> _].
    + intros _. by exists e.
Qed.

Lemma expand_unsigned_exact buf n : expand_unsigned buf = NOk n <-> says buf n /\ 0 <= n < 2 ^ 64.
Proof.
  unfold expand_unsigned. pose proof (expand_impl_cases buf) as H. destruct (expand_impl buf) as [[neg k]|e].
  - destruct H as [Hp Hk]. pose proof (parts_says _ _ _ Hp) as Hsay. destruct neg; cbn [andb].
    + destruct (Z.ltb_spec 0 k) as [Hlt|Hge].
      * split; [done|]. intros [Hs Hn]. pose proof (says_inj _ _ _ Hs Hsay). lia.
      * split; [intros [= <-]|intros [Hs Hn]].
        -- replace k with (- k) at 1 by lia. split; [done|lia].
        -- f_equal. pose proof (says_inj _ _ _ Hs Hsay). lia.
    + split; [by intros [= <-]|]. intros [Hs Hn]. by rewrite (says_inj _ _ _ Hs Hsay).
  - destruct H as [He Hp]. split; [done|]. intros [(neg & k & Hk & ->)%says_parts Hn].
    destruct (Hp neg k Hk). destruct neg; lia.
Qed.

(** The suffixes of humanised sizes, a hexadecimal constant that takes the unit as
    a digit, and the octal reading of a leading zero. *)
Example expand_cases :
  expand_number (codes " -2GB") = NOk (- 2 ^ 31) /\ expand_number (codes "0x1e") = NOk 30 /\
  expand_number (codes "010k") = NOk 8192 /\ expand_number (codes "8E") = NErr ERANGE /\
  expand_number (codes "-8E") = NOk (- 2 ^ 63) /\ expand_number (codes "1 k") = NErr EINVAL /\
  expand_number (codes "") = NErr EINVAL /\ expand_number (codes "99999999999999999999x") = NErr ERANGE.
Proof. by vm_compute. Qed.

(** * What strtonum.c computes *)

(** What [strtonum] accepts is inside the bounds, and a decimal integer inside them
    is accepted with its value. *)
Lemma strtonum_documented nptr minv maxv : INTMAX_MIN <= minv -> maxv <= INTMAX_MAX ->
  (forall z, strtonum nptr minv maxv = (z, None) -> minv <= z <= maxv) /\
  (forall neg v, subject 10 nptr = Some (neg, v, []) -> let z := if neg : bool then - v else v in
    minv <= z <= maxv -> strtonum nptr minv maxv = (z, None)).
Proof.
  intros Hmin Hmax. unfold strtonum. split.
  - intros z. destruct (strtoimax 10 nptr) as [[r err] o]. destruct err; [|done].
    destruct (Z.ltb_spec r minv); [done|]. destruct (Z.ltb_spec maxv r); [done|]. intros [= <-]. lia.
  - intros neg v E Hz. unfold strtoimax. rewrite E. unfold INTMAX_MAX, INTMAX_MIN in *. destruct neg.
    + rewrite (proj2 (Z.leb_le v _)) by lia. by rewrite !(proj2 (Z.ltb_ge _ _)) by lia.
    + rewrite (proj2 (Z.leb_le v _)) by lia. by rewrite !(proj2 (Z.ltb_ge _ _)) by lia.
Qed.

(** It also takes a string without digits, and a number beyond the widest bound. *)
Lemma strtonum_quirks :
  strtonum [] 0 10 = (0, None) /\ strtonum (codes "99999999999999999999") 0 INTMAX_MAX = (INTMAX_MAX, None).
Proof. by vm_compute. Qed.
