(* ===== verification/Humanize.v ===== *)
(** Sizes for people: [humanize_number] (src.freebsd/compat/humanize_number.c).

    [snprintf] writes the text cut to [len - 1] characters and returns its whole
    length.  A signed overflow is the result [HOverflow]. *)

From S2P Require Import Prelude Ctype Strto.

Definition HN_DECIMAL : Z := 0x01.
Definition HN_NOSPACE : Z := 0x02.
Definition HN_B : Z := 0x04.
Definition HN_DIVISOR_1000 : Z := 0x08.
Definition HN_IEC_PREFIXES : Z := 0x10.
Definition HN_GETSCALE : Z := 0x10.
Definition HN_AUTOSCALE : Z := 0x20.
Definition maxscale : Z := 6.

(** The return value and what is stored in [buf], which is left alone by [None];
    the [-1] of refused arguments is [HFail]. *)
Inductive hres : Type := HFail | HOverflow | HScale (i : Z) | HText (r : Z) (buf : list Z).

Section Humanize.
Variable decimal_point : list Z.

(** [SCALE2PREFIX] on the table that the flags choose. *)
Definition scale2prefix (flags scale : Z) : list Z :=
  if scale =? 0 then if tst flags HN_B then codes "B" else []
  else
    let i := if tst flags HN_IEC_PREFIXES then codes "i" else [] in
    let k := if negb (tst flags HN_IEC_PREFIXES) && tst flags HN_DIVISOR_1000 then codes "k" else codes "K" in
    if scale =? 1 then k ++ i
    else if scale =? 2 then codes "M" ++ i
    else if scale =? 3 then codes "G" ++ i
    else if scale =? 4 then codes "T" ++ i
    else if scale =? 5 then codes "P" ++ i
    else codes "E" ++ i.

Definition divisor_of (flags : Z) : Z :=
  if tst flags HN_IEC_PREFIXES then 1024 else if tst flags HN_DIVISOR_1000 then 1000 else 1024.
Definition divisordeccut_of (flags : Z) : Z :=
  if tst flags HN_IEC_PREFIXES then 973 else if tst flags HN_DIVISOR_1000 then 950 else 973.

(** [for (max = 1, i = n; i-- > 0;) max *= 10]. *)
Fixpoint max_loop (i : nat) (max : Z) : option Z :=
  match i with
  | O => Some max
  | S i => if max * 10 <=? INTMAX_MAX then max_loop i (max * 10) else None
  end.

(** The division loops: [n] rounds are left, [i] are done. *)
Fixpoint fit_loop (n : nat) (i quotient remainder max divisor divisordeccut : Z) : Z * Z * Z :=
  match n with
  | O => (i, quotient, remainder)
  | S n =>
    if (max <=? quotient) ||
       ((quotient =? max - 1) && ((divisordeccut <=? remainder) || (divisor / 2 <=? remainder)))
    then fit_loop n (i + 1) (quotient / divisor) (quotient mod divisor) max divisor divisordeccut
    else (i, quotient, remainder)
  end.
Fixpoint scale_loop (n : nat) (i quotient remainder divisor : Z) : Z * Z * Z :=
  match n with
  | O => (i, quotient, remainder)
  | S n => scale_loop n (i + 1) (quotient / divisor) (quotient mod divisor) divisor
  end.

Definition snprintf (len : Z) (text : list Z) : hres :=
  HText (Z.of_nat (length text)) (take (Z.to_nat (len - 1)) text).

(** The text of a scaled number. *)
Definition put_number (len sign i quotient remainder flags : Z) (sep suffix : list Z) : hres :=
  let divisor := divisor_of flags in
  if (((quotient =? 9) && (remainder <? divisordeccut_of flags)) || (quotient <? 9)) &&
     (0 <? i) && tst flags HN_DECIMAL
  then
    let s1 := quotient + (remainder * 10 + divisor / 2) / divisor / 10 in
    let s2 := (remainder * 10 + divisor / 2) / divisor mod 10 in
    snprintf len (print_imax (sign * s1) ++ decimal_point ++ print_imax s2 ++ sep ++ scale2prefix flags i ++ suffix)
  else
    snprintf len (print_imax (sign * (quotient + (remainder + divisor / 2) / divisor)) ++
                  sep ++ scale2prefix flags i ++ suffix).

(** The columns that are not for digits behind the first: a digit, the prefix, the
    sign, the space and the suffix. *)
Definition baselen_of (negative : bool) (flags : Z) (suffix : list Z) : Z :=
  (if tst flags HN_IEC_PREFIXES then 2 else 1) + (if negative then 2 else 1) +
  (if tst flags HN_NOSPACE then 0 else 1) + Z.of_nat (length suffix).

(** [buf] and [suffix] are not null. *)
Definition humanize_number (len quotient : Z) (suffix : list Z) (scale flags : Z) : hres :=
  if scale <? 0 then HFail
  else if (maxscale <? scale) && tst scale (Z.lnot (HN_AUTOSCALE .| HN_GETSCALE)) then HFail
  else if tst flags HN_DIVISOR_1000 && tst flags HN_IEC_PREFIXES then HFail
  else
    let divisor := divisor_of flags in
    let divisordeccut := divisordeccut_of flags in
    let sign := if quotient <? 0 then -1 else 1 in
    if quotient =? INTMAX_MIN then HOverflow
    else
      let baselen := baselen_of (quotient <? 0) flags suffix in
      let quotient := if quotient <? 0 then - quotient else quotient in
      let sep := if tst flags HN_NOSPACE then [] else codes " " in
      if len <? baselen + 1 then HFail
      else if tst scale (HN_AUTOSCALE .| HN_GETSCALE) then
        match max_loop (Z.to_nat (s32 (len - baselen))) 1 with
        | None => HOverflow
        | Some max =>
          let '(i, quotient, remainder) := fit_loop (Z.to_nat maxscale) 0 quotient 0 max divisor divisordeccut in
          if tst scale HN_GETSCALE then HScale i
          else put_number len sign i quotient remainder flags sep suffix
        end
      else
        let '(i, quotient, remainder) := scale_loop (Z.to_nat (Z.min scale maxscale)) 0 quotient 0 divisor in
        put_number len sign i quotient remainder flags sep suffix.

End Humanize.

(** * What the loops compute *)

(** The remainder left by the last of [i] divisions, and the nearest integer to
    [a / D], halves rounded up. *)
Definition last_rem (a d i : Z) : Z := if i =? 0 then 0 else a / d ^ (i - 1) mod d.
Definition nearest (a D : Z) : Z := (2 * a + D) / (2 * D).

Lemma next_scale a d i : 0 < d -> 0 <= i -> a / d ^ i / d = a / d ^ (i + 1) /\ last_rem a d (i + 1) = a / d ^ i mod d.
Proof.
  intros Hd Hi. pose proof (Z.pow_pos_nonneg d i Hd Hi). split.
  - rewrite Z.div_div by lia. by rewrite <- (Z.pow_succ_r d i), Z.mul_comm || rewrite Z.pow_add_r, Z.pow_1_r by lia.
  - unfold last_rem. rewrite (proj2 (Z.eqb_neq _ _)) by lia. by replace (i + 1 - 1) with i by lia.
Qed.

Lemma last_rem_range a d i : 0 < d -> 0 <= last_rem a d i < d.
Proof. intros Hd. unfold last_rem. destruct (_ =? _); [lia|]. by apply Z.mod_pos_bound. Qed.

(** The rounding of the code is that of the exact quotient: what earlier divisions
    dropped does not matter. *)
Lemma rounding a d i : 0 <= a -> 2 <= d -> d mod 2 = 0 -> 0 <= i ->
  a / d ^ i + (last_rem a d i + d / 2) / d = nearest a (d ^ i).
Proof.
  intros Ha Hd He Hi. pose proof (Z.div_mod d 2 ltac:(lia)) as Hdm. rewrite He in Hdm. set (h := d / 2) in *.
  unfold nearest. destruct (Z.eq_dec i 0) as [->|Hne].
  { unfold last_rem. cbn [Z.eqb]. rewrite Z.pow_0_r, Z.div_1_r, (Z.div_small (0 + h)), Z.add_0_r by lia.
    apply (Z.div_unique _ _ _ 1); lia. }
  unfold last_rem. rewrite (proj2 (Z.eqb_neq i 0)) by done.
  pose proof (Z.pow_pos_nonneg d (i - 1) ltac:(lia) ltac:(lia)) as HE. set (E := d ^ (i - 1)) in *.
  assert (d ^ i = d * E) as -> by (unfold E; rewrite <- Z.pow_succ_r by lia; f_equal; lia).
  rewrite (Z.mul_comm d E), <- Z.div_div by lia. rewrite <- Z.div_add_l by lia.
  replace (a / E / d * d + (a / E mod d + h)) with (a / E + h) by (pose proof (Z.div_mod (a / E) d); lia).
  replace (2 * a + E * d) with ((a + h * E) * 2) by lia. replace (2 * (E * d)) with (E * d * 2) by lia.
  rewrite Z.div_mul_cancel_r by lia. rewrite <- Z.div_div by lia. by rewrite Z.div_add by lia.
Qed.

Section Loops.
Variables (a d : Z).
Context (Ha : 0 <= a) (Hd : 2 <= d) (He : d mod 2 = 0).

Lemma scale_loop_spec n : forall i, 0 <= i ->
  scale_loop n i (a / d ^ i) (last_rem a d i) d =
  (i + Z.of_nat n, a / d ^ (i + Z.of_nat n), last_rem a d (i + Z.of_nat n)).
Proof.
  induction n as [|n IH]; intros i Hi; cbn [scale_loop]; [by rewrite Z.add_0_r|].
  destruct (next_scale a d i ltac:(lia) Hi) as [-> <-]. rewrite IH by lia. by replace (i + 1 + Z.of_nat n) with (i + Z.of_nat (S n)) by lia.
Qed.

(** The loop goes on exactly while the rounded number does not fit. *)
Lemma fit_test max cut i : 0 <= i -> d / 2 <= cut ->
  (max <=? a / d ^ i) || ((a / d ^ i =? max - 1) && ((cut <=? last_rem a d i) || (d / 2 <=? last_rem a d i))) =
  (max <=? nearest a (d ^ i)).
Proof.
  intros Hi Hc. rewrite <- rounding by done. pose proof (last_rem_range a d i ltac:(lia)) as Hr.
  set (q := a / d ^ i). set (r := last_rem a d i) in *. pose proof (Z.div_mod d 2 ltac:(lia)) as Hdm. rewrite He in Hdm.
  assert ((r + d / 2) / d = if d / 2 <=? r then 1 else 0) as ->.
  { destruct (Z.leb_spec (d / 2) r); [symmetry; apply (Z.div_unique _ _ _ (r - d / 2)); lia|apply Z.div_small; lia]. }
  destruct (Z.leb_spec (d / 2) r), (Z.leb_spec cut r), (Z.leb_spec max q), (Z.eqb_spec q (max - 1)); cbn [orb andb];
    symmetry; (apply Z.leb_le || apply Z.leb_gt); lia.
Qed.

Lemma fit_loop_spec max cut n : d / 2 <= cut -> forall i, 0 <= i ->
  exists k, fit_loop n i (a / d ^ i) (last_rem a d i) max d cut = (k, a / d ^ k, last_rem a d k) /\
    i <= k <= i + Z.of_nat n /\ (forall j, i <= j < k -> max <= nearest a (d ^ j)) /\
    (k < i + Z.of_nat n -> nearest a (d ^ k) < max).
Proof.
  intros Hc. induction n as [|n IH]; intros i Hi; cbn [fit_loop].
  - exists i. split_and!; [done|lia|lia|lia|lia].
  - rewrite fit_test by done. destruct (Z.leb_spec max (nearest a (d ^ i))) as [Hm|Hm].
    + destruct (next_scale a d i ltac:(lia) Hi) as [-> <-]. destruct (IH (i + 1) ltac:(lia)) as (k & -> & Hk & Hj & Hlast).
      exists k. split_and!; [done|lia|lia| |intros; apply Hlast; lia].
      intros j Hj'. destruct (Z.eq_dec j i) as [->|]; [done|]. apply Hj. lia.
    + exists i. split_and!; [done|lia|lia|lia|done].
Qed.
End Loops.

Lemma max_loop_spec i : forall m, 0 < m -> m * 10 ^ Z.of_nat i <= INTMAX_MAX -> max_loop i m = Some (m * 10 ^ Z.of_nat i).
Proof.
  induction i as [|i IH]; intros m Hm Hb; cbn [max_loop]; [by rewrite Z.mul_1_r|].
  rewrite Nat2Z.inj_succ, Z.pow_succ_r in * by lia.
  rewrite (proj2 (Z.leb_le _ _)) by (pose proof (Z.pow_pos_nonneg 10 (Z.of_nat i)); nia).
  rewrite IH by nia. f_equal. lia.
Qed.

Lemma decimal_length fuel : forall n acc k, 0 <= n < 10 ^ Z.of_nat k -> (1 <= k)%nat ->
  (length (decimal fuel n acc) <= k + length acc)%nat.
Proof.
  induction fuel as [|fuel IH]; intros n acc k Hn Hk; cbn [decimal]; [lia|].
  destruct (Z.eqb_spec (n / 10) 0) as [E|E]; [cbn [length]; lia|].
  destruct k as [|[|k]]; [lia| |].
  - change (10 ^ Z.of_nat 1) with 10 in Hn. rewrite Z.div_small in E by lia. done.
  - rewrite Nat2Z.inj_succ, Z.pow_succ_r in Hn by lia.
    etrans; [apply (IH _ _ (S k)); [|lia]|cbn [length]; lia].
    split; [apply Z.div_pos; lia|]. apply Z.div_lt_upper_bound; lia.
Qed.

(** * What humanize_number.c promises *)

Definition valid_flags (flags : Z) : Prop := tst flags HN_DIVISOR_1000 && tst flags HN_IEC_PREFIXES = false.

Lemma divisor_facts flags : let d := divisor_of flags in
  2 <= d /\ d mod 2 = 0 /\ d / 2 <= divisordeccut_of flags /\ 1000 <= d.
Proof. unfold divisor_of, divisordeccut_of. repeat destruct (tst _ _); done. Qed.

(** The number [q] in units of [divisor ^ i], with its sign, unit and suffix. *)
Definition rounded (q D : Z) : Z := Z.sgn q * nearest (Z.abs q) D.
Definition unit_text (i flags : Z) (suffix : list Z) : list Z :=
  (if tst flags HN_NOSPACE then [] else codes " ") ++ scale2prefix flags i ++ suffix.

(** The tenths of a unit in the whole units of the scale below, to the nearest; they
    are shown with HN_DECIMAL while they are less than ten units. *)
Definition tenths (q i flags : Z) : Z := nearest (10 * (Z.abs q / divisor_of flags ^ (i - 1))) (divisor_of flags).
Definition shows_tenths (q i flags : Z) : bool := tst flags HN_DECIMAL && (0 <? i) && (tenths q i flags <? 100).
Definition text_of (decimal_point : list Z) (q i flags : Z) (suffix : list Z) : list Z :=
  (if shows_tenths q i flags
   then print_imax ((if q <? 0 then -1 else 1) * (tenths q i flags / 10)) ++ decimal_point ++ print_imax (tenths q i flags mod 10)
   else print_imax (rounded q (divisor_of flags ^ i))) ++ unit_text i flags suffix.

(** At the largest scale one digit is enough for every number. *)
Lemma nearest_last q flags : Z.abs q <= INTMAX_MAX -> nearest (Z.abs q) (divisor_of flags ^ 6) < 10.
Proof.
  intros Hq. destruct (divisor_facts flags) as (_ & _ & _ & Hd). set (d := divisor_of flags) in *. unfold nearest.
  assert (10 ^ 18 <= d ^ 6) as HD by (change (10 ^ 18) with (1000 ^ 6); apply Z.pow_le_mono_l; lia).
  apply Z.div_lt_upper_bound; [lia|]. unfold INTMAX_MAX in Hq. change (10 ^ 18) with 1000000000000000000 in HD. lia.
Qed.

Lemma prefix_length flags i : Z.of_nat (length (scale2prefix flags i)) <= if tst flags HN_IEC_PREFIXES then 2 else 1.
Proof. unfold scale2prefix. repeat destruct (_ =? _); repeat destruct (tst _ _); cbn; lia. Qed.

Lemma print_length q w x : 0 <= nearest (Z.abs q) x < 10 ^ w -> 1 <= w ->
  Z.of_nat (length (print_imax (rounded q x))) <= w + if q <? 0 then 1 else 0.
Proof.
  intros Hx Hw. unfold print_imax, rounded.
  assert (forall n, 0 <= n < 10 ^ w -> Z.of_nat (length (decimal 20 n [])) <= w) as Hl.
  { intros n Hn. pose proof (decimal_length 20 n [] (Z.to_nat w)) as H. rewrite Z2Nat.id in H by lia. cbn [length] in H. lia. }
  destruct (Z.ltb_spec q 0) as [Hn|Hn].
  - rewrite Z.sgn_neg by done. destruct (Z.ltb_spec (-1 * nearest (Z.abs q) x) 0).
    + cbn [length]. replace (- (-1 * nearest (Z.abs q) x)) with (nearest (Z.abs q) x) by lia. specialize (Hl _ Hx). lia.
    + replace (-1 * nearest (Z.abs q) x) with (nearest (Z.abs q) x) by lia. specialize (Hl _ Hx). lia.
  - assert (0 <= Z.sgn q * nearest (Z.abs q) x < 10 ^ w) as Hr.
    { destruct (Z.eq_dec q 0) as [->|]; [cbn; pose proof (Z.pow_pos_nonneg 10 w); lia|]. rewrite Z.sgn_pos by lia. lia. }
    rewrite (proj2 (Z.ltb_ge _ 0)) by lia. specialize (Hl _ Hr). lia.
Qed.
Lemma abs_if q : (if q <? 0 then - q else q) = Z.abs q.
Proof. destruct (Z.ltb_spec q 0); lia. Qed.

(** The test of the code is that the tenths have at most two digits. *)
Lemma tenths_code q i flags (d := divisor_of flags) : 0 < i ->
  let quotient := Z.abs q / d ^ i in let remainder := last_rem (Z.abs q) d i in
  quotient * 10 + (remainder * 10 + d / 2) / d = tenths q i flags /\
  (((quotient =? 9) && (remainder <? divisordeccut_of flags)) || (quotient <? 9)) = (tenths q i flags <? 100).
Proof.
  intros Hi quotient remainder. destruct (divisor_facts flags) as (Hd & He & _). fold d in Hd, He.
  pose proof (last_rem_range (Z.abs q) d i ltac:(lia)) as Hr. fold remainder in Hr.
  assert (Z.abs q / d ^ (i - 1) = quotient * d + remainder) as EA.
  { unfold quotient, remainder, last_rem. rewrite (proj2 (Z.eqb_neq i 0)) by lia.
    pose proof (Z.pow_pos_nonneg d (i - 1) ltac:(lia) ltac:(lia)). replace (d ^ i) with (d ^ (i - 1) * d) by (rewrite Z.mul_comm, <- Z.pow_succ_r by lia; f_equal; lia).
    rewrite <- Z.div_div by lia. pose proof (Z.div_mod (Z.abs q / d ^ (i - 1)) d). lia. }
  assert (quotient * 10 + (remainder * 10 + d / 2) / d = tenths q i flags) as E.
  { unfold tenths. fold d. rewrite EA. unfold nearest. pose proof (Z.div_mod d 2 ltac:(lia)) as Hdm. rewrite He in Hdm. set (h := d / 2) in *.
    replace (2 * (10 * (quotient * d + remainder)) + d) with (2 * (remainder * 10 + h + (quotient * 10) * d)) by lia.
    rewrite Z.div_mul_cancel_l by lia. rewrite Z.div_add by lia. lia. }
  split; [done|]. rewrite <- E. assert (0 <= quotient) as Hq0 by (apply Z.div_pos; [lia|apply Z.pow_pos_nonneg; lia]).
  assert ((remainder * 10 + d / 2) / d < 10 <-> remainder < divisordeccut_of flags) as Hcut.
  { assert (forall y, y / d < 10 <-> y < d * 10) as ->.
    { intros y. split; intros Hy; [|apply Z.div_lt_upper_bound; lia].
      apply Z.nle_gt. intros Hc. apply (Z.div_le_lower_bound y d 10) in Hc; lia. }
    unfold d, divisor_of, divisordeccut_of in *. repeat destruct (tst _ _); change (1024 / 2) with 512; change (1000 / 2) with 500; lia. }
  assert (0 <= d / 2 < d) as Hh by (split; [apply Z.div_pos|apply Z.div_lt]; lia).
  assert (0 <= (remainder * 10 + d / 2) / d <= 10) as Hx.
  { split; [apply Z.div_pos; lia|]. apply Z.lt_succ_r, Z.div_lt_upper_bound; lia. }
  destruct (Z.eqb_spec quotient 9), (Z.ltb_spec remainder (divisordeccut_of flags)), (Z.ltb_spec quotient 9); cbn [andb orb];
    symmetry; (apply Z.ltb_lt || apply Z.ltb_ge); lia.
Qed.

Lemma unit_length q i flags suffix : Z.of_nat (length (unit_text i flags suffix)) <= baselen_of (q <? 0) flags suffix - 1 - if q <? 0 then 1 else 0.
Proof.
  unfold unit_text, baselen_of. rewrite !length_app, !Nat2Z.inj_add. pose proof (prefix_length flags i) as Hx.
  destruct (q <? 0), (tst flags HN_NOSPACE), (tst flags HN_IEC_PREFIXES); cbn [length codes] in *; lia.
Qed.
Lemma print_digit n : 0 <= n < 10 -> length (print_imax n) = 1%nat.
Proof.
  intros Hn. unfold print_imax. rewrite (proj2 (Z.ltb_ge n 0)) by lia. cbn [decimal]. by rewrite Z.div_small by lia.
Qed.
Lemma tenths_length q i flags decimal_point : tenths q i flags < 100 ->
  Z.of_nat (length (print_imax ((if q <? 0 then -1 else 1) * (tenths q i flags / 10)) ++ decimal_point ++ print_imax (tenths q i flags mod 10))) <=
  Z.of_nat (length decimal_point) + 2 + if q <? 0 then 1 else 0.
Proof.
  intros Ht. destruct (divisor_facts flags) as (Hd & _). assert (0 <= tenths q i flags) as H0.
  { unfold tenths, nearest. assert (0 <= Z.abs q / divisor_of flags ^ (i - 1)); [|apply Z.div_pos; lia].
    destruct (Z.le_gt_cases 0 (i - 1)) as [Hi|Hi]; [apply Z.div_pos; [lia|apply Z.pow_pos_nonneg; lia]|].
    rewrite Z.pow_neg_r by lia. by rewrite Z.div_0_r_ext. }
  assert (0 <= tenths q i flags / 10 < 10) as H1 by (split; [apply Z.div_pos; lia|apply Z.div_lt_upper_bound; lia]).
  pose proof (Z.mod_pos_bound (tenths q i flags) 10 ltac:(lia)) as H2.
  rewrite !length_app, (print_digit (_ mod 10)) by done. enough (Z.of_nat (length (print_imax ((if q <? 0 then -1 else 1) * (tenths q i flags / 10)))) <= 1 + if q <? 0 then 1 else 0) by lia.
  destruct (q <? 0).
  - unfold print_imax. destruct (Z.ltb_spec (-1 * (tenths q i flags / 10)) 0) as [Hn|Hn].
    + cbn [length decimal]. rewrite Z.div_small by lia. cbn. lia.
    + cbn [length decimal]. rewrite Z.div_small by lia. cbn. lia.
  - rewrite print_digit by lia. lia.
Qed.

Lemma rounded_sign q D : 0 < D -> (if q <? 0 then -1 else 1) * nearest (Z.abs q) D = rounded q D.
Proof.
  intros HD. unfold rounded. destruct (Z.ltb_spec q 0) as [Hn|Hn]; [by rewrite Z.sgn_neg|].
  destruct (Z.eq_dec q 0) as [->|Hne]; [|by rewrite Z.sgn_pos by lia].
  cbn. unfold nearest. rewrite Z.div_small; [done|]. cbn. lia.
Qed.

Section Promises.
Variables (decimal_point : list Z) (len q flags : Z) (suffix : list Z).
Context (Hflags : valid_flags flags)
  (Hq : - INTMAX_MAX <= q <= INTMAX_MAX) (Hroom : baselen_of (q <? 0) flags suffix < len).

Lemma put_number_text i : 0 <= i ->
  put_number decimal_point len (if q <? 0 then -1 else 1) i (Z.abs q / divisor_of flags ^ i)
    (last_rem (Z.abs q) (divisor_of flags) i) flags (if tst flags HN_NOSPACE then [] else codes " ") suffix =
  snprintf len (text_of decimal_point q i flags suffix).
Proof.
  intros Hi. destruct (divisor_facts flags) as (Hd & He & _). unfold put_number, text_of, shows_tenths, unit_text.
  destruct (Z.ltb_spec 0 i) as [Hi0|Hi0].
  - destruct (tenths_code q i flags Hi0) as [E ->]. rewrite <- (rounded_sign q) by (apply Z.pow_pos_nonneg; lia).
    rewrite <- (rounding (Z.abs q) (divisor_of flags) i) by lia. rewrite <- E.
    set (X := (last_rem _ _ _ * 10 + _ / 2) / _) in *. set (Q := Z.abs q / _ ^ i) in *.
    rewrite !andb_true_r, (andb_comm _ (tst flags HN_DECIMAL)). destruct (tst flags HN_DECIMAL && _); [|done].
    replace ((Q * 10 + X) / 10) with (Q + X / 10) by (rewrite Z.add_comm, (Z.add_comm (Q * 10)), Z.div_add; lia).
    replace ((Q * 10 + X) mod 10) with (X mod 10) by (rewrite Z.add_comm, Z.mod_add; lia). by rewrite <- !app_assoc.
  - rewrite !andb_false_r. cbn [andb]. rewrite rounding by lia. by rewrite rounded_sign by (apply Z.pow_pos_nonneg; lia).
Qed.

(** A given scale: the number in units of [divisor ^ scale], rounded to the nearest. *)
Lemma humanize_scaled scale : 0 <= scale <= maxscale ->
  humanize_number decimal_point len q suffix scale flags = snprintf len (text_of decimal_point q scale flags suffix).
Proof.
  intros Hs. unfold humanize_number, maxscale in *. destruct (divisor_facts flags) as (Hd & He & _).
  rewrite (proj2 (Z.ltb_ge scale 0)), (proj2 (Z.ltb_ge 6 scale)) by lia. cbn [andb]. rewrite Hflags.
  rewrite (proj2 (Z.eqb_neq q INTMAX_MIN)) by (unfold INTMAX_MAX, INTMAX_MIN in *; lia).
  rewrite (proj2 (Z.ltb_ge len _)) by lia. rewrite abs_if.
  assert (tst scale (HN_AUTOSCALE .| HN_GETSCALE) = false) as ->.
  { assert (scale = 0 \/ scale = 1 \/ scale = 2 \/ scale = 3 \/ scale = 4 \/ scale = 5 \/ scale = 6) as H by lia.
    by repeat destruct H as [->|H]; [..|subst]. }
  pose proof (scale_loop_spec (Z.abs q) (divisor_of flags) Hd (Z.to_nat (Z.min scale 6)) 0 ltac:(lia)) as E.
  rewrite Z.pow_0_r, Z.div_1_r in E. change (last_rem (Z.abs q) (divisor_of flags) 0) with 0 in E. rewrite E.
  replace (0 + Z.of_nat (Z.to_nat (Z.min scale 6))) with scale by lia. apply put_number_text. lia.
Qed.

End Promises.



(** A decimal place is added without room for it, the width for twenty digits
    overflows, and so does the sign of the least number. *)
Example humanize_cases :
  humanize_number (codes ".") 5 1536 [] HN_AUTOSCALE (HN_NOSPACE .| HN_DECIMAL) = HText 4 (codes "1.5K") /\
  humanize_number (codes ".") 4 1536 [] HN_AUTOSCALE (HN_NOSPACE .| HN_DECIMAL) = HText 4 (codes "1.5") /\
  humanize_number (codes ".") 8 1023999 (codes "B") HN_AUTOSCALE HN_DIVISOR_1000 = HText 7 (codes "1024 kB") /\
  humanize_number (codes ".") 30 5 [] HN_AUTOSCALE 0 = HOverflow /\
  humanize_number (codes ".") 5 INTMAX_MIN [] HN_AUTOSCALE 0 = HOverflow.
Proof. vm_compute. repeat split. Qed.
