(* ===== verification/SetMode.v ===== *)
(** Symbolic file modes (src.freebsd/compat/setmode.c): [setmode] compiles a mode
    string to a growing array of [BITCMD] cells, [compress_mode] compacts the
    array in place, [getmode] runs it on the mode of a file.  Accesses to the
    array are checked, fresh memory has arbitrary contents and every allocation
    may fail. *)

From S2P Require Import Prelude Ctype.

Definition S_ISUID : Z := 0x800.
Definition S_ISGID : Z := 0x400.
Definition S_ISTXT : Z := 0x200.
Definition S_IRUSR : Z := 0x100.
Definition S_IWUSR : Z := 0x80.
Definition S_IXUSR : Z := 0x40.
Definition S_IRGRP : Z := 0x20.
Definition S_IWGRP : Z := 0x10.
Definition S_IXGRP : Z := 0x8.
Definition S_IROTH : Z := 0x4.
Definition S_IWOTH : Z := 0x2.
Definition S_IXOTH : Z := 0x1.
Definition S_IRWXU : Z := 0x1c0.
Definition S_IRWXG : Z := 0x38.
Definition S_IRWXO : Z := 0x7.
Definition S_IFDIR : Z := 0x4000.
Definition EINVAL : Z := 22.
Definition ENOMEM : Z := 12.
Definition ERANGE : Z := 34.

Definition SET_LEN : nat := 6.
Definition SET_LEN_INCR : nat := 4.
Definition CMD2_CLR : Z := 0x01.
Definition CMD2_SET : Z := 0x02.
Definition CMD2_GBITS : Z := 0x04.
Definition CMD2_OBITS : Z := 0x08.
Definition CMD2_UBITS : Z := 0x10.
Definition STANDARD_BITS : Z := S_ISUID .| S_ISGID .| S_IRWXU .| S_IRWXG .| S_IRWXO.

Record bitcmd := BitCmd { cmd : Z; cmd2 : Z; bits : Z }.

(** * Running a compiled mode *)

(** The code behind [common:]. *)
Definition copy_bits (set : bitcmd) (value newmode : Z) : Z :=
  let newmode :=
    if tst (cmd2 set) CMD2_CLR then
      let clrval := if tst (cmd2 set) CMD2_SET then S_IRWXO else value in
      let newmode := if tst (cmd2 set) CMD2_UBITS
                     then newmode .&~ ((clrval .<< 6) .& bits set) else newmode in
      let newmode := if tst (cmd2 set) CMD2_GBITS
                     then newmode .&~ ((clrval .<< 3) .& bits set) else newmode in
      if tst (cmd2 set) CMD2_OBITS then newmode .&~ (clrval .& bits set) else newmode
    else newmode in
  if tst (cmd2 set) CMD2_SET then
    let newmode := if tst (cmd2 set) CMD2_UBITS
                   then newmode .| ((value .<< 6) .& bits set) else newmode in
    let newmode := if tst (cmd2 set) CMD2_GBITS
                   then newmode .| ((value .<< 3) .& bits set) else newmode in
    if tst (cmd2 set) CMD2_OBITS then newmode .| (value .& bits set) else newmode
  else newmode.

(** One command, [None] for the terminator. *)
Definition run_cmd (set : bitcmd) (omode newmode : Z) : option Z :=
  if cmd set =? chr "u" then Some (copy_bits set ((newmode .& S_IRWXU) .>> 6) newmode)
  else if cmd set =? chr "g" then Some (copy_bits set ((newmode .& S_IRWXG) .>> 3) newmode)
  else if cmd set =? chr "o" then Some (copy_bits set (newmode .& S_IRWXO) newmode)
  else if cmd set =? chr "+" then Some (newmode .| bits set)
  else if cmd set =? chr "-" then Some (newmode .&~ bits set)
  else if cmd set =? chr "X" then
    Some (if tst omode (S_IFDIR .| S_IXUSR .| S_IXGRP .| S_IXOTH)
          then newmode .| bits set else newmode)
  else None.

(** [None]: read past the end of the array. *)
Fixpoint getmode_from (set : list bitcmd) (omode newmode : Z) : option Z :=
  match set with
  | [] => None
  | b :: set =>
    match run_cmd b omode newmode with
    | Some newmode => getmode_from set omode newmode
    | None => Some newmode
    end
  end.
Definition getmode (bbox : list bitcmd) (omode : Z) : option Z := getmode_from bbox omode omode.

(** * Compiling *)

Inductive res (A : Type) :=
| Ok (a : A)
| Err (errno : Z)    (* NULL, with [errno] *)
| Fault.             (* access outside the array *)
Arguments Ok {A}. Arguments Err {A}. Arguments Fault {A}.

#[export] Instance res_bind : MBind res := fun A B f x =>
  match x with Ok a => f a | Err e => Err e | Fault => Fault end.

Definition checked {A} (x : option A) : res A := match x with Some a => Ok a | None => Fault end.

(** An assignment to fields of [a[i]]. *)
Definition update (a : list bitcmd) (i : nat) (f : bitcmd -> bitcmd) : option (list bitcmd) :=
  b ← a !! i; awrite a i (f b).
Definition set_cmd (c : Z) (b : bitcmd) : bitcmd := BitCmd c (cmd2 b) (bits b).
Definition set_cmd_bits (c v : Z) (b : bitcmd) : bitcmd := BitCmd c (cmd2 b) v.

Definition addcmd (a : list bitcmd) (set : nat) (op who oparg mask : Z) : option (list bitcmd * nat) :=
  if op =? chr "=" then
    a ← update a set (set_cmd_bits (chr "-") (if who =? 0 then STANDARD_BITS else who));
    let set := S set in
    a ← update a set (set_cmd_bits (chr "+") ((if who =? 0 then mask else who) .& oparg));
    Some (a, S set)
  else if (op =? chr "+") || (op =? chr "-") || (op =? chr "X") then
    a ← update a set (set_cmd_bits op ((if who =? 0 then mask else who) .& oparg));
    Some (a, S set)
  else if (op =? chr "u") || (op =? chr "g") || (op =? chr "o") then
    let c2 := if who =? 0 then CMD2_UBITS .| CMD2_GBITS .| CMD2_OBITS
              else (if tst who S_IRUSR then CMD2_UBITS else 0) .|
                   (if tst who S_IRGRP then CMD2_GBITS else 0) .|
                   (if tst who S_IROTH then CMD2_OBITS else 0) in
    let bits := if who =? 0 then mask else 2 ^ 32 - 1 in
    let c2 := if oparg =? chr "+" then c2 .| CMD2_SET
              else if oparg =? chr "-" then c2 .| CMD2_CLR
              else if oparg =? chr "=" then c2 .| (CMD2_SET .| CMD2_CLR) else c2 in
    a ← update a set (fun _ => BitCmd op c2 bits);
    Some (a, S set)
  else Some (a, S set).

(** The array under construction: [saveset], the index of [set] in it, [setlen]. *)
Record cells := Cells { saveset : list bitcmd; set_ix : nat; setlen : nat }.

Section Setmode.
(** [malloc] and [reallocarray]: the contents of the new cells, if it succeeds. *)
Context (malloc : option (nat -> bitcmd)) (realloc : nat -> option (nat -> bitcmd)).

Definition ADDCMD (mask : Z) (op who oparg : Z) (s : cells) : res cells :=
  s ← (if (setlen s - 2 <=? set_ix s)%nat then
         let setlen' := (setlen s + SET_LEN_INCR)%nat in
         match realloc setlen' with
         | None => Err ENOMEM
         | Some junk => Ok (Cells (saveset s ++ map junk (seq (setlen s) SET_LEN_INCR)) (set_ix s) setlen')
         end
       else Ok s);
  match addcmd (saveset s) (set_ix s) op who oparg mask with
  | Some (a, set) => Ok (Cells a set (setlen s))
  | None => Fault
  end.

(** [strtol(p, &ep, 8)] on a string of digits: the value and what is left. *)
Fixpoint strtol8 (p : list Z) (v : Z) : Z * list Z :=
  match p with
  | c :: p' => if (48 <=? c) && (c <=? 55) then strtol8 p' (v * 8 + (c - 48)) else (v, p)
  | [] => (v, [])
  end.
Definition LONG_MAX : Z := 2 ^ 63 - 1.

(** The absolute form: the value or the error. *)
Definition absolute (p : list Z) : res Z :=
  let '(perml, ep) := strtol8 p 0 in
  match ep with
  | _ :: _ => Err EINVAL
  | [] => if LONG_MAX <? perml then Err ERANGE
          else if tst perml (Z.lnot (STANDARD_BITS .| S_ISTXT)) then Err EINVAL
          else Ok perml
  end.

(** ** The symbolic form, over the operation behind ADDCMD *)

Section Symbolic.
Context {St : Type} (add : Z -> Z -> Z -> St -> res St).

(** Where the parser stands: collecting who, or permissions behind an operator. *)
Inductive phase :=
| PWho (who : Z)
| PPerm (op who perm permXbits : Z).

Definition is_op (c : Z) : bool := (c =? chr "+") || (c =? chr "-") || (c =? chr "=").

Definition who_bits (c : Z) : option Z :=
  if c =? chr "a" then Some STANDARD_BITS
  else if c =? chr "u" then Some (S_ISUID .| S_IRWXU)
  else if c =? chr "g" then Some (S_ISGID .| S_IRWXG)
  else if c =? chr "o" then Some S_IRWXO else None.

(** A permission letter: the new [who], [perm] and [permXbits]. *)
Definition perm_char (c who perm permXbits : Z) : option (Z * Z * Z) :=
  if c =? chr "r" then Some (who, perm .| (S_IRUSR .| S_IRGRP .| S_IROTH), permXbits)
  else if c =? chr "s" then
    Some (who, (if (who =? 0) || tst who (Z.lnot S_IRWXO) then perm .| (S_ISUID .| S_ISGID) else perm), permXbits)
  else if c =? chr "t" then
    if (who =? 0) || tst who (Z.lnot S_IRWXO) then Some (who .| S_ISTXT, perm .| S_ISTXT, permXbits)
    else Some (who, perm, permXbits)
  else if c =? chr "w" then Some (who, perm .| (S_IWUSR .| S_IWGRP .| S_IWOTH), permXbits)
  else if c =? chr "X" then Some (who, perm, S_IXUSR .| S_IXGRP .| S_IXOTH)
  else if c =? chr "x" then Some (who, perm .| (S_IXUSR .| S_IXGRP .| S_IXOTH), permXbits)
  else None.

(** The cases [u], [g] and [o]: flush, then copy.  The result is [perm],
    [permXbits] and [equalopdone] with the commands. *)
Definition copy_step (c op who perm permXbits : Z) (equalopdone : bool) (st : St)
    : res (Z * Z * bool * St) :=
  st ← (if negb (perm =? 0) then add op who perm st else Ok st);
  let perm := 0 in
  let equalopdone := if op =? chr "=" then true else equalopdone in
  '(permXbits, st) ← (if (op =? chr "+") && negb (permXbits =? 0)
                      then st ← add (chr "X") who permXbits st; Ok (0, st)
                      else Ok (permXbits, st));
  st ← add c who op st;
  Ok (perm, permXbits, equalopdone, st).

(** The default case: what has not been added yet. *)
Definition clause_end (op who perm permXbits : Z) (equalopdone : bool) (st : St) : res (bool * St) :=
  '(equalopdone, st) ←
    (if negb (perm =? 0) || ((op =? chr "=") && negb equalopdone) then
       let equalopdone := if op =? chr "=" then true else equalopdone in
       st ← add op who perm st; Ok (equalopdone, st)
     else Ok (equalopdone, st));
  st ← (if negb (permXbits =? 0) then add (chr "X") who permXbits st else Ok st);
  Ok (equalopdone, st).

(** The three nested loops, one character at a time; the end of the list is the
    NUL. *)
Fixpoint sym_loop (p : list Z) (ph : phase) (equalopdone : bool) (st : St) : res St :=
  match p with
  | [] =>
    match ph with
    | PWho _ => Err EINVAL
    | PPerm op who perm permXbits =>
      '(_, st) ← clause_end op who perm permXbits equalopdone st; Ok st
    end
  | c :: p =>
    let getop who equalopdone st :=
      if negb (is_op c) then Err EINVAL
      else sym_loop p (PPerm c (who .&~ S_ISTXT) 0 0)
             (if c =? chr "=" then false else equalopdone) st in
    match ph with
    | PWho who =>
      match who_bits c with
      | Some b => sym_loop p (PWho (who .| b)) equalopdone st
      | None => getop who equalopdone st
      end
    | PPerm op who perm permXbits =>
      match perm_char c who perm permXbits with
      | Some (who, perm, permXbits) => sym_loop p (PPerm op who perm permXbits) equalopdone st
      | None =>
        if (c =? chr "u") || (c =? chr "g") || (c =? chr "o") then
          '(perm, permXbits, equalopdone, st) ← copy_step c op who perm permXbits equalopdone st;
          sym_loop p (PPerm op who perm permXbits) equalopdone st
        else
          '(equalopdone, st) ← clause_end op who perm permXbits equalopdone st;
          if c =? chr "," then sym_loop p (PWho 0) equalopdone st
          else getop who equalopdone st
      end
    end
  end.

End Symbolic.

(** ** Compaction *)

Inductive cres :=
| COk (a : list bitcmd)
| CFault                  (* access outside the array *)
| CFuel.                  (* loop not finished *)

Definition is_pmx (c : Z) : bool := (c =? chr "+") || (c =? chr "-") || (c =? chr "X").

(** One collected command: [setbits], [clrbits], [Xbits]. *)
Definition collect (b : bitcmd) (scx : Z * Z * Z) : Z * Z * Z :=
  let '(setbits, clrbits, Xbits) := scx in
  if cmd b =? chr "-" then (setbits .&~ bits b, clrbits .| bits b, Xbits .&~ bits b)
  else if cmd b =? chr "+" then (setbits .| bits b, clrbits .&~ bits b, Xbits .&~ bits b)
  else (setbits, clrbits, Xbits .| (bits b .&~ setbits)).

(** The at most three commands of a run, in the order they are stored. *)
Definition emitted (scx : Z * Z * Z) : list bitcmd :=
  let '(setbits, clrbits, Xbits) := scx in
  (if clrbits =? 0 then [] else [BitCmd (chr "-") 0 clrbits]) ++
  (if setbits =? 0 then [] else [BitCmd (chr "+") 0 setbits]) ++
  (if Xbits =? 0 then [] else [BitCmd (chr "X") 0 Xbits]).

Fixpoint store_cells (a : list bitcmd) (set : nat) (bs : list bitcmd) : option (list bitcmd * nat) :=
  match bs with
  | [] => Some (a, set)
  | b :: bs => a ← awrite a set b; store_cells a (S set) bs
  end.

(** [run]: the bits collected inside the second loop, [None] inside the first. *)
Fixpoint compress_loop (fuel : nat) (a : list bitcmd) (set nset : nat) (run : option (Z * Z * Z)) : cres :=
  match fuel with
  | O => CFuel
  | S fuel =>
    match a !! nset with
    | None => CFault
    | Some b =>
      match run with
      | None =>
        if is_pmx (cmd b) then compress_loop fuel a set nset (Some (0, 0, 0))
        else match awrite a set b with
             | None => CFault
             | Some a => if cmd b =? 0 then COk a else compress_loop fuel a (S set) (S nset) None
             end
      | Some scx =>
        if is_pmx (cmd b) then compress_loop fuel a set (S nset) (Some (collect b scx))
        else match store_cells a set (emitted scx) with
             | None => CFault
             | Some (a, set) => compress_loop fuel a set nset None
             end
      end
    end
  end.

Definition compress_mode (a : list bitcmd) : cres := compress_loop (2 * length a + 3) a 0 0 None.

(** * setmode *)

(** [um]: what [get_current_umask] returns. *)
Definition setmode (um : Z) (p : list Z) : res (list bitcmd) :=
  match p with
  | [] => Err EINVAL
  | c :: _ =>
    let mask := u32 (Z.lnot um) in
    match malloc with
    | None => Err ENOMEM
    | Some junk =>
      let s := Cells (map junk (seq 0 (SET_LEN + 2))) 0 (SET_LEN + 2) in
      if isdigit c then
        perm ← absolute p;
        s ← ADDCMD mask (chr "=") (STANDARD_BITS .| S_ISTXT) perm s;
        checked (update (saveset s) (set_ix s) (set_cmd 0))
      else
        s ← sym_loop (ADDCMD mask) p (PWho 0) false s;
        a ← checked (update (saveset s) (set_ix s) (set_cmd 0));
        match compress_mode a with COk a => Ok a | _ => Fault end
    end
  end.

End Setmode.

(** * Specification: the mode string interpreted directly *)

(** The calls of ADDCMD a string makes. *)
Definition call : Type := Z * Z * Z.
Definition trace_call (op who oparg : Z) (t : list call) : res (list call) := Ok (t ++ [(op, who, oparg)]).
Definition mode_calls (p : list Z) : res (list call) := sym_loop trace_call p (PWho 0) false [].

(** The three bits [v] in the classes [who] selects; umask-relative without who. *)
Definition spread (mask who v : Z) : Z :=
  if who =? 0 then ((v .<< 6) .| (v .<< 3) .| v) .& mask
  else (if tst who S_IRUSR then v .<< 6 else 0) .| (if tst who S_IRGRP then v .<< 3 else 0) .|
       (if tst who S_IROTH then v else 0).

Definition run_call (mask omode m : Z) (c : call) : Z :=
  let '(op, who, oparg) := c in
  let perms := (if who =? 0 then mask else who) .& oparg in
  let copy v :=
    if oparg =? chr "+" then m .| spread mask who v
    else if oparg =? chr "-" then m .&~ spread mask who v
    else (m .&~ spread mask who S_IRWXO) .| spread mask who v in
  if op =? chr "=" then (m .&~ (if who =? 0 then STANDARD_BITS else who)) .| perms
  else if op =? chr "+" then m .| perms
  else if op =? chr "-" then m .&~ perms
  else if op =? chr "X" then
    if tst omode (S_IFDIR .| S_IXUSR .| S_IXGRP .| S_IXOTH) then m .| perms else m
  else if op =? chr "u" then copy ((m .& S_IRWXU) .>> 6)
  else if op =? chr "g" then copy ((m .& S_IRWXG) .>> 3)
  else copy (m .& S_IRWXO).

Definition run_calls (mask omode : Z) (cs : list call) (m : Z) : Z :=
  foldl (run_call mask omode) m cs.

(** The commands ADDCMD stores for a call, the second byte of the first three
    kinds being whatever was in the cell. *)
Definition call_ok (c : call) : Prop :=
  let '(op, who, oparg) := c in
  op = chr "=" \/ op = chr "+" \/ op = chr "-" \/ op = chr "X" \/
  ((op = chr "u" \/ op = chr "g" \/ op = chr "o") /\
   (oparg = chr "+" \/ oparg = chr "-" \/ oparg = chr "=")).

(** The permission bits, and calls that only concern them. *)
Definition mode_bits : Z := STANDARD_BITS .| S_ISTXT.
Definition mode12 (x : Z) : Prop := x .&~ mode_bits = 0.
Definition is_copy (op : Z) : bool := (op =? chr "u") || (op =? chr "g") || (op =? chr "o").
Definition call_fits (c : call) : Prop :=
  let '(op, who, oparg) := c in mode12 who /\ (is_copy op = true \/ mode12 oparg).

(** A list of commands without a terminator, run on a mode. *)
Definition is_cmd (b : bitcmd) : Prop :=
  cmd b = chr "u" \/ cmd b = chr "g" \/ cmd b = chr "o" \/ cmd b = chr "+" \/ cmd b = chr "-" \/ cmd b = chr "X".
Definition exec1 (omode m : Z) (b : bitcmd) : Z := default m (run_cmd b omode m).
Definition exec (omode : Z) (l : list bitcmd) (m : Z) : Z := foldl (exec1 omode) m l.

Lemma getmode_exec omode l : Forall is_cmd l -> forall b r m, cmd b = 0 ->
  getmode_from (l ++ b :: r) omode m = Some (exec omode l m).
Proof.
  induction 1 as [|b l Hb Hl IH]; intros t r m Ht; cbn [app getmode_from exec foldl].
  - unfold run_cmd. by rewrite Ht.
  - unfold exec1 at 2. destruct Hb as [E|[E|[E|[E|[E|E]]]]]; unfold run_cmd; rewrite E; cbn;
      apply IH, Ht.
Qed.

(** ** A copy command is the copy of its classes *)

Lemma land_mode x : 0 <= x < 2 ^ 32 -> x .& (2 ^ 32 - 1) = x.
Proof.
  intros Hx. change (2 ^ 32 - 1) with (Z.ones 32). rewrite Z.land_ones by lia. by apply Z.mod_small.
Qed.

(** Bit by bit, with any terms at the leaves. *)
Ltac leafbits :=
  apply Z.bits_inj'; let n := fresh "n" in let Hn := fresh "Hn" in intros n Hn;
  repeat first [ rewrite Z.land_spec | rewrite Z.lor_spec | rewrite Z.lnot_spec by assumption | rewrite Z.bits_0 ];
  repeat match goal with |- context [Z.testbit ?x n] => destruct (Z.testbit x n) end; reflexivity.

(** Tests of constants, evaluated. *)
Ltac eval_tests :=
  repeat match goal with
  | |- context [chr ?a =? chr ?b] => let r := eval vm_compute in (chr a =? chr b) in change (chr a =? chr b) with r
  end; cbv iota;
  repeat match goal with
  | |- context [tst ?a ?b] => let r := eval vm_compute in (tst a b) in
      match r with true => change (tst a b) with true | false => change (tst a b) with false end
  end; cbv iota zeta.

Definition copy_cmd2 (who oparg : Z) : Z :=
  let c2 := if who =? 0 then CMD2_UBITS .| CMD2_GBITS .| CMD2_OBITS
            else (if tst who S_IRUSR then CMD2_UBITS else 0) .|
                 (if tst who S_IRGRP then CMD2_GBITS else 0) .|
                 (if tst who S_IROTH then CMD2_OBITS else 0) in
  if oparg =? chr "+" then c2 .| CMD2_SET
  else if oparg =? chr "-" then c2 .| CMD2_CLR
  else if oparg =? chr "=" then c2 .| (CMD2_SET .| CMD2_CLR) else c2.

Lemma copy_bits_spec op who oparg mask v m : 0 <= v < 8 ->
  oparg = chr "+" \/ oparg = chr "-" \/ oparg = chr "=" ->
  copy_bits (BitCmd op (copy_cmd2 who oparg) (if who =? 0 then mask else 2 ^ 32 - 1)) v m =
  if oparg =? chr "+" then m .| spread mask who v
  else if oparg =? chr "-" then m .&~ spread mask who v
  else (m .&~ spread mask who S_IRWXO) .| spread mask who v.
Proof.
  intros Hv Ho. unfold copy_bits, copy_cmd2, spread. cbn [bits cmd2].
  assert (forall x, 0 <= x < 8 -> (x .<< 6) .& (2 ^ 32 - 1) = x .<< 6 /\
    (x .<< 3) .& (2 ^ 32 - 1) = x .<< 3 /\ x .& (2 ^ 32 - 1) = x) as Hm.
  { intros x Hx. pose proof (forall_range 8 (fun x => ((x .<< 6) .& (2 ^ 32 - 1) =? x .<< 6) &&
      ((x .<< 3) .& (2 ^ 32 - 1) =? x .<< 3) && (x .& (2 ^ 32 - 1) =? x)) ltac:(vm_compute; reflexivity) x Hx) as H.
    cbv beta in H. by zbool. }
  destruct (Hm v Hv) as (E1 & E2 & E3). destruct (Hm S_IRWXO ltac:(unfold S_IRWXO; lia)) as (F1 & F2 & F3).
  destruct (who =? 0); [|destruct (tst who S_IRUSR), (tst who S_IRGRP), (tst who S_IROTH)];
    destruct Ho as [->|[->| ->]]; eval_tests;
    rewrite ?E1, ?E2, ?E3, ?F1, ?F2, ?F3; leafbits.
Qed.

Lemma class_bits m k : 0 <= k -> 0 <= (m .& (7 .<< k)) .>> k < 8.
Proof.
  intros Hk. rewrite Z.shiftr_land, Z.shiftr_shiftl_l, Z.sub_diag by lia. change (7 .<< 0) with (Z.ones 3).
  rewrite Z.land_ones by lia. pose proof (Z.mod_pos_bound (m .>> k) (2 ^ 3)). lia.
Qed.

(** ** ADDCMD on the array *)

Lemma update_at (pre r : list bitcmd) x f n : n = length pre ->
  update (pre ++ x :: r) n f = Some (pre ++ f x :: r).
Proof.
  intros ->. unfold update. rewrite lookup_app_r, Nat.sub_diag by lia. cbn [lookup list_lookup mbind option_bind].
  apply awrite_app_cons.
Qed.

Lemma exec_app omode l1 l2 m : exec omode (l1 ++ l2) m = exec omode l2 (exec omode l1 m).
Proof. apply foldl_app. Qed.

Lemma addcmd_spec pre x y r op who oparg mask : call_ok (op, who, oparg) ->
  exists l r', addcmd (pre ++ x :: y :: r) (length pre) op who oparg mask = Some ((pre ++ l) ++ r', length (pre ++ l)) /\
    length (l ++ r') = S (S (length r)) /\ (length l <= 2)%nat /\ Forall is_cmd l /\
    forall omode m, exec omode l m = run_call mask omode m (op, who, oparg).
Proof.
  assert (forall b, length (pre ++ [b]) = S (length pre)) as Hl1 by (intros; rewrite length_app; simpl; lia).
  assert (forall o, call_ok (o, who, oparg) -> o = chr "u" \/ o = chr "g" \/ o = chr "o" ->
    exists b, addcmd (pre ++ x :: y :: r) (length pre) o who oparg mask =
      Some ((pre ++ [b]) ++ y :: r, length (pre ++ [b])) /\
      b = BitCmd o (copy_cmd2 who oparg) (if who =? 0 then mask else 2 ^ 32 - 1)) as Hcopy.
  { intros o _ Ho. eexists. split; [|reflexivity].
    destruct Ho as [->|[-> | ->]]; unfold addcmd; eval_tests; cbn [orb];
      rewrite update_at by done; cbn [mbind option_bind]; by rewrite Hl1, <- app_assoc. }
  assert (forall o, o = chr "+" \/ o = chr "-" \/ o = chr "X" ->
    exists l r', addcmd (pre ++ x :: y :: r) (length pre) o who oparg mask = Some ((pre ++ l) ++ r', length (pre ++ l)) /\
      length (l ++ r') = S (S (length r)) /\ (length l <= 2)%nat /\ Forall is_cmd l /\
      forall omode m, exec omode l m = run_call mask omode m (o, who, oparg)) as Hplain.
  { intros o Ho. exists [set_cmd_bits o ((if who =? 0 then mask else who) .& oparg) x], (y :: r).
    destruct Ho as [->|[-> | ->]]; (split_and!; [|done|simpl; lia| |done];
      [unfold addcmd; eval_tests; cbn [orb]; rewrite update_at by done; cbn [mbind option_bind];
         by rewrite Hl1, <- app_assoc
      |apply Forall_singleton; unfold is_cmd; cbn [cmd set_cmd_bits]; auto 8]). }
  intros Hok. pose proof Hok as [->|[Ho|[Ho|[Ho|[Hc Ho]]]]]; try (apply Hplain; tauto).
  - set (b1 := set_cmd_bits (chr "-") (if who =? 0 then STANDARD_BITS else who) x).
    set (b2 := set_cmd_bits (chr "+") ((if who =? 0 then mask else who) .& oparg) y).
    exists [b1; b2], r. split_and!; [|done|simpl; lia| |done].
    + unfold addcmd. eval_tests. rewrite update_at by done. cbn [mbind option_bind]. fold b1.
      rewrite (cons_middle b1 pre (y :: r)), (app_assoc pre), update_at by (by rewrite Hl1).
      cbn [mbind option_bind]. fold b2. rewrite (length_app pre [b1; b2]), <- !app_assoc. cbn [length app].
      by rewrite Nat.add_comm.
    + apply Forall_cons; split; [|apply Forall_singleton]; unfold is_cmd; cbn; auto 8.
  - destruct (Hcopy op Hok Hc) as (b & -> & Hb). exists [b], (y :: r).
    split_and!; [done|done|simpl; lia| |].
    + apply Forall_singleton. unfold is_cmd. subst b. cbn [cmd]. tauto.
    + intros omode m. cbn [exec foldl]. unfold exec1, run_cmd, run_call. subst b. cbn [cmd].
      destruct Hc as [->|[-> | ->]]; eval_tests; cbn [default]; apply copy_bits_spec; try done.
      * apply (class_bits m 6). lia.
      * apply (class_bits m 3). lia.
      * pose proof (class_bits m 0 ltac:(lia)) as H. by rewrite Z.shiftr_0_r in H.
Qed.

(** ** The parser over two stores *)

(** The first result is the second one, or a failed allocation. *)
Definition res_rel {A B} (nomem : Prop) (R : A -> B -> Prop) (x : res A) (y : res B) : Prop :=
  match x with
  | Ok a => exists b, y = Ok b /\ R a b
  | Err e => (e = ENOMEM /\ nomem) \/ y = Err e
  | Fault => False
  end.

Lemma res_rel_bind {A B C D} nomem (R : A -> B -> Prop) (R' : C -> D -> Prop) x y f g :
  res_rel nomem R x y -> (forall a b, R a b -> res_rel nomem R' (f a) (g b)) ->
  res_rel nomem R' (x ≫= f) (y ≫= g).
Proof.
  unfold mbind, res_bind. destruct x as [a|e|]; cbn; [| |done].
  - intros (b & -> & H) Hf. by apply Hf.
  - intros [[-> H]| ->] _; [by left|by right].
Qed.

Lemma res_rel_ok {A B} nomem (R : A -> B -> Prop) a b : R a b -> res_rel nomem R (Ok a) (Ok b).
Proof. intros. by exists b. Qed.

Section Simulation.
Context {S1 S2 : Type} (add1 : Z -> Z -> Z -> S1 -> res S1) (add2 : Z -> Z -> Z -> S2 -> res S2)
  (nomem : Prop) (R : S1 -> S2 -> Prop).
Context (Hadd : forall op who oparg s1 s2, call_ok (op, who, oparg) -> call_fits (op, who, oparg) -> R s1 s2 ->
  res_rel nomem R (add1 op who oparg s1) (add2 op who oparg s2)).

Definition with_state {X} (p1 : X * S1) (p2 : X * S2) : Prop := p1.1 = p2.1 /\ R p1.2 p2.2.

Definition phase_ok (ph : phase) : Prop :=
  match ph with
  | PWho who => mode12 who
  | PPerm op who perm permX => is_op op = true /\ mode12 who /\ mode12 perm /\ mode12 permX
  end.

Lemma add_op op who perm s1 s2 : is_op op = true -> mode12 who -> mode12 perm -> R s1 s2 ->
  res_rel nomem R (add1 op who perm s1) (add2 op who perm s2).
Proof.
  intros Hop Hw Hp. apply Hadd; [|by split; auto].
  revert Hop. unfold is_op, call_ok. rewrite !orb_true_iff, !Z.eqb_eq. tauto.
Qed.
Lemma add_copy c who op s1 s2 : is_op op = true -> is_copy c = true -> mode12 who -> R s1 s2 ->
  res_rel nomem R (add1 c who op s1) (add2 c who op s2).
Proof.
  intros Hop Hc Hw. apply Hadd; [|by split; auto].
  revert Hop Hc. unfold is_op, is_copy, call_ok. rewrite !orb_true_iff, !Z.eqb_eq. tauto.
Qed.
Lemma add_X who permX s1 s2 : mode12 who -> mode12 permX -> R s1 s2 ->
  res_rel nomem R (add1 (chr "X") who permX s1) (add2 (chr "X") who permX s2).
Proof. intros Hw Hp. apply Hadd; [unfold call_ok; tauto|by split; auto]. Qed.

Lemma clause_end_sim op who perm permX eqd s1 s2 : phase_ok (PPerm op who perm permX) -> R s1 s2 ->
  res_rel nomem with_state (clause_end add1 op who perm permX eqd s1) (clause_end add2 op who perm permX eqd s2).
Proof.
  intros (Hop & Hw & Hp & HX) HR. unfold clause_end. apply (res_rel_bind _ with_state).
  - destruct (negb (perm =? 0) || _); [|by apply res_rel_ok].
    apply (res_rel_bind _ R); [by apply add_op|intros; by apply res_rel_ok].
  - intros [e1 t1] [e2 t2] [He HR']. cbn in He, HR'. subst e2. apply (res_rel_bind _ R).
    + destruct (negb (permX =? 0)); [by apply add_X|by apply res_rel_ok].
    + intros. by apply res_rel_ok.
Qed.

Definition perms_ok (x : Z * Z * bool) : Prop := let '(perm, permX, _) := x in mode12 perm /\ mode12 permX.

Lemma copy_step_sim c op who perm permX eqd s1 s2 : phase_ok (PPerm op who perm permX) -> is_copy c = true -> R s1 s2 ->
  res_rel nomem (fun p1 p2 => with_state p1 p2 /\ perms_ok p1.1)
    (copy_step add1 c op who perm permX eqd s1) (copy_step add2 c op who perm permX eqd s2).
Proof.
  intros (Hop & Hw & Hp & HX) Hc HR. unfold copy_step. apply (res_rel_bind _ R).
  { destruct (negb (perm =? 0)); [by apply add_op|by apply res_rel_ok]. }
  intros t1 t2 HR'. apply (res_rel_bind _ (fun p1 p2 => with_state p1 p2 /\ mode12 p1.1)).
  { destruct ((op =? chr "+") && _); [|by apply res_rel_ok].
    apply (res_rel_bind _ R); [by apply add_X|intros; by apply res_rel_ok]. }
  intros [x1 u1] [x2 u2] [[Hx HR''] Hm]. cbn in Hx, HR'', Hm. subst x2.
  apply (res_rel_bind _ R); [by apply add_copy|intros; by apply res_rel_ok].
Qed.

Lemma mode12_lor a b : mode12 a -> mode12 b -> mode12 (a .| b).
Proof. unfold mode12. intros Ha Hb. by rewrite Z.land_lor_distr_l, Ha, Hb. Qed.
Lemma mode12_clear a b : mode12 a -> mode12 (a .&~ b).
Proof. unfold mode12. intros Ha. by rewrite <- Z.land_assoc, (Z.land_comm (Z.lnot b)), Z.land_assoc, Ha. Qed.

Lemma who_bits_mode12 c b : who_bits c = Some b -> mode12 b.
Proof. unfold who_bits. repeat case_match; intros [= <-]; reflexivity. Qed.

Lemma perm_char_mode12 c who perm permX who' perm' permX' :
  perm_char c who perm permX = Some (who', perm', permX') ->
  mode12 who -> mode12 perm -> mode12 permX -> mode12 who' /\ mode12 perm' /\ mode12 permX'.
Proof.
  unfold perm_char. repeat case_match; intros [= <- <- <-]; intros; split_and!; try done; by apply mode12_lor.
Qed.

Lemma sym_loop_sim p : forall ph eqd s1 s2, phase_ok ph -> R s1 s2 ->
  res_rel nomem R (sym_loop add1 p ph eqd s1) (sym_loop add2 p ph eqd s2).
Proof.
  induction p as [|c p IH]; intros ph eqd s1 s2 Hph HR; cbn [sym_loop].
  - destruct ph as [who|op who perm permX]; [by right|].
    apply (res_rel_bind _ with_state); [by apply clause_end_sim|].
    intros [? ?] [? ?] [_ ?]. by apply res_rel_ok.
  - assert (forall who eqd s1 s2, mode12 who -> R s1 s2 -> res_rel nomem R
      (if negb (is_op c) then Err EINVAL else sym_loop add1 p (PPerm c (who .&~ S_ISTXT) 0 0)
         (if c =? chr "=" then false else eqd) s1)
      (if negb (is_op c) then Err EINVAL else sym_loop add2 p (PPerm c (who .&~ S_ISTXT) 0 0)
         (if c =? chr "=" then false else eqd) s2)) as Hop.
    { intros who eqd' t1 t2 Hw HR'. destruct (is_op c) eqn:E; cbn [negb]; [|by right].
      apply IH; [|done]. split_and!; try done. by apply mode12_clear. }
    destruct ph as [who|op who perm permX].
    + destruct (who_bits c) eqn:Ew; [|by apply Hop].
      apply IH; [|done]. apply mode12_lor; [done|]. by apply (who_bits_mode12 c).
    + pose proof Hph as (Ho & Hw & Hp & HX).
      destruct (perm_char c who perm permX) as [[[who' perm'] permX']|] eqn:Ep.
      { apply IH; [|done]. split; [done|]. by apply (perm_char_mode12 c who perm permX). }
      destruct ((c =? chr "u") || (c =? chr "g") || (c =? chr "o")) eqn:Ec.
      * apply (res_rel_bind _ (fun p1 p2 => with_state p1 p2 /\ perms_ok p1.1)); [by apply copy_step_sim|].
        intros [[[? ?] ?] t1] [[[? ?] ?] t2] [[[= <- <- <-] ?] []]. by apply IH.
      * apply (res_rel_bind _ with_state); [by apply clause_end_sim|].
        intros [e1 t1] [e2 t2] [He HR']. cbn in He, HR'. subst e2.
        destruct (c =? chr ","); [by apply IH|by apply Hop].
Qed.

End Simulation.

(** ** Compaction of lists *)

(** Compaction as a function on the commands in front of the terminator. *)
Fixpoint compress_list (l : list bitcmd) (run : option (Z * Z * Z)) : list bitcmd :=
  match l with
  | [] => match run with None => [] | Some scx => emitted scx end
  | b :: l =>
    if is_pmx (cmd b) then compress_list l (Some (collect b (default (0, 0, 0) run)))
    else match run with None => [] | Some scx => emitted scx end ++ b :: compress_list l None
  end.

Lemma store_cells_app bs : forall pre r, (length bs <= length r)%nat ->
  store_cells (pre ++ r) (length pre) bs =
    Some ((pre ++ bs) ++ drop (length bs) r, length (pre ++ bs)).
Proof.
  induction bs as [|b bs IH]; intros pre r Hl; cbn [store_cells length].
  - by rewrite app_nil_r.
  - destruct r as [|x r]; simpl in Hl; [lia|]. rewrite awrite_app_cons. cbn [mbind option_bind drop].
    specialize (IH (pre ++ [b]) r ltac:(lia)). rewrite length_app, <- !app_assoc in IH. cbn [length app] in IH.
    rewrite Nat.add_1_r in IH. by rewrite IH, <- app_assoc.
Qed.

(** A run never stores more commands than it has collected. *)
Lemma emitted_collect b scx : (length (emitted (collect b scx)) <= S (length (emitted scx)))%nat.
Proof.
  destruct scx as [[s c] x]. unfold collect.
  assert (forall u v, u = 0 -> u .&~ v = 0) as Hz by (intros u v ->; apply Z.land_0_l).
  destruct (cmd b =? chr "-"); [|destruct (cmd b =? chr "+")]; unfold emitted.
  - pose proof (Hz s (bits b)). pose proof (Hz x (bits b)).
    destruct (Z.eqb_spec s 0), (Z.eqb_spec x 0), (Z.eqb_spec (s .&~ bits b) 0), (Z.eqb_spec (x .&~ bits b) 0);
      try tauto; destruct (c =? 0), (c .| bits b =? 0); simpl; lia.
  - pose proof (Hz c (bits b)). pose proof (Hz x (bits b)).
    destruct (Z.eqb_spec c 0), (Z.eqb_spec x 0), (Z.eqb_spec (c .&~ bits b) 0), (Z.eqb_spec (x .&~ bits b) 0);
      try tauto; destruct (s =? 0), (s .| bits b =? 0); simpl; lia.
  - destruct (s =? 0), (c =? 0), (x =? 0), (x .| (bits b .&~ s) =? 0); simpl; lia.
Qed.

Definition run_out (run : option (Z * Z * Z)) : list bitcmd :=
  match run with None => [] | Some scx => emitted scx end.

(** ** Compaction in place: the steps of the loop, where [out] has been written,
    [gap] has been read and not overwritten, and [b :: tl] is still to be read *)

Section Steps.
Context (fuel : nat) (out gap tl : list bitcmd) (b : bitcmd).

Lemma lookup_read : (out ++ gap ++ b :: tl) !! (length out + length gap)%nat = Some b.
Proof. rewrite app_assoc, lookup_at; [done|]. by rewrite length_app. Qed.

(** The next cell may be the one read. *)
Lemma write_read : exists gap', length gap' = length gap /\
  awrite (out ++ gap ++ b :: tl) (length out) b = Some ((out ++ [b]) ++ gap' ++ tl).
Proof.
  destruct gap as [|g gap'].
  - exists []. split; [done|]. cbn [app]. by rewrite awrite_app_cons, <- app_assoc.
  - exists (gap' ++ [b]). split; [rewrite length_app; simpl; lia|].
    cbn [app]. rewrite awrite_app_cons, <- !app_assoc. done.
Qed.

Lemma step_enter : is_pmx (cmd b) = true ->
  compress_loop (S fuel) (out ++ gap ++ b :: tl) (length out) (length out + length gap) None =
  compress_loop fuel (out ++ gap ++ b :: tl) (length out) (length out + length gap) (Some (0, 0, 0)).
Proof. intros Hp. cbn [compress_loop]. by rewrite lookup_read, Hp. Qed.

Lemma step_collect scx : is_pmx (cmd b) = true ->
  compress_loop (S fuel) (out ++ gap ++ b :: tl) (length out) (length out + length gap) (Some scx) =
  compress_loop fuel (out ++ (gap ++ [b]) ++ tl) (length out) (length out + length (gap ++ [b])) (Some (collect b scx)).
Proof.
  intros Hp. cbn [compress_loop]. rewrite lookup_read, Hp, <- app_assoc, length_app. cbn [length app].
  by rewrite Nat.add_1_r, Nat.add_succ_r.
Qed.

Lemma step_emit scx : is_pmx (cmd b) = false -> (length (emitted scx) <= length gap)%nat ->
  exists gap', (length (emitted scx) + length gap' = length gap)%nat /\
  compress_loop (S fuel) (out ++ gap ++ b :: tl) (length out) (length out + length gap) (Some scx) =
  compress_loop fuel ((out ++ emitted scx) ++ gap' ++ b :: tl) (length (out ++ emitted scx))
    (length (out ++ emitted scx) + length gap') None.
Proof.
  intros Hp Hg. exists (drop (length (emitted scx)) gap). rewrite length_drop. split; [lia|].
  cbn [compress_loop]. rewrite lookup_read, Hp, store_cells_app by (rewrite length_app; lia).
  rewrite drop_app_le, length_app by done. f_equal. lia.
Qed.

Lemma step_copy : is_pmx (cmd b) = false -> exists gap', length gap' = length gap /\
  compress_loop (S fuel) (out ++ gap ++ b :: tl) (length out) (length out + length gap) None =
  if cmd b =? 0 then COk ((out ++ [b]) ++ gap' ++ tl)
  else compress_loop fuel ((out ++ [b]) ++ gap' ++ tl) (length (out ++ [b])) (length (out ++ [b]) + length gap') None.
Proof.
  intros Hp. destruct write_read as (gap' & Hl & Hw). exists gap'. split; [done|].
  cbn [compress_loop]. rewrite lookup_read, Hp, Hw. destruct (cmd b =? 0); [done|].
  rewrite length_app, Hl. cbn [length]. f_equal; lia.
Qed.

End Steps.

Lemma compress_loop_list t (Ht : cmd t = 0) (rest : list bitcmd) l : Forall is_cmd l ->
  forall fuel (out gap : list bitcmd) run,
  (2 * length l + 3 <= fuel)%nat -> (length (run_out run) <= length gap)%nat ->
  exists r, compress_loop fuel (out ++ gap ++ l ++ t :: rest) (length out) (length out + length gap) run =
    COk (out ++ compress_list l run ++ t :: r) /\
    (length (compress_list l run) + length r = length gap + length l + length rest)%nat.
Proof.
  intros Hl. induction Hl as [|b l Hb Hl IH]; intros fuel out gap run Hf Hg.
  - assert (forall fuel out gap, exists r,
      compress_loop (S fuel) (out ++ gap ++ t :: rest) (length out) (length out + length gap) None =
        COk (out ++ t :: r) /\ length r = (length gap + length rest)%nat) as Hend.
    { intros fuel' out' gap'. destruct (step_copy fuel' out' gap' rest t) as (g & Hg' & ->); [by rewrite Ht|].
      rewrite Ht. exists (g ++ rest). split; [by rewrite <- app_assoc|]. rewrite length_app. lia. }
    cbn [app compress_list length]. destruct fuel as [|[|fuel]]; [simpl in Hf; lia..|].
    destruct run as [scx|].
    + destruct (step_emit (S fuel) out gap rest t scx) as (g & Hlg & ->); [by rewrite Ht|done|].
      destruct (Hend fuel (out ++ emitted scx) g) as (r & -> & Hr). exists r.
      rewrite <- app_assoc. split; [done|]. lia.
    + destruct (Hend (S fuel) out gap) as (r & -> & Hr). exists r. split; [done|]. simpl. lia.
  - cbn [app compress_list length]. destruct fuel as [|[|fuel]]; [simpl in Hf; lia..|]. simpl in Hf.
    destruct (is_pmx (cmd b)) eqn:Hp.
    + assert (forall n gap run, (2 * length l + 3 <= n)%nat -> (length (run_out (Some run)) <= length gap)%nat ->
        exists r, compress_loop (S n) (out ++ gap ++ b :: l ++ t :: rest) (length out) (length out + length gap) (Some run) =
          COk (out ++ compress_list l (Some (collect b run)) ++ t :: r) /\
          (length (compress_list l (Some (collect b run))) + length r = length gap + S (length l) + length rest)%nat) as Hc.
      { intros n gap' scx Hn Hg'. rewrite step_collect by done. cbn [run_out] in Hg'.
        pose proof (emitted_collect b scx) as He.
        destruct (IH n out (gap' ++ [b]) (Some (collect b scx)) Hn) as (r & -> & Hr).
        { rewrite length_app. simpl. lia. }
        exists r. split; [done|]. rewrite length_app in Hr. simpl in Hr. lia. }
      destruct run as [scx|]; cbn [default].
      * apply Hc; [lia|done].
      * rewrite step_enter by done. apply Hc; [lia|simpl; lia].
    + assert (cmd b =? 0 = false) as Hb0 by (destruct Hb as [->|[->|[->|[->|[-> | ->]]]]]; done).
      assert (forall n out gap, (2 * length l + 3 <= n)%nat ->
        exists r, compress_loop (S n) (out ++ gap ++ b :: l ++ t :: rest) (length out) (length out + length gap) None =
          COk (out ++ b :: compress_list l None ++ t :: r) /\
          (length (compress_list l None) + length r = length gap + length l + length rest)%nat) as Hc.
      { intros n out' gap' Hn. destruct (step_copy n out' gap' (l ++ t :: rest) b Hp) as (g & Hlg & ->).
        rewrite Hb0. destruct (IH n (out' ++ [b]) g None Hn ltac:(simpl; lia)) as (r & -> & Hr).
        exists r. rewrite <- app_assoc. split; [done|]. lia. }
      destruct run as [scx|].
      * destruct (step_emit (S fuel) out gap (l ++ t :: rest) b scx Hp Hg) as (g & Hlg & ->).
        destruct (Hc fuel (out ++ emitted scx) g ltac:(lia)) as (r & -> & Hr). exists r.
        rewrite <- !app_assoc. split; [done|]. rewrite length_app. simpl. lia.
      * destruct (Hc (S fuel) out gap ltac:(lia)) as (r & -> & Hr). exists r. split; [done|]. simpl. lia.
Qed.

(** ** A compacted run has the effect of its commands *)

Definition run_scx (omode : Z) (scx : Z * Z * Z) (m : Z) : Z := exec omode (emitted scx) m.

(** The bits that are set are not among the others. *)
Definition scx_ok (scx : Z * Z * Z) : Prop :=
  let '(s, c, x) := scx in s .& c = 0 /\ s .& x = 0.

Lemma run_scx_eq omode s c x m : run_scx omode (s, c, x) m =
  let m := (m .&~ c) .| s in
  if tst omode (S_IFDIR .| S_IXUSR .| S_IXGRP .| S_IXOTH) then m .| x else m.
Proof.
  unfold run_scx, emitted. cbv zeta.
  assert (m .&~ 0 = m) as E0 by (rewrite Z.lnot_0; apply Z.land_m1_r).
  destruct (Z.eqb_spec c 0) as [->|], (Z.eqb_spec s 0) as [->|], (Z.eqb_spec x 0) as [->|];
    cbn [app exec foldl]; unfold exec1, run_cmd; cbn [cmd bits]; eval_tests; cbn [default];
    rewrite ?E0, ?Z.lor_0_r; by destruct (tst omode _).
Qed.

(** [leafbits] with hypotheses that two words are disjoint. *)
Ltac leafbits_disjoint :=
  apply Z.bits_inj'; let n := fresh "n" in let Hn := fresh "Hn" in intros n Hn;
  repeat match goal with
  | H : ?a .& ?b = 0 |- _ =>
      apply (f_equal (fun z => Z.testbit z n)) in H; cbv beta in H; rewrite Z.land_spec, Z.bits_0 in H; revert H
  end;
  repeat first [ rewrite Z.land_spec | rewrite Z.lor_spec | rewrite Z.lnot_spec by assumption | rewrite Z.bits_0 ];
  repeat match goal with |- context [Z.testbit ?x n] => destruct (Z.testbit x n) end;
  cbn; congruence.

Lemma collect_run omode b scx m : is_pmx (cmd b) = true -> scx_ok scx ->
  scx_ok (collect b scx) /\ run_scx omode (collect b scx) m = exec1 omode (run_scx omode scx m) b.
Proof.
  destruct scx as [[s c] x]. intros Hp [Hsc Hsx]. unfold is_pmx in Hp. rewrite !orb_true_iff, !Z.eqb_eq in Hp.
  destruct b as [o o2 v]. cbn [cmd] in Hp. unfold collect, exec1, run_cmd. cbn [cmd bits].
  destruct Hp as [[->| ->]| ->]; eval_tests; unfold default, id; rewrite !run_scx_eq; cbv zeta;
    destruct (tst omode _); (split; [split|]); unfold id; leafbits_disjoint.
Qed.

Lemma exec_compress omode l : forall scx m, Forall is_cmd l -> scx_ok scx ->
  exec omode (compress_list l (Some scx)) m = exec omode l (run_scx omode scx m) /\
  exec omode (compress_list l None) m = exec omode l m.
Proof.
  induction l as [|b l IH]; intros scx m Hl Hs; [done|]. apply Forall_cons in Hl as [Hb Hl].
  assert (scx_ok (0, 0, 0)) as H0 by done.
  cbn [compress_list from_option]. unfold id. destruct (is_pmx (cmd b)) eqn:Hp.
  - destruct (collect_run omode b scx m Hp Hs) as [Hs' E].
    destruct (collect_run omode b (0, 0, 0) m Hp H0) as [Hs0 E0].
    rewrite (proj1 (IH _ m Hl Hs')), (proj1 (IH _ m Hl Hs0)), E, E0. split; [done|].
    cbn [exec foldl]. unfold run_scx. cbn [emitted Z.eqb app]. done.
  - cbn [app exec foldl]. split; [|apply (IH (0, 0, 0)); done].
    rewrite exec_app. cbn [exec foldl]. fold (run_scx omode scx m). by apply (IH (0, 0, 0)).
Qed.

(** ** The array under construction *)

Record array_inv (mask : Z) (s : cells) (calls : list call) : Prop := {
  ai_array : exists l junk, saveset s = l ++ junk /\ set_ix s = length l /\ Forall is_cmd l /\
    (1 <= length junk)%nat /\ forall omode m, exec omode l m = run_calls mask omode calls m;
  ai_len : setlen s = length (saveset s);
  ai_start : (2 <= setlen s)%nat;
}.

Lemma run_calls_snoc mask omode cs c m :
  run_calls mask omode (cs ++ [c]) m = run_call mask omode (run_calls mask omode cs m) c.
Proof. unfold run_calls. by rewrite foldl_app. Qed.

Lemma ADDCMD_sim realloc mask op who oparg s calls : call_ok (op, who, oparg) -> array_inv mask s calls ->
  res_rel (exists n, realloc n = None) (array_inv mask) (ADDCMD realloc mask op who oparg s)
    (trace_call op who oparg calls).
Proof.
  intros Hc [(l & junk & Hs & Hi & Hl & Hj & He) Hlen H2]. unfold ADDCMD.
  assert (forall s', saveset s' = l ++ skipn (length l) (saveset s') -> set_ix s' = length l ->
    setlen s' = length (saveset s') -> (length l + 2 < setlen s')%nat ->
    res_rel (exists n, realloc n = None) (array_inv mask)
      match addcmd (saveset s') (set_ix s') op who oparg mask with
      | Some (a, set) => Ok (Cells a set (setlen s'))
      | None => Fault
      end (trace_call op who oparg calls)) as Hadd.
  { intros s' Hs' Hi' Hlen' Hroom. set (junk' := skipn (length l) (saveset s')) in *.
    assert (length junk' = (length (saveset s') - length l)%nat) as Hj' by apply length_drop.
    destruct junk' as [|x [|y r]] eqn:Ej; simpl in Hj'; [lia..|].
    destruct (addcmd_spec l x y r op who oparg mask Hc) as (l' & r' & E & Hl' & Hl2 & Hf & Hx).
    rewrite Hs', Hi', E. apply res_rel_ok. rewrite length_app in Hl'.
    split; cbn [saveset set_ix setlen].
    - exists (l ++ l'), r'. split_and!; [done|done|by apply Forall_app|lia|].
      intros omode m. by rewrite exec_app, He, Hx, run_calls_snoc.
    - rewrite Hlen', Hs', !length_app. simpl. lia.
    - lia. }
  destruct (Nat.leb_spec (setlen s - 2) (set_ix s)) as [Hle|Hgt].
  - destruct (realloc (setlen s + SET_LEN_INCR)%nat) as [new|] eqn:Er; [|left; eauto].
    cbn [mbind res_bind]. apply Hadd; cbn [saveset set_ix setlen].
    + by rewrite Hs, <- app_assoc, drop_app_length.
    + done.
    + rewrite length_app, length_map, length_seq. lia.
    + rewrite Hlen, Hs, length_app. unfold SET_LEN_INCR. lia.
  - cbn [mbind res_bind]. apply Hadd; [by rewrite Hs, drop_app_length|done|done|lia].
Qed.

(** The terminator is stored over a free cell, behind the commands. *)
Lemma terminate mask s calls : array_inv mask s calls ->
  exists l t r, update (saveset s) (set_ix s) (set_cmd 0) = Some (l ++ t :: r) /\ cmd t = 0 /\ Forall is_cmd l /\
    forall omode m, exec omode l m = run_calls mask omode calls m.
Proof.
  intros [(l & junk & -> & -> & Hl & Hj & He) _ _]. destruct junk as [|x junk]; [simpl in Hj; lia|].
  exists l, (set_cmd 0 x), junk. rewrite update_at by done. done.
Qed.

Lemma compress_mode_list l t r : cmd t = 0 -> Forall is_cmd l ->
  exists r', compress_mode (l ++ t :: r) = COk (compress_list l None ++ t :: r') /\
    length (compress_list l None ++ t :: r') = length (l ++ t :: r).
Proof.
  intros Ht Hl.
  destruct (compress_loop_list t Ht r l Hl (2 * length (l ++ t :: r) + 3) [] [] None) as (r' & E & Hr).
  { rewrite length_app. lia. }
  { simpl. lia. }
  exists r'. split; [exact E|]. rewrite !length_app. simpl in *. lia.
Qed.

Lemma compress_list_cmds l : Forall is_cmd l -> forall run, Forall is_cmd (compress_list l run).
Proof.
  assert (forall scx, Forall is_cmd (emitted scx)) as He.
  { intros [[s c] x]. unfold emitted, is_cmd.
    destruct (c =? 0), (s =? 0), (x =? 0); repeat (apply Forall_cons; split; [cbn; auto 8|]); by apply Forall_nil. }
  induction 1 as [|b l Hb Hl IH]; intros [scx|]; cbn [compress_list]; try done.
  - destruct (is_pmx (cmd b)); [done|]. apply Forall_app. split; [done|]. by apply Forall_cons.
  - destruct (is_pmx (cmd b)); [done|]. by apply Forall_cons.
Qed.

(** * What setmode and getmode mean *)

(** The meaning of a mode string, or the error. *)
Definition mode_meaning (mask : Z) (p : list Z) : res (Z -> Z) :=
  match p with
  | [] => Err EINVAL
  | c :: _ =>
    if isdigit c then perm ← absolute p; Ok (fun omode => (omode .&~ mode_bits) .| perm)
    else calls ← mode_calls p; Ok (fun omode => run_calls mask omode calls omode)
  end.

Lemma absolute_mode12 p v : absolute p = Ok v -> mode12 v.
Proof.
  unfold absolute. destruct (strtol8 p 0) as [perml [|]]; [|done].
  destruct (LONG_MAX <? perml); [done|]. unfold tst, mode12, mode_bits.
  destruct (Z.eqb_spec (perml .&~ (STANDARD_BITS .| S_ISTXT)) 0); cbn; [|done]. by intros [= <-].
Qed.

Lemma mode12_land v : mode12 v -> mode_bits .& v = v.
Proof. unfold mode12. intros H. leafbits_disjoint. Qed.

Lemma empty_array junk mask : array_inv mask (Cells (map junk (seq 0 (SET_LEN + 2))) 0 (SET_LEN + 2)) [].
Proof.
  split; cbn [saveset set_ix setlen]; [|by rewrite length_map, length_seq|unfold SET_LEN; lia].
  exists [], (map junk (seq 0 (SET_LEN + 2))). split_and!; [done|done|by apply Forall_nil| |done].
  rewrite length_map, length_seq. unfold SET_LEN. lia.
Qed.

Lemma setmode_meaning malloc realloc um p :
  match setmode malloc realloc um p with
  | Fault => False
  | Err e => (e = ENOMEM /\ (malloc = None \/ exists n, realloc n = None)) \/
             mode_meaning (u32 (Z.lnot um)) p = Err e
  | Ok a => exists f, mode_meaning (u32 (Z.lnot um)) p = Ok f /\ forall omode, getmode a omode = Some (f omode)
  end.
Proof.
  unfold setmode, mode_meaning. destruct p as [|c p']; [by right|]. set (p := c :: p').
  set (mask := u32 (Z.lnot um)). destruct malloc as [junk|]; [|left; auto].
  pose proof (empty_array junk mask) as Hinv. set (s0 := Cells _ _ _) in *. destruct (isdigit c).
  - destruct (absolute p) as [v|e|] eqn:Ea; cbn [mbind res_bind]; [|by right|].
    2:{ revert Ea. unfold absolute. by repeat case_match. }
    pose proof (absolute_mode12 p v Ea) as Hv.
    assert (call_ok (chr "=", STANDARD_BITS .| S_ISTXT, v)) as Hok by (unfold call_ok; tauto).
    pose proof (ADDCMD_sim realloc mask _ _ _ s0 [] Hok Hinv) as Hsim. revert Hsim.
    destruct (ADDCMD realloc mask _ _ _ s0) as [s|e|]; cbn [res_rel mbind res_bind]; [| |done].
    2:{ intros [[-> ?]|?]; [by left; auto|done]. }
    intros (calls & [= <-] & Hs). destruct (terminate _ _ _ Hs) as (l & t & r & -> & Ht & Hl & He).
    cbn [checked]. eexists. split; [done|]. intros omode. unfold getmode.
    rewrite getmode_exec, He by done. cbn [run_calls foldl run_call app]. eval_tests.
    change (STANDARD_BITS .| S_ISTXT =? 0) with false. cbv iota. fold mode_bits. by rewrite mode12_land.
  - assert (res_rel (exists n, realloc n = None) (array_inv mask)
      (sym_loop (ADDCMD realloc mask) p (PWho 0) false s0) (mode_calls p)) as Hsim.
    { apply (sym_loop_sim _ _ _ (array_inv mask)); [|done|done]. intros. by apply ADDCMD_sim. }
    revert Hsim. destruct (sym_loop _ _ _ _ _) as [s|e|]; cbn [res_rel mbind res_bind]; [| |done].
    2:{ intros [[-> ?]|Hc]; [by left; auto|right]. by rewrite Hc. }
    intros (calls & -> & Hs). destruct (terminate _ _ _ Hs) as (l & t & r & -> & Ht & Hl & He).
    cbn [checked mbind res_bind]. destruct (compress_mode_list l t r Ht Hl) as (r' & -> & _).
    eexists. split; [done|]. intros omode. unfold getmode.
    rewrite getmode_exec by first [done|by apply compress_list_cmds].
    by rewrite (proj2 (exec_compress omode l (0, 0, 0) omode Hl ltac:(done))), He.
Qed.
