(* ===== verification/SetModeMeaning.v ===== *)
(** What a compiled mode does to the mode of a file: it keeps the file type, an
    octal mode replaces the permission bits, and every mode written out in letters
    sets exactly itself. *)

From S2P Require Import Prelude Ctype SetMode.

(** ** The file type *)

Lemma spread_mode12 mask who v : 0 <= v < 8 -> mode12 (spread mask who v).
Proof.
  intros Hv. unfold spread.
  assert (mode12 (v .<< 6) /\ mode12 (v .<< 3) /\ mode12 v) as (H1 & H2 & H3).
  { pose proof (forall_range 8 (fun v => ((v .<< 6) .&~ mode_bits =? 0) && ((v .<< 3) .&~ mode_bits =? 0) &&
      (v .&~ mode_bits =? 0)) ltac:(vm_compute; reflexivity) v Hv) as H. cbv beta in H. zbool. done. }
  assert (mode12 0) as H0 by done.
  destruct (who =? 0).
  - unfold mode12. rewrite <- Z.land_assoc, (Z.land_comm mask), Z.land_assoc.
    rewrite (mode12_lor _ v); [done|by apply mode12_lor|done].
  - by repeat case_match; repeat apply mode12_lor.
Qed.

Lemma run_call_type mask omode m c : call_ok c -> call_fits c ->
  run_call mask omode m c .&~ mode_bits = m .&~ mode_bits.
Proof.
  assert (forall x, mode12 x -> (m .| x) .&~ mode_bits = m .&~ mode_bits) as Hor.
  { intros x Hx. rewrite Z.land_lor_distr_l. unfold mode12 in Hx. by rewrite Hx, Z.lor_0_r. }
  assert (forall m x, mode12 x -> (m .&~ x) .&~ mode_bits = m .&~ mode_bits) as Hcl.
  { intros m' x Hx. unfold mode12 in Hx. leafbits_disjoint. }
  assert (forall x y, mode12 x -> mode12 y -> ((m .&~ x) .| y) .&~ mode_bits = m .&~ mode_bits) as Hclor.
  { intros x y Hx Hy. rewrite Z.land_lor_distr_l, Hcl by done. unfold mode12 in Hy. by rewrite Hy, Z.lor_0_r. }
  assert (forall x y, mode12 y -> mode12 (x .& y)) as Hland.
  { intros x y Hy. unfold mode12 in *. by rewrite <- Z.land_assoc, Hy, Z.land_0_r. }
  destruct c as [[op who] oparg]. intros Hok [Hw Hop].
  assert (mode12 (if who =? 0 then STANDARD_BITS else who)) as Hw' by (by destruct (who =? 0)).
  assert (forall v, 0 <= v < 8 -> (if oparg =? chr "+" then m .| spread mask who v
    else if oparg =? chr "-" then m .&~ spread mask who v
    else (m .&~ spread mask who S_IRWXO) .| spread mask who v) .&~ mode_bits = m .&~ mode_bits) as Hcopy.
  { intros v Hv. pose proof (spread_mode12 mask who v Hv).
    pose proof (spread_mode12 mask who S_IRWXO ltac:(unfold S_IRWXO; lia)).
    destruct (oparg =? chr "+"); [by apply Hor|]. destruct (oparg =? chr "-"); [by apply Hcl|by apply Hclor]. }
  destruct Hok as [->|[->|[->|[->|[Hc Ho]]]]]; unfold run_call; eval_tests.
  - destruct Hop as [|Hop]; [done|]. apply Hclor; [done|by apply Hland].
  - destruct Hop as [|Hop]; [done|]. apply Hor. by apply Hland.
  - destruct Hop as [|Hop]; [done|]. apply Hcl. by apply Hland.
  - destruct Hop as [|Hop]; [done|]. destruct (tst omode _); [|done]. apply Hor. by apply Hland.
  - destruct Hc as [->|[-> | ->]]; eval_tests; apply Hcopy; first [apply (class_bits m 6)|apply (class_bits m 3)|idtac]; try lia.
    pose proof (class_bits m 0 ltac:(lia)) as H. by rewrite Z.shiftr_0_r in H.
Qed.

Lemma mode_calls_fit p calls : mode_calls p = Ok calls -> Forall (fun c => call_ok c /\ call_fits c) calls.
Proof.
  intros E. pose proof (sym_loop_sim trace_call trace_call False
    (fun a b => a = b /\ Forall (fun c => call_ok c /\ call_fits c) a)) as Hsim.
  specialize (Hsim ltac:(intros op who oparg s1 s2 H1 H2 [<- H]; exists (s1 ++ [(op, who, oparg)]);
    split; [done|split; [done|]]; apply Forall_app; split; [done|by apply Forall_singleton])
    p (PWho 0) false [] [] ltac:(done) ltac:(split; [done|apply Forall_nil_2])).
  unfold mode_calls in E. rewrite E in Hsim. cbn in Hsim. naive_solver.
Qed.

Lemma meaning_type mask p f omode : mode_meaning mask p = Ok f -> f omode .&~ mode_bits = omode .&~ mode_bits.
Proof.
  unfold mode_meaning. destruct p as [|c p']; [done|]. set (p := c :: p'). destruct (isdigit c).
  - destruct (absolute p) as [v|e|] eqn:E; cbn; [|done..]. intros [= <-].
    pose proof (absolute_mode12 p v E) as Hv. rewrite Z.land_lor_distr_l. unfold mode12 in Hv.
    by rewrite Hv, Z.lor_0_r, <- Z.land_assoc, Z.land_diag.
  - destruct (mode_calls p) as [calls|e|] eqn:E; cbn; [|done..]. intros [= <-].
    pose proof (mode_calls_fit p calls E) as Hf. clear E. unfold run_calls. cbv beta. generalize omode at 2 3 as m. intros m.
    revert m. induction Hf as [|c0 calls' [H1 H2] _ IH]; intros m; cbn [foldl]; [done|].
    rewrite IH. by apply run_call_type.
Qed.

(** ** Absolute modes *)

Definition octal_digit (c : Z) : Prop := 48 <= c <= 55.
Definition octal_value (ds : list Z) (v : Z) : Z := foldl (fun v c => v * 8 + (c - 48)) v ds.

Lemma strtol8_digits ds v : Forall octal_digit ds -> strtol8 ds v = (octal_value ds v, []).
Proof.
  intros H. revert v. induction H as [|c ds Hc _ IH]; intros v; [done|]. cbn [strtol8].
  unfold octal_digit in Hc. rewrite (proj2 (Z.leb_le 48 c)), (proj2 (Z.leb_le c 55)) by lia. exact (IH _).
Qed.

Lemma octal_value_nonneg ds v : Forall octal_digit ds -> 0 <= v -> 0 <= octal_value ds v.
Proof.
  intros H. revert v. induction H as [|c ds Hc _ IH]; intros v Hv; [done|]. cbn.
  apply IH. unfold octal_digit in Hc. lia.
Qed.

Lemma mode12_le v : 0 <= v -> (mode12 v <-> v <= 4095).
Proof.
  intros Hv. unfold mode12. change mode_bits with (Z.ones 12).
  rewrite <- Z.ldiff_land, Z.ldiff_ones_r by lia. rewrite Z.shiftl_eq_0_iff, Z.shiftr_div_pow2 by lia.
  rewrite Z.div_small_iff by lia. lia.
Qed.

(** ** Rendered modes *)

(** The affine effect of a sequence of [=], [+] and [-] calls with a who. *)
Definition affine_call (cs : option (Z * Z)) (c : call) : option (Z * Z) :=
  let '(op, who, oparg) := c in
  '(clr, set) ← cs;
  if who =? 0 then None
  else if op =? chr "=" then Some (clr .| who, (set .&~ who) .| (who .& oparg))
  else if op =? chr "+" then Some (clr, set .| (who .& oparg))
  else if op =? chr "-" then Some (clr .| (who .& oparg), set .&~ (who .& oparg))
  else None.

Lemma affine_none calls : foldl affine_call None calls = None.
Proof. induction calls as [|[[op who] oparg] calls IH]; [done|exact IH]. Qed.

Lemma affine_run mask omode calls : forall clr set clr' set' m,
  foldl affine_call (Some (clr, set)) calls = Some (clr', set') ->
  run_calls mask omode calls ((m .&~ clr) .| set) = (m .&~ clr') .| set'.
Proof.
  induction calls as [|[[op who] oparg] calls IH]; intros clr set clr' set' m H; cbn [foldl] in H.
  { by injection H as <- <-. }
  unfold run_calls in *. cbn [foldl]. unfold affine_call at 2 in H. cbn [mbind option_bind] in H.
  unfold run_call at 2. destruct (who =? 0); [by rewrite affine_none in H|].
  destruct (op =? chr "="); [|destruct (op =? chr "+"); [|destruct (op =? chr "-"); [|by rewrite affine_none in H]]];
    rewrite <- (IH _ _ _ _ m H); f_equal; leafbits.
Qed.

(** The mode written out: [u=rwxs,g=rx,o=x,a-t] and the like. *)
Definition letters (m r w x s : Z) : list Z :=
  (if tst m r then codes "r" else []) ++ (if tst m w then codes "w" else []) ++
  (if tst m x then codes "x" else []) ++ (if tst m s then codes "s" else []).
Definition render (m : Z) : list Z :=
  codes "u=" ++ letters m S_IRUSR S_IWUSR S_IXUSR S_ISUID ++
  codes ",g=" ++ letters m S_IRGRP S_IWGRP S_IXGRP S_ISGID ++
  codes ",o=" ++ letters m S_IROTH S_IWOTH S_IXOTH 0 ++
  (if tst m S_ISTXT then codes ",a+t" else codes ",a-t").

Definition render_ok (m : Z) : bool :=
  match mode_calls (render m) with
  | Ok calls => match foldl affine_call (Some (0, 0)) calls with
                | Some (clr, set) => (clr .| set =? mode_bits) && (set =? m)
                | None => false
                end
  | _ => false
  end.

Lemma render_all : forallb render_ok (range 4096) = true.
Proof. vm_cast_no_check (eq_refl true). Qed.

Lemma render_meaning mask m : 0 <= m < 4096 ->
  exists f, mode_meaning mask (render m) = Ok f /\ forall omode, f omode = (omode .&~ mode_bits) .| m.
Proof.
  intros Hm. pose proof (forall_range 4096 _ render_all m Hm) as H. unfold render_ok in H.
  unfold mode_meaning. change (render m) with (chr "u" :: tail (render m)) at 1. cbn [isdigit].
  change (isdigit (chr "u")) with false. cbv iota.
  destruct (mode_calls (render m)) as [calls|e|]; [|done..].
  destruct (foldl affine_call (Some (0, 0)) calls) as [[clr set]|] eqn:E; [|done]. zbool. subst m.
  eexists. split; [reflexivity|]. intros omode. cbv beta.
  replace omode with ((omode .&~ 0) .| 0) at 2 by (rewrite Z.lor_0_r, Z.lnot_0; apply Z.land_m1_r).
  rewrite (affine_run mask omode calls _ _ _ _ omode E).
  replace mode_bits with (clr .| set) by done. leafbits.
Qed.

(** * Properties *)

(** C28. [compress_mode] works in place on any terminated array of commands: it
    terminates without leaving the array, and the compacted array takes every
    mode to the same mode. *)
Theorem compress_mode_preserves l t r : cmd t = 0 -> Forall is_cmd l ->
  exists a, compress_mode (l ++ t :: r) = COk a /\ length a = length (l ++ t :: r) /\
    forall omode, getmode a omode = getmode (l ++ t :: r) omode.
Proof.
  intros Ht Hl. destruct (compress_mode_list l t r Ht Hl) as (r' & -> & Hlen).
  eexists. split; [reflexivity|]. split; [done|]. intros omode. unfold getmode.
  rewrite !getmode_exec by first [done|by apply compress_list_cmds].
  by rewrite (proj2 (exec_compress omode l (0, 0, 0) omode Hl ltac:(done))).
Qed.

Lemma compress_mode_preserves_witness :
  exists a, compress_mode [BitCmd (chr "-") 9 6; BitCmd (chr "X") 9 1; BitCmd (chr "+") 9 2; BitCmd 0 9 9] = COk a /\
    length a = 4%nat /\
    forall omode, getmode a omode =
      getmode [BitCmd (chr "-") 9 6; BitCmd (chr "X") 9 1; BitCmd (chr "+") 9 2; BitCmd 0 9 9] omode.
Proof.
  apply (compress_mode_preserves [BitCmd (chr "-") 9 6; BitCmd (chr "X") 9 1; BitCmd (chr "+") 9 2] (BitCmd 0 9 9) []);
    [reflexivity|].
  repeat (apply Forall_cons; split; [unfold is_cmd; cbn; auto 8|]). apply Forall_nil_2.
Defined.

(** C29. No mode string changes the type of a file: a compiled mode only touches
    the twelve permission bits. *)
Theorem setmode_keeps_type malloc realloc um p a omode m :
  setmode malloc realloc um p = Ok a -> getmode a omode = Some m ->
  m .&~ mode_bits = omode .&~ mode_bits.
Proof.
  intros Ha Hm. pose proof (setmode_meaning malloc realloc um p) as H. rewrite Ha in H.
  destruct H as (f & Hf & Hg). rewrite Hg in Hm. injection Hm as <-. by apply (meaning_type _ _ _ _ Hf).
Qed.

Lemma setmode_keeps_type_witness : 0x81ed .&~ mode_bits = 0x81a4 .&~ mode_bits.
Proof.
  apply (setmode_keeps_type (Some (fun _ => BitCmd 1 2 3)) (fun _ => None) 18 (codes "a+x")
    [BitCmd (chr "+") 0 73; BitCmd 0 2 3; BitCmd 1 2 3; BitCmd 1 2 3; BitCmd 1 2 3; BitCmd 1 2 3; BitCmd 1 2 3; BitCmd 1 2 3]);
    vm_compute; reflexivity.
Defined.

(** A string of octal digits replaces the permission bits by its value; a value
    with other bits is refused, as EINVAL or, above LONG_MAX, as ERANGE. *)
Theorem setmode_octal junk realloc um ds :
  (forall n, is_Some (realloc n)) -> ds <> [] -> Forall octal_digit ds ->
  let v := octal_value ds 0 in
  if v <=? 0xfff
  then exists a, setmode (Some junk) realloc um ds = Ok a /\
         forall omode, getmode a omode = Some ((omode .&~ mode_bits) .| v)
  else setmode (Some junk) realloc um ds = Err (if LONG_MAX <? v then ERANGE else EINVAL).
Proof.
  intros Hre Hne Hds v. pose proof (octal_value_nonneg ds 0 Hds ltac:(lia)) as Hv. fold v in Hv.
  assert (absolute ds = if v <=? 0xfff then Ok v else Err (if LONG_MAX <? v then ERANGE else EINVAL)) as Ha.
  { unfold absolute. rewrite strtol8_digits by done. fold v. pose proof (mode12_le v Hv) as H12.
    unfold mode12, mode_bits in H12. unfold tst. unfold LONG_MAX in *.
    destruct (Z.leb_spec v 0xfff).
    - rewrite (proj2 (Z.ltb_ge _ _)) by lia. by rewrite (proj2 H12).
    - destruct (Z.ltb_spec (2 ^ 63 - 1) v); [done|].
      destruct (Z.eqb_spec (v .&~ (STANDARD_BITS .| S_ISTXT)) 0); [|done]. tauto || lia. }
  pose proof (setmode_meaning (Some junk) realloc um ds) as H. unfold mode_meaning in H.
  destruct ds as [|c ds']; [done|]. assert (isdigit c = true) as Hc.
  { apply Forall_cons in Hds as [Hc _]. unfold octal_digit in Hc. unfold isdigit.
    rewrite (proj2 (Z.leb_le 48 c)), (proj2 (Z.leb_le c 57)) by lia. done. }
  rewrite Hc, Ha in H. set (ds := c :: ds') in *.
  assert (~ exists n, realloc n = None) as Hno by (intros (n & E); destruct (Hre n); congruence).
  destruct (v <=? 0xfff); cbn [mbind res_bind] in H;
    destruct (setmode (Some junk) realloc um ds) as [a|e|]; naive_solver.
Qed.

Lemma setmode_octal_witness :
  (exists a, setmode (Some (fun _ => BitCmd 1 2 3)) (fun _ => Some (fun _ => BitCmd 1 2 3)) 18 (codes "4755") = Ok a /\
     forall omode, getmode a omode = Some ((omode .&~ mode_bits) .| 2541)) /\
  setmode (Some (fun _ => BitCmd 1 2 3)) (fun _ => Some (fun _ => BitCmd 1 2 3)) 18 (codes "10000") = Err EINVAL.
Proof.
  split.
  - apply (setmode_octal (fun _ => BitCmd 1 2 3) (fun _ => Some (fun _ => BitCmd 1 2 3)) 18 (codes "4755"));
      [intros; eauto|done|unfold octal_digit; apply (bool_decide_unpack _); vm_compute; exact I].
  - apply (setmode_octal (fun _ => BitCmd 1 2 3) (fun _ => Some (fun _ => BitCmd 1 2 3)) 18 (codes "10000"));
      [intros; eauto|done|unfold octal_digit; apply (bool_decide_unpack _); vm_compute; exact I].
Defined.

(** Every permission written out in letters for each class, with the set-id
    and sticky bits, compiles to commands that set exactly these twelve bits,
    whatever they were and whatever the umask. *)
Theorem setmode_render junk realloc um v :
  (forall n, is_Some (realloc n)) -> 0 <= v < 4096 ->
  exists a, setmode (Some junk) realloc um (render v) = Ok a /\
    forall omode, getmode a omode = Some ((omode .&~ mode_bits) .| v).
Proof.
  intros Hre Hv. pose proof (setmode_meaning (Some junk) realloc um (render v)) as H.
  destruct (render_meaning (u32 (Z.lnot um)) v Hv) as (f & Hf & Hfo). rewrite Hf in H.
  assert (~ exists n, realloc n = None) as Hno by (intros (n & E); destruct (Hre n); congruence).
  destruct (setmode (Some junk) realloc um (render v)) as [a|e|]; [|naive_solver..].
  exists a. split; [done|]. intros omode. destruct H as (f' & [= <-] & Hg). by rewrite Hg, Hfo.
Qed.

Lemma setmode_render_witness :
  exists a, setmode (Some (fun _ => BitCmd 1 2 3)) (fun _ => Some (fun _ => BitCmd 1 2 3)) 63 (codes "u=rwxs,g=rx,o=,a+t") = Ok a /\
    forall omode, getmode a omode = Some ((omode .&~ mode_bits) .| 0xbe8).
Proof.
  apply (setmode_render (fun _ => BitCmd 1 2 3) (fun _ => Some (fun _ => BitCmd 1 2 3)) 63 0xbe8); [intros; eauto|lia].
Defined.

(** Three corners of the grammar: [X] behind an operator other than plus still
    sets execute bits; [t] without a who makes the other letters of its clause
    disappear; a class is copied from the mode changed so far, not from the mode
    the file had. *)
Theorem setmode_corners mask :
  let meaning p omode := match mode_meaning mask (codes p) with Ok f => Some (f omode) | _ => None end in
  meaning "a-X" S_IXUSR = Some (S_IXUSR .| S_IXGRP .| S_IXOTH) /\
  meaning "a=X" S_IXUSR = Some (S_IXUSR .| S_IXGRP .| S_IXOTH) /\
  meaning "+xt" 0 = Some S_ISTXT /\
  meaning "u=,g=u" S_IRWXU = Some 0.
Proof. repeat split; vm_compute; reflexivity. Qed.
