(* ===== verification/SetModeSpec.v ===== *)
(** What a mode string means, by the grammar and the wording of the manual of chmod, bit by
    bit and without the tables of the code, and that [setmode] and [getmode] do it; and
    where the two part. *)

From stdpp Require Import numbers list.
From S2P Require Import Prelude Ctype SetMode SetModeMeaning.

(** * The grammar of mode strings *)

Definition who_letter (c : Z) : Prop := c ∈ codes "augo".
Definition op_letter (c : Z) : Prop := c ∈ codes "+-=".
Definition perm_letter (c : Z) : Prop := c ∈ codes "rstwxXugo".

Inductive g_mode : list Z -> Prop :=
| mode_clause ws p : Forall who_letter ws -> g_actions p -> g_mode (ws ++ p)
with g_actions : list Z -> Prop :=
| actions_cons op ps p : op_letter op -> Forall perm_letter ps -> g_more p -> g_actions (op :: ps ++ p)
with g_more : list Z -> Prop :=
| more_end : g_more []
| more_actions p : g_actions p -> g_more p
| more_clauses p : g_mode p -> g_more (chr "," :: p).

Definition ok {A} (r : res A) : Prop := match r with Ok _ => True | _ => False end.
Definition perms_rest (p : list Z) : Prop := exists ps rest, p = ps ++ rest /\ Forall perm_letter ps /\ g_more rest.

Lemma who_bits_letter c : is_Some (who_bits c) <-> who_letter c.
Proof.
  unfold who_bits, who_letter. change (codes "augo") with [chr "a"; chr "u"; chr "g"; chr "o"].
  destruct (Z.eqb_spec c (chr "a")) as [->|]; [split; [set_solver|eauto]|]. destruct (Z.eqb_spec c (chr "u")) as [->|]; [split; [set_solver|eauto]|].
  destruct (Z.eqb_spec c (chr "g")) as [->|]; [split; [set_solver|eauto]|]. destruct (Z.eqb_spec c (chr "o")) as [->|]; [split; [set_solver|eauto]|].
  split; [by intros []|set_solver].
Qed.
Lemma is_op_letter c : is_op c = true <-> op_letter c.
Proof.
  unfold is_op, op_letter. change (codes "+-=") with [chr "+"; chr "-"; chr "="]. rewrite !orb_true_iff, !Z.eqb_eq, !elem_of_cons. set_solver.
Qed.
Lemma perm_char_letter c who perm X : is_Some (perm_char c who perm X) \/ (c =? chr "u") || (c =? chr "g") || (c =? chr "o") = true <-> perm_letter c.
Proof.
  unfold perm_char, perm_letter. change (codes "rstwxXugo") with [chr "r"; chr "s"; chr "t"; chr "w"; chr "x"; chr "X"; chr "u"; chr "g"; chr "o"].
  rewrite !elem_of_cons, !orb_true_iff, !Z.eqb_eq.
  repeat match goal with |- context [c =? ?x] => destruct (Z.eqb_spec c x) as [->|]; [split; [set_solver|intros _; left; repeat case_match; eauto]|] end.
  split; [intros [[? ?]|]; [done|set_solver]|set_solver].
Qed.
Lemma op_not_perm c : op_letter c -> ~ perm_letter c.
Proof.
  unfold op_letter, perm_letter. intros Hc. assert (Forall (fun c => c ∉ codes "rstwxXugo") (codes "+-=")) as Hall by (apply (bool_decide_unpack _); by vm_compute).
  rewrite Forall_forall in Hall. by apply Hall.
Qed.
Lemma op_not_who c : op_letter c -> ~ who_letter c.
Proof.
  unfold op_letter, who_letter. intros Hc. assert (Forall (fun c => c ∉ codes "augo") (codes "+-=")) as Hall by (apply (bool_decide_unpack _); by vm_compute).
  rewrite Forall_forall in Hall. by apply Hall.
Qed.

(** The state after the default case and a copy is irrelevant: the calls succeed. *)
Lemma clause_end_trace op who perm X e t : exists e' t', clause_end trace_call op who perm X e t = Ok (e', t').
Proof. unfold clause_end, trace_call. destruct (_ || _), (negb (X =? 0)); cbn; eauto. Qed.
Lemma copy_step_trace c op who perm X e t : exists p' X' e' t', copy_step trace_call c op who perm X e t = Ok (p', X', e', t').
Proof. unfold copy_step, trace_call. destruct (negb (perm =? 0)), ((op =? chr "+") && negb (X =? 0)); cbn; eauto 10. Qed.

Lemma g_mode_cons_who c p : who_letter c -> g_mode (c :: p) <-> g_mode p.
Proof.
  intros Hc. split.
  - inversion 1 as [ws q Hws Hq E]; subst. destruct ws as [|w ws]; cbn in *.
    + subst. inversion Hq; subst. by destruct (op_not_who c).
    + injection E as -> <-. apply Forall_cons in Hws as [_ Hws]. by constructor.
  - inversion 1 as [ws q Hws Hq E]; subst. apply (mode_clause (c :: ws)); [by constructor|done].
Qed.
Lemma g_mode_actions c p : ~ who_letter c -> g_mode (c :: p) <-> g_actions (c :: p).
Proof.
  intros Hc. split; [|intros; by apply (mode_clause [])]. inversion 1 as [ws q Hws Hq E]; subst. destruct ws as [|w ws]; [done|].
  injection E as -> <-. by apply Forall_cons in Hws as [? _].
Qed.
Lemma g_actions_cons c p : g_actions (c :: p) <-> op_letter c /\ perms_rest p.
Proof.
  split; [inversion 1; subst; split; [done|by eexists _, _]|]. intros [Hc (ps & rest & -> & Hps & Hr)]. by constructor.
Qed.
Lemma perms_rest_cons c p : perms_rest (c :: p) <-> (perm_letter c /\ perms_rest p) \/ (~ perm_letter c /\ g_more (c :: p)).
Proof.
  split.
  - intros (ps & rest & E & Hps & Hr). destruct ps as [|c' ps]; cbn in E.
    + subst. right. split; [|done]. inversion Hr as [|q Hq|]; subst; [|by apply (bool_decide_unpack (_ ∉ _)); vm_compute].
      apply g_actions_cons in Hq as [Hc _]. by apply op_not_perm.
    + injection E as <- ->. apply Forall_cons in Hps as [Hc Hps]. left. split; [done|]. by exists ps, rest.
  - intros [[Hc (ps & rest & -> & Hps & Hr)]|[Hc Hr]]; [exists (c :: ps), rest; split; [done|split; [by constructor|done]]|exists [], (c :: p); split; [done|split; [constructor|done]]].
Qed.
Lemma g_more_cons c p : g_more (c :: p) <-> if c =? chr "," then g_mode p else op_letter c /\ perms_rest p.
Proof.
  destruct (Z.eqb_spec c (chr ",")) as [->|Hc].
  - split; [|intros; by constructor]. inversion 1 as [|q Hq|]; subst; [|done]. apply g_actions_cons in Hq as [Hop _].
    by apply (bool_decide_unpack (_ ∉ _)) in Hop; vm_compute.
  - rewrite <- g_actions_cons. split; [|intros; by constructor]. inversion 1; subst; done.
Qed.

(** The parser accepts the grammar. *)
Lemma sym_loop_accepts p : forall e t,
  (forall who, ok (sym_loop trace_call p (PWho who) e t) <-> g_mode p) /\
  (forall op who perm X, ok (sym_loop trace_call p (PPerm op who perm X) e t) <-> perms_rest p).
Proof.
  induction p as [|c p IH]; intros e t; (split; [intros who|intros op who perm X]); cbn [sym_loop].
  - split; [done|]. inversion 1 as [ws q Hws Hq E]; subst. apply app_eq_nil in E as [-> ->]. inversion Hq.
  - destruct (clause_end_trace op who perm X e t) as (e' & t' & ->). cbn. split; [|done]. intros _. exists [], []. split; [done|split; constructor].
  - destruct (who_bits c) as [b|] eqn:E.
    + rewrite (g_mode_cons_who c p) by (apply who_bits_letter; by rewrite E). apply IH.
    + assert (~ who_letter c) as Hw by (intros Hw; apply who_bits_letter in Hw as [? ?]; congruence). rewrite (g_mode_actions c p Hw), g_actions_cons, <- is_op_letter.
      destruct (is_op c); cbn [negb]; [|by split; [|intros [? _]]]. destruct (IH (if c =? chr "=" then false else e) t) as [_ ->]. tauto.
  - rewrite perms_rest_cons. pose proof (perm_char_letter c who perm X) as Hl. destruct (perm_char c who perm X) as [[[who' perm'] X']|] eqn:E.
    + assert (perm_letter c) as Hc by (apply Hl; eauto). destruct (IH e t) as [_ ->]. tauto.
    + destruct ((c =? chr "u") || (c =? chr "g") || (c =? chr "o")) eqn:Eu.
      * assert (perm_letter c) as Hc by (apply Hl; eauto). destruct (copy_step_trace c op who perm X e t) as (p' & X' & e' & t' & ->). cbn [mbind res_bind].
        destruct (IH e' t') as [_ ->]. tauto.
      * assert (~ perm_letter c) as Hc by (intros [[? ?]|]%Hl; done). destruct (clause_end_trace op who perm X e t) as (e' & t' & ->). cbn [mbind res_bind].
        rewrite g_more_cons. destruct (c =? chr ","); [destruct (IH e' t') as [-> _]; tauto|]. rewrite <- is_op_letter.
        destruct (is_op c); cbn [negb]; [destruct (IH (if c =? chr "=" then false else e') t') as [_ ->]; tauto|].
        split; [done|]. by intros [[? _]|[_ [? _]]].
Qed.

Lemma mode_calls_grammar p : ok (mode_calls p) <-> g_mode p.
Proof. unfold mode_calls. by destruct (sym_loop_accepts p false []) as [H _]. Qed.

(** * The meaning of a mode, bit by bit

    The bits of a mode are a function of their number.  [um] is the umask. *)

Inductive class := User | Group | Other.
Inductive who := All | Of (c : class).
Inductive op := Plus | Minus | Equals.
Inductive letter := Read | Write | Exec | CondExec | SetId | Sticky.
Inductive action := Perms (o : op) (ps : list letter) | FromClass (o : op) (c : class).
Definition clause : Type := list who * list action.

Definition among (l : list Z) (i : Z) : bool := existsb (Z.eqb i) l.
(** The first of the three permission bits of a class, and all bits that belong to it. *)
Definition class_base (c : class) : Z := match c with User => 6 | Group => 3 | Other => 0 end.
Definition class_bit (c : class) : Z -> bool :=
  match c with User => among [6; 7; 8; 11] | Group => among [3; 4; 5; 10] | Other => among [0; 1; 2] end.
Definition covers (w : who) (i : Z) : bool :=
  match w with Of c => class_bit c i | All => class_bit User i || class_bit Group i || class_bit Other i end.
Definition grants (l : letter) : Z -> bool :=
  match l with
  | Read => among [2; 5; 8] | Write => among [1; 4; 7] | Exec => among [0; 3; 6] | SetId => among [10; 11] | Sticky => among [9]
  | CondExec => among []
  end.
Definition is_sticky (l : letter) : bool := match l with Sticky => true | _ => false end.
Definition is_cond (l : letter) : bool := match l with CondExec => true | _ => false end.
Definition only_other (ws : list who) : bool := forallb (fun w => match w with Of Other => true | _ => false end) ws.

(** The bits that an operation may touch: those of the classes, and the sticky bit unless
    the class is the others; without a class all that the umask leaves. *)
Definition reach (um : Z) (ws : list who) (i : Z) : bool :=
  match ws with [] => negb (Z.testbit um i) | _ => if i =? 9 then negb (only_other ws) else existsb (fun w => covers w i) ws end.
(** The bits that [=] clears. *)
Definition cleared (ws : list who) (i : Z) : bool :=
  match ws with [] => covers All i | _ => existsb (fun w => covers w i) ws end.
(** A directory, or executable by someone. *)
Definition searchable (omode : Z -> bool) : bool := omode 14 || omode 0 || omode 3 || omode 6.

Definition apply_action (um : Z) (ws : list who) (omode : Z -> bool) (a : action) (b : Z -> bool) (i : Z) : bool :=
  match a with
  | Perms o ps =>
    let hit := existsb (fun l => grants l i) ps && reach um ws i in
    match o with
    | Plus => b i || hit || (existsb is_cond ps && searchable omode && grants Exec i && reach um ws i)
    | Minus => b i && negb hit
    | Equals => hit || (b i && negb (cleared ws i))
    end
  | FromClass o c =>
    let place := (i <? 9) && reach um ws i in
    let hit := place && b (class_base c + i mod 3) in
    match o with
    | Plus => b i || hit
    | Minus => b i && negb hit
    | Equals => hit || (b i && negb place)
    end
  end.
Definition apply_clause (um : Z) (omode : Z -> bool) (c : clause) (b : Z -> bool) : Z -> bool :=
  foldl (fun b a => apply_action um c.1 omode a b) b c.2.
Definition apply_mode (um : Z) (cs : list clause) (omode : Z -> bool) : Z -> bool := foldl (fun b c => apply_clause um omode c b) omode cs.

(** Where the manual and the code agree: [X] behind a plus, and [t] with a class or, for
    plus and minus, alone. *)
Definition action_ok (ws : list who) (a : action) : Prop :=
  match a with
  | Perms o ps => (existsb is_cond ps = true -> o = Plus) /\ (ws = [] -> existsb is_sticky ps = true -> o <> Equals /\ forallb is_sticky ps = true)
  | FromClass _ _ => True
  end.
Definition clause_ok (c : clause) : Prop := c.2 <> [] /\ Forall (action_ok c.1) c.2.

(** ** The text *)

Definition class_letter (c : class) : Z := match c with User => chr "u" | Group => chr "g" | Other => chr "o" end.
Definition who_code (w : who) : Z := match w with All => chr "a" | Of c => class_letter c end.
Definition op_code (o : op) : Z := match o with Plus => chr "+" | Minus => chr "-" | Equals => chr "=" end.
Definition letter_code (l : letter) : Z :=
  match l with Read => chr "r" | Write => chr "w" | Exec => chr "x" | CondExec => chr "X" | SetId => chr "s" | Sticky => chr "t" end.
Definition action_text (a : action) : list Z :=
  match a with Perms o ps => op_code o :: map letter_code ps | FromClass o c => [op_code o; class_letter c] end.
Definition clause_text (c : clause) : list Z := map who_code c.1 ++ flat_map action_text c.2.
Fixpoint mode_text (cs : list clause) : list Z :=
  match cs with [] => [] | [c] => clause_text c | c :: cs => clause_text c ++ chr "," :: mode_text cs end.

(** * The parser on these texts *)

(** ** Bits of constants *)

Lemma const_bits c l : forallb (fun i => Bool.eqb (Z.testbit c i) (among l i)) (range 12) = true -> 0 <= c < 4096 ->
  forallb (fun i => (0 <=? i) && (i <? 12)) l = true -> forall i, 0 <= i -> Z.testbit c i = among l i.
Proof.
  intros Hb Hc Hl i Hi. destruct (Z.lt_ge_cases i 12) as [Hi12|Hi12].
  - apply Bool.eqb_prop. apply (forall_range 12 (fun i => Bool.eqb (Z.testbit c i) (among l i)) Hb i). lia.
  - transitivity false.
    + destruct (Z.eq_dec c 0) as [->|]; [apply Z.testbit_0_l|]. apply Z.bits_above_log2; [lia|]. apply Z.log2_lt_pow2; [lia|].
      apply (Z.lt_le_trans _ (2 ^ 12)); [lia|]. apply Z.pow_le_mono_r; lia.
    + symmetry. apply not_true_iff_false. unfold among. rewrite existsb_exists. intros (x & Hx & ->%Z.eqb_eq).
      rewrite forallb_forall in Hl. specialize (Hl x Hx). lia.
Qed.
Ltac const := apply const_bits; [vm_compute; reflexivity|split; [vm_compute; discriminate|vm_compute; reflexivity]|vm_compute; reflexivity|assumption].

Definition who_mask (w : who) : Z := match w with All => STANDARD_BITS | Of User => S_ISUID .| S_IRWXU | Of Group => S_ISGID .| S_IRWXG | Of Other => S_IRWXO end.
Definition who_masks (ws : list who) : Z := foldl (fun m w => m .| who_mask w) 0 ws.
Lemma who_bits_code w : who_bits (who_code w) = Some (who_mask w).
Proof. by destruct w as [|[| |]]. Qed.
Lemma who_mask_bits w i : 0 <= i -> Z.testbit (who_mask w) i = covers w i.
Proof.
  intros Hi. destruct w as [|[| |]]; cbn [covers class_bit who_mask]; [|const..].
  transitivity (among [6; 7; 8; 11; 3; 4; 5; 10; 0; 1; 2] i); [const|]. unfold among. cbn. by rewrite !orb_false_r, <- !orb_assoc.
Qed.
Lemma foldl_masks ws : forall m i, 0 <= i -> Z.testbit (foldl (fun m w => m .| who_mask w) m ws) i = Z.testbit m i || existsb (fun w => covers w i) ws.
Proof.
  induction ws as [|w ws IH]; intros m i Hi; cbn; [by rewrite orb_false_r|]. by rewrite IH, Z.lor_spec, who_mask_bits, orb_assoc by done.
Qed.
Lemma who_masks_bits ws i : 0 <= i -> Z.testbit (who_masks ws) i = existsb (fun w => covers w i) ws.
Proof. intros Hi. unfold who_masks. by rewrite foldl_masks, Z.testbit_0_l. Qed.

Definition letter_mask (l : letter) : Z :=
  match l with
  | Read => S_IRUSR .| S_IRGRP .| S_IROTH | Write => S_IWUSR .| S_IWGRP .| S_IWOTH | Exec => S_IXUSR .| S_IXGRP .| S_IXOTH
  | SetId => S_ISUID .| S_ISGID | Sticky => S_ISTXT | CondExec => 0
  end.
Lemma letter_mask_bits l i : 0 <= i -> Z.testbit (letter_mask l) i = grants l i.
Proof. intros Hi. destruct l; cbn [letter_mask grants]; const. Qed.

(** Does the set-id and sticky bits apply: no class, or one besides the others. *)
Definition special (who : Z) : bool := (who =? 0) || tst who (Z.lnot S_IRWXO).

Lemma among_spec l i : among l i = true <-> In i l.
Proof. unfold among. rewrite existsb_exists. split; [by intros (x & Hx & ->%Z.eqb_eq)|]. intros Hi. exists i. by rewrite Z.eqb_refl. Qed.
Lemma covers_range w i : covers w i = true -> 0 <= i < 12 /\ i <> 9.
Proof.
  assert (forall c i, class_bit c i = true -> 0 <= i < 12 /\ i <> 9) as Hc.
  { intros c j. destruct c; cbn [class_bit]; rewrite among_spec; cbn; intros; lia. }
  destruct w as [|c]; cbn [covers]; [|apply Hc]. rewrite !orb_true_iff. intros [[?|?]|?]; by eapply Hc.
Qed.

Lemma who_masks_zero ws : who_masks ws = 0 <-> ws = [].
Proof.
  split; [|by intros ->]. intros E. destruct ws as [|w ws]; [done|]. exfalso.
  assert (exists i, 0 <= i /\ covers w i = true) as (i & Hi & Hc) by (destruct w as [|[| |]]; [exists 0|exists 6|exists 3|exists 0]; done).
  pose proof (who_masks_bits (w :: ws) i Hi) as Hb. rewrite E, Z.testbit_0_l in Hb. cbn in Hb. by rewrite Hc in Hb.
Qed.
Lemma testbit_ne x i : 0 <= i -> Z.testbit x i = true -> x <> 0.
Proof. intros Hi Hx ->. by rewrite Z.testbit_0_l in Hx. Qed.

Lemma forallb_false {A} (f : A -> bool) l : forallb f l = false -> exists x, In x l /\ f x = false.
Proof.
  induction l as [|x l IH]; [done|]. cbn. destruct (f x) eqn:E; [|eauto]. intros (y & Hy & Hf)%IH. eauto.
Qed.
Lemma special_masks ws : special (who_masks ws) = match ws with [] => true | _ => negb (only_other ws) end.
Proof.
  destruct ws as [|w ws]; [done|]. set (l := w :: ws). unfold special. rewrite (proj2 (Z.eqb_neq _ _)) by (intros E%who_masks_zero; done). cbn [orb].
  destruct (only_other l) eqn:Eo; cbn [negb].
  - unfold tst. assert (who_masks l .& Z.lnot S_IRWXO = 0) as ->; [|done]. apply Z.bits_inj'. intros i Hi.
    rewrite Z.land_spec, Z.lnot_spec, Z.bits_0, who_masks_bits by done. destruct (existsb _ l) eqn:Ee; [|done]. cbn.
    apply existsb_exists in Ee as (x & Hx & Hc). unfold only_other in Eo. rewrite forallb_forall in Eo. specialize (Eo x Hx).
    destruct x as [|[| |]]; try done. replace (Z.testbit S_IRWXO i) with (covers (Of Other) i); [by rewrite Hc|]. symmetry. cbn [covers class_bit]. const.
  - assert (exists x, In x l /\ exists i, 3 <= i /\ covers x i = true) as (x & Hx & i & Hi & Hc).
    { apply forallb_false in Eo as (x & Hx & Hc). exists x. split; [done|]. destruct x as [|[| |]]; [exists 3|exists 6|exists 3|]; done. }
    unfold tst. apply negb_true_iff, Z.eqb_neq. apply (testbit_ne _ i); [lia|]. rewrite Z.land_spec, Z.lnot_spec, who_masks_bits by lia.
    apply andb_true_iff. split; [apply existsb_exists; eauto|]. replace (Z.testbit S_IRWXO i) with (among [0; 1; 2] i) by (symmetry; assert (0 <= i) by lia; const).
    apply negb_true_iff, not_true_iff_false. rewrite among_spec. cbn. lia.
Qed.

(** ** The calls of a text *)

Definition steps (s : Z * Z * Z) (l : letter) : Z * Z * Z :=
  let '(who, perm, X) := s in
  match l with
  | SetId => (who, if special who then perm .| letter_mask SetId else perm, X)
  | Sticky => if special who then (who .| S_ISTXT, perm .| S_ISTXT, X) else (who, perm, X)
  | CondExec => (who, perm, letter_mask Exec)
  | _ => (who, perm .| letter_mask l, X)
  end.
Definition ends (op who perm X : Z) : list call :=
  (if negb (perm =? 0) || (op =? chr "=") then [(op, who, perm)] else []) ++ (if negb (X =? 0) then [(chr "X", who, X)] else []).
Definition calls_of (W : Z) (a : action) : list call :=
  match a with
  | Perms o ps => let '(who, perm, X) := foldl steps (W, 0, 0) ps in ends (op_code o) who perm X
  | FromClass o c => [(class_letter c, W, op_code o)]
  end.
Definition clause_calls (c : clause) : list call := flat_map (calls_of (who_masks c.1)) c.2.

Lemma perm_char_step l who perm X : perm_char (letter_code l) who perm X = Some (steps (who, perm, X) l).
Proof.
  destruct l; try reflexivity. unfold steps. change (special who) with ((who =? 0) || tst who (Z.lnot S_IRWXO)).
  unfold perm_char. change (letter_code Sticky) with (chr "t"). cbn [Z.eqb]. eval_tests. by destruct ((who =? 0) || _).
Qed.

Lemma special_sticky who : special (who .| S_ISTXT) = true.
Proof.
  unfold special, tst. apply orb_true_iff. right. apply negb_true_iff, Z.eqb_neq. apply (testbit_ne _ 9); [lia|].
  rewrite Z.land_spec, Z.lor_spec, Z.lnot_spec by lia. by rewrite orb_true_r.
Qed.
Lemma lor_idem_r x y : (x .| y) .| y = x .| y.
Proof. by rewrite <- Z.lor_assoc, Z.lor_diag. Qed.

Definition is_setid (l : letter) : bool := match l with SetId => true | _ => false end.
Lemma steps_spec ps : forall W P X, let '(W', P', X') := foldl steps (W, P, X) ps in
  W' = (if existsb is_sticky ps && special W then W .| S_ISTXT else W) /\
  (forall i, 0 <= i -> Z.testbit P' i = Z.testbit P i || existsb (fun l => grants l i && (special W || negb (is_sticky l || is_setid l))) ps) /\
  X' = (if existsb is_cond ps then letter_mask Exec else X).
Proof.
  induction ps as [|l ps IH]; intros W P X; cbn [foldl existsb]; [split_and!; [done|intros; by rewrite orb_false_r|done]|].
  assert (forall i, 0 <= i -> Z.testbit (letter_mask l) i = grants l i) as Hl by (intros; by apply letter_mask_bits).
  destruct l; cbn [steps is_sticky is_setid is_cond orb].
  1-3: match goal with |- context [foldl steps (?w, ?p, ?x) ?qs] => pose proof (IH w p x) as Hs; destruct (foldl steps (w, p, x) qs) as [[W' P'] X'] end;
    destruct Hs as (-> & HP & ->); split_and!; [done| |done];
    intros i Hi; rewrite HP, Z.lor_spec, Hl by done; cbn [negb]; by rewrite orb_true_r, andb_true_r, orb_assoc.
  - destruct (foldl steps (W, P, letter_mask Exec) ps) as [[W' P'] X'] eqn:E. pose proof (IH W P (letter_mask Exec)) as Hs. rewrite E in Hs.
    destruct Hs as (-> & HP & ->). split_and!; [done| |by destruct (existsb is_cond ps)]. intros i Hi. by rewrite HP.
  - destruct (special W) eqn:Es.
    + destruct (foldl steps (W, P .| letter_mask SetId, X) ps) as [[W' P'] X'] eqn:E. pose proof (IH W (P .| letter_mask SetId) X) as Hs. rewrite E, Es in Hs.
      destruct Hs as (-> & HP & ->). split_and!; [done| |done]. intros i Hi. rewrite HP, Z.lor_spec, Hl by done. cbn [orb]. by rewrite andb_true_r, orb_assoc.
    + destruct (foldl steps (W, P, X) ps) as [[W' P'] X'] eqn:E. pose proof (IH W P X) as Hs. rewrite E, Es in Hs.
      destruct Hs as (-> & HP & ->). split_and!; [done| |done]. intros i Hi. rewrite HP by done. cbn [orb negb]. by rewrite andb_false_r.
  - destruct (special W) eqn:Es.
    + destruct (foldl steps (W .| S_ISTXT, P .| S_ISTXT, X) ps) as [[W' P'] X'] eqn:E. pose proof (IH (W .| S_ISTXT) (P .| S_ISTXT) X) as Hs. rewrite E, special_sticky in Hs.
      destruct Hs as (-> & HP & ->). split_and!; [cbn [andb]; rewrite lor_idem_r; by destruct (existsb is_sticky ps)| |done].
      intros i Hi. rewrite HP, Z.lor_spec, (Hl i Hi : Z.testbit S_ISTXT i = _) by done. cbn [orb]. by rewrite andb_true_r, orb_assoc.
    + destruct (foldl steps (W, P, X) ps) as [[W' P'] X'] eqn:E. pose proof (IH W P X) as Hs. rewrite E, Es in Hs.
      destruct Hs as (-> & HP & ->). split_and!; [by destruct (existsb is_sticky ps)| |done]. intros i Hi. rewrite HP by done. cbn [orb negb]. by rewrite andb_false_r.
Qed.

Notation loop := (sym_loop trace_call).

Lemma who_loop ws rest : forall m e t, loop (map who_code ws ++ rest) (PWho m) e t = loop rest (PWho (foldl (fun m w => m .| who_mask w) m ws)) e t.
Proof. induction ws as [|w ws IH]; intros m e t; [done|]. cbn [map app sym_loop foldl]. by rewrite who_bits_code, IH. Qed.
Lemma perms_loop ps rest op : forall s e t, let '(who, perm, X) := s in
  loop (map letter_code ps ++ rest) (PPerm op who perm X) e t = let '(who, perm, X) := foldl steps s ps in loop rest (PPerm op who perm X) e t.
Proof.
  induction ps as [|l ps IH]; intros [[who perm] X] e t; [done|]. cbn [map app sym_loop foldl]. rewrite perm_char_step.
  destruct (steps (who, perm, X) l) as [[who' perm'] X'] eqn:E. apply (IH (who', perm', X')).
Qed.

(** The default case, in front of an operator, a comma or the end. *)
Definition boundary (who : Z) (t : list call) (rest : list Z) (r : res (list call)) : Prop :=
  match rest with
  | [] => r = Ok t
  | c :: p => if c =? chr "," then exists e, r = loop p (PWho 0) e t
              else exists e, r = loop p (PPerm c (who .&~ S_ISTXT) 0 0) (if c =? chr "=" then false else e) t
  end.
Definition bounded (rest : list Z) : Prop := match rest with [] => True | c :: _ => c = chr "," \/ op_letter c end.

Lemma clause_end_calls op who perm X e t : (op = chr "=" -> e = false) -> exists e', clause_end trace_call op who perm X e t = Ok (e', t ++ ends op who perm X).
Proof.
  intros He. unfold clause_end, trace_call, ends. destruct (Z.eqb_spec op (chr "=")) as [->|Hop].
  - rewrite He by done. cbn [andb negb]. rewrite !orb_true_r. cbn [mbind res_bind]. destruct (negb (X =? 0)); cbn; rewrite <- ?app_assoc; eauto.
  - rewrite andb_false_l, !orb_false_r. destruct (negb (perm =? 0)), (negb (X =? 0)); cbn; rewrite <- ?app_assoc, ?app_nil_r; eauto.
Qed.
Lemma clause_end_copied op who e t : (op = chr "=" -> e = true) -> exists e', clause_end trace_call op who 0 0 e t = Ok (e', t).
Proof.
  intros He. unfold clause_end, trace_call. destruct (Z.eqb_spec op (chr "=")) as [->|Hop]; [rewrite He by done|]; cbn; eauto.
Qed.

Lemma at_boundary op who perm X e t t' rest : bounded rest -> (exists e', clause_end trace_call op who perm X e t = Ok (e', t')) ->
  boundary who t' rest (loop rest (PPerm op who perm X) e t).
Proof.
  intros Hb (e' & E). destruct rest as [|c p]; cbn [boundary sym_loop]; [by rewrite E|].
  assert (perm_char c who perm X = None /\ (c =? chr "u") || (c =? chr "g") || (c =? chr "o") = false) as [-> ->].
  { assert (~ perm_letter c) as Hc.
    { destruct Hb as [->|Hc]; [apply (bool_decide_unpack (_ ∉ _)); by vm_compute|by apply op_not_perm]. }
    pose proof (perm_char_letter c who perm X) as Hl. destruct (perm_char c who perm X) eqn:Ep; [exfalso; apply Hc, Hl; eauto|].
    destruct (_ || _) eqn:Eu; [exfalso; apply Hc, Hl; eauto|done]. }
  rewrite E. cbn [mbind res_bind]. destruct (Z.eqb_spec c (chr ",")) as [->|Hc]; [eauto|].
  destruct Hb as [?|Hop%is_op_letter]; [done|]. rewrite Hop. cbn [negb]. eauto.
Qed.

Definition action_op (a : action) : op := match a with Perms o _ | FromClass o _ => o end.
Lemma action_loop a W e t rest : bounded rest -> W .&~ S_ISTXT = W -> exists who, who .&~ S_ISTXT = W /\
  boundary who (t ++ calls_of W a) rest (loop (tail (action_text a) ++ rest) (PPerm (op_code (action_op a)) W 0 0) (if op_code (action_op a) =? chr "=" then false else e) t).
Proof.
  intros Hb HW. destruct a as [o ps|o c]; cbn [action_text tail action_op calls_of].
  - pose proof (perms_loop ps rest (op_code o) (W, 0, 0) (if op_code o =? chr "=" then false else e) t) as E. cbv beta iota in E. rewrite E.
    pose proof (steps_spec ps W 0 0) as Hs. destruct (foldl steps (W, 0, 0) ps) as [[who perm] X]. destruct Hs as (Hw & _ & _).
    exists who. split; [|apply at_boundary; [done|]; apply clause_end_calls; intros ->; done].
    rewrite Hw. destruct (_ && _); [|done]. rewrite <- HW at 2. leafbits.
  - exists W. split; [done|]. cbn [app sym_loop].
    assert (perm_char (class_letter c) W 0 0 = None /\ (class_letter c =? chr "u") || (class_letter c =? chr "g") || (class_letter c =? chr "o") = true) as [-> ->] by (by destruct c).
    unfold copy_step. cbn [Z.eqb negb]. rewrite andb_false_r. cbn [mbind res_bind trace_call].
    apply at_boundary; [done|]. apply clause_end_copied. intros E. by rewrite E.
Qed.

Lemma action_head a : action_text a = op_code (action_op a) :: tail (action_text a).
Proof. by destruct a. Qed.
Lemma op_code_letter o : op_letter (op_code o).
Proof. destruct o; apply (bool_decide_unpack _); by vm_compute. Qed.

(** All actions of a clause, in front of a comma or the end. *)
Lemma actions_loop W acts : W .&~ S_ISTXT = W -> forall a e t rest, rest = [] \/ (exists p, rest = chr "," :: p) ->
  boundary W (t ++ flat_map (calls_of W) (a :: acts)) rest
    (loop (tail (action_text a) ++ flat_map action_text acts ++ rest) (PPerm (op_code (action_op a)) W 0 0) (if op_code (action_op a) =? chr "=" then false else e) t).
Proof.
  intros HW. induction acts as [|a2 acts IH]; intros a e t rest Hr.
  - cbn [flat_map app]. rewrite app_nil_r. destruct (action_loop a W e t rest) as (who & Hwho & Hbd); [by destruct Hr as [->|[p ->]]; [|left]|done|].
    destruct Hr as [->|[p ->]]; cbn [boundary] in *; [done|]. by rewrite Z.eqb_refl in *.
  - destruct (action_loop a W e t (flat_map action_text (a2 :: acts) ++ rest)) as (who & Hwho & Hbd); [|done|].
    { cbn [flat_map]. rewrite action_head. cbn. right. apply op_code_letter. }
    cbn [flat_map] in Hbd |- *. rewrite (action_head a2) in Hbd |- * at 1. cbn [app boundary] in Hbd.
    assert ((op_code (action_op a2) =? chr ",") = false) as Hne by (by destruct (action_op a2)). rewrite Hne in Hbd. destruct Hbd as (e' & Hbd).
    rewrite <- !app_assoc in Hbd |- *. cbn [app]. rewrite Hbd, Hwho. rewrite app_assoc. by apply (IH a2 e' (t ++ calls_of W a)).
Qed.

Lemma who_masks_plain ws : who_masks ws .&~ S_ISTXT = who_masks ws.
Proof.
  apply Z.bits_inj'. intros i Hi. rewrite Z.land_spec, Z.lnot_spec, (letter_mask_bits Sticky i Hi : Z.testbit S_ISTXT i = _), who_masks_bits by done.
  destruct (existsb _ ws) eqn:E; [|done]. apply existsb_exists in E as (w & _ & Hc%covers_range).
  cbn [grants]. destruct (among [9] i) eqn:E9; [|done]. apply among_spec in E9. cbn in E9. lia.
Qed.

Lemma clause_loop c e t rest : c.2 <> [] -> rest = [] \/ (exists p, rest = chr "," :: p) ->
  boundary (who_masks c.1) (t ++ clause_calls c) rest (loop (clause_text c ++ rest) (PWho 0) e t).
Proof.
  destruct c as [ws [|a acts]]; [done|]. intros _ Hr. unfold clause_text, clause_calls. cbn [fst snd]. rewrite <- app_assoc, who_loop. fold (who_masks ws).
  cbn [flat_map]. rewrite (action_head a) at 1. cbn [app sym_loop].
  assert (who_bits (op_code (action_op a)) = None) as -> by (by destruct (action_op a)). rewrite (proj2 (is_op_letter _) (op_code_letter _)). cbn [negb].
  rewrite who_masks_plain, <- app_assoc. apply (actions_loop (who_masks ws) acts (who_masks_plain ws) a e t rest Hr).
Qed.

Lemma mode_text_calls cs : cs <> [] -> Forall (fun c => c.2 <> []) cs -> forall e t, loop (mode_text cs) (PWho 0) e t = Ok (t ++ flat_map clause_calls cs).
Proof.
  intros Hne Hcs. induction Hcs as [|c cs Hc Hcs IH]; [done|]. intros e t. destruct cs as [|c2 cs].
  - cbn [mode_text flat_map]. rewrite app_nil_r. pose proof (clause_loop c e t [] Hc (or_introl eq_refl)) as H. by rewrite app_nil_r in H.
  - change (mode_text (c :: c2 :: cs)) with (clause_text c ++ chr "," :: mode_text (c2 :: cs)).
    destruct (clause_loop c e t (chr "," :: mode_text (c2 :: cs)) Hc) as (e' & ->); [right; eauto|].
    rewrite IH by done. cbn [flat_map]. by rewrite <- app_assoc.
Qed.

(** * The calls do what the mode means *)

Section Meaning.
Context (um : Z) (Hum : 0 <= um < 512).
Notation M := (u32 (Z.lnot um)).

Lemma mask_bits i : 0 <= i < 32 -> Z.testbit M i = negb (Z.testbit um i).
Proof. intros Hi. unfold u32. rewrite Z.mod_pow2_bits_low, Z.lnot_spec by lia. done. Qed.
Lemma um_above i : 9 <= i -> Z.testbit um i = false.
Proof.
  intros Hi. destruct (Z.eq_dec um 0) as [->|]; [apply Z.testbit_0_l|]. apply Z.bits_above_log2; [lia|]. apply Z.log2_lt_pow2; [lia|].
  apply (Z.lt_le_trans _ (2 ^ 9)); [lia|]. apply Z.pow_le_mono_r; lia.
Qed.
Lemma tst_among x c l : (forall i, 0 <= i -> Z.testbit c i = among l i) -> forallb (Z.leb 0) l = true -> tst x c = existsb (Z.testbit x) l.
Proof.
  intros Hc Hl. unfold tst. rewrite forallb_forall in Hl. destruct (existsb _ l) eqn:E.
  - apply existsb_exists in E as (i & Hi & Hx). assert (0 <= i) by (specialize (Hl i Hi); lia). apply negb_true_iff, Z.eqb_neq, (testbit_ne _ i); [done|].
    rewrite Z.land_spec, Hx, Hc by done. by apply among_spec.
  - apply negb_false_iff, Z.eqb_eq, Z.bits_inj'. intros i Hi. rewrite Z.land_spec, Z.bits_0, Hc by done.
    destruct (among l i) eqn:Ea; [|by rewrite andb_false_r]. apply among_spec in Ea. rewrite andb_true_r. apply not_true_iff_false. intros Hx.
    apply not_true_iff_false in E. apply E, existsb_exists. eauto.
Qed.

Lemma grants_range l i : grants l i = true -> 0 <= i < 12.
Proof. destruct l; cbn [grants]; rewrite among_spec; cbn; lia. Qed.
Lemma exec_range i : grants Exec i = true -> i = 0 \/ i = 3 \/ i = 6.
Proof. cbn [grants]. rewrite among_spec. cbn. lia. Qed.
Lemma eff_bits ws i : 0 <= i < 32 -> i <> 9 -> Z.testbit (if who_masks ws =? 0 then M else who_masks ws) i = reach um ws i.
Proof.
  intros Hi H9. destruct ws as [|w ws]; [by apply mask_bits|]. rewrite (proj2 (Z.eqb_neq _ _)) by (intros E%who_masks_zero; done).
  rewrite who_masks_bits by lia. unfold reach. by rewrite (proj2 (Z.eqb_neq i 9)).
Qed.
Lemma who_masks_9 ws : Z.testbit (who_masks ws) 9 = false.
Proof.
  rewrite who_masks_bits by lia. apply not_true_iff_false. rewrite existsb_exists. intros (w & _ & Hc%covers_range). lia.
Qed.
Lemma existsb_sticky ps : existsb (fun l => grants l 9) ps = existsb is_sticky ps.
Proof. induction ps as [|l ps IH]; [done|]. cbn [existsb]. rewrite IH. by destruct l. Qed.

Notation eff who := (if who =? 0 then M else who).

Section Perms.
Context (ws : list who) (ps : list letter) (o : op) (who perm X : Z).
Context (Hok : action_ok ws (Perms o ps)) (Hsteps : foldl steps (who_masks ws, 0, 0) ps = (who, perm, X)).
Notation P i := (existsb (fun l => grants l i) ps).
Notation sp := (special (who_masks ws)).

Lemma steps_final : who = (if existsb is_sticky ps && sp then who_masks ws .| S_ISTXT else who_masks ws) /\
  (forall i, 0 <= i -> Z.testbit perm i = existsb (fun l => grants l i && (sp || negb (is_sticky l || is_setid l))) ps) /\
  X = (if existsb is_cond ps then letter_mask Exec else 0).
Proof.
  pose proof (steps_spec ps (who_masks ws) 0 0) as Hs. rewrite Hsteps in Hs. destruct Hs as (? & HP & ?). split_and!; [done| |done].
  intros i Hi. rewrite HP by done. by rewrite Z.testbit_0_l.
Qed.

Lemma sticky_bit i : 0 <= i -> Z.testbit S_ISTXT i = (i =? 9).
Proof. intros Hi. rewrite (letter_mask_bits Sticky i Hi : Z.testbit S_ISTXT i = _). cbn. by rewrite orb_false_r. Qed.

Lemma perm_special i : 0 <= i -> sp = true -> Z.testbit perm i = P i.
Proof.
  intros Hi Hsp. destruct steps_final as (_ & -> & _); [|done]. rewrite Hsp. cbn [orb]. clear. induction ps as [|l l' IH]; [done|].
  cbn [existsb]. by rewrite IH, andb_true_r.
Qed.
Lemma perm_other i : 0 <= i < 3 -> Z.testbit perm i = P i.
Proof.
  intros Hi. destruct steps_final as (_ & -> & _); [|lia]. clear -Hi. induction ps as [|l l' IH]; [done|]. cbn [existsb]. rewrite IH. f_equal.
  destruct l; cbn [is_sticky is_setid negb orb]; rewrite ?orb_true_r, ?andb_true_r; try done;
    (assert (i = 0 \/ i = 1 \/ i = 2) as [->|[->| ->]] by lia; done).
Qed.
Lemma perm_nothing i : 0 <= i -> P i = false -> Z.testbit perm i = false.
Proof.
  intros Hi HP. destruct steps_final as (_ & -> & _); [|done]. revert HP. clear. induction ps as [|l l' IH]; [done|]. cbn [existsb].
  intros [-> H]%orb_false_iff. by rewrite IH.
Qed.
Lemma P_range i : P i = true -> 0 <= i < 12.
Proof. intros (l & _ & Hl)%existsb_exists. by apply grants_range in Hl. Qed.

(** The bits of [who], when no letter makes them the sticky bit alone. *)
Lemma who_eff i : 0 <= i < 32 -> i <> 9 -> ws <> [] \/ existsb is_sticky ps = false -> Z.testbit (eff who) i = reach um ws i.
Proof.
  intros Hi H9 Hc. rewrite <- eff_bits by done. destruct steps_final as (Hw & _ & _).
  destruct (existsb is_sticky ps); cbn [andb] in Hw; [|by rewrite Hw]. destruct Hc as [Hc|]; [|done].
  destruct sp; [|by rewrite Hw]. assert (who_masks ws <> 0) as Hn by (by rewrite who_masks_zero).
  rewrite Hw, !(proj2 (Z.eqb_neq _ _)); [|done|apply (testbit_ne _ 9); [lia|]; by rewrite Z.lor_spec, orb_true_r].
  rewrite Z.lor_spec, sticky_bit, (proj2 (Z.eqb_neq i 9)) by lia. by rewrite orb_false_r.
Qed.
Lemma who_eff_9 : Z.testbit (eff who) 9 && Z.testbit perm 9 = P 9 && reach um ws 9.
Proof.
  destruct (P 9) eqn:HP; [|by rewrite perm_nothing, andb_false_r]. cbn [andb]. rewrite existsb_sticky in HP.
  destruct steps_final as (Hw & _ & _). rewrite HP in Hw. cbn [andb] in Hw. pose proof (special_masks ws) as Hsp.
  destruct sp eqn:Es.
  - rewrite perm_special, existsb_sticky, HP, andb_true_r by done. rewrite Hw, (proj2 (Z.eqb_neq _ _)) by (apply (testbit_ne _ 9); [lia|]; by rewrite Z.lor_spec, orb_true_r).
    rewrite Z.lor_spec, sticky_bit, orb_true_r by lia. destruct ws; [|done]. cbn [reach]. by rewrite um_above.
  - destruct ws as [|w l]; [done|]. rewrite Hw, (proj2 (Z.eqb_neq _ _)) by (by rewrite who_masks_zero).
    rewrite who_masks_9. cbn [andb]. unfold reach. by rewrite Z.eqb_refl, <- Hsp.
Qed.

(** The bits the operator works on. *)
Lemma perms_bits i : 0 <= i -> Z.testbit (eff who .& perm) i = P i && reach um ws i.
Proof.
  intros Hi. rewrite Z.land_spec. destruct (Z.eq_dec i 9) as [->|H9]; [apply who_eff_9|].
  destruct (P i) eqn:HP; [|by rewrite perm_nothing, andb_false_r]. pose proof (P_range i HP) as Hr.
  destruct Hok as [_ Hst]. destruct (decide (ws = [])) as [Ew|Ew].
  - destruct (existsb is_sticky ps) eqn:Es.
    + destruct (Hst Ew eq_refl) as [_ Hall]. exfalso. apply existsb_exists in HP as (l & Hl & Hg). rewrite forallb_forall in Hall.
      specialize (Hall l Hl). destruct l; try done. apply among_spec in Hg. cbn in Hg. lia.
    + rewrite perm_special, HP, andb_true_r by (first [lia|by rewrite Ew]). apply who_eff; [lia|done|auto].
  - rewrite who_eff by (first [lia|auto]). destruct sp eqn:Es; [by rewrite perm_special, HP, andb_true_r by done|].
    destruct (reach um ws i) eqn:Er; [|done]. cbn [andb]. rewrite perm_other; [done|].
    rewrite special_masks in Es. revert Es Er. clear -H9 Ew. destruct ws as [|w l]; [done|]. intros Es Er.
    apply negb_false_iff in Es. unfold reach in Er. rewrite (proj2 (Z.eqb_neq i 9)) in Er by done.
    apply existsb_exists in Er as (x & Hx & Hcov). unfold only_other in Es. rewrite forallb_forall in Es. specialize (Es x Hx).
    destruct x as [|[| |]]; try done. apply among_spec in Hcov. cbn in Hcov. lia.
Qed.
Lemma cond_bits i : 0 <= i -> Z.testbit (eff who .& X) i = existsb is_cond ps && grants Exec i && reach um ws i.
Proof.
  intros Hi. destruct steps_final as (_ & _ & HX). rewrite HX. destruct (existsb is_cond ps) eqn:Ec; [|by rewrite Z.land_0_r, Z.testbit_0_l].
  rewrite Z.land_spec, letter_mask_bits by done. destruct (grants Exec i) eqn:Eg; [|by rewrite andb_false_r]. apply exec_range in Eg.
  rewrite andb_true_r. cbn [andb]. apply who_eff; [lia..|]. destruct (decide (ws = [])) as [Ew|Ew]; [|by left]. right. apply not_true_iff_false. intros Es.
  destruct Hok as [_ Hst]. destruct (Hst Ew Es) as [_ Hall]. apply existsb_exists in Ec as (l & Hl & Hc). rewrite forallb_forall in Hall.
  specialize (Hall l Hl). by destruct l.
Qed.
Lemma cleared_bits i : 0 <= i -> o = Equals ->
  Z.testbit (if who =? 0 then STANDARD_BITS else who) i = cleared ws i || ((i =? 9) && P i && reach um ws i).
Proof.
  intros Hi Ho. destruct steps_final as (Hw & _ & _). destruct Hok as [_ Hst]. destruct (decide (ws = [])) as [Ew|Ew].
  - assert (existsb is_sticky ps = false) as Es by (apply not_true_iff_false; intros Es; by destruct (Hst Ew Es)).
    assert (who = 0) as E0 by (by rewrite Hw, Es, Ew). rewrite E0, Ew. cbn [Z.eqb cleared].
    rewrite (who_mask_bits All i Hi : Z.testbit STANDARD_BITS i = _).
    destruct (Z.eqb_spec i 9) as [->|]; [by rewrite existsb_sticky, Es|]. by rewrite orb_false_r.
  - assert ((if who =? 0 then STANDARD_BITS else who) = who) as ->.
    { destruct (Z.eqb_spec who 0) as [E|]; [|done]. exfalso. rewrite E in Hw. destruct (_ && _); [|by apply Ew, who_masks_zero].
      symmetry in Hw. apply (testbit_ne (who_masks ws .| S_ISTXT) 9) in Hw; [done|lia|]. by rewrite Z.lor_spec, orb_true_r. }
    assert (cleared ws i = Z.testbit (who_masks ws) i) as -> by (rewrite who_masks_bits by done; clear -Ew; by destruct ws).
    destruct (Z.eqb_spec i 9) as [->|H9]; cbn [andb].
    + assert (reach um ws 9 = sp) as -> by (rewrite special_masks; clear -Ew; by destruct ws). rewrite existsb_sticky, who_masks_9, Hw.
      destruct (_ && sp); [by rewrite Z.lor_spec, who_masks_9|by rewrite who_masks_9].
    + rewrite orb_false_r, Hw. destruct (_ && sp); [|done]. rewrite Z.lor_spec, sticky_bit, (proj2 (Z.eqb_neq i 9)) by lia. by rewrite orb_false_r.
Qed.
End Perms.

(** ** Copies of a class *)

Lemma small_bits v j : 0 <= v < 8 -> 3 <= j -> Z.testbit v j = false.
Proof.
  intros Hv Hj. destruct (Z.eq_dec v 0) as [->|]; [apply Z.testbit_0_l|]. apply Z.bits_above_log2; [lia|]. apply Z.log2_lt_pow2; [lia|].
  apply (Z.lt_le_trans _ (2 ^ 3)); [lia|]. apply Z.pow_le_mono_r; lia.
Qed.
Lemma class_reach ws i j : covers All i = true -> covers All j = true -> i / 3 = j / 3 -> i < 9 -> j < 9 ->
  existsb (fun w => covers w i) ws = existsb (fun w => covers w j) ws.
Proof.
  intros Hi Hj He Hi9 Hj9. apply covers_range in Hi as [? _], Hj as [? _]. induction ws as [|w ws IH]; [done|]. cbn [existsb]. rewrite IH. f_equal.
  assert (i = 0 \/ i = 1 \/ i = 2 \/ i = 3 \/ i = 4 \/ i = 5 \/ i = 6 \/ i = 7 \/ i = 8) as Hci by lia.
  assert (j = 0 \/ j = 1 \/ j = 2 \/ j = 3 \/ j = 4 \/ j = 5 \/ j = 6 \/ j = 7 \/ j = 8) as Hcj by lia.
  clear -He Hci Hcj. repeat destruct Hci as [->|Hci]; try subst i; repeat destruct Hcj as [->|Hcj]; try subst j; try discriminate He; by destruct w as [|[| |]].
Qed.
Lemma tst_bit x k : 0 <= k -> tst x (2 ^ k) = Z.testbit x k.
Proof.
  intros Hk. rewrite (tst_among x _ [k]); [cbn; by rewrite orb_false_r| |cbn; lia]. intros i Hi. rewrite Z.pow2_bits_eqb by done. unfold among. cbn.
  by rewrite orb_false_r, Z.eqb_sym.
Qed.

(** All bits of [v] at constants, where only the lowest three can be set. *)
Ltac bits_of v Hhi Hlo :=
  repeat match goal with
  | |- context [Z.testbit v ?j] =>
    let r := eval vm_compute in j in progress change (Z.testbit v j) with (Z.testbit v r)
  end;
  repeat match goal with
  | |- context [Z.testbit v ?j] => first [rewrite (Hhi j) by lia|rewrite (Hlo j) by lia]
  end;
  repeat match goal with |- context [Z.testbit v ?j] => destruct (Z.testbit v j) end; reflexivity.

Lemma spread_bits ws v i : 0 <= v < 8 -> 0 <= i -> Z.testbit (spread M (who_masks ws) v) i = (i <? 9) && reach um ws i && Z.testbit v (i mod 3).
Proof.
  intros Hv Hi. pose proof (fun j => small_bits v j Hv) as Hhi. pose proof (Z.testbit_neg_r v) as Hlo.
  assert (forall j, 0 <= j -> Z.testbit ((v .<< 6) .| (v .<< 3) .| v) j = (j <? 9) && Z.testbit v (j mod 3)) as Hall.
  { intros j Hj. rewrite !Z.lor_spec, !Z.shiftl_spec by done. destruct (Z.ltb_spec j 9); [|by rewrite !Hhi by lia].
    assert (j = 0 \/ j = 1 \/ j = 2 \/ j = 3 \/ j = 4 \/ j = 5 \/ j = 6 \/ j = 7 \/ j = 8) as Hcj by lia.
    clear -Hcj Hhi Hlo. repeat destruct Hcj as [->|Hcj]; try subst j; bits_of v Hhi Hlo. }
  unfold spread. destruct (decide (ws = [])) as [->|Ew].
  - cbn [who_masks foldl Z.eqb reach]. rewrite Z.land_spec, Hall by done. destruct (Z.ltb_spec i 9); [|done].
    rewrite mask_bits by lia. cbn [andb]. apply andb_comm.
  - rewrite (proj2 (Z.eqb_neq _ _)) by (by rewrite who_masks_zero).
    change S_IRUSR with (2 ^ 8). change S_IRGRP with (2 ^ 5). change S_IROTH with (2 ^ 2). rewrite !tst_bit, !who_masks_bits by lia.
    assert (reach um ws i = if i =? 9 then negb (only_other ws) else existsb (fun w => covers w i) ws) as -> by (clear -Ew; by destruct ws).
    destruct (Z.ltb_spec i 9).
    + rewrite (proj2 (Z.eqb_neq i 9)) by lia. cbn [andb].
      assert (Z.testbit v (i mod 3) = Z.testbit ((v .<< 6) .| (v .<< 3) .| v) i) as -> by (rewrite Hall by done; by rewrite (proj2 (Z.ltb_lt i 9))).
      rewrite !Z.lor_spec, !Z.shiftl_spec by done.
      assert (i = 0 \/ i = 1 \/ i = 2 \/ i = 3 \/ i = 4 \/ i = 5 \/ i = 6 \/ i = 7 \/ i = 8) as Hci by lia.
      clear -Hci Hhi Hlo. repeat destruct Hci as [->|Hci]; try subst i;
      match goal with |- context [(?j - 6)] =>
        first [rewrite (class_reach ws 8 j eq_refl eq_refl eq_refl ltac:(lia) ltac:(lia))|rewrite (class_reach ws 5 j eq_refl eq_refl eq_refl ltac:(lia) ltac:(lia))|rewrite (class_reach ws 2 j eq_refl eq_refl eq_refl ltac:(lia) ltac:(lia))|idtac] end;
      destruct (existsb _ ws); cbn [andb]; repeat case_match;
      rewrite ?Z.shiftl_spec, ?Z.testbit_0_l by lia; bits_of v Hhi Hlo.
    + cbn [andb]. repeat case_match; rewrite !Z.lor_spec, ?Z.shiftl_spec, ?Z.testbit_0_l by lia; by rewrite ?Hhi by lia.
Qed.

Definition class_value (c : class) (m : Z) : Z := (m .& (7 .<< class_base c)) .>> class_base c.
Lemma class_value_bits c m j : 0 <= j < 3 -> Z.testbit (class_value c m) j = Z.testbit m (class_base c + j).
Proof.
  intros Hj. assert (0 <= class_base c) as Hb by (destruct c; cbn; lia). unfold class_value. rewrite Z.shiftr_spec, Z.land_spec, Z.shiftl_spec by lia.
  replace (j + class_base c - class_base c) with j by lia. change 7 with (Z.ones 3). rewrite Z.ones_spec_low, andb_true_r by lia. f_equal. lia.
Qed.
Lemma run_copy omode m c W o : run_call M omode m (class_letter c, W, op_code o) =
  let v := class_value c m in
  match o with
  | Plus => m .| spread M W v | Minus => m .&~ spread M W v | Equals => (m .&~ spread M W S_IRWXO) .| spread M W v
  end.
Proof. destruct c, o; cbn [class_letter op_code run_call]; eval_tests; try reflexivity; unfold class_value, class_base; by rewrite ?Z.shiftr_0_r. Qed.

Lemma copy_run ws omode m b c o i : (forall i, 0 <= i -> Z.testbit m i = b i) -> 0 <= i ->
  Z.testbit (run_call M omode m (class_letter c, who_masks ws, op_code o)) i = apply_action um ws (Z.testbit omode) (FromClass o c) b i.
Proof.
  intros Hm Hi. assert (0 <= class_value c m < 8) as Hv by (apply class_bits; destruct c; cbn; lia). pose proof (Z.mod_pos_bound i 3 ltac:(lia)) as Hi3.
  assert (0 <= class_base c) as Hb by (destruct c; cbn; lia).
  assert (Z.testbit (spread M (who_masks ws) (class_value c m)) i = (i <? 9) && reach um ws i && b (class_base c + i mod 3)) as Hs.
  { rewrite spread_bits, class_value_bits, Hm by first [done|lia]. done. }
  assert (Z.testbit (spread M (who_masks ws) S_IRWXO) i = (i <? 9) && reach um ws i) as H7.
  { rewrite spread_bits by first [done|unfold S_IRWXO; lia]. replace (Z.testbit S_IRWXO (i mod 3)) with true; [by rewrite andb_true_r|].
    assert (i mod 3 = 0 \/ i mod 3 = 1 \/ i mod 3 = 2) as [-> |[-> | ->]] by lia; done. }
  rewrite run_copy. cbn [apply_action]. destruct o; rewrite ?Z.lor_spec, ?Z.land_spec, ?Z.lnot_spec, Hm, ?Hs, ?H7 by done; try done. apply orb_comm.
Qed.

Lemma searchable_tst omode : tst omode (S_IFDIR .| S_IXUSR .| S_IXGRP .| S_IXOTH) = searchable (Z.testbit omode).
Proof.
  rewrite (tst_among omode _ [14; 0; 3; 6]); [cbn; unfold searchable; by rewrite orb_false_r, !orb_assoc| |done]. intros i Hi.
  rewrite !Z.lor_spec. change S_IFDIR with (2 ^ 14). change S_IXUSR with (2 ^ 6). change S_IXGRP with (2 ^ 3). change S_IXOTH with (2 ^ 0).
  rewrite !Z.pow2_bits_eqb by lia. unfold among. cbn [existsb]. rewrite !(Z.eqb_sym i). by destruct (14 =? i), (6 =? i), (3 =? i), (0 =? i).
Qed.

Lemma run_calls_app mask omode l1 l2 m : run_calls mask omode (l1 ++ l2) m = run_calls mask omode l2 (run_calls mask omode l1 m).
Proof. apply foldl_app. Qed.
Lemma perms_run ws omode m b o ps i : action_ok ws (Perms o ps) -> (forall i, 0 <= i -> Z.testbit m i = b i) -> 0 <= i ->
  Z.testbit (run_calls M omode (calls_of (who_masks ws) (Perms o ps)) m) i = apply_action um ws (Z.testbit omode) (Perms o ps) b i.
Proof.
  intros Hok Hm Hi. cbn [calls_of]. destruct (foldl steps (who_masks ws, 0, 0) ps) as [[who perm] X] eqn:E.
  pose proof (perms_bits ws ps o who perm X Hok E i Hi) as HP. pose proof (cond_bits ws ps o who perm X Hok E i Hi) as HX.
  pose proof (cleared_bits ws ps o who perm X Hok E i Hi) as HC.
  assert (forall m', run_calls M omode (if negb (X =? 0) then [(chr "X", who, X)] else []) m' =
    if searchable (Z.testbit omode) then m' .| (eff who .& X) else m') as Hcond.
  { intros m'. destruct (Z.eqb_spec X 0) as [->|]; cbn [negb run_calls foldl run_call].
    - rewrite Z.land_0_r, Z.lor_0_r. by destruct (searchable _).
    - eval_tests. by rewrite searchable_tst. }
  unfold ends. rewrite run_calls_app, Hcond. cbn [apply_action].
  assert (o <> Plus -> existsb is_cond ps = false) as Hplus by (intros Hn; apply not_true_iff_false; intros Hc; by apply Hn, Hok).
  assert (forall m', Z.testbit (if searchable (Z.testbit omode) then m' .| (eff who .& X) else m') i =
    Z.testbit m' i || (existsb is_cond ps && searchable (Z.testbit omode) && grants Exec i && reach um ws i)) as Hor.
  { intros m'. destruct (searchable _); [by rewrite Z.lor_spec, HX, andb_true_r|]. by rewrite andb_false_r, orb_false_r. }
  rewrite Hor. clear Hor Hcond.
  destruct o; cbn [op_code]; eval_tests; rewrite ?orb_true_r, ?orb_false_r.
  - f_equal. rewrite <- HP, <- Hm by done. destruct (Z.eqb_spec perm 0) as [->|]; cbn [negb run_calls foldl run_call].
    + by rewrite Z.land_0_r, Z.testbit_0_l, orb_false_r.
    + eval_tests. by rewrite Z.lor_spec.
  - rewrite Hplus, orb_false_r by done. rewrite <- HP, <- Hm by done. destruct (Z.eqb_spec perm 0) as [->|]; cbn [negb run_calls foldl run_call].
    + by rewrite Z.land_0_r, Z.testbit_0_l, andb_true_r.
    + eval_tests. by rewrite Z.land_spec, Z.lnot_spec.
  - rewrite Hplus, orb_false_r by done. cbn [run_calls foldl run_call]. eval_tests.
    rewrite Z.lor_spec, HP, Z.land_spec, Z.lnot_spec, HC, Hm by done.
    destruct (b i), (cleared ws i), (i =? 9), (existsb _ ps), (reach um ws i); done.
Qed.

Lemma action_run ws omode m b a : action_ok ws a -> (forall i, 0 <= i -> Z.testbit m i = b i) ->
  forall i, 0 <= i -> Z.testbit (run_calls M omode (calls_of (who_masks ws) a) m) i = apply_action um ws (Z.testbit omode) a b i.
Proof. intros Hok Hm i Hi. destruct a as [o ps|o c]; [by apply perms_run|by apply copy_run]. Qed.

Lemma clause_run c omode : Forall (action_ok c.1) c.2 -> forall m b, (forall i, 0 <= i -> Z.testbit m i = b i) ->
  forall i, 0 <= i -> Z.testbit (run_calls M omode (clause_calls c) m) i = apply_clause um (Z.testbit omode) c b i.
Proof.
  destruct c as [ws acts]. unfold clause_calls, apply_clause. cbn [fst snd]. intros Hok. induction Hok as [|a acts Ha _ IH]; intros m b Hm; [done|].
  cbn [flat_map foldl]. rewrite run_calls_app. apply IH. by apply action_run.
Qed.
Lemma mode_run cs omode : Forall clause_ok cs -> forall m b, (forall i, 0 <= i -> Z.testbit m i = b i) ->
  forall i, 0 <= i -> Z.testbit (run_calls M omode (flat_map clause_calls cs) m) i =
    foldl (fun b c => apply_clause um (Z.testbit omode) c b) b cs i.
Proof.
  intros Hok. induction Hok as [|c cs [_ Hc] _ IH]; intros m b Hm; [done|]. cbn [flat_map foldl]. rewrite run_calls_app.
  apply IH. by apply clause_run.
Qed.
End Meaning.

(** * The mode strings [setmode] takes, and their meaning *)

Inductive valid_mode : list Z -> Prop :=
| valid_symbolic p : g_mode p -> valid_mode p
| valid_octal ds : ds <> [] -> Forall octal_digit ds -> octal_value ds 0 <= 0xfff -> valid_mode ds.

Lemma sym_loop_error p : forall ph e t x, loop p ph e t = Err x -> x = EINVAL.
Proof.
  induction p as [|c p IH]; intros ph e t x; cbn [sym_loop]; destruct ph as [who|op who perm X].
  - by intros [= <-].
  - by destruct (clause_end_trace op who perm X e t) as (e' & t' & ->).
  - destruct (who_bits c); [apply IH|]. destruct (negb (is_op c)); [by intros [= <-]|apply IH].
  - destruct (perm_char c who perm X) as [[[who' perm'] X']|]; [apply IH|]. destruct (_ || _).
    + destruct (copy_step_trace c op who perm X e t) as (p' & X' & e' & t' & ->). apply IH.
    + destruct (clause_end_trace op who perm X e t) as (e' & t' & ->). cbn [mbind res_bind].
      destruct (c =? chr ","); [apply IH|]. destruct (negb (is_op c)); [by intros [= <-]|apply IH].
Qed.

Lemma strtol8_octal p : forall v v', strtol8 p v = (v', []) -> Forall octal_digit p.
Proof.
  induction p as [|c p IH]; intros v v'; [constructor|]. cbn [strtol8]. destruct ((48 <=? c) && (c <=? 55)) eqn:E; [|done].
  intros H. constructor; [unfold octal_digit; lia|by eapply IH].
Qed.
Lemma g_mode_head c p : g_mode (c :: p) -> isdigit c = false.
Proof.
  assert (forall l, Forall (fun c => isdigit c = false) l -> c ∈ l -> isdigit c = false) as Hl by (intros l; rewrite Forall_forall; auto).
  assert (op_letter c \/ who_letter c -> isdigit c = false) as Hc.
  { intros [H|H]; (eapply Hl; [|exact H]); apply (bool_decide_unpack _); by vm_compute. }
  inversion 1 as [ws q Hws Hq E]; subst. apply Hc. destruct ws as [|w ws]; cbn in E; [|injection E as -> _; right; by apply Forall_cons in Hws as [? _]].
  subst. left. by inversion Hq.
Qed.

Lemma absolute_spec p : p <> [] ->
  match absolute p with
  | Ok v => Forall octal_digit p /\ v = octal_value p 0 /\ v <= 0xfff
  | Err e => ~ (Forall octal_digit p /\ octal_value p 0 <= 0xfff) /\ (e = EINVAL \/ e = ERANGE)
  | Fault => False
  end.
Proof.
  intros Hne. unfold absolute. destruct (strtol8 p 0) as [v ep] eqn:E. destruct ep as [|c ep].
  2:{ split; [|by left]. intros [Hd _]. by rewrite strtol8_digits in E. }
  pose proof (strtol8_octal _ _ _ E) as Hd. rewrite strtol8_digits in E by done. injection E as <-.
  pose proof (octal_value_nonneg p 0 Hd ltac:(lia)) as Hv. pose proof (mode12_le _ Hv) as H12. unfold mode12, mode_bits in H12.
  destruct (Z.ltb_spec LONG_MAX (octal_value p 0)) as [Hl|Hl]; [split; [|by right]; unfold LONG_MAX in Hl; lia|].
  unfold tst. destruct (Z.eqb_spec (octal_value p 0 .&~ (STANDARD_BITS .| S_ISTXT)) 0) as [E0|E0]; cbn [negb].
  - split_and!; [done..|]. apply H12, E0.
  - split; [|by left]. intros [_ Hle]. apply E0, H12, Hle.
Qed.

Lemma mode_meaning_valid mask p :
  match mode_meaning mask p with Ok _ => valid_mode p | Err e => ~ valid_mode p /\ (e = EINVAL \/ e = ERANGE) | Fault => True end.
Proof.
  unfold mode_meaning. destruct p as [|c p'].
  { split; [|by left]. inversion 1 as [p Hp|]; [|done]. subst. inversion Hp as [ws q Hws Hq E]. apply app_eq_nil in E as [_ E]. rewrite E in Hq. inversion Hq. }
  set (p := c :: p'). destruct (isdigit c) eqn:Ec.
  - pose proof (absolute_spec p ltac:(done)) as Ha. destruct (absolute p) as [v|e|]; cbn [mbind res_bind]; [|split; [|tauto]|done].
    + destruct Ha as (? & -> & ?). by apply valid_octal.
    + inversion 1 as [q Hg|]; subst; [|tauto]. apply g_mode_head in Hg. congruence.
  - pose proof (mode_calls_grammar p) as Hg. destruct (mode_calls p) as [calls|e|] eqn:E; cbn [mbind res_bind]; [|split|done].
    + apply valid_symbolic. by apply Hg.
    + inversion 1 as [|ds Hne Hd Hle]; subst; [by apply Hg|]. apply Forall_cons in Hd as [Hd _]. unfold octal_digit, isdigit in *. lia.
    + left. by apply sym_loop_error in E.
Qed.

Lemma mode_text_valid cs : cs <> [] -> Forall (fun c => c.2 <> []) cs -> g_mode (mode_text cs).
Proof. intros Hne Hcs. apply mode_calls_grammar. unfold mode_calls. by rewrite mode_text_calls. Qed.

(** C27. A mode string means what its clauses say bit by bit, independently of the code's
    tables and of its parser, and [setmode] and [getmode] do it whatever malloc and
    reallocarray return and leave in fresh memory.  No cell outside the array is
    accessed, and the string is refused, with EINVAL or ERANGE, exactly when it is
    neither a sentence of chmod's grammar nor an octal number up to 7777; the only other
    failure is ENOMEM, when an allocation failed.  The commands compiled from an octal
    number replace the permission bits by it.  Those compiled from clauses, written out
    in letters, change each bit of every mode as [apply_mode] says, which names the bits
    of each class and each letter and, without a class, leaves alone the bits set in the
    umask.  The clauses covered are those whose actions have either letters or one class
    behind the operator, [X] only behind a plus, and without a class [t] only alone behind
    a plus or a minus.  A class is read from the mode as changed so far, and [=] with a
    class on its right leaves the set-id bits (setmode_manual). *)
Theorem setmode_refines malloc realloc um p : 0 <= um < 512 ->
  match setmode malloc realloc um p with
  | Fault => False
  | Err e => (e = ENOMEM /\ (malloc = None \/ exists n, realloc n = None)) \/ (~ valid_mode p /\ (e = EINVAL \/ e = ERANGE))
  | Ok a => valid_mode p /\
      (Forall octal_digit p -> forall omode, getmode a omode = Some ((omode .&~ mode_bits) .| octal_value p 0)) /\
      (forall cs, cs <> [] -> Forall clause_ok cs -> p = mode_text cs -> forall omode, exists m, getmode a omode = Some m /\
        forall i, 0 <= i -> Z.testbit m i = apply_mode um cs (Z.testbit omode) i)
  end.
Proof.
  intros Hum. pose proof (setmode_meaning malloc realloc um p) as H. pose proof (mode_meaning_valid (u32 (Z.lnot um)) p) as Hv.
  destruct (setmode malloc realloc um p) as [a|e|]; [|destruct H as [|H]; [by left|right; by rewrite H in Hv]|done].
  destruct H as (f & Hf & Hg). rewrite Hf in Hv. split; [done|]. split.
  - intros Hd omode. rewrite Hg. f_equal. unfold mode_meaning in Hf. destruct p as [|c p']; [done|].
    pose proof (absolute_spec (c :: p') ltac:(done)) as Ha. apply Forall_cons in Hd as [Hc _].
    assert (isdigit c = true) as Hdc by (unfold octal_digit, isdigit in *; lia). rewrite Hdc in Hf.
    destruct (absolute (c :: p')) as [v|e|]; [|done..]. injection Hf as <-. by destruct Ha as (_ & -> & _).
  - intros cs Hne Hok -> omode. rewrite Hg. eexists. split; [done|]. assert (Forall (fun c => c.2 <> []) cs) as Hacts by (eapply Forall_impl; [exact Hok|by intros c []]).
    pose proof (mode_text_valid cs Hne Hacts) as Hgm. unfold mode_meaning in Hf. destruct (mode_text cs) as [|c p'] eqn:Et; [done|].
    rewrite (g_mode_head c p' Hgm), <- Et in Hf. unfold mode_calls in Hf. rewrite mode_text_calls in Hf by done. injection Hf as <-.
    intros i Hi. by apply mode_run.
Qed.

(** [u+rw,go-w,a+X] on a directory, under the umask 022. *)
Definition sample_mode : list clause :=
  [([Of User], [Perms Plus [Read; Write]]); ([Of Group; Of Other], [Perms Minus [Write]]); ([All], [Perms Plus [CondExec]])].
Lemma setmode_refines_witness :
  let junk := fun _ : nat => BitCmd 1 2 3 in
  match setmode (Some junk) (fun _ => Some junk) 18 (codes "u+rw,go-w,a+X") with
  | Ok a => exists m, getmode a 0x4012 = Some m /\ map (Z.testbit m) (seqZ 0 9) = [true; false; false; true; false; false; true; true; true]
  | _ => False
  end.
Proof.
  pose proof (setmode_refines (Some (fun _ => BitCmd 1 2 3)) (fun _ => Some (fun _ => BitCmd 1 2 3)) 18 (codes "u+rw,go-w,a+X") ltac:(lia)) as H.
  cbv zeta. revert H. destruct (setmode _ _ _ _) as [a|e|] eqn:E.
  - intros (_ & _ & H). destruct (H sample_mode ltac:(done)) with (omode := 0x4012) as (m & Hm & Hb).
    + repeat constructor; try discriminate; done.
    + reflexivity.
    + exists m. split; [exact Hm|]. change (seqZ 0 9) with [0; 1; 2; 3; 4; 5; 6; 7; 8]. cbn [map]. rewrite !Hb by lia. vm_compute. reflexivity.
  - exfalso. vm_compute in E. discriminate.
  - exfalso. vm_compute in E. discriminate.
Defined.

(** Where the code parts with the manual, beyond setmode_corners: a minus without a class
    clears the bits that are clear in the umask, not those that are set in it; [u=g]
    keeps the set-user-ID bit, which is one of the bits of the user; and [X] takes a
    block device for a directory, since its file type has the bit of a directory.
    Arguments: the mode string, the umask and the mode. *)
Theorem setmode_manual :
  let result p um omode := match mode_meaning (u32 (Z.lnot um)) (codes p) with Ok f => Some (f omode) | _ => None end in
  result "-w" (S_IWGRP .| S_IWOTH) (S_IWUSR .| S_IWGRP .| S_IWOTH) = Some (S_IWGRP .| S_IWOTH) /\
  result "u=g" 0 (S_ISUID .| S_IRWXU .| S_IRGRP) = Some (S_ISUID .| S_IRUSR .| S_IRGRP) /\
  result "u=r" 0 (S_ISUID .| S_IRWXU .| S_IRGRP) = Some (S_IRUSR .| S_IRGRP) /\
  result "u+X" 0 0x6000 = Some (0x6000 .| S_IXUSR).
Proof. repeat split; vm_compute; reflexivity. Qed.
