(* ===== verification/StrMode.v ===== *)
(** The ten letters of [ls -l]: [strmode] (src.freebsd/compat/strmode.c). Linux
    has no whiteouts ([S_IFWHT]). *)

From S2P Require Import Prelude Ctype SetMode.

Definition S_IFMT : Z := 0xf000.
Definition S_IFCHR : Z := 0x2000.
Definition S_IFBLK : Z := 0x6000.
Definition S_IFREG : Z := 0x8000.
Definition S_IFLNK : Z := 0xa000.
Definition S_IFSOCK : Z := 0xc000.
Definition S_IFIFO : Z := 0x1000.

Definition type_letter (mode : Z) : Z :=
  let t := mode .& S_IFMT in
  if t =? S_IFDIR then chr "d"
  else if t =? S_IFCHR then chr "c"
  else if t =? S_IFBLK then chr "b"
  else if t =? S_IFREG then chr "-"
  else if t =? S_IFLNK then chr "l"
  else if t =? S_IFSOCK then chr "s"
  else if t =? S_IFIFO then chr "p"
  else chr "?".

Definition letter (mode bit c : Z) : Z := if tst mode bit then c else chr "-".

(** The switch on execution and a special bit; the letters of the special bit are
    [special] without and [both] with execution. *)
Definition exec_letter (mode x bit special both : Z) : Z :=
  let t := mode .& (x .| bit) in
  if t =? 0 then chr "-" else if t =? x then chr "x" else if t =? bit then special else both.

Definition strmode (mode : Z) : list Z :=
  [type_letter mode;
   letter mode S_IRUSR (chr "r"); letter mode S_IWUSR (chr "w"); exec_letter mode S_IXUSR S_ISUID (chr "S") (chr "s");
   letter mode S_IRGRP (chr "r"); letter mode S_IWGRP (chr "w"); exec_letter mode S_IXGRP S_ISGID (chr "S") (chr "s");
   letter mode S_IROTH (chr "r"); letter mode S_IWOTH (chr "w"); exec_letter mode S_IXOTH S_ISTXT (chr "T") (chr "t");
   chr " "].

(** * Reading the letters *)

Definition types : list (Z * Z) :=
  [(chr "d", S_IFDIR); (chr "c", S_IFCHR); (chr "b", S_IFBLK); (chr "-", S_IFREG);
   (chr "l", S_IFLNK); (chr "s", S_IFSOCK); (chr "p", S_IFIFO)].

Definition read_type (c : Z) : option Z := snd <$> List.find (fun p => p.1 =? c) types.
Definition read_bit (c bit : Z) : Z := if c =? chr "-" then 0 else bit.
Definition read_exec (c x bit special both : Z) : Z :=
  if c =? chr "-" then 0 else if c =? chr "x" then x else if c =? special then bit else x .| bit.

Definition read_mode (s : list Z) : option Z :=
  match s with
  | [t; r1; w1; x1; r2; w2; x2; r3; w3; x3; _] =>
    t ← read_type t;
    Some (t .| read_bit r1 S_IRUSR .| read_bit w1 S_IWUSR .| read_exec x1 S_IXUSR S_ISUID (chr "S") (chr "s")
            .| read_bit r2 S_IRGRP .| read_bit w2 S_IWGRP .| read_exec x2 S_IXGRP S_ISGID (chr "S") (chr "s")
            .| read_bit r3 S_IROTH .| read_bit w3 S_IWOTH .| read_exec x3 S_IXOTH S_ISTXT (chr "T") (chr "t"))
  | _ => None
  end.

Definition known_type (mode : Z) : Prop := exists c, (c, mode .& S_IFMT) ∈ types.

Lemma read_letter mode k c : 0 <= k -> c <> chr "-" -> read_bit (letter mode (2 ^ k) c) (2 ^ k) = mode .& 2 ^ k.
Proof.
  intros Hk Hc. rewrite land_bit by done. unfold read_bit, letter. destruct (tst _ _); [|done].
  by rewrite (proj2 (Z.eqb_neq _ _)).
Qed.

(** Two bits and what four values they have. *)
Lemma read_exec_letter mode k l special both : 0 <= k -> 0 <= l -> k <> l ->
  special <> chr "-" -> special <> chr "x" -> both <> chr "-" -> both <> chr "x" -> both <> special ->
  read_exec (exec_letter mode (2 ^ k) (2 ^ l) special both) (2 ^ k) (2 ^ l) special both = mode .& (2 ^ k .| 2 ^ l).
Proof.
  intros Hk Hl Hkl ?????. unfold exec_letter. rewrite Z.land_lor_distr_r, !land_bit by done.
  pose proof (Z.pow_pos_nonneg 2 k ltac:(lia) Hk). pose proof (Z.pow_pos_nonneg 2 l ltac:(lia) Hl).
  assert (2 ^ k <> 2 ^ l) as Hne by (intros E; apply Hkl; apply (Z.pow_inj_r 2); lia).
  assert (2 ^ k .| 2 ^ l = 2 ^ k + 2 ^ l) as Hor.
  { rewrite Z.add_nocarry_lxor; [symmetry; apply Z.lxor_lor|]; zbits; rewrite ?Z.pow2_bits_eqb by done;
      destruct (Z.eqb_spec k n), (Z.eqb_spec l n); (done || lia). }
  assert (chr "-" <> chr "x") by discriminate.
  set (p := 2 ^ k) in *. set (q := 2 ^ l) in *. unfold read_exec. rewrite ?Hor.
  destruct (tst mode p), (tst mode q); rewrite ?Z.lor_0_r, ?Z.lor_0_l, ?Hor;
    repeat match goal with |- context [?a =? ?b] =>
      lazymatch a with context [Z.eqb] => fail | _ => destruct (Z.eqb_spec a b); try lia end end; done.
Qed.

Lemma read_type_letter mode : known_type mode -> read_type (type_letter mode) = Some (mode .& S_IFMT).
Proof.
  intros [c Hc]. unfold type_letter. set (t := mode .& S_IFMT) in *.
  assert (forallb (fun p => bool_decide (read_type (if p.2 =? S_IFDIR then chr "d"
    else if p.2 =? S_IFCHR then chr "c" else if p.2 =? S_IFBLK then chr "b" else if p.2 =? S_IFREG then chr "-"
    else if p.2 =? S_IFLNK then chr "l" else if p.2 =? S_IFSOCK then chr "s" else if p.2 =? S_IFIFO then chr "p"
    else chr "?") = Some p.2)) types = true) as Hall by (by vm_compute).
  rewrite forallb_forall in Hall. apply list_elem_of_In in Hc. specialize (Hall _ Hc). cbn [snd] in Hall.
  by apply bool_decide_eq_true in Hall.
Qed.

(** The letters of [ls -l] say everything a mode of one of the seven types
    holds: reading them gives the mode back. *)
Theorem strmode_readable mode : known_type mode -> read_mode (strmode mode) = Some (mode .& 0xffff).
Proof.
  intros Hk. unfold strmode, read_mode. rewrite read_type_letter by done. cbn [mbind option_bind].
  change S_IRUSR with (2 ^ 8). change S_IWUSR with (2 ^ 7). change S_IRGRP with (2 ^ 5). change S_IWGRP with (2 ^ 4).
  change S_IROTH with (2 ^ 2). change S_IWOTH with (2 ^ 1). change S_IXUSR with (2 ^ 6). change S_IXGRP with (2 ^ 3).
  change S_IXOTH with (2 ^ 0). change S_ISUID with (2 ^ 11). change S_ISGID with (2 ^ 10). change S_ISTXT with (2 ^ 9).
  rewrite !read_letter by (lia || discriminate).
  rewrite !read_exec_letter by (lia || discriminate).
  f_equal. by rewrite <- !Z.land_lor_distr_r.
Qed.

Lemma strmode_readable_witness : strmode 0x89ed = codes "-rwsr-xr-x " /\ read_mode (strmode 0x89ed) = Some 0x89ed.
Proof.
  split; [reflexivity|]. apply (strmode_readable 0x89ed). exists (chr "-"). do 3 right. left.
Defined.
