(* ===== verification/Zopen.v ===== *)
(** The compress(1) stream (src.freebsd/compress/zopen.c): the LZW writer
    [zwrite]/[zclose] with its double-hashed table, its variable-width code buffer
    and its adaptive reset, and the reader [zread] with the table it rebuilds.
    Accesses to the code buffers, the hash table and the output stack are checked;
    [fwrite] may fail at any point. *)

From stdpp Require Import gmap.
From S2P Require Import Prelude.

Definition BITS : Z := 16.
Definition HSIZE : Z := 69001.
Definition magic_header : list Z := [0x1f; 0x9d].
Definition BIT_MASK : Z := 0x1f.
Definition BLOCK_MASK : Z := 0x80.
Definition INIT_BITS : Z := 9.
Definition MAXCODE (n_bits : Z) : Z := (1 .<< n_bits) - 1.
Definition CHECK_GAP : Z := 10000.
Definition FIRST : Z := 257.
Definition CLEAR : Z := 256.
Definition EINVAL : Z := 22.
Definition EFTYPE : Z := EINVAL.

Definition maxmaxcode (maxbits : Z) : Z := 1 .<< maxbits.
Definition lmask (i : Z) : Z := nth (Z.to_nat i) [0xff; 0xfe; 0xfc; 0xf8; 0xf0; 0xe0; 0xc0; 0x80; 0x00] 0.
Definition rmask (i : Z) : Z := nth (Z.to_nat i) [0x00; 0x01; 0x03; 0x07; 0x0f; 0x1f; 0x3f; 0x7f; 0xff] 0.

Inductive zstate := S_START | S_MIDDLE | S_EOF.

(** * Writing *)

Inductive wres (A : Type) :=
| WOk (a : A)
| WErr        (* -1 *)
| WFault      (* access out of bounds *)
| WLoop.      (* probing not finished *)
Arguments WOk {A}. Arguments WErr {A}. Arguments WFault {A}. Arguments WLoop {A}.

#[export] Instance wres_bind : MBind wres := fun A B f x =>
  match x with WOk a => f a | WErr => WErr | WFault => WFault | WLoop => WLoop end.

(** The code buffer and the file behind it. *)
Record outbuf := OutBuf {
  o_file : list Z; o_n_bits : Z; o_maxcode : Z; o_clear_flg : Z;
  o_offset : Z; o_bytes_out : Z; o_buf : list Z }.

(** The bits of one code at bit [offset]. *)
Definition insert_code (buf : list Z) (offset n_bits ocode : Z) : option (list Z) :=
  let bp := Z.to_nat (offset .>> 3) in
  let r_off := offset .& 7 in
  b ← buf !! bp;
  buf ← awrite buf bp (u8 ((b .& rmask r_off) .| ((ocode .<< r_off) .& lmask r_off)));
  let bp := S bp in
  let bits := u32 (n_bits - (8 - r_off)) in
  let ocode := ocode .>> (8 - r_off) in
  '(buf, bp, bits, ocode) ←
    (if 8 <=? bits then
       buf ← awrite buf bp (u8 ocode); Some (buf, S bp, u32 (bits - 8), ocode .>> 8)
     else Some (buf, bp, bits, ocode));
  if bits =? 0 then Some buf else awrite buf bp (u8 ocode).

Section Write.
(** Whether [fwrite] of the bytes succeeds on a file with this contents. *)
Context (fwrite_ok : list Z -> list Z -> bool).

(** [fwrite(buf, 1, n, fp) != n], [buf] being the code buffer. *)
Definition fwrite_buf (n : Z) (o : outbuf) : wres outbuf :=
  if Z.of_nat (length (o_buf o)) <? n then WFault
  else let data := take (Z.to_nat n) (o_buf o) in
    if fwrite_ok (o_file o) data
    then WOk (OutBuf (o_file o ++ data) (o_n_bits o) (o_maxcode o) (o_clear_flg o)
                     (o_offset o) (o_bytes_out o + n) (o_buf o))
    else WErr.

Definition set_offset (offset : Z) (o : outbuf) : outbuf :=
  OutBuf (o_file o) (o_n_bits o) (o_maxcode o) (o_clear_flg o) offset (o_bytes_out o) (o_buf o).
Definition set_clear (clear_flg : Z) (o : outbuf) : outbuf :=
  OutBuf (o_file o) (o_n_bits o) (o_maxcode o) clear_flg (o_offset o) (o_bytes_out o) (o_buf o).

(** The new code width. *)
Definition next_width (maxbits : Z) (o : outbuf) : outbuf :=
  if negb (o_clear_flg o =? 0) then
    OutBuf (o_file o) INIT_BITS (MAXCODE INIT_BITS) 0 (o_offset o) (o_bytes_out o) (o_buf o)
  else
    let n_bits := u32 (o_n_bits o + 1) in
    OutBuf (o_file o) n_bits (if n_bits =? maxbits then maxmaxcode maxbits else MAXCODE n_bits)
           (o_clear_flg o) (o_offset o) (o_bytes_out o) (o_buf o).

Definition output (maxbits free_ent ocode : Z) (o : outbuf) : wres outbuf :=
  if 0 <=? ocode then
    match insert_code (o_buf o) (o_offset o) (o_n_bits o) ocode with
    | None => WFault
    | Some buf =>
      let o := OutBuf (o_file o) (o_n_bits o) (o_maxcode o) (o_clear_flg o)
                      (u32 (o_offset o + o_n_bits o)) (o_bytes_out o) buf in
      o ← (if o_offset o =? o_n_bits o .<< 3
           then o ← fwrite_buf (o_n_bits o) o; WOk (set_offset 0 o) else WOk o);
      if (o_maxcode o <? free_ent) || (0 <? o_clear_flg o) then
        o ← (if 0 <? o_offset o then fwrite_buf (o_n_bits o) o else WOk o);
        WOk (next_width maxbits (set_offset 0 o))
      else WOk o
    end
  else
    o ← (if 0 <? o_offset o then
           let offset := (o_offset o + 7) / 8 in fwrite_buf offset (set_offset offset o)
         else WOk o);
    WOk (set_offset 0 o).

(** The hash table: [htab] holds -1 where the map has nothing. *)
Record dict := Dict { d_htab : gmap Z Z; d_codetab : gmap Z Z; d_free_ent : Z }.
Definition htabof (d : dict) (i : Z) : Z := default (-1) (d_htab d !! i).
Definition codetabof (d : dict) (i : Z) : Z := default 0 (d_codetab d !! i).
Definition in_table (i : Z) : bool := (0 <=? i) && (i <? HSIZE).

Definition cl_hash (d : dict) (cl_hsize : Z) : dict :=
  Dict (filter (fun e => ~ (0 <= e.1 < cl_hsize)) (d_htab d)) (d_codetab d) (d_free_ent d).

(** Where a search ends: at the code of the string, or at an empty slot. *)
Inductive slot := Found (code : Z) | Empty (i : Z).

(** The loop at [probe]. *)
Fixpoint probe (fuel : nat) (d : dict) (hsize_reg disp fcode i : Z) : wres slot :=
  match fuel with
  | O => WLoop
  | S fuel =>
    let i := i - disp in
    let i := if i <? 0 then i + hsize_reg else i in
    if negb (in_table i) then WFault
    else if htabof d i =? fcode then WOk (Found (codetabof d i))
    else if 0 <=? htabof d i then probe fuel d hsize_reg disp fcode i
    else WOk (Empty i)
  end.

Fixpoint hshift_loop (fuel : nat) (fcode hshift : Z) : Z :=
  match fuel with
  | O => hshift
  | S fuel => if fcode <? 65536 then hshift_loop fuel (fcode * 2) (hshift + 1) else hshift
  end.
Definition hshift_of (hsize : Z) : Z := 8 - hshift_loop 64 hsize 0.

Definition search (d : dict) (maxbits hsize_reg hshift c ent : Z) : wres slot :=
  let fcode := (c .<< maxbits) + ent in
  let i := Z.lxor (c .<< hshift) ent in
  if negb (in_table i) then WFault
  else if htabof d i =? fcode then WOk (Found (codetabof d i))
  else if htabof d i <? 0 then WOk (Empty i)
  else
    let disp := if i =? 0 then 1 else hsize_reg - i in
    probe (Z.to_nat HSIZE) d hsize_reg disp fcode i.

Record zw := ZW {
  w_state : zstate; w_maxbits : Z; w_hsize : Z; w_block_compress : Z;
  w_out : outbuf; w_dict : dict;
  w_ratio : Z; w_checkpoint : Z; w_in_count : Z; w_out_count : Z;
  w_ent : Z; w_hsize_reg : Z; w_hshift : Z }.

Definition set_out (o : outbuf) (z : zw) : zw :=
  ZW (w_state z) (w_maxbits z) (w_hsize z) (w_block_compress z) o (w_dict z) (w_ratio z) (w_checkpoint z)
     (w_in_count z) (w_out_count z) (w_ent z) (w_hsize_reg z) (w_hshift z).
Definition set_dict (d : dict) (z : zw) : zw :=
  ZW (w_state z) (w_maxbits z) (w_hsize z) (w_block_compress z) (w_out z) d (w_ratio z) (w_checkpoint z)
     (w_in_count z) (w_out_count z) (w_ent z) (w_hsize_reg z) (w_hshift z).
Definition set_stats (ratio checkpoint in_count out_count : Z) (z : zw) : zw :=
  ZW (w_state z) (w_maxbits z) (w_hsize z) (w_block_compress z) (w_out z) (w_dict z) ratio checkpoint
     in_count out_count (w_ent z) (w_hsize_reg z) (w_hshift z).
Definition set_ent (ent : Z) (z : zw) : zw :=
  ZW (w_state z) (w_maxbits z) (w_hsize z) (w_block_compress z) (w_out z) (w_dict z) (w_ratio z) (w_checkpoint z)
     (w_in_count z) (w_out_count z) ent (w_hsize_reg z) (w_hshift z).

Definition zoutput (ocode : Z) (z : zw) : wres zw :=
  o ← output (w_maxbits z) (d_free_ent (w_dict z)) ocode (w_out z); WOk (set_out o z).

Definition cl_block (z : zw) : wres zw :=
  let in_count := w_in_count z in
  let checkpoint := in_count + CHECK_GAP in
  let bytes_out := o_bytes_out (w_out z) in
  let rat :=
    if 0x007fffff <? in_count then
      let rat := bytes_out .>> 8 in if rat =? 0 then 0x7fffffff else Z.quot in_count rat
    else Z.quot (in_count .<< 8) bytes_out in
  if w_ratio z <? rat then WOk (set_stats rat checkpoint in_count (w_out_count z) z)
  else
    let z := set_stats 0 checkpoint in_count (w_out_count z) z in
    let d := cl_hash (w_dict z) (w_hsize z) in
    let z := set_dict (Dict (d_htab d) (d_codetab d) FIRST) z in
    zoutput CLEAR (set_out (set_clear 1 (w_out z)) z).

(** One character at [middle]. *)
Definition zwrite_char (c : Z) (z : zw) : wres zw :=
  let z := set_stats (w_ratio z) (w_checkpoint z) (w_in_count z + 1) (w_out_count z) z in
  let fcode := (c .<< w_maxbits z) + w_ent z in
  s ← search (w_dict z) (w_maxbits z) (w_hsize_reg z) (w_hshift z) c (w_ent z);
  match s with
  | Found code => WOk (set_ent code z)
  | Empty i =>
    z ← zoutput (w_ent z) z;
    let z := set_ent c (set_stats (w_ratio z) (w_checkpoint z) (w_in_count z) (w_out_count z + 1) z) in
    let d := w_dict z in
    if d_free_ent d <? maxmaxcode (w_maxbits z) then
      WOk (set_dict (Dict (<[i := fcode]> (d_htab d)) (<[i := d_free_ent d]> (d_codetab d)) (d_free_ent d + 1)) z)
    else if (w_checkpoint z <=? w_in_count z) && negb (w_block_compress z =? 0) then cl_block z
    else WOk z
  end.

Fixpoint zwrite_loop (bp : list Z) (z : zw) : wres zw :=
  match bp with
  | [] => WOk z
  | c :: bp => z ← zwrite_char c z; zwrite_loop bp z
  end.

(** The bytes are those of the caller's buffer; 0 on an empty buffer.  The code keeps
    their number in an int: the model is exact below 2^31 bytes. *)
Definition zwrite (bp : list Z) (z : zw) : wres zw :=
  match bp with
  | [] => WOk z
  | c :: bp' =>
    match w_state z with
    | S_START =>
      let o := w_out z in
      let tmp := u8 (w_maxbits z .| w_block_compress z) in
      if negb (fwrite_ok (o_file o) magic_header) then WErr
      else if negb (fwrite_ok (o_file o ++ magic_header) [tmp]) then WErr
      else
        let o := OutBuf (o_file o ++ magic_header ++ [tmp]) INIT_BITS (MAXCODE INIT_BITS) 0 0 3 (o_buf o) in
        let free_ent := if w_block_compress z =? 0 then 256 else FIRST in
        let d := cl_hash (w_dict z) (w_hsize z) in
        let d := Dict (d_htab d) (d_codetab d) free_ent in
        zwrite_loop bp' (ZW S_MIDDLE (w_maxbits z) (w_hsize z) (w_block_compress z) o d 0 CHECK_GAP 1 0
                            c (w_hsize z) (hshift_of (w_hsize z)))
    | _ => zwrite_loop bp z
    end
  end.

(** [zclose] of a stream opened for writing, [fclose] succeeding: the file. *)
Definition zclose (z : zw) : wres (list Z) :=
  z ← zoutput (w_ent z) z;
  z ← zoutput (-1) z;
  WOk (o_file (w_out z)).

(** [zopen(fname, "w", bits, NULL)]: the state behind the stream, the file being
    open and empty; the fields [calloc] has cleared are zero. *)
Definition zopen_write (bits : Z) : option zw :=
  if (bits <? 0) || (BITS <? bits) then None
  else
    let maxbits := if bits =? 0 then BITS else bits in
    Some (ZW S_START maxbits HSIZE BLOCK_MASK (OutBuf [] 0 0 0 0 0 (replicate 16 0)) (Dict ∅ ∅ 0)
             0 CHECK_GAP 1 0 0 0 0).

(** A whole compression: open, write each buffer, close. *)
Definition compress (bits : Z) (bufs : list (list Z)) : option (wres (list Z)) :=
  z ← zopen_write bits;
  Some (z ← foldl (fun z bp => z ← z; zwrite bp z) (WOk z) bufs; zclose z).

End Write.

(** * Reading *)

(** The bits of the file: what is left of it, and the current group of codes. *)
Record inbuf := InBuf {
  i_file : list Z; i_n_bits : Z; i_maxcode : Z; i_clear_flg : Z;
  i_roffset : Z; i_size : Z; i_gbuf : list Z }.

(** The code at bit [roffset]. *)
Definition extract_code (gbuf : list Z) (roffset n_bits : Z) : option Z :=
  let bp := Z.to_nat (roffset .>> 3) in
  let r_off := roffset .& 7 in
  b ← gbuf !! bp;
  let gcode := b .>> r_off in
  let bp := S bp in
  let bits := n_bits - (8 - r_off) in
  let r_off := 8 - r_off in
  '(gcode, bp, bits, r_off) ←
    (if 8 <=? bits then
       b ← gbuf !! bp; Some (gcode .| (b .<< r_off), S bp, bits - 8, r_off + 8)
     else Some (gcode, bp, bits, r_off));
  if 0 <? bits then b ← gbuf !! bp; Some (gcode .| ((b .& rmask bits) .<< r_off)) else Some gcode.

(** [fread(gbuf, 1, n, fp)]: the bytes it delivers, at the start of the buffer. *)
Definition fread_group (n : Z) (s : inbuf) : inbuf :=
  let data := take (Z.to_nat n) (i_file s) in
  InBuf (drop (Z.to_nat n) (i_file s)) (i_n_bits s) (i_maxcode s) (i_clear_flg s) (i_roffset s)
        (Z.of_nat (length data)) (data ++ drop (length data) (i_gbuf s)).

Definition set_width (n_bits maxcode clear_flg : Z) (s : inbuf) : inbuf :=
  InBuf (i_file s) n_bits maxcode clear_flg (i_roffset s) (i_size s) (i_gbuf s).
Definition set_position (roffset size : Z) (s : inbuf) : inbuf :=
  InBuf (i_file s) (i_n_bits s) (i_maxcode s) (i_clear_flg s) roffset size (i_gbuf s).

(** The code, or -1 at the end of the file; [None] for an access out of bounds. *)
Definition getcode (maxbits free_ent : Z) (s : inbuf) : option (Z * inbuf) :=
  let take_code s :=
    gcode ← extract_code (i_gbuf s) (i_roffset s) (i_n_bits s);
    Some (gcode, set_position (i_roffset s + i_n_bits s) (i_size s) s) in
  if (0 <? i_clear_flg s) || (i_size s <=? i_roffset s) || (i_maxcode s <? free_ent) then
    let s := if i_maxcode s <? free_ent then
               let n_bits := u32 (i_n_bits s + 1) in
               set_width n_bits (if n_bits =? maxbits then maxmaxcode maxbits else MAXCODE n_bits) (i_clear_flg s) s
             else s in
    let s := if 0 <? i_clear_flg s then set_width INIT_BITS (MAXCODE INIT_BITS) 0 s else s in
    if Z.of_nat (length (i_gbuf s)) <? i_n_bits s then None
    else
      let s := fread_group (i_n_bits s) s in
      if i_size s <=? 0 then Some (-1, s)
      else take_code (set_position 0 ((i_size s .<< 3) - (i_n_bits s - 1)) s)
  else take_code s.

(** The table: [tab_prefix] and [tab_suffix], zero where nothing was stored. *)
Record table := Table { t_prefix : gmap Z Z; t_suffix : gmap Z Z; t_free_ent : Z }.
Definition tab_prefixof (t : table) (i : Z) : Z := default 0 (t_prefix t !! i).
Definition tab_suffixof (t : table) (i : Z) : Z := default 0 (t_suffix t !! i).

Definition codes256 : list Z := map Z.of_nat (seq 0 256).
Definition zero_prefixes (t : table) (free_ent : Z) : table :=
  Table (foldl (fun m code => <[code := 0]> m) (t_prefix t) codes256) (t_suffix t) free_ent.
Definition init_table (t : table) (free_ent : Z) : table :=
  let t := zero_prefixes t free_ent in
  Table (t_prefix t) (foldl (fun m code => <[code := code]> m) (t_suffix t) codes256) free_ent.

(** The output stack, in the rest of the memory of [htab] (8 bytes an entry),
    behind the 2^BITS suffixes: its characters, the top first. *)
Definition STACK_SIZE : Z := HSIZE * 8 - (1 .<< BITS).

(** [while (code >= 256)]: the stack with its depth and the last code. *)
Fixpoint push_string (fuel : nat) (t : table) (code : Z) (stack : list Z) (depth : Z)
    : option (list Z * Z * Z) :=
  match fuel with
  | O => None
  | S fuel =>
    if 256 <=? code then
      if STACK_SIZE <=? depth then None
      else push_string fuel t (tab_prefixof t code) (tab_suffixof t code :: stack) (depth + 1)
    else Some (stack, depth, code)
  end.

(** [r_stackp] is [None] before it is set. *)
Record zr := ZR {
  r_state : zstate; r_maxbits : Z; r_block_compress : Z; r_in : inbuf; r_table : table;
  r_stackp : option (list Z); r_finchar : Z; r_oldcode : Z; r_incode : Z }.

Inductive rres :=
| RRet (data : list Z) (z : zr)    (* the bytes delivered *)
| RErr (errno : Z) (z : zr)        (* -1 *)
| RFault                           (* access out of bounds *)
| RFuel.                           (* not finished *)

(** The loop at [middle]: the bytes, and the stack or [None] if it is used up. *)
Inductive drained :=
| DFull (data stack : list Z)          (* the buffer is full *)
| DEmpty (data : list Z) (count : Z)   (* the stack is used up, room for [count] *)
| DFault.                              (* read below the stack *)
Fixpoint drain (stack : list Z) (count : Z) : drained :=
  if count =? 0 then DFull [] stack
  else match stack with
       | [] => DFault
       | c :: stack =>
         match stack with
         | [] => DEmpty [c] (count - 1)
         | _ => match drain stack (count - 1) with
                | DFull data stack => DFull (c :: data) stack
                | DEmpty data count => DEmpty (c :: data) count
                | DFault => DFault
                end
         end
       end.

(** The new entry, when there is room and a previous code. *)
Definition new_entry (maxbits oldcode finchar : Z) (t : table) : table :=
  let code := t_free_ent t in
  if (code <? maxmaxcode maxbits) && negb (oldcode =? -1) then
    Table (<[code := u16 oldcode]> (t_prefix t)) (<[code := u8 finchar]> (t_suffix t)) (code + 1)
  else t.

(** What the loop does with one code: the stack it leaves, or an error. *)
Inductive decoded :=
| DString (stack : list Z) (finchar : Z)
| DBad
| DOverrun.
Definition decode (t : table) (oldcode finchar code : Z) (stack : list Z) : decoded :=
  let emit code stack :=
    match push_string (S (Z.to_nat STACK_SIZE)) t code stack (Z.of_nat (length stack)) with
    | None => DOverrun
    | Some (stack, depth, code) =>
      if STACK_SIZE <=? depth then DOverrun
      else DString (tab_suffixof t code :: stack) (tab_suffixof t code)
    end in
  if t_free_ent t <=? code then
    if (t_free_ent t <? code) || (oldcode =? -1) then DBad
    else if STACK_SIZE <=? Z.of_nat (length stack) then DOverrun
    else emit oldcode (u8 finchar :: stack)
  else emit code stack.

(** The outer loop from its test, and from [middle]; [count] bytes are wanted. *)
Fixpoint zread_loop (fuel : nat) (count : Z) (z : zr) : rres :=
  match fuel with
  | O => RFuel
  | S fuel =>
    match getcode (r_maxbits z) (t_free_ent (r_table z)) (r_in z) with
    | None => RFault
    | Some (code, s) =>
      if code <=? -1 then
        RRet [] (ZR S_EOF (r_maxbits z) (r_block_compress z) s (r_table z) (r_stackp z)
                    (r_finchar z) (r_oldcode z) (r_incode z))
      else if (code =? CLEAR) && negb (r_block_compress z =? 0) then
        zread_loop fuel count
          (ZR S_MIDDLE (r_maxbits z) (r_block_compress z) (set_width (i_n_bits s) (i_maxcode s) 1 s)
              (zero_prefixes (r_table z) FIRST) (r_stackp z) (r_finchar z) (-1) (r_incode z))
      else
        match decode (r_table z) (r_oldcode z) (r_finchar z) code (default [] (r_stackp z)) with
        | DBad => RErr EINVAL (ZR S_MIDDLE (r_maxbits z) (r_block_compress z) s (r_table z) (r_stackp z)
                                  (r_finchar z) (r_oldcode z) code)
        | DOverrun => RFault
        | DString stack finchar =>
          let z := ZR S_MIDDLE (r_maxbits z) (r_block_compress z) s (r_table z) (Some stack)
                      finchar (r_oldcode z) code in
          match drain stack count with
          | DFault => RFault
          | DFull data stack =>
            RRet data (ZR S_MIDDLE (r_maxbits z) (r_block_compress z) (r_in z) (r_table z) (Some stack)
                          (r_finchar z) (r_oldcode z) (r_incode z))
          | DEmpty data count =>
            let t := new_entry (r_maxbits z) (r_oldcode z) (r_finchar z) (r_table z) in
            match zread_loop fuel count
                    (ZR S_MIDDLE (r_maxbits z) (r_block_compress z) (r_in z) t (Some [])
                        (r_finchar z) (r_incode z) (r_incode z)) with
            | RRet data' z => RRet (data ++ data') z
            | r => r
            end
          end
        end
    end
  end.

(** Entering the loop at [middle]. *)
Definition zread_middle (fuel : nat) (count : Z) (z : zr) : rres :=
  match r_stackp z with
  | None => RFault
  | Some stack =>
    match drain stack count with
    | DFault => RFault
    | DFull data stack =>
      RRet data (ZR S_MIDDLE (r_maxbits z) (r_block_compress z) (r_in z) (r_table z) (Some stack)
                    (r_finchar z) (r_oldcode z) (r_incode z))
    | DEmpty data count =>
      let t := new_entry (r_maxbits z) (r_oldcode z) (r_finchar z) (r_table z) in
      match zread_loop fuel count
              (ZR S_MIDDLE (r_maxbits z) (r_block_compress z) (r_in z) t (Some [])
                  (r_finchar z) (r_incode z) (r_incode z)) with
      | RRet data' z => RRet (data ++ data') z
      | r => r
      end
    end
  end.

(** The header and the first code. *)
Definition zread_start (fuel : nat) (count : Z) (z : zr) : rres :=
  let s := r_in z in
  let header := take 3 (i_file s) in
  let s := InBuf (drop 3 (i_file s)) (i_n_bits s) (i_maxcode s) (i_clear_flg s) (i_roffset s) (i_size s) (i_gbuf s) in
  let started maxbits block_compress s t oldcode finchar stackp :=
    ZR S_MIDDLE maxbits block_compress s t stackp finchar oldcode (r_incode z) in
  if negb (length header =? 3)%nat || negb (bool_decide (take 2 header = magic_header)) then
    RErr EFTYPE (started (r_maxbits z) (r_block_compress z) s (r_table z) (r_oldcode z) (r_finchar z) (r_stackp z))
  else
    let maxbits := nth 2 header 0 in
    let block_compress := maxbits .& BLOCK_MASK in
    let maxbits := maxbits .& BIT_MASK in
    if (BITS <? maxbits) || (maxbits <? 12) then
      RErr EFTYPE (started maxbits block_compress s (r_table z) (r_oldcode z) (r_finchar z) (r_stackp z))
    else
      let s := set_width INIT_BITS (MAXCODE INIT_BITS) (i_clear_flg s) s in
      let t := init_table (r_table z) (if block_compress =? 0 then 256 else FIRST) in
      match getcode maxbits (t_free_ent t) s with
      | None => RFault
      | Some (oldcode, s) =>
        if oldcode =? -1 then RRet [] (started maxbits block_compress s t oldcode oldcode (r_stackp z))
        else
          match zread_loop fuel (count - 1) (started maxbits block_compress s t oldcode oldcode (Some [])) with
          | RRet data z => RRet (u8 oldcode :: data) z
          | r => r
          end
      end.

(** Codes are at least eight bits, so that this many suffice. *)
Definition read_fuel (z : zr) : nat := S (length (i_file (r_in z)) + length (i_gbuf (r_in z))).

(** The code keeps [num] in a u_int: the model is exact below 2^32 bytes. *)
Definition zread (z : zr) (num : Z) : rres :=
  if num =? 0 then RRet [] z
  else match r_state z with
       | S_START => zread_start (read_fuel z) num z
       | S_MIDDLE => zread_middle (read_fuel z) num z
       | S_EOF => RRet [] z
       end.

(** [zopen(fname, "r", 0, NULL)] on a file with these contents. *)
Definition zopen_read (file : list Z) : zr :=
  ZR S_START BITS BLOCK_MASK (InBuf file 0 0 0 0 0 (replicate 16 0)) (Table ∅ ∅ 0) None 0 0 0.
