(* ===== verification/ZopenBits.v ===== *)
(** The bits of the code groups: what [insert_code] puts into the buffer is what
    [extract_code] takes out, at every offset and width. *)

From stdpp Require Import gmap.
From S2P Require Import Prelude Zopen.

Definition byte_at (buf : list Z) (k : Z) : Z := default 0 (buf !! Z.to_nat k).

(** Bit [i] of the group, the low bits of each byte first. *)
Definition gbit (buf : list Z) (i : Z) : bool := Z.testbit (byte_at buf (i / 8)) (i mod 8).

Definition bytes (buf : list Z) : Prop := Forall (fun b => 0 <= b < 256) buf.

(** The [n] bits at [off] are the code [c]. *)
Definition holds (buf : list Z) (off n c : Z) : Prop :=
  0 <= c < 2 ^ n /\ forall i, 0 <= i < n -> Z.testbit c i = gbit buf (off + i).

Lemma holds_unique buf off n c c' : 0 <= n -> holds buf off n c -> holds buf off n c' -> c = c'.
Proof.
  intros Hn [[H1 H2] Hc] [[H1' H2'] Hc']. apply Z.bits_inj'. intros i Hi. destruct (Z.ltb_spec i n).
  - by rewrite Hc, Hc' by lia.
  - rewrite <- (Z.mod_small c (2 ^ n)), <- (Z.mod_small c' (2 ^ n)) by lia. by rewrite !Z.mod_pow2_bits_high by lia.
Qed.

Lemma holds_ext buf buf' off n c : (forall i, 0 <= i < n -> gbit buf (off + i) = gbit buf' (off + i)) ->
  holds buf off n c -> holds buf' off n c.
Proof. intros H [Hr Hc]. split; [done|]. intros i Hi. by rewrite Hc, H. Qed.

Lemma bytes_bit buf k j : bytes buf -> 8 <= j -> Z.testbit (byte_at buf k) j = false.
Proof.
  intros Hb Hj. unfold byte_at. destruct (buf !! Z.to_nat k) as [b|] eqn:E; cbn; [|apply Z.bits_0].
  unfold bytes in Hb. rewrite Forall_lookup in Hb. specialize (Hb _ _ E).
  rewrite <- (Z.mod_small b (2 ^ 8)) by lia. by apply Z.mod_pow2_bits_high.
Qed.

Lemma byte_lookup buf k : 0 <= k < Z.of_nat (length buf) -> buf !! Z.to_nat k = Some (byte_at buf k).
Proof.
  intros Hk. unfold byte_at. destruct (lookup_lt_is_Some_2 buf (Z.to_nat k)) as [b ->]; [lia|done].
Qed.

Lemma byte_lookup_S buf k : 0 <= k < Z.of_nat (length buf) - 1 -> buf !! S (Z.to_nat k) = Some (byte_at buf (k + 1)).
Proof. intros Hk. rewrite <- byte_lookup by lia. f_equal. lia. Qed.

Lemma u8_bit z j : 0 <= j -> Z.testbit (u8 z) j = (j <? 8) && Z.testbit z j.
Proof.
  intros Hj. unfold u8. destruct (Z.ltb_spec j 8).
  - by rewrite Z.mod_pow2_bits_low.
  - by rewrite Z.mod_pow2_bits_high.
Qed.

Lemma rmask_ones i : 0 <= i <= 8 -> rmask i = Z.ones i.
Proof.
  intros Hi. assert (forallb (fun i => rmask i =? Z.ones i) (map Z.of_nat (seq 0 9)) = true) as H by reflexivity.
  rewrite forallb_forall in H. apply Z.eqb_eq, H, in_map_iff. exists (Z.to_nat i).
  split; [lia|]. apply in_seq. lia.
Qed.

Lemma lmask_bit i j : 0 <= i <= 8 -> 0 <= j < 8 -> Z.testbit (lmask i) j = (i <=? j).
Proof.
  intros Hi Hj.
  assert (forallb (fun i => forallb (fun j => Bool.eqb (Z.testbit (lmask i) j) (i <=? j))
    (map Z.of_nat (seq 0 8))) (map Z.of_nat (seq 0 9)) = true) as H by reflexivity.
  rewrite forallb_forall in H. assert (In i (map Z.of_nat (seq 0 9))) as Hin.
  { apply in_map_iff. exists (Z.to_nat i). split; [lia|]. apply in_seq. lia. }
  specialize (H i Hin). cbv beta in H. rewrite forallb_forall in H. apply Bool.eqb_prop, H, in_map_iff.
  exists (Z.to_nat j). split; [lia|]. apply in_seq. lia.
Qed.

Lemma ones_bit i j : 0 <= i -> 0 <= j -> Z.testbit (Z.ones i) j = (j <? i).
Proof.
  intros Hi Hj. destruct (Z.ltb_spec j i); [by apply Z.ones_spec_low|by apply Z.ones_spec_high].
Qed.

(** Where bit [off + i] is. *)
Lemma gbit_at buf r m i : 0 <= m < 8 -> 0 <= i ->
  gbit buf (8 * r + m + i) =
    (if m + i <? 8 then Z.testbit (byte_at buf r) (m + i)
     else if m + i <? 16 then Z.testbit (byte_at buf (r + 1)) (m + i - 8)
     else if m + i <? 24 then Z.testbit (byte_at buf (r + 2)) (m + i - 16)
     else gbit buf (8 * r + m + i)).
Proof.
  intros Hm Hi. destruct (Z.ltb_spec (m + i) 8); [|destruct (Z.ltb_spec (m + i) 16); [|destruct (Z.ltb_spec (m + i) 24); [|done]]];
    unfold gbit; f_equal; try (f_equal); Z.to_euclidean_division_equations; lia.
Qed.

Lemma off_split off : 0 <= off -> off .>> 3 = off / 8 /\ off .& 7 = off mod 8 /\ off = 8 * (off / 8) + off mod 8 /\
  0 <= off mod 8 < 8 /\ 0 <= off / 8.
Proof.
  intros H. rewrite Z.shiftr_div_pow2 by lia. change 7 with (Z.ones 3). rewrite Z.land_ones by lia.
  change (2 ^ 3) with 8. pose proof (Z.div_mod off 8). pose proof (Z.mod_pos_bound off 8).
  pose proof (Z.div_pos off 8). split_and!; lia.
Qed.

(** Bits of shifted words, with the guards written out. *)
Lemma shl_bit z k j : 0 <= k -> 0 <= j -> Z.testbit (z .<< k) j = (k <=? j) && Z.testbit z (j - k).
Proof.
  intros Hk Hj. destruct (Z.leb_spec k j).
  - by rewrite Z.shiftl_spec by lia.
  - by rewrite Z.shiftl_spec_low by lia.
Qed.
Lemma shr_bit z k j : 0 <= k -> 0 <= j -> Z.testbit (z .>> k) j = Z.testbit z (j + k).
Proof. intros Hk Hj. by apply Z.shiftr_spec. Qed.

(** A word without bits from [n] on is below [2 ^ n]. *)
Lemma bits_bound z n : 0 <= n -> 0 <= z -> (forall j, n <= j -> Z.testbit z j = false) -> 0 <= z < 2 ^ n.
Proof.
  intros Hn Hz H. split; [done|]. destruct (Z.ltb_spec z (2 ^ n)) as [|Hge]; [done|exfalso].
  assert (0 < 2 ^ n) by (apply Z.pow_pos_nonneg; lia). assert (0 < z) by lia.
  specialize (H (Z.log2 z)). rewrite Z.bit_log2 in H by done. assert (n <= Z.log2 z); [|naive_solver].
  rewrite <- (Z.log2_pow2 n) by done. by apply Z.log2_le_mono.
Qed.

Ltac bitcases :=
  repeat match goal with
  | |- context [?a <? ?b] => destruct (Z.ltb_spec a b); try lia
  | |- context [?a <=? ?b] => destruct (Z.leb_spec a b); try lia
  end; cbn [andb orb].

(** Both sides in the same byte, case by case. *)
Ltac bitsolve :=
  bitcases; rewrite ?Z.land_spec, ?ones_bit by lia; bitcases;
  repeat match goal with
  | H : forall k j, 8 <= j -> Z.testbit (byte_at _ k) j = false |- context [Z.testbit (byte_at ?b ?k) ?j] =>
      rewrite (H k j) by lia
  end; rewrite ?orb_false_r, ?andb_true_r, ?andb_false_r; cbn [andb orb]; try reflexivity; try (f_equal; lia).

Lemma extract_code_holds buf off n : bytes buf -> 9 <= n <= 16 -> 0 <= off -> off + n <= 8 * Z.of_nat (length buf) ->
  exists c, extract_code buf off n = Some c /\ holds buf off n c.
Proof.
  intros Hb Hn Ho Hl. unfold extract_code. destruct (off_split off Ho) as (-> & -> & Hoff & Hm & Hr).
  set (r := off / 8) in *. set (m := off mod 8) in *.
  rewrite byte_lookup by lia. cbn [mbind option_bind].
  assert (forall k j, 8 <= j -> Z.testbit (byte_at buf k) j = false) as Hhigh by (intros k j Hj; by apply bytes_bit).
  assert (forall k, 0 <= byte_at buf k) as Hpos.
  { intros k. unfold byte_at. destruct (buf !! Z.to_nat k) as [b|] eqn:E; cbn; [|lia].
    unfold bytes in Hb. rewrite Forall_lookup in Hb. specialize (Hb _ _ E). lia. }
  assert (forall g, 0 <= g -> (forall j, 0 <= j -> Z.testbit g j = (j <? n) && gbit buf (off + j)) -> holds buf off n g) as Hholds.
  { intros g Hg Hbits. split.
    - apply bits_bound; [lia|done|]. intros j Hj. rewrite Hbits by lia. by rewrite (proj2 (Z.ltb_ge j n)) by lia.
    - intros i Hi. rewrite Hbits by lia. by rewrite (proj2 (Z.ltb_lt i n)) by lia. }
  destruct (Z.leb_spec 8 (n - (8 - m))) as [Hge|Hlt].
  - rewrite byte_lookup_S by lia. cbn [mbind option_bind].
    destruct (Z.ltb_spec 0 (n - (8 - m) - 8)) as [Hge2|Hlt2].
    + replace (S (S (Z.to_nat r))) with (S (Z.to_nat (r + 1))) by lia.
      rewrite byte_lookup_S by lia. cbn [mbind option_bind]. eexists. split; [reflexivity|].
      replace (r + 1 + 1) with (r + 2) by lia. apply Hholds.
      { rewrite !Z.lor_nonneg, !Z.shiftl_nonneg, Z.shiftr_nonneg, Z.land_nonneg. auto. }
      intros j Hj. rewrite Hoff, gbit_at by lia. rewrite rmask_ones by lia.
      rewrite !Z.lor_spec, !shl_bit, shr_bit by lia. bitsolve.
    + eexists. split; [reflexivity|]. apply Hholds.
      { rewrite !Z.lor_nonneg, !Z.shiftl_nonneg, Z.shiftr_nonneg. auto. }
      intros j Hj. rewrite Hoff, gbit_at by lia.
      rewrite !Z.lor_spec, !shl_bit, shr_bit by lia. bitsolve.
  - cbn [mbind option_bind]. rewrite (proj2 (Z.ltb_lt 0 _)) by lia. rewrite byte_lookup_S by lia. cbn [mbind option_bind].
    eexists. split; [reflexivity|]. apply Hholds.
    { rewrite !Z.lor_nonneg, !Z.shiftl_nonneg, Z.shiftr_nonneg, Z.land_nonneg. auto. }
    intros j Hj. rewrite Hoff, gbit_at by lia. rewrite rmask_ones by lia.
    rewrite !Z.lor_spec, !shl_bit, shr_bit by lia. bitsolve.
Qed.

(** Stores into the group. *)
Definition put (buf : list Z) (k v : Z) : list Z := <[Z.to_nat k := v]> buf.

Lemma awrite_put buf k v p : 0 <= k < Z.of_nat (length buf) -> p = Z.to_nat k -> awrite buf p v = Some (put buf k v).
Proof. intros Hk ->. apply awrite_Some. lia. Qed.
Lemma length_put buf k v : length (put buf k v) = length buf.
Proof. apply length_insert. Qed.
Lemma byte_at_put buf k v j : 0 <= k < Z.of_nat (length buf) -> 0 <= j ->
  byte_at (put buf k v) j = if k =? j then v else byte_at buf j.
Proof.
  intros Hk Hj. unfold byte_at, put. destruct (Z.eqb_spec k j) as [->|Hne].
  - by rewrite list_lookup_insert_eq by lia.
  - by rewrite list_lookup_insert_ne by lia.
Qed.
Lemma bytes_put buf k v : bytes buf -> bytes (put buf k (u8 v)).
Proof. intros Hb. apply Forall_insert; [done|]. pose proof (u8_range v). lia. Qed.

Lemma pow2_bit_high c n j : 0 <= n -> 0 <= c < 2 ^ n -> n <= j -> Z.testbit c j = false.
Proof. intros Hn Hc Hj. rewrite <- (Z.mod_small c (2 ^ n)) by done. by apply Z.mod_pow2_bits_high. Qed.

Lemma insert_code_spec buf off n c : bytes buf -> 9 <= n <= 16 -> 0 <= off -> off + n <= 8 * Z.of_nat (length buf) ->
  0 <= c < 2 ^ n ->
  exists buf', insert_code buf off n c = Some buf' /\ length buf' = length buf /\ bytes buf' /\
    holds buf' off n c /\ forall i, 0 <= i < off -> gbit buf' i = gbit buf i.
Proof.
  intros Hb Hn Ho Hl Hc. unfold insert_code. destruct (off_split off Ho) as (-> & -> & Hoff & Hm & Hr).
  set (r := off / 8) in *. set (m := off mod 8) in *.
  rewrite byte_lookup by lia. cbn [mbind option_bind].
  rewrite (awrite_put _ r) by lia. cbn [mbind option_bind].
  set (v0 := (byte_at buf r .& rmask m) .| ((c .<< m) .& lmask m)). set (b1 := put buf r (u8 v0)).
  assert (length b1 = length buf) as Hl1 by apply length_put.
  assert (u32 (n - (8 - m)) = n - (8 - m)) as -> by (apply u32_small; lia).
  assert (forall j, 0 <= j < 8 -> Z.testbit (u8 v0) j = if j <? m then Z.testbit (byte_at buf r) j else Z.testbit c (j - m)) as Hv0.
  { intros j Hj. unfold v0. rewrite u8_bit, Z.lor_spec, !Z.land_spec, rmask_ones, ones_bit, lmask_bit, shl_bit by lia.
    bitcases; rewrite ?andb_false_r, ?andb_true_r, ?orb_false_r; done. }
  (* a final buffer that has the right bytes at [r], [r + 1], [r + 2] is right *)
  assert (forall b', length b' = length buf -> bytes b' ->
    (forall j, 0 <= j < r -> byte_at b' j = byte_at buf j) -> byte_at b' r = u8 v0 ->
    (forall j, 0 <= j < 8 -> 8 - m + j < n -> Z.testbit (byte_at b' (r + 1)) j = Z.testbit c (8 - m + j)) ->
    (forall j, 0 <= j < 8 -> 16 - m + j < n -> Z.testbit (byte_at b' (r + 2)) j = Z.testbit c (16 - m + j)) ->
    length b' = length buf /\ bytes b' /\ holds b' off n c /\ forall i, 0 <= i < off -> gbit b' i = gbit buf i) as Hfin.
  { intros b' Hl' Hb' Hlow H0 H1 H2. split_and!; try done.
    - split; [done|]. intros i Hi. rewrite Hoff, gbit_at, H0 by lia.
      bitcases; [rewrite Hv0 by lia|rewrite H1 by lia|rewrite H2 by lia]; bitcases; f_equal; lia.
    - intros i Hi. unfold gbit. destruct (Z.ltb_spec (i / 8) r) as [Hlt|Hge].
      + rewrite Hlow; [done|]. Z.to_euclidean_division_equations; lia.
      + assert (i / 8 = r /\ 0 <= i mod 8 < m) as [-> Hj] by (Z.to_euclidean_division_equations; lia).
        rewrite H0, Hv0 by lia. by rewrite (proj2 (Z.ltb_lt _ _)) by lia. }
  destruct (Z.leb_spec 8 (n - (8 - m))) as [Hge|Hlt].
  - rewrite (awrite_put _ (r + 1)) by lia. cbn [mbind option_bind].
    set (b2 := put b1 (r + 1) _). assert (length b2 = length buf) as Hl2 by (unfold b2; by rewrite length_put).
    assert (u32 (n - (8 - m) - 8) = n - (8 - m) - 8) as -> by (apply u32_small; lia).
    destruct (Z.eqb_spec (n - (8 - m) - 8) 0) as [Hz|Hz].
    + eexists. split; [reflexivity|]. apply Hfin; [done|by apply bytes_put, bytes_put| | | |].
      * intros j Hj. unfold b2, b1. rewrite !byte_at_put by (rewrite ?length_put; lia).
        by rewrite !(proj2 (Z.eqb_neq _ _)) by lia.
      * unfold b2, b1. rewrite !byte_at_put by (rewrite ?length_put; lia).
        by rewrite (proj2 (Z.eqb_neq _ _)), Z.eqb_refl by lia.
      * intros j Hj1 Hj2. unfold b2. rewrite byte_at_put, Z.eqb_refl, u8_bit, shr_bit by lia.
        rewrite (proj2 (Z.ltb_lt _ _)) by lia. cbn [andb]. f_equal. lia.
      * lia.
    + rewrite (awrite_put _ (r + 2)) by lia. eexists. split; [reflexivity|].
      apply Hfin; [by rewrite length_put|by apply bytes_put, bytes_put, bytes_put| | | |].
      * intros j Hj. unfold b2, b1. rewrite !byte_at_put by (rewrite ?length_put; lia).
        by rewrite !(proj2 (Z.eqb_neq _ _)) by lia.
      * unfold b2, b1. rewrite !byte_at_put by (rewrite ?length_put; lia).
        by rewrite !(proj2 (Z.eqb_neq _ r)), Z.eqb_refl by lia.
      * intros j Hj1 Hj2. unfold b2. rewrite !byte_at_put by (rewrite ?length_put; lia).
        rewrite (proj2 (Z.eqb_neq _ _)), Z.eqb_refl, u8_bit, shr_bit by lia.
        rewrite (proj2 (Z.ltb_lt _ _)) by lia. cbn [andb]. f_equal. lia.
      * intros j Hj1 Hj2. rewrite byte_at_put, Z.eqb_refl, u8_bit, !shr_bit by lia.
        rewrite (proj2 (Z.ltb_lt _ _)) by lia. cbn [andb]. f_equal. lia.
  - cbn [mbind option_bind]. rewrite (proj2 (Z.eqb_neq _ _)) by lia.
    rewrite (awrite_put _ (r + 1)) by lia. eexists. split; [reflexivity|].
    apply Hfin; [by rewrite length_put|by apply bytes_put, bytes_put| | | |].
    + intros j Hj. unfold b1. rewrite !byte_at_put by (rewrite ?length_put; lia).
      by rewrite !(proj2 (Z.eqb_neq _ _)) by lia.
    + unfold b1. rewrite !byte_at_put by (rewrite ?length_put; lia).
      by rewrite !(proj2 (Z.eqb_neq _ r)), Z.eqb_refl by lia.
    + intros j Hj1 Hj2. rewrite byte_at_put, Z.eqb_refl, u8_bit, shr_bit by lia.
      rewrite (proj2 (Z.ltb_lt _ _)) by lia. cbn [andb]. f_equal. lia.
    + intros j Hj1 Hj2. lia.
Qed.
