(* ===== verification/ZopenStream.v ===== *)
(** The code stream: the widths and groups of a sequence of codes, the bytes that
    hold it, and that [output] produces such bytes and [getcode] reads them. *)

From stdpp Require Import gmap.
From S2P Require Import Prelude Zopen ZopenBits.

(** * The schedule of widths

    Both sides change the width after the same codes: [s_k] counts the codes since
    the last reset, [s_pos] those of the current group. *)
Record sched := Sched { s_n : Z; s_k : Z; s_pos : Z }.

Section Stream.
Context (mb : Z) (Hmb : 12 <= mb <= 16).

Definition maxc (n : Z) : Z := if n =? mb then maxmaxcode mb else MAXCODE n.

(** The first free entry when code number [k] is written. *)
Definition free_at (k : Z) : Z := Z.min (FIRST + k) (maxmaxcode mb).

Definition sched_step (s : sched) (c : Z) : sched :=
  if c =? CLEAR then Sched INIT_BITS 0 0
  else if maxc (s_n s) <? free_at (s_k s) then Sched (s_n s + 1) (s_k s + 1) 0
  else Sched (s_n s) (s_k s + 1) (if s_pos s =? 7 then 0 else s_pos s + 1).

Definition sched_start : sched := Sched INIT_BITS 0 0.

Definition sched_ok (s : sched) : Prop :=
  9 <= s_n s <= mb /\ 0 <= s_k s /\ 0 <= s_pos s <= 7 /\ free_at (s_k s) <= 2 ^ s_n s.

Lemma sched_step_k s c : c <> CLEAR -> s_k (sched_step s c) = s_k s + 1.
Proof.
  intros Hc. unfold sched_step. rewrite (proj2 (Z.eqb_neq c CLEAR) Hc).
  by destruct (maxc (s_n s) <? free_at (s_k s)).
Qed.

Lemma maxmaxcode_eq : maxmaxcode mb = 2 ^ mb.
Proof. unfold maxmaxcode. rewrite Z.shiftl_mul_pow2 by lia. lia. Qed.
Lemma MAXCODE_eq n : 0 <= n -> MAXCODE n = 2 ^ n - 1.
Proof. intros Hn. unfold MAXCODE. rewrite Z.shiftl_mul_pow2 by lia. lia. Qed.

Lemma maxmax_bounds : 4096 <= maxmaxcode mb <= 65536.
Proof.
  rewrite maxmaxcode_eq. change 4096 with (2 ^ 12). change 65536 with (2 ^ 16).
  split; apply Z.pow_le_mono_r; lia.
Qed.

Lemma sched_start_ok : sched_ok sched_start.
Proof.
  unfold sched_ok, sched_start, free_at, INIT_BITS, FIRST. cbn [s_n s_k s_pos].
  pose proof maxmax_bounds. split_and!; lia.
Qed.

Lemma sched_step_ok s c : sched_ok s -> sched_ok (sched_step s c).
Proof.
  intros (Hn & Hk & Hp & Hf). unfold sched_step. destruct (c =? CLEAR); [apply sched_start_ok|].
  unfold maxc, free_at in *. pose proof maxmax_bounds as HM. rewrite maxmaxcode_eq in *.
  assert (2 ^ (s_n s + 1) = 2 * 2 ^ s_n s) as E1 by (rewrite <- Z.pow_succ_r by lia; f_equal; lia).
  assert (512 <= 2 ^ s_n s) by (change 512 with (2 ^ 9); apply Z.pow_le_mono_r; lia).
  destruct (Z.eqb_spec (s_n s) mb) as [E|E].
  - rewrite E in *. destruct (Z.ltb_spec (2 ^ mb) (Z.min (FIRST + s_k s) (2 ^ mb))); [lia|].
    unfold sched_ok, free_at. cbn [s_n s_k s_pos]. rewrite maxmaxcode_eq.
    destruct (Z.eqb_spec (s_pos s) 7); split_and!; lia.
  - rewrite MAXCODE_eq by lia.
    destruct (Z.ltb_spec (2 ^ s_n s - 1) (Z.min (FIRST + s_k s) (2 ^ mb)));
      unfold sched_ok, free_at; cbn [s_n s_k s_pos]; rewrite maxmaxcode_eq.
    + rewrite E1. split_and!; lia.
    + destruct (Z.eqb_spec (s_pos s) 7); split_and!; lia.
Qed.

(** * Files that hold a code sequence

    [g] is the group being read, [rest] the file behind it. *)
Inductive rest_ok : sched -> list Z -> list Z -> list Z -> Prop :=
| rest_end s g : s_pos s = 0 \/ 8 * Z.of_nat (length g) < (s_pos s + 1) * s_n s -> rest_ok s [] g []
| rest_same s c cs g rest :
    0 < s_pos s -> (s_pos s + 1) * s_n s <= 8 * Z.of_nat (length g) -> holds g (s_pos s * s_n s) (s_n s) c ->
    rest_ok (sched_step s c) cs g rest -> rest_ok s (c :: cs) g rest
| rest_group s c cs g0 rest :
    s_pos s = 0 -> let g := take (Z.to_nat (s_n s)) rest in
    s_n s <= 8 * Z.of_nat (length g) -> holds g 0 (s_n s) c ->
    rest_ok (sched_step s c) cs g (drop (Z.to_nat (s_n s)) rest) -> rest_ok s (c :: cs) g0 rest.

Lemma rest_ok_boundary s cs g g' rest : s_pos s = 0 -> rest_ok s cs g rest -> rest_ok s cs g' rest.
Proof.
  intros Hp H. inversion H; subst.
  - apply rest_end. by left.
  - lia.
  - by eapply rest_group.
Qed.

Lemma gbit_app g t i : 0 <= i < 8 * Z.of_nat (length g) -> gbit (g ++ t) i = gbit g i.
Proof.
  intros Hi. unfold gbit, byte_at. rewrite lookup_app_l; [done|]. Z.to_euclidean_division_equations; lia.
Qed.

Lemma gbit_take n b i : 0 <= i < 8 * Z.of_nat (length (take n b)) -> gbit (take n b) i = gbit b i.
Proof. intros Hi. rewrite <- (take_drop n b) at 2. by rewrite gbit_app. Qed.

Lemma holds_take n b off w c : 0 <= off -> off + w <= 8 * Z.of_nat (length (take n b)) ->
  holds b off w c <-> holds (take n b) off w c.
Proof. intros H1 H2. split; apply holds_ext; intros i Hi; by rewrite gbit_take by lia. Qed.

(** * The writer *)

Section Writer.
Context (fwrite_ok : list Z -> list Z -> bool).

(** What the group being written may become. *)
Definition group_fits (s : sched) (buf g rest : list Z) : Prop :=
  if s_pos s =? 0 then g = []
  else s_pos s * s_n s <= 8 * Z.of_nat (length g) /\ Z.of_nat (length g) <= s_n s /\
       (Z.of_nat (length g) = s_n s \/ rest = []) /\
       forall i, 0 <= i < s_pos s * s_n s -> gbit g i = gbit buf i.

(** The file is [hdr] and a body that, continued by any bytes that hold more codes,
    holds the codes written so far and these. *)
Record out_inv (hdr : list Z) (o : outbuf) (s : sched) (codes : list Z) : Prop := {
  oi_sched : sched_ok s;
  oi_n : o_n_bits o = s_n s;
  oi_maxcode : o_maxcode o = maxc (s_n s);
  oi_clear : o_clear_flg o = 0;
  oi_offset : o_offset o = s_pos s * s_n s;
  oi_len : length (o_buf o) = 16%nat;
  oi_bytes : bytes (o_buf o);
  oi_file : exists body, o_file o = hdr ++ body /\ bytes body /\
    forall cs g rest, group_fits s (o_buf o) g rest -> rest_ok s cs g rest ->
      rest_ok sched_start (codes ++ cs) [] (body ++ g ++ rest) }.

(** A completed group of [n] bytes. *)
Lemma group_done (buf : list Z) n : length buf = 16%nat -> 9 <= n <= 16 -> length (take (Z.to_nat n) buf) = Z.to_nat n.
Proof. intros Hl Hn. rewrite length_take, Hl. lia. Qed.

(** Adding a code to the group of the continuation. *)
Lemma rest_add s c cs buf buf' g rest :
  sched_ok s -> length buf = 16%nat ->
  holds buf' (s_pos s * s_n s) (s_n s) c -> (forall i, 0 <= i < s_pos s * s_n s -> gbit buf' i = gbit buf i) ->
  (s_pos s + 1) * s_n s <= 8 * Z.of_nat (length g) -> Z.of_nat (length g) <= s_n s ->
  Z.of_nat (length g) = s_n s \/ rest = [] ->
  (forall i, 0 <= i < (s_pos s + 1) * s_n s -> gbit g i = gbit buf' i) ->
  rest_ok (sched_step s c) cs g rest ->
  exists g0 rest0, group_fits s buf g0 rest0 /\ rest_ok s (c :: cs) g0 rest0 /\ g0 ++ rest0 = g ++ rest.
Proof.
  intros (Hn & Hk & Hp & _) Hlen Hh Hold Hg1 Hg2 Hg3 Hbits Hrest.
  assert (holds g (s_pos s * s_n s) (s_n s) c) as Hg.
  { revert Hh. apply holds_ext. intros i Hi. symmetry. apply Hbits. nia. }
  unfold group_fits. destruct (Z.eqb_spec (s_pos s) 0) as [E|E].
  - exists [], (g ++ rest). split_and!; [done| |done]. rewrite E in *.
    assert (take (Z.to_nat (s_n s)) (g ++ rest) = g /\ drop (Z.to_nat (s_n s)) (g ++ rest) = rest) as [Et Ed].
    { destruct Hg3 as [Hl| ->]; [rewrite take_app_length', drop_app_length' by lia; done|].
      rewrite app_nil_r, take_ge, drop_ge by lia. done. }
    apply rest_group; rewrite ?Et, ?Ed; [done|lia|done|done].
  - exists g, rest. split_and!; [nia|lia|done| |by apply rest_same; try lia|done].
    intros i Hi. rewrite <- Hold by lia. apply Hbits. nia.
Qed.

Section Step.
Context (hdr body : list Z) (s : sched) (codes : list Z) (c : Z) (buf buf' : list Z).
Context (Hs : sched_ok s) (Hlen : length buf = 16%nat) (Hlen' : length buf' = 16%nat) (Hb' : bytes buf') (Hbb : bytes body).
Context (Hh : holds buf' (s_pos s * s_n s) (s_n s) c)
  (Hold : forall i, 0 <= i < s_pos s * s_n s -> gbit buf' i = gbit buf i).
Context (Hcont : forall cs g rest, group_fits s buf g rest -> rest_ok s cs g rest ->
  rest_ok sched_start (codes ++ cs) [] (body ++ g ++ rest)).

(** The group is complete and written. *)
Lemma step_flushed o' : let s' := sched_step s c in s_pos s' = 0 ->
  o_file o' = hdr ++ body ++ take (Z.to_nat (s_n s)) buf' -> o_n_bits o' = s_n s' -> o_maxcode o' = maxc (s_n s') ->
  o_clear_flg o' = 0 -> o_offset o' = 0 -> o_buf o' = buf' -> out_inv hdr o' s' (codes ++ [c]).
Proof.
  intros s' Hp Ef En Emax Ecl Eoff Eb. pose proof Hs as (Hn & Hk & Hpos & Hf).
  assert (length (take (Z.to_nat (s_n s)) buf') = Z.to_nat (s_n s)) as Hg by (apply group_done; lia).
  split; rewrite ?Eb; try done.
  - by apply sched_step_ok.
  - rewrite Eoff, Hp. lia.
  - exists (body ++ take (Z.to_nat (s_n s)) buf'). split_and!; [done| |].
    { apply Forall_app. split; [done|]. by apply Forall_take. }
    intros cs g rest Hfit Hrest. unfold group_fits in Hfit. rewrite Hp in Hfit. cbn in Hfit. subst g.
    destruct (rest_add s c cs buf buf' (take (Z.to_nat (s_n s)) buf') rest Hs Hlen Hh Hold) as (g0 & rest0 & Hfit & Hr & E).
    + rewrite Hg. nia.
    + lia.
    + lia.
    + intros i Hi. apply gbit_take. rewrite Hg. nia.
    + by apply (rest_ok_boundary _ _ []).
    + rewrite <- !app_assoc. cbn [app]. rewrite <- E. by apply Hcont.
Qed.

(** The group goes on. *)
Lemma step_kept o' : let s' := sched_step s c in s_pos s' = s_pos s + 1 -> s_n s' = s_n s ->
  o_file o' = hdr ++ body -> o_n_bits o' = s_n s -> o_maxcode o' = maxc (s_n s) ->
  o_clear_flg o' = 0 -> o_offset o' = (s_pos s + 1) * s_n s -> o_buf o' = buf' -> out_inv hdr o' s' (codes ++ [c]).
Proof.
  intros s' Hp Hn' Ef En Emax Ecl Eoff Eb. pose proof Hs as (Hn & Hk & Hpos & Hf).
  split; rewrite ?Eb, ?Hn'; try done.
  - by apply sched_step_ok.
  - by rewrite Eoff, Hp.
  - exists body. split_and!; [done|done|].
    intros cs g rest Hfit Hrest. unfold group_fits in Hfit. rewrite Hp, Hn' in Hfit.
    rewrite (proj2 (Z.eqb_neq _ _)) in Hfit by lia. destruct Hfit as (H1 & H2 & H3 & H4).
    destruct (rest_add s c cs buf buf' g rest Hs Hlen Hh Hold H1 H2 H3 H4 Hrest) as (g0 & rest0 & Hfit & Hr & E).
    rewrite <- E, <- (app_assoc codes). by apply Hcont.
Qed.

End Step.

Lemma next_width_eq o s c : sched_ok s -> o_n_bits o = s_n s ->
  o_clear_flg o = (if c =? CLEAR then 1 else 0) -> (c =? CLEAR) || (maxc (s_n s) <? free_at (s_k s)) = true ->
  let s' := sched_step s c in let o' := next_width mb o in
  s_pos s' = 0 /\ o_n_bits o' = s_n s' /\ o_maxcode o' = maxc (s_n s') /\ o_clear_flg o' = 0 /\
  o_file o' = o_file o /\ o_offset o' = o_offset o /\ o_buf o' = o_buf o.
Proof.
  intros (Hn & _) En Ecl Hch. unfold next_width, sched_step. rewrite Ecl.
  destruct (c =? CLEAR); cbn [negb Z.eqb].
  - unfold maxc, INIT_BITS. cbn [s_n s_pos o_n_bits o_maxcode o_clear_flg o_file o_offset o_buf].
    by rewrite (proj2 (Z.eqb_neq 9 mb)) by lia.
  - cbn [orb] in Hch. rewrite Hch, En. rewrite u32_small by lia. done.
Qed.

Lemma fwrite_buf_ok n o : length (o_buf o) = 16%nat -> n <= 16 ->
  fwrite_buf fwrite_ok n o =
    if fwrite_ok (o_file o) (take (Z.to_nat n) (o_buf o))
    then WOk (OutBuf (o_file o ++ take (Z.to_nat n) (o_buf o)) (o_n_bits o) (o_maxcode o) (o_clear_flg o)
                     (o_offset o) (o_bytes_out o + n) (o_buf o))
    else WErr.
Proof. intros Hl Hn. unfold fwrite_buf. by rewrite (proj2 (Z.ltb_ge _ _)) by lia. Qed.

(** The effect of one code on the stream. *)
Lemma output_code hdr o s codes c : 0 <= c < 2 ^ s_n s -> out_inv hdr o s codes ->
  match output fwrite_ok mb (if c =? CLEAR then FIRST else free_at (s_k s)) c
          (if c =? CLEAR then set_clear 1 o else o) with
  | WOk o' => out_inv hdr o' (sched_step s c) (codes ++ [c])
  | WErr => exists file data, fwrite_ok file data = false
  | _ => False
  end.
Proof.
  intros Hc [Hs En Emax Ecl Eoff Hlen Hb (body & Ef & Hbb & Hcont)].
  pose proof Hs as (Hn & Hk & Hp & Hf). unfold output. rewrite (proj2 (Z.leb_le 0 c)) by lia.
  set (o1 := if c =? CLEAR then set_clear 1 o else o).
  assert (o_buf o1 = o_buf o /\ o_offset o1 = o_offset o /\ o_n_bits o1 = o_n_bits o /\ o_file o1 = o_file o /\
    o_maxcode o1 = o_maxcode o /\ o_clear_flg o1 = (if c =? CLEAR then 1 else 0)) as (-> & -> & -> & -> & -> & ->)
    by (unfold o1; destruct (c =? CLEAR); done).
  rewrite En, Eoff, Ef, Emax.
  destruct (insert_code_spec (o_buf o) (s_pos s * s_n s) (s_n s) c Hb ltac:(lia) ltac:(nia) ltac:(rewrite Hlen; nia) Hc)
    as (buf' & -> & Hl' & Hb' & Hh & Hold). rewrite Hlen in Hl'.
  assert (u32 (s_pos s * s_n s + s_n s) = (s_pos s + 1) * s_n s) as -> by (rewrite u32_small by nia; lia).
  cbn [o_offset o_n_bits o_maxcode o_clear_flg].
  rewrite Z.shiftl_mul_pow2 by lia. change (2 ^ 3) with 8.
  (* what follows the full-group test, from an output state with this buffer *)
  set (s' := sched_step s c). set (G := take (Z.to_nat (s_n s)) buf').
  set (change := (c =? CLEAR) || (maxc (s_n s) <? free_at (s_k s))).
  assert ((maxc (s_n s) <? (if c =? CLEAR then FIRST else free_at (s_k s))) || (0 <? (if c =? CLEAR then 1 else 0)) =
    change) as Hcond.
  { unfold change. destruct (c =? CLEAR); [by rewrite orb_true_r|by rewrite orb_false_r]. }
  assert (change = false -> s' = Sched (s_n s) (s_k s + 1) (if s_pos s =? 7 then 0 else s_pos s + 1) /\ (c =? CLEAR) = false) as Hkeep.
  { unfold change, s', sched_step. destruct (c =? CLEAR); [done|]. cbn [orb]. by intros ->. }
  assert (forall o2, o_n_bits o2 = s_n s -> o_clear_flg o2 = (if c =? CLEAR then 1 else 0) -> change = true ->
    o_file o2 = hdr ++ body ++ G -> o_offset o2 = 0 -> o_buf o2 = buf' ->
    out_inv hdr (next_width mb o2) s' (codes ++ [c])) as Hwide.
  { intros o2 H1 H2 H3 H4 H5 H6. destruct (next_width_eq o2 s c Hs H1 H2 H3) as (E1 & E2 & E3 & E4 & E5 & E6 & E7).
    apply (step_flushed hdr body s codes c (o_buf o) buf'); fold G; first [done|congruence]. }
  destruct (Z.eqb_spec ((s_pos s + 1) * s_n s) (s_n s * 8)) as [Efull|Efull].
  - assert (s_pos s = 7) as E7 by nia.
    rewrite fwrite_buf_ok by (cbn [o_buf]; lia). cbn [o_file o_buf]. fold G.
    destruct (fwrite_ok (hdr ++ body) G) eqn:Ew; cbn [mbind wres_bind]; [|by eauto].
    unfold set_offset. cbn [o_file o_n_bits o_maxcode o_clear_flg o_offset o_bytes_out o_buf]. rewrite Hcond.
    destruct change eqn:Ech.
    + apply Hwide; cbn; try done. by rewrite app_assoc.
    + destruct (Hkeep eq_refl) as [Es' Ec].
      apply (step_flushed hdr body s codes c (o_buf o) buf'); try done; fold s'; rewrite ?Es'; cbn; rewrite ?E7, ?Ec; try done.
      by rewrite app_assoc.
  - assert (s_pos s <> 7) as E7 by (intros E; rewrite E in Efull; lia).
    cbn [mbind wres_bind o_file o_n_bits o_maxcode o_clear_flg o_offset o_bytes_out o_buf]. rewrite Hcond.
    destruct change eqn:Ech.
    + rewrite (proj2 (Z.ltb_lt 0 _)) by nia. rewrite fwrite_buf_ok by (cbn [o_buf]; lia). cbn [o_file o_buf]. fold G.
      destruct (fwrite_ok (hdr ++ body) G) eqn:Ew; cbn [mbind wres_bind]; [|by eauto].
      apply Hwide; cbn; try done. by rewrite app_assoc.
    + destruct (Hkeep eq_refl) as [Es' Ec].
      apply (step_kept hdr body s codes c (o_buf o) buf'); try done; fold s'; rewrite ?Es'; cbn; rewrite ?Ec; try done.
      by rewrite (proj2 (Z.eqb_neq _ _)).
Qed.

(** At the end the rest of the buffer is written. *)
Lemma output_eof hdr o s codes free_ent : out_inv hdr o s codes ->
  match output fwrite_ok mb free_ent (-1) o with
  | WOk o' => exists body, o_file o' = hdr ++ body /\ bytes body /\ rest_ok sched_start codes [] body
  | WErr => exists file data, fwrite_ok file data = false
  | _ => False
  end.
Proof.
  intros [Hs En Emax Ecl Eoff Hlen Hb (body & Ef & Hbb & Hcont)]. pose proof Hs as (Hn & Hk & Hp & Hf).
  unfold output. cbn [Z.leb Z.compare]. rewrite Eoff. specialize (Hcont []). rewrite app_nil_r in Hcont.
  unfold group_fits in Hcont. destruct (Z.eqb_spec (s_pos s) 0) as [E|E].
  - rewrite (proj2 (Z.ltb_ge 0 _)) by nia. cbn. exists body. split_and!; [done|done|].
    specialize (Hcont [] [] eq_refl). rewrite app_nil_r in Hcont.
    apply Hcont, rest_end. by left.
  - rewrite (proj2 (Z.ltb_lt 0 _)) by nia. set (w := (s_pos s * s_n s + 7) / 8).
    assert (0 <= w <= 16 /\ s_pos s * s_n s <= 8 * w < s_pos s * s_n s + 8 /\ w <= s_n s) as (Hw & Hw' & Hwn).
    { unfold w. split_and!; Z.to_euclidean_division_equations; nia. }
    rewrite fwrite_buf_ok by (cbn; lia). cbn [o_file o_buf set_offset]. rewrite Ef.
    set (g := take (Z.to_nat w) (o_buf o)).
    assert (length g = Z.to_nat w) as Hg by (unfold g; rewrite length_take; lia).
    destruct (fwrite_ok (hdr ++ body) g) eqn:Ew; cbn [mbind wres_bind]; [|by eauto].
    exists (body ++ g). unfold set_offset. cbn. split_and!; [by rewrite app_assoc| |].
    { apply Forall_app. split; [done|]. by apply Forall_take. }
    specialize (Hcont g []). rewrite app_nil_r in Hcont. apply Hcont.
    + split_and!; [nia|lia|by right|]. intros i Hi. apply gbit_take. fold g. rewrite Hg. nia.
    + apply rest_end. right. nia.
Qed.

End Writer.

(** * The reader *)

(** The width [getcode] goes to before it reads the next group. *)
Definition refilled (free_ent : Z) (s : inbuf) : inbuf :=
  let s := if i_maxcode s <? free_ent then
             let n_bits := u32 (i_n_bits s + 1) in
             set_width n_bits (if n_bits =? mb then maxmaxcode mb else MAXCODE n_bits) (i_clear_flg s) s
           else s in
  if 0 <? i_clear_flg s then set_width INIT_BITS (MAXCODE INIT_BITS) 0 s else s.

Definition refill (free_ent : Z) (s : inbuf) : bool :=
  (0 <? i_clear_flg s) || (i_size s <=? i_roffset s) || (i_maxcode s <? free_ent).

(** The group [g] at the start of the buffer. *)
Definition in_group (s : inbuf) (n pos : Z) (g : list Z) : Prop :=
  i_n_bits s = n /\ i_maxcode s = maxc n /\ i_clear_flg s = 0 /\ i_roffset s = pos * n /\
  i_size s = 8 * Z.of_nat (length g) - (n - 1) /\ Z.of_nat (length g) <= n /\ exists t, i_gbuf s = g ++ t.

(** Before the next code. *)
Record in_inv (s : inbuf) (free_ent : Z) (sc : sched) (cs : list Z) : Prop := {
  ii_sched : sched_ok sc;
  ii_len : length (i_gbuf s) = 16%nat;
  ii_bytes : bytes (i_gbuf s);
  ii_file : bytes (i_file s);
  ii_rest : exists g, rest_ok sc cs g (i_file s) /\
    if s_pos sc =? 0 then
      refill free_ent s = true /\ i_n_bits (refilled free_ent s) = s_n sc /\
      i_maxcode (refilled free_ent s) = maxc (s_n sc) /\ i_clear_flg (refilled free_ent s) = 0
    else in_group s (s_n sc) (s_pos sc) g /\ free_ent <= maxc (s_n sc) }.

(** Behind the code [c]. *)
Record in_mid (s : inbuf) (sc : sched) (c : Z) (cs : list Z) : Prop := {
  im_sched : sched_ok sc;
  im_len : length (i_gbuf s) = 16%nat;
  im_bytes : bytes (i_gbuf s);
  im_file : bytes (i_file s);
  im_range : 0 <= c < 2 ^ s_n sc;
  im_rest : exists g, rest_ok (sched_step sc c) cs g (i_file s) /\ in_group s (s_n sc) (s_pos sc + 1) g }.

Lemma getcode_unfold free_ent s : length (i_gbuf s) = 16%nat -> i_n_bits (refilled free_ent s) <= 16 ->
  getcode mb free_ent s =
    let take_code s :=
      gcode ← extract_code (i_gbuf s) (i_roffset s) (i_n_bits s);
      Some (gcode, set_position (i_roffset s + i_n_bits s) (i_size s) s) in
    if refill free_ent s then
      let s := fread_group (i_n_bits (refilled free_ent s)) (refilled free_ent s) in
      if i_size s <=? 0 then Some (-1, s)
      else take_code (set_position 0 ((i_size s .<< 3) - (i_n_bits s - 1)) s)
    else take_code s.
Proof.
  intros Hl Hn. unfold getcode. fold (refill free_ent s). destruct (refill free_ent s); [|done].
  change (i_gbuf (if 0 <? i_clear_flg _ then _ else _)) with (i_gbuf (refilled free_ent s)).
  fold (refilled free_ent s).
  assert (i_gbuf (refilled free_ent s) = i_gbuf s) as E.
  { unfold refilled. destruct (i_maxcode s <? free_ent), (0 <? i_clear_flg _); done. }
  cbv zeta. rewrite E. by rewrite (proj2 (Z.ltb_ge _ _)) by lia.
Qed.

Lemma refilled_same free_ent s :
  i_file (refilled free_ent s) = i_file s /\ i_gbuf (refilled free_ent s) = i_gbuf s.
Proof. unfold refilled. by destruct (i_maxcode s <? free_ent), (0 <? i_clear_flg _). Qed.

(** The code at the position of a group. *)
Lemma extract_group g t off n c : bytes (g ++ t) -> 9 <= n <= 16 -> 0 <= off ->
  off + n <= 8 * Z.of_nat (length g) -> holds g off n c -> extract_code (g ++ t) off n = Some c.
Proof.
  intros Hb Hn Ho Hl Hh.
  destruct (extract_code_holds (g ++ t) off n Hb Hn Ho) as (c' & -> & Hc'); [rewrite length_app; lia|].
  f_equal. apply (holds_unique (g ++ t) off n); [lia|done|]. revert Hh. apply holds_ext.
  intros i Hi. by rewrite gbit_app by lia.
Qed.

(** The next group of the file in the buffer. *)
Lemma fread_group_spec n s : 0 <= n <= 16 -> length (i_gbuf s) = 16%nat -> bytes (i_gbuf s) -> bytes (i_file s) ->
  let g := take (Z.to_nat n) (i_file s) in let s' := fread_group n s in
  i_file s' = drop (Z.to_nat n) (i_file s) /\ i_n_bits s' = i_n_bits s /\ i_maxcode s' = i_maxcode s /\
  i_clear_flg s' = i_clear_flg s /\ i_size s' = Z.of_nat (length g) /\
  (exists t, i_gbuf s' = g ++ t) /\ length (i_gbuf s') = 16%nat /\ bytes (i_gbuf s') /\ bytes (i_file s') /\
  Z.of_nat (length g) <= n.
Proof.
  intros Hn Hl Hb Hf g s'. assert (Z.of_nat (length g) <= n) as Hg by (unfold g; rewrite length_take; lia).
  split_and!; try done; unfold s', fread_group; cbn [i_gbuf i_file].
  - eauto.
  - rewrite length_app, length_drop. fold g. lia.
  - apply Forall_app. split; [by apply Forall_take|by apply Forall_drop].
  - by apply Forall_drop.
Qed.

Lemma getcode_code s free_ent sc c cs : in_inv s free_ent sc (c :: cs) ->
  exists s', getcode mb free_ent s = Some (c, s') /\ in_mid s' sc c cs.
Proof.
  intros [Hs Hl Hb Hf (g & Hrest & Hst)]. pose proof Hs as (Hn & Hk & Hp & _).
  destruct (refilled_same free_ent s) as [Erf Erg].
  destruct (Z.eqb_spec (s_pos sc) 0) as [E|E].
  - destruct Hst as (Href & Hrn & Hrm & Hrc). rewrite getcode_unfold by lia. rewrite Href, Hrn.
    inversion Hrest as [|? ? ? ? ? Hpos|? ? ? ? ? Hpos g' Hlen Hholds Hrest']; subst; [lia|]. fold g' in Hrest'.
    destruct (fread_group_spec (s_n sc) (refilled free_ent s)) as (F1 & F2 & F3 & F4 & F5 & (t & F6) & F7 & F8 & F9 & F10);
      try (rewrite ?Erf, ?Erg; done || lia).
    rewrite Erf in *. fold g' in F5, F6, F10. cbv zeta.
    rewrite (proj2 (Z.leb_gt _ 0)) by lia. set (s1 := fread_group _ _) in *. clearbody s1.
    cbn [set_position i_gbuf i_roffset i_n_bits i_size].
    rewrite F6, F2, Hrn. rewrite extract_group with (c := c) by first [done|lia|by rewrite <- F6].
    cbn [mbind option_bind]. eexists. split; [reflexivity|]. split; cbn; try done; try congruence.
    + by destruct Hholds.
    + rewrite F1. exists g'. split; [done|]. rewrite E. unfold in_group. cbn.
      rewrite F2, F3, F4, F5, F6, Hrn, Hrm, Hrc, Z.shiftl_mul_pow2 by lia. change (2 ^ 3) with 8.
      split_and!; try done; try lia. eauto.
  - destruct Hst as [(Gn & Gm & Gc & Go & Gs & Gl & t & Gt) Hfree].
    inversion Hrest as [|? ? ? ? ? Hpos Hlen Hholds Hrest'|? ? ? ? ? Hpos]; subst; [|lia].
    assert (refill free_ent s = false) as Href.
    { unfold refill. rewrite Gc, Go, Gs, Gm. cbn [Z.ltb Z.compare].
      rewrite (proj2 (Z.leb_gt _ _)), (proj2 (Z.ltb_ge _ _)) by nia. done. }
    unfold getcode. fold (refill free_ent s). rewrite Href, Gt, Go, Gn.
    rewrite extract_group with (c := c) by first [done|nia|by rewrite <- Gt].
    cbn [mbind option_bind]. eexists. split; [reflexivity|]. split; cbn; try done.
    + by destruct Hholds.
    + exists g. split; [done|]. unfold in_group. cbn. split_and!; try done; try lia. eauto.
Qed.

Lemma getcode_eof s free_ent sc : in_inv s free_ent sc [] -> exists s', getcode mb free_ent s = Some (-1, s').
Proof.
  intros [Hs Hl Hb Hf (g & Hrest & Hst)]. pose proof Hs as (Hn & Hk & Hp & _).
  destruct (refilled_same free_ent s) as [Erf Erg]. 
  assert (i_file s = [] /\ (s_pos sc = 0 \/ 8 * Z.of_nat (length g) < (s_pos sc + 1) * s_n sc)) as [Ei Hend]
    by (by inversion Hrest; subst).
  assert (refill free_ent s = true /\ i_n_bits (refilled free_ent s) <= 16) as [Href Hw].
  { destruct (Z.eqb_spec (s_pos sc) 0) as [E|E].
    - destruct Hst as (H1 & H2 & _). split; [done|lia].
    - destruct Hst as [(Gn & Gm & Gc & Go & Gs & Gl & t & Gt) Hfree]. split.
      + unfold refill. rewrite (proj2 (Z.leb_le _ _)) by nia. by rewrite orb_true_r.
      + unfold refilled. rewrite Gm, (proj2 (Z.ltb_ge (maxc (s_n sc)) free_ent)) by lia. rewrite Gc. cbn. lia. }
  rewrite getcode_unfold by lia. rewrite Href. cbv zeta.
  assert (i_size (fread_group (i_n_bits (refilled free_ent s)) (refilled free_ent s)) = 0) as ->.
  { unfold fread_group. cbn [i_size]. by rewrite Erf, Ei, take_nil. }
  eexists. reflexivity.
Qed.

(** The reader's table after the code: the width follows. *)
Lemma in_mid_step s sc c cs : c <> CLEAR -> in_mid s sc c cs -> in_inv s (free_at (s_k sc)) (sched_step sc c) cs.
Proof.
  intros Hc [Hs Hl Hb Hf Hr (g & Hrest & Gn & Gm & Gc & Go & Gs & Gl & Gt)]. pose proof Hs as (Hn & Hk & Hp & _).
  split; try done; [by apply sched_step_ok|]. exists g. split; [done|].
  unfold sched_step, refill, refilled. rewrite (proj2 (Z.eqb_neq c CLEAR)), Gm, Gc by done. cbn [Z.ltb Z.compare orb].
  destruct (Z.ltb_spec (maxc (s_n sc)) (free_at (s_k sc))) as [Hlt|Hge]; cbn [s_pos s_n Z.eqb].
  - rewrite orb_true_r, Gn, u32_small by lia. done.
  - rewrite orb_false_r, Go, Gs. destruct (Z.eqb_spec (s_pos sc) 7) as [E7|E7]; cbn [Z.eqb].
    + rewrite (proj2 (Z.leb_le _ _)) by lia. rewrite ?Gc. cbn [Z.ltb Z.compare]. done.
    + rewrite (proj2 (Z.eqb_neq _ _)) by lia. done.
Qed.

Lemma in_mid_clear s sc cs : in_mid s sc CLEAR cs ->
  in_inv (set_width (i_n_bits s) (i_maxcode s) 1 s) FIRST sched_start cs.
Proof.
  intros [Hs Hl Hb Hf Hr (g & Hrest & Gn & Gm & Gc & Go & Gs & Gl & Gt)].
  split; cbn; try done; [apply sched_start_ok|]. exists g. split; [done|]. unfold refill, refilled.
  destruct (i_maxcode _ <? FIRST); cbn; unfold maxc, INIT_BITS; rewrite (proj2 (Z.eqb_neq 9 mb)) by lia; done.
Qed.

End Stream.
