(* ===== verification/ZopenLzw.v ===== *)
(** The LZW dictionary: a reference decoder on code sequences, the strings behind
    the writer's hash table and behind the reader's prefix table, and the search
    that always ends. *)

From stdpp Require Import gmap.
From S2P Require Import Prelude Zopen ZopenBits ZopenStream.

(** * The reference decoder

    [S] lists the strings of the codes from 257 on. *)
Notation strs := (list (list Z)).

Definition str (S : strs) (code : Z) : list Z :=
  if code <? 256 then [code] else default [] (S !! Z.to_nat (code - FIRST)).

Definition first_free (S : strs) : Z := FIRST + Z.of_nat (length S).
Definition valid (lim code : Z) : Prop := 0 <= code < lim /\ code <> CLEAR.

Section Lzw.
Context (mb : Z) (Hmb : 12 <= mb <= 16).

(** One code after [old]: its string and the new dictionary. *)
Definition ref_step (S : strs) (old : option Z) (c : Z) : option (list Z * strs) :=
  x ← (if c <? first_free S then Some (str S c)
       else if c =? first_free S then o ← old; h ← head (str S o); Some (str S o ++ [h])
       else None);
  match old with
  | None => Some (x, S)
  | Some o => if first_free S <? maxmaxcode mb then h ← head x; Some (x, S ++ [str S o ++ [h]]) else Some (x, S)
  end.

Fixpoint ref_run (S : strs) (old : option Z) (cs : list Z) : option (list Z * strs * option Z) :=
  match cs with
  | [] => Some ([], S, old)
  | c :: cs =>
    if c =? CLEAR then ref_run [] None cs
    else '(x, S) ← ref_step S old c; '(T, S, old) ← ref_run S (Some c) cs; Some (x ++ T, S, old)
  end.

Lemma ref_run_app cs1 cs2 S old : ref_run S old (cs1 ++ cs2) =
  ('(T1, S1, old1) ← ref_run S old cs1; '(T2, S2, old2) ← ref_run S1 old1 cs2; Some (T1 ++ T2, S2, old2)).
Proof.
  revert S old. induction cs1 as [|c cs1 IH]; intros S old; cbn [ref_run app].
  - cbn. destruct (ref_run S old cs2) as [[[T S'] o']|]; done.
  - destruct (c =? CLEAR); [apply IH|]. destruct (ref_step S old c) as [[x S1]|]; [|done]. cbn [mbind option_bind].
    rewrite IH. destruct (ref_run S1 (Some c) cs1) as [[[T1 S2] o2]|]; [|done]. cbn.
    destruct (ref_run S2 o2 cs2) as [[[T2 S3] o3]|]; [|done]. cbn. by rewrite app_assoc.
Qed.

(** ** Strings *)

(** Every string extends that of a smaller code by a byte. *)
Definition strs_ok (S : strs) : Prop :=
  forall j s, S !! j = Some s ->
    exists p c, s = str S p ++ [c] /\ valid (FIRST + Z.of_nat j) p /\ 0 <= c < 256.

Lemma str_snoc S x code : valid (first_free S) code -> str (S ++ [x]) code = str S code.
Proof.
  intros [Hc Hcl]. unfold str, first_free, FIRST, CLEAR in *. destruct (Z.ltb_spec code 256); [done|].
  rewrite lookup_app_l by lia. done.
Qed.

Lemma str_new S x : str (S ++ [x]) (first_free S) = x.
Proof.
  unfold str, first_free, FIRST. rewrite (proj2 (Z.ltb_ge _ _)) by lia.
  replace (Z.to_nat (257 + Z.of_nat (length S) - 257)) with (length S) by lia.
  by rewrite lookup_app_r, Nat.sub_diag by lia.
Qed.

Lemma valid_lookup S code : valid (first_free S) code -> 256 <= code ->
  exists j, (j < length S)%nat /\ code = FIRST + Z.of_nat j /\ S !! j = Some (str S code).
Proof.
  unfold str, valid, first_free, FIRST, CLEAR. intros [Hc Hcl] Hge. exists (Z.to_nat (code - 257)).
  split_and!; [lia|lia|]. rewrite (proj2 (Z.ltb_ge _ _)) by lia.
  destruct (lookup_lt_is_Some_2 S (Z.to_nat (code - 257))) as [s ->]; [lia|done].
Qed.

Lemma valid_le l l' code : valid l code -> l <= l' -> valid l' code.
Proof. unfold valid. lia. Qed.

(** By strong induction: lengths and bytes. *)
Lemma str_shape S : strs_ok S -> forall n code, (Z.to_nat code <= n)%nat -> valid (first_free S) code ->
  str S code <> [] /\ bytes (str S code) /\ Z.of_nat (length (str S code)) <= Z.max 1 (code - 255).
Proof.
  intros Hok. induction n as [|n IH]; intros code Hn Hv.
  { assert (code = 0) as -> by (unfold valid in Hv; lia). cbn. split_and!; [done| |lia].
    apply Forall_singleton. lia. }
  destruct (Z.ltb_spec code 256) as [Hlt|Hge].
  - unfold str. rewrite (proj2 (Z.ltb_lt _ _)) by done. destruct Hv as [Hv _].
    split_and!; [done|apply Forall_singleton; lia|simpl; lia].
  - destruct (valid_lookup S code Hv Hge) as (j & Hj & Ec & Hl). destruct (Hok j _ Hl) as (p & c & E & Hp & Hc).
    rewrite E. unfold FIRST in Ec, Hp.
    destruct (IH p) as (IH1 & IH2 & IH3); [unfold valid in Hp; lia| |].
    { apply (valid_le _ _ _ Hp). unfold first_free, FIRST. lia. }
    split_and!.
    + by destruct (str S p).
    + apply Forall_app. split; [done|]. by apply Forall_singleton.
    + rewrite length_app. simpl. unfold valid in Hp. lia.
Qed.

Lemma str_nonempty S code : strs_ok S -> valid (first_free S) code -> exists h t, str S code = h :: t.
Proof.
  intros Hok Hv. destruct (str_shape S Hok (Z.to_nat code) code ltac:(lia) Hv) as (H & _).
  destruct (str S code) as [|h t]; [done|eauto].
Qed.

Lemma strs_ok_snoc S p c : strs_ok S -> valid (first_free S) p -> 0 <= c < 256 -> strs_ok (S ++ [str S p ++ [c]]).
Proof.
  intros Hok Hp Hc j s Hj. apply lookup_app_Some in Hj as [Hj|[Hlen Hj]].
  - destruct (Hok j s Hj) as (p' & c' & -> & Hp' & Hc'). exists p', c'. split; [|done].
    rewrite str_snoc; [done|]. apply (valid_le _ _ _ Hp'). apply lookup_lt_Some in Hj.
    unfold first_free, FIRST. lia.
  - destruct (j - length S)%nat as [|m] eqn:Em; [|done]. injection Hj as <-.
    exists p, c. split; [by rewrite str_snoc|split; [|done]].
    replace j with (length S) by lia. exact Hp.
Qed.

Lemma strs_ok_nil : strs_ok [].
Proof. intros j s Hj. done. Qed.

(** * The writer's search *)

(** [P] on the [n] integers from [z]. *)
Fixpoint check_from (P : Z -> bool) (n : nat) (z : Z) : bool :=
  match n with O => true | S n => P z && check_from P n (z + 1) end.

Lemma check_from_spec P n z : check_from P n z = true -> forall x, z <= x < z + Z.of_nat n -> P x = true.
Proof.
  revert z. induction n as [|n IH]; intros z H x Hx; [lia|]. cbn [check_from] in H.
  apply andb_true_iff in H as [H1 H2]. destruct (decide (x = z)) as [->|]; [done|]. apply (IH _ H2). lia.
Qed.

Lemma hsize_check : check_from (fun d => Z.gcd HSIZE d =? 1) (Z.to_nat 69000) 1 = true.
Proof. vm_cast_no_check (eq_refl true). Qed.

Lemma hsize_coprime d : 0 < d < HSIZE -> Z.gcd HSIZE d = 1.
Proof.
  intros Hd. apply Z.eqb_eq. apply (check_from_spec _ _ _ hsize_check d). unfold HSIZE in Hd. lia.
Qed.

(** The slots the probe loop visits. *)
Definition visited (i disp : Z) (j : nat) : Z := (i - (Z.of_nat j + 1) * disp) mod HSIZE.

Lemma visited_inj i disp j j' : 0 < disp < HSIZE -> (j < Z.to_nat HSIZE)%nat -> (j' < Z.to_nat HSIZE)%nat ->
  visited i disp j = visited i disp j' -> j = j'.
Proof.
  intros Hd Hj Hj' E. unfold visited in E.
  assert (HSIZE | disp * (Z.of_nat j - Z.of_nat j')) as Hdiv.
  { apply Z.mod_divide; [done|]. replace (disp * (Z.of_nat j - Z.of_nat j')) with
      ((i - (Z.of_nat j' + 1) * disp) - (i - (Z.of_nat j + 1) * disp)) by lia.
    rewrite Zminus_mod, <- E, Z.sub_diag. reflexivity. }
  apply Z.gauss in Hdiv; [|by apply hsize_coprime]. destruct Hdiv as [q Hq].
  assert (q = 0) as -> by (unfold HSIZE in *; nia). lia.
Qed.

Lemma visited_S i disp j : 0 <= i < HSIZE -> 0 < disp < HSIZE ->
  visited (visited i disp 0) disp j = visited i disp (S j).
Proof.
  intros Hi Hd. unfold visited. rewrite <- Zminus_mod_idemp_l, Zmod_mod, Zminus_mod_idemp_l. f_equal. lia.
Qed.

Lemma probe_step i disp : 0 <= i < HSIZE -> 0 < disp < HSIZE ->
  (if i - disp <? 0 then i - disp + HSIZE else i - disp) = visited i disp 0 /\ 0 <= visited i disp 0 < HSIZE.
Proof.
  intros Hi Hd. unfold visited. split; [|apply Z.mod_pos_bound; done].
  replace (i - (Z.of_nat 0 + 1) * disp) with (i - disp) by lia.
  destruct (Z.ltb_spec (i - disp) 0).
  - apply (Z.mod_unique _ _ (-1)); lia.
  - symmetry. apply Z.mod_small. lia.
Qed.

Definition slot_spec (d : dict) (fcode : Z) (s : slot) : Prop :=
  match s with
  | Found code => exists i, 0 <= i < HSIZE /\ htabof d i = fcode /\ codetabof d i = code
  | Empty i => 0 <= i < HSIZE /\ htabof d i < 0
  end.

Lemma probe_spec d disp fcode : 0 < disp < HSIZE -> forall fuel i, 0 <= i < HSIZE ->
  match probe fuel d HSIZE disp fcode i with
  | WOk s => slot_spec d fcode s
  | WLoop => forall j, (j < fuel)%nat -> 0 <= htabof d (visited i disp j)
  | _ => False
  end.
Proof.
  intros Hd. induction fuel as [|fuel IH]; intros i Hi; cbn [probe]; [intros; lia|].
  destruct (probe_step i disp Hi Hd) as [-> Hv].
  assert (in_table (visited i disp 0) = true) as ->.
  { unfold in_table. rewrite (proj2 (Z.leb_le _ _)), (proj2 (Z.ltb_lt _ _)) by lia. done. }
  cbn [negb]. destruct (Z.eqb_spec (htabof d (visited i disp 0)) fcode) as [E|E]; [by eexists|].
  destruct (Z.leb_spec 0 (htabof d (visited i disp 0))) as [H0|H0]; [|done].
  specialize (IH _ Hv). destruct (probe _ _ _ _ _ _) as [s| | |]; try done.
  intros [|j] Hj; [done|]. rewrite <- visited_S by done. apply IH. lia.
Qed.

Lemma htabof_some d i : 0 <= htabof d i -> d_htab d !! i = Some (htabof d i).
Proof. unfold htabof. by destruct (d_htab d !! i). Qed.

(** Too few entries for a search without end. *)
Lemma visited_bounded d i disp : 0 < disp < HSIZE -> (size (d_htab d) < Z.to_nat HSIZE)%nat ->
  ~ (forall j, (j < Z.to_nat HSIZE)%nat -> 0 <= htabof d (visited i disp j)).
Proof.
  intros Hd Hsize H. set (l := map (visited i disp) (seq 0 (Z.to_nat HSIZE))).
  assert (NoDup l) as Hnd.
  { unfold l. apply NoDup_fmap_2_strong; [|apply NoDup_seq]. intros x y Hx Hy.
    apply elem_of_seq in Hx, Hy. apply visited_inj; [done|lia|lia]. }
  assert (list_to_set l ⊆ dom (d_htab d)) as Hsub.
  { intros x Hx. apply elem_of_list_to_set, list_elem_of_fmap in Hx as (j & -> & Hj%elem_of_seq).
    apply elem_of_dom. eexists. apply htabof_some, H. lia. }
  apply subseteq_size in Hsub. rewrite size_list_to_set, size_dom in Hsub by done.
  unfold l in Hsub. rewrite length_fmap, length_seq in Hsub. lia.
Qed.

Lemma lxor_slot c ent : 0 <= c < 256 -> 0 <= ent < 65536 -> 0 <= Z.lxor (c .<< 8) ent < 65536.
Proof.
  intros Hc He. change 65536 with (2 ^ 16). apply bits_bound; [done| |].
  - apply Z.lxor_nonneg. split; intros; [lia|]. apply Z.shiftl_nonneg. lia.
  - intros j Hj. rewrite Z.lxor_spec, shl_bit by lia.
    rewrite (pow2_bit_high ent 16 j), (pow2_bit_high c 8 (j - 8)) by lia. by rewrite andb_false_r.
Qed.

Lemma hshift_8 : hshift_of HSIZE = 8.
Proof. reflexivity. Qed.

Lemma search_spec d c ent : 0 <= c < 256 -> 0 <= ent < 65536 -> (size (d_htab d) < Z.to_nat HSIZE)%nat ->
  match search d mb HSIZE 8 c ent with
  | WOk s => slot_spec d ((c .<< mb) + ent) s
  | _ => False
  end.
Proof.
  intros Hc He Hsize. unfold search. pose proof (lxor_slot c ent Hc He) as Hi. set (i := Z.lxor _ _) in *.
  assert (0 <= i < HSIZE) as Hi' by (unfold HSIZE; lia).
  assert (in_table i = true) as ->.
  { unfold in_table. rewrite (proj2 (Z.leb_le _ _)), (proj2 (Z.ltb_lt _ _)) by lia. done. }
  cbn [negb]. destruct (Z.eqb_spec (htabof d i) ((c .<< mb) + ent)) as [E|E]; [by exists i|].
  destruct (Z.ltb_spec (htabof d i) 0) as [H0|H0]; [done|].
  set (disp := if i =? 0 then 1 else HSIZE - i).
  assert (0 < disp < HSIZE) as Hd by (unfold disp, HSIZE in *; destruct (Z.eqb_spec i 0); lia).
  pose proof (probe_spec d disp ((c .<< mb) + ent) Hd (Z.to_nat HSIZE) i Hi') as Hp.
  destruct (probe _ _ _ _ _ _) as [s| | |]; try done. by apply (visited_bounded d i disp Hd Hsize).
Qed.

(** * The writer's table *)

Record dict_inv (d : dict) (S : strs) : Prop := {
  di_free : d_free_ent d = first_free S;
  di_cap : first_free S <= maxmaxcode mb;
  di_strs : strs_ok S;
  di_size : (size (d_htab d) <= length S)%nat;
  di_entries : forall i v, d_htab d !! i = Some v ->
    0 <= i < HSIZE /\ exists c ent, v = (c .<< mb) + ent /\ 0 <= c < 256 /\ valid (first_free S) ent /\
      valid (first_free S) (codetabof d i) /\ str S (codetabof d i) = str S ent ++ [c] }.

Lemma fcode_inj c ent c' ent' : 0 <= ent < 2 ^ mb -> 0 <= ent' < 2 ^ mb ->
  (c .<< mb) + ent = (c' .<< mb) + ent' -> c = c' /\ ent = ent'.
Proof.
  intros He He'. rewrite !Z.shiftl_mul_pow2 by lia. intros E.
  apply (Z.div_mod_unique (2 ^ mb)); [by left|by left|lia].
Qed.

Lemma valid_mode d S ent : dict_inv d S -> valid (first_free S) ent -> 0 <= ent < 2 ^ mb /\ 0 <= ent < 65536.
Proof.
  intros Hd [H _]. pose proof (di_cap d S Hd). pose proof (maxmax_bounds mb Hmb).
  rewrite <- (maxmaxcode_eq mb Hmb). lia.
Qed.

Lemma dict_size d S : dict_inv d S -> (size (d_htab d) < Z.to_nat HSIZE)%nat.
Proof.
  intros Hd. pose proof (di_size d S Hd). pose proof (di_cap d S Hd) as Hcap. pose proof (maxmax_bounds mb Hmb).
  unfold first_free, FIRST, HSIZE in *. lia.
Qed.

Lemma dict_found d S c ent code : dict_inv d S -> 0 <= c < 256 -> valid (first_free S) ent ->
  slot_spec d ((c .<< mb) + ent) (Found code) -> valid (first_free S) code /\ str S code = str S ent ++ [c].
Proof.
  intros Hd Hc He (i & Hi & Hv & <-). destruct (valid_mode d S ent Hd He) as [He1 _].
  assert (0 <= htabof d i) as Hpos by (rewrite Hv, Z.shiftl_mul_pow2 by lia; nia).
  destruct (di_entries d S Hd i _ (htabof_some d i Hpos)) as (_ & c' & ent' & E & Hc' & He' & Hcode & Hs).
  rewrite Hv in E. apply fcode_inj in E as [<- <-]; [done|done|]. by apply (valid_mode d S ent' Hd).
Qed.

Lemma dict_insert d S c ent i : dict_inv d S -> 0 <= c < 256 -> valid (first_free S) ent ->
  slot_spec d ((c .<< mb) + ent) (Empty i) -> first_free S < maxmaxcode mb ->
  dict_inv (Dict (<[i := (c .<< mb) + ent]> (d_htab d)) (<[i := d_free_ent d]> (d_codetab d)) (d_free_ent d + 1))
    (S ++ [str S ent ++ [c]]).
Proof.
  intros Hd Hc He [Hi Hneg] Hcap. destruct (valid_mode d S ent Hd He) as [He1 _].
  assert (first_free (S ++ [str S ent ++ [c]]) = first_free S + 1) as Ef.
  { unfold first_free. rewrite length_app. cbn [length]. lia. }
  split; cbn [d_htab d_codetab d_free_ent].
  - rewrite Ef, (di_free d S Hd). done.
  - lia.
  - apply strs_ok_snoc; [apply Hd|done|done].
  - rewrite length_app. cbn [length]. pose proof (di_size d S Hd).
    rewrite map_size_insert. destruct (d_htab d !! i); cbn; lia.
  - intros i' v Hv. rewrite Ef. unfold codetabof. cbn [d_codetab].
    destruct (decide (i = i')) as [<-|Hne].
    + rewrite lookup_insert_eq in Hv. injection Hv as <-. rewrite lookup_insert_eq. cbn [default from_option id].
      split; [done|]. exists c, ent. rewrite (di_free d S Hd). split_and!; try done; try lia.
      * apply (valid_le _ _ _ He). lia.
      * split; [unfold first_free, FIRST; lia|unfold first_free, FIRST, CLEAR; lia].
      * by rewrite str_new, str_snoc.
    + rewrite lookup_insert_ne in Hv by done. rewrite lookup_insert_ne by done.
      destruct (di_entries d S Hd i' v Hv) as (Hi' & c' & ent' & -> & Hc' & He' & Hcode & Hs).
      split; [done|]. exists c', ent'. split_and!; try done; try lia.
      * apply (valid_le _ _ _ He'). lia.
      * apply (valid_le _ _ _ Hcode). lia.
      * rewrite !str_snoc; done.
Qed.

Lemma dict_cleared d S : dict_inv d S ->
  dict_inv (Dict (d_htab (cl_hash d HSIZE)) (d_codetab (cl_hash d HSIZE)) FIRST) [].
Proof.
  intros Hd. pose proof (maxmax_bounds mb Hmb).
  assert (d_htab (cl_hash d HSIZE) = ∅) as E.
  { unfold cl_hash. cbn [d_htab]. apply map_eq. intros i. rewrite lookup_empty. apply eq_None_not_Some.
    intros [v Hv]. apply map_lookup_filter_Some in Hv as [Hv Hn]. apply Hn, (di_entries d S Hd i v Hv). }
  split; cbn [d_htab d_codetab d_free_ent].
  - done.
  - unfold first_free, FIRST. simpl. lia.
  - apply strs_ok_nil.
  - by rewrite E, map_size_empty.
  - intros i v. by rewrite E, lookup_empty.
Qed.

Lemma dict_start d : d_htab d = ∅ ->
  dict_inv (Dict (d_htab (cl_hash d HSIZE)) (d_codetab (cl_hash d HSIZE)) FIRST) [].
Proof.
  intros E. pose proof (maxmax_bounds mb Hmb). unfold cl_hash. cbn [d_htab d_codetab]. rewrite E, map_filter_empty.
  split; cbn [d_htab d_codetab d_free_ent].
  - done.
  - unfold first_free, FIRST. simpl. lia.
  - apply strs_ok_nil.
  - by rewrite map_size_empty.
  - intros i v. by rewrite lookup_empty.
Qed.

End Lzw.
