(* ===== verification/ZopenWrite.v ===== *)
(** The writer: [zwrite] and [zclose] produce a file that holds a code sequence the
    reference decoder takes back to the text written. *)

From stdpp Require Import gmap.
From S2P Require Import Prelude Zopen ZopenBits ZopenStream ZopenLzw.

Section Writer.
Context (fwrite_ok : list Z -> list Z -> bool) (mb : Z) (Hmb : 12 <= mb <= 16).

(** The reader's dictionary [Sr] after the codes written, and how the writer's [Sw]
    is ahead of it by the entry the next code will complete. *)
Definition ahead (Sr Sw : strs) (old : option Z) (ent : Z) : Prop :=
  match old with
  | None => Sr = [] /\ Sw = []
  | Some o =>
    valid (first_free Sr) o /\
    if first_free Sr <? maxmaxcode mb
    then exists h t, str Sw ent = h :: t /\ Sw = Sr ++ [str Sr o ++ [h]]
    else Sw = Sr
  end.

Record w_rel (hdr : list Z) (z : zw) (text : list Z) (sc : sched) (codes T : list Z) (Sr Sw : strs)
    (old : option Z) : Prop := {
  wr_state : w_state z = S_MIDDLE;
  wr_maxbits : w_maxbits z = mb;
  wr_hsize : w_hsize z = HSIZE;
  wr_hsize_reg : w_hsize_reg z = HSIZE;
  wr_hshift : w_hshift z = 8;
  wr_out : out_inv mb hdr (w_out z) sc codes;
  wr_run : ref_run mb [] None codes = Some (T, Sr, old);
  wr_dict : dict_inv mb (w_dict z) Sw;
  wr_count : free_at mb (s_k sc) = first_free Sw;
  wr_ent : valid (first_free Sw) (w_ent z);
  wr_ahead : ahead Sr Sw old (w_ent z);
  wr_text : T ++ str Sw (w_ent z) = text;
  wr_first : head codes <> Some CLEAR }.

Definition w_inv (hdr : list Z) (z : zw) (text : list Z) : Prop :=
  exists sc codes T Sr Sw old, w_rel hdr z text sc codes T Sr Sw old.

Lemma ref_run_snoc codes T S old c : ref_run mb [] None codes = Some (T, S, old) ->
  ref_run mb [] None (codes ++ [c]) =
    if c =? CLEAR then Some (T, [], None)
    else '(x, S') ← ref_step mb S old c; Some (T ++ x, S', Some c).
Proof.
  intros E. rewrite ref_run_app, E. cbn. destruct (c =? CLEAR).
  - cbn. by rewrite app_nil_r.
  - destruct (ref_step mb S old c) as [[x S']|]; [|done]. cbn. by rewrite app_nil_r.
Qed.

(** The pending code decodes to its string and brings the reader level. *)
Lemma ref_step_ent Sr Sw old ent : strs_ok Sw -> first_free Sw <= maxmaxcode mb -> valid (first_free Sw) ent ->
  ahead Sr Sw old ent -> ref_step mb Sr old ent = Some (str Sw ent, Sw).
Proof.
  intros Hok Hcap Hv Ha. destruct old as [o|]; unfold ahead in Ha; unfold ref_step.
  - destruct Ha as [Ho Ha]. destruct (Z.ltb_spec (first_free Sr) (maxmaxcode mb)) as [Hlt|Hge].
    + destruct Ha as (h & t & Eh & ->).
      assert (first_free (Sr ++ [str Sr o ++ [h]]) = first_free Sr + 1) as Ef.
      { unfold first_free. rewrite length_app. cbn [length]. lia. }
      assert (exists h' t', str Sr o = h' :: t') as (h' & t' & Eo).
      { rewrite <- (str_snoc _ (str Sr o ++ [h])) by done. apply str_nonempty; [done|].
        apply (valid_le _ _ _ Ho). lia. }
      destruct (Z.ltb_spec ent (first_free Sr)) as [Hl|Hg].
      * cbn [mbind option_bind]. rewrite <- (str_snoc Sr (str Sr o ++ [h]) ent) by (split; [destruct Hv; lia|apply Hv]).
        by rewrite Eh.
      * assert (ent = first_free Sr) as -> by (destruct Hv; lia). rewrite Z.eqb_refl.
        cbn [mbind option_bind]. rewrite str_new in *. rewrite Eo in *. cbn [head mbind option_bind app] in *.
        by injection Eh as -> _.
    + subst Sw. rewrite (proj2 (Z.ltb_lt _ _)) by (destruct Hv; lia). done.
  - destruct Ha as [-> ->]. destruct Hv as [Hv Hcl]. rewrite (proj2 (Z.ltb_lt _ _)) by lia. done.
Qed.

(** The pending code is written. *)
Lemma write_ent hdr z text sc codes T Sr Sw old : w_rel hdr z text sc codes T Sr Sw old ->
  match zoutput fwrite_ok (w_ent z) z with
  | WOk z' => exists o', z' = set_out o' z /\ out_inv mb hdr o' (sched_step mb sc (w_ent z)) (codes ++ [w_ent z]) /\
      ref_run mb [] None (codes ++ [w_ent z]) = Some (text, Sw, Some (w_ent z)) /\
      head (codes ++ [w_ent z]) <> Some CLEAR
  | WErr => exists file data, fwrite_ok file data = false
  | _ => False
  end.
Proof.
  intros [Hst Hm Hh Hr Hsh Hout Hrun Hd Hcnt Hent Ha Htext Hfirst]. unfold zoutput.
  assert (w_ent z =? CLEAR = false) as Ec by (apply Z.eqb_neq, Hent).
  pose proof (output_code mb Hmb fwrite_ok hdr (w_out z) sc codes (w_ent z)) as Hoc.
  rewrite Ec, Hcnt in Hoc. rewrite Hm, (di_free _ _ _ Hd).
  assert (0 <= w_ent z < 2 ^ s_n sc) as Hrange.
  { destruct (oi_sched _ _ _ _ _ Hout) as (_ & _ & _ & Hf). rewrite Hcnt in Hf. destruct Hent. lia. }
  specialize (Hoc Hrange Hout).
  destruct (output fwrite_ok mb (first_free Sw) (w_ent z) (w_out z)) as [o'| | |]; cbn [mbind wres_bind]; try done.
  exists o'. split; [done|]. split; [done|]. split.
  - rewrite (ref_run_snoc _ _ _ _ _ Hrun), Ec.
    rewrite (ref_step_ent Sr Sw old) by first [done|apply Hd]. cbn [mbind option_bind]. by rewrite Htext.
  - destruct codes; [|done]. cbn. intros [= E]. by destruct Hent.
Qed.

Lemma free_at_succ sc c Sw : sched_ok mb sc -> c <> CLEAR -> free_at mb (s_k sc) = first_free Sw ->
  free_at mb (s_k (sched_step mb sc c)) =
    if first_free Sw <? maxmaxcode mb then first_free Sw + 1 else first_free Sw.
Proof.
  intros (_ & Hk & _) Hc E. rewrite sched_step_k by done.
  unfold free_at in *. destruct (Z.ltb_spec (first_free Sw) (maxmaxcode mb)); lia.
Qed.

(** The reset of the table. *)
Lemma cl_block_spec hdr z text sc codes Sw o c :
  w_state z = S_MIDDLE -> w_maxbits z = mb -> w_hsize z = HSIZE -> w_hsize_reg z = HSIZE -> w_hshift z = 8 ->
  w_ent z = c -> 0 <= c < 256 ->
  out_inv mb hdr (w_out z) sc codes -> ref_run mb [] None codes = Some (text, Sw, Some o) ->
  head codes <> Some CLEAR ->
  dict_inv mb (w_dict z) Sw -> free_at mb (s_k sc) = first_free Sw -> valid (first_free Sw) o ->
  maxmaxcode mb <= first_free Sw ->
  match cl_block fwrite_ok z with
  | WOk z' => w_inv hdr z' (text ++ [c])
  | WErr => exists file data, fwrite_ok file data = false
  | _ => False
  end.
Proof.
  intros Hst Hm Hh Hr Hsh He Hc Hout Hrun Hfirst Hd Hcnt Ho Hcap. unfold cl_block.
  set (rat := if _ <? w_in_count z then _ else _).
  assert (valid (first_free Sw) c) as Hvc.
  { split; [unfold first_free, FIRST; lia|unfold CLEAR; lia]. }
  assert (str Sw c = [c]) as Esc by (unfold str; by rewrite (proj2 (Z.ltb_lt _ _)) by lia).
  destruct (w_ratio z <? rat).
  - exists sc, codes, text, Sw, Sw, (Some o). split; cbn; try done; rewrite ?He; try done.
    + split; [done|]. by rewrite (proj2 (Z.ltb_ge _ _)) by lia.
    + by rewrite Esc.
  - unfold zoutput. cbn [w_maxbits w_dict w_out set_out set_dict set_stats d_free_ent].
    rewrite Hm. pose proof (output_code mb Hmb fwrite_ok hdr (w_out z) sc codes CLEAR) as Hoc.
    rewrite Z.eqb_refl in Hoc.
    assert (0 <= CLEAR < 2 ^ s_n sc) as Hrange.
    { destruct (oi_sched _ _ _ _ _ Hout) as (Hn & _). unfold CLEAR. split; [lia|].
      apply (Z.lt_le_trans _ (2 ^ 9)); [done|]. apply Z.pow_le_mono_r; lia. }
    specialize (Hoc Hrange Hout). destruct (output fwrite_ok mb FIRST CLEAR _) as [o'| | |]; cbn [mbind wres_bind]; try done.
    exists (sched_step mb sc CLEAR), (codes ++ [CLEAR]), text, [], [], None. split; cbn; try done.
    + rewrite (ref_run_snoc _ _ _ _ _ Hrun), ?Z.eqb_refl. done.
    + rewrite Hh. apply (dict_cleared mb Hmb _ Sw Hd).
    + unfold free_at, sched_step. rewrite ?Z.eqb_refl. cbn [s_k]. pose proof (maxmax_bounds mb Hmb).
      unfold first_free, FIRST. cbn [length]. lia.
    + rewrite He. split; [unfold first_free, FIRST; simpl; lia|unfold CLEAR; lia].
    + rewrite He. unfold str. by rewrite (proj2 (Z.ltb_lt _ _)) by lia.
    + by destruct codes.
Qed.

(** One more character. *)
Lemma zwrite_char_spec hdr z text c : 0 <= c < 256 -> w_inv hdr z text ->
  match zwrite_char fwrite_ok c z with
  | WOk z' => w_inv hdr z' (text ++ [c])
  | WErr => exists file data, fwrite_ok file data = false
  | _ => False
  end.
Proof.
  intros Hc (sc & codes & T & Sr & Sw & old & Hrel). unfold zwrite_char.
  set (z1 := set_stats (w_ratio z) (w_checkpoint z) (w_in_count z + 1) (w_out_count z) z).
  assert (w_rel hdr z1 text sc codes T Sr Sw old) as Hrel1 by (by destruct Hrel; split).
  clearbody z1. clear Hrel z. rename z1 into z.
  pose proof Hrel1 as [Hst Hm Hh Hr Hsh Hout Hrun Hd Hcnt Hent Ha Htext Hfirst].
  destruct (valid_mode mb Hmb _ _ _ Hd Hent) as [He1 He2].
  pose proof (search_spec mb (w_dict z) c (w_ent z) Hc He2 (dict_size mb Hmb _ _ Hd)) as Hs.
  rewrite Hm, Hr, Hsh. destruct (search _ _ _ _ _ _) as [sl| | |]; try done. cbn [mbind wres_bind].
  destruct sl as [code|i].
  - destruct (dict_found mb Hmb _ _ _ _ _ Hd Hc Hent Hs) as [Hv Es].
    exists sc, codes, T, Sr, Sw, old. split; cbn; try done.
    + destruct old as [o|]; [|done]. destruct Ha as [Ho Ha]. split; [done|].
      destruct (first_free Sr <? maxmaxcode mb); [|done]. destruct Ha as (h & t & Eh & ESw).
      exists h, (t ++ [c]). rewrite Es, Eh. done.
    + by rewrite Es, app_assoc, Htext.
  - pose proof (write_ent hdr z text sc codes T Sr Sw old Hrel1) as Hw.
    destruct (zoutput fwrite_ok (w_ent z) z) as [z'| | |]; try done. cbn [mbind wres_bind].
    destruct Hw as (o' & -> & Hout' & Hrun' & Hfirst').
    unfold set_ent, set_stats, set_dict, set_out.
    cbn [w_dict w_maxbits w_checkpoint w_in_count w_block_compress w_state w_hsize w_out w_ratio w_out_count w_ent w_hsize_reg w_hshift].
    assert (w_ent z <> CLEAR) as Hne by apply Hent.
    pose proof (free_at_succ sc (w_ent z) Sw (oi_sched _ _ _ _ _ Hout) Hne Hcnt) as Hcnt'.
    rewrite (di_free _ _ _ Hd), Hm. destruct (Z.ltb_spec (first_free Sw) (maxmaxcode mb)) as [Hlt|Hge].
    + assert (str (Sw ++ [str Sw (w_ent z) ++ [c]]) c = [c]) as Esc by (unfold str at 1; by rewrite (proj2 (Z.ltb_lt _ _)) by lia).
      assert (first_free (Sw ++ [str Sw (w_ent z) ++ [c]]) = first_free Sw + 1) as Ef.
      { unfold first_free. rewrite length_app. cbn [length]. lia. }
      pose proof (dict_insert mb Hmb _ _ _ _ i Hd Hc Hent Hs Hlt) as Hd'. rewrite (di_free _ _ _ Hd) in Hd'.
      exists (sched_step mb sc (w_ent z)), (codes ++ [w_ent z]), text, Sw, (Sw ++ [str Sw (w_ent z) ++ [c]]), (Some (w_ent z)).
      split; cbn [w_dict w_maxbits w_state w_hsize w_out w_ent w_hsize_reg w_hshift]; try done.
      * by rewrite Ef.
      * rewrite Ef. split; [unfold first_free, FIRST; lia|unfold CLEAR; lia].
      * split; [done|]. rewrite (proj2 (Z.ltb_lt _ _)) by done. by exists c, [].
      * by rewrite Esc.
    + set (z2 := ZW _ _ _ _ _ _ _ _ _ _ _ _ _). destruct (_ && _).
      * apply (cl_block_spec hdr z2 text (sched_step mb sc (w_ent z)) (codes ++ [w_ent z]) Sw (w_ent z)); try done.
      * assert (str Sw c = [c]) as Esc by (unfold str; by rewrite (proj2 (Z.ltb_lt _ _)) by lia).
        exists (sched_step mb sc (w_ent z)), (codes ++ [w_ent z]), text, Sw, Sw, (Some (w_ent z)).
        split; cbn [z2 w_dict w_maxbits w_state w_hsize w_out w_ent w_hsize_reg w_hshift]; try done.
        -- split; [unfold first_free, FIRST; lia|unfold CLEAR; lia].
        -- split; [done|]. by rewrite (proj2 (Z.ltb_ge _ _)) by lia.
        -- by rewrite Esc.
Qed.

Lemma zwrite_loop_spec hdr bp : bytes bp -> forall z text, w_inv hdr z text ->
  match zwrite_loop fwrite_ok bp z with
  | WOk z' => w_inv hdr z' (text ++ bp)
  | WErr => exists file data, fwrite_ok file data = false
  | _ => False
  end.
Proof.
  induction 1 as [|c bp Hc Hbp IH]; intros z text Hz; cbn [zwrite_loop]; [by rewrite app_nil_r|].
  pose proof (zwrite_char_spec hdr z text c Hc Hz) as Hs.
  destruct (zwrite_char fwrite_ok c z) as [z'| | |]; try done. cbn [mbind wres_bind].
  specialize (IH z' _ Hs). by rewrite <- app_assoc in IH.
Qed.

(** ** The stream from the start *)

Definition header : list Z := magic_header ++ [u8 (mb .| BLOCK_MASK)].

Definition started (z : zw) (text : list Z) : Prop :=
  match text with
  | [] => z = ZW S_START mb HSIZE BLOCK_MASK (OutBuf [] 0 0 0 0 0 (replicate 16 0)) (Dict ∅ ∅ 0) 0 CHECK_GAP 1 0 0 0 0
  | _ => w_inv header z text
  end.

Lemma zwrite_spec bp z text : bytes bp -> started z text ->
  match zwrite fwrite_ok bp z with
  | WOk z' => started z' (text ++ bp)
  | WErr => exists file data, fwrite_ok file data = false
  | _ => False
  end.
Proof.
  intros Hbp Hz. unfold zwrite. destruct bp as [|c bp]; [by rewrite app_nil_r|].
  destruct text as [|a text].
  - unfold started in Hz. subst z. cbn [w_state w_out w_maxbits w_block_compress o_file w_dict w_hsize app].
    destruct (fwrite_ok [] magic_header) eqn:E1; cbn [negb]; [|by eauto].
    destruct (fwrite_ok magic_header _) eqn:E2; cbn [negb]; [|by eauto].
    apply Forall_cons in Hbp as [Hc Hbp].
    set (z := ZW _ _ _ _ _ _ _ _ _ _ _ _ _). unfold started. cbn [app].
    apply (zwrite_loop_spec header bp Hbp z [c]).
    assert (valid (first_free []) c) as Hvc by (split; [unfold first_free, FIRST; simpl; lia|unfold CLEAR; lia]).
    pose proof (maxmax_bounds mb Hmb).
    exists sched_start, [], [], [], [], None. split; try done.
    + split; try done.
      * by apply sched_start_ok.
      * cbn. unfold maxc, INIT_BITS. by rewrite (proj2 (Z.eqb_neq 9 mb)) by lia.
      * unfold bytes. cbn. repeat (apply Forall_cons; split; [lia|]). by apply Forall_nil_2.
      * exists []. split_and!; [by rewrite app_nil_r|apply Forall_nil_2|].
        intros cs g rest Hg Hrest. unfold group_fits in Hg. cbn in Hg. subst g. done.
    + apply (dict_start mb Hmb (Dict ∅ ∅ 0)). done.
    + unfold free_at, first_free, FIRST. cbn [s_k sched_start length]. lia.
    + cbn. unfold str. by rewrite (proj2 (Z.ltb_lt _ _)) by lia.
  - unfold started in Hz. assert (w_state z = S_MIDDLE) as Hst by (destruct Hz as (? & ? & ? & ? & ? & ? & Hz); apply Hz).
    rewrite Hst. by apply (zwrite_loop_spec header (c :: bp) Hbp z (a :: text)).
Qed.

Lemma zwrites_spec bufs : Forall bytes bufs -> forall z text, started z text ->
  match foldl (fun z bp => z ← z; zwrite fwrite_ok bp z) (WOk z) bufs with
  | WOk z' => started z' (text ++ concat bufs)
  | WErr => exists file data, fwrite_ok file data = false
  | _ => False
  end.
Proof.
  assert (forall bufs, foldl (fun z bp => z ← z; zwrite fwrite_ok bp z) WErr bufs = WErr) as Herr
    by (intros l; induction l; done).
  induction 1 as [|bp bufs Hbp Hbufs IH]; intros z text Hz; cbn [foldl concat]; [by rewrite app_nil_r|].
  pose proof (zwrite_spec bp z text Hbp Hz) as Hs. cbn [mbind wres_bind].
  destruct (zwrite fwrite_ok bp z) as [z'| | |]; try done.
  - rewrite app_assoc. by apply IH.
  - by rewrite Herr.
Qed.

Lemma zclose_spec z text : text <> [] -> started z text ->
  match zclose fwrite_ok z with
  | WOk file => exists body codes S old, file = header ++ body /\ bytes body /\
      rest_ok mb sched_start codes [] body /\ head codes <> Some CLEAR /\ ref_run mb [] None codes = Some (text, S, old)
  | WErr => exists file data, fwrite_ok file data = false
  | _ => False
  end.
Proof.
  intros Hne Hz. destruct text as [|a text]; [done|].
  destruct Hz as (sc & codes & T & Sr & Sw & old & Hrel). unfold zclose.
  pose proof (write_ent _ _ _ _ _ _ _ _ _ Hrel) as Hw.
  destruct (zoutput fwrite_ok (w_ent z) z) as [z'| | |]; try done. cbn [mbind wres_bind].
  destruct Hw as (o' & -> & Hout' & Hrun' & Hfirst'). unfold zoutput. cbn [set_out w_maxbits w_dict w_out].
  rewrite (wr_maxbits _ _ _ _ _ _ _ _ _ Hrel).
  pose proof (output_eof mb Hmb fwrite_ok _ _ _ _ (d_free_ent (w_dict z)) Hout') as He.
  destruct (output fwrite_ok mb _ (-1) o') as [o2| | |]; try done. cbn [mbind wres_bind set_out w_out].
  destruct He as (body & Ef & Hb & Hrest). exists body, (codes ++ [w_ent z]), Sw, (Some (w_ent z)).
  split_and!; done.
Qed.

End Writer.
