(* ===== verification/ZopenRead.v ===== *)
(** The reader: on a file that holds a code sequence [zread] delivers, in pieces of
    any sizes, the text the reference decoder gives. *)

From stdpp Require Import gmap.
From S2P Require Import Prelude Zopen ZopenBits ZopenStream ZopenLzw.

Section Reader.
Context (mb : Z) (Hmb : 12 <= mb <= 16).

(** * The table *)

Record table_inv (t : table) (S : strs) : Prop := {
  ti_free : t_free_ent t = first_free S;
  ti_cap : first_free S <= maxmaxcode mb;
  ti_suffix : forall i, 0 <= i < 256 -> tab_suffixof t i = i;
  ti_entries : forall j s, S !! j = Some s ->
    let p := tab_prefixof t (FIRST + Z.of_nat j) in let c := tab_suffixof t (FIRST + Z.of_nat j) in
    s = str S p ++ [c] /\ valid (FIRST + Z.of_nat j) p /\ 0 <= c < 256 }.

Lemma table_strs t S : table_inv t S -> strs_ok S.
Proof. intros Ht j s Hj. destruct (ti_entries t S Ht j s Hj) as (E & Hp & Hc). eauto. Qed.

Lemma table_str_length t S code : table_inv t S -> valid (first_free S) code ->
  Z.of_nat (length (str S code)) <= 65536.
Proof.
  intros Ht Hv. destruct (str_shape S (table_strs t S Ht) (Z.to_nat code) code ltac:(lia) Hv) as (_ & _ & H).
  pose proof (ti_cap t S Ht). pose proof (maxmax_bounds mb Hmb). destruct Hv. lia.
Qed.

(** The loop over the prefixes puts the string on the stack but for its first
    character. *)
Lemma push_string_spec t S : table_inv t S -> forall fuel code stack depth,
  valid (first_free S) code -> (length (str S code) <= fuel)%nat ->
  depth + Z.of_nat (length (str S code)) <= STACK_SIZE ->
  exists base stack', push_string fuel t code stack depth =
      Some (stack', depth + Z.of_nat (length (str S code)) - 1, base) /\
    0 <= base < 256 /\ base :: stack' = str S code ++ stack.
Proof.
  intros Ht. induction fuel as [|fuel IH]; intros code stack depth Hv Hf Hd.
  { destruct (str_nonempty S code (table_strs t S Ht) Hv) as (h & tl & E). rewrite E in Hf. simpl in Hf. lia. }
  cbn [push_string]. destruct (Z.leb_spec 256 code) as [Hge|Hlt].
  - destruct (valid_lookup S code Hv Hge) as (j & Hj & Ec & Hl).
    destruct (ti_entries t S Ht j _ Hl) as (E & Hp & Hc). rewrite <- Ec in E, Hp, Hc.
    set (p := tab_prefixof t code) in *. set (c := tab_suffixof t code) in *.
    assert (valid (first_free S) p) as Hvp by (apply (valid_le _ _ _ Hp); destruct Hv; lia).
    destruct (str_nonempty S p (table_strs t S Ht) Hvp) as (h & tl & Eh).
    rewrite E, length_app in Hf, Hd. cbn [length] in Hf, Hd.
    rewrite (proj2 (Z.leb_gt _ _)) by (rewrite Eh in Hd; simpl in Hd; lia).
    destruct (IH p (c :: stack) (depth + 1) Hvp ltac:(lia) ltac:(lia)) as (base & stack' & -> & Hb & Es).
    exists base, stack'. rewrite E, length_app. cbn [length]. split_and!; [do 3 f_equal; lia|lia|lia|].
    by rewrite Es, <- app_assoc.
  - exists code, stack. unfold str. rewrite (proj2 (Z.ltb_lt _ _)) by done. destruct Hv as [Hv _].
    split_and!; [cbn [length]; do 3 f_equal; lia|lia|lia|done].
Qed.

Lemma STACK_big : STACK_SIZE = 486472.
Proof. reflexivity. Qed.

(** What the loop knows of the previous code. *)
Definition old_rel (S : strs) (old : option Z) (oldcode finchar : Z) : Prop :=
  match old with
  | None => oldcode = -1
  | Some o => oldcode = o /\ valid (first_free S) o /\ head (str S o) = Some finchar
  end.

Lemma emit_string t S code : table_inv t S -> valid (first_free S) code -> forall stack,
  (length stack <= 1)%nat ->
  exists h, head (str S code) = Some h /\
    match push_string (Datatypes.S (Z.to_nat STACK_SIZE)) t code stack (Z.of_nat (length stack)) with
    | None => DOverrun
    | Some (stack, depth, code) =>
      if STACK_SIZE <=? depth then DOverrun
      else DString (tab_suffixof t code :: stack) (tab_suffixof t code)
    end = DString (str S code ++ stack) h.
Proof.
  intros Ht Hv stack Hst. pose proof (table_str_length t S code Ht Hv) as Hlen. pose proof STACK_big as Hss.
  destruct (push_string_spec t S Ht (Datatypes.S (Z.to_nat STACK_SIZE)) code stack (Z.of_nat (length stack)) Hv)
    as (base & stack' & -> & Hb & Es); [lia|lia|].
  rewrite (proj2 (Z.leb_gt _ _)) by lia. rewrite (ti_suffix t S Ht base Hb), <- Es.
  exists base. split; [|done]. destruct (str_nonempty S code (table_strs t S Ht) Hv) as (h & tl & E).
  rewrite E in *. by injection Es as ->.
Qed.

(** The string decoded: a known one, or the one being defined. *)
Definition string_of (S : strs) (old : option Z) (c : Z) (x : list Z) (h : Z) : Prop :=
  head x = Some h /\ 0 <= h < 256 /\
  (valid (first_free S) c /\ x = str S c \/
   exists o, old = Some o /\ c = first_free S /\ x = str S o ++ [h]).

Lemma decode_string t S old oldcode finchar c x S' : table_inv t S -> old_rel S old oldcode finchar ->
  0 <= c < maxmaxcode mb -> c <> CLEAR -> ref_step mb S old c = Some (x, S') ->
  exists h, decode t oldcode finchar c [] = DString x h /\ string_of S old c x h.
Proof.
  intros Ht Ho Hc Hcl Hstep. pose proof STACK_big as Hss. pose proof (table_strs t S Ht) as Hok.
  unfold string_of, decode, ref_step in *. rewrite (ti_free t S Ht).
    destruct (Z.ltb_spec c (first_free S)) as [Hlt|Hge].
    - rewrite (proj2 (Z.leb_gt _ _)) by lia. assert (valid (first_free S) c) as Hv by (split; [lia|done]).
      destruct (emit_string t S c Ht Hv [] ltac:(simpl; lia)) as (h & Hh & E). exists h.
      assert (x = str S c) as ->.
      { cbn [mbind option_bind] in Hstep. destruct old as [o|]; [|by injection Hstep].
        destruct (first_free S <? maxmaxcode mb); [|by injection Hstep]. rewrite Hh in Hstep. by injection Hstep. }
      rewrite E, app_nil_r. split_and!; try done; [| |by left].
      all: destruct (str_shape S Hok (Z.to_nat c) c ltac:(lia) Hv) as (_ & Hb & _);
        destruct (str S c) as [|h' tl]; [done|]; injection Hh as ->; apply Forall_cons in Hb as [Hb _]; lia.
    - rewrite (proj2 (Z.leb_le _ _)) by lia. destruct (Z.eqb_spec c (first_free S)) as [->|]; [|done].
      destruct old as [o|]; [|done]. destruct Ho as (-> & Hv & Hfin).
      rewrite Z.ltb_irrefl, (proj2 (Z.eqb_neq _ _)) by (destruct Hv; lia). cbn [orb length].
      rewrite (proj2 (Z.leb_gt _ _)) by lia. cbn [mbind option_bind] in Hstep. rewrite Hfin in Hstep. cbn in Hstep.
      assert (0 <= finchar < 256) as Hfb.
      { destruct (str_shape S Hok (Z.to_nat o) o ltac:(lia) Hv) as (_ & Hb & _).
        destruct (str S o) as [|h' tl]; [done|]. injection Hfin as ->. by apply Forall_cons in Hb as [Hb _]. }
      rewrite (u8_small finchar) by lia.
      destruct (emit_string t S o Ht Hv [finchar] ltac:(simpl; lia)) as (h & Hh & E).
      assert (h = finchar) as -> by congruence. exists finchar.
      assert (x = str S o ++ [finchar]) as ->.
      { destruct (first_free S <? maxmaxcode mb); [|by injection Hstep].
        destruct (head (str S o ++ [finchar])); [|done]. by injection Hstep. }
      assert (head (str S o ++ [finchar]) = Some finchar) as Hhead.
      { destruct (str S o); [done|]. by injection Hh as ->. }
      split_and!; try done; try lia. right. by exists o.
Qed.

(** The table with one more entry. *)
Lemma table_insert t S o h : table_inv t S -> valid (first_free S) o -> 0 <= h < 256 ->
  first_free S < maxmaxcode mb ->
  table_inv (Table (<[first_free S := u16 o]> (t_prefix t)) (<[first_free S := u8 h]> (t_suffix t)) (first_free S + 1))
    (S ++ [str S o ++ [h]]).
Proof.
  intros Ht Ho Hh Hcap. pose proof (maxmax_bounds mb Hmb).
  assert (first_free (S ++ [str S o ++ [h]]) = first_free S + 1) as Ef.
  { unfold first_free. rewrite length_app. cbn [length]. lia. }
  assert (u16 o = o) as -> by (apply u16_small; destruct Ho; lia).
  rewrite (u8_small h) by lia.
  split; cbn [t_free_ent].
  - lia.
  - lia.
  - intros i Hi. unfold tab_suffixof. cbn [t_suffix]. rewrite lookup_insert_ne by (unfold first_free, FIRST; lia).
    by apply (ti_suffix t S Ht).
  - intros j s Hj. unfold tab_prefixof, tab_suffixof. cbn [t_prefix t_suffix].
    apply lookup_app_Some in Hj as [Hj|[Hlen Hj]].
    + pose proof (lookup_lt_Some _ _ _ Hj). rewrite !lookup_insert_ne by (unfold first_free; lia).
      destruct (ti_entries t S Ht j s Hj) as (E & Hp & Hc). split; [|done].
      rewrite str_snoc; [done|]. apply (valid_le _ _ _ Hp). unfold first_free. lia.
    + destruct (j - length S)%nat as [|m] eqn:Em; [|done]. injection Hj as <-.
      replace (FIRST + Z.of_nat j) with (first_free S) by (unfold first_free; lia).
      rewrite !lookup_insert_eq. cbn [default from_option id].
      split; [by rewrite str_snoc|done].
Qed.

Lemma new_entry_spec t S old oldcode finchar c x S' h : table_inv t S -> old_rel S old oldcode finchar ->
  c < maxmaxcode mb -> ref_step mb S old c = Some (x, S') -> string_of S old c x h ->
  table_inv (new_entry mb oldcode h t) S' /\ old_rel S' (Some c) c h /\
  first_free S' = (if old then if first_free S <? maxmaxcode mb then first_free S + 1 else first_free S else first_free S).
Proof.
  intros Ht Ho Hc Hstep (Hh & Hhb & Hx). unfold new_entry. rewrite (ti_free t S Ht).
  destruct old as [o|].
  - destruct Ho as (-> & Hv & Hfin). rewrite (proj2 (Z.eqb_neq _ _)) by (destruct Hv; lia).
    rewrite andb_true_r. unfold ref_step in Hstep.
    assert (S' = if first_free S <? maxmaxcode mb then S ++ [str S o ++ [h]] else S) as ->.
    { destruct (if c <? first_free S then _ else _) as [x'|]; [|done]. cbn [mbind option_bind] in Hstep.
      destruct (first_free S <? maxmaxcode mb); [|by injection Hstep].
      destruct (head x') as [h'|] eqn:E'; [|done]. cbn in Hstep. injection Hstep as -> <-. congruence. }
    destruct (Z.ltb_spec (first_free S) (maxmaxcode mb)) as [Hlt|Hge].
    + assert (first_free (S ++ [str S o ++ [h]]) = first_free S + 1) as Ef.
      { unfold first_free. rewrite length_app. cbn [length]. lia. }
      split; [by apply table_insert|split; [|done]]. split; [done|]. rewrite Ef.
      destruct Hx as [[Hvc ->]|(o' & [= <-] & -> & ->)].
      * split; [apply (valid_le _ _ _ Hvc); lia|]. by rewrite str_snoc.
      * split; [split; [unfold first_free, FIRST; lia|unfold first_free, FIRST, CLEAR; lia]|]. by rewrite str_new.
    + split; [done|split; [|done]]. split; [done|]. destruct Hx as [[Hvc ->]|(o' & _ & -> & _)]; [done|lia].
  - cbn in Ho. subst oldcode. cbn [negb Z.eqb]. rewrite andb_false_r.
    assert (S' = S) as ->.
    { unfold ref_step in Hstep. destruct (if c <? first_free S then _ else _) as [x'|]; [|done].
      cbn [mbind option_bind] in Hstep. by injection Hstep. }
    destruct Hx as [[Hvc ->]|(o' & ? & _)]; [|done]. by split.
Qed.

(** * The state between calls *)

(** The entries the reader has defined after the codes since the last reset. *)
Definition counted (sc : sched) (S : strs) (old : option Z) : Prop :=
  match old with
  | None => S = [] /\ s_k sc = 0
  | Some _ => 1 <= s_k sc /\ first_free S = free_at mb (s_k sc - 1)
  end.

(** Before the test of the loop, with the codes still in the file. *)
Record ready (z : zr) (sc : sched) (cs : list Z) (S : strs) (old : option Z) (text : list Z) : Prop := {
  rd_state : r_state z = S_MIDDLE;
  rd_maxbits : r_maxbits z = mb;
  rd_block : r_block_compress z <> 0;
  rd_stack : r_stackp z = Some [];
  rd_table : table_inv (r_table z) S;
  rd_old : old_rel S old (r_oldcode z) (r_finchar z);
  rd_counted : counted sc S old;
  rd_in : in_inv mb (r_in z) (t_free_ent (r_table z)) sc cs;
  rd_run : exists S' old', ref_run mb S old cs = Some (text, S', old') }.

(** Inside [middle], with characters on the stack. *)
Record draining (z : zr) (sc : sched) (c : Z) (cs : list Z) (S : strs) (old : option Z) (stack text : list Z)
    : Prop := {
  dr_state : r_state z = S_MIDDLE;
  dr_maxbits : r_maxbits z = mb;
  dr_block : r_block_compress z <> 0;
  dr_stack : r_stackp z = Some stack;
  dr_table : table_inv (r_table z) S;
  dr_old : exists finchar, old_rel S old (r_oldcode z) finchar;
  dr_counted : counted sc S old;
  dr_incode : r_incode z = c;
  dr_code : c <> CLEAR;
  dr_in : in_mid mb (r_in z) sc c cs;
  dr_run : exists x S' S'' old'', ref_step mb S old c = Some (x, S') /\ string_of S old c x (r_finchar z) /\
    ref_run mb S' (Some c) cs = Some (text, S'', old'') }.

Lemma code_below_cap s sc c cs : in_mid mb s sc c cs -> 0 <= c < maxmaxcode mb.
Proof.
  intros Hm. pose proof (im_range _ _ _ _ _ Hm) as Hr. destruct (im_sched _ _ _ _ _ Hm) as (Hn & _).
  rewrite (maxmaxcode_eq mb Hmb). assert (2 ^ s_n sc <= 2 ^ mb) by (apply Z.pow_le_mono_r; lia). lia.
Qed.

(** When the stack is used up the next entry is defined and the loop goes on. *)
Lemma drained_ready z sc c cs S old stack text : draining z sc c cs S old stack text ->
  exists S', ready (ZR S_MIDDLE (r_maxbits z) (r_block_compress z) (r_in z)
      (new_entry (r_maxbits z) (r_oldcode z) (r_finchar z) (r_table z)) (Some []) (r_finchar z) (r_incode z) (r_incode z))
    (sched_step mb sc c) cs S' (Some c) text.
Proof.
  intros [Hst Hm Hb Hsk Ht (fin & Ho) Hcnt Hi Hc Hin (x & S' & S'' & old'' & Hstep & Hs & Hrun)].
  pose proof (code_below_cap _ _ _ _ Hin) as Hcap. pose proof (im_sched _ _ _ _ _ Hin) as Hsc.
  destruct (new_entry_spec _ _ _ _ _ _ _ _ _ Ht Ho (proj2 Hcap) Hstep Hs) as (Ht' & Ho' & Hf).
  exists S'. rewrite Hm, Hi.
  pose proof (sched_step_k mb sc c Hc) as Ek.
  assert (first_free S' = free_at mb (s_k sc)) as Hfree.
  { rewrite Hf. pose proof (maxmax_bounds mb Hmb). destruct Hsc as (_ & Hk & _). unfold free_at in *.
    destruct old as [o|]; cbn in Hcnt.
    - destruct Hcnt as [H1 ->]. unfold free_at. destruct (Z.ltb_spec (Z.min (FIRST + (s_k sc - 1)) (maxmaxcode mb)) (maxmaxcode mb)); lia.
    - destruct Hcnt as [-> ->]. unfold first_free, FIRST. cbn [length]. lia. }
  split; cbn [r_state r_maxbits r_block_compress r_in r_table r_stackp r_finchar r_oldcode r_incode]; try done.
  - cbn. rewrite Ek. destruct Hsc as (_ & Hk & _). split; [lia|]. by replace (s_k sc + 1 - 1) with (s_k sc) by lia.
  - rewrite (ti_free _ _ Ht'), Hfree. by apply in_mid_step.
  - eauto.
Qed.

Lemma drain_spec stack : stack <> [] -> forall count, 0 <= count ->
  drain stack count =
    if count <? Z.of_nat (length stack) then DFull (take (Z.to_nat count) stack) (drop (Z.to_nat count) stack)
    else DEmpty stack (count - Z.of_nat (length stack)).
Proof.
  induction stack as [|c stack IH]; [done|]. intros _ count Hc. cbn [drain].
  destruct (Z.eqb_spec count 0) as [->|Hne]; [done|].
  replace (Z.to_nat count) with (Datatypes.S (Z.to_nat (count - 1))) by lia. cbn [take drop length].
  destruct stack as [|c' stack].
  - rewrite (proj2 (Z.ltb_ge _ _)) by (simpl; lia). f_equal.
  - rewrite IH by first [done|lia].
    destruct (Z.ltb_spec (count - 1) (Z.of_nat (length (c' :: stack)))), (Z.ltb_spec count (Z.of_nat (Datatypes.S (length (c' :: stack)))));
      try lia; [done|]. f_equal. lia.
Qed.

(** The states a stream goes through once it is started. *)
Inductive running : zr -> list Z -> Prop :=
| run_mid z sc c cs S old stack text : stack <> [] -> draining z sc c cs S old stack text -> running z (stack ++ text)
| run_eof z : r_state z = S_EOF -> running z [].

Definition cut (count : Z) (text : list Z) : list Z := take (Z.to_nat count) text.
Definition rest (count : Z) (text : list Z) : list Z := drop (Z.to_nat count) text.

Lemma zero_prefixes_inv t S : table_inv t S -> table_inv (zero_prefixes t FIRST) [].
Proof.
  intros Ht. pose proof (maxmax_bounds mb Hmb). split; cbn [zero_prefixes t_free_ent].
  - done.
  - unfold first_free, FIRST. simpl. lia.
  - intros i Hi. exact (ti_suffix t S Ht i Hi).
  - intros j s Hj. done.
Qed.

(** What is emitted for one string, from its stack. *)
Lemma drain_take (x T : list Z) count : 0 <= count ->
  (count < Z.of_nat (length x) -> cut count (x ++ T) = cut count x /\ rest count (x ++ T) = rest count x ++ T) /\
  (Z.of_nat (length x) <= count -> cut count (x ++ T) = x ++ cut (count - Z.of_nat (length x)) T /\
     rest count (x ++ T) = rest (count - Z.of_nat (length x)) T).
Proof.
  intros Hc. unfold cut, rest. split; intros Hl.
  - rewrite take_app_le, drop_app_le by lia. done.
  - rewrite take_app_ge, drop_app_ge by lia.
    replace (Z.to_nat (count - Z.of_nat (length x))) with (Z.to_nat count - length x)%nat by lia. done.
Qed.

Lemma zread_loop_spec cs : forall fuel count z sc S old text,
  (length cs < fuel)%nat -> 0 <= count -> ready z sc cs S old text ->
  exists z', zread_loop fuel count z = RRet (cut count text) z' /\ running z' (rest count text).
Proof.
  induction cs as [|c cs IH]; intros fuel count z sc S old text Hfuel Hcount
    [Hst Hm Hb Hsk Ht Ho Hcnt Hin (S' & old' & Hrun)]; (destruct fuel as [|fuel]; [simpl in Hfuel; lia|]); cbn [zread_loop].
  - rewrite Hm. destruct (getcode_eof mb Hmb _ _ _ Hin) as (s' & ->). cbn [Z.leb Z.compare].
    cbn in Hrun. injection Hrun as <- _ _. eexists. unfold cut, rest. rewrite take_nil, drop_nil.
    split; [reflexivity|]. by apply run_eof.
  - rewrite Hm. destruct (getcode_code mb Hmb _ _ _ _ _ Hin) as (s' & -> & Hmid).
    pose proof (code_below_cap _ _ _ _ Hmid) as Hcap. rewrite (proj2 (Z.leb_gt c (-1))) by lia.
    rewrite (proj2 (Z.eqb_neq (r_block_compress z) 0)) by done. cbn [negb]. rewrite andb_true_r.
    cbn [ref_run] in Hrun. destruct (Z.eqb_spec c CLEAR) as [->|Hcl].
    + apply (IH fuel count _ sched_start [] None text); [simpl in Hfuel; lia|done|].
      split; cbn; try done.
      * by apply (zero_prefixes_inv _ S).
      * by eapply in_mid_clear.
      * eauto.
    + destruct (ref_step mb S old c) as [[x S1]|] eqn:Hstep; [|done]. cbn [mbind option_bind] in Hrun.
      destruct (ref_run mb S1 (Some c) cs) as [[[T S2] o2]|] eqn:Hrun1; [|done]. cbn in Hrun. injection Hrun as <- <- <-.
      destruct (decode_string _ _ _ _ _ _ _ _ Ht Ho Hcap Hcl Hstep) as (h & Hdec & Hs).
      rewrite Hsk. cbn [default from_option id]. rewrite Hdec. cbv zeta. set (z1 := ZR _ _ _ _ _ _ _ _ _).
      assert (x <> []) as Hx by (destruct Hs as (Hh & _); by destruct x).
      assert (forall st, draining (ZR S_MIDDLE (r_maxbits z1) (r_block_compress z1) (r_in z1) (r_table z1) (Some st)
                (r_finchar z1) (r_oldcode z1) (r_incode z1)) sc c cs S old st T) as Hdr.
      { intros st. split; cbn; try done; [eauto|]. by exists x, S1, S2, o2. }
      rewrite drain_spec by done. destruct (drain_take x T count Hcount) as [Hlt Hge].
      destruct (Z.ltb_spec count (Z.of_nat (length x))) as [Hl|Hl].
      * destruct (Hlt Hl) as [-> ->]. eexists. split; [reflexivity|].
        apply (run_mid _ sc c cs S old); [|apply Hdr]. intros E. apply (f_equal length) in E.
        unfold rest in E. rewrite length_drop in E. simpl in E. lia.
      * destruct (Hge Hl) as [-> ->]. destruct (drained_ready _ _ _ _ _ _ _ _ (Hdr x)) as (S3 & Hready).
        destruct (IH fuel (count - Z.of_nat (length x)) _ _ _ _ _ ltac:(simpl in Hfuel; lia) ltac:(lia) Hready) as (z' & E & Hz').
        unfold z1 in E |- *. cbn [r_maxbits r_block_compress r_in r_table r_finchar r_oldcode r_incode] in E |- *.
        rewrite E. by eexists.
Qed.

End Reader.
