(* ===== verification/ZopenRound.v ===== *)
(** compress(1) streams end to end: what is written is read back, the writer is
    total, and where the reader trusts its input too much. *)

From stdpp Require Import gmap.
From S2P Require Import Prelude Zopen ZopenBits ZopenStream ZopenLzw ZopenWrite ZopenRead.

(** * Starting the reader *)

Section Start.
Context (mb : Z) (Hmb : 12 <= mb <= 16).

Lemma rest_ok_count sc cs g rest : rest_ok mb sc cs g rest -> sched_ok mb sc ->
  9 * Z.of_nat (length cs) <= 8 * Z.of_nat (length rest) +
    (if s_pos sc =? 0 then 0 else Z.max 0 (8 * Z.of_nat (length g) - s_pos sc * s_n sc)).
Proof.
  induction 1 as [sc g Hend|sc c cs g rest Hp Hl Hh Hr IH|sc c cs g0 rest Hp g Hl Hh Hr IH]; intros Hs.
  - destruct (s_pos sc =? 0); simpl; lia.
  - specialize (IH (sched_step_ok mb Hmb sc c Hs)). destruct Hs as (Hn & _). cbn [length].
    rewrite (proj2 (Z.eqb_neq _ _)) by lia. unfold sched_step in IH.
    destruct (c =? CLEAR); [cbn in IH; nia|]. destruct (_ <? _); [cbn in IH; nia|]. cbn [s_n s_pos] in IH.
    destruct (s_pos sc =? 7); cbn [Z.eqb] in IH; [nia|]. rewrite (proj2 (Z.eqb_neq _ _)) in IH by lia. nia.
  - specialize (IH (sched_step_ok mb Hmb sc c Hs)). destruct Hs as (Hn & _). cbn [length]. rewrite Hp. cbn [Z.eqb].
    assert (length g + length (drop (Z.to_nat (s_n sc)) rest) = length rest)%nat as Hlen.
    { unfold g. rewrite <- length_app, take_drop. done. }
    unfold sched_step in IH.
    destruct (c =? CLEAR); [cbn in IH; nia|]. destruct (_ <? _); [cbn in IH; nia|]. cbn [s_n s_pos] in IH.
    rewrite Hp in IH. change (if 0 =? 7 then 0 else 0 + 1) with 1 in IH. rewrite (proj2 (Z.eqb_neq 1 0)) in IH by lia. lia.
Qed.

Lemma init_table_inv : table_inv mb (init_table (Table ∅ ∅ 0) FIRST) [].
Proof.
  pose proof (maxmax_bounds mb Hmb). split.
  - done.
  - unfold first_free, FIRST. simpl. lia.
  - intros i Hi.
    assert (check_from (fun i => tab_suffixof (init_table (Table ∅ ∅ 0) FIRST) i =? i) 256 0 = true) as Hall
      by (vm_compute; reflexivity).
    apply Z.eqb_eq. apply (check_from_spec _ _ _ Hall i). lia.
  - done.
Qed.

Lemma header_parse : let h := u8 (mb .| BLOCK_MASK) in h .& BIT_MASK = mb /\ h .& BLOCK_MASK = BLOCK_MASK.
Proof.
  assert (mb = 12 \/ mb = 13 \/ mb = 14 \/ mb = 15 \/ mb = 16) as [->|[->|[->|[->| ->]]]] by lia; done.
Qed.

(** A stream that has not been read yet. *)
Definition unread (z : zr) (text : list Z) : Prop :=
  exists body codes S old, z = zopen_read (header mb ++ body) /\ bytes body /\
    rest_ok mb sched_start codes [] body /\ head codes <> Some CLEAR /\ text <> [] /\
    ref_run mb [] None codes = Some (text, S, old).

Lemma start_spec z text count : unread z text -> 0 < count ->
  exists z', zread z count = RRet (cut count text) z' /\ running mb z' (rest count text).
Proof.
  intros (body & codes & S & old & -> & Hb & Hrest & Hfirst & Hne & Hrun) Hcount.
  unfold zread. rewrite (proj2 (Z.eqb_neq _ _)) by lia. cbn [r_state zopen_read].
  unfold zread_start. cbn [r_in zopen_read i_file].
  change (take 3 (header mb ++ body)) with (magic_header ++ [u8 (mb .| BLOCK_MASK)]).
  change (drop 3 (header mb ++ body)) with body.
  change (negb (length (magic_header ++ [u8 (mb .| BLOCK_MASK)]) =? 3)%nat || _) with false.
  cbv zeta. change (nth 2 (magic_header ++ [u8 (mb .| BLOCK_MASK)]) 0) with (u8 (mb .| BLOCK_MASK)).
  cbn [i_n_bits i_maxcode i_clear_flg i_roffset i_size i_gbuf].
  destruct header_parse as [-> ->].
  rewrite (proj2 (Z.ltb_ge BITS mb)), (proj2 (Z.ltb_ge mb 12)) by (unfold BITS; lia). cbn [orb].
  change (BLOCK_MASK =? 0) with false. cbv iota. change (t_free_ent (init_table _ FIRST)) with FIRST.
  destruct codes as [|c cs]; [by injection Hrun as <-|]. cbn [ref_run] in Hrun.
  assert (c <> CLEAR) as Hc by (intros ->; done). rewrite (proj2 (Z.eqb_neq c CLEAR)) in Hrun by done.
  set (s := set_width INIT_BITS (MAXCODE INIT_BITS) 0 _).
  assert (in_inv mb s FIRST sched_start (c :: cs)) as Hin.
  { split; [by apply sched_start_ok|done| |done|].
    - unfold bytes. cbn. repeat (apply Forall_cons; split; [lia|]). apply Forall_nil_2.
    - exists []. split; [done|]. cbn. unfold maxc, INIT_BITS. rewrite (proj2 (Z.eqb_neq 9 mb)) by lia. done. }
  destruct (getcode_code mb Hmb _ _ _ _ _ Hin) as (s' & -> & Hmid).
  pose proof (im_range _ _ _ _ _ Hmid) as Hr. rewrite (proj2 (Z.eqb_neq c (-1))) by lia.
  assert (valid (first_free []) c /\ exists T, text = [c] ++ T /\ ref_run mb [] (Some c) cs = Some (T, S, old)) as (Hv & T & -> & HrunT).
  { unfold ref_step in Hrun. destruct (Z.ltb_spec c (first_free [])) as [Hl|Hl]; cbn [mbind option_bind] in Hrun.
    - destruct (ref_run mb [] (Some c) cs) as [[[T S2] o2]|] eqn:E; [|done]. cbn in Hrun. injection Hrun as <- <- <-.
      split; [split; [lia|done]|]. exists T. split; [|done]. unfold str.
      rewrite (proj2 (Z.ltb_lt _ _)); [done|]. unfold first_free, FIRST, CLEAR in *. simpl in Hl. lia.
    - destruct (c =? first_free []); done. }
  assert (u8 c = c) as -> by (apply u8_small; destruct Hv as [Hv Hcl]; unfold first_free, FIRST, CLEAR in *; simpl in Hv; lia).
  set (z1 := ZR S_MIDDLE mb BLOCK_MASK s' _ (Some []) c c _).
  assert (ready mb z1 (sched_step mb sched_start c) cs [] (Some c) T) as Hready.
  { pose proof (maxmax_bounds mb Hmb). split; cbn [z1 r_state r_maxbits r_block_compress r_stackp r_table r_oldcode r_finchar r_in]; try done.
    - apply init_table_inv.
    - split; [done|split; [done|]]. unfold str.
      rewrite (proj2 (Z.ltb_lt _ _)); [done|]. destruct Hv as [Hv Hcl]. unfold first_free, FIRST, CLEAR in *. simpl in Hv. lia.
    - cbn. rewrite sched_step_k by done. cbn. split; [lia|]. unfold free_at, first_free, FIRST. simpl. lia.
    - change (t_free_ent _) with FIRST.
      replace FIRST with (free_at mb (s_k sched_start)) by (unfold free_at, FIRST; cbn; lia).
      by apply in_mid_step.
    - eauto. }
  destruct (zread_loop_spec mb Hmb cs (read_fuel (zopen_read (header mb ++ body))) (count - 1) z1
    (sched_step mb sched_start c) [] (Some c) T) as (z' & E & Hz').
  - unfold read_fuel, header, zopen_read. cbn [r_in i_file i_gbuf]. rewrite !length_app. cbn [length].
    pose proof (rest_ok_count _ _ _ _ Hrest (sched_start_ok mb Hmb)) as Hcnt. cbn in Hcnt. rewrite length_replicate. lia.
  - lia.
  - exact Hready.
  - match goal with |- context [zread_loop ?f ?n ?z] =>
      replace (zread_loop f n z) with (RRet (cut (count - 1) T) z') by (symmetry; exact E) end.
    exists z'.
    unfold cut, rest. replace (Z.to_nat count) with (Datatypes.S (Z.to_nat (count - 1))) by lia. done.
Qed.
Lemma mid_fuel s sc c cs : in_mid mb s sc c cs ->
  (length cs < Datatypes.S (length (i_file s) + length (i_gbuf s)))%nat.
Proof.
  intros Hm. destruct (im_rest _ _ _ _ _ Hm) as (g & Hrest & Hg).
  pose proof (im_sched _ _ _ _ _ Hm) as Hs.
  pose proof (rest_ok_count _ _ _ _ Hrest (sched_step_ok mb Hmb sc c Hs)) as Hcnt.
  destruct (sched_step_ok mb Hmb sc c Hs) as (Hn & _ & Hp & _). destruct Hs as (Hn' & _).
  destruct Hg as (_ & _ & _ & _ & _ & Hl & _). rewrite (im_len _ _ _ _ _ Hm).
  destruct (s_pos (sched_step mb sc c) =? 0); nia.
Qed.

Lemma running_spec z text count : running mb z text -> 0 < count ->
  exists z', zread z count = RRet (cut count text) z' /\ running mb z' (rest count text).
Proof.
  intros Hrun Hcount. unfold zread. rewrite (proj2 (Z.eqb_neq count 0)) by lia.
  destruct Hrun as [z sc c cs S old stack text Hne Hd|z Hz].
  - rewrite (dr_state _ _ _ _ _ _ _ _ _ Hd). unfold zread_middle. rewrite (dr_stack _ _ _ _ _ _ _ _ _ Hd).
    rewrite (drain_spec stack Hne count) by lia.
    destruct (drain_take stack text count ltac:(lia)) as [Hlt Hge].
    destruct (Z.ltb_spec count (Z.of_nat (length stack))) as [Hl|Hl].
    + destruct (Hlt Hl) as [-> ->]. eexists. split; [reflexivity|].
      apply (run_mid _ _ sc c cs S old).
      * intros E. apply (f_equal length) in E. unfold rest in E. rewrite length_drop in E. simpl in E. lia.
      * destruct Hd; by split.
    + destruct (Hge Hl) as [-> ->]. destruct (drained_ready mb Hmb _ _ _ _ _ _ _ _ Hd) as (S' & Hready).
      destruct (zread_loop_spec mb Hmb cs (read_fuel z) (count - Z.of_nat (length stack)) _ _ _ _ _
        (mid_fuel _ _ _ _ (dr_in _ _ _ _ _ _ _ _ _ Hd)) ltac:(lia) Hready) as (z' & -> & Hz').
      by exists z'.
  - rewrite Hz. exists z. unfold cut, rest. rewrite take_nil, drop_nil. split; [done|by apply run_eof].
Qed.

(** A stream before and after it has been started. *)
Definition stream (z : zr) (text : list Z) : Prop := unread z text \/ running mb z text.

Lemma zread_spec z text count : stream z text -> 0 <= count ->
  exists z', zread z count = RRet (cut count text) z' /\ stream z' (rest count text).
Proof.
  intros Hz Hcount. destruct (decide (count = 0)) as [->|Hne].
  - exists z. split; [done|]. exact Hz.
  - destruct Hz as [Hz|Hz].
    + destruct (start_spec z text count Hz ltac:(lia)) as (z' & -> & H). exists z'. split; [done|by right].
    + destruct (running_spec z text count Hz ltac:(lia)) as (z' & -> & H). exists z'. split; [done|by right].
Qed.

End Start.

(** * Properties *)

(** Calls of [zread] with these sizes, one after the other: what they deliver. *)
Fixpoint reads (z : zr) (nums : list Z) : option (list (list Z)) :=
  match nums with
  | [] => Some []
  | num :: nums =>
    match zread z num with
    | RRet data z => ds ← reads z nums; Some (data :: ds)
    | _ => None
    end
  end.

(** The text cut into pieces of these sizes. *)
Fixpoint pieces (text : list Z) (nums : list Z) : list (list Z) :=
  match nums with
  | [] => []
  | num :: nums => cut num text :: pieces (rest num text) nums
  end.

Lemma reads_spec mb (Hmb : 12 <= mb <= 16) nums : Forall (Z.le 0) nums -> forall z text, stream mb z text ->
  reads z nums = Some (pieces text nums).
Proof.
  induction 1 as [|num nums Hn _ IH]; intros z text Hz; [done|]. cbn [reads pieces].
  destruct (zread_spec mb Hmb z text num Hz Hn) as (z' & -> & Hz'). rewrite (IH z' _ Hz'). done.
Qed.

Definition bits_of (bits : Z) : Z := if bits =? 0 then BITS else bits.

Lemma compress_spec fwrite_ok bits bufs : bits = 0 \/ 12 <= bits <= 16 -> Forall bytes bufs -> concat bufs <> [] ->
  exists r, compress fwrite_ok bits bufs = Some r /\
    match r with
    | WOk file => stream (bits_of bits) (zopen_read file) (concat bufs)
    | WErr => exists file data, fwrite_ok file data = false
    | _ => False
    end.
Proof.
  intros Hbits Hb Hne. assert (12 <= bits_of bits <= 16) as Hmb.
  { unfold bits_of, BITS. destruct (Z.eqb_spec bits 0); lia. }
  unfold compress, zopen_write.
  rewrite (proj2 (Z.ltb_ge bits 0)), (proj2 (Z.ltb_ge BITS bits)) by (unfold BITS; lia). cbn [orb mbind option_bind].
  eexists. split; [reflexivity|]. set (z0 := ZW _ _ _ _ _ _ _ _ _ _ _ _ _).
  assert (started (bits_of bits) z0 []) as Hz0 by done.
  pose proof (zwrites_spec fwrite_ok (bits_of bits) Hmb bufs Hb z0 [] Hz0) as Hw. cbn [app] in Hw.
  destruct (foldl _ _ _) as [z| | |]; try done. cbn [mbind wres_bind].
  pose proof (zclose_spec fwrite_ok (bits_of bits) Hmb z (concat bufs) Hne Hw) as Hc.
  destruct (zclose fwrite_ok z) as [file| | |]; try done.
  destruct Hc as (body & codes & S & old & -> & Hbb & Hrest & Hfirst & Hrun). left.
  by exists body, codes, S, old.
Qed.

(** C4. What is compressed is decompressed: for every sequence of buffers with at
    least one byte, every code width from 12 to 16 bits and every pattern of reads,
    the reader delivers the bytes written, in order, and then the end of file. *)
Theorem zopen_roundtrip fwrite_ok bits bufs file nums :
  bits = 0 \/ 12 <= bits <= 16 -> Forall bytes bufs -> concat bufs <> [] -> Forall (Z.le 0) nums ->
  compress fwrite_ok bits bufs = Some (WOk file) ->
  reads (zopen_read file) nums = Some (pieces (concat bufs) nums).
Proof.
  intros Hbits Hb Hne Hnums E. destruct (compress_spec fwrite_ok bits bufs Hbits Hb Hne) as (r & Er & Hr).
  rewrite E in Er. injection Er as <-. apply (reads_spec (bits_of bits)); [|done|done].
  unfold bits_of, BITS. destruct (Z.eqb_spec bits 0); lia.
Qed.

Lemma zopen_roundtrip_witness :
  reads (zopen_read [31; 157; 144; 97; 196; 4; 12; 19; 16]) [2; 0; 5; 9] = Some [[97; 98]; []; [97; 98; 97; 97; 98]; []].
Proof.
  apply (zopen_roundtrip (fun _ _ => true) 0 [[97; 98]; [97; 98; 97; 97; 98]]);
    [by left|repeat constructor; done|done|repeat constructor; done|vm_compute; reflexivity].
Defined.

(** C6. The writer is total: with any code width it accepts from 12 bits, on any
    buffers, it stays inside its tables and buffers, the search for a free slot
    ends, and it fails only when a write of the file fails. *)
Theorem compress_total fwrite_ok bits bufs :
  bits = 0 \/ 12 <= bits <= 16 -> Forall bytes bufs -> concat bufs <> [] ->
  (forall file data, fwrite_ok file data = true) ->
  exists file, compress fwrite_ok bits bufs = Some (WOk file).
Proof.
  intros Hbits Hb Hne Hw. destruct (compress_spec fwrite_ok bits bufs Hbits Hb Hne) as (r & Er & Hr).
  destruct r as [file| | |]; [by exists file| |done|done]. destruct Hr as (f & d & Hf). by rewrite Hw in Hf.
Qed.

Lemma compress_total_witness :
  exists file, compress (fun _ _ => true) 12 [[97; 98]; [97; 98; 97; 97; 98]] = Some (WOk file).
Proof. apply compress_total; [right; done|repeat constructor; done|done|done]. Defined.
