(* ===== verification/ZopenEdge.v ===== *)
(** Streams of compress(1) at the edges of the format (src.freebsd/compress/zopen.c):
    code widths the writer accepts and the reader refuses, and streams that make
    the reader leave its output stack. *)

From stdpp Require Import gmap.
From S2P Require Import Prelude Zopen.

(** * Narrow codes *)

(** What the writer puts in the file stays there. *)
Section Header.
Context (fwrite_ok : list Z -> list Z -> bool) (bits : Z) (hd : list Z).

Definition headed (z : zw) : Prop := w_state z = S_MIDDLE /\ hd `prefix_of` o_file (w_out z).

Lemma fwrite_buf_headed n o o' : fwrite_buf fwrite_ok n o = WOk o' ->
  hd `prefix_of` o_file o -> hd `prefix_of` o_file o'.
Proof.
  unfold fwrite_buf. case_match; [done|]. case_match; [|done]. intros [= <-] ?. by apply prefix_app_r.
Qed.

Lemma wres_bind_ok {A B} (f : A -> wres B) x b : x ≫= f = WOk b -> exists a, x = WOk a /\ f a = WOk b.
Proof. destruct x; cbn; [eauto|done..]. Qed.

Lemma output_headed maxbits free_ent code o o' : output fwrite_ok maxbits free_ent code o = WOk o' ->
  hd `prefix_of` o_file o -> hd `prefix_of` o_file o'.
Proof.
  unfold output. intros E Hp. destruct (0 <=? code).
  - destruct (insert_code _ _ _ _) as [buf|]; [|done].
    apply wres_bind_ok in E as (o1 & E1 & E).
    assert (hd `prefix_of` o_file o1) as H1.
    { destruct (_ =? _ .<< 3) in E1; [|by injection E1 as <-]. apply wres_bind_ok in E1 as (o2 & E2 & [= <-]).
      by apply fwrite_buf_headed in E2. }
    destruct (_ || _) in E; [|by injection E as <-]. apply wres_bind_ok in E as (o2 & E2 & [= <-]).
    assert (hd `prefix_of` o_file o2) as H2
      by (destruct (0 <? _) in E2; [by apply fwrite_buf_headed in E2|by injection E2 as <-]).
    unfold next_width. by destruct (negb _).
  - apply wres_bind_ok in E as (o1 & E1 & [= <-]). cbn.
    destruct (0 <? _) in E1; [by apply fwrite_buf_headed in E1|by injection E1 as <-].
Qed.

Lemma zoutput_headed code z z' : zoutput fwrite_ok code z = WOk z' -> headed z -> headed z'.
Proof.
  unfold zoutput. intros (o & E & [= <-])%wres_bind_ok [Hs Hp]. split; [done|]. by apply output_headed in E.
Qed.

Lemma zwrite_char_headed c z z' : zwrite_char fwrite_ok c z = WOk z' -> headed z -> headed z'.
Proof.
  unfold zwrite_char. intros (s & _ & E)%wres_bind_ok Hz. destruct s; [by injection E as <-|].
  apply wres_bind_ok in E as (z1 & E1 & E). apply zoutput_headed in E1; [|done].
  case_match; [by injection E as <-|]. case_match; [|by injection E as <-].
  unfold cl_block in E. destruct (_ <? _) in E; [by injection E as <-|]. by apply zoutput_headed in E.
Qed.

Lemma zwrite_loop_headed bp z z' : zwrite_loop fwrite_ok bp z = WOk z' -> headed z -> headed z'.
Proof.
  revert z. induction bp as [|c bp IH]; intros z; cbn; [by intros [= <-]|].
  intros (z1 & E1 & E)%wres_bind_ok Hz. eapply IH; [done|]. by eapply zwrite_char_headed.
Qed.

End Header.

Definition narrow_start (bits : Z) : zw :=
  ZW S_START bits HSIZE BLOCK_MASK (OutBuf [] 0 0 0 0 0 (replicate 16 0)) (Dict ∅ ∅ 0) 0 CHECK_GAP 1 0 0 0 0.

Lemma narrow_byte bits : 1 <= bits <= 11 -> 0 <= bits .| BLOCK_MASK < 256.
Proof.
  intros Hb. assert (Forall (fun b => 0 <= b .| BLOCK_MASK < 256) (map Z.of_nat (seq 0 12))) as H by (repeat constructor; done).
  rewrite Forall_forall in H. apply H, list_elem_of_In, in_map_iff. exists (Z.to_nat bits).
  split; [lia|]. apply in_seq. lia.
Qed.

Lemma foldl_zwrite_not_ok fwrite_ok bufs r : (forall z, r <> WOk z) ->
  foldl (fun z bp => z ← z; zwrite fwrite_ok bp z) r bufs = r.
Proof.
  intros Hr. induction bufs as [|bp bufs IH]; cbn; [done|].
  replace (r ≫= _) with r; [done|]. by destruct r; [edestruct Hr|..].
Qed.

Lemma zwrite_headed fwrite_ok bits bp z z' : 1 <= bits <= 11 -> zwrite fwrite_ok bp z = WOk z' ->
  headed (magic_header ++ [bits .| BLOCK_MASK]) z \/ z = narrow_start bits ->
  headed (magic_header ++ [bits .| BLOCK_MASK]) z' \/ bp = [] /\ z' = narrow_start bits.
Proof.
  intros Hb E Hz. destruct bp as [|c bp].
  { injection E as <-. destruct Hz; auto. }
  unfold zwrite in E.
  left. destruct Hz as [Hz| ->].
  - rewrite (proj1 Hz) in E. by eapply zwrite_loop_headed.
  - cbn [narrow_start w_state] in E. do 2 (destruct (negb _) in E; [done|]). eapply zwrite_loop_headed; [exact E|].
    split; [done|]. cbn [w_out o_file narrow_start w_maxbits w_block_compress app].
    rewrite u8_small; [by exists []|]. apply narrow_byte; lia.
Qed.

Lemma zwrites_headed fwrite_ok bits bufs z : 1 <= bits <= 11 -> concat bufs <> [] ->
  foldl (fun z bp => z ← z; zwrite fwrite_ok bp z) (WOk (narrow_start bits)) bufs = WOk z ->
  headed (magic_header ++ [bits .| BLOCK_MASK]) z.
Proof.
  intros Hb Hne.
  enough (forall bufs z0, foldl (fun z bp => z ← z; zwrite fwrite_ok bp z) (WOk z0) bufs = WOk z ->
    headed (magic_header ++ [bits .| BLOCK_MASK]) z0 \/ z0 = narrow_start bits /\ concat bufs <> [] ->
    headed (magic_header ++ [bits .| BLOCK_MASK]) z) as H by (intros E; eapply H; eauto).
  clear bufs Hne. induction bufs as [|bp bufs IH]; intros z0 E Hz; cbn [foldl] in E.
  { injection E as <-. by destruct Hz as [?|[_ ?]]. }
  cbn in E. destruct (zwrite fwrite_ok bp z0) as [z1| | |] eqn:E1;
    try (rewrite foldl_zwrite_not_ok in E by done; done).
  apply (IH z1 E). destruct (zwrite_headed _ _ _ _ _ Hb E1) as [?|[-> ->]]; [naive_solver|by left|].
  right. split; [done|]. destruct Hz as [Hz|[_ Hz]]; [|done].
  cbn in E1. injection E1 as ->. by destruct Hz.
Qed.

Lemma narrow_file fwrite_ok bits bufs file : 1 <= bits <= 11 -> concat bufs <> [] ->
  compress fwrite_ok bits bufs = Some (WOk file) -> (magic_header ++ [bits .| BLOCK_MASK]) `prefix_of` file.
Proof.
  intros Hb Hne. unfold compress, zopen_write.
  rewrite (proj2 (Z.ltb_ge bits 0)), (proj2 (Z.ltb_ge BITS bits)) by (unfold BITS; lia). cbn [orb mbind option_bind].
  rewrite (proj2 (Z.eqb_neq bits 0)) by lia. fold (narrow_start bits).
  intros [= E]. set (hd := magic_header ++ [bits .| BLOCK_MASK]).
  apply wres_bind_ok in E as (z & Ez & E).
  assert (headed hd z) as Hz by (eapply zwrites_headed; [exact Hb|exact Hne|exact Ez]).
  unfold zclose in E. apply wres_bind_ok in E as (z1 & E1 & E). apply wres_bind_ok in E as (z2 & E2 & [= <-]).
  eapply zoutput_headed in E1; [|done]. eapply zoutput_headed in E2; [|done]. apply E2.
Qed.

(** The writer accepts the code widths from 1 to 11 bits and makes a file, which
    the reader then refuses with EFTYPE; a further read would take a character from
    an output stack that does not exist. *)
Theorem narrow_unreadable fwrite_ok bits bufs file num :
  1 <= bits <= 11 -> concat bufs <> [] -> num <> 0 -> compress fwrite_ok bits bufs = Some (WOk file) ->
  exists z, zread (zopen_read file) num = RErr EFTYPE z /\ zread z num = RFault.
Proof.
  intros Hb Hne Hn E. destruct (narrow_file _ _ _ _ Hb Hne E) as [rest ->].
  unfold zread. rewrite (proj2 (Z.eqb_neq num 0)) by done.
  assert (bits = 1 \/ bits = 2 \/ bits = 3 \/ bits = 4 \/ bits = 5 \/ bits = 6 \/ bits = 7 \/ bits = 8 \/
    bits = 9 \/ bits = 10 \/ bits = 11) as Hbits by lia.
  repeat destruct Hbits as [->|Hbits]; try subst bits; eexists; (split; [reflexivity|]); reflexivity.
Qed.

Lemma narrow_unreadable_witness :
  exists z, zread (zopen_read [31; 157; 137; 97; 196; 4; 12; 19; 16]) 9 = RErr EFTYPE z /\ zread z 9 = RFault.
Proof.
  apply (narrow_unreadable (fun _ _ => true) 9 [[97; 98]; [97; 98; 97; 97; 98]]); [done|done|done|].
  vm_compute. reflexivity.
Defined.

(** * A cycle of prefixes *)

(** Codes of nine bits, eight to a group of nine bytes. *)
Definition pack_group (codes : list Z) : list Z :=
  let v := foldr (fun c v => c .| (v .<< 9)) 0 codes in
  map (fun i => (v .>> (8 * Z.of_nat i)) .& 255) (seq 0 9).
Definition pack_codes (groups : nat) (codes : list Z) : list Z :=
  concat (map (fun g => pack_group (take 8 (drop (8 * g) codes))) (seq 0 groups)).

(** 57 bytes: the first code, 300, is no character; entry 257 gets it as its
    prefix, and entry 300, made later, gets 257: the two form a cycle. *)
Definition cyclic_codes : list Z := 300 :: repeat 65 42 ++ [257; 65; 257].
Definition cyclic_file : list Z := magic_header ++ [0x90] ++ pack_codes 6 cyclic_codes.

(** The reader does not check that the first code is a character: a file of 57
    bytes makes the prefixes of two entries a cycle, and expanding one of them
    writes beyond the end of the output stack. *)
Theorem zread_overrun : length cyclic_file = 57%nat /\ zread (zopen_read cyclic_file) 4096 = RFault.
Proof. split; vm_compute; reflexivity. Qed.
