(* ===== verification/Arith.v ===== *)
(** Arithmetic expansion of sh(1): the tokens (src.freebsd/sh/arith_yylex.c) and the
    parser that evaluates while it reads (src.freebsd/sh/arith_yacc.c), with the
    global state [arith_buf], [yylval], [last_token] and the shell's variables
    passed along. *)

From S2P Require Import Prelude Ctype Strto.

(** * Tokens (arith_yacc.h) *)

Definition ARITH_ASS : Z := 1.
Definition ARITH_OR : Z := 2.
Definition ARITH_AND : Z := 3.
Definition ARITH_BAD : Z := 4.
Definition ARITH_NUM : Z := 5.
Definition ARITH_VAR : Z := 6.
Definition ARITH_NOT : Z := 7.
Definition ARITH_BINOP_MIN : Z := 8.
Definition ARITH_LE : Z := 8.
Definition ARITH_GE : Z := 9.
Definition ARITH_LT : Z := 10.
Definition ARITH_GT : Z := 11.
Definition ARITH_EQ : Z := 12.
Definition ARITH_REM : Z := 13.
Definition ARITH_BAND : Z := 14.
Definition ARITH_LSHIFT : Z := 15.
Definition ARITH_RSHIFT : Z := 16.
Definition ARITH_MUL : Z := 17.
Definition ARITH_ADD : Z := 18.
Definition ARITH_BOR : Z := 19.
Definition ARITH_SUB : Z := 20.
Definition ARITH_BXOR : Z := 21.
Definition ARITH_DIV : Z := 22.
Definition ARITH_NE : Z := 23.
Definition ARITH_BINOP_MAX : Z := 24.
Definition ARITH_ASS_MIN : Z := 24.
Definition ARITH_ASS_MAX : Z := 34.
Definition ARITH_LPAREN : Z := 34.
Definition ARITH_RPAREN : Z := 35.
Definition ARITH_BNOT : Z := 36.
Definition ARITH_QMARK : Z := 37.
Definition ARITH_COLON : Z := 38.

Definition ARITH_MIN : Z := INTMAX_MIN.
Definition ARITH_MAX : Z := INTMAX_MAX.

(** The union: the member that was stored last. *)
Inductive yystype := YVal (val : Z) | YName (name : list Z).

(** The value, the rest of the string, and whether [errno] is set. *)
Definition strtoarith_t (nptr : list Z) : Z * list Z * bool :=
  let nptr := skip_space nptr in
  let c := hd 0 nptr in
  if c =? chr "-" then strtoimax 0 nptr
  else if c =? chr "0" then let '(v, e, err) := strtoumax 0 nptr in (s64 v, e, err)
  else
    let '(v, e, err) := strtoumax 0 nptr in
    let val := s64 v in
    if 0 <=? val then (val, e, err)
    else if val =? ARITH_MIN then (ARITH_MIN, e, true)
    else (ARITH_MAX, e, true).

(** mksyntax.c puts letters, digits and the underscore in the table. *)
Definition is_in_name (c : Z) : bool := isalnum c || (c =? chr "_").
Definition is_name (c : Z) : bool := isalpha c || (c =? chr "_").

Fixpoint name_span (s : list Z) : list Z * list Z :=
  match s with
  | c :: s' => if is_in_name c then let '(n, r) := name_span s' in (c :: n, r) else ([], s)
  | [] => ([], [])
  end.

(** The labels [checkeqcur] and [checkeq]. *)
Definition checkeqcur (value : Z) (buf : list Z) : Z * list Z :=
  if hd 0 buf =? chr "=" then (value + 11, tl buf) else (value, buf).
Definition checkeq (value : Z) (buf : list Z) : Z * list Z := checkeqcur value (tl buf).

(** An operator at the first character of [buf]: [None] for a bad token. *)
Definition operator (value : Z) (buf : list Z) : option (Z * list Z) :=
  let next := hd 0 (tl buf) in
  if value =? chr "=" then Some (checkeq ARITH_ASS buf)
  else if value =? chr ">" then Some
    (if next =? chr "=" then (ARITH_GE, tl (tl buf))
     else if next =? chr ">" then checkeq ARITH_RSHIFT (tl buf)
     else (ARITH_GT, tl buf))
  else if value =? chr "<" then Some
    (if next =? chr "=" then (ARITH_LE, tl (tl buf))
     else if next =? chr "<" then checkeq ARITH_LSHIFT (tl buf)
     else (ARITH_LT, tl buf))
  else if value =? chr "|" then Some
    (if negb (next =? chr "|") then checkeqcur ARITH_BOR (tl buf) else (ARITH_OR, tl (tl buf)))
  else if value =? chr "&" then Some
    (if negb (next =? chr "&") then checkeqcur ARITH_BAND (tl buf) else (ARITH_AND, tl (tl buf)))
  else if value =? chr "!" then Some
    (if negb (next =? chr "=") then (ARITH_NOT, tl buf) else (ARITH_NE, tl (tl buf)))
  else if value =? chr "(" then Some (ARITH_LPAREN, tl buf)
  else if value =? chr ")" then Some (ARITH_RPAREN, tl buf)
  else if value =? chr "*" then Some (checkeq ARITH_MUL buf)
  else if value =? chr "/" then Some (checkeq ARITH_DIV buf)
  else if value =? chr "%" then Some (checkeq ARITH_REM buf)
  else if value =? chr "+" then if next =? chr "+" then None else Some (checkeq ARITH_ADD buf)
  else if value =? chr "-" then if next =? chr "-" then None else Some (checkeq ARITH_SUB buf)
  else if value =? chr "~" then Some (ARITH_BNOT, tl buf)
  else if value =? chr "^" then Some (checkeq ARITH_BXOR buf)
  else if value =? chr "?" then Some (ARITH_QMARK, tl buf)
  else if value =? chr ":" then Some (ARITH_COLON, tl buf)
  else None.

Definition is_blank (c : Z) : bool := (c =? 32) || (c =? 9) || (c =? 10).

(** The token, the new [arith_buf] and [yylval]. On a bad token [arith_buf] stays. *)
Fixpoint yylex_from (arith_buf buf : list Z) (yylval : yystype) : Z * list Z * yystype :=
  match buf with
  | [] => (0, [], yylval)
  | value :: buf' =>
    if is_blank value then yylex_from arith_buf buf' yylval
    else if value =? 0 then (0, buf, yylval)
    else if isdigit value then let '(v, e, _) := strtoarith_t buf in (ARITH_NUM, e, YVal v)
    else if is_name value then
      let '(name, rest) := name_span buf' in (ARITH_VAR, rest, YName (value :: name))
    else match operator value buf with
         | Some (value, buf) => (value, buf, yylval)
         | None => (ARITH_BAD, arith_buf, yylval)
         end
  end.
Definition yylex_at (arith_buf : list Z) (yylval : yystype) := yylex_from arith_buf arith_buf yylval.

(** * Operators *)

Definition prec_table : list (Z * Z) :=
  [(ARITH_MUL, 0); (ARITH_DIV, 0); (ARITH_REM, 0); (ARITH_ADD, 1); (ARITH_SUB, 1); (ARITH_LSHIFT, 2);
   (ARITH_RSHIFT, 2); (ARITH_LT, 3); (ARITH_LE, 3); (ARITH_GT, 3); (ARITH_GE, 3); (ARITH_EQ, 4); (ARITH_NE, 4);
   (ARITH_BAND, 5); (ARITH_BXOR, 6); (ARITH_BOR, 7)].
Definition ARITH_MAX_PREC : Z := 8.
Definition arith_prec (op : Z) : Z :=
  match List.find (fun e => op =? e.1) prec_table with Some (_, p) => p | None => 0 end.
Definition higher_prec (op1 op2 : Z) : bool := arith_prec op1 <? arith_prec op2.
Definition is_binop (op : Z) : bool := (ARITH_BINOP_MIN <=? op) && (op <? ARITH_BINOP_MAX).
Definition is_assop (op : Z) : bool := (op =? ARITH_ASS) || ((ARITH_ASS_MIN <=? op) && (op <? ARITH_ASS_MAX)).

(** The messages of [yyerror], and an error raised by [setvar]. *)
Inductive aerror :=
| VarNotSet | VarConversion | DivisionByZero | DivideError | ExpectRParen | ExpectPrimary | ExpectColon | ExpectEOF
| SetvarError.

Definition b2z (b : bool) : Z := if b then 1 else 0.

Definition do_binop (op a b : Z) : aerror + Z :=
  if op =? ARITH_MUL then inr (s64 (u64 a * u64 b))
  else if op =? ARITH_ADD then inr (s64 (u64 a + u64 b))
  else if op =? ARITH_SUB then inr (s64 (u64 a - u64 b))
  else if op =? ARITH_LSHIFT then inr (s64 (u64 (u64 a .<< (b .& 63))))
  else if op =? ARITH_RSHIFT then inr (a .>> (b .& 63))
  else if op =? ARITH_LT then inr (b2z (a <? b))
  else if op =? ARITH_LE then inr (b2z (a <=? b))
  else if op =? ARITH_GT then inr (b2z (b <? a))
  else if op =? ARITH_GE then inr (b2z (b <=? a))
  else if op =? ARITH_EQ then inr (b2z (a =? b))
  else if op =? ARITH_NE then inr (b2z (negb (a =? b)))
  else if op =? ARITH_BAND then inr (a .& b)
  else if op =? ARITH_BXOR then inr (Z.lxor a b)
  else if op =? ARITH_BOR then inr (a .| b)
  else if b =? 0 then inl DivisionByZero
  else if (a =? ARITH_MIN) && (b =? -1) then inl DivideError
  else inr (if op =? ARITH_REM then Z.rem a b else Z.quot a b).

(** * The shell's variables, as var.c offers them *)

Class Vars (env : Type) := {
  lookupvar : env -> list Z -> option (list Z);
  setvar : env -> list Z -> list Z -> option env;     (* [None]: an error is raised *)
  uflag : env -> bool }.

(** * Parsing and evaluating *)

Section Arith.
Context {env : Type} `{Vars env}.

Record astate := AState { a_buf : list Z; a_yylval : yystype; a_last : Z; a_env : env }.

(** [error] leaves by [longjmp]: the variables set so far stay set. *)
Inductive ares (A : Type) :=
| AOk (x : A) (s : astate)
| AErr (e : aerror) (v : env)
| AFuel.
Arguments AOk {A}. Arguments AErr {A}. Arguments AFuel {A}.

Definition M (A : Type) : Type := astate -> ares A.
#[export] Instance M_ret : MRet M := fun A x s => AOk x s.
#[export] Instance M_bind : MBind M := fun A B f m s =>
  match m s with AOk x s => f x s | AErr e v => AErr e v | AFuel => AFuel end.

Definition yyerror {A} (e : aerror) : M A := fun s => AErr e (a_env s).
Definition no_fuel {A} : M A := fun _ => AFuel.
Definition yylex : M Z := fun s =>
  let '(t, buf, y) := yylex_at (a_buf s) (a_yylval s) in AOk t (AState buf y (a_last s) (a_env s)).
Definition get_yylval : M yystype := fun s => AOk (a_yylval s) s.
Definition get_last : M Z := fun s => AOk (a_last s) s.
Definition set_last (t : Z) : M unit := fun s => AOk tt (AState (a_buf s) (a_yylval s) t (a_env s)).
Definition lift {A} (r : aerror + A) : M A := match r with inl e => yyerror e | inr x => mret x end.

(** The conversion of a variable's text. *)
Definition convert (str : option (list Z)) : aerror + Z :=
  let str := match str with None | Some [] => codes "0" | Some str => str end in
  let '(result, p, err) := strtoarith_t str in
  if err || negb (hd 0 p =? 0) then inl VarConversion else inr result.

Definition var_value (v : env) (varname : list Z) : aerror + Z :=
  let str := lookupvar v varname in
  if uflag v && match str with None => true | Some _ => false end then inl VarNotSet else convert str.
Definition arith_lookupvarint (varname : list Z) : M Z := fun s => lift (var_value (a_env s) varname) s.

(** [DIGITS(result)], and the text [snprintf] leaves in a buffer of one more. *)
Definition DIGITS : nat := 3 + (2 + 8 * 8) / 3.
Definition sresult (result : Z) : list Z := take DIGITS (print_imax result).

Definition assign (name : list Z) (result : Z) : M unit := fun s =>
  match setvar (a_env s) name (sresult result) with
  | Some v => AOk tt (AState (a_buf s) (a_yylval s) (a_last s) v)
  | None => yyerror SetvarError s
  end.

(** Two's complement negation. *)
Definition neg_arith (a : Z) : Z := s64 (- a).

(** What the bits of a name's address are as a number; no result depends on it. *)
Context (address : list Z -> Z).
Definition val_of (y : yystype) : Z := match y with YVal z => z | YName n => address n end.
Definition name_of (y : yystype) : list Z := match y with YName n => n | YVal _ => [] end.

(** [*val] is not read after a call, so that it is passed by value. *)
Fixpoint primary (fuel : nat) (token : Z) (val : yystype) (op : Z) (noeval : bool) : M Z :=
  match fuel with
  | O => no_fuel
  | S fuel =>
    if token =? ARITH_LPAREN then
      result ← assignment fuel op noeval;
      last_token ← get_last;
      if negb (last_token =? ARITH_RPAREN) then yyerror ExpectRParen
      else t ← yylex; _ ← set_last t; mret result
    else if token =? ARITH_NUM then _ ← set_last op; mret (val_of val)
    else if token =? ARITH_VAR then
      _ ← set_last op; if noeval then mret (val_of val) else arith_lookupvarint (name_of val)
    else if token =? ARITH_ADD then
      val ← get_yylval; op' ← yylex; primary fuel op val op' noeval
    else if token =? ARITH_SUB then
      val ← get_yylval; op' ← yylex; a ← primary fuel op val op' noeval; mret (neg_arith a)
    else if token =? ARITH_NOT then
      val ← get_yylval; op' ← yylex; a ← primary fuel op val op' noeval; mret (b2z (a =? 0))
    else if token =? ARITH_BNOT then
      val ← get_yylval; op' ← yylex; a ← primary fuel op val op' noeval; mret (Z.lnot a)
    else yyerror ExpectPrimary
  end
with binop2 (fuel : nat) (a op precedence : Z) (noeval : bool) : M Z :=
  match fuel with
  | O => no_fuel
  | S fuel =>
    token ← yylex; val ← get_yylval; t ← yylex;
    b ← primary fuel token val t noeval;
    op2 ← get_last;
    b ← (if is_binop op2 && higher_prec op2 op then binop2 fuel b op2 (arith_prec op) noeval else mret b);
    op2 ← get_last;
    a ← (if noeval then mret b else lift (do_binop op a b));
    if negb (is_binop op2) || (precedence <=? arith_prec op2) then mret a
    else binop2 fuel a op2 precedence noeval
  end
with binop (fuel : nat) (token : Z) (val : yystype) (op : Z) (noeval : bool) : M Z :=
  match fuel with
  | O => no_fuel
  | S fuel =>
    a ← primary fuel token val op noeval;
    op ← get_last;
    if negb (is_binop op) then mret a else binop2 fuel a op ARITH_MAX_PREC noeval
  end
with and (fuel : nat) (token : Z) (val : yystype) (op : Z) (noeval : bool) : M Z :=
  match fuel with
  | O => no_fuel
  | S fuel =>
    a ← binop fuel token val op noeval;
    op ← get_last;
    if negb (op =? ARITH_AND) then mret a
    else
      token ← yylex; val ← get_yylval; op ← yylex;
      b ← and fuel token val op (noeval || (a =? 0));
      mret (b2z (negb (a =? 0) && negb (b =? 0)))
  end
with or (fuel : nat) (token : Z) (val : yystype) (op : Z) (noeval : bool) : M Z :=
  match fuel with
  | O => no_fuel
  | S fuel =>
    a ← and fuel token val op noeval;
    op ← get_last;
    if negb (op =? ARITH_OR) then mret a
    else
      token ← yylex; val ← get_yylval; op ← yylex;
      b ← or fuel token val op (noeval || negb (a =? 0));
      mret (b2z (negb (a =? 0) || negb (b =? 0)))
  end
with cond (fuel : nat) (token : Z) (val : yystype) (op : Z) (noeval : bool) : M Z :=
  match fuel with
  | O => no_fuel
  | S fuel =>
    a ← or fuel token val op noeval;
    last_token ← get_last;
    if negb (last_token =? ARITH_QMARK) then mret a
    else
      t ← yylex;
      b ← assignment fuel t (noeval || (a =? 0));
      last_token ← get_last;
      if negb (last_token =? ARITH_COLON) then yyerror ExpectColon
      else
        token ← yylex; val ← get_yylval; op ← yylex;
        c ← cond fuel token val op (noeval || negb (a =? 0));
        mret (if a =? 0 then c else b)
  end
with assignment (fuel : nat) (var : Z) (noeval : bool) : M Z :=
  match fuel with
  | O => no_fuel
  | S fuel =>
    val ← get_yylval;
    op ← yylex;
    if negb (var =? ARITH_VAR) then cond fuel var val op noeval
    else if negb (is_assop op) then cond fuel var val op noeval
    else
      t ← yylex;
      result ← assignment fuel t noeval;
      if noeval then mret result
      else
        result ← (if negb (op =? ARITH_ASS)
                  then x ← arith_lookupvarint (name_of val); lift (do_binop (op - 11) x result)
                  else mret result);
        _ ← assign (name_of val) result;
        mret result
  end.

(** Eight calls at most for a token. *)
Definition arith_fuel (s : list Z) : nat := 8 * length s + 8.

(** [arith_buf] is set; [yylval] and [last_token] are what they were. *)
Definition arith (s : list Z) (yylval : yystype) (last_token : Z) (v : env) : ares Z :=
  (t ← yylex;
   result ← assignment (arith_fuel s) t false;
   last_token ← get_last;
   if negb (last_token =? 0) then yyerror ExpectEOF else mret result)
  (AState s yylval last_token v).

(** The arguments of [let], joined by blanks; its output and status. *)
Fixpoint concat_args (args : list (list Z)) : list Z :=
  match args with
  | [] => []
  | [p] => p
  | p :: args => p ++ 32 :: concat_args args
  end.

Definition letcmd (args : list (list Z)) (yylval : yystype) (last_token : Z) (v : env) : ares (list Z * bool) :=
  match arith (concat_args args) yylval last_token v with
  | AOk i s => AOk (print_imax i ++ [10], i =? 0) s
  | AErr e v => AErr e v
  | AFuel => AFuel
  end.

End Arith.
#[global] Arguments AOk {env A}. #[global] Arguments AErr {env A}. #[global] Arguments AFuel {env A}.
