(* ===== verification/ArithGrammar.v ===== *)
(** The grammar of shell arithmetic as trees, what an expression means, and the
    tokens of a string: the specification the parser is compared with. *)

From S2P Require Import Prelude Ctype Strto Arith.

(** * Tokens of a string *)

Inductive tk := TNum (z : Z) | TVar (name : list Z) | TSym (t : Z).

Definition tnum (k : tk) : Z := match k with TNum _ => ARITH_NUM | TVar _ => ARITH_VAR | TSym t => t end.

(** What a token number and [yylval] stand for. *)
Inductive isk : Z -> yystype -> tk -> Prop :=
| isk_num z : isk ARITH_NUM (YVal z) (TNum z)
| isk_var n : isk ARITH_VAR (YName n) (TVar n)
| isk_sym t y : t <> ARITH_NUM -> t <> ARITH_VAR -> isk t y (TSym t).

Lemma isk_tnum t y k : isk t y k -> t = tnum k.
Proof. by destruct 1. Qed.

Definition tk_of (t : Z) (y : yystype) : tk :=
  if t =? ARITH_NUM then match y with YVal z => TNum z | YName _ => TSym t end
  else if t =? ARITH_VAR then match y with YName n => TVar n | YVal _ => TSym t end
  else TSym t.

(** The next token and the rest of the string. *)
Definition lex1 (buf : list Z) : tk * list Z :=
  let '(t, buf, y) := yylex_at buf (YVal 0) in (tk_of t y, buf).

(** Operators are none of the other tokens, and take at least a character. *)
Definition op_token (t : Z) : Prop := t = ARITH_ASS \/ t = ARITH_OR \/ t = ARITH_AND \/ ARITH_NOT <= t.

Lemma checkeqcur_spec value buf t b : checkeqcur value buf = (t, b) ->
  (t = value \/ t = value + 11) /\ (length b <= length buf)%nat.
Proof. unfold checkeqcur. case_match; intros [= <- <-]; split; auto. destruct buf; cbn; lia. Qed.

Ltac op_tok :=
  first [by left | by right; left | by right; right; left | right; right; right; vm_compute; discriminate].

Lemma operator_spec value buf t b : operator value (value :: buf) = Some (t, b) ->
  op_token t /\ (length b <= length buf)%nat.
Proof.
  unfold operator, checkeq. cbn [tl]. intros E.
  repeat match type of E with (if ?x then _ else _) = _ => destruct x end; try done;
    repeat match type of E with Some (if ?x then _ else _) = _ => destruct x end;
    apply (inj Some) in E; try (apply checkeqcur_spec in E as [[-> | ->] Hb]); try injection E as <- <-;
    (split; [by op_tok|destruct buf as [|? [|? ?]]; cbn in *; lia]).
Qed.

Lemma scan_length base s : forall acc v r, scan base acc s = (v, r) -> (length r <= length s)%nat.
Proof.
  induction s as [|c s IH]; intros acc v r; cbn [scan]; [by intros [= _ <-]|].
  case_match; [intros E%IH; cbn; lia|by intros [= _ <-]].
Qed.

Lemma scan_first base acc c s v r : digit_value c <? base = true ->
  scan base acc (c :: s) = (v, r) -> (length r <= length s)%nat.
Proof. intros Hc. cbn [scan]. rewrite Hc. apply scan_length. Qed.

(** A number takes at least its first digit. *)
Lemma subject_first c s : isdigit c = true ->
  exists v r, subject 0 (c :: s) = Some (false, v, r) /\ (length r <= length s)%nat.
Proof.
  intros Hc. unfold subject. rewrite skip_space_digit by done. destruct (digit_value_digit c Hc) as [Ev ?].
  rewrite (proj2 (Z.eqb_neq c 45)), (proj2 (Z.eqb_neq c 43)) by lia.
  assert (digit_value c <? (if c =? 48 then 8 else 10) = true) as Hb
    by (apply Z.ltb_lt; destruct (Z.eqb_spec c 48); lia).
  assert (forall base, digit_value c <? base = true -> exists v r, (let '(v, s0) := scan base 0 (c :: s) in
    Some (false, v, s0)) = Some (false, v, r) /\ (length r <= length s)%nat) as Hscan.
  { intros base Hbase. destruct (scan base 0 (c :: s)) as [v r] eqn:E. exists v, r. split; [done|].
    by eapply scan_first in E. }
  unfold base_prefix. destruct s as [|x [|d s]]; cbn match; change (0 =? 0) with true; cbn [orb andb];
    try (rewrite Hb; by apply Hscan).
  destruct ((c =? 48) && (tolower x =? 120) && (digit_value d <? 16)) eqn:E.
  - apply andb_prop in E as [_ E]. cbn [drop]. rewrite E. destruct (scan 16 0 (d :: s)) as [v r] eqn:Es.
    exists v, r. split; [done|]. apply scan_first in Es; [|done]. cbn. lia.
  - rewrite Hb. by apply Hscan.
Qed.

Lemma strtoarith_t_first c s v e err : isdigit c = true -> strtoarith_t (c :: s) = (v, e, err) ->
  (length e <= length s)%nat.
Proof.
  intros Hc. unfold strtoarith_t. rewrite skip_space_digit by done. cbn [hd].
  destruct (digit_value_digit c Hc) as [_ ?]. change (chr "-") with 45. rewrite (proj2 (Z.eqb_neq c 45)) by lia.
  unfold strtoumax. destruct (subject_first c s Hc) as (v' & r & -> & Hr).
  repeat (case_match; try (intros [= <- <- <-]; simplify_eq; done)); simplify_eq.
Qed.

Lemma name_span_length s : forall n r, name_span s = (n, r) -> (length r <= length s)%nat.
Proof.
  induction s as [|c s IH]; intros n r; cbn [name_span]; [by intros [= _ <-]|].
  destruct (is_in_name c); [|by intros [= _ <-]]. destruct (name_span s) as [n' r'] eqn:E.
  intros [= _ <-]. specialize (IH _ _ eq_refl). cbn. lia.
Qed.

(** How many characters a token has at least. *)
Definition weight (t : Z) : nat := if (t =? 0) || (t =? ARITH_BAD) then 0 else 1.

Lemma op_token_weight t : op_token t -> weight t = 1%nat /\ t <> ARITH_NUM /\ t <> ARITH_VAR.
Proof.
  unfold op_token, ARITH_ASS, ARITH_OR, ARITH_AND, ARITH_NOT, ARITH_NUM, ARITH_VAR. intros Ht. split; [|lia].
  unfold weight, ARITH_BAD. rewrite (proj2 (Z.eqb_neq t 0)), (proj2 (Z.eqb_neq t 4)) by lia. done.
Qed.

Lemma yylex_from_spec start buf y t b y' : (length buf <= length start)%nat -> yylex_from start buf y = (t, b, y') ->
  isk t y' (tk_of t y') /\ (weight t + length b <= length start)%nat /\
  (forall y2, exists y2', yylex_from start buf y2 = (t, b, y2') /\ tk_of t y2' = tk_of t y').
Proof.
  induction buf as [|c buf IH]; intros Hlen; cbn [yylex_from].
  { intros [= <- <- <-]. split_and!; [by constructor|cbn; lia|by eexists]. }
  cbn [length] in Hlen. destruct (is_blank c); [intros E; apply IH in E; [done|lia]|].
  destruct (c =? 0); [intros [= <- <- <-]; split_and!; [by constructor|cbn; lia|by eexists]|].
  destruct (isdigit c) eqn:Hd.
  { destruct (strtoarith_t (c :: buf)) as [[v e] err] eqn:E. apply strtoarith_t_first in E; [|done].
    intros [= <- <- <-]. split_and!; [by constructor|cbn; lia|by eexists]. }
  destruct (is_name c).
  { destruct (name_span buf) as [n r] eqn:E. apply name_span_length in E.
    intros [= <- <- <-]. split_and!; [by constructor|cbn; lia|by eexists]. }
  destruct (operator c (c :: buf)) as [[t' b']|] eqn:E; intros [= <- <- <-].
  - apply operator_spec in E as [Ht Hb]. destruct (op_token_weight _ Ht) as (-> & Hn & Hv).
    assert (forall y, tk_of t' y = TSym t') as Etk
      by (intros y0; unfold tk_of; by rewrite (proj2 (Z.eqb_neq _ _) Hn), (proj2 (Z.eqb_neq _ _) Hv)).
    split_and!; [rewrite Etk; by constructor|lia|intros y2; exists y2; by rewrite !Etk].
  - split_and!; [by constructor|cbn; lia|by eexists].
Qed.

Lemma yylex_at_spec buf y t b y' : yylex_at buf y = (t, b, y') ->
  exists k, lex1 buf = (k, b) /\ isk t y' k /\ (weight t + length b <= length buf)%nat.
Proof.
  intros E. apply yylex_from_spec in E as (Hk & Hw & Hy); [|done]. exists (tk_of t y').
  split_and!; [|done|done]. unfold lex1. destruct (Hy (YVal 0)) as (y2 & E2 & Et).
  unfold yylex_at. by rewrite E2, Et.
Qed.

(** * Trees *)

Inductive expr :=
| Num (z : Z)
| Var (name : list Z)
| Paren (e : expr)
| Un (op : Z) (e : expr)
| Bin (op : Z) (e1 e2 : expr)
| And (e1 e2 : expr)
| Or (e1 e2 : expr)
| Cond (e1 e2 e3 : expr)
| Asg (name : list Z) (op : Z) (e : expr).

(** The level of a tree in the grammar of C: primary expressions, the binary
    operators by precedence, &&, ||, ?: and the assignments. *)
Definition level (e : expr) : Z :=
  match e with
  | Num _ | Var _ | Paren _ | Un _ _ => 0
  | Bin op _ _ => 1 + arith_prec op
  | And _ _ => 9
  | Or _ _ => 10
  | Cond _ _ _ => 11
  | Asg _ _ _ => 12
  end.
(** The precedences of C, from the strongest operators to the weakest. *)
Lemma level_table a b : map (fun op => level (Bin op a b))
    [ARITH_MUL; ARITH_DIV; ARITH_REM; ARITH_ADD; ARITH_SUB; ARITH_LSHIFT; ARITH_RSHIFT; ARITH_LT; ARITH_LE; ARITH_GT; ARITH_GE;
     ARITH_EQ; ARITH_NE; ARITH_BAND; ARITH_BXOR; ARITH_BOR] = [1; 1; 1; 2; 2; 3; 3; 4; 4; 4; 4; 5; 5; 6; 7; 8].
Proof. reflexivity. Qed.

Definition is_unop (op : Z) : bool :=
  (op =? ARITH_ADD) || (op =? ARITH_SUB) || (op =? ARITH_NOT) || (op =? ARITH_BNOT).

(** Trees without missing parentheses: the binary operators associate to the left,
    &&, ||, ?: and the assignments to the right. *)
Fixpoint wf (e : expr) : Prop :=
  match e with
  | Num _ | Var _ => True
  | Paren e => wf e
  | Un op e => is_unop op = true /\ wf e /\ level e = 0
  | Bin op a b => is_binop op = true /\ wf a /\ wf b /\ level a <= 1 + arith_prec op /\ level b <= arith_prec op
  | And a b => wf a /\ wf b /\ level a <= 8 /\ level b <= 9
  | Or a b => wf a /\ wf b /\ level a <= 9 /\ level b <= 10
  | Cond a b c => wf a /\ wf b /\ wf c /\ level a <= 10 /\ level c <= 11
  | Asg _ op e => is_assop op = true /\ wf e
  end.

(** The tokens of a tree. *)
Fixpoint flatten (e : expr) : list tk :=
  match e with
  | Num z => [TNum z]
  | Var x => [TVar x]
  | Paren e => TSym ARITH_LPAREN :: flatten e ++ [TSym ARITH_RPAREN]
  | Un op e => TSym op :: flatten e
  | Bin op a b => flatten a ++ TSym op :: flatten b
  | And a b => flatten a ++ TSym ARITH_AND :: flatten b
  | Or a b => flatten a ++ TSym ARITH_OR :: flatten b
  | Cond a b c => flatten a ++ TSym ARITH_QMARK :: flatten b ++ TSym ARITH_COLON :: flatten c
  | Asg x op e => TVar x :: TSym op :: flatten e
  end.

(** * Meaning *)

Section Eval.
Context {env : Type} `{Vars env}.

Inductive eres := EOk (x : Z) (v : env) | EErr (e : aerror) (v : env).

Definition ebind (r : eres) (f : Z -> env -> eres) : eres :=
  match r with EOk x v => f x v | EErr e v => EErr e v end.
Definition elift (r : aerror + Z) (v : env) : eres := match r with inr x => EOk x v | inl e => EErr e v end.

Definition unop_value (op a : Z) : Z :=
  if op =? ARITH_SUB then neg_arith a
  else if op =? ARITH_NOT then b2z (a =? 0)
  else if op =? ARITH_BNOT then Z.lnot a
  else a.

(** What an assignment stores. *)
Definition assigned (name : list Z) (op result : Z) (v : env) : eres :=
  if op =? ARITH_ASS then EOk result v
  else ebind (elift (var_value v name) v) (fun x v => elift (do_binop (op - 11) x result) v).

Fixpoint eval (e : expr) (v : env) : eres :=
  match e with
  | Num z => EOk z v
  | Var x => elift (var_value v x) v
  | Paren e => eval e v
  | Un op e => ebind (eval e v) (fun a v => EOk (unop_value op a) v)
  | Bin op a b => ebind (eval a v) (fun a v => ebind (eval b v) (fun b v => elift (do_binop op a b) v))
  | And a b => ebind (eval a v) (fun a v => if a =? 0 then EOk 0 v else ebind (eval b v) (fun b v => EOk (b2z (negb (b =? 0))) v))
  | Or a b => ebind (eval a v) (fun a v => if a =? 0 then ebind (eval b v) (fun b v => EOk (b2z (negb (b =? 0))) v) else EOk 1 v)
  | Cond a b c => ebind (eval a v) (fun a v => if a =? 0 then eval c v else eval b v)
  | Asg x op e =>
    ebind (eval e v) (fun result v => ebind (assigned x op result v) (fun result v =>
      match setvar v x (sresult result) with Some v' => EOk result v' | None => EErr SetvarError v end))
  end.

End Eval.
Arguments eres : clear implicits.

(** A string has these tokens, and then ends. *)
Fixpoint feeds (ts : list tk) (b b' : list Z) : Prop :=
  match ts with
  | [] => b = b'
  | k :: ts => exists b1, lex1 b = (k, b1) /\ feeds ts b1 b'
  end.
Definition tokens (s : list Z) (ts : list tk) : Prop := exists b', feeds (ts ++ [TSym 0]) s b'.

Lemma feeds_app X Y b b' : feeds (X ++ Y) b b' <-> exists bm, feeds X b bm /\ feeds Y bm b'.
Proof.
  revert b. induction X as [|k X IH]; intros b; cbn [app feeds]; [naive_solver|].
  split.
  - intros (b1 & E & (bm & H1 & H2)%IH). eauto.
  - intros (bm & (b1 & E & H1) & H2). exists b1. split; [done|]. apply IH. eauto.
Qed.
