(* ===== verification/ArithComplete.v ===== *)
(** The parser does to the tokens of a tree what the tree means. *)

From S2P Require Import Prelude Ctype Strto Arith ArithGrammar.

(** * Chains of binary operators *)

(** The operands of a tree along its left spine. *)
Definition plug (q : expr) (c : list (Z * expr)) : expr := foldl (fun l e => Bin e.1 l e.2) q c.
Definition chain_toks (c : list (Z * expr)) : list tk := concat (map (fun e => TSym e.1 :: flatten e.2) c).

(** Precedences between [lo] and [p] that do not decrease. *)
Fixpoint wf_chain (lo p : Z) (c : list (Z * expr)) : Prop :=
  match c with
  | [] => True
  | (op, r) :: c =>
    is_binop op = true /\ wf r /\ level r <= arith_prec op /\ lo <= arith_prec op < p /\ wf_chain (arith_prec op) p c
  end.

Lemma is_binop_range op : is_binop op = true -> 8 <= op < 24.
Proof. unfold is_binop, ARITH_BINOP_MIN, ARITH_BINOP_MAX. intros [??]%andb_prop. zbool. lia. Qed.

Lemma arith_prec_range op : 0 <= arith_prec op < 8.
Proof.
  unfold arith_prec. destruct (List.find _ _) as [[o p]|] eqn:E; [|lia]. apply find_some in E as [Hin _].
  assert (Forall (fun e => 0 <= e.2 < 8) prec_table) as Hall by (repeat constructor; cbn; lia).
  rewrite Forall_forall in Hall. apply (Hall (o, p)). by apply list_elem_of_In.
Qed.

Lemma level_nonneg e : 0 <= level e.
Proof. destruct e; cbn; try lia. pose proof (arith_prec_range op). lia. Qed.

Lemma wf_chain_app lo p c op r : wf_chain lo (1 + arith_prec op) c -> is_binop op = true -> wf r ->
  level r <= arith_prec op -> lo <= arith_prec op < p -> wf_chain lo p (c ++ [(op, r)]).
Proof.
  revert lo. induction c as [|[o r'] c IH]; intros lo; cbn [wf_chain app]; [tauto|].
  intros (H1 & H2 & H3 & H4 & H5) Hop Hr Hl Hp. split_and!; try done; try lia. apply IH; try done. lia.
Qed.

Lemma spine e : wf e -> forall p, p <= 8 -> level e <= p ->
  exists q c, e = plug q c /\ wf q /\ level q = 0 /\ wf_chain 0 p c.
Proof.
  induction e; intros Hwf p Hp Hl; cbn [level] in Hl; try lia;
    try (match goal with |- exists q c, ?e = _ /\ _ => by exists e, [] end).
  destruct Hwf as (Hop & Hw1 & Hw2 & Hl1 & Hl2). pose proof (arith_prec_range op).
  destruct (IHe1 Hw1 (1 + arith_prec op) ltac:(lia) Hl1) as (q & c & -> & Hq & Hq0 & Hc).
  exists q, (c ++ [(op, e2)]). split_and!; [unfold plug; by rewrite foldl_app|done|done|].
  apply wf_chain_app; try done. lia.
Qed.

Lemma flatten_plug q c : flatten (plug q c) = flatten q ++ chain_toks c.
Proof.
  revert q. induction c as [|[op r] c IH]; intros q; [cbn; by rewrite app_nil_r|].
  change (plug q ((op, r) :: c)) with (plug (Bin op q r) c). rewrite (IH (Bin op q r)). cbn. by rewrite <- app_assoc.
Qed.

(** The first token behind an operand, and what follows it. *)
Definition nxt (c : list (Z * expr)) (nx : tk) : tk := match c with [] => nx | (op, _) :: _ => TSym op end.
Definition rst (c : list (Z * expr)) : list tk := match c with [] => [] | (_, r) :: c => flatten r ++ chain_toks c end.

Lemma chain_next c nx Y : chain_toks c ++ nx :: Y = nxt c nx :: (if c then Y else rst c ++ nx :: Y).
Proof. by destruct c as [|[op r] c]. Qed.

Lemma flatten_nonempty e : (1 <= length (flatten e))%nat.
Proof. induction e; cbn; rewrite ?length_app; cbn; lia. Qed.

Lemma flatten_snoc e nx : (2 <= length (flatten e ++ [nx]))%nat.
Proof. rewrite length_app. pose proof (flatten_nonempty e). cbn. lia. Qed.

Section Complete.
Context {env : Type} `{Vars env} (address : list Z -> Z).

Fixpoint eval_chain (acc : eres env) (c : list (Z * expr)) : eres env :=
  match c with
  | [] => acc
  | (op, r) :: c =>
    eval_chain (ebind acc (fun a v => ebind (eval r v) (fun b v => elift (do_binop op a b) v))) c
  end.

Lemma eval_plug q c v : eval (plug q c) v = eval_chain (eval q v) c.
Proof. revert q. induction c as [|[op r] c IH]; intros q; [done|]. exact (IH (Bin op q r)). Qed.

Lemma eval_chain_err e v c : eval_chain (EErr e v) c = EErr e v.
Proof. induction c as [|[op r] c IH]; [done|]. apply IH. Qed.

(** * Positions in the token stream *)

(** [token] with [val] and [op] with [yylval] have been read, the rest is in the buffer. *)
Definition ready (token : Z) (val : yystype) (op : Z) (st : astate (env := env)) (T : list tk) (b' : list Z) : Prop :=
  exists k1 k2 ts, T = k1 :: k2 :: ts /\ isk token val k1 /\ isk op (a_yylval st) k2 /\ feeds ts (a_buf st) b'.
(** [t] with [yylval] has been read. *)
Definition hold (t : Z) (st : astate (env := env)) (T : list tk) (b' : list Z) : Prop :=
  exists k ts, T = k :: ts /\ isk t (a_yylval st) k /\ feeds ts (a_buf st) b'.
Definition after (nx : tk) (b' : list Z) (st : astate (env := env)) : Prop :=
  isk (a_last st) (a_yylval st) nx /\ a_buf st = b'.

Lemma ready_app token val op st X Y b' : ready token val op st (X ++ Y) b' -> (2 <= length X)%nat ->
  exists bm, ready token val op st X bm /\ feeds Y bm b'.
Proof.
  intros (k1 & k2 & ts & E & H1 & H2 & Hf) HX. destruct X as [|x1 [|x2 X]]; cbn in HX; try lia.
  injection E as <- <- <-. apply feeds_app in Hf as (bm & Hf & HY). exists bm. split; [|done].
  by exists x1, x2, X.
Qed.

Lemma hold_app t st X Y b' : hold t st (X ++ Y) b' -> (1 <= length X)%nat ->
  exists bm, hold t st X bm /\ feeds Y bm b'.
Proof.
  intros (k & ts & E & H1 & Hf) HX. destruct X as [|x X]; cbn in HX; [lia|].
  injection E as <- <-. apply feeds_app in Hf as (bm & Hf & HY). exists bm. split; [|done]. by exists x, X.
Qed.

Lemma ready_hold token val op st k T b' : ready token val op st (k :: T) b' -> hold op st T b'.
Proof. intros (k1 & k2 & ts & [= <- ->] & H1 & H2 & Hf). by exists k2, ts. Qed.

Lemma ready_first token val op st k T b' : ready token val op st (k :: T) b' -> isk token val k.
Proof. intros (k1 & k2 & ts & [= <- ->] & H1 & H2 & Hf). done. Qed.

(** One step of the lexer on a stream that is known. *)
Lemma lex_one {A} (K : Z -> M (env := env) A) st T b' : feeds T (a_buf st) b' -> T <> [] ->
  exists t st', (t ← yylex; K t) st = K t st' /\ hold t st' T b' /\ a_env st' = a_env st /\ a_last st' = a_last st.
Proof.
  intros HT Hne. destruct T as [|k ts]; [done|]. destruct HT as (b1 & E & Hts).
  unfold yylex, mbind, M_bind. destruct (yylex_at (a_buf st) (a_yylval st)) as [[t b] y] eqn:Ey.
  apply yylex_at_spec in Ey as (k' & E' & Hk & _). rewrite E in E'. injection E' as <- <-.
  eexists t, _. split; [reflexivity|]. cbn. split; [|done]. by exists k, ts.
Qed.

Lemma shift {A} (K : yystype -> Z -> M (env := env) A) var st T b' : hold var st T b' -> (2 <= length T)%nat ->
  exists val op st', (val ← get_yylval; op ← yylex; K val op) st = K val op st' /\
    ready var val op st' T b' /\ a_env st' = a_env st /\ a_last st' = a_last st.
Proof.
  intros (k & ts & -> & Hk & Hts) HT. cbn in HT.
  destruct (lex_one (K (a_yylval st)) st ts b' Hts ltac:(by destruct ts; cbn in HT; [lia|])) as (op & st' & E & Hop & Henv & Hl).
  destruct Hop as (k2 & ts' & -> & Hk2 & Hts').
  exists (a_yylval st), op, st'. split; [exact E|]. split; [|done]. by exists k, k2, ts'.
Qed.

Lemma lex_two {A} (K : Z -> yystype -> Z -> M (env := env) A) st T b' : feeds T (a_buf st) b' -> (2 <= length T)%nat ->
  exists token val op st', (token ← yylex; val ← get_yylval; op ← yylex; K token val op) st = K token val op st' /\
    ready token val op st' T b' /\ a_env st' = a_env st.
Proof.
  intros HT Hl.
  destruct (lex_one (fun token => val ← get_yylval; op ← yylex; K token val op) st T b' HT ltac:(by intros ->; cbn in Hl; lia))
    as (t & st1 & E1 & H1 & He1 & _).
  destruct (shift (K t) t st1 T b' H1 Hl) as (val & op & st2 & E2 & H2 & He2 & _).
  exists t, val, op, st2. split; [by rewrite E1, E2|]. split; [done|congruence].
Qed.

(** * Results *)

(** The result agrees with the meaning [r], up to the value when nothing is evaluated. *)
Definition good (noeval : bool) (r : eres env) (nx : tk) (b' : list Z) (v0 : env) (res : ares (env := env) Z) : Prop :=
  match res with
  | AFuel => True
  | AOk x st' => after nx b' st' /\ if noeval then a_env st' = v0 else r = EOk x (a_env st')
  | AErr e v => noeval = false /\ r = EErr e v
  end.

Lemma good_bind ne ne' r nx b v0 (m : M (env := env) Z) f st R NX B V0 :
  good ne r nx b v0 (m st) ->
  (ne = false -> ne' = false) ->
  (ne = false -> forall e v, r = EErr e v -> R = EErr e v) ->
  (forall x st', after nx b st' -> (ne = true -> a_env st' = v0) -> (ne = false -> r = EOk x (a_env st')) ->
    good ne' R NX B V0 (f x st')) ->
  good ne' R NX B V0 ((m ≫= f) st).
Proof.
  intros Hm Hne Herr Hf. unfold mbind, M_bind. destruct (m st) as [x st'|e v|]; [|naive_solver|done].
  destruct Hm as [Ha Hv]. apply Hf; [done|by intros ->|by intros ->].
Qed.

Lemma good_lex2 ne R NX B v0 K st T b' : feeds T (a_buf st) b' -> (2 <= length T)%nat ->
  (forall token val op st', ready token val op st' T b' -> a_env st' = a_env st ->
     good ne R NX B v0 (K token val op st')) ->
  good ne R NX B v0 ((token ← yylex; val ← get_yylval; op ← yylex; K token val op) st).
Proof. intros HT Hl HK. destruct (lex_two K st T b' HT Hl) as (t & v & o & st' & E & Hr & He). rewrite E. by apply HK. Qed.

Lemma good_lex1 ne R NX B v0 K st T b' : feeds T (a_buf st) b' -> (1 <= length T)%nat ->
  (forall t st', hold t st' T b' -> a_env st' = a_env st -> good ne R NX B v0 (K t st')) ->
  good ne R NX B v0 ((t ← yylex; K t) st).
Proof.
  intros HT Hl HK. destruct (lex_one K st T b' HT ltac:(by intros ->; cbn in Hl; lia)) as (t & st' & E & Hr & He & _).
  rewrite E. by apply HK.
Qed.

Lemma good_shift ne R NX B v0 K var st T b' : hold var st T b' -> (2 <= length T)%nat ->
  (forall val op st', ready var val op st' T b' -> a_env st' = a_env st -> good ne R NX B v0 (K val op st')) ->
  good ne R NX B v0 ((val ← get_yylval; op ← yylex; K val op) st).
Proof.
  intros HT Hl HK. destruct (shift K var st T b' HT Hl) as (v & o & st' & E & Hr & He & _). rewrite E. by apply HK.
Qed.

Lemma ready_infix token val op st a k Y nx b' : ready token val op st ((flatten a ++ k :: Y) ++ [nx]) b' ->
  exists bm, ready token val op st (flatten a ++ [k]) bm /\ feeds (Y ++ [nx]) bm b'.
Proof.
  replace ((flatten a ++ k :: Y) ++ [nx]) with ((flatten a ++ [k]) ++ Y ++ [nx]) by (by rewrite <- !app_assoc).
  intros Hr. by apply ready_app; [|apply flatten_snoc].
Qed.

Lemma hold_infix t st a k Y nx b' : hold t st ((flatten a ++ k :: Y) ++ [nx]) b' ->
  exists bm, hold t st (flatten a ++ [k]) bm /\ feeds (Y ++ [nx]) bm b'.
Proof.
  replace ((flatten a ++ k :: Y) ++ [nx]) with ((flatten a ++ [k]) ++ Y ++ [nx]) by (by rewrite <- !app_assoc).
  intros Hr. apply hold_app; [done|]. pose proof (flatten_snoc a k). lia.
Qed.

(** The token behind a tree of a level must not continue it. *)
Definition stop (l : Z) (nx : tk) : Prop :=
  (8 <= l -> is_binop (tnum nx) = false) /\ (9 <= l -> tnum nx <> ARITH_AND) /\ (10 <= l -> tnum nx <> ARITH_OR) /\
  (11 <= l -> tnum nx <> ARITH_QMARK) /\ (12 <= l -> is_assop (tnum nx) = false).
Definition stop_chain (p : Z) (nx : tk) : Prop := is_binop (tnum nx) = true -> p <= arith_prec (tnum nx).

Lemma stop_mono l l' nx : stop l nx -> l' <= l -> stop l' nx.
Proof. unfold stop. intros (H1 & H2 & H3 & H4 & H5) Hl. split_and!; intros; [apply H1|apply H2|apply H3|apply H4|apply H5]; lia. Qed.

Definition complete (l : Z) (F : Z -> yystype -> Z -> bool -> M Z) : Prop :=
  forall e token val op ne st nx b', wf e -> level e <= l -> stop l nx ->
    ready token val op st (flatten e ++ [nx]) b' ->
    good ne (eval e (a_env st)) nx b' (a_env st) (F token val op ne st).
Definition complete_asg (F : Z -> bool -> M Z) : Prop :=
  forall e var ne st nx b', wf e -> stop 12 nx -> hold var st (flatten e ++ [nx]) b' ->
    good ne (eval e (a_env st)) nx b' (a_env st) (F var ne st).
Definition complete_chain (F : Z -> Z -> Z -> bool -> M Z) : Prop :=
  forall a op r c p ne st nx b', wf_chain 0 p ((op, r) :: c) -> p <= 8 -> stop_chain p nx ->
    feeds (flatten r ++ chain_toks c ++ [nx]) (a_buf st) b' ->
    good ne (eval_chain (EOk a (a_env st)) ((op, r) :: c)) nx b' (a_env st) (F a op p ne st).

Lemma after_last nx b st : after nx b st -> a_last st = tnum nx.
Proof. intros [H1 _]. by apply isk_tnum in H1. Qed.

Lemma after_buf nx b st : after nx b st -> a_buf st = b.
Proof. by intros [_ H1]. Qed.

Lemma good_ret ne r nx b v0 x st : after nx b st -> (ne = true -> a_env st = v0) -> (ne = false -> r = EOk x (a_env st)) ->
  good ne r nx b v0 (AOk x st).
Proof. intros Ha H1 H2. split; [done|]. destruct ne; auto. Qed.

(** A level that hands its tree to the level below, and finds no operator of its own. *)
Lemma pass_down l F (f : Z -> M Z) e token val op ne st nx b' :
  complete l F -> wf e -> level e <= l -> stop l nx -> ready token val op st (flatten e ++ [nx]) b' ->
  (forall x st', a_last st' = tnum nx -> f x st' = AOk x st') ->
  good ne (eval e (a_env st)) nx b' (a_env st) ((F token val op ne ≫= f) st).
Proof.
  intros HF Hwf Hl Hs Hr Hf. eapply good_bind; [by eapply HF|done|done|].
  intros x st' Ha H1 H2. rewrite Hf by (by apply after_last in Ha). by apply good_ret.
Qed.

Lemma bind_last {A} (K : Z -> M (env := env) A) st : (l ← get_last; K l) st = K (a_last st) st.
Proof. done. Qed.

Ltac stop_tok := split_and!; intros; first [reflexivity|discriminate|lia].

Lemma and_complete fuel : complete 8 (binop address fuel) -> complete 9 (and address fuel) ->
  complete 9 (and address (S fuel)).
Proof.
  intros Hb Ha e token val op ne st nx b' Hwf Hl Hs Hr. cbn [and].
  destruct (decide (level e <= 8)) as [Hle|Hle].
  - eapply (pass_down 8); try done; [apply (stop_mono 9); [done|lia]|]. intros x st' Hn.
    rewrite bind_last, Hn. destruct Hs as (_ & Hs & _).
    by rewrite (proj2 (Z.eqb_neq _ _) (Hs ltac:(lia))).
  - destruct e as [| | | |o ? ?|e1 e2| | |]; cbn [level] in *; try lia;
      [pose proof (arith_prec_range o); lia|].
    destruct Hwf as (Hw1 & Hw2 & Hl1 & Hl2). apply ready_infix in Hr as (bm & Hr & Hf).
    eapply good_bind; [eapply (Hb e1); [done|lia| |exact Hr]; stop_tok|done|cbn; by intros _ ? ? ->|].
    intros x st' Haf Hne Hev. rewrite bind_last, (after_last _ _ _ Haf). cbn [tnum]. change (negb (ARITH_AND =? ARITH_AND)) with false.
    rewrite <- (after_buf _ _ _ Haf) in Hf.
    eapply good_lex2; [exact Hf|apply flatten_snoc|]. intros tk' v' o' st2 Hr2 He2.
    eapply good_bind; [eapply (Ha e2); [done|lia| |exact Hr2]; done|by destruct ne|intros Hn e v He|intros y st3 Ha3 Hn3 He3].
    + apply orb_false_iff in Hn as [-> Hx]. cbn [eval]. rewrite Hev by done. cbn [ebind]. by rewrite Hx, <- He2, He.
    + apply good_ret; [done|intros ->; by rewrite Hn3, He2, Hne|intros ->]. cbn [eval]. rewrite Hev by done. cbn [ebind orb] in *.
      destruct (x =? 0); cbn [negb andb] in *; [by rewrite Hn3, He2|]. by rewrite <- He2, He3.
Qed.

Lemma or_complete fuel : complete 9 (and address fuel) -> complete 10 (or address fuel) ->
  complete 10 (or address (S fuel)).
Proof.
  intros Hb Ha e token val op ne st nx b' Hwf Hl Hs Hr. cbn [or].
  destruct (decide (level e <= 9)) as [Hle|Hle].
  - eapply (pass_down 9); try done; [apply (stop_mono 10); [done|lia]|]. intros x st' Hn.
    rewrite bind_last, Hn. destruct Hs as (_ & _ & Hs & _).
    by rewrite (proj2 (Z.eqb_neq _ _) (Hs ltac:(lia))).
  - destruct e as [| | | |o ? ?| |e1 e2| |]; cbn [level] in *; try lia;
      [pose proof (arith_prec_range o); lia|].
    destruct Hwf as (Hw1 & Hw2 & Hl1 & Hl2). apply ready_infix in Hr as (bm & Hr & Hf).
    eapply good_bind; [eapply (Hb e1); [done|lia| |exact Hr]; stop_tok|done|cbn; by intros _ ? ? ->|].
    intros x st' Haf Hne Hev. rewrite bind_last, (after_last _ _ _ Haf). cbn [tnum]. change (negb (ARITH_OR =? ARITH_OR)) with false.
    rewrite <- (after_buf _ _ _ Haf) in Hf.
    eapply good_lex2; [exact Hf|apply flatten_snoc|]. intros tk' v' o' st2 Hr2 He2.
    eapply good_bind; [eapply (Ha e2); [done|lia| |exact Hr2]; done|by destruct ne|intros Hn e v He|intros y st3 Ha3 Hn3 He3].
    + apply orb_false_iff in Hn as [-> Hx%negb_false_iff]. cbn [eval]. rewrite Hev by done. cbn [ebind]. by rewrite Hx, <- He2, He.
    + apply good_ret; [done|intros ->; by rewrite Hn3, He2, Hne|intros ->]. cbn [eval]. rewrite Hev by done. cbn [ebind orb] in *.
      destruct (x =? 0); cbn [negb orb] in *; [by rewrite <- He2, He3|by rewrite Hn3, He2].
Qed.

Lemma cond_complete fuel : complete 10 (or address fuel) -> complete 11 (cond address fuel) ->
  complete_asg (assignment address fuel) -> complete 11 (cond address (S fuel)).
Proof.
  intros Hb Hc Ha e token val op ne st nx b' Hwf Hl Hs Hr. cbn [cond].
  destruct (decide (level e <= 10)) as [Hle|Hle].
  - eapply (pass_down 10); try done; [apply (stop_mono 11); [done|lia]|]. intros x st' Hn.
    rewrite bind_last, Hn. destruct Hs as (_ & _ & _ & Hs & _).
    by rewrite (proj2 (Z.eqb_neq _ _) (Hs ltac:(lia))).
  - destruct e as [| | | |o ? ?| | |e1 e2 e3|]; cbn [level] in *; try lia;
      [pose proof (arith_prec_range o); lia|].
    destruct Hwf as (Hw1 & Hw2 & Hw3 & Hl1 & Hl3). apply ready_infix in Hr as (bm & Hr & Hf).
    eapply good_bind; [eapply (Hb e1); [done|lia| |exact Hr]; stop_tok|done|cbn; by intros _ ? ? ->|].
    intros x st' Haf Hne Hev. rewrite bind_last, (after_last _ _ _ Haf). cbn [tnum]. change (negb (ARITH_QMARK =? ARITH_QMARK)) with false.
    rewrite <- (after_buf _ _ _ Haf) in Hf.
    eapply good_lex1; [exact Hf|rewrite length_app; cbn; lia|]. intros t' st2 Hr2 He2.
    apply hold_infix in Hr2 as (bm2 & Hr2 & Hf2).
    eapply good_bind; [eapply (Ha e2); [done| |exact Hr2]; stop_tok|by destruct ne|intros Hn e v He|intros y st3 Ha3 Hn3 He3].
    { apply orb_false_iff in Hn as [-> Hx]. cbn [eval]. rewrite Hev by done. cbn [ebind]. by rewrite Hx, <- He2, He. }
    rewrite bind_last, (after_last _ _ _ Ha3). cbn [tnum]. change (negb (ARITH_COLON =? ARITH_COLON)) with false.
    rewrite <- (after_buf _ _ _ Ha3) in Hf2.
    eapply good_lex2; [exact Hf2|apply flatten_snoc|]. intros tk4 v4 o4 st4 Hr4 He4.
    eapply good_bind; [eapply (Hc e3); [done|lia| |exact Hr4]; done|by destruct ne|intros Hn e v He|intros z st5 Ha5 Hn5 He5].
    + apply orb_false_iff in Hn as [-> Hx%negb_false_iff]. cbn [eval]. rewrite Hev by done. cbn [ebind orb] in *. rewrite Hx in *.
      by rewrite <- He2, <- Hn3, <- He4, He by done.
    + apply good_ret; [done|intros ->; by rewrite Hn5, He4, Hn3, He2, Hne|intros ->]. cbn [eval]. rewrite Hev by done.
      cbn [ebind orb] in *. destruct (x =? 0); cbn [negb orb] in *.
      * by rewrite <- He2, <- Hn3, <- He4, He5 by done.
      * by rewrite <- He2, He3, Hn5, He4 by done.
Qed.

(** Behind a variable that begins a tree without assignment stands no assignment operator. *)
Lemma var_not_assigned e : wf e -> level e <= 11 -> forall x k2 ts Y,
  flatten e ++ Y = TVar x :: k2 :: ts -> (forall k Y', Y = k :: Y' -> is_assop (tnum k) = false) ->
  is_assop (tnum k2) = false.
Proof.
  assert (forall (op : Z) (Z' : list tk), is_assop op = false ->
    forall k Y', TSym op :: Z' = k :: Y' -> is_assop (tnum k) = false) as Hop by (intros op Z' Ho k Y' [= <- _]; done).
  induction e; intros Hwf Hl x k2 ts Y E HY; cbn [level] in Hl; try lia; cbn [flatten app] in E; try discriminate E;
    rewrite <- ?app_assoc in E; cbn [app] in E.
  - injection E as _ E. by eapply HY.
  - destruct Hwf as (Hb & Hw1 & _ & Hl1 & _). pose proof (arith_prec_range op).
    eapply (IHe1 Hw1 ltac:(lia) _ _ _ _ E), Hop.
    apply is_binop_range in Hb. unfold is_assop, ARITH_ASS, ARITH_ASS_MIN.
    rewrite (proj2 (Z.eqb_neq op 1)), (proj2 (Z.leb_gt 24 op)) by lia. done.
  - destruct Hwf as (Hw1 & _ & Hl1 & _). by eapply (IHe1 Hw1 ltac:(lia) _ _ _ _ E), Hop.
  - destruct Hwf as (Hw1 & _ & Hl1 & _). by eapply (IHe1 Hw1 ltac:(lia) _ _ _ _ E), Hop.
  - destruct Hwf as (Hw1 & _ & _ & Hl1 & _). by eapply (IHe1 Hw1 ltac:(lia) _ _ _ _ E), Hop.
Qed.

Lemma ready_hold_both token val op st T b' : ready token val op st T b' ->
  exists k1 k2 ts, T = k1 :: k2 :: ts /\ isk token val k1 /\ op = tnum k2.
Proof. intros (k1 & k2 & ts & E & H1 & H2 & _). exists k1, k2, ts. split_and!; [done|done|by apply isk_tnum in H2]. Qed.

(** The end of an assignment. *)
Lemma good_store x op e st0 res y st nx b' : after nx b' st -> eval e (a_env st0) = EOk y (a_env st) ->
  res = (result ← (if negb (op =? ARITH_ASS)
                   then x0 ← arith_lookupvarint x; lift (do_binop (op - 11) x0 y) else mret y);
         _ ← assign x result; mret result) st ->
  good false (eval (Asg x op e) (a_env st0)) nx b' (a_env st0) res.
Proof.
  intros Ha He ->. cbn [eval]. rewrite He. cbn [ebind]. unfold assigned, assign, arith_lookupvarint.
  unfold mbind, M_bind, mret, M_ret. destruct (op =? ARITH_ASS); cbn [negb].
  - cbn [ebind]. destruct (setvar _ _ _); [by split|done].
  - destruct (var_value _ _) as [er|x0]; cbn; [done|]. destruct (do_binop _ _ _) as [er|z]; cbn; [done|].
    destruct (setvar _ _ _); [by split|done].
Qed.

Lemma assignment_complete fuel : complete 11 (cond address fuel) -> complete_asg (assignment address fuel) ->
  complete_asg (assignment address (S fuel)).
Proof.
  intros Hc Ha e var ne st nx b' Hwf Hs Hh. cbn [assignment].
  eapply good_shift; [exact Hh|apply flatten_snoc|]. intros val op st1 Hr He1.
  destruct (decide (level e <= 11)) as [Hle|Hle].
  - assert (good ne (eval e (a_env st)) nx b' (a_env st) (cond address fuel var val op ne st1)) as Hcond.
    { rewrite <- He1. apply Hc; try done. apply (stop_mono 12); [done|lia]. }
    destruct (Z.eqb_spec var ARITH_VAR) as [Ev|Ev]; cbn [negb]; [|exact Hcond].
    apply ready_hold_both in Hr as (k1 & k2 & ts & E & H1 & ->).
    assert (is_assop (tnum k2) = false) as ->; [|exact Hcond].
    destruct H1; try done. eapply (var_not_assigned e); try done. intros k Y' [= <- _]. by apply Hs.
  - destruct e as [| | | |o ? ?| | | |x op' e1]; cbn [level] in *; try lia; [pose proof (arith_prec_range o); lia|].
    destruct Hwf as (Hop & Hw1). destruct Hr as (k1 & k2 & ts & [= <- <- <-] & H1 & H2 & Hf).
    inversion H1; subst. apply isk_tnum in H2. cbn in H2. subst op. change (negb (ARITH_VAR =? ARITH_VAR)) with false.
    rewrite Hop. cbn [negb name_of].
    eapply good_lex1; [exact Hf|rewrite length_app; cbn; lia|]. intros t' st2 Hr2 He2.
    eapply good_bind; [by eapply (Ha e1)|done| |intros y st3 Ha3 Hn3 He3].
    { intros _ e v He. cbn [eval]. by rewrite <- He1, <- He2, He. }
    destruct ne.
    + split; [done|]. by rewrite Hn3, He2, He1.
    + rewrite <- He1, <- He2. by eapply good_store; [|exact (He3 eq_refl)|].
Qed.


(** A unary operator in front of a primary expression. *)
Lemma unary_complete fuel (g : Z -> Z) op e val op0 ne st nx b' :
  complete 0 (primary address fuel) -> wf e -> level e = 0 -> ready op val op0 st ((TSym op :: flatten e) ++ [nx]) b' ->
  good ne (ebind (eval e (a_env st)) (fun a v => EOk (g a) v)) nx b' (a_env st)
    ((val ← get_yylval; op' ← yylex; a ← primary address fuel op0 val op' ne; mret (g a)) st).
Proof.
  intros Hp Hw Hl Hr. apply ready_hold in Hr.
  eapply good_shift; [exact Hr|apply flatten_snoc|]. intros val' op' st1 Hr1 He1.
  eapply good_bind; [eapply (Hp e); [done|lia| |exact Hr1]; stop_tok|done| |].
  - intros _ e0 v He. by rewrite <- He1, He.
  - intros a st2 Ha2 Hn He. apply good_ret; [done|intros Hne; by rewrite Hn|intros Hne].
    by rewrite <- He1, He.
Qed.

Lemma primary_complete fuel : complete 0 (primary address fuel) -> complete_asg (assignment address fuel) ->
  complete 0 (primary address (S fuel)).
Proof.
  intros Hp Ha e token val op ne st nx b' Hwf Hl Hs Hr. pose proof (level_nonneg e).
  destruct e as [z|x|e|uop e|o ? ?| | | |]; cbn [level] in *; try lia; [| | | |pose proof (arith_prec_range o); lia].
  - destruct Hr as (k1 & k2 & ts & [= <- <- <-] & H1 & H2 & Hf). inversion H1; subst. by destruct ne.
  - destruct Hr as (k1 & k2 & ts & [= <- <- <-] & H1 & H2 & Hf). inversion H1; subst.
    cbn -[eval]. unfold mbind, M_bind, set_last, arith_lookupvarint. destruct ne; [done|]. cbn.
    destruct (var_value _ _); cbn; [done|]. done.
  - pose proof (ready_first _ _ _ _ _ _ _ Hr) as H1. inversion H1; subst. apply ready_hold in Hr.
    cbn [primary]. change (ARITH_LPAREN =? ARITH_LPAREN) with true. cbn match.
    apply hold_infix in Hr as (bm & Hr & Hf).
    eapply good_bind; [eapply (Ha e); [done| |exact Hr]; stop_tok|done|by intros _ ? ? ?|intros y st3 Ha3 Hn3 He3].
    rewrite bind_last, (after_last _ _ _ Ha3). cbn [tnum]. change (negb (ARITH_RPAREN =? ARITH_RPAREN)) with false.
    rewrite <- (after_buf _ _ _ Ha3) in Hf.
    eapply good_lex1; [exact Hf|cbn; lia|]. intros t st4 (k & ts & [= <- <-] & Hk & Hb) He4. cbn in Hb. subst b'.
    unfold mbind, M_bind, set_last, mret, M_ret. apply good_ret; [by split|by intros ->; cbn; rewrite He4, Hn3|].
    intros ->. cbn. by rewrite He4, He3.
  - destruct Hwf as (Hu & Hw & Hl0). pose proof (ready_first _ _ _ _ _ _ _ Hr) as H1. inversion H1; subst.
    cbn [primary eval]. unfold is_unop in Hu.
    rewrite !orb_true_iff, !Z.eqb_eq in Hu. destruct Hu as [[[->| ->]| ->]| ->].
    + apply ready_hold in Hr. cbn match.
      assert (ebind (eval e (a_env st)) (fun a v => EOk (unop_value ARITH_ADD a) v) = eval e (a_env st)) as ->
        by (by destruct (eval e (a_env st))).
      eapply good_shift; [exact Hr|apply flatten_snoc|]. intros val' op' st1 Hr1 <-. by apply (Hp e); [|lia| |].
    + by eapply (unary_complete _ neg_arith).
    + by eapply (unary_complete _ (fun a => b2z (a =? 0))).
    + by eapply (unary_complete _ Z.lnot).
Qed.

Lemma stop_chain_nxt c op p nx : wf_chain (arith_prec op) p c -> stop_chain p nx -> arith_prec op < p ->
  stop_chain (arith_prec op) (nxt c nx).
Proof.
  unfold stop_chain. destruct c as [|[o r] c]; cbn [nxt wf_chain tnum].
  - intros _ Hs Hp Hb. specialize (Hs Hb). lia.
  - intros (_ & _ & _ & Hp & _) _ _ _. lia.
Qed.

Lemma wf_chain_weaken lo lo' p c : wf_chain lo p c -> lo' <= lo -> wf_chain lo' p c.
Proof. destruct c as [|[o r] c]; [done|]. cbn. intros (?&?&?&?&?) ?. split_and!; try done; lia. Qed.

Lemma nxt_binop c lo p nx o r c' : c = (o, r) :: c' -> wf_chain lo p c ->
  is_binop (tnum (nxt c nx)) = true /\ arith_prec (tnum (nxt c nx)) < p.
Proof. intros -> (? & _ & _ & ? & _). cbn. split; [done|lia]. Qed.

Definition rest_toks (c : list (Z * expr)) (nx : tk) : list tk :=
  match c with [] => [] | (_, r) :: c => flatten r ++ chain_toks c ++ [nx] end.
Lemma chain_snoc c nx : chain_toks c ++ [nx] = nxt c nx :: rest_toks c nx.
Proof. destruct c as [|[op r] c]; [done|]. unfold chain_toks. cbn. by rewrite <- app_assoc. Qed.

(** What [binop2] does once it has both operands. *)
Definition reduce (fuel : nat) (a op precedence : Z) (noeval : bool) (b : Z) : M Z :=
  op2 ← get_last;
  a ← (if noeval then mret b else lift (do_binop op a b));
  if negb (is_binop op2) || (precedence <=? arith_prec op2) then mret a
  else binop2 address fuel a op2 precedence noeval.

Lemma reduce_complete fuel a op c p ne b r st nx v0 bm b' :
  complete_chain (binop2 address fuel) -> wf_chain (arith_prec op) p c -> p <= 8 -> stop_chain p nx ->
  after (nxt c nx) bm st -> feeds (rest_toks c nx) bm b' ->
  (ne = true -> a_env st = v0) -> (ne = false -> r = EOk b (a_env st)) ->
  good ne (eval_chain (ebind r (fun b v => elift (do_binop op a b) v)) c) nx b' v0 (reduce fuel a op p ne b st).
Proof.
  intros Hc Hwf Hp Hs Ha Hf Hn He. unfold reduce. rewrite bind_last, (after_last _ _ _ Ha).
  assert (forall z, (ne = false -> do_binop op a b = inr z) ->
    good ne (eval_chain (ebind r (fun b v => elift (do_binop op a b) v)) c) nx b' v0
      ((if negb (is_binop (tnum (nxt c nx))) || (p <=? arith_prec (tnum (nxt c nx))) then mret z
        else binop2 address fuel z (tnum (nxt c nx)) p ne) st)) as Hfin.
  { intros z Hz. destruct c as [|[o r'] c].
    - cbn [nxt] in *. cbn in Hf. subst b'. assert (negb (is_binop (tnum nx)) || (p <=? arith_prec (tnum nx)) = true) as ->.
      { destruct (is_binop (tnum nx)) eqn:E; [|done]. cbn. apply Z.leb_le. by apply Hs. }
      apply good_ret; [done|done|]. intros Hne. cbn [eval_chain]. rewrite He by done. cbn [ebind]. by rewrite Hz.
    - destruct (nxt_binop _ _ _ nx _ _ _ eq_refl Hwf) as [-> Hlt]. rewrite (proj2 (Z.leb_gt _ _) Hlt). cbn [negb orb nxt tnum].
      rewrite <- (after_buf _ _ _ Ha) in Hf.
      pose proof (Hc z o r' c p ne st nx b' (wf_chain_weaken _ 0 _ _ Hwf ltac:(pose proof (arith_prec_range op); lia)) Hp Hs Hf) as Hg.
      destruct (binop2 address fuel z o p ne st) as [x st'|e v|]; [| |done].
      + destruct Hg as [Ha' Hv]. split; [done|]. destruct ne; [rewrite Hv; by apply Hn|].
        rewrite He, <- Hv by done. cbn [ebind]. by rewrite Hz.
      + destruct Hg as [-> Hv]. split; [done|]. rewrite He, <- Hv by done. cbn [ebind]. by rewrite Hz. }
  destruct ne; [by apply Hfin|]. destruct (do_binop op a b) as [e|z] eqn:E.
  - split; [done|]. rewrite He by done. cbn [ebind]. rewrite E. apply eval_chain_err.
  - by apply Hfin.
Qed.

Lemma binop2_complete fuel : complete 0 (primary address fuel) -> complete_chain (binop2 address fuel) ->
  complete_chain (binop2 address (S fuel)).
Proof.
  intros Hp Hc a op r c p ne st nx b' Hwf Hp8 Hs Hf. destruct Hwf as (Hop & Hr & Hlr & Hlp & Hwf).
  destruct (spine r Hr (arith_prec op) ltac:(lia) Hlr) as (q & c' & -> & Hq & Hq0 & Hc').
  rewrite flatten_plug, chain_snoc, <- app_assoc in Hf.
  assert (chain_toks c' ++ nxt c nx :: rest_toks c nx = nxt c' (nxt c nx) :: rest_toks c' (nxt c nx) ++ rest_toks c nx) as E
    by (by rewrite app_comm_cons, <- (chain_snoc c'), <- app_assoc).
  rewrite E in Hf. clear E. cbn [binop2].
  eapply good_lex2; [exact Hf|rewrite length_app; pose proof (flatten_nonempty q); cbn; lia|].
  intros token val op0 st1 Hr1 He1.
  change (nxt c' (nxt c nx) :: ?Y) with ([nxt c' (nxt c nx)] ++ Y) in Hr1. rewrite app_assoc in Hr1.
  apply ready_app in Hr1 as (bm & Hr1 & Hf1); [|apply flatten_snoc]. apply feeds_app in Hf1 as (bm2 & Hf1 & Hf2).
  cbn [eval_chain ebind]. rewrite eval_plug.
  eapply good_bind; [eapply (Hp q); [done|lia| |exact Hr1]; stop_tok|done| |].
  { intros _ e v He. cbn [ebind]. rewrite <- He1, He, eval_chain_err. cbn [ebind]. apply eval_chain_err. }
  intros b st2 Ha2 Hn2 He2. rewrite bind_last, (after_last _ _ _ Ha2).
  apply (good_bind ne ne (eval_chain (eval q (a_env st)) c') (nxt c nx) bm2 (a_env st)).
  - destruct c' as [|[o r'] c'].
    + cbn in Hf1. subst bm2. cbn [nxt].
      assert (is_binop (tnum (nxt c nx)) && higher_prec (tnum (nxt c nx)) op = false) as ->.
      { destruct (is_binop (tnum (nxt c nx))) eqn:Eb; [|done]. cbn. apply Z.ltb_ge.
        eapply (stop_chain_nxt c op p nx); try done. lia. }
      apply good_ret; [done|intros ->; by rewrite Hn2|intros ->]. cbn. by rewrite <- He1, He2.
    + destruct Hc' as (Ho & Hw' & Hl' & Hlt & Hc'). cbn [nxt tnum]. rewrite Ho. unfold higher_prec.
      rewrite (proj2 (Z.ltb_lt _ _)) by lia. cbn [andb].
      rewrite <- (after_buf _ _ _ Ha2) in Hf1.
      pose proof (Hc b o r' c' (arith_prec op) ne st2 (nxt c nx) bm2 ltac:(cbn; split_and!; try done; lia) ltac:(lia)
        (stop_chain_nxt c op p nx Hwf Hs ltac:(lia)) Hf1) as Hg.
      destruct (binop2 address fuel b o (arith_prec op) ne st2) as [x st'|e v|]; [| |done].
      * destruct Hg as [Ha' Hv]. split; [done|]. destruct ne; [rewrite Hv, Hn2; done|]. by rewrite <- He1, He2, <- Hv.
      * destruct Hg as [-> Hv]. split; [done|]. by rewrite <- He1, He2, <- Hv.
  - done.
  - intros _ e v He. rewrite He. cbn [ebind]. apply eval_chain_err.
  - intros x st3 Ha3 Hn3 He3. by eapply reduce_complete.
Qed.

Lemma binop_S fuel token val op ne : binop address (S fuel) token val op ne =
  (a ← primary address fuel token val op ne;
   op ← get_last;
   if negb (is_binop op) then mret a else binop2 address fuel a op ARITH_MAX_PREC ne).
Proof. done. Qed.

Lemma binop_complete fuel : complete 0 (primary address fuel) -> complete_chain (binop2 address fuel) ->
  complete 8 (binop address (S fuel)).
Proof.
  intros Hp Hc e token val op ne st nx b' Hwf Hl Hs Hr.
  destruct (spine e Hwf 8 ltac:(lia) Hl) as (q & c & -> & Hq & Hq0 & Hcw).
  rewrite flatten_plug, <- app_assoc, chain_snoc in Hr.
  change (nxt c nx :: ?Y) with ([nxt c nx] ++ Y) in Hr. rewrite app_assoc in Hr.
  apply ready_app in Hr as (bm & Hr & Hf); [|apply flatten_snoc]. rewrite eval_plug, binop_S.
  eapply good_bind; [eapply (Hp q); [done|lia| |exact Hr]; stop_tok|done| |].
  { intros _ e v He. rewrite He. apply eval_chain_err. }
  intros a st2 Ha2 Hn2 He2. rewrite bind_last, (after_last _ _ _ Ha2). destruct c as [|[o r] c].
  - cbn in Hf. subst b'. cbn [nxt]. rewrite (proj1 Hs) by lia. by apply good_ret.
  - destruct (nxt_binop _ _ _ nx _ _ _ eq_refl Hcw) as [-> Hlt]. cbn [negb nxt tnum].
    rewrite <- (after_buf _ _ _ Ha2) in Hf.
    pose proof (Hc a o r c ARITH_MAX_PREC ne st2 nx b' Hcw ltac:(done) ltac:(intros Hb; by rewrite (proj1 Hs) in Hb) Hf) as Hg.
    destruct (binop2 address fuel a o ARITH_MAX_PREC ne st2) as [x st'|e v|]; [| |done].
    + destruct Hg as [Ha' Hv]. split; [done|]. destruct ne; [rewrite Hv; by apply Hn2|]. by rewrite He2, <- Hv.
    + destruct Hg as [-> Hv]. split; [done|]. by rewrite He2, <- Hv.
Qed.

Lemma all_complete fuel :
  complete 0 (primary address fuel) /\ complete_chain (binop2 address fuel) /\ complete 8 (binop address fuel) /\
  complete 9 (and address fuel) /\ complete 10 (or address fuel) /\ complete 11 (cond address fuel) /\
  complete_asg (assignment address fuel).
Proof.
  induction fuel as [|fuel (Hp & Hc & Hb & Ha & Ho & Hq & Hs)].
  { split_and!; by repeat intro. }
  split_and!; auto using primary_complete, binop2_complete, binop_complete, and_complete, or_complete, cond_complete,
    assignment_complete.
Qed.

End Complete.
