(* ===== verification/ArithTotal.v ===== *)
(** The parser ends on every string. *)

From S2P Require Import Prelude Ctype Strto Arith ArithGrammar.

#[local] Arguments weight : simpl never.

Section Total.
Context {env : Type} `{Vars env} (address : list Z -> Z).
Notation room st := (length (a_buf st)).

(** The parser has not run out of fuel, and has left less than [n] behind. *)
Definition fits (n : nat) (res : ares (env := env) Z) : Prop :=
  match res with
  | AOk _ st => (weight (a_last st) + room st < n)%nat
  | AErr _ _ => True
  | AFuel => False
  end.

Lemma fits_bind n n' (m : M (env := env) Z) f st : fits n (m st) ->
  (forall x st', (weight (a_last st') + room st' < n)%nat -> fits n' (f x st')) -> fits n' ((m ≫= f) st).
Proof. unfold mbind, M_bind. destruct (m st); cbn; auto. Qed.

Lemma fits_lex n (K : Z -> M (env := env) Z) st :
  (forall t st', (weight t + room st' <= room st)%nat -> a_last st' = a_last st -> fits n (K t st')) ->
  fits n ((t ← yylex; K t) st).
Proof.
  intros HK. unfold yylex, mbind, M_bind. destruct (yylex_at _ _) as [[t b] y] eqn:E.
  apply yylex_at_spec in E as (k & _ & _ & Hw). apply HK; done.
Qed.

Lemma fits_yylval n (K : yystype -> M (env := env) Z) st : (forall y, fits n (K y st)) -> fits n ((y ← get_yylval; K y) st).
Proof. intros HK. apply HK. Qed.
Lemma fits_last n (K : Z -> M (env := env) Z) st : fits n (K (a_last st) st) -> fits n ((l ← get_last; K l) st).
Proof. done. Qed.

Lemma fits_lift n (r : aerror + Z) (f : Z -> M (env := env) Z) st : (forall x, fits n (f x st)) -> fits n ((lift (env := env) r ≫= f) st).
Proof. destruct r; [done|]. intros Hf. apply Hf. Qed.

(** Fuel for a call that is [k] calls away from the next token. *)
Definition fits_entry (k : nat) (fuel : nat) (F : Z -> yystype -> Z -> bool -> M Z) : Prop :=
  forall token val op ne st n, (weight token + weight op + room st <= n)%nat -> (8 * n + k <= fuel)%nat ->
    fits n (F token val op ne st).
Definition fits_asg (fuel : nat) (F : Z -> bool -> M Z) : Prop :=
  forall var ne st n, (weight var + room st <= n)%nat -> (8 * n + 6 <= fuel)%nat -> fits n (F var ne st).
Definition fits_chain (fuel : nat) (F : Z -> Z -> Z -> bool -> M Z) : Prop :=
  forall a op p ne st n, (room st <= n)%nat -> (8 * n + 2 <= fuel)%nat -> fits n (F a op p ne st).

Lemma is_binop_weight t : is_binop t = true -> weight t = 1%nat.
Proof.
  unfold is_binop, weight, ARITH_BINOP_MIN, ARITH_BAD. intros [Ht _]%andb_prop. zbool.
  by rewrite (proj2 (Z.eqb_neq t 0)), (proj2 (Z.eqb_neq t 4)) by lia.
Qed.

Lemma fits_ret n x st : (weight (a_last st) + room st < n)%nat -> fits n (AOk x st).
Proof. done. Qed.

(** A unary operator, of weight one, leaves the fuel of eight calls. *)
Lemma fits_unary fuel (f : Z -> M (env := env) Z) op ne st n : fits_entry 1 fuel (primary address fuel) ->
  (S (weight op + room st) <= n)%nat -> (8 * n + 1 <= S fuel)%nat ->
  (forall a st', (weight (a_last st') + room st' < n - 1)%nat -> fits n (f a st')) ->
  fits n ((val ← get_yylval; op' ← yylex; primary address fuel op val op' ne ≫= f) st).
Proof.
  intros Hp Hw Hn Hf. apply fits_yylval. intros y. apply fits_lex. intros t st' H1 _.
  eapply fits_bind; [eapply (Hp op y t ne st' (n - 1)%nat); lia|exact Hf].
Qed.

Lemma fits_primary fuel : fits_entry 1 fuel (primary address fuel) -> fits_asg fuel (assignment address fuel) ->
  fits_entry 1 (S fuel) (primary address (S fuel)).
Proof.
  intros Hp Hs token val op ne st n Hw Hn. cbn [primary].
  destruct (Z.eqb_spec token ARITH_LPAREN) as [->|_].
  { change (weight ARITH_LPAREN) with 1%nat in Hw. eapply fits_bind; [eapply (Hs op ne st (n - 1)%nat); lia|].
    intros x st' Hst. apply fits_last. case_match; [done|]. apply fits_lex. intros t st2 H2 E2. enough (weight t + room st2 < n)%nat by done. lia. }
  destruct (Z.eqb_spec token ARITH_NUM) as [->|_].
  { change (weight ARITH_NUM) with 1%nat in Hw. enough (weight op + room st < n)%nat by done. lia. }
  destruct (Z.eqb_spec token ARITH_VAR) as [->|_].
  { change (weight ARITH_VAR) with 1%nat in Hw. unfold mbind, M_bind, set_last. destruct ne; [cbn; lia|].
    unfold arith_lookupvarint. destruct (var_value _ _); cbn; [done|lia]. }
  destruct (Z.eqb_spec token ARITH_ADD) as [->|_].
  { change (weight ARITH_ADD) with 1%nat in Hw. apply fits_yylval. intros y. apply fits_lex. intros t st' H1 _.
    assert (fits (n - 1) (primary address fuel op y t ne st')) as Hf by (eapply Hp; lia).
    destruct (primary address fuel op y t ne st'); cbn in *; [lia|done|done]. }
  destruct (Z.eqb_spec token ARITH_SUB) as [->|_].
  { change (weight ARITH_SUB) with 1%nat in Hw. eapply fits_unary; [done|lia|lia|]. intros a st' Ha. cbn. lia. }
  destruct (Z.eqb_spec token ARITH_NOT) as [->|_].
  { change (weight ARITH_NOT) with 1%nat in Hw. eapply fits_unary; [done|lia|lia|]. intros a st' Ha. cbn. lia. }
  destruct (Z.eqb_spec token ARITH_BNOT) as [->|_]; [|done].
  change (weight ARITH_BNOT) with 1%nat in Hw. eapply fits_unary; [done|lia|lia|]. intros a st' Ha. cbn. lia.
Qed.

Lemma fits_binop2 fuel : fits_entry 1 fuel (primary address fuel) -> fits_chain fuel (binop2 address fuel) ->
  fits_chain (S fuel) (binop2 address (S fuel)).
Proof.
  intros Hp Hc a op p ne st n Hw Hn. cbn [binop2]. apply fits_lex. intros token st1 H1 _. apply fits_yylval. intros y.
  apply fits_lex. intros t st2 H2 _. eapply fits_bind; [eapply (Hp _ _ _ _ _ n); lia|].
  intros b st3 H3. apply fits_last.
  apply (fits_bind n).
  { destruct (is_binop (a_last st3)) eqn:Eb; [|done]. destruct (higher_prec _ _); [|done]. cbn [andb].
    apply is_binop_weight in Eb. assert (fits (n - 2) (binop2 address fuel b (a_last st3) (arith_prec op) ne st3)) as Hf by (eapply Hc; lia).
    destruct (binop2 address fuel b (a_last st3) (arith_prec op) ne st3); cbn in *; [lia|done|done]. }
  intros b' st4 H4. apply fits_last.
  assert (forall z, fits n ((if negb (is_binop (a_last st4)) || (p <=? arith_prec (a_last st4)) then mret z
    else binop2 address fuel z (a_last st4) p ne) st4)) as Hfin.
  { intros z. destruct (is_binop (a_last st4)) eqn:Eb; [|done]. cbn [negb orb]. destruct (p <=? _); [done|].
    apply is_binop_weight in Eb. assert (fits (n - 2) (binop2 address fuel z (a_last st4) p ne st4)) as Hf by (eapply Hc; lia).
    destruct (binop2 address fuel z (a_last st4) p ne st4); cbn in *; [lia|done|done]. }
  destruct ne; [apply Hfin|]. apply fits_lift. exact Hfin.
Qed.

Lemma fits_binop fuel : fits_entry 1 fuel (primary address fuel) -> fits_chain fuel (binop2 address fuel) ->
  fits_entry 2 (S fuel) (binop address (S fuel)).
Proof.
  intros Hp Hc token val op ne st n Hw Hn.
  change (binop address (S fuel) token val op ne) with (a ← primary address fuel token val op ne; op ← get_last;
    if negb (is_binop op) then mret a else binop2 address fuel a op ARITH_MAX_PREC ne).
  eapply fits_bind; [eapply Hp; [exact Hw|lia]|]. intros a st' Hst. apply fits_last.
  destruct (is_binop (a_last st')) eqn:Eb; [|done]. cbn [negb]. apply is_binop_weight in Eb.
  assert (fits (n - 2) (binop2 address fuel a (a_last st') ARITH_MAX_PREC ne st')) as Hf by (eapply Hc; lia).
  destruct (binop2 address fuel a (a_last st') ARITH_MAX_PREC ne st'); cbn in *; [lia|done|done].
Qed.

(** An operator, a further operand, and a last step. *)
Lemma fits_operand k fuel (F : Z -> yystype -> Z -> bool -> M (env := env) Z) (f : Z -> M (env := env) Z) ne st n : fits_entry k fuel F -> (S (room st) < n)%nat -> (k <= 8)%nat -> (8 * n <= S fuel)%nat ->
  (forall x st', (weight (a_last st') + room st' < n)%nat -> fits n (f x st')) ->
  fits n ((token ← yylex; val ← get_yylval; op ← yylex; F token val op ne ≫= f) st).
Proof.
  intros HF Hr Hk Hn Hf. apply fits_lex. intros token st1 H1 _. apply fits_yylval. intros y.
  apply fits_lex. intros t st2 H2 _. eapply (fits_bind (n - 2)); [eapply HF; [|]; lia|].
  intros x st' Hx. apply Hf. lia.
Qed.

Lemma eqb_weight t c : (t =? c) = true -> weight c = 1%nat -> weight t = 1%nat.
Proof. by intros ->%Z.eqb_eq. Qed.

Lemma fits_and fuel : fits_entry 2 fuel (binop address fuel) -> fits_entry 3 fuel (and address fuel) ->
  fits_entry 3 (S fuel) (and address (S fuel)).
Proof.
  intros Hb Ha token val op ne st n Hw Hn. cbn [and]. eapply fits_bind; [eapply Hb; [exact Hw|lia]|].
  intros a st' Hst. apply fits_last. destruct (_ =? _) eqn:E; [|done]. cbn [negb]. apply eqb_weight in E; [|done].
  eapply (fits_operand 3); [done|lia|lia|lia|done].
Qed.

Lemma fits_or fuel : fits_entry 3 fuel (and address fuel) -> fits_entry 4 fuel (or address fuel) ->
  fits_entry 4 (S fuel) (or address (S fuel)).
Proof.
  intros Hb Ha token val op ne st n Hw Hn. cbn [or]. eapply fits_bind; [eapply Hb; [exact Hw|lia]|].
  intros a st' Hst. apply fits_last. destruct (_ =? _) eqn:E; [|done]. cbn [negb]. apply eqb_weight in E; [|done].
  eapply (fits_operand 4); [done|lia|lia|lia|done].
Qed.

Lemma fits_cond fuel : fits_entry 4 fuel (or address fuel) -> fits_entry 5 fuel (cond address fuel) ->
  fits_asg fuel (assignment address fuel) -> fits_entry 5 (S fuel) (cond address (S fuel)).
Proof.
  intros Hb Hc Ha token val op ne st n Hw Hn. cbn [cond]. eapply fits_bind; [eapply Hb; [exact Hw|lia]|].
  intros a st' Hst. apply fits_last. destruct (_ =? _) eqn:E; [|done]. cbn [negb]. apply eqb_weight in E; [|done].
  apply fits_lex. intros t st2 H2 _. eapply (fits_bind (n - 2)); [eapply Ha; lia|].
  intros b st3 H3. apply fits_last. destruct (a_last st3 =? _) eqn:E3; [|done]. cbn [negb]. apply eqb_weight in E3; [|done].
  eapply (fits_operand 5); [done|lia|lia|lia|done].
Qed.

Lemma fits_assign n name z st : (weight (a_last st) + room st < n)%nat ->
  fits n ((_ ← assign name z; mret z) st).
Proof. intros Hn. unfold mbind, M_bind, assign. destruct (setvar _ _ _); cbn; done. Qed.

Lemma fits_assignment fuel : fits_entry 5 fuel (cond address fuel) -> fits_asg fuel (assignment address fuel) ->
  fits_asg (S fuel) (assignment address (S fuel)).
Proof.
  intros Hc Ha var ne st n Hw Hn. cbn [assignment]. apply fits_yylval. intros y. apply fits_lex. intros op st1 H1 _.
  assert (fits n (cond address fuel var y op ne st1)) as Hcond by (eapply Hc; [|lia]; lia).
  destruct (var =? ARITH_VAR) eqn:Ev; [|exact Hcond]. apply eqb_weight in Ev; [|done]. cbn [negb].
  destruct (is_assop op) eqn:Eo; [|exact Hcond]. cbn [negb].
  apply fits_lex. intros t st2 H2 _. eapply (fits_bind (n - 1)); [eapply Ha; [|]; lia|]. intros x st3 H3.
  destruct ne; [cbn; lia|]. destruct (op =? ARITH_ASS); cbn [negb]; [apply fits_assign; lia|].
  assert (forall (r : aerror + Z) (f : Z -> aerror + Z), fits n ((lift r ≫= fun x0 => lift (f x0) ≫= fun z => _ ← assign (name_of y) z; mret z) st3)) as Hl.
  { intros r f. apply fits_lift. intros x0. apply fits_lift. intros z. apply fits_assign. lia. }
  specialize (Hl (var_value (a_env st3) (name_of y)) (fun x0 => do_binop (op - 11) x0 x)).
  unfold arith_lookupvarint. unfold mbind, M_bind in *. by destruct (var_value _ _).
Qed.

Lemma all_fit fuel :
  fits_entry 1 fuel (primary address fuel) /\ fits_chain fuel (binop2 address fuel) /\
  fits_entry 2 fuel (binop address fuel) /\ fits_entry 3 fuel (and address fuel) /\ fits_entry 4 fuel (or address fuel) /\
  fits_entry 5 fuel (cond address fuel) /\ fits_asg fuel (assignment address fuel).
Proof.
  induction fuel as [|fuel (Hp & Hc & Hb & Ha & Ho & Hq & Hs)].
  { split_and!; repeat intro; lia. }
  split_and!; [by apply fits_primary|by apply fits_binop2|by apply fits_binop|by apply fits_and|by apply fits_or
    |by apply fits_cond|by apply fits_assignment].
Qed.

End Total.
