(* ===== verification/ArithSound.v ===== *)
(** What the parser accepts is a tree, and its result is what the tree means. *)

From S2P Require Import Prelude Ctype Strto Arith ArithGrammar ArithComplete.

(** * Putting trees together *)

Lemma wf_plug c : forall q lo p, wf q -> level q <= p -> level q <= 1 + lo -> wf_chain lo p c ->
  wf (plug q c) /\ level (plug q c) <= p.
Proof.
  induction c as [|[op r] c IH]; intros q lo p Hq Hlp Hl Hc; [done|].
  destruct Hc as (Hop & Hr & Hlr & Hlo & Hc). change (plug q ((op, r) :: c)) with (plug (Bin op q r) c).
  apply (IH _ (arith_prec op)); [|cbn; lia|cbn; lia|done]. cbn. split_and!; try done. lia.
Qed.

Lemma isk_sym_inv t y k : isk t y k -> t <> ARITH_NUM -> t <> ARITH_VAR -> k = TSym t.
Proof. by destruct 1. Qed.

Section Sound.
Context {env : Type} `{Vars env} (address : list Z -> Z).
Notation state := (astate (env := env)).

Lemma bind_ok {A B} (m : M A) (f : A -> M B) (st : state) x st' : (m ≫= f) st = AOk x st' ->
  exists y st1, m st = AOk y st1 /\ f y st1 = AOk x st'.
Proof. unfold mbind, M_bind. destruct (m st); naive_solver. Qed.

Lemma yylex_ok (st : state) t st1 : yylex st = AOk t st1 ->
  exists k, lex1 (a_buf st) = (k, a_buf st1) /\ isk t (a_yylval st1) k /\ a_env st1 = a_env st /\ a_last st1 = a_last st.
Proof.
  unfold yylex. destruct (yylex_at _ _) as [[t' b] y] eqn:E. intros [= <- <-].
  apply yylex_at_spec in E as (k & E & Hk & _). by exists k.
Qed.

Lemma ready_join token val op (st : state) a k Y nx bm b' : ready token val op st (flatten a ++ [k]) bm ->
  feeds (Y ++ [nx]) bm b' -> ready token val op st ((flatten a ++ k :: Y) ++ [nx]) b'.
Proof.
  intros (k1 & k2 & ts & E & H1 & H2 & Hf) HY.
  replace ((flatten a ++ k :: Y) ++ [nx]) with ((flatten a ++ [k]) ++ Y ++ [nx]) by (by rewrite <- !app_assoc).
  rewrite E. exists k1, k2, (ts ++ Y ++ [nx]). split_and!; try done. apply feeds_app. eauto.
Qed.

Lemma feeds_join (st : state) a k Y nx bm b' : feeds (flatten a ++ [k]) (a_buf st) bm ->
  feeds (Y ++ [nx]) bm b' -> feeds ((flatten a ++ k :: Y) ++ [nx]) (a_buf st) b'.
Proof.
  intros Hf HY.
  replace ((flatten a ++ k :: Y) ++ [nx]) with ((flatten a ++ [k]) ++ Y ++ [nx]) by (by rewrite <- !app_assoc).
  apply feeds_app. eauto.
Qed.

Lemma hold_feeds (st st1 : state) t T b' : yylex st = AOk t st1 -> hold t st1 T b' -> feeds T (a_buf st) b'.
Proof.
  intros (k & E & Hk & _)%yylex_ok (k' & ts & -> & Hk' & Hf). exists (a_buf st1). split; [|done].
  rewrite E. f_equal. destruct Hk; inversion Hk'; subst; done.
Qed.

Lemma ready_to_hold var (st st1 : state) op T b' : yylex st = AOk op st1 -> ready var (a_yylval st) op st1 T b' ->
  hold var st T b'.
Proof.
  intros Hy (k1 & k2 & ts & -> & H1 & H2 & Hf). exists k1, (k2 :: ts). split_and!; [done|done|].
  eapply hold_feeds; [done|]. by exists k2, ts.
Qed.

(** * Results *)

Definition means (ne : bool) (r : eres env) (v0 : env) (x : Z) (st' : state) : Prop :=
  if ne then a_env st' = v0 else r = EOk x (a_env st').

Definition read (token : Z) (y : yystype) : Prop := exists k, isk token y k.

Definition sound (l : Z) (F : Z -> yystype -> Z -> bool -> M Z) : Prop :=
  forall token val op ne st x st', read token val -> read op (a_yylval st) -> F token val op ne st = AOk x st' ->
    exists e nx, wf e /\ level e <= l /\ ready token val op st (flatten e ++ [nx]) (a_buf st') /\
      isk (a_last st') (a_yylval st') nx /\ means ne (eval e (a_env st)) (a_env st) x st'.
Definition sound_asg (F : Z -> bool -> M Z) : Prop :=
  forall var ne st x st', read var (a_yylval st) -> F var ne st = AOk x st' ->
    exists e nx, wf e /\ hold var st (flatten e ++ [nx]) (a_buf st') /\
      isk (a_last st') (a_yylval st') nx /\ means ne (eval e (a_env st)) (a_env st) x st'.
Definition sound_chain (F : Z -> Z -> Z -> bool -> M Z) : Prop :=
  forall a op p ne st x st', is_binop op = true -> arith_prec op < p -> p <= 8 -> F a op p ne st = AOk x st' ->
    exists r c nx, wf_chain 0 p ((op, r) :: c) /\ feeds (flatten r ++ chain_toks c ++ [nx]) (a_buf st) (a_buf st') /\
      isk (a_last st') (a_yylval st') nx /\ stop_chain p nx /\
      means ne (eval_chain (EOk a (a_env st)) ((op, r) :: c)) (a_env st) x st'.

Lemma sound_mono l l' F : sound l F -> l <= l' -> sound l' F.
Proof.
  intros HF Hl token val op ne st x st' H1 H2 E. destruct (HF _ _ _ _ _ _ _ H1 H2 E) as (e & nx & ? & ? & ?).
  exists e, nx. split_and!; try tauto. lia.
Qed.

(** A further operand behind an operator. *)
Lemma operand_ok l F (f : Z -> M Z) ne (st : state) x st' : sound l F ->
  (token ← yylex; val ← get_yylval; op ← yylex; F token val op ne ≫= f) st = AOk x st' ->
  exists e nx y st1, wf e /\ level e <= l /\ feeds (flatten e ++ [nx]) (a_buf st) (a_buf st1) /\
    isk (a_last st1) (a_yylval st1) nx /\ means ne (eval e (a_env st)) (a_env st) y st1 /\ f y st1 = AOk x st'.
Proof.
  intros HF (token & st1 & E1 & E)%bind_ok. apply bind_ok in E as (y & st1' & [= <- <-] & E).
  apply bind_ok in E as (op & st2 & E2 & E). apply bind_ok in E as (z & st3 & E3 & E).
  pose proof (yylex_ok _ _ _ E1) as (k1 & _ & Hk1 & He1 & _). pose proof (yylex_ok _ _ _ E2) as (k2 & _ & Hk2 & He2 & _).
  destruct (HF _ _ _ _ _ _ _ ltac:(by exists k1) ltac:(by exists k2) E3) as (e & nx & Hwf & Hl & Hr & Hnx & Hm).
  exists e, nx, z, st3. split_and!; try done.
  - eapply hold_feeds; [done|]. by eapply ready_to_hold.
  - by rewrite <- He1, <- He2.
Qed.

(** Two operands of a boolean operator. *)
Lemma and_sound fuel : sound 8 (binop address fuel) -> sound 9 (and address fuel) -> sound 9 (and address (S fuel)).
Proof.
  intros Hb Ha token val op ne st x st' H1 H2 E. cbn [and] in E. apply bind_ok in E as (a & st1 & E1 & E).
  destruct (Hb _ _ _ _ _ _ _ H1 H2 E1) as (e & nx & Hwf & Hl & Hr & Hnx & Hm). rewrite bind_last in E.
  destruct (Z.eqb_spec (a_last st1) ARITH_AND) as [El|_]; cbn [negb] in E.
  2:{ injection E as -> ->. exists e, nx. split_and!; try done. lia. }
  apply (operand_ok 9) in E as (e2 & nx2 & b & st2 & Hw2 & Hl2 & Hf & Hnx2 & Hm2 & E); [|done]. injection E as <- <-.
  apply isk_sym_inv in Hnx as ->; [|by rewrite El..]. rewrite El in Hr.
  exists (And e e2), nx2. split_and!; [done|done|by eapply ready_join|done|].
  unfold means in *. destruct ne; [cbn in Hm2; congruence|]. cbn [eval]. rewrite Hm. cbn [ebind orb] in *.
  destruct (a =? 0); cbn [negb andb]; [by rewrite Hm2|by rewrite Hm2].
Qed.

Lemma or_sound fuel : sound 9 (and address fuel) -> sound 10 (or address fuel) -> sound 10 (or address (S fuel)).
Proof.
  intros Hb Ha token val op ne st x st' H1 H2 E. cbn [or] in E. apply bind_ok in E as (a & st1 & E1 & E).
  destruct (Hb _ _ _ _ _ _ _ H1 H2 E1) as (e & nx & Hwf & Hl & Hr & Hnx & Hm). rewrite bind_last in E.
  destruct (Z.eqb_spec (a_last st1) ARITH_OR) as [El|_]; cbn [negb] in E.
  2:{ injection E as -> ->. exists e, nx. split_and!; try done. lia. }
  apply (operand_ok 10) in E as (e2 & nx2 & b & st2 & Hw2 & Hl2 & Hf & Hnx2 & Hm2 & E); [|done]. injection E as <- <-.
  apply isk_sym_inv in Hnx as ->; [|by rewrite El..]. rewrite El in Hr.
  exists (Or e e2), nx2. split_and!; [done|done|by eapply ready_join|done|].
  unfold means in *. destruct ne; [cbn in Hm2; congruence|]. cbn [eval]. rewrite Hm. cbn [ebind orb] in *.
  destruct (a =? 0); cbn [negb orb]; [by rewrite Hm2|by rewrite Hm2].
Qed.

Lemma cond_sound fuel : sound 10 (or address fuel) -> sound 11 (cond address fuel) ->
  sound_asg (assignment address fuel) -> sound 11 (cond address (S fuel)).
Proof.
  intros Hb Hc Ha token val op ne st x st' H1 H2 E. cbn [cond] in E. apply bind_ok in E as (a & st1 & E1 & E).
  destruct (Hb _ _ _ _ _ _ _ H1 H2 E1) as (e & nx & Hwf & Hl & Hr & Hnx & Hm). rewrite bind_last in E.
  destruct (Z.eqb_spec (a_last st1) ARITH_QMARK) as [El|_]; cbn [negb] in E.
  2:{ injection E as -> ->. exists e, nx. split_and!; try done. lia. }
  apply bind_ok in E as (t & st2 & E2 & E). apply bind_ok in E as (b & st3 & E3 & E).
  pose proof (yylex_ok _ _ _ E2) as (k2 & _ & Hk2 & He2 & _).
  destruct (Ha _ _ _ _ _ ltac:(by exists k2) E3) as (e2 & nx2 & Hw2 & Hh2 & Hnx2 & Hm2). rewrite bind_last in E.
  destruct (Z.eqb_spec (a_last st3) ARITH_COLON) as [El3|_]; cbn [negb] in E; [|done].
  apply (operand_ok 11) in E as (e3 & nx3 & c & st4 & Hw3 & Hl3 & Hf & Hnx3 & Hm3 & E); [|done]. injection E as <- <-.
  apply isk_sym_inv in Hnx as ->; [|by rewrite El..]. apply isk_sym_inv in Hnx2 as ->; [|by rewrite El3..].
  rewrite El in Hr. rewrite El3 in Hh2. apply (hold_feeds _ _ _ _ _ E2) in Hh2.
  exists (Cond e e2 e3), nx3. split_and!; [done|done|..|done|].
  - eapply ready_join; [done|]. by eapply feeds_join.
  - rewrite He2 in Hm2. unfold means in *. destruct ne; [cbn in Hm2, Hm3; congruence|]. cbn [eval]. rewrite Hm.
    cbn [ebind orb] in *. destruct (a =? 0); cbn [negb] in *; [by rewrite <- Hm2|by rewrite Hm2, Hm3].
Qed.

Lemma store_ok name op y (st : state) x st' :
  (result ← (if negb (op =? ARITH_ASS)
             then x0 ← arith_lookupvarint name; lift (do_binop (op - 11) x0 y) else mret y);
   _ ← assign name result; mret result) st = AOk x st' ->
  a_buf st' = a_buf st /\ a_last st' = a_last st /\ a_yylval st' = a_yylval st /\
  forall e v0, eval e v0 = EOk y (a_env st) -> eval (Asg name op e) v0 = EOk x (a_env st').
Proof.
  intros E. assert (exists z, (assigned name op y (a_env st) = EOk z (a_env st)) /\
    (_ ← assign name z; mret z) st = AOk x st') as (z & Hz & E').
  { apply bind_ok in E as (z & st1 & E1 & E). exists z. unfold assigned. destruct (op =? ARITH_ASS); cbn [negb] in E1.
    { by injection E1 as <- <-. }
    unfold arith_lookupvarint, mbind, M_bind in E1. destruct (var_value _ _) as [|x0]; [done|].
    cbn [lift ebind elift] in *. unfold mret, M_ret in E1. destruct (do_binop _ _ _); [done|]. by injection E1 as <- <-. }
  unfold assign, mbind, M_bind in E'. destruct (setvar _ _ _) as [v'|] eqn:Es; [|done]. injection E' as <- <-.
  split_and!; try done. intros e v0 He. cbn [eval]. rewrite He. cbn [ebind]. rewrite Hz. cbn [ebind]. by rewrite Es.
Qed.

Lemma assignment_sound fuel : sound 11 (cond address fuel) -> sound_asg (assignment address fuel) ->
  sound_asg (assignment address (S fuel)).
Proof.
  intros Hc Ha var ne st x st' Hv E. cbn [assignment] in E.
  apply bind_ok in E as (y & st0 & [= <- <-] & E). apply bind_ok in E as (op & st1 & E1 & E).
  pose proof (yylex_ok _ _ _ E1) as (k1 & _ & Hk1 & He1 & _).
  assert (cond address fuel var (a_yylval st) op ne st1 = AOk x st' -> exists e nx, wf e /\
    hold var st (flatten e ++ [nx]) (a_buf st') /\ isk (a_last st') (a_yylval st') nx /\
    means ne (eval e (a_env st)) (a_env st) x st') as Hcond.
  { intros Ec. destruct (Hc _ _ _ _ _ _ _ Hv ltac:(by exists k1) Ec) as (e & nx & Hwf & _ & Hr & Hnx & Hm).
    exists e, nx. split_and!; [done|by eapply ready_to_hold|done|by rewrite <- He1]. }
  destruct (Z.eqb_spec var ARITH_VAR) as [Ev|_]; cbn [negb] in E; [|by apply Hcond].
  destruct (is_assop op) eqn:Eo; cbn [negb] in E; [|by apply Hcond].
  apply bind_ok in E as (t & st2 & E2 & E). apply bind_ok in E as (z & st3 & E3 & E).
  pose proof (yylex_ok _ _ _ E2) as (k2 & _ & Hk2 & He2 & _).
  destruct (Ha _ _ _ _ _ ltac:(by exists k2) E3) as (e & nx & Hw & Hh & Hnx & Hm).
  apply (hold_feeds _ _ _ _ _ E2) in Hh. destruct Hv as [kv Hkv].
  assert (exists n, kv = TVar n /\ a_yylval st = YName n) as (n & -> & En)
    by (destruct Hkv; [done|eauto|done]). rewrite En in *. cbn [name_of] in E.
  assert (k1 = TSym op) as ->.
  { apply isk_sym_inv in Hk1; [done|..]; intros ->; done. }
  assert (a_buf st' = a_buf st3 /\ a_last st' = a_last st3 /\ a_yylval st' = a_yylval st3 /\
    means ne (eval (Asg n op e) (a_env st)) (a_env st) x st') as (Eb & El & Ey & Hm').
  { rewrite He2, He1 in Hm. unfold means in *. destruct ne; [by injection E as <- <-|].
    destruct (store_ok _ _ _ _ _ _ E) as (? & ? & ? & Hs). split_and!; try done. by apply Hs. }
  exists (Asg n op e), nx. split_and!; [done| |by rewrite El, Ey|done].
  apply (ready_to_hold _ _ _ _ _ _ E1). exists (TVar n), (TSym op), (flatten e ++ [nx]).
  split_and!; [done|by rewrite En|done|by rewrite Eb].
Qed.

(** A unary operator. *)
Lemma unary_sound fuel (g : Z -> Z) uop op ne (st : state) x st' val : sound 0 (primary address fuel) ->
  is_unop uop = true -> isk uop val (TSym uop) -> read op (a_yylval st) ->
  (val ← get_yylval; op' ← yylex; a ← primary address fuel op val op' ne; mret (g a)) st = AOk x st' ->
  (forall a, g a = unop_value uop a) ->
  exists e nx, wf e /\ level e <= 0 /\ ready uop val op st (flatten e ++ [nx]) (a_buf st') /\
    isk (a_last st') (a_yylval st') nx /\ means ne (eval e (a_env st)) (a_env st) x st'.
Proof.
  intros Hp Hu Hk Hop E Hg. apply bind_ok in E as (y & st0 & [= <- <-] & E). apply bind_ok in E as (op' & st1 & E1 & E).
  apply bind_ok in E as (a & st2 & E2 & [= <- <-]).
  pose proof (yylex_ok _ _ _ E1) as (k1 & _ & Hk1 & He1 & _).
  destruct (Hp _ _ _ _ _ _ _ Hop ltac:(by exists k1) E2) as (e & nx & Hwf & Hl & Hr & Hnx & Hm).
  apply (ready_to_hold _ _ _ _ _ _ E1) in Hr as (k & ts & Ek & Hk' & Hf).
  exists (Un uop e), nx. split_and!; [|done| |done|].
  - split_and!; [done|done|]. pose proof (level_nonneg e). lia.
  - exists (TSym uop), k, ts. split_and!; try done. cbn. by rewrite Ek.
  - rewrite He1 in Hm. unfold means in *. destruct ne; [done|]. cbn [eval]. rewrite Hm. cbn [ebind]. by rewrite <- Hg.
Qed.

Lemma primary_sound fuel : sound 0 (primary address fuel) -> sound_asg (assignment address fuel) ->
  sound 0 (primary address (S fuel)).
Proof.
  intros Hp Ha token val op ne st x st' H1 H2 E. cbn [primary] in E.
  destruct (Z.eqb_spec token ARITH_LPAREN) as [->|_].
  { apply bind_ok in E as (y & st1 & E1 & E). rewrite bind_last in E.
    destruct (Z.eqb_spec (a_last st1) ARITH_RPAREN) as [El|_]; [|done]. cbn [negb] in E.
    apply bind_ok in E as (t & st2 & E2 & E). injection E as <- <-.
    pose proof (yylex_ok _ _ _ E2) as (k2 & Ek2 & Hk2 & He2 & _).
    destruct (Ha _ _ _ _ _ H2 E1) as (e & nx & Hw & (k & ts & Ek & Hk & Hf) & Hnx & Hm).
    apply isk_sym_inv in Hnx as ->; [|by rewrite El..]. rewrite El in Ek.
    exists (Paren e), k2. split_and!; [done|done| |done|].
    - exists (TSym ARITH_LPAREN), k, (ts ++ [k2]). split_and!.
      + cbn. rewrite Ek. done.
      + by constructor.
      + done.
      + apply feeds_app. exists (a_buf st1). split; [done|]. cbn. eauto.
    - unfold means in *. cbn [a_env]. rewrite He2. done. }
  destruct (Z.eqb_spec token ARITH_NUM) as [->|_].
  { injection E as <- <-. destruct H1 as [k1 H1], H2 as [k2 H2]. destruct k1 as [z| |]; inversion H1; subst; [|done].
    exists (Num z), k2. split_and!; [done|done| |done|by destruct ne]. by exists (TNum z), k2, []. }
  destruct (Z.eqb_spec token ARITH_VAR) as [->|_].
  { destruct H1 as [k1 H1], H2 as [k2 H2]. destruct k1 as [|n|]; inversion H1; subst; [|done].
    assert (exists e, st' = AState (a_buf st) (a_yylval st) op e /\ means ne (eval (Var n) (a_env st)) (a_env st) x st')
      as (e & -> & Hm).
    { unfold mbind, M_bind, set_last in E. destruct ne; [by injection E as <- <-; eexists|].
      unfold arith_lookupvarint in E. cbn in E. unfold means. cbn [eval]. destruct (var_value _ _); [done|].
      injection E as -> <-. by eexists. }
    exists (Var n), k2. split_and!; [done|done| |done|done]. by exists (TVar n), k2, []. }
  assert (forall u, token = u -> is_unop u = true -> isk token val (TSym u)) as Hk.
  { intros u -> Hu. destruct H1 as [k1 H1]. apply isk_sym_inv in H1 as Ek; [by rewrite <- Ek|..]; intros ->; done. }
  destruct (Z.eqb_spec token ARITH_ADD) as [->|_].
  { eapply (unary_sound fuel (fun a => a)); try done; [by apply Hk|].
    apply bind_ok in E as (y & st0 & [= <- <-] & E). apply bind_ok in E as (op' & st1 & E1 & E).
    unfold mbind at 1, M_bind at 1, get_yylval. unfold mbind at 1, M_bind at 1. rewrite E1.
    unfold mbind at 1, M_bind at 1. by rewrite E. }
  destruct (Z.eqb_spec token ARITH_SUB) as [->|_]; [by eapply (unary_sound fuel neg_arith); try done; apply Hk|].
  destruct (Z.eqb_spec token ARITH_NOT) as [->|_]; [by eapply (unary_sound fuel (fun a => b2z (a =? 0))); try done; apply Hk|].
  destruct (Z.eqb_spec token ARITH_BNOT) as [->|_]; [by eapply (unary_sound fuel Z.lnot); try done; apply Hk|].
  done.
Qed.

(** * Binary operators *)

(** The right operand, with the operators that bind tighter. *)
Lemma right_operand fuel op ne (st : state) b st1 y st2 q nx : sound_chain (binop2 address fuel) ->
  wf q -> level q <= 0 -> feeds (flatten q ++ [nx]) (a_buf st) (a_buf st1) -> isk (a_last st1) (a_yylval st1) nx ->
  means ne (eval q (a_env st)) (a_env st) b st1 ->
  (if is_binop (a_last st1) && higher_prec (a_last st1) op then binop2 address fuel b (a_last st1) (arith_prec op) ne else mret b)
    st1 = AOk y st2 ->
  exists r nx2, wf r /\ level r <= arith_prec op /\ feeds (flatten r ++ [nx2]) (a_buf st) (a_buf st2) /\
    isk (a_last st2) (a_yylval st2) nx2 /\ stop_chain (arith_prec op) nx2 /\ means ne (eval r (a_env st)) (a_env st) y st2.
Proof.
  intros Hc Hq Hl Hf Hnx Hm E. pose proof (arith_prec_range op). pose proof (isk_tnum _ _ _ Hnx) as Et.
  destruct (is_binop (a_last st1)) eqn:Eb; [destruct (higher_prec (a_last st1) op) eqn:Eh|]; cbn [andb] in E.
  - unfold higher_prec in Eh. zbool.
    destruct (Hc _ _ _ _ _ _ _ Eb Eh ltac:(lia) E) as (r & c & nx2 & Hwf & Hf2 & Hnx2 & Hs & Hm2).
    apply is_binop_range in Eb as Hr8. apply isk_sym_inv in Hnx as ->; [|unfold ARITH_NUM, ARITH_VAR; lia..].
    destruct (wf_plug ((a_last st1, r) :: c) q 0 (arith_prec op) Hq ltac:(lia) ltac:(lia) Hwf) as [Hw Hl'].
    exists (plug q ((a_last st1, r) :: c)), nx2. split_and!; try done.
    + rewrite flatten_plug.
      change (chain_toks ((a_last st1, r) :: c)) with (TSym (a_last st1) :: flatten r ++ chain_toks c).
      rewrite <- app_assoc. cbn [app]. rewrite <- app_assoc.
      replace (flatten q ++ TSym (a_last st1) :: flatten r ++ chain_toks c ++ [nx2])
        with ((flatten q ++ [TSym (a_last st1)]) ++ flatten r ++ chain_toks c ++ [nx2]) by (by rewrite <- app_assoc).
      apply feeds_app. eauto.
    + rewrite eval_plug. unfold means in *. destruct ne; [congruence|]. rewrite Hm. done.
  - injection E as <- <-. exists q, nx. split_and!; try done; [lia|]. unfold higher_prec in Eh. zbool.
    intros _. rewrite <- Et. lia.
  - injection E as <- <-. exists q, nx. split_and!; try done; [lia|]. intros Hb. by rewrite <- Et, Eb in Hb.
Qed.

Lemma binop2_sound fuel : sound 0 (primary address fuel) -> sound_chain (binop2 address fuel) ->
  sound_chain (binop2 address (S fuel)).
Proof.
  intros Hp Hc a op p ne st x st' Hop Hlt Hp8 E. cbn [binop2] in E.
  apply (operand_ok 0) in E as (q & nx & b & st1 & Hq & Hl & Hf & Hnx & Hm & E); [|done]. rewrite bind_last in E.
  apply bind_ok in E as (y & st2 & E2 & E).
  eapply right_operand in E2 as (r & nx2 & Hr & Hlr & Hfr & Hnx2 & Hs2 & Hm2); [|done..].
  rewrite bind_last in E. apply bind_ok in E as (z & st3 & E3 & E).
  assert (st3 = st2 /\ (ne = false -> do_binop op a y = inr z)) as [-> Hz].
  { destruct ne; [by injection E3 as _ <-|]. destruct (do_binop op a y); [done|]. by injection E3 as <- <-. }
  pose proof (isk_tnum _ _ _ Hnx2) as Et. pose proof (arith_prec_range op).
  destruct (is_binop (a_last st2)) eqn:Eb; [destruct (p <=? arith_prec (a_last st2)) eqn:Epr|]; cbn [negb orb] in E; zbool.
  1,3: injection E as <- <-; exists r, [], nx2; split_and!;
    [cbn; split_and!; try done; lia|done|done| |
     unfold means in *; destruct ne; [done|]; cbn [eval_chain ebind]; rewrite Hm2; cbn [ebind]; by rewrite Hz].
  - intros _. by rewrite <- Et.
  - intros Hb. by rewrite <- Et, Eb in Hb.
  - destruct (Hc _ _ _ _ _ _ _ Eb Epr Hp8 E) as (r' & c & nx3 & Hwf & Hf3 & Hnx3 & Hs3 & Hm3).
    apply is_binop_range in Eb as Hr8. apply isk_sym_inv in Hnx2 as ->; [|unfold ARITH_NUM, ARITH_VAR; lia..].
    specialize (Hs2 Eb). cbn in Hs2.
    exists r, ((a_last st2, r') :: c), nx3. split_and!; [..|done|done|].
    + destruct Hwf as (? & ? & ? & ? & ?). cbn. split_and!; try done; lia.
    + change (flatten r ++ chain_toks ((a_last st2, r') :: c) ++ [nx3])
        with (flatten r ++ (TSym (a_last st2) :: flatten r' ++ chain_toks c) ++ [nx3]).
      replace (flatten r ++ (TSym (a_last st2) :: flatten r' ++ chain_toks c) ++ [nx3])
        with ((flatten r ++ [TSym (a_last st2)]) ++ flatten r' ++ chain_toks c ++ [nx3]) by (by rewrite <- !app_assoc; cbn; rewrite <- app_assoc).
      apply feeds_app. eauto.
    + unfold means in *. destruct ne; [congruence|]. cbn [eval_chain ebind] in *. rewrite Hm2. cbn [ebind].
      by rewrite Hz.
Qed.

Lemma binop_sound fuel : sound 0 (primary address fuel) -> sound_chain (binop2 address fuel) ->
  sound 8 (binop address (S fuel)).
Proof.
  intros Hp Hc token val op ne st x st' H1 H2 E. rewrite binop_S in E. apply bind_ok in E as (a & st1 & E1 & E).
  destruct (Hp _ _ _ _ _ _ _ H1 H2 E1) as (q & nx & Hq & Hl & Hr & Hnx & Hm). rewrite bind_last in E.
  destruct (is_binop (a_last st1)) eqn:Eb; cbn [negb] in E.
  2:{ injection E as <- <-. exists q, nx. split_and!; try done. lia. }
  pose proof (arith_prec_range (a_last st1)).
  destruct (Hc a _ ARITH_MAX_PREC _ _ _ _ Eb ltac:(change ARITH_MAX_PREC with 8; lia) ltac:(done) E) as (r & c & nx2 & Hwf & Hf2 & Hnx2 & Hs & Hm2).
  apply is_binop_range in Eb as Hr8. apply isk_sym_inv in Hnx as ->; [|unfold ARITH_NUM, ARITH_VAR; lia..].
  destruct (wf_plug ((a_last st1, r) :: c) q 0 8 Hq ltac:(lia) ltac:(lia) Hwf) as [Hw Hl'].
  exists (plug q ((a_last st1, r) :: c)), nx2. split_and!; try done.
  - rewrite flatten_plug. change (chain_toks ((a_last st1, r) :: c)) with (TSym (a_last st1) :: flatten r ++ chain_toks c).
    eapply ready_join; [done|]. by rewrite <- app_assoc.
  - rewrite eval_plug. unfold means in *. destruct ne; [congruence|]. by rewrite Hm.
Qed.

Lemma all_sound fuel :
  sound 0 (primary address fuel) /\ sound_chain (binop2 address fuel) /\ sound 8 (binop address fuel) /\
  sound 9 (and address fuel) /\ sound 10 (or address fuel) /\ sound 11 (cond address fuel) /\
  sound_asg (assignment address fuel).
Proof.
  induction fuel as [|fuel (Hp & Hc & Hb & Ha & Ho & Hq & Hs)].
  { split_and!; by repeat intro. }
  split_and!; auto using primary_sound, binop2_sound, binop_sound, and_sound, or_sound, cond_sound, assignment_sound.
Qed.

End Sound.
