(* ===== verification/ArithCorrect.v ===== *)
(** What shell arithmetic promises: it evaluates exactly the expressions of the
    grammar, always ends, keeps its values in 64 bits, and can read back what it
    stores. *)

From stdpp Require Import gmap.
From S2P Require Import Prelude Ctype Strto Arith ArithGrammar ArithComplete ArithTotal ArithSound.

(** * Ranges *)

Lemma s64_imax z : is_imax (s64 z).
Proof.
  unfold is_imax, INTMAX_MIN, INTMAX_MAX, s64, sext. pose proof (Z.mod_pos_bound z (2 ^ 64) ltac:(lia)).
  change (2 ^ (64 - 1)) with (2 ^ 63). destruct (Z.ltb_spec (z mod 2 ^ 64) (2 ^ 63)); lia.
Qed.

(** The bits above the sign are copies of it. *)
Lemma imax_shiftr a : is_imax a <-> a .>> 63 = 0 \/ a .>> 63 = -1.
Proof.
  unfold is_imax, INTMAX_MIN, INTMAX_MAX. rewrite Z.shiftr_div_pow2 by lia.
  pose proof (Z.div_mod a (2 ^ 63) ltac:(lia)). pose proof (Z.mod_pos_bound a (2 ^ 63) ltac:(lia)).
  split; [intros Ha|intros [E|E]; rewrite E in *; lia].
  destruct (Z_lt_le_dec a 0); [right|left]; nia.
Qed.

Lemma imax_b2z b : is_imax (b2z b).
Proof. by destruct b. Qed.

Lemma imax_shr a n : is_imax a -> 0 <= n -> is_imax (a .>> n).
Proof.
  intros Ha Hn. apply imax_shiftr. rewrite Z.shiftr_shiftr, Z.add_comm, <- Z.shiftr_shiftr by lia.
  apply imax_shiftr in Ha as [-> | ->]; [left; apply Z.shiftr_0_l|right]. rewrite Z.shiftr_div_pow2 by done.
  pose proof (Z.pow_pos_nonneg 2 n ltac:(lia) Hn). symmetry. apply (Z.div_unique _ _ _ (2 ^ n - 1)); lia.
Qed.

Lemma imax_quot a b : is_imax a -> is_imax b -> b <> 0 -> ~ (a = ARITH_MIN /\ b = -1) -> is_imax (Z.quot a b) /\ is_imax (Z.rem a b).
Proof.
  unfold is_imax, ARITH_MIN, INTMAX_MIN, INTMAX_MAX. intros Ha Hb Hb0 Hmin.
  pose proof (Z.quot_rem' a b) as E. pose proof (Z.rem_bound_abs a b Hb0) as Hr.
  assert (Z.abs (Z.quot a b) <= Z.abs a) as Hq.
  { rewrite <- Z.quot_abs by done. pose proof (Z.quot_le_upper_bound (Z.abs a) (Z.abs b) (Z.abs a)). nia. }
  split; [|lia]. destruct (decide (b = -1)) as [->|Hne]; [|].
  - assert (Z.rem a (-1) = 0) by lia. lia.
  - destruct (decide (a = - 2 ^ 63)) as [->|]; [|lia].
    destruct (decide (b = 1)) as [->|]; [rewrite Z.quot_1_r; lia|].
    assert (2 <= Z.abs b) by lia. assert (Z.abs (Z.quot (- 2 ^ 63) b) <= 2 ^ 62) as Hh; [|lia].
    rewrite <- Z.quot_abs by done. apply Z.quot_le_upper_bound; lia.
Qed.

Lemma do_binop_imax op a b z : is_imax a -> is_imax b -> do_binop op a b = inr z -> is_imax z.
Proof.
  intros Ha Hb. unfold do_binop.
  assert (forall f : Z -> Z -> Z, (f a b .>> 63 = f (a .>> 63) (b .>> 63)) ->
    (forall x y, (x = 0 \/ x = -1) -> (y = 0 \/ y = -1) -> f x y = 0 \/ f x y = -1) -> is_imax (f a b)) as Hbit.
  { intros f E Hf. apply imax_shiftr. rewrite E. apply Hf; by apply imax_shiftr. }
  repeat match goal with |- (if ?c then _ else _) = _ -> _ => destruct c eqn:? end;
    try (intros [= <-]); auto using s64_imax, imax_b2z.
  - apply imax_shr; [done|]. apply Z.land_nonneg. right. done.
  - apply Hbit; [apply Z.shiftr_land|]. intros x y [-> | ->] [-> | ->]; auto.
  - apply Hbit; [apply Z.shiftr_lxor|]. intros x y [-> | ->] [-> | ->]; auto.
  - apply Hbit; [apply Z.shiftr_lor|]. intros x y [-> | ->] [-> | ->]; auto.
  - destruct (imax_quot a b) as [Hq Hr]; [done|done|by zbool| |by case_match]. intros [-> ->]. done.
Qed.

Lemma strtoarith_t_imax s v e err : strtoarith_t s = (v, e, err) -> is_imax v.
Proof.
  unfold strtoarith_t. case_match.
  - unfold strtoimax. destruct (subject 0 _) as [[[neg x] r]|] eqn:E; [|intros [= <- _ _]; done].
    apply subject_nonneg in E. unfold is_imax, INTMAX_MIN, INTMAX_MAX in *.
    destruct neg; case_match; zbool; intros [= <- _ _]; lia.
  - case_match; destruct (strtoumax _ _) as [[x r] er].
    + intros [= <- _ _]. apply s64_imax.
    + repeat case_match; intros [= <- _ _]; [apply s64_imax|done|done].
Qed.

Lemma lex1_imax b z b' : lex1 b = (TNum z, b') -> is_imax z.
Proof.
  unfold lex1, yylex_at. generalize b at 1. intros start. induction b as [|c b IH]; cbn [yylex_from]; [done|].
  destruct (is_blank c); [done|]. destruct (c =? 0); [done|]. destruct (isdigit c).
  { destruct (strtoarith_t (c :: b)) as [[v e] err] eqn:E. intros [= <- _]. by eapply strtoarith_t_imax. }
  destruct (is_name c); [by destruct (name_span b)|].
  destruct (operator c (c :: b)) as [[t r]|] eqn:E; [|done].
  apply operator_spec in E as [Ht _]. destruct (op_token_weight _ Ht) as (_ & Hn & Hv).
  unfold tk_of. by rewrite (proj2 (Z.eqb_neq _ _) Hn), (proj2 (Z.eqb_neq _ _) Hv).
Qed.

Definition small_token (k : tk) : Prop := match k with TNum z => is_imax z | _ => True end.

Lemma feeds_small ts b b' : feeds ts b b' -> Forall small_token ts.
Proof.
  revert b. induction ts as [|k ts IH]; intros b; [constructor|]. intros (b1 & E & Hf).
  constructor; [|by eapply IH]. destruct k; try done. by apply lex1_imax in E.
Qed.

Section Correct.
Context {env : Type} `{Vars env} (address : list Z -> Z).

Lemma var_value_imax v x z : var_value v x = inr z -> is_imax z.
Proof.
  unfold var_value, convert. destruct (_ && _); [done|]. destruct (strtoarith_t _) as [[r p] err] eqn:E.
  destruct (_ || _); [done|]. intros [= <-]. by eapply strtoarith_t_imax.
Qed.

Lemma unop_imax op a : is_imax a -> is_imax (unop_value op a).
Proof.
  intros Ha. unfold unop_value, neg_arith. repeat case_match; auto using s64_imax, imax_b2z.
  unfold Z.lnot, is_imax, INTMAX_MIN, INTMAX_MAX in *. lia.
Qed.

Lemma ebind_ok (r : eres env) f x v : ebind r f = EOk x v -> exists y v1, r = EOk y v1 /\ f y v1 = EOk x v.
Proof. destruct r; cbn; [eauto|done]. Qed.

Lemma elift_ok r (v0 : env) x v : elift r v0 = EOk x v -> r = inr x /\ v = v0.
Proof. destruct r; cbn; [done|]. by intros [= <- <-]. Qed.

Lemma eval_imax e : Forall small_token (flatten e) -> forall v x v', eval e v = EOk x v' -> is_imax x.
Proof.
  assert (forall a k b, Forall small_token (flatten a ++ k :: flatten b) ->
    Forall small_token (flatten a) /\ Forall small_token (flatten b)) as Hinfix
    by (intros a k b [? Hx]%Forall_app; inversion Hx; done).
  induction e; intros Ht v x v' E; cbn [eval] in E.
  - injection E as <- _. exact (Forall_inv Ht).
  - apply elift_ok in E as [E _]. by apply var_value_imax in E.
  - cbn [flatten] in Ht. apply Forall_cons in Ht as [_ [? _]%Forall_app]. eauto.
  - apply ebind_ok in E as (y & v1 & E1 & [= <- _]). apply Forall_cons in Ht as [_ ?]. apply unop_imax. eauto.
  - apply Hinfix in Ht as [??]. apply ebind_ok in E as (y & v1 & E1 & E). apply ebind_ok in E as (z & v2 & E2 & E).
    apply elift_ok in E as [E _]. eapply do_binop_imax; [..|exact E]; eauto.
  - apply ebind_ok in E as (y & v1 & E1 & E). case_match; [by injection E as <- _|].
    apply ebind_ok in E as (z & v2 & E2 & [= <- _]). apply imax_b2z.
  - apply ebind_ok in E as (y & v1 & E1 & E). case_match; [|by injection E as <- _].
    apply ebind_ok in E as (z & v2 & E2 & [= <- _]). apply imax_b2z.
  - cbn [flatten] in Ht. apply Forall_app in Ht as [Ht1 Ht2]. apply Forall_cons in Ht2 as [_ Ht2].
    apply Hinfix in Ht2 as [??]. apply ebind_ok in E as (y & v1 & E1 & E). case_match; eauto.
  - cbn [flatten] in Ht. apply Forall_cons in Ht as [_ Ht]. apply Forall_cons in Ht as [_ Ht].
    apply ebind_ok in E as (y & v1 & E1 & E). apply ebind_ok in E as (z & v2 & E2 & E).
    case_match; [|done]. injection E as <- _. unfold assigned in E2. case_match; [injection E2 as <- _; eauto|].
    apply ebind_ok in E2 as (w & v3 & E3 & E4). apply elift_ok in E3 as [E3 _]. apply elift_ok in E4 as [E4 _].
    eapply do_binop_imax; [by eapply var_value_imax| |exact E4]. eauto.
Qed.

(** * The parser from its entry *)

Lemma arith_start s y l v : exists t st1,
  hold t st1 (fst (lex1 s) :: []) (snd (lex1 s)) /\ a_buf st1 = snd (lex1 s) /\ a_env st1 = v /\
  (weight t + length (a_buf st1) <= length s)%nat /\ yylex (AState s y l v) = AOk t st1 /\
  arith address s y l v = (result ← assignment address (arith_fuel s) t false;
    last_token ← get_last; if negb (last_token =? 0) then yyerror ExpectEOF else mret result) st1.
Proof.
  unfold arith. unfold mbind at 1, M_bind at 1. unfold yylex. cbn [a_buf a_yylval].
  destruct (yylex_at s y) as [[t b] y'] eqn:E. apply yylex_at_spec in E as (k & -> & Hk & Hw).
  exists t, (AState b y' l v). cbn [fst snd a_buf a_env]. split_and!; [|reflexivity|reflexivity|exact Hw|reflexivity|reflexivity].
  by exists k, [].
Qed.

Lemma stop_eof : stop 12 (TSym 0).
Proof. split_and!; intros; done. Qed.

(** C9. The parser evaluates the grammar of C expressions: when it gives a value,
    the string is made of the tokens of a tree of the grammar and the value and the
    variables are those the tree means; when it gives an error, every tree with the
    tokens of the string means that error after the same assignments, so that a
    string with a value is never refused; and the parser always ends. *)
Theorem arith_correct s y l v :
  match arith address s y l v with
  | AOk x st => exists e, wf e /\ tokens s (flatten e) /\ eval e v = EOk x (a_env st)
  | AErr er v' => forall e, wf e -> tokens s (flatten e) -> eval e v = EErr er v'
  | AFuel => False
  end.
Proof.
  destruct (arith_start s y l v) as (t & st1 & (k & ts & [= <- <-] & Hk & _) & Eb & <- & Hw & Ey & ->).
  pose proof (yylex_ok _ _ _ Ey) as (k' & Ek & Hk' & _). cbn [a_buf] in Ek.
  destruct (all_fit address (arith_fuel s)) as (_ & _ & _ & _ & _ & _ & Hfit).
  destruct (all_sound address (arith_fuel s)) as (_ & _ & _ & _ & _ & _ & Hsound).
  destruct (all_complete address (arith_fuel s)) as (_ & _ & _ & _ & _ & _ & Hcomplete).
  assert (forall e b', wf e -> feeds (flatten e ++ [TSym 0]) s b' ->
    good false (eval e (a_env st1)) (TSym 0) b' (a_env st1) (assignment address (arith_fuel s) t false st1)) as Hc.
  { intros e b' Hwf Hf. apply Hcomplete; [done|exact stop_eof|].
    destruct (flatten e ++ [TSym 0]) as [|k1 ts] eqn:Et; [by destruct (flatten e)|].
    destruct Hf as (b1 & E1 & Hf). rewrite Ek in E1. injection E1 as <- <-. by exists k', ts. }
  pose proof (Hfit t false st1 (length s) Hw ltac:(unfold arith_fuel; lia)) as Hf.
  unfold mbind, M_bind, get_last. destruct (assignment address (arith_fuel s) t false st1) as [x st'|er v'|] eqn:E; [| |done].
  - destruct (Hsound t false st1 x st' ltac:(by exists k') E) as (e & nx & Hwf & Hh & Hnx & Hm).
    apply (hold_feeds _ _ _ _ _ Ey) in Hh. cbn [a_buf] in Hh.
    destruct (Z.eqb_spec (a_last st') 0) as [El|El]; cbn [negb].
    + apply isk_sym_inv in Hnx as ->; [|by rewrite El..]. rewrite El in Hh. exists e. split_and!; [done|by eexists|exact Hm].
    + intros e' Hwf' (b' & Hf'). destruct (Hc e' b' Hwf' Hf') as [[Ha _] _]. by apply isk_tnum in Ha.
  - intros e' Hwf' (b' & Hf'). by destruct (Hc e' b' Hwf' Hf').
Qed.

(** Values are 64-bit signed integers, whatever the expression and the
    variables hold. *)
Theorem arith_range s y l v x st : arith address s y l v = AOk x st -> is_imax x.
Proof.
  intros E. destruct (arith_start s y l v) as (t & st1 & (k & ts & [= <- <-] & Hk & _) & Eb & <- & Hw & Ey & E').
  rewrite E' in E. pose proof (yylex_ok _ _ _ Ey) as (k' & Ek & Hk' & _).
  destruct (all_sound address (arith_fuel s)) as (_ & _ & _ & _ & _ & _ & Hsound).
  apply bind_ok in E as (z & st2 & E1 & E). rewrite bind_last in E. case_match; [done|]. injection E as <- <-.
  destruct (Hsound t false st1 z st2 ltac:(by exists k') E1) as (e & nx & Hwf & Hh & Hnx & Hm).
  apply (hold_feeds _ _ _ _ _ Ey) in Hh. apply feeds_small in Hh. apply Forall_app in Hh as [Hs _].
  by eapply eval_imax.
Qed.

End Correct.

(** What an assignment stores is read back as the same value: the text fits its
    buffer, and is converted without error. *)
Theorem arith_store_load z : is_imax z -> convert (Some (sresult z)) = inr z /\ sresult z = print_imax z.
Proof.
  unfold is_imax, INTMAX_MIN, INTMAX_MAX. intros Hz.
  assert (sresult z = print_imax z) as E.
  { unfold sresult, print_imax. apply take_ge. destruct (Z.ltb_spec z 0).
    - destruct (subject_decimal (- z) ltac:(lia)) as (_ & _ & Hl). cbn [length]. change DIGITS with 25%nat. lia.
    - destruct (subject_decimal z ltac:(lia)) as (_ & _ & Hl). change DIGITS with 25%nat. lia. }
  split; [|done]. rewrite E. unfold convert, print_imax. destruct (Z.ltb_spec z 0) as [Hn|Hn].
  - unfold strtoarith_t. cbn [skip_space]. change (isspace 45) with false. cbn [hd]. change (45 =? chr "-") with true. cbn match.
    unfold strtoimax. destruct (subject_decimal (- z) ltac:(lia)) as (_ & -> & _).
    rewrite (proj2 (Z.leb_le _ _)) by lia. cbn. f_equal. lia.
  - destruct (decimal_first z ltac:(lia)) as (d & ds & Ed & Hd & H0). destruct (subject_decimal z ltac:(lia)) as (Es & _ & _).
    rewrite Ed in *. unfold strtoarith_t. rewrite skip_space_digit by done. cbn [hd].
    destruct (digit_value_digit d Hd) as [_ ?]. change (chr "-") with 45. change (chr "0") with 48.
    rewrite (proj2 (Z.eqb_neq d 45)) by lia. unfold strtoumax. rewrite Es.
    rewrite (proj2 (Z.ltb_ge UINTMAX_MAX z)) by (unfold UINTMAX_MAX; lia).
    assert (s64 z = z) as -> by (apply (sext_small 64); lia).
    destruct (d =? 48); [done|]. rewrite (proj2 (Z.leb_le 0 z)) by lia. done.
Qed.

Lemma arith_store_load_witness : convert (Some (sresult (- 2 ^ 63))) = inr (- 2 ^ 63) /\ sresult (- 2 ^ 63) = print_imax (- 2 ^ 63).
Proof. apply arith_store_load. unfold is_imax, INTMAX_MIN, INTMAX_MAX. lia. Defined.

(** A table of variables. *)
#[local] Instance table_vars : Vars (gmap (list Z) (list Z)) :=
  {| lookupvar m x := m !! x; setvar m x t := Some (<[x := t]> m); uflag _ := false |}.

Lemma arith_range_witness : is_imax 13.
Proof.
  apply (arith_range (env := gmap (list Z) (list Z)) (fun _ => 0) (codes "x=4+3*3") (YVal 0) 0 ∅ 13
    (AState [] (YVal 3) 0 {[codes "x" := codes "13"]})).
  vm_compute. reflexivity.
Defined.
