(* ===== verification/Heapsort.v ===== *)
(** heapsort(3) (src.freebsd/compat/heapsort.c) on an array of records: the heap is
    built in place, and each maximum is exchanged with a record that is first let
    down to a leaf and then moved up. Records are indivisible: the byte loops of
    SWAP and COPY copy one. Accesses are checked against the array. *)

From S2P Require Import Prelude.

Section Heapsort.
Context {A : Type} (compar : A -> A -> Z).

(** The record [base + i * size]: items are numbered from 1. *)
Definition item (base : list A) (i : nat) : option A := match i with O => None | S i => base !! i end.
Definition put (base : list A) (i : nat) (x : A) : option (list A) :=
  match i with O => None | S i => awrite base i x end.

(** The larger child: [child_i], or its right neighbour when there is one. *)
Definition larger_child (base : list A) (nmemb child_i : nat) : option (nat * A) :=
  child ← item base child_i;
  if (child_i <? nmemb)%nat then
    next ← item base (S child_i);
    Some (if compar child next <? 0 then (S child_i, next) else (child_i, child))
  else Some (child_i, child).

(** CREATE from [par_i]. *)
Fixpoint create (fuel : nat) (base : list A) (nmemb par_i : nat) : option (list A) :=
  match fuel with
  | O => None
  | S fuel =>
    if (par_i * 2 <=? nmemb)%nat then
      '(child_i, child) ← larger_child base nmemb (par_i * 2);
      par ← item base par_i;
      if compar child par <=? 0 then Some base
      else base ← put base par_i child; base ← put base child_i par; create fuel base nmemb child_i
    else Some base
  end.

(** The two loops of SELECT: to a leaf, and back up. *)
Fixpoint select_down (fuel : nat) (base : list A) (nmemb par_i : nat) : option (list A * nat) :=
  match fuel with
  | O => None
  | S fuel =>
    if (par_i * 2 <=? nmemb)%nat then
      '(child_i, child) ← larger_child base nmemb (par_i * 2);
      base ← put base par_i child;
      select_down fuel base nmemb child_i
    else Some (base, par_i)
  end.

Fixpoint select_up (fuel : nat) (base : list A) (k : A) (child_i : nat) : option (list A) :=
  match fuel with
  | O => None
  | S fuel =>
    let par_i := (child_i / 2)%nat in
    if (child_i =? 1)%nat then put base child_i k
    else
      par ← item base par_i;
      if compar k par <? 0 then put base child_i k
      else base ← put base child_i par; select_up fuel base k par_i
  end.

Definition select (base : list A) (nmemb : nat) (k : A) : option (list A) :=
  '(base, par_i) ← select_down (S nmemb) base nmemb 1;
  select_up (S nmemb) base k par_i.

(** [for (l = nmemb / 2 + 1; --l;)] *)
Fixpoint build (l : nat) (base : list A) (nmemb : nat) : option (list A) :=
  match l with
  | O => Some base
  | S l' => base ← create (S nmemb) base nmemb l; build l' base nmemb
  end.

Fixpoint sort_loop (nmemb : nat) (base : list A) : option (list A) :=
  match nmemb with
  | S (S n as n') =>
    k ← item base nmemb;
    top ← item base 1;
    base ← put base nmemb top;
    base ← select base n' k;
    sort_loop n' base
  | _ => Some base
  end.

(** What [malloc(size)] gives is an argument: on failure it has set [errno]. *)
Inductive hres := HOk (base : list A) | HErr (errno : option Z) | HFault.
Definition EINVAL : Z := 22.
Definition heapsort (malloc_ok : bool) (base : list A) (size : Z) : hres :=
  let nmemb := length base in
  if (nmemb <=? 1)%nat then HOk base
  else if size =? 0 then HErr (Some EINVAL)
  else if negb malloc_ok then HErr None
  else match (base ← build (nmemb / 2) base nmemb; sort_loop nmemb base) with
       | Some base => HOk base
       | None => HFault
       end.

(** * Items and exchanges *)

Lemma put_Some base i x : (1 <= i <= length base)%nat -> put base i x = Some (<[i - 1 := x]> base)%nat.
Proof. intros Hi. destruct i as [|i]; [lia|]. cbn. rewrite awrite_Some by lia. do 2 f_equal. lia. Qed.

Lemma put_inv base i x base' : put base i x = Some base' ->
  (1 <= i <= length base)%nat /\ base' = (<[i - 1 := x]> base)%nat.
Proof.
  destruct i as [|i]; [done|]. cbn. intros [Hi ->]%awrite_inv. split; [lia|]. f_equal. lia.
Qed.

Lemma item_Some base i : (1 <= i <= length base)%nat -> exists x, item base i = Some x.
Proof. intros Hi. destruct i as [|i]; [lia|]. cbn. apply lookup_lt_is_Some_2. lia. Qed.

Lemma item_inv base i x : item base i = Some x -> (1 <= i <= length base)%nat.
Proof. destruct i as [|i]; [done|]. cbn. intros Hi%lookup_lt_Some. lia. Qed.

Lemma item_put base base' i x j : put base i x = Some base' ->
  item base' j = if decide (j = i) then Some x else item base j.
Proof.
  intros [Hi ->]%put_inv. destruct i as [|i]; [lia|]. destruct j as [|j]; [by rewrite decide_False|].
  cbn. rewrite Nat.sub_0_r. destruct (decide (S j = S i)) as [[= ->]|Hne].
  - apply list_lookup_insert_eq. lia.
  - apply list_lookup_insert_ne. lia.
Qed.

Lemma put_length base i x base' : put base i x = Some base' -> length base' = length base.
Proof. intros [_ ->]%put_inv. apply length_insert. Qed.

(** Moving the record at [j] to [i] and another to [j]. *)
Lemma move_perm base i j x y k b1 b2 b3 : item base i = Some x -> item base j = Some y ->
  put base i y = Some b1 -> put b1 j k = Some b2 -> put base i k = Some b3 -> b2 ≡ₚ b3.
Proof.
  intros Hi Hj H1 H2 H3. apply Permutation_inj.
  split; [by rewrite (put_length _ _ _ _ H2), (put_length _ _ _ _ H1), (put_length _ _ _ _ H3)|].
  exists (fun n => if decide (S n = i) then (j - 1)%nat else if decide (S n = j) then (i - 1)%nat else n).
  apply item_inv in Hi as Hri. apply item_inv in Hj as Hrj. split.
  { intros n m. repeat case_decide; lia. }
  intros n. change (b2 !! n) with (item b2 (S n)). rewrite (item_put _ _ _ _ _ H2), (item_put _ _ _ _ _ H1).
  assert (forall m, (m <> 0)%nat -> b3 !! (m - 1)%nat = item b3 m) as Eb3.
  { intros m Hm. destruct m; [done|]. cbn. by rewrite Nat.sub_0_r. }
  destruct (decide (S n = i)) as [E1|E1]; [|destruct (decide (S n = j)) as [E2|E2]].
  - rewrite Eb3 by lia. rewrite (item_put _ _ _ _ _ H3). destruct (decide (S n = j)) as [E2|E2].
    + rewrite decide_True by congruence. done.
    + case_decide; [lia|]. by rewrite <- Hj.
  - rewrite Eb3 by lia. rewrite (item_put _ _ _ _ _ H3). by rewrite decide_True.
  - change (b3 !! n) with (item b3 (S n)). rewrite (item_put _ _ _ _ _ H3). by rewrite decide_False.
Qed.

(** The child that is taken. *)
Lemma larger_child_safe base nmemb p : (1 <= p)%nat -> (p * 2 <= nmemb <= length base)%nat ->
  exists c x, larger_child base nmemb (p * 2) = Some (c, x) /\ item base c = Some x /\
    (c = p * 2 \/ c = p * 2 + 1)%nat /\ (c <= nmemb)%nat.
Proof.
  intros Hp Hn. unfold larger_child. destruct (item_Some base (p * 2)) as [x Hx]; [lia|]. rewrite Hx. cbn [mbind option_bind].
  destruct (Nat.ltb_spec (p * 2) nmemb) as [Hl|Hl]; [|exists (p * 2)%nat, x; split_and!; auto; lia].
  destruct (item_Some base (S (p * 2))) as [y Hy]; [lia|]. rewrite Hy. cbn [mbind option_bind].
  case_match; [exists (S (p * 2)), y|exists (p * 2)%nat, x]; split_and!; auto; lia.
Qed.

(** * No access out of bounds, and a permutation *)

Lemma swap_safe base p c x y : item base p = Some x -> item base c = Some y ->
  exists b1 b2, put base p y = Some b1 /\ put b1 c x = Some b2 /\ b2 ≡ₚ base /\
    forall j, j <> p -> j <> c -> item b2 j = item base j.
Proof.
  intros Hp Hc. apply item_inv in Hp as Hrp. apply item_inv in Hc as Hrc.
  destruct (put base p y) as [b1|] eqn:E1; [|by rewrite put_Some in E1].
  assert (length b1 = length base) as L1 by by eapply put_length.
  destruct (put b1 c x) as [b2|] eqn:E2; [|by rewrite put_Some in E2 by lia].
  exists b1, b2. split_and!; try done.
  - apply (move_perm base p c x y x b1 b2 base Hp Hc E1 E2). rewrite put_Some by done. f_equal.
    apply list_insert_id. destruct p; [lia|]. cbn in *. by rewrite Nat.sub_0_r.
  - intros j H1 H2. rewrite (item_put _ _ _ _ _ E2), (item_put _ _ _ _ _ E1). by rewrite !decide_False.
Qed.

Lemma create_safe fuel : forall base nmemb p, (1 <= p <= nmemb)%nat -> (nmemb <= length base)%nat -> (nmemb < p + fuel)%nat ->
  exists base', create fuel base nmemb p = Some base' /\ base' ≡ₚ base /\
    forall j, (nmemb < j)%nat -> item base' j = item base j.
Proof.
  induction fuel as [|fuel IH]; intros base nmemb p Hp Hn Hf; [lia|]. cbn [create].
  destruct (Nat.leb_spec (p * 2) nmemb) as [Hl|Hl]; [|by exists base].
  destruct (larger_child_safe base nmemb p) as (c & x & -> & Hx & Hc & Hcn); [lia..|]. cbn [mbind option_bind].
  destruct (item_Some base p) as [y Hy]; [lia|]. rewrite Hy. cbn [mbind option_bind].
  case_match; [by exists base|]. destruct (swap_safe base p c y x Hy Hx) as (b1 & b2 & -> & E2 & Hperm & Hitem).
  cbn [mbind option_bind]. rewrite E2. cbn [mbind option_bind].
  destruct (IH b2 nmemb c) as (b3 & -> & Hperm3 & Hitem3); [lia|rewrite Hperm; lia|lia|].
  exists b3. split_and!; [done|by rewrite Hperm3|]. intros j Hj. rewrite Hitem3 by done. apply Hitem; lia.
Qed.

(** While the hole is at [p], the record [k] put there makes a permutation. *)
Lemma select_down_safe k fuel : forall base nmemb p, (1 <= p <= nmemb)%nat -> (nmemb <= length base)%nat -> (nmemb < p + fuel)%nat ->
  exists base' h b1 b2, select_down fuel base nmemb p = Some (base', h) /\ (1 <= h <= nmemb)%nat /\ (nmemb < h * 2)%nat /\
    put base p k = Some b1 /\ put base' h k = Some b2 /\ b2 ≡ₚ b1 /\
    length base' = length base /\ forall j, (nmemb < j)%nat -> item base' j = item base j.
Proof.
  induction fuel as [|fuel IH]; intros base nmemb p Hp Hn Hf; [lia|]. cbn [select_down].
  destruct (Nat.leb_spec (p * 2) nmemb) as [Hl|Hl].
  2:{ exists base, p, (<[p - 1 := k]> base)%nat, (<[p - 1 := k]> base)%nat. rewrite put_Some by lia. by split_and!; try lia. }
  destruct (larger_child_safe base nmemb p) as (c & x & -> & Hx & Hc & Hcn); [lia..|]. cbn [mbind option_bind].
  destruct (put base p x) as [b|] eqn:E; [|by rewrite put_Some in E by lia]. cbn [mbind option_bind].
  assert (length b = length base) as Lb by by eapply put_length.
  destruct (IH b nmemb c) as (base' & h & b1 & b2 & -> & Hh & Hh2 & E1 & E2 & Hperm & L & Hitem); [lia..|].
  destruct (put base p k) as [b0|] eqn:E0; [|by rewrite put_Some in E0 by lia].
  exists base', h, b0, b2. split_and!; try done; try lia.
  - rewrite Hperm. destruct (item_Some base p) as [y Hy]; [lia|]. by eapply (move_perm base p c y x k).
  - intros j Hj. rewrite Hitem by done. rewrite (item_put _ _ _ _ _ E), decide_False; [done|lia].
Qed.

Lemma half_bounds c : (2 <= c)%nat -> (1 <= c / 2 < c)%nat /\ (c = c / 2 * 2 \/ c = c / 2 * 2 + 1)%nat.
Proof.
  intros Hc. pose proof (Nat.div_mod c 2 ltac:(lia)). pose proof (Nat.mod_upper_bound c 2 ltac:(lia)). lia.
Qed.

Lemma select_up_safe k fuel : forall base h, (1 <= h <= length base)%nat -> (h <= fuel)%nat ->
  exists base' b1, select_up fuel base k h = Some base' /\ put base h k = Some b1 /\ base' ≡ₚ b1 /\
    forall j, (h < j)%nat -> item base' j = item base j.
Proof.
  induction fuel as [|fuel IH]; intros base h Hh Hf; [lia|]. cbn [select_up].
  assert (forall r, r = put base h k -> exists base' b1, r = Some base' /\ put base h k = Some b1 /\ base' ≡ₚ b1 /\
    forall j, (h < j)%nat -> item base' j = item base j) as Hput.
  { intros r ->. destruct (put base h k) as [b1|] eqn:E; [|by rewrite put_Some in E]. exists b1, b1. split_and!; try done.
    intros j Hj. rewrite (item_put _ _ _ _ _ E), decide_False; [done|lia]. }
  destruct (Nat.eqb_spec h 1) as [->|Hne]; [by apply Hput|].
  destruct (half_bounds h) as [Hb _]; [lia|]. destruct (item_Some base (h / 2)) as [par Hpar]; [lia|].
  rewrite Hpar. cbn [mbind option_bind]. case_match; [by apply Hput|].
  destruct (put base h par) as [b|] eqn:E; [|by rewrite put_Some in E]. cbn [mbind option_bind].
  assert (length b = length base) as Lb by by eapply put_length.
  destruct (IH b (h / 2)%nat) as (base' & b1 & -> & E1 & Hperm & Hitem); [lia..|].
  destruct (put base h k) as [b0|] eqn:E0; [|by rewrite put_Some in E0].
  exists base', b0. split_and!; try done.
  - rewrite Hperm. destruct (item_Some base h) as [y Hy]; [lia|]. by eapply (move_perm base h (h / 2) y par k).
  - intros j Hj. rewrite Hitem by lia. rewrite (item_put _ _ _ _ _ E), decide_False; [done|lia].
Qed.

Lemma select_safe k base nmemb : (1 <= nmemb <= length base)%nat ->
  exists base' b1, select base nmemb k = Some base' /\ put base 1 k = Some b1 /\ base' ≡ₚ b1 /\
    length base' = length base /\ forall j, (nmemb < j)%nat -> item base' j = item base j.
Proof.
  intros Hn. unfold select.
  destruct (select_down_safe k (S nmemb) base nmemb 1) as (b & h & b1 & b2 & -> & Hh & _ & E1 & E2 & Hperm & L & Hitem); [lia..|].
  cbn [mbind option_bind].
  destruct (select_up_safe k (S nmemb) b h) as (b3 & b4 & -> & E4 & Hperm4 & Hitem4); [lia..|].
  rewrite E2 in E4. injection E4 as <-. exists b3, b1. split_and!; try done.
  - by rewrite Hperm4.
  - rewrite <- L. rewrite Hperm4. by eapply put_length.
  - intros j Hj. rewrite Hitem4 by lia. by apply Hitem.
Qed.

Lemma build_safe l : forall base nmemb, (l <= nmemb <= length base)%nat ->
  exists base', build l base nmemb = Some base' /\ base' ≡ₚ base.
Proof.
  induction l as [|l IH]; intros base nmemb Hl; [by exists base|]. cbn [build].
  destruct (create_safe (S nmemb) base nmemb (S l)) as (b & -> & Hperm & _); [lia..|]. cbn [mbind option_bind].
  destruct (IH b nmemb) as (b' & -> & Hp); [rewrite Hperm; lia|]. exists b'. split; [done|]. by rewrite Hp.
Qed.

(** One round of the second loop. *)
Lemma round_safe n base : (1 <= n)%nat -> (S n <= length base)%nat ->
  exists k top b1 b2, item base (S n) = Some k /\ item base 1 = Some top /\ put base (S n) top = Some b1 /\
    select b1 n k = Some b2 /\ b2 ≡ₚ base /\ length b2 = length base /\
    item b2 (S n) = Some top /\ forall j, (S n < j)%nat -> item b2 j = item base j.
Proof.
  intros Hn Hl. destruct (item_Some base (S n)) as [k Hk]; [lia|]. destruct (item_Some base 1) as [top Htop]; [lia|].
  destruct (put base (S n) top) as [b1|] eqn:E1; [|by rewrite put_Some in E1 by lia].
  assert (length b1 = length base) as L1 by by eapply put_length.
  destruct (select_safe k b1 n) as (b2 & b3 & E2 & E3 & Hperm & L2 & Hitem); [lia|].
  destruct (swap_safe base (S n) 1 k top Hk Htop) as (b1' & b3' & E1' & E3' & Hperm' & _).
  rewrite E1 in E1'. injection E1' as <-. rewrite E3 in E3'. injection E3' as <-.
  exists k, top, b1, b2. split_and!; try done; [by rewrite Hperm|lia| |].
  - rewrite Hitem by lia. by rewrite (item_put _ _ _ _ _ E1), decide_True.
  - intros j Hj. rewrite Hitem by lia. rewrite (item_put _ _ _ _ _ E1), decide_False; [done|lia].
Qed.

Lemma sort_loop_safe n : forall base, (n <= length base)%nat ->
  exists base', sort_loop n base = Some base' /\ base' ≡ₚ base.
Proof.
  induction n as [|[|n] IH]; intros base Hn; [by exists base..|]. change (sort_loop (S (S n)) base) with
    (k ← item base (S (S n)); top ← item base 1; base ← put base (S (S n)) top; base ← select base (S n) k; sort_loop (S n) base).
  destruct (round_safe (S n) base) as (k & top & b1 & b2 & Ek & Et & Eb & Es & Hperm & L & _); [lia..|].
  rewrite Ek. cbn [mbind option_bind]. rewrite Et. cbn [mbind option_bind]. rewrite Eb. cbn [mbind option_bind].
  rewrite Es. cbn [mbind option_bind].
  destruct (IH b2) as (b3 & E3 & Hp3); [lia|]. exists b3. split; [exact E3|]. by rewrite Hp3.
Qed.

(** C35. Whatever the comparison function answers, heapsort ends inside the array,
    and leaves a permutation of it; it fails only for a size of zero or when the
    record it saves cannot be allocated, and not on arrays of at most one record. *)
Theorem heapsort_permutes malloc_ok base size :
  match heapsort malloc_ok base size with
  | HOk base' => base' ≡ₚ base
  | HErr (Some e) => e = EINVAL /\ size = 0 /\ (2 <= length base)%nat
  | HErr None => malloc_ok = false /\ size <> 0 /\ (2 <= length base)%nat
  | HFault => False
  end.
Proof.
  unfold heapsort. destruct (Nat.leb_spec (length base) 1); [done|]. destruct (Z.eqb_spec size 0); [done|].
  destruct malloc_ok; [|done]. cbn [negb].
  destruct (build_safe (length base / 2) base (length base)) as (b1 & -> & Hp1); [|].
  { split; [|done]. apply Nat.Div0.div_le_upper_bound. lia. }
  cbn [mbind option_bind]. destruct (sort_loop_safe (length base) b1) as (b2 & -> & Hp2); [by rewrite Hp1|].
  by rewrite Hp2.
Qed.

End Heapsort.
