(* ===== verification/HeapsortOrder.v ===== *)
(** heapsort(3) sorts when the comparison function is a total preorder. *)

From S2P Require Import Prelude Heapsort.

(** What a comparison function promises (C17 7.22.5): consistent answers. *)
Class Compare {A} (compar : A -> A -> Z) : Prop := {
  cmp_flip x y : compar x y < 0 <-> 0 < compar y x;
  cmp_trans x y z : compar x y <= 0 -> compar y z <= 0 -> compar x z <= 0 }.

Section Order.
Context {A : Type} (compar : A -> A -> Z) `{!Compare compar}.
Notation le x y := (compar x y <= 0).

Lemma cmp_refl x : le x x.
Proof. pose proof (cmp_flip x x). lia. Qed.
Lemma cmp_not_lt x y : ~ compar x y < 0 -> le y x.
Proof. pose proof (cmp_flip x y). lia. Qed.
Lemma cmp_lt_le x y : compar x y < 0 -> le x y.
Proof. lia. Qed.
Lemma cmp_not_le x y : ~ le x y -> le y x.
Proof. pose proof (cmp_flip y x). lia. Qed.

Definition child_of (c p : nat) : Prop := (c = p * 2 \/ c = p * 2 + 1)%nat.
(** The record at [c] is not larger than the one at [p]. *)
Definition le_at (base : list A) (c p : nat) : Prop :=
  forall x y, item base c = Some x -> item base p = Some y -> le x y.

(** The heap condition below parents from [l] on. *)
Definition heap (l n : nat) (base : list A) : Prop :=
  forall p c, (l <= p)%nat -> (1 <= p)%nat -> child_of c p -> (c <= n)%nat -> le_at base c p.

Lemma larger_child_spec base n p c x : larger_child compar base n (p * 2) = Some (c, x) ->
  forall c' y, child_of c' p -> (c' <= n)%nat -> item base c' = Some y -> le y x.
Proof.
  unfold larger_child. destruct (item base (p * 2)) as [x0|] eqn:Ex; [|done]. cbn [mbind option_bind].
  destruct (Nat.ltb_spec (p * 2) n) as [Hl|Hl].
  - destruct (item base (S (p * 2))) as [x1|] eqn:E1; [|done]. cbn [mbind option_bind].
    destruct (Z.ltb_spec (compar x0 x1) 0) as [Hc|Hc]; intros [= <- <-] c' y [-> | ->] Hn Hy.
    + rewrite Ex in Hy. injection Hy as <-. lia.
    + replace (p * 2 + 1)%nat with (S (p * 2)) in Hy by lia. rewrite E1 in Hy. injection Hy as <-. apply cmp_refl.
    + rewrite Ex in Hy. injection Hy as <-. apply cmp_refl.
    + replace (p * 2 + 1)%nat with (S (p * 2)) in Hy by lia. rewrite E1 in Hy. injection Hy as <-. apply cmp_not_lt. lia.
  - intros [= <- <-] c' y [-> | ->] Hn Hy; [|lia]. rewrite Ex in Hy. injection Hy as <-. apply cmp_refl.
Qed.

(** * CREATE *)

(** A heap but for the record at [h], which may be smaller than its children. *)
Definition heap_but (l n h : nat) (base : list A) : Prop :=
  (forall p c, (l <= p)%nat -> (1 <= p)%nat -> p <> h -> child_of c p -> (c <= n)%nat -> le_at base c p) /\
  (forall p c, (l <= p)%nat -> (1 <= p)%nat -> child_of h p -> child_of c h -> (c <= n)%nat -> le_at base c p).

Lemma create_heap fuel l n : forall base h base', (l <= h)%nat -> (1 <= h)%nat -> (n <= length base)%nat ->
  heap_but l n h base -> create compar fuel base n h = Some base' -> heap l n base'.
Proof.
  induction fuel as [|fuel IH]; intros base h base' Hlh Hh Hn [Hh1 Hh2]; cbn [create]; [done|].
  destruct (Nat.leb_spec (h * 2) n) as [Hle|Hle].
  2:{ intros [= <-] p c Hp Hp1 Hc Hcn. destruct (decide (p = h)) as [->|Hne]; [|by apply Hh1].
      destruct Hc; lia. }
  destruct (larger_child_safe compar base n h) as (c & x & Ec & Hx & Hc & Hcn); [lia..|]. rewrite Ec. cbn [mbind option_bind].
  pose proof (larger_child_spec _ _ _ _ _ Ec) as Hmax.
  destruct (item base h) as [y|] eqn:Ey; [|done]. cbn [mbind option_bind].
  destruct (Z.leb_spec (compar x y) 0) as [Hxy|Hxy].
  { intros [= <-] p c' Hp Hp1 Hc' Hcn'. destruct (decide (p = h)) as [->|Hne]; [|by apply Hh1].
    intros a b Ha Hb. rewrite Ey in Hb. injection Hb as <-. eapply cmp_trans; [|exact Hxy]. by eapply Hmax. }
  destruct (put base h x) as [b1|] eqn:E1; [|done]. cbn [mbind option_bind].
  destruct (put b1 c y) as [b2|] eqn:E2; [|done]. cbn [mbind option_bind].
  assert (length b2 = length base) as L2 by (rewrite (put_length _ _ _ _ E2); by eapply put_length).
  assert (c <> h) as Hch by lia.
  assert (forall j, item b2 j = if decide (j = c) then Some y else if decide (j = h) then Some x else item base j) as Hit
    by (intros j; by rewrite (item_put _ _ _ _ _ E2), (item_put _ _ _ _ _ E1)).
  apply IH; [lia|lia|lia|]. split.
  - intros p c' Hp Hp1 Hpc Hc' Hcn' a b. rewrite !Hit. rewrite (decide_False (P := p = c)) by done.
    destruct (decide (c' = c)) as [->|Hc1].
    + assert (p = h) as -> by (destruct Hc, Hc'; lia). rewrite decide_True by done. intros [= <-] [= <-].
      apply cmp_not_le. lia.
    + destruct (decide (c' = h)) as [->|Hc2].
      * rewrite decide_False by (destruct Hc'; lia). intros [= <-] Hb.
        eapply Hh2; [exact Hp|exact Hp1|exact Hc'|exact Hc|done|done|done].
      * destruct (decide (p = h)) as [->|Hp2].
        -- intros Ha [= <-]. by eapply Hmax.
        -- by apply (Hh1 p c').
  - intros p c' Hp Hp1 Hcp Hc' Hcn' a b. assert (p = h) as -> by (destruct Hc, Hcp; lia). rewrite !Hit.
    rewrite decide_False by (destruct Hc'; lia). rewrite decide_False by (destruct Hc'; lia).
    rewrite decide_False by done. rewrite decide_True by done. intros Ha [= <-].
    by apply (Hh1 c c'); try done; lia.
Qed.

Lemma build_heap l n : forall base base', (l <= n)%nat -> (n <= length base)%nat -> heap (S l) n base ->
  build compar l base n = Some base' -> heap 1 n base'.
Proof.
  induction l as [|l IH]; intros base base' Hl Hn Hh; cbn [build]; [by intros [= <-]|].
  destruct (create_safe compar (S n) base n (S l)) as (b & E & Hperm & _); [lia..|]. rewrite E. cbn [mbind option_bind].
  apply IH; [lia|rewrite Hperm; lia|].
  apply (create_heap (S n) (S l) n base (S l)); [lia|lia|lia| |done]. split.
  - intros p c Hp Hp1 Hne Hc Hcn. apply Hh; try done. lia.
  - intros p c Hp Hp1 Hcp. destruct Hcp; lia.
Qed.

(** * SELECT *)

(** A heap but for the hole at [h], whose content does not matter. *)
Definition holed (n h : nat) (base : list A) : Prop :=
  (forall p c, (1 <= p)%nat -> p <> h -> c <> h -> child_of c p -> (c <= n)%nat -> le_at base c p) /\
  (forall p c, (1 <= p)%nat -> child_of h p -> child_of c h -> (c <= n)%nat -> le_at base c p).

Lemma select_down_heap fuel n : forall base h base' h', (1 <= h)%nat -> (n <= length base)%nat -> holed n h base ->
  select_down compar fuel base n h = Some (base', h') -> holed n h' base' /\ (n < h' * 2)%nat /\ (1 <= h')%nat.
Proof.
  induction fuel as [|fuel IH]; intros base h base' h' Hh Hn [H1 H2]; cbn [select_down]; [done|].
  destruct (Nat.leb_spec (h * 2) n) as [Hle|Hle]; [|by intros [= <- <-]].
  destruct (larger_child_safe compar base n h) as (c & x & Ec & Hx & Hc & Hcn); [lia..|]. rewrite Ec. cbn [mbind option_bind].
  pose proof (larger_child_spec _ _ _ _ _ Ec) as Hmax.
  destruct (put base h x) as [b1|] eqn:E1; [|done]. cbn [mbind option_bind].
  assert (forall j, item b1 j = if decide (j = h) then Some x else item base j) as Hit
    by (intros j; by rewrite (item_put _ _ _ _ _ E1)).
  assert (length b1 = length base) as L1 by by eapply put_length.
  apply IH; [lia|lia|]. split.
  - intros p c' Hp Hpc Hcc Hc' Hcn' a b. rewrite !Hit.
    destruct (decide (c' = h)) as [->|Hc1]; destruct (decide (p = h)) as [->|Hp1].
    + intros [= <-] [= <-]. apply cmp_refl.
    + intros [= <-] Hb. by eapply (H2 p c).
    + intros Ha [= <-]. by eapply Hmax.
    + by apply (H1 p c').
  - intros p c' Hp Hcp Hc' Hcn' a b. assert (p = h) as -> by (destruct Hc, Hcp; lia). rewrite !Hit.
    rewrite decide_False by (destruct Hc, Hc'; lia). rewrite decide_True by done. intros Ha [= <-].
    by apply (H1 c c'); try done; (destruct Hc, Hc'; lia).
Qed.

Lemma select_up_heap k fuel n : forall base h base', (1 <= h <= n)%nat -> (n <= length base)%nat -> holed n h base ->
  (forall c x, child_of c h -> (c <= n)%nat -> item base c = Some x -> le x k) ->
  select_up compar fuel base k h = Some base' -> heap 1 n base'.
Proof.
  induction fuel as [|fuel IH]; intros base h base' Hh Hn [H1 H2] Hk; cbn [select_up]; [done|].
  assert (forall b, put base h k = Some b -> (forall p y, (1 <= p)%nat -> child_of h p -> item base p = Some y -> le k y) -> heap 1 n b) as Hput.
  { intros b E Hpar p c _ Hp Hc Hcn a b'. rewrite !(item_put _ _ _ _ _ E).
    destruct (decide (c = h)) as [->|Hc1]; destruct (decide (p = h)) as [->|Hp1].
    - intros [= <-] [= <-]. apply cmp_refl.
    - intros [= <-] Hb. by eapply Hpar.
    - intros Ha [= <-]. by eapply Hk.
    - by apply (H1 p c). }
  destruct (Nat.eqb_spec h 1) as [->|Hne].
  { intros E. apply Hput in E; [done|]. intros p y Hp [Hc|Hc]; lia. }
  destruct (half_bounds h) as [Hb Hch]; [lia|]. set (q := (h / 2)%nat) in *.
  destruct (item base q) as [par|] eqn:Eq; [|done]. cbn [mbind option_bind].
  destruct (Z.ltb_spec (compar k par) 0) as [Hlt|Hge].
  { intros E. apply Hput in E; [done|]. intros p y Hp Hc Hy. assert (p = q) as -> by (destruct Hc, Hch; lia).
    rewrite Eq in Hy. injection Hy as <-. lia. }
  destruct (put base h par) as [b|] eqn:E; [|done]. cbn [mbind option_bind].
  assert (forall j, item b j = if decide (j = h) then Some par else item base j) as Hit
    by (intros j; by rewrite (item_put _ _ _ _ _ E)).
  assert (length b = length base) as L1 by by eapply put_length.
  assert (le par k) as Hpk by (apply cmp_not_lt; lia).
  assert (forall c x, child_of c q -> (c <= n)%nat -> item b c = Some x -> le x par) as Hsib.
  { intros c x Hc Hcn. rewrite Hit. destruct (decide (c = h)) as [->|Hc1]; [intros [= <-]; apply cmp_refl|].
    intros Hx. apply (H1 q c); try done; lia. }
  apply IH; [lia|lia| |].
  - split.
    + intros p c Hp Hpq Hcq Hc Hcn x y. rewrite !Hit.
      destruct (decide (c = h)) as [->|Hc1]; [assert (p = q) as -> by (destruct Hc, Hch; lia); done|].
      destruct (decide (p = h)) as [->|Hp1].
      * intros Hx [= <-]. apply (H2 q c); try done; lia.
      * by apply (H1 p c).
    + intros p c Hp Hqp Hc Hcn x y. intros Hx. specialize (Hsib c x Hc Hcn Hx).
      rewrite Hit, decide_False by (destruct Hqp; lia). intros Hy. eapply cmp_trans; [exact Hsib|].
      apply (H1 p q); try done; destruct Hqp; lia.
  - intros c x Hc Hcn Hx. eapply cmp_trans; [by eapply Hsib|done].
Qed.

(** The records a hole passes are records of the array. *)
Lemma select_down_all (Q : A -> Prop) fuel n : forall base h base' h', (1 <= h)%nat -> (n <= length base)%nat ->
  (forall j x, (j <= n)%nat -> item base j = Some x -> Q x) ->
  select_down compar fuel base n h = Some (base', h') -> forall j x, (j <= n)%nat -> item base' j = Some x -> Q x.
Proof.
  induction fuel as [|fuel IH]; intros base h base' h' Hh Hn HQ; cbn [select_down]; [done|].
  destruct (Nat.leb_spec (h * 2) n) as [Hle|Hle]; [|by intros [= <- <-]].
  destruct (larger_child_safe compar base n h) as (c & x & Ec & Hx & Hc & Hcn); [lia..|]. rewrite Ec. cbn [mbind option_bind].
  destruct (put base h x) as [b1|] eqn:E1; [|done]. cbn [mbind option_bind].
  apply IH; [lia|by rewrite (put_length _ _ _ _ E1)|]. intros j y Hj. rewrite (item_put _ _ _ _ _ E1).
  case_decide; [intros [= <-]; exact (HQ c x Hcn Hx)|by apply HQ].
Qed.

Lemma select_up_all (Q : A -> Prop) k fuel n : forall base h base', (1 <= h <= n)%nat -> Q k ->
  (forall j x, (j <= n)%nat -> item base j = Some x -> Q x) ->
  select_up compar fuel base k h = Some base' -> forall j x, (j <= n)%nat -> item base' j = Some x -> Q x.
Proof.
  induction fuel as [|fuel IH]; intros base h base' Hh Hk HQ; cbn [select_up]; [done|].
  assert (forall b y, put base h y = Some b -> Q y -> forall j x, (j <= n)%nat -> item b j = Some x -> Q x) as Hput.
  { intros b y E Hy j x Hj. rewrite (item_put _ _ _ _ _ E). case_decide; [by intros [= <-]|by apply HQ]. }
  destruct (Nat.eqb_spec h 1) as [->|Hne]; [intros E; by eapply Hput|].
  destruct (half_bounds h) as [Hb Hch]; [lia|]. destruct (item base (h / 2)) as [par|] eqn:Eq; [|done]. cbn [mbind option_bind].
  case_match; [intros E; by eapply Hput|].
  destruct (put base h par) as [b|] eqn:E; [|done]. cbn [mbind option_bind]. apply IH; [lia|done|].
  eapply Hput; [exact E|]. eapply HQ; [|exact Eq]. lia.
Qed.

(** The root of a heap is its maximum. *)
Lemma heap_root n base top : heap 1 n base -> (n <= length base)%nat -> item base 1 = Some top ->
  forall j x, (j <= n)%nat -> item base j = Some x -> le x top.
Proof.
  intros Hh Hn Htop j. induction (lt_wf j) as [j _ IH]; intros x Hj Hx.
  apply item_inv in Hx as Hr. destruct (decide (j = 1)%nat) as [->|Hne].
  { rewrite Htop in Hx. injection Hx as <-. apply cmp_refl. }
  destruct (half_bounds j) as [Hb Hc]; [lia|]. destruct (item_Some base (j / 2)) as [y Hy]; [lia|].
  eapply cmp_trans; [|apply (IH (j / 2)%nat); [lia|lia|exact Hy]]. apply (Hh (j / 2)%nat j); try done; lia.
Qed.

Definition upper_sorted (n : nat) (base : list A) : Prop :=
  forall i j x y, (i < j)%nat -> (n < j)%nat -> item base i = Some x -> item base j = Some y -> le x y.

Lemma round_sorts n base k top b1 b2 : (1 <= n)%nat -> (S n <= length base)%nat -> heap 1 (S n) base -> upper_sorted (S n) base ->
  item base (S n) = Some k -> item base 1 = Some top -> put base (S n) top = Some b1 -> select compar b1 n k = Some b2 ->
  (forall j, (S n < j)%nat -> item b2 j = item base j) -> item b2 (S n) = Some top -> length b2 = length base ->
  heap 1 n b2 /\ upper_sorted n b2.
Proof.
  intros Hn Hl Hh Hs Hk Htop E1 E2 Hup Htop2 L2. unfold select in E2.
  destruct (select_down compar (S n) b1 n 1) as [[b h]|] eqn:Ed; [|done]. cbn [mbind option_bind] in E2.
  assert (length b1 = length base) as L1 by by eapply put_length.
  destruct (select_down_safe compar k (S n) b1 n 1) as (b' & h' & _ & _ & Ed' & Hh' & _ & _ & _ & _ & Lb & _); [lia..|].
  rewrite Ed in Ed'. injection Ed' as <- <-.
  assert (holed n 1 b1) as Hholed.
  { split; [|intros p c Hp [Hc|Hc]; lia]. intros p c Hp Hp1 Hc1 Hc Hcn x y. rewrite !(item_put _ _ _ _ _ E1).
    rewrite !decide_False by (destruct Hc; lia). apply (Hh p c); try done. lia. }
  destruct (select_down_heap (S n) n b1 1 b h) as (Hhole & Hleaf & _); [lia|lia|done|done|]. split.
  - apply (select_up_heap k (S n) n b h b2); [exact Hh'|lia|exact Hhole| |exact E2]. intros c x [Hc|Hc] Hcn; lia.
  - assert (forall (Q : A -> Prop), (forall j x, (j <= S n)%nat -> item base j = Some x -> Q x) ->
      forall j x, (j <= n)%nat -> item b2 j = Some x -> Q x) as Hall.
    { intros Q HQ. eapply (select_up_all Q); [exact Hh'|by eapply HQ| |exact E2].
      eapply (select_down_all Q); [| | |exact Ed]; [lia|lia|]. intros j x Hj. rewrite (item_put _ _ _ _ _ E1).
      rewrite decide_False by lia. apply HQ. lia. }
    intros i j x y Hij Hj Hx Hy. destruct (decide (j = S n)) as [->|Hne].
    + rewrite Htop2 in Hy. injection Hy as <-. revert Hx. apply (Hall (fun x => le x top)); [|lia].
      intros j' x' Hj' Hx'. by eapply (heap_root (S n)).
    + rewrite Hup in Hy by lia. destruct (decide (i <= n)%nat) as [Hi|Hi].
      * revert Hx. apply (Hall (fun x => le x y)); [|done]. intros j' x' Hj' Hx'. eapply (Hs j' j); [|lia|done|done]. lia.
      * destruct (decide (i = S n)) as [->|Hi2].
        -- rewrite Htop2 in Hx. injection Hx as <-. eapply (Hs 1%nat j); [| |exact Htop|exact Hy]; lia.
        -- rewrite Hup in Hx by lia. eapply (Hs i j); [| |exact Hx|exact Hy]; lia.
Qed.

Lemma sort_loop_sorts n : forall base base', (n <= length base)%nat -> heap 1 n base -> upper_sorted n base ->
  sort_loop compar n base = Some base' -> upper_sorted 1 base'.
Proof.
  induction n as [|[|n] IH]; intros base base' Hn Hh Hs.
  - intros [= <-]. intros i j x y Hij Hj. apply Hs; lia.
  - by intros [= <-].
  - change (sort_loop compar (S (S n)) base) with
      (k ← item base (S (S n)); top ← item base 1; base ← put base (S (S n)) top; base ← select compar base (S n) k;
       sort_loop compar (S n) base).
    destruct (round_safe compar (S n) base) as (k & top & b1 & b2 & Ek & Et & Eb & Es & Hperm & L & Htop2 & Hup); [lia..|].
    rewrite Ek. cbn [mbind option_bind]. rewrite Et. cbn [mbind option_bind]. rewrite Eb. cbn [mbind option_bind].
    rewrite Es. cbn [mbind option_bind].
    destruct (round_sorts (S n) base k top b1 b2) as [Hh2 Hs2]; try done; [lia|]. apply IH; [lia|done|done].
Qed.

(** C36. With a consistent comparison function the result is sorted. *)
Theorem heapsort_sorts malloc_ok base size base' : heapsort compar malloc_ok base size = HOk base' ->
  forall i j x y, (i < j)%nat -> base' !! i = Some x -> base' !! j = Some y -> compar x y <= 0.
Proof.
  unfold heapsort. destruct (Nat.leb_spec (length base) 1) as [Hl|Hl].
  { intros [= <-] i j x y Hij _ Hy%lookup_lt_Some. lia. }
  destruct (size =? 0); [done|]. destruct malloc_ok; [|done]. cbn [negb].
  assert (length base / 2 <= length base)%nat as Hhalf by (apply Nat.Div0.div_le_upper_bound; lia).
  destruct (build compar (length base / 2) base (length base)) as [b1|] eqn:E1; [|done]. cbn [mbind option_bind].
  destruct (sort_loop compar (length base) b1) as [b2|] eqn:E2; [|done]. intros [= <-] i j x y Hij Hx Hy.
  destruct (build_safe compar (length base / 2) base (length base)) as (b & Eb & Hp); [lia|].
  rewrite E1 in Eb. injection Eb as <-.
  assert (heap 1 (length base) b1) as Hh.
  { eapply build_heap; [exact Hhalf|done| |exact E1]. intros p c Hp' _ [-> | ->] Hc;
      pose proof (Nat.mul_succ_div_gt (length base) 2 ltac:(lia)); lia. }
  assert (length b1 = length base) as L1 by (by rewrite Hp).
  apply (sort_loop_sorts (length base) b1 b2) in E2; [|lia|exact Hh|].
  - apply (E2 (S i) (S j)); [lia|lia|exact Hx|exact Hy].
  - intros i' j' x' y' _ Hj' _ Hy'%item_inv. lia.
Qed.

End Order.

#[export] Instance compare_Z : Compare Z.sub.
Proof. split; intros; lia. Qed.

Lemma heapsort_sorts_witness :
  heapsort Z.sub true [3; 9; 1; 5; 3; 2] 8 = HOk [1; 2; 3; 3; 5; 9] /\ 3 - 5 <= 0.
Proof.
  split; [vm_compute; reflexivity|].
  apply (heapsort_sorts Z.sub true [3; 9; 1; 5; 3; 2] 8 [1; 2; 3; 3; 5; 9]) with 3%nat 4%nat; [vm_compute; reflexivity|lia|reflexivity|reflexivity].
Defined.
