(* ===== verification/Splay.v ===== *)
(** Top-down splaying, the common part of the character sets and maps of tr
    (src.freebsd/coreutils/tr/cset.c, [cset_splay]; cmap.c, [cmap_splay]).

    The nodes hold an [A]; [cmp a ch] says on which side of the node [ch] is.  The
    two trees that the loop builds under its header [N] hang together by their
    last nodes [l] and [r]: [left] and [right] list the nodes on the way to the
    free slot, the last one first. *)

From S2P Require Import Prelude.

Inductive tree (A : Type) : Type := Leaf | Node (l : tree A) (a : A) (r : tree A).
Arguments Leaf {A}.
Arguments Node {A} l a r.

Section Splay.
Context {A : Type} (cmp : A -> Z -> comparison).

Definition frames : Type := list (A * tree A).

(** [l->csn_right = t] up to [N.csn_right], and the mirror image. *)
Fixpoint hang_left (l : frames) (t : tree A) : tree A :=
  match l with [] => t | (a, sub) :: l => hang_left l (Node sub a t) end.
Fixpoint hang_right (r : frames) (t : tree A) : tree A :=
  match r with [] => t | (a, sub) :: r => hang_right r (Node t a sub) end.

Definition assemble (left right : frames) (tl : tree A) (a : A) (tr : tree A) : tree A :=
  Node (hang_left left tl) a (hang_right right tr).

Fixpoint splay_loop (t : tree A) (ch : Z) (left right : frames) : tree A :=
  match t with
  | Leaf => Leaf
  | Node tl a tr =>
    match cmp a ch with
    | Lt =>
      match tl with
      | Leaf => assemble left right tl a tr
      | Node yl y yr =>
        match cmp y ch with
        | Lt => match yl with
                | Leaf => assemble left right yl y (Node yr a tr)
                | Node _ _ _ => splay_loop yl ch left ((y, Node yr a tr) :: right)
                end
        | _ => splay_loop tl ch left ((a, tr) :: right)
        end
      end
    | Gt =>
      match tr with
      | Leaf => assemble left right tl a tr
      | Node yl y yr =>
        match cmp y ch with
        | Gt => match yr with
                | Leaf => assemble left right (Node tl a yl) y yr
                | Node _ _ _ => splay_loop yr ch ((y, Node tl a yl) :: left) right
                end
        | _ => splay_loop tr ch ((a, tl) :: left) right
        end
      end
    | Eq => assemble left right tl a tr
    end
  end.

Definition splay (t : tree A) (ch : Z) : tree A := splay_loop t ch [] [].

(** * The nodes in order *)

Fixpoint inorder (t : tree A) : list A :=
  match t with Leaf => [] | Node l a r => inorder l ++ a :: inorder r end.

Definition before (left : frames) : list A := foldr (fun f acc => acc ++ inorder f.2 ++ [f.1]) [] left.
Definition after (right : frames) : list A := foldr (fun f acc => (f.1 :: inorder f.2) ++ acc) [] right.

Lemma inorder_hang_left l : forall t, inorder (hang_left l t) = before l ++ inorder t.
Proof.
  induction l as [|[a sub] l IH]; intros t; [done|]. cbn [hang_left before foldr fst snd]. rewrite IH.
  fold (before l). cbn [inorder]. by rewrite <- !app_assoc.
Qed.

Lemma inorder_hang_right r : forall t, inorder (hang_right r t) = inorder t ++ after r.
Proof.
  induction r as [|[a sub] r IH]; intros t; cbn [hang_right after foldr fst snd]; [by rewrite app_nil_r|]. rewrite IH.
  fold (after r). cbn [inorder]. by rewrite <- !app_assoc.
Qed.

(** A tree and what was taken off it on both sides; [splits] says that the root
    has [ch] or is next to its place. *)
Definition splits (ch : Z) (t : tree A) : Prop :=
  match t with
  | Leaf => False
  | Node l _ r => Forall (fun a => cmp a ch = Gt) (inorder l) /\ Forall (fun a => cmp a ch = Lt) (inorder r)
  end.

(** [ch] is above the nodes to the left of a node that is not above it. *)
Definition ordered_at (ch : Z) (l : list A) : Prop :=
  forall l1 a l2, l = l1 ++ a :: l2 ->
    (cmp a ch <> Lt -> Forall (fun b => cmp b ch = Gt) l1) /\ (cmp a ch <> Gt -> Forall (fun b => cmp b ch = Lt) l2).

Lemma ordered_at_sub ch l1 l2 l3 : ordered_at ch (l1 ++ l2 ++ l3) -> ordered_at ch l2.
Proof.
  intros H m1 a m2 ->. destruct (H (l1 ++ m1) a (m2 ++ l3)) as [H1 H2]; [by rewrite <- !app_assoc|]. split.
  - intros Ha. specialize (H1 Ha). by apply Forall_app in H1 as [_ H1].
  - intros Ha. specialize (H2 Ha). by apply Forall_app in H2 as [H2 _].
Qed.

Definition cut (ch : Z) (left right : frames) : Prop :=
  Forall (fun a => cmp a ch = Gt) (before left) /\ Forall (fun a => cmp a ch = Lt) (after right).

Lemma inorder_assemble left right tl a tr :
  inorder (assemble left right tl a tr) = before left ++ inorder (Node tl a tr) ++ after right.
Proof. unfold assemble. cbn [inorder]. rewrite inorder_hang_left, inorder_hang_right. by rewrite <- !app_assoc. Qed.

Lemma splits_assemble ch left right tl a tr : cut ch left right ->
  Forall (fun a => cmp a ch = Gt) (inorder tl) -> Forall (fun a => cmp a ch = Lt) (inorder tr) ->
  splits ch (assemble left right tl a tr).
Proof.
  intros [Hl Hr] Htl Htr. unfold assemble. cbn [splits]. rewrite inorder_hang_left, inorder_hang_right.
  split; by apply Forall_app.
Qed.

(** What the order says about a node and its neighbours on the way. *)
Lemma ordered_node ch pre post tl a tr : ordered_at ch (pre ++ inorder (Node tl a tr) ++ post) ->
  (cmp a ch <> Lt -> Forall (fun b => cmp b ch = Gt) (inorder tl)) /\
  (cmp a ch <> Gt -> Forall (fun b => cmp b ch = Lt) (inorder tr)).
Proof.
  intros H. apply ordered_at_sub in H. exact (H (inorder tl) a (inorder tr) eq_refl).
Qed.

Lemma before_cons a sub left : before ((a, sub) :: left) = before left ++ inorder sub ++ [a].
Proof. done. Qed.
Lemma after_cons a sub right : after ((a, sub) :: right) = a :: inorder sub ++ after right.
Proof. done. Qed.

Ltac flat := cbn [inorder]; rewrite ?before_cons, ?after_cons, ?inorder_assemble;
  cbn [inorder app]; repeat (rewrite <- app_assoc; cbn [app]).

Lemma cut_right ch left right a sub : cut ch left right -> cmp a ch = Lt ->
  Forall (fun a => cmp a ch = Lt) (inorder sub) -> cut ch left ((a, sub) :: right).
Proof. intros [Hl Hr] Ha Hs. split; [done|]. rewrite after_cons. constructor; [done|]. by apply Forall_app. Qed.

Lemma cut_left ch left right a sub : cut ch left right -> cmp a ch = Gt ->
  Forall (fun a => cmp a ch = Gt) (inorder sub) -> cut ch ((a, sub) :: left) right.
Proof.
  intros [Hl Hr] Ha Hs. split; [|done]. rewrite before_cons. apply Forall_app. split; [done|].
  apply Forall_app. by repeat constructor.
Qed.

(** What the loop makes of the list [w]. *)
Definition goes (w : list A) (ch : Z) (left right : frames) (res : tree A) : Prop :=
  inorder res = w /\ (ordered_at ch w -> cut ch left right -> splits ch res).

Lemma goes_stop w ch left right tl a tr : w = before left ++ inorder (Node tl a tr) ++ after right ->
  (cmp a ch = Lt -> tl = Leaf) -> (cmp a ch = Gt -> tr = Leaf) -> goes w ch left right (assemble left right tl a tr).
Proof.
  intros -> Hl Hr. split; [apply inorder_assemble|]. intros Ho Hc. apply ordered_node in Ho as [H1 H2].
  destruct (cmp a ch); (apply splits_assemble; [done| |]); try (by apply H1 || by apply H2);
    [by rewrite Hl|by rewrite Hr].
Qed.

Lemma goes_right w ch left right a sub t res : goes w ch left ((a, sub) :: right) res ->
  w = before left ++ inorder (Node t a sub) ++ after right -> cmp a ch = Lt -> goes w ch left right res.
Proof.
  intros [H1 H2] -> Ha. split; [done|]. intros Ho Hc. apply H2; [done|].
  apply ordered_node in Ho as [_ Ho]. apply cut_right; [done|done|]. apply Ho. congruence.
Qed.

Lemma goes_left w ch left right a sub t res : goes w ch ((a, sub) :: left) right res ->
  w = before left ++ inorder (Node sub a t) ++ after right -> cmp a ch = Gt -> goes w ch left right res.
Proof.
  intros [H1 H2] -> Ha. split; [done|]. intros Ho Hc. apply H2; [done|].
  apply ordered_node in Ho as [Ho _]. apply cut_left; [done|done|]. apply Ho. congruence.
Qed.

Lemma loop_spec n : forall t ch left right, (length (inorder t) <= n)%nat -> t <> Leaf ->
  goes (before left ++ inorder t ++ after right) ch left right (splay_loop t ch left right).
Proof.
  induction n as [|n IH]; intros t ch left right Hn Ht; destruct t as [|tl a tr]; try done;
    cbn [inorder] in Hn; rewrite length_app in Hn; cbn [length] in Hn; [lia|].
  cbn [splay_loop]. destruct (cmp a ch) eqn:Ea.
  - apply goes_stop; congruence.
  - destruct tl as [|yl y yr]; [apply goes_stop; congruence|].
    assert (goes (before left ++ inorder (Node (Node yl y yr) a tr) ++ after right) ch left right
      (splay_loop (Node yl y yr) ch left ((a, tr) :: right))) as Hzig.
    { eapply goes_right; [|done|done]. 
      replace (before left ++ inorder (Node (Node yl y yr) a tr) ++ after right)
        with (before left ++ inorder (Node yl y yr) ++ after ((a, tr) :: right)) by by flat. apply IH; [lia|done]. }
    destruct (cmp y ch) eqn:Ey; [done| |done].
    destruct yl as [|ul u ur]; [apply goes_stop; [by flat|done|congruence]|].
    apply (goes_right _ ch left right y (Node yr a tr) (Node ul u ur)); [|by flat|done].
    replace (before left ++ inorder (Node (Node (Node ul u ur) y yr) a tr) ++ after right)
      with (before left ++ inorder (Node ul u ur) ++ after ((y, Node yr a tr) :: right)) by by flat.
    apply IH; [|done]. cbn [inorder] in Hn. rewrite !length_app in Hn. cbn [length] in Hn. cbn [inorder]. rewrite length_app. cbn [length]. lia.
  - destruct tr as [|yl y yr]; [apply goes_stop; congruence|].
    assert (goes (before left ++ inorder (Node tl a (Node yl y yr)) ++ after right) ch left right
      (splay_loop (Node yl y yr) ch ((a, tl) :: left) right)) as Hzig.
    { eapply goes_left; [|done|done]. 
      replace (before left ++ inorder (Node tl a (Node yl y yr)) ++ after right)
        with (before ((a, tl) :: left) ++ inorder (Node yl y yr) ++ after right) by by flat. apply IH; [lia|done]. }
    destruct (cmp y ch) eqn:Ey; [done|done|].
    destruct yr as [|ul u ur]; [apply goes_stop; [by flat|congruence|done]|].
    apply (goes_left _ ch left right y (Node tl a yl) (Node ul u ur)); [|by flat|done].
    replace (before left ++ inorder (Node tl a (Node yl y (Node ul u ur))) ++ after right)
      with (before ((y, Node tl a yl) :: left) ++ inorder (Node ul u ur) ++ after right) by by flat.
    apply IH; [|done]. cbn [inorder] in Hn. rewrite !length_app in Hn. cbn [length] in Hn. cbn [inorder]. rewrite length_app. cbn [length] in *. rewrite length_app in Hn. cbn [length] in Hn. lia.
Qed.

(** Splaying keeps the nodes in order, and brings the place of [ch] to the root. *)
Lemma splay_inorder t ch : inorder (splay t ch) = inorder t.
Proof.
  destruct t as [|l a r]; [done|]. destruct (loop_spec _ (Node l a r) ch [] [] (le_n _) ltac:(done)) as [E _].
  cbn [before after foldr app] in E. by rewrite app_nil_r in E.
Qed.

Lemma splay_splits t ch : t <> Leaf -> ordered_at ch (inorder t) -> splits ch (splay t ch).
Proof.
  intros Ht Ho. destruct (loop_spec _ t ch [] [] (le_n _) Ht) as [_ H]. cbn [before after foldr app] in H.
  rewrite app_nil_r in H. apply H; [done|]. split; constructor.
Qed.

Lemma splay_node t ch : t <> Leaf -> exists l a r, splay t ch = Node l a r /\ inorder t = inorder l ++ a :: inorder r.
Proof.
  intros Ht. pose proof (splay_inorder t ch) as E. destruct (splay t ch) as [|l a r]; [|by exists l, a, r].
  destruct t as [|tl a tr]; [done|]. cbn [inorder] in E. by destruct (inorder tl).
Qed.

End Splay.
