(* ===== verification/TrSet.v ===== *)
(** The character sets of tr (src.freebsd/coreutils/tr/cset.c, cset.h): ranges of
    characters in a splay tree, classes of the locale, an inversion, and a cache of
    the first characters.  [malloc] may fail; a failed assertion and an access out
    of the cache are [None]. *)

From Stdlib Require Import Sorted.
From stdpp Require Import gmap sorting.
From S2P Require Import Prelude Splay.

(** What the sets use of the locale. *)
Class Wctypes := { wctype_t : Type; iswctype : Z -> wctype_t -> bool }.

Record csnode := CsNode { csn_min : Z; csn_max : Z }.

Section Cset.
Context `{Wctypes}.

Record cset := CSet {
  cs_cache : list bool;
  cs_havecache : bool;
  cs_classes : list (wctype_t * bool);
  cs_root : tree csnode;
  cs_invert : bool
}.

Definition CS_CACHE_SIZE : Z := 256.

(** The cache of a fresh set has the contents of the memory. *)
Definition cset_alloc (memory : list bool) : cset := CSet memory false [] Leaf false.

Definition with_root (cs : cset) (t : tree csnode) : cset :=
  CSet (cs_cache cs) (cs_havecache cs) (cs_classes cs) t (cs_invert cs).
Definition no_cache (cs : cset) : cset :=
  CSet (cs_cache cs) false (cs_classes cs) (cs_root cs) (cs_invert cs).

Definition cset_rangecmp (t : csnode) (ch : Z) : Z :=
  if ch <? csn_min t then -1 else if csn_max t <? ch then 1 else 0.

Definition side (t : csnode) (ch : Z) : comparison := cset_rangecmp t ch ?= 0.
Definition cset_splay (t : tree csnode) (ch : Z) : tree csnode := splay side t ch.

Definition cset_delete (t : tree csnode) (ch : Z) : option (tree csnode) :=
  match cset_splay t ch with
  | Leaf => None
  | Node l c r =>
    if negb (cset_rangecmp c ch =? 0) then None
    else match l with
         | Leaf => Some r
         | Node _ _ _ => match cset_splay l ch with Leaf => None | Node xl x _ => Some (Node xl x r) end
         end
  end.

(** Coalescing with the left and right neighbours: the subtree and the new bound. *)
Definition coalesce_left (l : tree csnode) (min : Z) : option (tree csnode * Z) :=
  match l with
  | Leaf => Some (Leaf, min)
  | Node _ _ _ =>
    let l := cset_splay l (s32 (min - 1)) in
    match l with
    | Leaf => None
    | Node _ c _ =>
      if csn_max c =? s32 (min - 1)
      then let oval := csn_min c in l ← cset_delete l (csn_min c); Some (l, oval)
      else Some (l, min)
    end
  end.
Definition coalesce_right (r : tree csnode) (max : Z) : option (tree csnode * Z) :=
  match r with
  | Leaf => Some (Leaf, max)
  | Node _ _ _ =>
    let r := cset_splay r (s32 (max + 1)) in
    match r with
    | Leaf => None
    | Node _ c _ =>
      if csn_min c =? s32 (max + 1)
      then let oval := csn_max c in r ← cset_delete r (csn_min c); Some (r, oval)
      else Some (r, max)
    end
  end.

Definition cset_add (malloc_ok : bool) (cs : cset) (ch : Z) : option (bool * cset) :=
  let cs := no_cache cs in
  match cs_root cs with
  | Leaf => if malloc_ok then Some (true, with_root cs (Node Leaf (CsNode ch ch) Leaf)) else Some (false, cs)
  | Node _ _ _ =>
    let root := cset_splay (cs_root cs) ch in
    let cs := with_root cs root in
    match root with
    | Leaf => None
    | Node l csn r =>
      if cset_rangecmp csn ch =? 0 then Some (true, cs)
      else if negb malloc_ok then Some (false, cs)
      else
        let '(nl, nr) := if cset_rangecmp csn ch <? 0 then (l, Node Leaf csn r) else (Node l csn Leaf, r) in
        '(nl, min) ← coalesce_left nl ch;
        '(nr, max) ← coalesce_right nr ch;
        Some (true, with_root cs (Node nl (CsNode min max) nr))
    end
  end.

Definition in_class (c : wctype_t * bool) (ch : Z) : bool := xorb c.2 (iswctype ch c.1).

Definition cset_in_hard (cs : cset) (ch : Z) : option (bool * cset) :=
  if existsb (fun c => in_class c ch) (cs_classes cs) then Some (xorb (cs_invert cs) true, cs)
  else
    match cs_root cs with
    | Leaf => Some (xorb (cs_invert cs) false, cs)
    | Node _ _ _ =>
      let cs := with_root cs (cset_splay (cs_root cs) ch) in
      match cs_root cs with
      | Leaf => None
      | Node _ c _ => Some (xorb (cs_invert cs) (cset_rangecmp c ch =? 0), cs)
      end
    end.

Definition set_cache (cs : cset) (i : nat) (b : bool) : option cset :=
  c ← awrite (cs_cache cs) i b; Some (CSet c (cs_havecache cs) (cs_classes cs) (cs_root cs) (cs_invert cs)).

(** The loop from [i], [n] rounds before its end. *)
Fixpoint cache_loop (n : nat) (i : Z) (cs : cset) : option cset :=
  match n with
  | O => Some cs
  | S n => '(b, cs) ← cset_in_hard cs i; cs ← set_cache cs (Z.to_nat i) b; cache_loop n (i + 1) cs
  end.

Definition cset_cache (cs : cset) : option cset :=
  cs ← cache_loop (Z.to_nat CS_CACHE_SIZE) 0 cs;
  Some (CSet (cs_cache cs) true (cs_classes cs) (cs_root cs) (cs_invert cs)).

Definition cset_invert (cs : cset) : cset :=
  CSet (cs_cache cs) false (cs_classes cs) (cs_root cs) (xorb (cs_invert cs) true).

Definition cset_addclass (malloc_ok : bool) (cs : cset) (type : wctype_t) (invert : bool) : bool * cset :=
  if malloc_ok
  then (true, CSet (cs_cache cs) false ((type, invert) :: cs_classes cs) (cs_root cs) (cs_invert cs))
  else (false, cs).

Definition cset_in (cs : cset) (ch : Z) : option (bool * cset) :=
  if (ch <? CS_CACHE_SIZE) && cs_havecache cs
  then if ch <? 0 then None else b ← cs_cache cs !! Z.to_nat ch; Some (b, cs)
  else cset_in_hard cs ch.

(** * Ranges in order *)

Definition apart (a b : csnode) : Prop := csn_max a + 1 < csn_min b.
Definition is_range (a : csnode) : Prop := csn_min a <= csn_max a.

(** Ranges, in order, that cannot be joined. *)
Definition ranges_ok (l : list csnode) : Prop := StronglySorted apart l /\ Forall is_range l.

Definition in_range (x : Z) (a : csnode) : bool := (csn_min a <=? x) && (x <=? csn_max a).
Definition member (x : Z) (l : list csnode) : bool := existsb (in_range x) l.

Lemma side_lt a ch : side a ch = Lt <-> ch < csn_min a.
Proof. unfold side, cset_rangecmp. destruct (Z.ltb_spec ch (csn_min a)), (Z.ltb_spec (csn_max a) ch); split; (done || lia). Qed.
Lemma side_gt a ch : is_range a -> side a ch = Gt <-> csn_max a < ch.
Proof.
  unfold side, cset_rangecmp, is_range. intros ?.
  destruct (Z.ltb_spec ch (csn_min a)), (Z.ltb_spec (csn_max a) ch); split; (done || lia).
Qed.
Lemma side_eq a ch : side a ch = Eq <-> in_range ch a = true.
Proof.
  unfold side, cset_rangecmp, in_range.
  destruct (Z.ltb_spec ch (csn_min a)), (Z.ltb_spec (csn_max a) ch), (Z.leb_spec (csn_min a) ch), (Z.leb_spec ch (csn_max a));
    split; (done || lia).
Qed.
Lemma rangecmp_in a ch : (cset_rangecmp a ch =? 0) = in_range ch a.
Proof.
  unfold cset_rangecmp, in_range.
  destruct (Z.ltb_spec ch (csn_min a)), (Z.ltb_spec (csn_max a) ch), (Z.leb_spec (csn_min a) ch), (Z.leb_spec ch (csn_max a));
    (done || lia).
Qed.

Lemma ranges_app l1 l2 : ranges_ok (l1 ++ l2) <->
  ranges_ok l1 /\ ranges_ok l2 /\ (forall a b, a ∈ l1 -> b ∈ l2 -> apart a b).
Proof. unfold ranges_ok. rewrite StronglySorted_app, Forall_app. naive_solver. Qed.

Lemma ranges_cons a l : ranges_ok (a :: l) <-> is_range a /\ ranges_ok l /\ (forall b, b ∈ l -> apart a b).
Proof.
  unfold ranges_ok. rewrite StronglySorted_cons, Forall_cons, (Forall_forall (apart a)). naive_solver.
Qed.

Lemma ranges_nil : ranges_ok [].
Proof. split; constructor. Qed.

(** Ranges in order are ordered around every character. *)
Lemma ranges_ordered l ch : ranges_ok l -> ordered_at side ch l.
Proof.
  intros Hok l1 a l2 ->. apply ranges_app in Hok as ([_ H1] & Hok & Hx). apply ranges_cons in Hok as (Ha & [_ H2] & Hy).
  rewrite Forall_forall in H1, H2. unfold is_range, apart in *. split; intros Hs; apply Forall_forall.
  - intros b Hb. apply side_gt; [by apply H1|]. specialize (Hx b a Hb ltac:(by left)). rewrite side_lt in Hs. lia.
  - intros b Hb. apply side_lt. specialize (Hy b Hb). rewrite side_gt in Hs by done. lia.
Qed.

(** Splaying a tree of ranges: its root, and where [ch] is. *)
Lemma splay_ranges t ch : t <> Leaf -> ranges_ok (inorder t) ->
  exists l c r, cset_splay t ch = Node l c r /\ inorder t = inorder l ++ c :: inorder r /\
    (forall a, a ∈ inorder l -> csn_max a < ch) /\ (forall a, a ∈ inorder r -> ch < csn_min a).
Proof.
  intros Ht Hok. destruct (splay_node side t ch Ht) as (l & c & r & E & Ew). exists l, c, r. split_and!; [done|done| |];
    pose proof (splay_splits side t ch Ht (ranges_ordered _ ch Hok)) as Hs; rewrite E in Hs; destruct Hs as [Hl Hr];
    rewrite Forall_forall in Hl, Hr; rewrite Ew in Hok; apply ranges_app in Hok as ([_ Hl'] & _ & _);
    rewrite Forall_forall in Hl'; intros a Ha.
  - apply side_gt; [by apply Hl'|by apply Hl].
  - apply side_lt. by apply Hr.
Qed.

Lemma split_unique {A} (l r w1 w2 : list A) a b : l ++ a :: r = w1 ++ b :: w2 -> b ∉ l -> b ∉ r ->
  l = w1 /\ a = b /\ r = w2.
Proof.
  revert w1. induction l as [|x l IH]; intros [|y w1] E Hl Hr; cbn [app] in E; injection E as E1 E2.
  - done.
  - subst. exfalso. apply Hr. apply elem_of_app. right. by left.
  - subst. exfalso. apply Hl. by left.
  - subst. destruct (IH w1 E2) as (-> & -> & ->); [|done|done]. intros Hb. apply Hl. by right.
Qed.

Lemma delete_spec t ch w1 b w2 : ranges_ok (inorder t) -> inorder t = w1 ++ b :: w2 -> in_range ch b = true ->
  exists t', cset_delete t ch = Some t' /\ inorder t' = w1 ++ w2.
Proof.
  intros Hok Ew Hb. assert (t <> Leaf) as Ht by (intros ->; by destruct w1).
  assert (csn_min b <= ch <= csn_max b) as Hin by (unfold in_range in Hb; zbool; lia).
  destruct (splay_ranges t ch Ht Hok) as (l & c & r & E & Ei & Hl & Hr). unfold cset_delete. rewrite E.
  rewrite Ei in Ew. destruct (split_unique _ _ _ _ _ _ Ew) as (<- & -> & <-).
  { intros H1%Hl. lia. } { intros H1%Hr. lia. }
  rewrite rangecmp_in, Hb. cbn [negb]. destruct l as [|ll lc lr]; [by exists r|].
  rewrite Ei in Hok. apply ranges_app in Hok as (Hokl & _ & _).
  destruct (splay_ranges (Node ll lc lr) ch ltac:(done) Hokl) as (xl & x & xr & -> & Ex & Hxl & Hxr).
  exists (Node xl x r). split; [done|]. rewrite Ex. cbn [inorder].
  assert (inorder xr = []) as ->; [|by rewrite <- app_assoc].
  destruct (inorder xr) as [|y ys] eqn:Ey; [done|]. exfalso. rewrite Ex in Hl, Hokl.
  apply ranges_app in Hokl as (_ & (_ & [_ Hy] & _)%ranges_cons & _). inversion Hy; subst.
  specialize (Hl y ltac:(apply elem_of_app; right; right; by left)). specialize (Hxr y ltac:(by left)). unfold is_range in *. lia.
Qed.

(** * Adding a character *)

Definition is_wchar (ch : Z) : Prop := 0 <= ch < 2 ^ 31 - 1.

Lemma member_app x l1 l2 : member x (l1 ++ l2) = member x l1 || member x l2.
Proof. apply existsb_app. Qed.
Lemma member_cons x a l : member x (a :: l) = in_range x a || member x l.
Proof. done. Qed.

Lemma member_out x l : (forall a, a ∈ l -> csn_max a < x \/ x < csn_min a) -> member x l = false.
Proof.
  intros Hl. apply not_true_is_false. intros (a & Ha & Hx)%existsb_exists. apply list_elem_of_In in Ha.
  specialize (Hl a Ha). unfold in_range in Hx. zbool. lia.
Qed.

Lemma member_in l a : a ∈ l -> forall x, in_range x a = true -> member x l = true.
Proof. intros Ha x Hx. apply existsb_exists. exists a. by rewrite <- list_elem_of_In. Qed.

(** The range that replaces [ch] on one side. *)
Lemma coalesce_left_spec t ch : is_wchar ch -> ranges_ok (inorder t) -> (forall a, a ∈ inorder t -> csn_max a < ch) ->
  exists t' lo, coalesce_left t ch = Some (t', lo) /\ lo <= ch /\ ranges_ok (inorder t') /\
    (forall a, a ∈ inorder t' -> csn_max a + 1 < lo) /\
    (forall x, member x (inorder t) || (x =? ch) = member x (inorder t') || (lo <=? x) && (x <=? ch)).
Proof.
  unfold is_wchar. intros Hch Hok Hlt. unfold coalesce_left.
  assert (forall x, (x =? ch) = (ch <=? x) && (x <=? ch)) as Heq
    by (intros x; destruct (Z.eqb_spec x ch), (Z.leb_spec ch x), (Z.leb_spec x ch); (done || lia)).
  destruct t as [|tl a tr]; [exists Leaf, ch; split_and!; [done|lia|apply ranges_nil|by intros ? ?%elem_of_nil|]; intros x; apply Heq|].
  rewrite s32_small by lia.
  destruct (splay_ranges (Node tl a tr) (ch - 1) ltac:(done) Hok) as (l & c & r & -> & Ei & Hl & Hr).
  rewrite Ei in *. clear Ei. pose proof Hok as (Hokl & (Hc & Hokr & Hcr)%ranges_cons & Hx)%ranges_app.
  assert (inorder r = []) as Enil.
  { destruct (inorder r) as [|y ys] eqn:Ey; [done|]. exfalso. apply ranges_cons in Hokr as (Hy & _).
    specialize (Hr y ltac:(by left)). specialize (Hlt y ltac:(apply elem_of_app; right; right; by left)). unfold is_range in *. lia. }
  assert (csn_max c < ch) as Hcc by (apply Hlt, elem_of_app; right; by left). unfold is_range in Hc.
  destruct (Z.eqb_spec (csn_max c) (ch - 1)) as [E|E].
  - destruct (delete_spec (Node l c r) (csn_min c) (inorder l) c (inorder r)) as (t' & -> & Et'); [done|done| |].
    { unfold in_range. rewrite (proj2 (Z.leb_le _ _)), (proj2 (Z.leb_le _ _)) by lia. done. }
    rewrite Enil, app_nil_r in Et'. exists t', (csn_min c). rewrite Et', Enil.
    split; [done|]. split; [lia|]. split; [done|]. split; [intros b Hb; exact (Hx b c Hb ltac:(by left))|].
    intros x. rewrite member_app, member_cons. cbn [member existsb]. rewrite orb_false_r, <- orb_assoc. f_equal.
    unfold in_range. destruct (Z.leb_spec (csn_min c) x), (Z.leb_spec x (csn_max c)), (Z.eqb_spec x ch), (Z.leb_spec x ch);
      cbn; (done || lia).
  - exists (Node l c r), ch. cbn [inorder]. split; [done|]. split; [lia|]. split; [done|]. split.
    + intros b Hb. apply elem_of_app in Hb as [Hb|Hb]; [specialize (Hl b Hb); lia|].
      rewrite Enil in Hb. apply list_elem_of_singleton in Hb as ->. lia.
    + intros x. by rewrite Heq.
Qed.

Lemma coalesce_right_spec t ch : is_wchar ch -> ranges_ok (inorder t) -> (forall a, a ∈ inorder t -> ch < csn_min a) ->
  exists t' hi, coalesce_right t ch = Some (t', hi) /\ ch <= hi /\ ranges_ok (inorder t') /\
    (forall a, a ∈ inorder t' -> hi + 1 < csn_min a) /\
    (forall x, member x (inorder t) || (x =? ch) = member x (inorder t') || (ch <=? x) && (x <=? hi)).
Proof.
  unfold is_wchar. intros Hch Hok Hgt. unfold coalesce_right.
  assert (forall x, (x =? ch) = (ch <=? x) && (x <=? ch)) as Heq
    by (intros x; destruct (Z.eqb_spec x ch), (Z.leb_spec ch x), (Z.leb_spec x ch); (done || lia)).
  destruct t as [|tl a tr]; [exists Leaf, ch; split_and!; [done|lia|apply ranges_nil|by intros ? ?%elem_of_nil|]; intros x; apply Heq|].
  rewrite s32_small by lia.
  destruct (splay_ranges (Node tl a tr) (ch + 1) ltac:(done) Hok) as (l & c & r & -> & Ei & Hl & Hr).
  rewrite Ei in *. clear Ei. pose proof Hok as (Hokl & (Hc & Hokr & Hcr)%ranges_cons & Hx)%ranges_app.
  assert (inorder l = []) as Enil.
  { destruct (inorder l) as [|y ys] eqn:Ey; [done|]. exfalso. apply ranges_cons in Hokl as (Hy & _).
    specialize (Hl y ltac:(by left)). specialize (Hgt y ltac:(by left)). unfold is_range in *. lia. }
  assert (ch < csn_min c) as Hcc by (apply Hgt, elem_of_app; right; by left). unfold is_range in Hc.
  destruct (Z.eqb_spec (csn_min c) (ch + 1)) as [E|E].
  - destruct (delete_spec (Node l c r) (csn_min c) (inorder l) c (inorder r)) as (t' & -> & Et'); [done|done| |].
    { unfold in_range. rewrite (proj2 (Z.leb_le _ _)), (proj2 (Z.leb_le _ _)) by lia. done. }
    rewrite Enil in Et'. exists t', (csn_max c). rewrite Et', Enil. cbn [app].
    split; [done|]. split; [lia|]. split; [done|]. split; [exact Hcr|].
    intros x. rewrite member_cons, (orb_comm (in_range x c)), <- orb_assoc. f_equal.
    unfold in_range. destruct (Z.leb_spec (csn_min c) x), (Z.leb_spec x (csn_max c)), (Z.eqb_spec x ch), (Z.leb_spec ch x);
      cbn; (done || lia).
  - exists (Node l c r), ch. cbn [inorder]. split; [done|]. split; [lia|]. split; [done|]. split.
    + intros b Hb. rewrite Enil in Hb. cbn [app] in Hb. apply elem_of_cons in Hb as [->|Hb]; [lia|]. specialize (Hr b Hb). lia.
    + intros x. by rewrite Heq.
Qed.

(** The new root between its coalesced neighbours. *)
Lemma add_root nl nr ch : is_wchar ch -> ranges_ok (inorder nl) -> ranges_ok (inorder nr) ->
  (forall a, a ∈ inorder nl -> csn_max a < ch) -> (forall a, a ∈ inorder nr -> ch < csn_min a) ->
  exists l lo r hi, coalesce_left nl ch = Some (l, lo) /\ coalesce_right nr ch = Some (r, hi) /\
    let t := Node l (CsNode lo hi) r in
    ranges_ok (inorder t) /\
    forall x, member x (inorder t) = (member x (inorder nl) || member x (inorder nr)) || (x =? ch).
Proof.
  intros Hch Hl Hr Hlt Hgt. destruct (coalesce_left_spec nl ch Hch Hl Hlt) as (l & lo & -> & Hlo & Hokl & Hal & Hml).
  destruct (coalesce_right_spec nr ch Hch Hr Hgt) as (r & hi & -> & Hhi & Hokr & Har & Hmr).
  exists l, lo, r, hi. split; [done|]. split; [done|]. cbn [inorder]. split.
  - apply ranges_app. split; [done|]. split; [apply ranges_cons; split; [unfold is_range; cbn; lia|by split]|].
    intros a b Ha Hb. specialize (Hal a Ha). unfold apart. apply elem_of_cons in Hb as [->|Hb]; [done|].
    specialize (Har b Hb). lia.
  - intros x. rewrite member_app, member_cons. specialize (Hml x). specialize (Hmr x). unfold in_range. cbn [csn_min csn_max].
    destruct (member x (inorder nl)), (member x (inorder nr)), (member x (inorder l)), (member x (inorder r)),
      (Z.eqb_spec x ch), (Z.leb_spec lo x), (Z.leb_spec x ch), (Z.leb_spec ch x), (Z.leb_spec x hi); cbn in *; (done || lia).
Qed.

Lemma in_range_point x ch : in_range x (CsNode ch ch) = (x =? ch).
Proof. unfold in_range. cbn. destruct (Z.leb_spec ch x), (Z.leb_spec x ch), (Z.eqb_spec x ch); (done || lia). Qed.

(** Adding a character: the set is the old one, and the character unless memory is
    needed and there is none. *)
Lemma cset_add_spec malloc_ok cs ch : is_wchar ch -> ranges_ok (inorder (cs_root cs)) ->
  exists t, let added := malloc_ok || member ch (inorder (cs_root cs)) in
    cset_add malloc_ok cs ch = Some (added, with_root (no_cache cs) t) /\ ranges_ok (inorder t) /\
    forall x, member x (inorder t) = member x (inorder (cs_root cs)) || (added && (x =? ch)).
Proof.
  intros Hch Hok. unfold cset_add. cbn [no_cache cs_root]. destruct (cs_root cs) as [|tl a tr] eqn:Er.
  { destruct malloc_ok; [exists (Node Leaf (CsNode ch ch) Leaf)|exists Leaf]; cbn [inorder app member existsb orb].
    - split; [done|]. split; [apply ranges_cons; split; [unfold is_range; cbn; lia|split; [apply ranges_nil|by intros ? ?%elem_of_nil]]|].
      intros x. rewrite in_range_point. by rewrite orb_false_r.
    - split; [by destruct cs; cbn in *; subst|]. split; [apply ranges_nil|done]. }
  destruct (splay_ranges (Node tl a tr) ch ltac:(done) Hok) as (l & c & r & -> & Ei & Hl & Hr).
  rewrite Ei in *. clear Ei. rewrite rangecmp_in. pose proof Hok as (Hokl & (Hc & Hokr & Hcr)%ranges_cons & Hx)%ranges_app.
  destruct (in_range ch c) eqn:Ec.
  { exists (Node l c r). assert (member ch (inorder l ++ c :: inorder r) = true) as Hm.
    { rewrite member_app, member_cons, Ec. apply orb_true_r. }
    rewrite Hm, orb_true_r. split; [done|]. split; [done|]. intros x. cbn [inorder andb].
    destruct (Z.eqb_spec x ch) as [->|]; [by rewrite Hm|by rewrite orb_false_r]. }
  assert (member ch (inorder l ++ c :: inorder r) = false) as Hm.
  { rewrite member_app, member_cons, Ec. cbn [orb]. apply orb_false_iff.
    split; apply member_out; intros b Hb; [left; by apply Hl|right; by apply Hr]. }
  rewrite Hm, orb_false_r. destruct malloc_ok; cbn [negb].
  2: { exists (Node l c r). split; [done|]. split; [done|]. intros x. by rewrite orb_false_r. }
  cbn [andb]. unfold is_range in Hc.
  assert (exists nl nr, (if cset_rangecmp c ch <? 0 then (l, Node Leaf c r) else (Node l c Leaf, r)) = (nl, nr) /\
    ranges_ok (inorder nl) /\ ranges_ok (inorder nr) /\ (forall b, b ∈ inorder nl -> csn_max b < ch) /\
    (forall b, b ∈ inorder nr -> ch < csn_min b) /\ inorder nl ++ inorder nr = inorder l ++ c :: inorder r)
    as (nl & nr & -> & Hnl & Hnr & Hlt & Hgt & Eapp).
  { unfold cset_rangecmp, in_range in *. destruct (Z.ltb_spec ch (csn_min c)) as [H1|H1].
    - exists l, (Node Leaf c r). cbn [Z.ltb Z.compare inorder app]. split; [done|]. split; [done|].
      split; [by apply ranges_cons|]. split; [exact Hl|]. split; [|done].
      intros b [->|Hb]%elem_of_cons; [done|by apply Hr].
    - destruct (Z.ltb_spec (csn_max c) ch) as [H2|H2].
      2: { rewrite (proj2 (Z.leb_le _ _)), (proj2 (Z.leb_le _ _)) in Ec by lia. done. }
      exists (Node l c Leaf), r. cbn [Z.ltb Z.compare inorder]. split; [done|].
      split; [apply ranges_app; split; [done|]; split; [apply ranges_cons; split; [done|]; split; [apply ranges_nil|by intros ? ?%elem_of_nil]|]|].
      { intros a' b Ha' ->%list_elem_of_singleton. apply Hx; [done|by left]. }
      split; [done|]. split; [|split; [exact Hr|by rewrite <- app_assoc]].
      intros b [Hb|Hb]%elem_of_app; [by apply Hl|]. by apply list_elem_of_singleton in Hb as ->. }
  destruct (add_root nl nr ch Hch Hnl Hnr Hlt Hgt) as (l' & lo & r' & hi & -> & -> & Hok' & Hm').
  exists (Node l' (CsNode lo hi) r'). split; [done|]. split; [done|]. intros x. rewrite Hm', <- Eapp. by rewrite member_app.
Qed.

(** * A set of characters as a finite set *)

Record charset := Charset { chars : gset Z; classes : list (wctype_t * bool); inverted : bool }.

Definition contains (s : charset) (x : Z) : bool :=
  xorb (inverted s) (existsb (fun c => in_class c x) (classes s) || bool_decide (x ∈ chars s)).

(** The tree, the classes and the inversion; and the cache when it is valid. *)
Record stands (cs : cset) (s : charset) : Prop := {
  stands_ok : ranges_ok (inorder (cs_root cs));
  stands_member x : member x (inorder (cs_root cs)) = bool_decide (x ∈ chars s);
  stands_classes : cs_classes cs = classes s;
  stands_invert : cs_invert cs = inverted s;
  stands_length : length (cs_cache cs) = Z.to_nat CS_CACHE_SIZE
}.
Definition cached (cs : cset) (s : charset) : Prop :=
  forall i, 0 <= i < CS_CACHE_SIZE -> cs_cache cs !! Z.to_nat i = Some (contains s i).
Definition represents (cs : cset) (s : charset) : Prop := stands cs s /\ (cs_havecache cs = true -> cached cs s).

Lemma cset_alloc_represents memory : length memory = Z.to_nat CS_CACHE_SIZE -> represents (cset_alloc memory) (Charset ∅ [] false).
Proof.
  intros Hl. split; [|done]. split; [apply ranges_nil| |done|done|done].
  intros x. symmetry. by apply bool_decide_eq_false, not_elem_of_empty.
Qed.

Lemma cset_stands_root cs s t : stands cs s -> inorder t = inorder (cs_root cs) -> stands (with_root cs t) s.
Proof. intros [Hok Hm Hc Hi Hl] E. split; cbn; rewrite ?E; done. Qed.

(** Looking a character up changes the tree only. *)
Lemma in_hard_spec cs s ch : stands cs s ->
  exists t, cset_in_hard cs ch = Some (contains s ch, with_root cs t) /\ inorder t = inorder (cs_root cs).
Proof.
  intros [Hok Hm Hc Hi _]. unfold cset_in_hard, contains. rewrite Hc, Hi.
  destruct (existsb _ (classes s)) eqn:Ex; cbn [orb]; [exists (cs_root cs); by destruct cs|]. rewrite <- Hm.
  destruct (cs_root cs) as [|tl a tr] eqn:Er; [exists Leaf; split; [|done]; by destruct cs; cbn in *; subst|].
  destruct (splay_ranges (Node tl a tr) ch ltac:(done) Hok) as (l & c & r & E & Ei & Hl & Hr).
  exists (cset_splay (Node tl a tr) ch). split; [|apply splay_inorder]. cbn [with_root cs_root cs_invert]. rewrite E. rewrite rangecmp_in.
  cbn [cs_invert]. rewrite Ei, member_app, member_cons, Hi.
  rewrite (member_out ch (inorder l)), (member_out ch (inorder r)) by (intros b Hb; (left; by apply Hl) || (right; by apply Hr)).
  by rewrite orb_false_r.
Qed.

Lemma cset_cache_loop_spec s n : forall cs i, stands cs s -> 0 <= i ->
  i + Z.of_nat n = CS_CACHE_SIZE -> (forall j, 0 <= j < i -> cs_cache cs !! Z.to_nat j = Some (contains s j)) ->
  exists cs', cache_loop n i cs = Some cs' /\ stands cs' s /\ cached cs' s.
Proof.
  induction n as [|n IH]; intros cs i Hst Hi Hn Hdone; cbn [cache_loop].
  { exists cs. split_and!; [done|done|]. intros j Hj. apply Hdone. lia. }
  destruct (in_hard_spec cs s i Hst) as (t & -> & Et). cbn [mbind option_bind].
  destruct (cset_stands_root cs s t Hst Et) as [Hok Hm Hc Hv Hl]. unfold set_cache.
  rewrite awrite_Some by (rewrite Hl; lia). cbn [mbind option_bind].
  apply IH; [|lia|lia|].
  - split; [exact Hok|exact Hm|exact Hc|exact Hv|]. cbn [cs_cache]. by rewrite length_insert.
  - intros j Hj. cbn [cs_cache]. destruct (decide (j = i)) as [->|Hne].
    + rewrite list_lookup_insert_eq; [done|]. rewrite Hl. lia.
    + rewrite list_lookup_insert_ne by lia. apply Hdone. lia.
Qed.

Lemma cset_in_spec cs s ch : represents cs s -> 0 <= ch ->
  exists cs', cset_in cs ch = Some (contains s ch, cs') /\ represents cs' s.
Proof.
  intros [Hst Hca] Hch. unfold cset_in. destruct (Z.ltb_spec ch CS_CACHE_SIZE) as [Hlt|]; cbn [andb].
  - destruct (cs_havecache cs) eqn:Eh.
    + rewrite (proj2 (Z.ltb_ge _ _)) by done. rewrite (Hca eq_refl ch (conj Hch Hlt)). exists cs. split; [done|]. split; [done|]. intros _. by apply Hca.
    + destruct (in_hard_spec cs s ch Hst) as (t & -> & Et). eexists. split; [done|]. split; [by apply cset_stands_root|].
      cbn. by rewrite Eh.
  - destruct (in_hard_spec cs s ch Hst) as (t & -> & Et). eexists. split; [done|]. split; [by apply cset_stands_root|exact Hca].
Qed.

Lemma cset_cache_spec cs s : represents cs s -> exists cs', cset_cache cs = Some cs' /\ represents cs' s.
Proof.
  intros [Hst _]. destruct (cset_cache_loop_spec s (Z.to_nat CS_CACHE_SIZE) cs 0 Hst) as (cs' & E & [Hok Hm Hc Hv Hl] & Hca);
    [lia|reflexivity|lia|]. unfold cset_cache. rewrite E. eexists. split; [done|]. split; [by split|]. intros _. exact Hca.
Qed.

Inductive cset_op := Add (malloc_ok : bool) (ch : Z) | AddClass (malloc_ok : bool) (type : wctype_t) (invert : bool)
  | Invert | Cache | In (ch : Z).

Definition run_op (cs : cset) (o : cset_op) : option (bool * cset) :=
  match o with
  | Add ok ch => cset_add ok cs ch
  | AddClass ok type invert => Some (cset_addclass ok cs type invert)
  | Invert => Some (true, cset_invert cs)
  | Cache => cs ← cset_cache cs; Some (true, cs)
  | In ch => cset_in cs ch
  end.

Definition set_op (s : charset) (o : cset_op) : bool * charset :=
  match o with
  | Add ok ch => if ok || bool_decide (ch ∈ chars s) then (true, Charset ({[ch]} ∪ chars s) (classes s) (inverted s)) else (false, s)
  | AddClass ok type invert => if ok then (true, Charset (chars s) ((type, invert) :: classes s) (inverted s)) else (false, s)
  | Invert => (true, Charset (chars s) (classes s) (negb (inverted s)))
  | Cache => (true, s)
  | In ch => (contains s ch, s)
  end.

Definition op_ok (o : cset_op) : Prop :=
  match o with Add _ ch => is_wchar ch | In ch => 0 <= ch | _ => True end.

Fixpoint run_ops (cs : cset) (os : list cset_op) : option (list bool * cset) :=
  match os with
  | [] => Some ([], cs)
  | o :: os => '(b, cs) ← run_op cs o; '(bs, cs) ← run_ops cs os; Some (b :: bs, cs)
  end.
Fixpoint set_ops (s : charset) (os : list cset_op) : list bool * charset :=
  match os with
  | [] => ([], s)
  | o :: os => let '(b, s) := set_op s o in let '(bs, s) := set_ops s os in (b :: bs, s)
  end.

Lemma cset_run_op_spec cs s o : represents cs s -> op_ok o ->
  exists cs', run_op cs o = Some ((set_op s o).1, cs') /\ represents cs' (set_op s o).2.
Proof.
  intros Hrep Hop. pose proof Hrep as [[Hok Hm Hc Hv Hl] _]. destruct o as [ok ch|ok type inv| | |ch]; cbn [run_op set_op].
  - destruct (cset_add_spec ok cs ch Hop Hok) as (t & -> & Hok' & Hm'). rewrite Hm in Hm' |- *.
    destruct (ok || bool_decide (ch ∈ chars s)); cbn [fst snd]; eexists; (split; [done|]); (split; [|done]);
      (split; [exact Hok'| |exact Hc|exact Hv|exact Hl]); intros x; cbn [with_root cs_root]; rewrite Hm', Hm; cbn [andb chars].
    + apply eq_true_iff_eq. rewrite orb_true_iff, !bool_decide_eq_true, Z.eqb_eq. set_solver.
    + by rewrite orb_false_r.
  - unfold cset_addclass. destruct ok; eexists; (split; [done|]); [|exact Hrep].
    split; [|done]. split; [exact Hok|exact Hm|cbn; by rewrite Hc|exact Hv|exact Hl].
  - eexists. split; [done|]. split; [|done]. split; [exact Hok|exact Hm|exact Hc| |exact Hl].
    cbn. rewrite Hv. by destruct (inverted s).
  - destruct (cset_cache_spec cs s Hrep) as (cs' & -> & Hrep'). by exists cs'.
  - destruct (cset_in_spec cs s ch Hrep Hop) as (cs' & -> & Hrep'). by exists cs'.
Qed.

Lemma cset_run_ops_spec os : forall cs s, represents cs s -> Forall op_ok os ->
  exists cs', run_ops cs os = Some ((set_ops s os).1, cs') /\ represents cs' (set_ops s os).2.
Proof.
  induction os as [|o os IH]; intros cs s Hrep Hops; [by exists cs|]. apply Forall_cons in Hops as [Ho Hos]. cbn [run_ops set_ops].
  destruct (cset_run_op_spec cs s o Hrep Ho) as (cs1 & -> & Hrep1). cbn [mbind option_bind]. destruct (set_op s o) as [b s1].
  destruct (IH cs1 s1 Hrep1 Hos) as (cs2 & -> & Hrep2). cbn [mbind option_bind]. destruct (set_ops s1 os) as [bs s2].
  by exists cs2.
Qed.

(** C18. A character set of tr answers every sequence of additions, inversions and
    lookups, with the cache filled at any time and memory failing at any time,
    like a finite set of characters; its tree always holds the fewest ranges, in
    order, and no assertion fails. *)
Theorem cset_refines_set memory os : length memory = Z.to_nat CS_CACHE_SIZE -> Forall op_ok os ->
  exists cs, run_ops (cset_alloc memory) os = Some ((set_ops (Charset ∅ [] false) os).1, cs) /\
    ranges_ok (inorder (cs_root cs)) /\
    forall x, member x (inorder (cs_root cs)) = bool_decide (x ∈ chars (set_ops (Charset ∅ [] false) os).2).
Proof.
  intros Hl Hos. destruct (cset_run_ops_spec os _ _ (cset_alloc_represents memory Hl) Hos) as (cs & E & [Hst _]).
  exists cs. split; [exact E|]. by destruct Hst.
Qed.

End Cset.

(** Upper and lower case letters as classes. *)
Definition letters : Wctypes := {| wctype_t := bool; iswctype ch upper := if upper : bool then (65 <=? ch) && (ch <=? 90) else (97 <=? ch) && (ch <=? 122) |}.

Lemma cset_refines_set_witness :
  let os := [Add true 99; Add true 97; Add true 300; In 98; Add true 98; In 98; Cache; In 98; Add false 120; Add false 98;
             AddClass (H := letters) true (true : @wctype_t letters) false; Invert; In 66; In 98; In 300; In 301] in
  exists cs, run_ops (H := letters) (cset_alloc (repeat true 256)) os =
    Some ([true; true; true; false; true; true; true; true; false; true; true; true; false; false; false; true], cs) /\
    ranges_ok (inorder (cs_root cs)).
Proof.
  set (os := [Add true 99; Add true 97; Add true 300; In 98; Add true 98; In 98; Cache; In 98; Add false 120; Add false 98;
             AddClass (H := letters) true (true : @wctype_t letters) false; Invert; In 66; In 98; In 300; In 301]).
  destruct (cset_refines_set (H := letters) (repeat true 256) os) as (cs & E & Hok & _).
  - reflexivity.
  - repeat (apply Forall_cons; split; [first [exact I | vm_compute; split; [discriminate|reflexivity] | vm_compute; discriminate]|]). apply Forall_nil. exact I.
  - exists cs. split; [|exact Hok]. rewrite E. f_equal.
Defined.
