(* ===== verification/TrMap.v ===== *)
(** The character maps of tr (src.freebsd/coreutils/tr/cmap.c, cmap.h): single
    characters in a splay tree, a default, the least and the greatest character,
    and a cache of the first characters.  [malloc] may fail; an access out of the
    cache is [None]. *)

From Stdlib Require Import Sorted.
From stdpp Require Import gmap sorting.
From S2P Require Import Prelude Splay.

Record cmapnode := CmNode { cmn_from : Z; cmn_to : Z }.

Record cmap := CMap {
  cm_cache : list Z;
  cm_havecache : bool;
  cm_root : tree cmapnode;
  cm_def : Z;
  cm_min : Z;
  cm_max : Z
}.

Definition CM_CACHE_SIZE : Z := 128.
Definition CM_DEF_SELF : Z := 2 ^ 32 - 2.

(** The cache of a fresh map has the contents of the memory. *)
Definition cmap_alloc (memory : list Z) : cmap := CMap memory false Leaf CM_DEF_SELF 0 0.

Definition with_root (cm : cmap) (t : tree cmapnode) : cmap :=
  CMap (cm_cache cm) (cm_havecache cm) t (cm_def cm) (cm_min cm) (cm_max cm).
Definition no_cache (cm : cmap) : cmap :=
  CMap (cm_cache cm) false (cm_root cm) (cm_def cm) (cm_min cm) (cm_max cm).

Definition side (n : cmapnode) (ch : Z) : comparison := ch ?= cmn_from n.
Definition cmap_splay (t : tree cmapnode) (ch : Z) : tree cmapnode := splay side t ch.

Definition cmap_add (malloc_ok : bool) (cm : cmap) (from to : Z) : option (bool * cmap) :=
  let cm := no_cache cm in
  match cm_root cm with
  | Leaf =>
    if malloc_ok
    then Some (true, CMap (cm_cache cm) (cm_havecache cm) (Node Leaf (CmNode from to) Leaf) (cm_def cm) from from)
    else Some (false, cm)
  | Node _ _ _ =>
    match cmap_splay (cm_root cm) from with
    | Leaf => None
    | Node l cmn r =>
      if cmn_from cmn =? from then Some (true, with_root cm (Node l (CmNode (cmn_from cmn) to) r))
      else if negb malloc_ok then Some (false, with_root cm (Node l cmn r))
      else
        let root := if from <? cmn_from cmn
                    then Node l (CmNode from to) (Node Leaf cmn r)
                    else Node (Node l cmn Leaf) (CmNode from to) r in
        let min := if from <? cm_min cm then from else cm_min cm in
        let max := if cm_max cm <? from then from else cm_max cm in
        Some (true, CMap (cm_cache cm) (cm_havecache cm) root (cm_def cm) min max)
    end
  end.

Definition cmap_lookup_hard (cm : cmap) (ch : Z) : option (Z * cmap) :=
  let other := if cm_def cm =? CM_DEF_SELF then ch else cm_def cm in
  match cm_root cm with
  | Leaf => Some (other, cm)
  | Node _ _ _ =>
    let cm := with_root cm (cmap_splay (cm_root cm) ch) in
    match cm_root cm with
    | Leaf => None
    | Node _ c _ => Some (if cmn_from c =? ch then cmn_to c else other, cm)
    end
  end.

Fixpoint cache_loop (n : nat) (ch : Z) (cm : cmap) : option cmap :=
  match n with
  | O => Some cm
  | S n =>
    '(to, cm) ← cmap_lookup_hard cm ch;
    c ← awrite (cm_cache cm) (Z.to_nat ch) to;
    cache_loop n (ch + 1) (CMap c (cm_havecache cm) (cm_root cm) (cm_def cm) (cm_min cm) (cm_max cm))
  end.

Definition cmap_cache (cm : cmap) : option cmap :=
  cm ← cache_loop (Z.to_nat CM_CACHE_SIZE) 0 cm;
  Some (CMap (cm_cache cm) true (cm_root cm) (cm_def cm) (cm_min cm) (cm_max cm)).

Definition cmap_default (cm : cmap) (def : Z) : Z * cmap :=
  (cm_def cm, CMap (cm_cache cm) false (cm_root cm) def (cm_min cm) (cm_max cm)).

Definition cmap_lookup (cm : cmap) (from : Z) : option (Z * cmap) :=
  if (from <? CM_CACHE_SIZE) && cm_havecache cm
  then if from <? 0 then None else to ← cm_cache cm !! Z.to_nat from; Some (to, cm)
  else cmap_lookup_hard cm from.

(** * Nodes in order *)

Definition below (a b : cmapnode) : Prop := cmn_from a < cmn_from b.
Definition keys_ok (l : list cmapnode) : Prop := StronglySorted below l.

Lemma keys_app l1 l2 : keys_ok (l1 ++ l2) <-> keys_ok l1 /\ keys_ok l2 /\ (forall a b, a ∈ l1 -> b ∈ l2 -> below a b).
Proof. unfold keys_ok. rewrite StronglySorted_app. naive_solver. Qed.
Lemma keys_cons a l : keys_ok (a :: l) <-> keys_ok l /\ (forall b, b ∈ l -> below a b).
Proof. unfold keys_ok. rewrite StronglySorted_cons, Forall_forall. naive_solver. Qed.

Lemma keys_ordered l ch : keys_ok l -> ordered_at side ch l.
Proof.
  intros Hok l1 a l2 ->. apply keys_app in Hok as (_ & [_ Hy]%keys_cons & Hx). unfold side, below in *.
  split; intros Hs; apply Forall_forall; intros b Hb.
  - specialize (Hx b a Hb ltac:(by left)). apply Z.compare_gt_iff. destruct (Z.compare_spec ch (cmn_from a)); (done || lia).
  - specialize (Hy b Hb). apply Z.compare_lt_iff. destruct (Z.compare_spec ch (cmn_from a)); (done || lia).
Qed.

Lemma splay_keys t ch : t <> Leaf -> keys_ok (inorder t) ->
  exists l c r, cmap_splay t ch = Node l c r /\ inorder t = inorder l ++ c :: inorder r /\
    (forall a, a ∈ inorder l -> cmn_from a < ch) /\ (forall a, a ∈ inorder r -> ch < cmn_from a).
Proof.
  intros Ht Hok. destruct (splay_node side t ch Ht) as (l & c & r & E & Ew). exists l, c, r. split; [done|split; [done|]].
  pose proof (splay_splits side t ch Ht (keys_ordered _ ch Hok)) as Hs. rewrite E in Hs. destruct Hs as [Hl Hr].
  rewrite Forall_forall in Hl, Hr. unfold side in *. split; intros a Ha.
  - specialize (Hl a Ha). cbn in Hl. by apply Z.compare_gt_iff in Hl.
  - specialize (Hr a Ha). cbn in Hr. by apply Z.compare_lt_iff in Hr.
Qed.

(** The map that a list of nodes stands for. *)
Definition holds (l : list cmapnode) (m : gmap Z Z) : Prop := forall x v, CmNode x v ∈ l <-> m !! x = Some v.

Lemma holds_split l c r m : keys_ok (l ++ c :: r) -> holds (l ++ c :: r) m ->
  m !! cmn_from c = Some (cmn_to c) /\
  forall x, x <> cmn_from c -> (forall a, a ∈ l -> cmn_from a < x) -> (forall a, a ∈ r -> x < cmn_from a) -> m !! x = None.
Proof.
  intros Hok Hm. split; [apply Hm; destruct c; apply elem_of_app; right; by left|].
  intros x Hx Hl Hr. destruct (m !! x) as [v|] eqn:E; [|done]. apply Hm in E. apply elem_of_app in E as [E|E].
  - specialize (Hl _ E). cbn in Hl. lia.
  - apply elem_of_cons in E as [<-|E]; [done|]. specialize (Hr _ E). cbn in Hr. lia.
Qed.

Lemma holds_insert old w1 w2 from to m : holds old m -> (forall a, a ∈ w1 -> cmn_from a < from) ->
  (forall a, a ∈ w2 -> from < cmn_from a) ->
  (forall a, cmn_from a <> from -> a ∈ old <-> a ∈ w1 ++ w2) -> holds (w1 ++ CmNode from to :: w2) (<[from := to]> m).
Proof.
  intros Hm H1 H2 Hold x v. rewrite elem_of_app, elem_of_cons. destruct (decide (x = from)) as [->|Hne].
  - rewrite lookup_insert_eq. split.
    + intros [H|[[= ->]|H]]; [specialize (H1 _ H)|done|specialize (H2 _ H)]; cbn in *; lia.
    + intros [= ->]. right. by left.
  - rewrite lookup_insert_ne by done. rewrite <- (Hm x v), (Hold (CmNode x v) Hne), elem_of_app. naive_solver.
Qed.

Lemma keys_insert w1 w2 from to : keys_ok w1 -> keys_ok w2 -> (forall a, a ∈ w1 -> cmn_from a < from) ->
  (forall a, a ∈ w2 -> from < cmn_from a) -> keys_ok (w1 ++ CmNode from to :: w2).
Proof.
  intros Hk1 Hk2 H1 H2. apply keys_app. split; [done|]. split; [apply keys_cons; split; [done|exact H2]|].
  intros a b Ha Hb. specialize (H1 a Ha). unfold below. apply elem_of_cons in Hb as [->|Hb]; [done|]. specialize (H2 b Hb). lia.
Qed.

(** * A map of characters as a finite map *)

Record charmap := Charmap { entries : gmap Z Z; default_to : Z }.

Definition value (m : charmap) (ch : Z) : Z :=
  match entries m !! ch with
  | Some to => to
  | None => if default_to m =? CM_DEF_SELF then ch else default_to m
  end.

Record stands (cm : cmap) (m : charmap) : Prop := {
  stands_ok : keys_ok (inorder (cm_root cm));
  stands_holds : holds (inorder (cm_root cm)) (entries m);
  stands_def : cm_def cm = default_to m;
  stands_length : length (cm_cache cm) = Z.to_nat CM_CACHE_SIZE;
  stands_bounds x : is_Some (entries m !! x) -> cm_min cm <= x <= cm_max cm;
  stands_max : entries m <> ∅ -> is_Some (entries m !! cm_max cm)
}.
Definition cached (cm : cmap) (m : charmap) : Prop :=
  forall i, 0 <= i < CM_CACHE_SIZE -> cm_cache cm !! Z.to_nat i = Some (value m i).
Definition represents (cm : cmap) (m : charmap) : Prop := stands cm m /\ (cm_havecache cm = true -> cached cm m).

Lemma cmap_alloc_represents memory : length memory = Z.to_nat CM_CACHE_SIZE ->
  represents (cmap_alloc memory) (Charmap ∅ CM_DEF_SELF).
Proof.
  intros Hl. split; [|done]. split; [constructor| |done|done| |done].
  - intros x v. cbn. rewrite lookup_empty. split; [by intros ?%elem_of_nil|done].
  - intros x. cbn. rewrite lookup_empty. by intros [? ?].
Qed.

Lemma holds_leaf m : holds [] m -> m = ∅.
Proof. intros H. apply map_eq. intros x. rewrite lookup_empty. destruct (m !! x) eqn:E; [|done]. apply H in E. by apply elem_of_nil in E. Qed.

Lemma insert_bounds (m : gmap Z Z) lo hi from to x : (forall x, is_Some (m !! x) -> lo <= x <= hi) ->
  is_Some (<[from := to]> m !! x) -> (if from <? lo then from else lo) <= x <= (if hi <? from then from else hi).
Proof.
  intros Hb. destruct (Z.ltb_spec from lo), (Z.ltb_spec hi from); destruct (decide (x = from)) as [->|Hne];
    rewrite ?lookup_insert_ne by done; intros Hx; try (specialize (Hb x Hx)); lia.
Qed.

Lemma cmap_add_spec malloc_ok cm m from to : represents cm m ->
  exists cm', let added := malloc_ok || bool_decide (is_Some (entries m !! from)) in
    cmap_add malloc_ok cm from to = Some (added, cm') /\
    represents cm' (if added then Charmap (<[from := to]> (entries m)) (default_to m) else m).
Proof.
  intros [[Hok Hm Hd Hl Hb Hx] _]. unfold cmap_add. cbn [no_cache cm_root]. destruct (cm_root cm) as [|tl a tr] eqn:Er.
  { pose proof (holds_leaf _ Hm) as E0. rewrite E0, lookup_empty, (bool_decide_eq_false_2 (is_Some None)), orb_false_r by (by intros [? ?]).
    destruct malloc_ok; eexists; (split; [done|]); (split; [|done]).
    - split; cbn; [repeat constructor| |done|done| |].
      + rewrite <- E0. apply (holds_insert [] [] []); [done|by intros ? ?%elem_of_nil|by intros ? ?%elem_of_nil|done].
      + intros x. destruct (decide (x = from)) as [->|]; [lia|]. rewrite lookup_insert_ne, lookup_empty by done. by intros [? ?].
      + intros _. rewrite lookup_insert_eq. by eexists.
    - split; cbn; rewrite ?Er; [done|done|done|done|exact Hb|exact Hx]. }
  destruct (splay_keys (Node tl a tr) from ltac:(done) Hok) as (l & c & r & -> & Ei & H1 & H2).
  rewrite Ei in *. clear Ei. pose proof Hok as (Hk1 & [Hk2 Hcr]%keys_cons & Hlc)%keys_app.
  destruct (holds_split _ _ _ _ Hok Hm) as [Hc Hnone]. destruct (Z.eqb_spec (cmn_from c) from) as [<-|Hne].
  { rewrite Hc, (bool_decide_eq_true_2 (is_Some _)), orb_true_r by (by eexists). eexists. split; [done|]. split; [|done].
    split; cbn; [by apply keys_insert| |done|done| |].
    - apply (holds_insert (inorder l ++ c :: inorder r)); [done|done|done|]. intros b Hb'. rewrite !elem_of_app, elem_of_cons. naive_solver.
    - intros x Hx'. apply Hb. destruct (decide (x = cmn_from c)) as [->|]; [by eexists|]. by rewrite lookup_insert_ne in Hx'.
    - intros _. destruct (decide (cm_max cm = cmn_from c)) as [->|]; [rewrite lookup_insert_eq; by eexists|].
      rewrite lookup_insert_ne by done. apply Hx. intros E. by rewrite E, lookup_empty in Hc. }
  rewrite (Hnone from), (bool_decide_eq_false_2 (is_Some None)), orb_false_r by (done || by intros [? ?]).
  destruct malloc_ok; cbn [negb]; eexists; (split; [done|]); (split; [|done]).
  2: { split; cbn; [done|done|done|done|exact Hb|exact Hx]. }
  set (root := if from <? cmn_from c then _ else _).
  assert (exists w1 w2, inorder root = w1 ++ CmNode from to :: w2 /\ w1 ++ w2 = inorder l ++ c :: inorder r /\
    keys_ok w1 /\ keys_ok w2 /\ (forall a, a ∈ w1 -> cmn_from a < from) /\ (forall a, a ∈ w2 -> from < cmn_from a))
    as (w1 & w2 & Ew & Eold & Hw1 & Hw2 & Hlt & Hgt).
  { unfold root. destruct (Z.ltb_spec from (cmn_from c)) as [Hlt|Hge].
    - exists (inorder l), (c :: inorder r). split; [done|]. split; [done|]. split; [done|]. split; [by apply keys_cons|]. split; [done|].
      intros b [->|Hb']%elem_of_cons; [done|by apply H2].
    - exists (inorder l ++ [c]), (inorder r). split; [cbn [inorder]; by rewrite <- app_assoc|]. split; [by rewrite <- app_assoc|].
      split; [|split; [done|split; [|done]]].
      + apply keys_app. split; [done|]. split; [repeat constructor|]. intros a' b Ha' ->%list_elem_of_singleton. apply Hlc; [done|by left].
      + intros b [Hb'|Hb']%elem_of_app; [by apply H1|]. apply list_elem_of_singleton in Hb' as ->. lia. }
  split; cbn [cm_root entries default_to cm_def cm_cache cm_min cm_max with_root no_cache]; rewrite ?Ew.
  - by apply keys_insert.
  - apply (holds_insert (inorder l ++ c :: inorder r)); [done|done|done|]. intros b _. by rewrite Eold.
  - done.
  - done.
  - intros x. by apply insert_bounds.
  - intros _. destruct (Z.ltb_spec (cm_max cm) from); [rewrite lookup_insert_eq; by eexists|].
    destruct (decide (cm_max cm = from)) as [->|]; [rewrite lookup_insert_eq; by eexists|].
    rewrite lookup_insert_ne by done. apply Hx. intros E. by rewrite E, lookup_empty in Hc.
Qed.

Lemma cmap_stands_root cm m t : stands cm m -> inorder t = inorder (cm_root cm) -> stands (with_root cm t) m.
Proof. intros [Hok Hm Hd Hl Hb Hx] E. split; cbn; rewrite ?E; done. Qed.

(** Looking a character up changes the tree only. *)
Lemma lookup_hard_spec cm m ch : stands cm m ->
  exists t, cmap_lookup_hard cm ch = Some (value m ch, with_root cm t) /\ inorder t = inorder (cm_root cm).
Proof.
  intros [Hok Hm Hd _ _ _]. unfold cmap_lookup_hard, value. rewrite Hd. destruct (cm_root cm) as [|tl a tr] eqn:Er.
  { exists Leaf. rewrite (holds_leaf _ Hm), lookup_empty. split; [|done]. by destruct cm; cbn in *; subst. }
  destruct (splay_keys (Node tl a tr) ch ltac:(done) Hok) as (l & c & r & E & Ei & H1 & H2).
  exists (cmap_splay (Node tl a tr) ch). split; [|apply splay_inorder]. cbn [with_root cm_root]. rewrite E.
  rewrite Ei in Hok, Hm. destruct (holds_split _ _ _ _ Hok Hm) as [Hc Hnone].
  destruct (Z.eqb_spec (cmn_from c) ch) as [<-|Hne]; [by rewrite Hc|]. by rewrite Hnone.
Qed.

Lemma cmap_cache_loop_spec m n : forall cm i, stands cm m -> 0 <= i ->
  i + Z.of_nat n = CM_CACHE_SIZE -> (forall j, 0 <= j < i -> cm_cache cm !! Z.to_nat j = Some (value m j)) ->
  exists cm', cache_loop n i cm = Some cm' /\ stands cm' m /\ cached cm' m.
Proof.
  induction n as [|n IH]; intros cm i Hst Hi Hn Hdone; cbn [cache_loop].
  { exists cm. split; [done|]. split; [done|]. intros j Hj. apply Hdone. lia. }
  destruct (lookup_hard_spec cm m i Hst) as (t & -> & Et). cbn [mbind option_bind].
  destruct (cmap_stands_root cm m t Hst Et) as [Hok Hm Hd Hl Hb Hx].
  rewrite awrite_Some by (rewrite Hl; lia). cbn [mbind option_bind].
  apply IH; [|lia|lia|].
  - split; [exact Hok|exact Hm|exact Hd| |exact Hb|exact Hx]. cbn [cm_cache]. by rewrite length_insert.
  - intros j Hj. cbn [cm_cache]. destruct (decide (j = i)) as [->|Hne].
    + rewrite list_lookup_insert_eq; [done|]. rewrite Hl. lia.
    + rewrite list_lookup_insert_ne by lia. apply Hdone. lia.
Qed.

Lemma cmap_cache_spec cm m : represents cm m -> exists cm', cmap_cache cm = Some cm' /\ represents cm' m.
Proof.
  intros [Hst _]. destruct (cmap_cache_loop_spec m (Z.to_nat CM_CACHE_SIZE) cm 0 Hst) as (cm' & E & [Hok Hm Hd Hl Hb Hx] & Hca);
    [lia|reflexivity|lia|]. unfold cmap_cache. rewrite E. eexists. split; [done|]. split; [by split|]. intros _. exact Hca.
Qed.

Lemma cmap_lookup_spec cm m ch : represents cm m -> 0 <= ch ->
  exists cm', cmap_lookup cm ch = Some (value m ch, cm') /\ represents cm' m.
Proof.
  intros [Hst Hca] Hch. unfold cmap_lookup. destruct (Z.ltb_spec ch CM_CACHE_SIZE) as [Hlt|]; cbn [andb].
  - destruct (cm_havecache cm) eqn:Eh.
    + rewrite (proj2 (Z.ltb_ge _ _)) by done. rewrite (Hca eq_refl ch (conj Hch Hlt)). exists cm. split; [done|].
      split; [done|]. intros _. by apply Hca.
    + destruct (lookup_hard_spec cm m ch Hst) as (t & -> & Et). eexists. split; [done|]. split; [by apply cmap_stands_root|].
      cbn. by rewrite Eh.
  - destruct (lookup_hard_spec cm m ch Hst) as (t & -> & Et). eexists. split; [done|]. split; [by apply cmap_stands_root|exact Hca].
Qed.

Lemma cmap_default_spec cm m def : represents cm m ->
  represents (cmap_default cm def).2 (Charmap (entries m) def) /\ (cmap_default cm def).1 = default_to m.
Proof.
  intros [[Hok Hm Hd Hl Hb Hx] _]. split; [|exact Hd]. split; [|done]. by split.
Qed.

Inductive cmap_op := Add (malloc_ok : bool) (from to : Z) | Default (def : Z) | Cache | Lookup (ch : Z).

Definition run_op (cm : cmap) (o : cmap_op) : option (Z * cmap) :=
  match o with
  | Add ok from to => '(b, cm) ← cmap_add ok cm from to; Some (Z.b2z b, cm)
  | Default def => Some (cmap_default cm def)
  | Cache => cm ← cmap_cache cm; Some (0, cm)
  | Lookup ch => cmap_lookup cm ch
  end.

Definition map_op (m : charmap) (o : cmap_op) : Z * charmap :=
  match o with
  | Add ok from to =>
    if ok || bool_decide (is_Some (entries m !! from))
    then (1, Charmap (<[from := to]> (entries m)) (default_to m)) else (0, m)
  | Default def => (default_to m, Charmap (entries m) def)
  | Cache => (0, m)
  | Lookup ch => (value m ch, m)
  end.

Definition op_ok (o : cmap_op) : Prop := match o with Lookup ch => 0 <= ch | _ => True end.

Fixpoint run_ops (cm : cmap) (os : list cmap_op) : option (list Z * cmap) :=
  match os with
  | [] => Some ([], cm)
  | o :: os => '(b, cm) ← run_op cm o; '(bs, cm) ← run_ops cm os; Some (b :: bs, cm)
  end.
Fixpoint map_ops (m : charmap) (os : list cmap_op) : list Z * charmap :=
  match os with
  | [] => ([], m)
  | o :: os => let '(b, m) := map_op m o in let '(bs, m) := map_ops m os in (b :: bs, m)
  end.

Lemma cmap_run_op_spec cm m o : represents cm m -> op_ok o ->
  exists cm', run_op cm o = Some ((map_op m o).1, cm') /\ represents cm' (map_op m o).2.
Proof.
  intros Hrep Hop. destruct o as [ok from to|def| |ch]; cbn [run_op map_op].
  - destruct (cmap_add_spec ok cm m from to Hrep) as (cm' & -> & Hrep').
    destruct (ok || bool_decide (is_Some (entries m !! from))); by exists cm'.
  - eexists. split; [by destruct (cmap_default_spec cm m def Hrep) as [_ <-]|]. by apply cmap_default_spec.
  - destruct (cmap_cache_spec cm m Hrep) as (cm' & -> & Hrep'). by exists cm'.
  - destruct (cmap_lookup_spec cm m ch Hrep Hop) as (cm' & -> & Hrep'). by exists cm'.
Qed.

Lemma cmap_run_ops_spec os : forall cm m, represents cm m -> Forall op_ok os ->
  exists cm', run_ops cm os = Some ((map_ops m os).1, cm') /\ represents cm' (map_ops m os).2.
Proof.
  induction os as [|o os IH]; intros cm m Hrep Hops; [by exists cm|]. apply Forall_cons in Hops as [Ho Hos]. cbn [run_ops map_ops].
  destruct (cmap_run_op_spec cm m o Hrep Ho) as (cm1 & -> & Hrep1). cbn [mbind option_bind]. destruct (map_op m o) as [b m1].
  destruct (IH cm1 m1 Hrep1 Hos) as (cm2 & -> & Hrep2). cbn [mbind option_bind]. destruct (map_ops m1 os) as [bs m2].
  by exists cm2.
Qed.

(** C19. A character map of tr answers every sequence of additions, changes of the
    default and lookups, with the cache filled at any time and memory failing at
    any time, like a finite map with a default; its greatest character is exact. *)
Theorem cmap_refines_map memory os : length memory = Z.to_nat CM_CACHE_SIZE -> Forall op_ok os ->
  let m := (map_ops (Charmap ∅ CM_DEF_SELF) os).2 in
  exists cm, run_ops (cmap_alloc memory) os = Some ((map_ops (Charmap ∅ CM_DEF_SELF) os).1, cm) /\
    holds (inorder (cm_root cm)) (entries m) /\
    (entries m <> ∅ -> is_Some (entries m !! cm_max cm) /\ forall x, is_Some (entries m !! x) -> x <= cm_max cm).
Proof.
  intros Hl Hos m. destruct (cmap_run_ops_spec os _ _ (cmap_alloc_represents memory Hl) Hos) as (cm & E & [[Hok Hm Hd Hlen Hb Hx] _]).
  exists cm. split; [exact E|]. split; [exact Hm|]. intros Hne. split; [by apply Hx|]. intros x Hin. by apply Hb.
Qed.

Lemma cmap_refines_map_witness :
  let os := [Add true 98 66; Add true 97 65; Add true 200 201; Lookup 97; Lookup 99; Add false 99 67; Add false 98 120;
             Cache; Lookup 98; Default 63; Lookup 1000; Lookup 200] in
  exists cm, run_ops (cmap_alloc (repeat 0 128)) os =
    Some ([1; 1; 1; 65; 99; 0; 1; 0; 120; CM_DEF_SELF; 63; 201], cm).
Proof.
  set (os := [Add true 98 66; Add true 97 65; Add true 200 201; Lookup 97; Lookup 99; Add false 99 67; Add false 98 120;
             Cache; Lookup 98; Default 63; Lookup 1000; Lookup 200]).
  destruct (cmap_refines_map (repeat 0 128) os) as (cm & E & _).
  - reflexivity.
  - repeat (apply Forall_cons; split; [first [exact I | vm_compute; discriminate]|]). apply Forall_nil. exact I.
  - exists cm. rewrite E. f_equal.
Defined.
