(* ===== verification/TrStr.v ===== *)
(** The strings of tr (src.freebsd/coreutils/tr/str.c, extern.h): [next] delivers
    one character after the other of a string with ranges, escapes, classes,
    equivalence classes and repetitions.

    The argument is an array with its final NUL; reading behind it, or storing
    outside an array, is [Fault], and leaving the program with a message [Exit].
    The locale and the sort of the library are parameters. *)

From stdpp Require Import gmap sorting.
From S2P Require Import Prelude Ctype Strto Splay TrSet.

Class TrLocale := {
  tr_wctypes :: Wctypes;
  wctype : list Z -> option wctype_t;
  (** The [wctype_t] that is zero, which [wctype] gives for an unknown name. *)
  no_class : wctype_t;
  towupper : Z -> Z;
  towlower : Z -> Z;
  iswupper : Z -> bool;
  iswlower : Z -> bool;
  iswprint : Z -> bool;
  iswcntrl : Z -> bool;
  MB_CUR_MAX : Z;
  (** Length and value of the first character; [None] for an error. *)
  mbrtowc : list Z -> option (Z * Z);
  (** The weight of a character when [strxfrm] gives it a single byte. *)
  strxfrm : Z -> option Z;
  strcoll : Z -> Z -> Z;
  (** [mergesort] with [charcoll]. *)
  sort_chars : list Z -> list Z
}.

Inductive res (A : Type) : Type := Ok (a : A) | Exit (message : string) | Fault.
Arguments Ok {A} a.
Arguments Exit {A} message.
Arguments Fault {A}.

#[export] Instance res_ret : MRet res := fun _ a => Ok a.
#[export] Instance res_bind : MBind res := fun _ _ f m =>
  match m with Ok a => f a | Exit e => Exit e | Fault => Fault end.

Definition NCHARS_SB : Z := 256.
Definition OOBCH : Z := 2 ^ 32 - 1.
Definition UCHAR_MAX : Z := 255.
Definition iswrune `{TrLocale} (v : Z) : bool := iswprint v || iswcntrl v.

Inductive str_which := STRING1 | STRING2.
Inductive str_state := EOS | INFINITE | NORMAL | RANGE | SEQUENCE | CCLASS | CCLASS_UPPER | CCLASS_LOWER | SET.
#[export] Instance str_which_eq_dec : EqDecision str_which.
Proof. solve_decision. Defined.
#[export] Instance str_state_eq_dec : EqDecision str_state.
Proof. solve_decision. Defined.

Section Str.
Context `{TrLocale}.

Record STR := Str {
  which : str_which;
  state : str_state;
  cnt : Z;
  lastch : Z;
  cclass : option wctype_t;
  equiv : list Z;
  set : list Z;
  mem : list Z;
  str : nat
}.

(** The static [s1] and [s2] with [str] at an argument. *)
Definition str_init (w : str_which) (arg : list Z) : STR :=
  Str w NORMAL 0 OOBCH None (0 :: OOBCH :: repeat 0 254) [] (arg ++ [0]) 0.

Definition with_str (s : STR) (p : nat) : STR :=
  Str (which s) (state s) (cnt s) (lastch s) (cclass s) (equiv s) (set s) (mem s) p.
Definition with_state (s : STR) (st : str_state) : STR :=
  Str (which s) st (cnt s) (lastch s) (cclass s) (equiv s) (set s) (mem s) (str s).
Definition with_cnt (s : STR) (n : Z) : STR :=
  Str (which s) (state s) n (lastch s) (cclass s) (equiv s) (set s) (mem s) (str s).
Definition with_lastch (s : STR) (c : Z) : STR :=
  Str (which s) (state s) (cnt s) c (cclass s) (equiv s) (set s) (mem s) (str s).
Definition with_class (s : STR) (c : wctype_t) : STR :=
  Str (which s) (state s) (cnt s) (lastch s) (Some c) (equiv s) (set s) (mem s) (str s).
Definition with_equiv (s : STR) (e : list Z) : STR :=
  Str (which s) (state s) (cnt s) (lastch s) (cclass s) e (set s) (mem s) (str s).
Definition with_set (s : STR) (l : list Z) : STR :=
  Str (which s) (state s) (cnt s) (lastch s) (cclass s) (equiv s) l (mem s) (str s).
Definition with_mem (s : STR) (m : list Z) : STR :=
  Str (which s) (state s) (cnt s) (lastch s) (cclass s) (equiv s) (set s) m (str s).

(** [str[k]]. *)
Definition char_at (s : STR) (k : nat) : res Z :=
  match mem s !! (str s + k)%nat with Some c => Ok c | None => Fault end.
Definition advance (s : STR) (k : nat) : STR := with_str s (str s + k).

(** The bytes from [p] to the NUL, and the position of the first one that
    satisfies [f]; running over the end of the array is a fault. *)
Fixpoint cstring (l : list Z) : res (list Z) :=
  match l with
  | [] => Fault
  | c :: l => if c =? 0 then Ok [] else l ← cstring l; Ok (c :: l)
  end.
Fixpoint find_char (f : Z -> bool) (l : list Z) (p : nat) : res (option nat) :=
  match l with
  | [] => Fault
  | c :: l => if c =? 0 then Ok None else if f c then Ok (Some p) else find_char f l (S p)
  end.
Definition string_at (s : STR) (p : nat) : res (list Z) := cstring (drop p (mem s)).
Definition strchr (s : STR) (p : nat) (c : Z) : res (option nat) := find_char (Z.eqb c) (drop p (mem s)) p.
Definition strpbrk (s : STR) (p : nat) (c d : Z) : res (option nat) :=
  find_char (fun x => (x =? c) || (x =? d)) (drop p (mem s)) p.

(** [mbrtowc] at [str]. *)
Definition wchar_at (s : STR) : res (option (Z * Z)) := l ← string_at s (str s); Ok (mbrtowc l).

(** ** backslash *)

Definition is_octdigit (ch : Z) : bool := isdigit ch && (ch <=? chr "7").

(** The loop: the last character read, the number of digits and their value. *)
Fixpoint octal_loop (n : nat) (s : STR) (count val : Z) : res (Z * Z * Z * STR) :=
  ch ← char_at s 1;
  let s := advance s 1 in
  if negb (is_octdigit ch) then Ok (ch, count, val, s)
  else
    let val := val * 8 + ch - chr "0" in
    match n with
    | O => Ok (ch, count + 1, val, advance s 1)
    | S n => octal_loop n s (count + 1) val
    end.

(** The character, and [*is_octal]. *)
Definition backslash (s : STR) : res (Z * bool * STR) :=
  '(ch, count, val, s) ← octal_loop 2 s 0 0;
  if negb (count =? 0) then Ok (val, true, s)
  else
    let s := if negb (ch =? 0) then advance s 1 else s in
    if ch =? chr "a" then Ok (7, false, s)
    else if ch =? chr "b" then Ok (8, false, s)
    else if ch =? chr "f" then Ok (12, false, s)
    else if ch =? chr "n" then Ok (10, false, s)
    else if ch =? chr "r" then Ok (13, false, s)
    else if ch =? chr "t" then Ok (9, false, s)
    else if ch =? chr "v" then Ok (11, false, s)
    else if ch =? 0 then Ok (chr "\", false, with_state s EOS)
    else Ok (ch, false, s).

(** ** Classes *)

(** [findwchar]: [n] characters from [min] on. *)
Fixpoint findwchar (n : nat) (wct : wctype_t) (min : Z) : Z :=
  match n with
  | O => OOBCH
  | S n => if iswctype min wct then min else findwchar n wct (min + 1)
  end.
Definition nextwctype (ch : Z) (wct : wctype_t) : Z :=
  if ch =? OOBCH then findwchar (Z.to_nat (UCHAR_MAX + 1)) wct 0
  else if UCHAR_MAX <=? ch then OOBCH
  else
    let ch := ch + 1 in
    if negb (iswctype ch wct) then findwchar (Z.to_nat (UCHAR_MAX + 1 - ch)) wct ch else ch.

Definition genclass (s : STR) : res STR :=
  name ← string_at s (str s);
  match wctype name with
  | None => Exit "unknown class"
  | Some c =>
    let s := with_lastch (with_cnt (with_class s c) 0) OOBCH in
    Ok (with_state s (if bool_decide (name = codes "upper") then CCLASS_UPPER
                      else if bool_decide (name = codes "lower") then CCLASS_LOWER else CCLASS))
  end.

(** ** Equivalence classes *)

Definition store (l : list Z) (i : nat) (x : Z) : res (list Z) :=
  match awrite l i x with Some l => Ok l | None => Fault end.

(** The loop from [i], [n] rounds before its end: [equiv] and [p]. *)
Fixpoint equiv_loop (n : nat) (pri i : Z) (e : list Z) (p : nat) : res (list Z * nat) :=
  match n with
  | O => Ok (e, p)
  | S n =>
    match strxfrm i with
    | Some w => if negb (pri =? 0) && (pri =? w)
                then e ← store e p i; equiv_loop n pri (i + 1) e (S p)
                else equiv_loop n pri (i + 1) e p
    | None => equiv_loop n pri (i + 1) e p
    end
  end.

Definition genequiv (s : STR) : res STR :=
  c ← char_at s 0;
  s ← (if c =? chr "\" then
         '(ch, _, s) ← backslash s;
         c ← char_at s 0;
         if negb (c =? chr "=") then Exit "misplaced equivalence equals sign"
         else e ← store (equiv s) 0 ch; Ok (advance (with_equiv s e) 2)
       else
         w ← wchar_at s;
         match w with
         | None => Exit "EILSEQ"
         | Some (clen, wc) =>
           if clen =? 0 then Exit "EILSEQ"
           else
             e ← store (equiv s) 0 wc;
             c ← char_at s (Z.to_nat clen);
             if negb (c =? chr "=") then Exit "misplaced equivalence equals sign"
             else Ok (advance (with_equiv s e) (Z.to_nat clen + 2))
         end);
  s ← match MB_CUR_MAX =? 1, strxfrm (u8 (hd 0 (equiv s))) with
      | true, Some pri =>
        '(e, p) ← equiv_loop (Z.to_nat (NCHARS_SB - 1)) pri 1 (equiv s) 1;
        e ← store e p OOBCH;
        Ok (with_equiv s e)
      | _, _ => Ok s
      end;
  Ok (with_set (with_state (with_cnt s 0) SET) (equiv s)).

(** ** Ranges *)

Definition charcoll (a b : Z) : Z := strcoll (u8 a) (u8 b).

(** Whether there is a range, and the string before it if there is none. *)
Definition genrange (s : STR) (was_octal : bool) : res (bool * STR) :=
  let savestart := str s in
  let s := advance s 1 in
  c ← char_at s 0;
  '(stopval, octal, s) ←
    (if c =? chr "\" then backslash s
     else
       w ← wchar_at s;
       match w with
       | None => Exit "EILSEQ"
       | Some (clen, wc) => Ok (wc, false, advance s (Z.to_nat clen))
       end);
  if octal || was_octal || (1 <? MB_CUR_MAX) then
    if stopval <? lastch s then Ok (false, with_str s savestart)
    else
      let s := with_cnt s (s32 (u32 (stopval - lastch s + 1))) in
      let s := with_state s RANGE in
      Ok (true, with_lastch s (u32 (lastch s - 1)))
  else if charcoll stopval (lastch s) <? 0 then Ok (false, with_str s savestart)
  else
    let chars := filter (fun c => 0 <= charcoll c (lastch s) /\ charcoll c stopval <= 0) (range (Z.to_nat NCHARS_SB)) in
    let set := (if 1 <? Z.of_nat (length chars) then sort_chars chars else chars) ++ [OOBCH] in
    Ok (true, with_set (with_state (with_cnt s 0) SET) set).

(** ** Repetitions *)

Definition genseq (s : STR) : res STR :=
  if decide (which s = STRING1) then Exit "sequences only valid in string2"
  else
    c ← char_at s 0;
    s ← (if c =? chr "\" then
           '(ch, _, s) ← backslash s; Ok (with_lastch s ch)
         else
           w ← wchar_at s;
           match w with
           | None => Exit "EILSEQ"
           | Some (clen, wc) => Ok (advance (with_lastch s wc) (Z.to_nat clen))
           end);
    c ← char_at s 0;
    if negb (c =? chr "*") then Exit "misplaced sequence asterisk"
    else
      let s := advance s 1 in
      c ← char_at s 0;
      s ← (if c =? chr "\" then '(ch, _, s) ← backslash s; Ok (with_cnt s ch)
           else if c =? chr "]" then Ok (advance (with_cnt s 0) 1)
           else if isdigit c then
             l ← string_at s (str s);
             let '(v, ep, _) := strtoimax 0 l in
             let s := with_cnt s (s32 v) in
             let p := (str s + (length l - length ep))%nat in
             match ep with
             | e :: _ => if e =? chr "]" then Ok (with_str s (p + 1)) else Exit "illegal sequence count"
             | [] => Exit "illegal sequence count"
             end
           else Exit "illegal sequence count");
      Ok (with_state s (if cnt s =? 0 then INFINITE else SEQUENCE)).

(** ** bracket *)

Definition repeat_bracket (s : STR) : res (bool * STR) :=
  p ← strpbrk s (str s + 2) (chr "*") (chr "]");
  match p with
  | None => Ok (false, s)
  | Some p =>
    if negb (bool_decide (mem s !! p = Some (chr "*"))) then Ok (false, s)
    else
      q ← strchr s p (chr "]");
      match q with
      | None => Ok (false, s)
      | Some _ => s ← genseq (advance s 1); Ok (true, s)
      end
  end.

Definition bracket (s : STR) : res (bool * STR) :=
  c ← char_at s 1;
  if c =? chr ":" then
    p ← strchr s (str s + 2) (chr "]");
    match p with
    | None => Ok (false, s)
    | Some p =>
      if negb (bool_decide (mem s !! (p - 1)%nat = Some (chr ":"))) || bool_decide (p - str s < 4)%nat
      then repeat_bracket s
      else
        m ← store (mem s) (p - 1) 0;
        s ← genclass (advance (with_mem s m) 2);
        Ok (true, with_str s (p + 1))
    end
  else if c =? chr "=" then
    c2 ← char_at s 2;
    if c2 =? 0 then Ok (false, s)
    else
      p ← strchr s (str s + 3) (chr "]");
      match p with
      | None => Ok (false, s)
      | Some p =>
        if negb (bool_decide (mem s !! (p - 1)%nat = Some (chr "="))) || bool_decide (p - str s < 4)%nat
        then repeat_bracket s
        else s ← genequiv (advance s 2); Ok (true, s)
      end
  else repeat_bracket s.

(** ** next *)

(** [s->cnt--], which overflows at the least [int]. *)
Definition count_down (s : STR) : res STR :=
  if cnt s =? - 2 ^ 31 then Fault else Ok (with_cnt s (cnt s - 1)).

(** [return next(s)] of each case is [again]. *)
Definition next_step (again : STR -> res (bool * STR)) (s : STR) : res (bool * STR) :=
  match state s with
  | EOS => Ok (false, s)
  | INFINITE => Ok (true, s)
  | NORMAL =>
    c ← char_at s 0;
    if c =? 0 then Ok (false, with_state s EOS)
    else
      let single s is_octal :=
        c ← char_at s 0;
        if c =? chr "-" then
          '(b, s) ← genrange s is_octal;
          if b : bool then again s else Ok (true, s)
        else Ok (true, s) in
      if c =? chr "\" then
        '(ch, is_octal, s) ← backslash s; single (with_lastch s ch) is_octal
      else
        '(b, s) ← (if c =? chr "[" then bracket s else Ok (false, s));
        if b : bool then again s
        else
          w ← wchar_at s;
          match w with
          | None => Exit "EILSEQ"
          | Some (clen, wc) =>
            if clen =? 0 then Exit "EILSEQ" else single (advance (with_lastch s wc) (Z.to_nat clen)) false
          end
  | RANGE =>
    s' ← count_down s;
    if cnt s =? 0 then again (with_state s' NORMAL) else Ok (true, with_lastch s' (u32 (lastch s + 1)))
  | SEQUENCE =>
    s' ← count_down s;
    if cnt s =? 0 then again (with_state s' NORMAL) else Ok (true, s')
  | CCLASS | CCLASS_UPPER | CCLASS_LOWER =>
    match cclass s with
    | None => Fault
    | Some wct =>
      let s := with_cnt s (cnt s + 1) in
      let ch := nextwctype (lastch s) wct in
      if ch =? OOBCH then again (with_state s NORMAL) else Ok (true, with_lastch s ch)
    end
  | SET =>
    match set s !! Z.to_nat (cnt s) with
    | None => Fault
    | Some ch =>
      let s := with_cnt s (cnt s + 1) in
      if ch =? OOBCH then again (with_state s NORMAL) else Ok (true, with_lastch s ch)
    end
  end.

Fixpoint next_fuel (fuel : nat) (s : STR) : res (bool * STR) :=
  match fuel with O => Exit "fuel" | S fuel => next_step (next_fuel fuel) s end.

(** Each call but one in two moves [str] on. *)
Definition next (s : STR) : res (bool * STR) := next_fuel (2 * length (mem s) + 2) s.

End Str.

(** The C locale: every byte is a character, in the order of the bytes. *)
Definition c_wctypes : Wctypes := {| wctype_t := Z -> bool; iswctype ch c := c ch |}.
Definition c_classes : list (string * (Z -> bool)) :=
  [("upper", isupper); ("lower", islower); ("alpha", isalpha); ("digit", isdigit); ("alnum", isalnum);
   ("space", isspace); ("xdigit", isxdigit); ("graph", isgraph); ("cntrl", iscntrl)]%string.
#[export] Instance c_tr_locale : TrLocale := {|
  tr_wctypes := c_wctypes;
  wctype name := snd <$> List.find (fun p => bool_decide (codes p.1 = name)) c_classes;
  no_class := fun _ => false;
  towupper := toupper; towlower := tolower; iswupper := isupper; iswlower := islower;
  iswprint c := (32 <=? c) && (c <=? 126); iswcntrl := iscntrl;
  MB_CUR_MAX := 1;
  mbrtowc l := match l with [] => Some (0, 0) | c :: _ => Some (1, c) end;
  strxfrm c := if c =? 0 then None else Some c;
  strcoll a b := a - b;
  sort_chars := merge_sort Z.le
|}.
