(* ===== verification/Tr.v ===== *)
(** tr (src.freebsd/coreutils/tr/tr.c): [main] behind the options, on the sequence
    of wide characters that [getwchar] delivers.

    The options are the four flags.  The nodes of sets and maps are always
    allocated; loops over strings take fuel, and running out of it is [Hang]. *)

From stdpp Require Import gmap.
From S2P Require Import Prelude Ctype Splay TrSet TrMap TrStr.

Inductive outcome (A : Type) : Type := Done (a : A) | Failed (message : string) | Broken | Hang.
Arguments Done {A} a.
Arguments Failed {A} message.
Arguments Broken {A}.
Arguments Hang {A}.

#[export] Instance outcome_ret : MRet outcome := fun _ a => Done a.
#[export] Instance outcome_bind : MBind outcome := fun _ _ f m =>
  match m with Done a => f a | Failed e => Failed e | Broken => Broken | Hang => Hang end.

Definition of_res {A} (r : res A) : outcome A :=
  match r with Ok a => Done a | Exit e => Failed e | Fault => Broken end.
Definition of_option {A} (o : option A) : outcome A := match o with Some a => Done a | None => Broken end.

Section Tr.
Context `{TrLocale}.

Definition next' (s : STR) : outcome (bool * STR) := of_res (next s).
Definition add_char (cs : cset) (ch : Z) : outcome cset := of_option (snd <$> cset_add true cs ch).
Definition add_pair (cm : cmap) (from to : Z) : outcome cmap := of_option (snd <$> cmap_add true cm from to).

(** Memory as [malloc] gives it. *)
Variables (set_memory : list bool) (map_memory : list Z).

(** ** setup *)

Fixpoint setup_loop (fuel : nat) (s : STR) (cs : cset) : outcome cset :=
  match fuel with
  | O => Hang
  | S fuel =>
    '(b, s) ← next' s;
    if b : bool then cs ← add_char cs (lastch s); setup_loop fuel s cs else Done cs
  end.

Definition setup (fuel : nat) (s : STR) (cflag Cflag : bool) : outcome cset :=
  cs ← setup_loop fuel s (cset_alloc set_memory);
  let cs := if Cflag then snd (cset_addclass true cs (default no_class (wctype (codes "rune"))) true) else cs in
  let cs := if cflag || Cflag then cset_invert cs else cs in
  of_option (cset_cache cs).

(** ** Deleting and squeezing *)

Fixpoint delete_loop (delete : cset) (input : list Z) : outcome (list Z) :=
  match input with
  | [] => Done []
  | ch :: input =>
    '(b, delete) ← of_option (cset_in delete ch);
    out ← delete_loop delete input;
    Done (if b : bool then out else ch :: out)
  end.

Fixpoint squeeze_loop (squeeze : cset) (lastch : Z) (input : list Z) : outcome (list Z) :=
  match input with
  | [] => Done []
  | ch :: input =>
    '(keep, squeeze) ← (if negb (lastch =? ch) then Done (true, squeeze)
                        else '(b, squeeze) ← of_option (cset_in squeeze ch); Done (negb b, squeeze));
    if keep : bool then out ← squeeze_loop squeeze ch input; Done (ch :: out) else squeeze_loop squeeze lastch input
  end.

Fixpoint delete_squeeze_loop (delete squeeze : cset) (lastch : Z) (input : list Z) : outcome (list Z) :=
  match input with
  | [] => Done []
  | ch :: input =>
    '(b, delete) ← of_option (cset_in delete ch);
    if b : bool then delete_squeeze_loop delete squeeze lastch input
    else
      '(keep, squeeze) ← (if negb (lastch =? ch) then Done (true, squeeze)
                          else '(b, squeeze) ← of_option (cset_in squeeze ch); Done (negb b, squeeze));
      if keep : bool then out ← delete_squeeze_loop delete squeeze ch input; Done (ch :: out)
      else delete_squeeze_loop delete squeeze lastch input
  end.

(** ** Building the map *)

(** The four cases of a class against a case class, at the first character of
    both: the conversion, the test for squeezing, and the class in string 2. *)
Record conversion := Conversion { conv : Z -> Z; conv_test : Z -> bool; conv_class : str_state }.
Definition to_upper : conversion := Conversion towupper iswupper CCLASS_UPPER.
Definition to_lower : conversion := Conversion towlower iswlower CCLASS_LOWER.

Definition conversion_of (s1 s2 : STR) : option conversion :=
  if (cnt s1 =? 1) && (cnt s2 =? 1) then
    match state s1, state s2 with
    | CCLASS_LOWER, CCLASS_UPPER => Some to_upper
    | CCLASS_UPPER, CCLASS_LOWER => Some to_lower
    | CCLASS, CCLASS_UPPER => Some to_upper
    | CCLASS, CCLASS_LOWER => Some to_lower
    | _, _ => None
    end
  else None.

(** The map, the set to squeeze and the two strings. *)
Record maps := Maps { m_map : cmap; m_squeeze : cset; m_s1 : STR; m_s2 : STR }.

Definition add_mapping (sflag : bool) (test : Z -> bool) (m : maps) (from to : Z) : outcome maps :=
  map ← add_pair (m_map m) from to;
  squeeze ← (if sflag && test to then add_char (m_squeeze m) to else Done (m_squeeze m));
  Done (Maps map squeeze (m_s1 m) (m_s2 m)).

(** The first [do] loop over string 1; [false] is [goto endloop]. *)
Fixpoint class_loop (fuel : nat) (sflag : bool) (c : conversion) (st : str_state) (m : maps) : outcome (bool * maps) :=
  match fuel with
  | O => Hang
  | S fuel =>
    let ch := conv c (lastch (m_s1 m)) in
    m ← add_mapping sflag (conv_test c) m (lastch (m_s1 m)) ch;
    '(b, s1) ← next' (m_s1 m);
    let m := Maps (m_map m) (m_squeeze m) s1 (m_s2 m) in
    if negb b then Done (false, m)
    else if bool_decide (state s1 = st) && (1 <? cnt s1) then class_loop fuel sflag c st m
    else Done (true, m)
  end.

(** The second one, over string 2. *)
Fixpoint skip_loop (fuel : nat) (st : str_state) (s2 : STR) : outcome STR :=
  match fuel with
  | O => Hang
  | S fuel =>
    '(b, s2) ← next' s2;
    if negb b then Done s2
    else if bool_decide (state s2 = st) && (1 <? cnt s2) then skip_loop fuel st s2
    else Done s2
  end.

(** The [while] loop; [have] is [true] at [again]. *)
Fixpoint map_loop (fuel : nat) (sflag have : bool) (m : maps) : outcome maps :=
  match fuel with
  | O => Hang
  | S fuel =>
    '(b, m) ← (if have then Done (true, m)
               else '(b, s1) ← next' (m_s1 m); Done (b, Maps (m_map m) (m_squeeze m) s1 (m_s2 m)));
    if negb b then Done m
    else
      match conversion_of (m_s1 m) (m_s2 m) with
      | Some c =>
        '(more, m) ← class_loop fuel sflag c (state (m_s1 m)) m;
        if negb more then Done m
        else
          s2 ← skip_loop fuel (conv_class c) (m_s2 m);
          map_loop fuel sflag true (Maps (m_map m) (m_squeeze m) (m_s1 m) s2)
      | None =>
        m ← add_mapping sflag (fun _ => true) m (lastch (m_s1 m)) (lastch (m_s2 m));
        '(_, s2) ← next' (m_s2 m);
        map_loop fuel sflag false (Maps (m_map m) (m_squeeze m) (m_s1 m) s2)
      end
  end.

(** ** The complement *)

Definition at_end (s2 : STR) : bool := bool_decide (state s2 = EOS) || bool_decide (state s2 = INFINITE).

Fixpoint complement_loop (fuel : nat) (sflag Cflag : bool) (c : Z) (m : maps) : outcome maps :=
  match fuel with
  | O => Hang
  | S fuel =>
    if negb (c <? 2 ^ 32 - 1) then Done m
    else if Cflag && negb (iswrune c) then complement_loop fuel sflag Cflag (c + 1) m
    else
      '(to, map) ← of_option (cmap_lookup (m_map m) c);
      let m := Maps map (m_squeeze m) (m_s1 m) (m_s2 m) in
      m ← (if to =? OOBCH then
             '(b, s2) ← next' (m_s2 m);
             let m := Maps (m_map m) (m_squeeze m) (m_s1 m) s2 in
             if b : bool then add_mapping sflag (fun _ => true) m c (lastch s2) else Done m
           else add_mapping false (fun _ => true) m c c);
      if at_end (m_s2 m) && (cm_max (m_map m) <=? c) then Done m
      else complement_loop fuel sflag Cflag (c + 1) m
  end.

(** [-C] in a single-byte locale: the characters to map. *)
Fixpoint carray_loop (n : nat) (c : Z) (map : cmap) : outcome (list Z * cmap) :=
  match n with
  | O => Done ([], map)
  | S n =>
    '(to, map) ← of_option (cmap_lookup map c);
    if (to =? OOBCH) && iswrune c then '(l, map) ← carray_loop n (c + 1) map; Done (c :: l, map)
    else map ← add_pair map c c; carray_loop n (c + 1) map
  end.

Fixpoint carray_map (sflag : bool) (carray : list Z) (m : maps) : outcome maps :=
  match carray with
  | [] => Done m
  | c :: carray =>
    '(_, s2) ← next' (m_s2 m);
    m ← add_mapping sflag (fun _ => true) (Maps (m_map m) (m_squeeze m) (m_s1 m) s2) c (lastch s2);
    carray_map sflag carray m
  end.

(** [s2.str = argv[1]; s2.state = NORMAL]. *)
Definition rewind (s2 : STR) (arg : list Z) : STR := with_str (with_mem (with_state s2 NORMAL) (arg ++ [0])) 0.

Definition complement (fuel : nat) (sflag cflag Cflag : bool) (arg2 : list Z) (m : maps) : outcome maps :=
  if cflag || (Cflag && (1 <? MB_CUR_MAX)) then
    m ← complement_loop fuel sflag Cflag 0 (Maps (m_map m) (m_squeeze m) (m_s1 m) (rewind (m_s2 m) arg2));
    Done (Maps (snd (cmap_default (m_map m) (lastch (m_s2 m)))) (m_squeeze m) (m_s1 m) (m_s2 m))
  else if Cflag then
    '(carray, map) ← carray_loop (Z.to_nat NCHARS_SB) 0 (m_map m);
    let carray := if 1 <? Z.of_nat (length carray) then sort_chars carray else carray in
    carray_map sflag carray (Maps map (m_squeeze m) (m_s1 m) (rewind (m_s2 m) arg2))
  else Done m.

(** ** Output *)

Fixpoint map_output (Cflag : bool) (map : cmap) (input : list Z) : outcome (list Z) :=
  match input with
  | [] => Done []
  | ch :: input =>
    '(ch, map) ← (if negb Cflag || iswrune ch then of_option (cmap_lookup map ch) else Done (ch, map));
    out ← map_output Cflag map input; Done (ch :: out)
  end.

Fixpoint map_squeeze_output (Cflag : bool) (map : cmap) (squeeze : cset) (lastch : Z) (input : list Z) : outcome (list Z) :=
  match input with
  | [] => Done []
  | ch :: input =>
    '(ch, map) ← (if negb Cflag || iswrune ch then of_option (cmap_lookup map ch) else Done (ch, map));
    '(keep, squeeze) ← (if negb (lastch =? ch) then Done (true, squeeze)
                        else '(b, squeeze) ← of_option (cset_in squeeze ch); Done (negb b, squeeze));
    if keep : bool then out ← map_squeeze_output Cflag map squeeze ch input; Done (ch :: out)
    else map_squeeze_output Cflag map squeeze lastch input
  end.

Definition translate (fuel : nat) (cflag Cflag sflag : bool) (arg1 arg2 input : list Z) : outcome (list Z) :=
  let map := cmap_alloc map_memory in
  let squeeze := cset_alloc set_memory in
  let map := if Cflag || cflag then snd (cmap_default map OOBCH) else map in
  '(b, s2) ← next' (str_init STRING2 arg2);
  if negb b then Failed "empty string2"
  else
    m ← map_loop fuel sflag false (Maps map squeeze (str_init STRING1 arg1) s2);
    m ← complement fuel sflag cflag Cflag arg2 m;
    squeeze ← of_option (cset_cache (m_squeeze m));
    map ← of_option (cmap_cache (m_map m));
    if sflag then map_squeeze_output Cflag map squeeze OOBCH input else map_output Cflag map input.

(** ** main *)

Definition usage {A} : outcome A := Failed "usage".

Definition tr_main (fuel : nat) (Cflag cflag dflag sflag : bool) (args : list (list Z)) (input : list Z) : outcome (list Z) :=
  match args with
  | [] | _ :: _ :: _ :: _ => usage
  | arg1 :: rest =>
    if dflag && sflag then
      match rest with
      | [] => usage
      | arg2 :: _ =>
        delete ← setup fuel (str_init STRING1 arg1) cflag Cflag;
        squeeze ← setup fuel (str_init STRING2 arg2) false false;
        delete_squeeze_loop delete squeeze OOBCH input
      end
    else if dflag then
      match rest with
      | [] => delete ← setup fuel (str_init STRING1 arg1) cflag Cflag; delete_loop delete input
      | _ :: _ => usage
      end
    else
      match rest with
      | [] => if sflag then squeeze ← setup fuel (str_init STRING1 arg1) cflag Cflag; squeeze_loop squeeze OOBCH input
              else usage
      | arg2 :: _ => translate fuel cflag Cflag sflag arg1 arg2 input
      end
  end.

End Tr.

(** * Runs in the C locale *)

Definition run (Cflag cflag dflag sflag : bool) (args : list string) (input : string) : outcome (list Z) :=
  tr_main (repeat false 256) (repeat 0 128) 300 Cflag cflag dflag sflag (codes <$> args) (codes input).

Example tr_runs :
  run false false false false ["a-c[:digit:]x"; "A-C[_*10]-"] "abcd019xy" = Done (codes "ABCd___-y") /\
  run false false false false ["[:lower:]"; "[:upper:]"] "Hello, World" = Done (codes "HELLO, WORLD") /\
  run false false false true ["a-z"; "x"] "aab--bc" = Done (codes "x--x") /\
  run false false true false ["0-9"] "a1b22c" = Done (codes "abc") /\
  run false true true false ["0-9"] "a1b22c" = Done (codes "122") /\
  run false false true true ["0-9"; "a"] "aa1a22b3b" = Done (codes "abb") /\
  run false true false false ["a-z"; "[\054*3].?"] "abc 1;" = Done (codes "abc???").
Proof. vm_compute. repeat split. Qed.
