(* ===== verification/TrNext.v ===== *)
(** What the strings of tr stand for: strings written from characters, ranges and
    repetitions, and that [next] delivers their characters in order. *)

From stdpp Require Import gmap.
From S2P Require Import Prelude Ctype Strto Splay TrSet TrStr.

Class TrLocaleOk `{TrLocale} : Prop := {
  mbrtowc_ascii c l : 0 < c < 128 -> mbrtowc (c :: l) = Some (1, c)
}.

(** An octal escape of three digits, and a number in decimal. *)
Definition octal (c : Z) : list Z := [chr "\"; 48 + c / 64; 48 + c / 8 mod 8; 48 + c mod 8].

Inductive item :=
  | Plain (c : Z)              (* c *)
  | Octal (c : Z)              (* \ooo *)
  | Range (a b : Z)            (* \ooo-\ooo *)
  | Repeat (c : Z) (n : Z)     (* [\ooo*n] *)
  | Fill (c : Z).              (* [\ooo*] *)

Definition render1 (i : item) : list Z :=
  match i with
  | Plain c => [c]
  | Octal c => octal c
  | Range a b => octal a ++ [chr "-"] ++ octal b
  | Repeat c n => [chr "["] ++ octal c ++ [chr "*"] ++ print_imax n ++ [chr "]"]
  | Fill c => [chr "["] ++ octal c ++ [chr "*"; chr "]"]
  end.
Definition render (its : list item) : list Z := its ≫= render1.

Definition seqZ' (a : Z) (n : nat) : list Z := (fun k => a + Z.of_nat k) <$> seq 0 n.

Definition chars1 (i : item) : list Z :=
  match i with
  | Plain c => [c]
  | Octal c => [c]
  | Range a b => seqZ' a (Z.to_nat (b - a + 1))
  | Repeat c n => repeat c (Z.to_nat n)
  | Fill c => [c]
  end.
Definition chars_of (its : list item) : list Z := its ≫= chars1.

Definition item_ok (w : str_which) (i : item) : Prop :=
  match i with
  | Plain c => 0 < c < 128 /\ c ∉ [chr "\"; chr "["; chr "-"]
  | Octal c => 0 <= c < 512
  | Range a b => 0 <= a <= b /\ b < 512
  | Repeat c n => 0 <= c < 512 /\ 0 < n < 2 ^ 31 /\ w = STRING2
  | Fill c => 0 <= c < 512 /\ w = STRING2
  end.

(** Only the last item may go on for ever. *)
Definition ends_in_fill (its : list item) : bool :=
  match last its with Some (Fill _) => true | _ => false end.
Fixpoint items_ok (w : str_which) (its : list item) : Prop :=
  match its with
  | [] => True
  | i :: its => item_ok w i /\ (match i with Fill _ => its = [] | _ => True end) /\ items_ok w its
  end.

Section Next.
Context {L : TrLocale} {LOk : TrLocaleOk}.

Definition tail (s : STR) : list Z := drop (str s) (mem s).

Lemma char_at_tail s k : char_at s k = match tail s !! k with Some c => Ok c | None => Fault end.
Proof. unfold char_at, tail. by rewrite lookup_drop. Qed.

Lemma tail_advance s k : tail (advance s k) = drop k (tail s).
Proof. unfold tail. cbn. by rewrite drop_drop. Qed.

Lemma advance_advance s j k : advance (advance s j) k = advance s (j + k).
Proof. destruct s. unfold advance, with_str. cbn. f_equal. lia. Qed.

Lemma octdigit d : 0 <= d < 8 -> is_octdigit (48 + d) = true.
Proof.
  intros Hd. unfold is_octdigit, isdigit. change (chr "7") with 55. rewrite !(proj2 (Z.leb_le _ _)) by lia. done.
Qed.

(** Reading an octal escape. *)
Lemma backslash_octal s c l : 0 <= c < 512 -> tail s = octal c ++ l ->
  backslash s = Ok (c, true, advance s 4).
Proof.
  intros Hc Ht. unfold backslash. cbn [octal_loop]. unfold octal in Ht. cbn [app] in Ht.
  pose proof (Z.div_mod c 8 ltac:(lia)) as E1. pose proof (Z.mod_pos_bound c 8 ltac:(lia)).
  pose proof (Z.div_mod (c / 8) 8 ltac:(lia)) as E2. pose proof (Z.mod_pos_bound (c / 8) 8 ltac:(lia)).
  assert (c / 64 = c / 8 / 8) as E3 by (by rewrite Z.div_div by lia).
  assert (0 <= c / 64 < 8) as H3 by (split; [apply Z.div_pos; lia|apply Z.div_lt_upper_bound; lia]).
  rewrite (char_at_tail s 1), Ht. cbn [lookup list_lookup mbind res_bind]. rewrite octdigit by lia. cbn [negb octal_loop].
  rewrite (char_at_tail (advance s 1) 1), tail_advance, Ht. cbn [drop lookup list_lookup mbind res_bind]. rewrite octdigit by lia. cbn [negb octal_loop].
  rewrite !advance_advance, (char_at_tail (advance s _) 1), tail_advance, Ht. cbn [drop Nat.add lookup list_lookup mbind res_bind].
  rewrite octdigit by lia. cbn [negb]. rewrite ?advance_advance. change (chr "0") with 48.
  match goal with |- context [Ok (_, 0 + 1 + 1 + 1, ?v, _)] => assert (v = c) as -> by lia end. done.
Qed.

(** ** The bytes of items *)

Lemma octal_bytes c : 0 <= c < 512 -> Forall (fun x => 48 <= x < 56 \/ x = chr "\") (octal c).
Proof.
  intros Hc. pose proof (Z.mod_pos_bound c 8 ltac:(lia)). pose proof (Z.mod_pos_bound (c / 8) 8 ltac:(lia)).
  assert (0 <= c / 64 < 8) by (split; [apply Z.div_pos; lia|apply Z.div_lt_upper_bound; lia]).
  unfold octal. repeat (apply Forall_cons; split); [by right|left; lia|left; lia|left; lia|by apply Forall_nil].
Qed.

Lemma print_digits n : 0 < n < 2 ^ 31 -> exists d ds, print_imax n = d :: ds /\ digits (d :: ds) /\ d <> 48.
Proof.
  intros Hn. unfold print_imax. rewrite (proj2 (Z.ltb_ge _ _)) by lia.
  destruct (decimal_spec 20 n [] ltac:(lia) ltac:(change (10 ^ Z.of_nat 20) with 100000000000000000000; lia))
    as (d & ds & -> & Hd & Hv & H0 & _).
  rewrite app_nil_r. exists d, ds. split; [done|]. split; [done|]. intros ->. specialize (H0 eq_refl) as ->. cbn in Hv. lia.
Qed.

Definition nonzero (l : list Z) : Prop := Forall (fun c => c <> 0) l.

Lemma octal_nonzero c : 0 <= c < 512 -> nonzero (octal c).
Proof. intros Hc. eapply Forall_impl; [by apply octal_bytes|]. by intros x [Hx| ->]; [lia|]. Qed.

Lemma digits_nonzero l : digits l -> nonzero l.
Proof. intros Hd. eapply Forall_impl; [exact Hd|]. cbn. intros c Hc. unfold isdigit in Hc. zbool. lia. Qed.

Lemma print_nonzero n : 0 < n < 2 ^ 31 -> nonzero (print_imax n).
Proof. intros Hn. destruct (print_digits n Hn) as (d & ds & -> & Hd & _). by apply digits_nonzero. Qed.

Lemma render1_nonzero w i : item_ok w i -> nonzero (render1 i).
Proof.
  destruct i as [c|c|a b|c n|c]; cbn [item_ok render1]; unfold nonzero; intros Hi.
  - repeat constructor. lia.
  - by apply octal_nonzero.
  - apply Forall_app. split; [apply octal_nonzero; lia|]. apply Forall_app. split; [by repeat constructor|apply octal_nonzero; lia].
  - destruct Hi as (Hc & Hn & _). rewrite !Forall_app. split_and!; try by repeat constructor.
    + by apply octal_nonzero.
    + by apply print_nonzero.
  - destruct Hi as (Hc & _). rewrite !Forall_app. split_and!; try by repeat constructor. by apply octal_nonzero.
Qed.

Lemma render_nonzero w its : items_ok w its -> nonzero (render its).
Proof.
  induction its as [|i its IH]; [constructor|]. intros (Hi & _ & Hits). apply Forall_app. split; [by eapply render1_nonzero|by apply IH].
Qed.

Lemma cstring_nonzero l r : nonzero l -> cstring (l ++ 0 :: r) = Ok l.
Proof.
  induction 1 as [|c l Hc _ IH]; [done|]. cbn [app cstring]. rewrite (proj2 (Z.eqb_neq c 0)) by done. by rewrite IH.
Qed.

Lemma wchar_at_tail s l : nonzero l -> tail s = l ++ [0] -> wchar_at s = Ok (mbrtowc l).
Proof. intros Hl Ht. unfold wchar_at, string_at. fold (tail s). rewrite Ht, cstring_nonzero by done. done. Qed.

(** No item begins with the sign of a range. *)
Lemma render_head w its : items_ok w its -> exists c r, render its ++ [0] = c :: r /\ c <> chr "-".
Proof.
  destruct its as [|i its]; [by exists 0, []|]. intros (Hi & _).
  destruct i as [c|c|a b|c n|c]; cbn [render mbind list_bind render1 app]; try (by do 2 eexists).
  destruct Hi as [_ Hi]. do 2 eexists. split; [done|]. intros ->. apply Hi. set_solver.
Qed.

(** ** What is left to deliver *)

(** [w] says which items may occur: those of string 1 may be in either string. *)
Definition at_rest (w : str_which) (its : list item) (s : STR) : Prop :=
  (w = STRING2 -> which s = STRING2) /\ tail s = render its ++ [0] /\ items_ok w its.

Inductive ready (w : str_which) : STR -> list Z -> Prop :=
  | ready_normal s its : at_rest w its s -> state s = NORMAL -> ready w s (chars_of its)
  | ready_range s its a n : at_rest w its s -> state s = RANGE -> cnt s = Z.of_nat n ->
      u32 (lastch s + 1) = a -> 0 <= a -> a + Z.of_nat n <= 512 -> ready w s (seqZ' a n ++ chars_of its)
  | ready_seq s its n : at_rest w its s -> state s = SEQUENCE -> cnt s = Z.of_nat n ->
      ready w s (repeat (lastch s) n ++ chars_of its)
  | ready_fill s : w = STRING2 -> state s = INFINITE -> ready w s []
  | ready_eos s : state s = EOS -> ready w s [].

Definition exhausted (s : STR) : Prop := state s = EOS \/ state s = INFINITE.
Definition outside_class (s : STR) : Prop := state s <> CCLASS /\ state s <> CCLASS_LOWER /\ state s <> CCLASS_UPPER.

(** One call of [next]. *)
Definition delivers (w : str_which) (s0 : STR) (l : list Z) (r : res (bool * STR)) : Prop :=
  match l with
  | c :: l => exists s, r = Ok (true, s) /\ which s = which s0 /\ lastch s = c /\ ready w s l /\ outside_class s
  | [] => exists b s, r = Ok (b, s) /\ which s = which s0 /\ lastch s = lastch s0 /\ ready w s [] /\ exhausted s /\
      (w = STRING1 -> b = false)
  end.

Lemma seqZ'_S a n : seqZ' a (S n) = a :: seqZ' (a + 1) n.
Proof.
  unfold seqZ'. cbn [seq fmap list_fmap]. rewrite Z.add_0_r. f_equal. rewrite <- fmap_S_seq, <- list_fmap_compose.
  apply list_fmap_ext. intros _ k _. cbn. lia.
Qed.

(** Inside a range and a repetition. *)
Lemma range_next w again s its a n : at_rest w its s -> state s = RANGE -> cnt s = Z.of_nat (S n) ->
  u32 (lastch s + 1) = a -> 0 <= a -> a + Z.of_nat (S n) <= 512 ->
  delivers w s (seqZ' a (S n) ++ chars_of its) (next_step again s).
Proof.
  intros (Hw & Ht & Hi) Hst Hc Ha Hpos Hle. unfold next_step. rewrite Hst, Hc. unfold count_down. rewrite Hc.
  rewrite (proj2 (Z.eqb_neq _ _)) by lia. cbn [mbind res_bind]. rewrite (proj2 (Z.eqb_neq _ _)) by lia.
  rewrite seqZ'_S. cbn [app delivers]. eexists. split; [done|]. split; [done|]. split; [exact Ha|]. split; [|unfold outside_class; cbn; by rewrite Hst].
  apply ready_range; [done|exact Hst|cbn; lia| |lia|lia]. cbn. rewrite Ha. rewrite u32_small by lia. done.
Qed.

Lemma seq_next w again s its n : at_rest w its s -> state s = SEQUENCE -> cnt s = Z.of_nat (S n) ->
  delivers w s (repeat (lastch s) (S n) ++ chars_of its) (next_step again s).
Proof.
  intros Hrest Hst Hc. unfold next_step. rewrite Hst, Hc. unfold count_down. rewrite Hc.
  rewrite (proj2 (Z.eqb_neq _ _)) by lia. cbn [mbind res_bind]. rewrite (proj2 (Z.eqb_neq _ _)) by lia.
  cbn [repeat app delivers]. eexists. split; [done|]. split; [done|]. split; [done|]. split; [|unfold outside_class; cbn; by rewrite Hst].
  apply (ready_seq w (with_cnt s (Z.of_nat (S n) - 1)) its n); [exact Hrest|exact Hst|cbn; lia].
Qed.

(** ** The special forms *)

Lemma genrange_octal s a b o rest : lastch s = a -> 0 <= a <= b -> b < 512 -> tail s = chr "-" :: octal b ++ rest ->
  genrange s o = Ok (true, with_lastch (with_state (with_cnt (advance s 5) (b - a + 1)) RANGE) (u32 (a - 1))).
Proof.
  intros Ha Hab Hb Ht. unfold genrange. rewrite char_at_tail, tail_advance, Ht. cbn [drop lookup list_lookup app octal mbind res_bind].
  change (chr "\" =? chr "\") with true. cbn iota.
  rewrite (backslash_octal _ b rest) by (lia || by rewrite tail_advance, Ht). cbn [mbind res_bind orb].
  cbn [lastch advance with_str]. rewrite Ha, (proj2 (Z.ltb_ge b a)) by lia. rewrite u32_small by lia. rewrite s32_small by lia.
  f_equal. f_equal. unfold with_lastch, with_state, with_cnt, advance, with_str. cbn. rewrite Ha. f_equal. lia.
Qed.

Lemma scan_stop s c r : digits s -> 10 <= digit_value c -> forall a, scan 10 a (s ++ c :: r) = (value_from a s, c :: r).
Proof.
  intros Hs Hc. induction Hs as [|d s Hd _ IH]; intros a; cbn [app scan value_from foldl].
  - by rewrite (proj2 (Z.ltb_ge _ _)).
  - destruct (digit_value_digit d Hd) as [-> ?]. rewrite (proj2 (Z.ltb_lt _ _)) by lia. apply IH.
Qed.

(** A printed count is read back. *)
Lemma strtoimax_print n c r : 0 < n < 2 ^ 31 -> 10 <= digit_value c ->
  strtoimax 0 (print_imax n ++ c :: r) = (n, c :: r, false).
Proof.
  intros Hn Hc. unfold print_imax. rewrite (proj2 (Z.ltb_ge _ _)) by lia.
  destruct (decimal_spec 20 n [] ltac:(lia) ltac:(change (10 ^ Z.of_nat 20) with 100000000000000000000; lia))
    as (d & ds & -> & Hd & Hv & H0 & _).
  rewrite app_nil_r. assert (d <> 48) as Hd0 by (intros ->; specialize (H0 eq_refl) as ->; cbn in Hv; lia).
  pose proof (Forall_inv Hd) as Hdd. pose proof (scan_stop (d :: ds) c r Hd Hc 0) as Hs. rewrite Hv in Hs.
  unfold strtoimax, subject. cbn [app] in *. rewrite skip_space_digit by done.
  rewrite (proj2 (Z.eqb_neq d 45)), (proj2 (Z.eqb_neq d 43)) by (unfold isdigit in Hdd; zbool; lia).
  assert (base_prefix 0 (d :: ds ++ c :: r) = (10, d :: ds ++ c :: r)) as ->.
  { unfold base_prefix. destruct (ds ++ c :: r) as [|x [|y l]]; rewrite (proj2 (Z.eqb_neq d 48)) by done; done. }
  destruct (digit_value_digit d Hdd) as [E ?]. rewrite (proj2 (Z.ltb_lt (digit_value d) 10)) by lia. rewrite Hs.
  unfold INTMAX_MAX. rewrite (proj2 (Z.leb_le n _)) by lia. done.
Qed.

Lemma find_char_pass f l r : forall p, nonzero l -> Forall (fun c => f c = false) l ->
  find_char f (l ++ r) p = find_char f r (p + length l).
Proof.
  induction l as [|c l IH]; intros p Hz Hf; cbn [app find_char length]; [by rewrite Nat.add_0_r|].
  apply Forall_cons in Hz as [Hc Hz]. apply Forall_cons in Hf as [Hfc Hf]. rewrite (proj2 (Z.eqb_neq c 0)), Hfc by done.
  rewrite IH by done. f_equal. lia.
Qed.

Lemma mem_tail s k : mem s !! (str s + k)%nat = tail s !! k.
Proof. unfold tail. by rewrite lookup_drop. Qed.

(** [\[\ooo*...\]] is a repetition. *)
Lemma repeat_bracket_octal s c l rest : 0 <= c < 512 -> tail s = chr "[" :: octal c ++ chr "*" :: l ++ chr "]" :: rest ->
  nonzero l -> chr "]" ∉ l -> repeat_bracket s = (s ← genseq (advance s 1); Ok (true, s)).
Proof.
  intros Hc Ht Hz Hl. unfold repeat_bracket, strpbrk.
  assert (drop (str s + 2) (mem s) = drop 1 (octal c) ++ chr "*" :: l ++ chr "]" :: rest) as ->.
  { rewrite <- drop_drop. fold (tail s). by rewrite Ht. }
  pose proof (octal_bytes c Hc) as Hb. pose proof (octal_nonzero c Hc) as Hn.
  rewrite find_char_pass; [|by apply Forall_drop|].
  2: { apply Forall_drop. eapply Forall_impl; [exact Hb|]. cbv beta. intros x Hx. apply orb_false_iff. rewrite !Z.eqb_neq.
       destruct Hx as [Hx| ->]; [|done]. change (chr "*") with 42. change (chr "]") with 93. lia. }
  cbn [find_char]. change (chr "*" =? 0) with false. change (chr "*" =? chr "*") with true. cbn [orb mbind res_bind].
  replace (str s + 2 + length (drop 1 (octal c)))%nat with (str s + 5)%nat by (cbn; lia).
  rewrite (bool_decide_eq_true_2 (_ = _)) by (rewrite mem_tail, Ht; done). cbn [negb].
  unfold strchr. assert (drop (str s + 5) (mem s) = (chr "*" :: l) ++ chr "]" :: rest) as ->.
  { rewrite <- drop_drop. fold (tail s). by rewrite Ht. }
  rewrite find_char_pass.
  - cbn [find_char]. change (chr "]" =? 0) with false. change (chr "]" =? chr "]") with true. done.
  - by constructor.
  - constructor; [done|]. apply Forall_forall. intros x Hx. apply Z.eqb_neq. intros Ex. apply Hl. by rewrite Ex.
Qed.

Lemma bracket_octal s c l rest : 0 <= c < 512 -> tail s = chr "[" :: octal c ++ chr "*" :: l ++ chr "]" :: rest ->
  nonzero l -> chr "]" ∉ l -> bracket s = (s ← genseq (advance s 1); Ok (true, s)).
Proof.
  intros Hc Ht Hz Hl. unfold bracket. rewrite (char_at_tail s 1), Ht. cbn [lookup list_lookup octal app mbind res_bind].
  change (chr "\" =? chr ":") with false. change (chr "\" =? chr "=") with false. cbn iota.
  by apply (repeat_bracket_octal s c l rest).
Qed.

Lemma digits_no_bracket l : digits l -> chr "]" ∉ l.
Proof. intros Hd Hin. unfold digits in Hd. rewrite Forall_forall in Hd. by specialize (Hd _ Hin). Qed.

Lemma genseq_repeat s c n rest : which s = STRING2 -> 0 <= c < 512 -> 0 < n < 2 ^ 31 -> nonzero rest ->
  tail s = octal c ++ chr "*" :: print_imax n ++ chr "]" :: rest ++ [0] ->
  genseq s = Ok (with_state (with_cnt (advance (with_lastch s c) (6 + length (print_imax n))) n) SEQUENCE).
Proof.
  intros Hw Hc Hn Hz Ht. unfold genseq. rewrite decide_False by (by rewrite Hw). rewrite char_at_tail, Ht.
  cbn [lookup list_lookup octal app mbind res_bind]. change (chr "\" =? chr "\") with true. cbn iota.
  rewrite (backslash_octal s c _ Hc Ht). cbn [mbind res_bind].
  assert (tail (with_lastch (advance s 4) c) = chr "*" :: print_imax n ++ chr "]" :: rest ++ [0]) as Ht1.
  { change (tail (with_lastch (advance s 4) c)) with (tail (advance s 4)). by rewrite tail_advance, Ht. }
  rewrite (char_at_tail (with_lastch (advance s 4) c)), Ht1. cbn [lookup list_lookup mbind res_bind]. change (chr "*" =? chr "*") with true. cbn [negb].
  set (s1 := with_lastch (advance s 4) c) in *.
  assert (tail (advance s1 1) = print_imax n ++ chr "]" :: rest ++ [0]) as Ht2 by (by rewrite tail_advance, Ht1).
  destruct (print_digits n Hn) as (d & ds & Ed & Hd & _). rewrite (char_at_tail (advance s1 1)), Ht2, Ed. cbn [app lookup list_lookup mbind res_bind].
  pose proof (Forall_inv Hd) as Hdd. cbv beta in Hdd.
  rewrite (proj2 (Z.eqb_neq d (chr "\"))), (proj2 (Z.eqb_neq d (chr "]"))), Hdd
    by (intros ->; by unfold isdigit in Hdd).
  unfold string_at. fold (tail (advance s1 1)).
  replace (tail (advance s1 1)) with ((print_imax n ++ chr "]" :: rest) ++ [0]) by (rewrite Ht2; by rewrite <- app_assoc).
  rewrite cstring_nonzero by (apply Forall_app; split; [by apply print_nonzero|by constructor]). cbn [mbind res_bind].
  rewrite strtoimax_print by done. change (chr "]" =? chr "]") with true. cbn iota. cbn [mbind res_bind].
  rewrite s32_small by lia. cbn [with_cnt with_str cnt]. rewrite (proj2 (Z.eqb_neq n 0)) by lia.
  f_equal. unfold with_state, with_cnt, advance, with_lastch, with_str, s1. cbn. f_equal.
  rewrite Ed, !length_app. cbn [length]. lia.
Qed.

Lemma genseq_fill s c rest : which s = STRING2 -> 0 <= c < 512 -> tail s = octal c ++ chr "*" :: chr "]" :: rest ->
  genseq s = Ok (with_state (with_cnt (advance (with_lastch s c) 6) 0) INFINITE).
Proof.
  intros Hw Hc Ht. unfold genseq. rewrite decide_False by (by rewrite Hw). rewrite char_at_tail, Ht.
  cbn [lookup list_lookup octal app mbind res_bind]. change (chr "\" =? chr "\") with true. cbn iota.
  rewrite (backslash_octal s c _ Hc Ht). cbn [mbind res_bind].
  assert (tail (with_lastch (advance s 4) c) = chr "*" :: chr "]" :: rest) as Ht1.
  { change (tail (with_lastch (advance s 4) c)) with (tail (advance s 4)). by rewrite tail_advance, Ht. }
  rewrite (char_at_tail (with_lastch (advance s 4) c)), Ht1. cbn [lookup list_lookup mbind res_bind]. change (chr "*" =? chr "*") with true. cbn [negb].
  set (s1 := with_lastch (advance s 4) c) in *. rewrite (char_at_tail (advance s1 1)), tail_advance, Ht1.
  cbn [drop lookup list_lookup mbind res_bind]. change (chr "]" =? chr "\") with false. change (chr "]" =? chr "]") with true. cbn iota. cbn [mbind res_bind].
  cbn [cnt with_cnt advance with_str]. change (0 =? 0) with true. cbn iota.
  f_equal. unfold with_state, with_cnt, advance, with_lastch, with_str, s1. cbn. f_equal. lia.
Qed.

(** ** Every call of [next] *)

(** At an item, one lemma for each. *)
Lemma at_rest_step w i its s s' : at_rest w (i :: its) s -> which s' = which s -> tail s' = render its ++ [0] -> at_rest w its s'.
Proof. intros (Hw & _ & _ & _ & Hits) Hw' Ht. split; [by rewrite Hw'|]. by split. Qed.

Lemma at_rest_tail w i its s : at_rest w (i :: its) s -> tail s = render1 i ++ render its ++ [0].
Proof. intros (_ & Ht & _). rewrite Ht. change (render (i :: its)) with (render1 i ++ render its). by rewrite <- app_assoc. Qed.

(** A character that is not followed by a range is delivered. *)
Lemma single_next w i its s s' c : at_rest w (i :: its) s -> state s = NORMAL -> which s' = which s ->
  tail s' = render its ++ [0] -> state s' = NORMAL -> lastch s' = c ->
  exists h r, tail s' = h :: r /\ (h =? chr "-") = false /\ which s' = which s /\ lastch s' = c /\ ready w s' (chars_of its) /\ outside_class s'.
Proof.
  intros Hrest Hst Hw' Ht Hst' Hc. pose proof (at_rest_step w i its s s' Hrest Hw' Ht) as Hrest'. rewrite Ht.
  destruct (render_head w its) as (h & r & -> & Hne); [apply Hrest'|]. exists h, r.
  split; [done|]. split; [by apply Z.eqb_neq|]. split; [done|]. split; [done|]. split; [by apply ready_normal|].
  unfold outside_class. by rewrite Hst'.
Qed.

Lemma plain_next w again s c its : at_rest w (Plain c :: its) s -> state s = NORMAL ->
  delivers w s (chars_of (Plain c :: its)) (next_step again s).
Proof.
  intros Hrest Hst. pose proof (at_rest_tail _ _ _ _ Hrest) as Ht. pose proof Hrest as (_ & _ & (Hc & Hsp) & _ & Hits).
  cbn [render1 app] in Ht. unfold next_step. rewrite Hst, (char_at_tail s 0), Ht. cbn [lookup list_lookup mbind res_bind].
  rewrite (proj2 (Z.eqb_neq c 0)) by lia.
  rewrite (proj2 (Z.eqb_neq c (chr "\"))), (proj2 (Z.eqb_neq c (chr "["))) by (intros ->; set_solver). cbn [mbind res_bind].
  rewrite (wchar_at_tail s (c :: render its)) by (done || (constructor; [lia|by eapply render_nonzero])). cbn [mbind res_bind].
  rewrite mbrtowc_ascii by lia. change (1 =? 0) with false. cbn iota.
  set (s' := advance (with_lastch s c) (Z.to_nat 1)).
  assert (tail s' = render its ++ [0]) as Ht' by (unfold s'; rewrite tail_advance; change (tail (with_lastch s c)) with (tail s); by rewrite Ht).
  destruct (single_next w (Plain c) its s s' c Hrest Hst eq_refl Ht' Hst eq_refl) as (h & r & E & Eh & Hres).
  rewrite (char_at_tail s' 0), E. cbn [lookup list_lookup mbind res_bind]. rewrite Eh. by exists s'.
Qed.

Lemma octal_next w again s c its : at_rest w (Octal c :: its) s -> state s = NORMAL ->
  delivers w s (chars_of (Octal c :: its)) (next_step again s).
Proof.
  intros Hrest Hst. pose proof (at_rest_tail _ _ _ _ Hrest) as Ht. pose proof Hrest as (_ & _ & Hi & _ & Hits).
  cbn [item_ok render1] in *. unfold next_step. rewrite Hst, (char_at_tail s 0), Ht.
  cbn [app lookup list_lookup octal mbind res_bind].
  change (chr "\" =? 0) with false. change (chr "\" =? chr "\") with true. cbn iota.
  rewrite (backslash_octal s c _ Hi Ht). cbn [mbind res_bind]. set (s' := with_lastch (advance s 4) c).
  assert (tail s' = render its ++ [0]) as Ht' by (change (tail s') with (tail (advance s 4)); by rewrite tail_advance, Ht).
  destruct (single_next w (Octal c) its s s' c Hrest Hst eq_refl Ht' Hst eq_refl) as (h & r & E & Eh & Hres).
  rewrite (char_at_tail s' 0), E. cbn [lookup list_lookup mbind res_bind]. rewrite Eh. by exists s'.
Qed.

Lemma rangeitem_next w f s a b its : at_rest w (Range a b :: its) s -> state s = NORMAL ->
  delivers w s (chars_of (Range a b :: its)) (next_fuel (S (S f)) s).
Proof.
  intros Hrest Hst. pose proof (at_rest_tail _ _ _ _ Hrest) as Ht. pose proof Hrest as (Hw & _ & (Hab & Hb) & _ & Hits).
  cbn [render1] in Ht. rewrite <- !app_assoc in Ht. cbn [next_fuel]. unfold next_step at 1. rewrite Hst, (char_at_tail s 0), Ht.
  change (chars_of (Range a b :: its)) with (seqZ' a (Z.to_nat (b - a + 1)) ++ chars_of its).
  cbn [app lookup list_lookup octal mbind res_bind].
  change (chr "\" =? 0) with false. change (chr "\" =? chr "\") with true. cbn iota.
  rewrite (backslash_octal s a _ ltac:(lia) Ht). cbn [mbind res_bind]. set (s1 := with_lastch (advance s 4) a).
  assert (tail s1 = chr "-" :: octal b ++ render its ++ [0]) as Ht1
    by (change (tail s1) with (tail (advance s 4)); by rewrite tail_advance, Ht).
  rewrite (char_at_tail s1 0), Ht1. cbn [lookup list_lookup mbind res_bind]. change (chr "-" =? chr "-") with true. cbn iota.
  rewrite (genrange_octal s1 a b _ _ ltac:(done) Hab Hb Ht1). cbn [mbind res_bind].
  replace (Z.to_nat (b - a + 1)) with (S (Z.to_nat (b - a))) by lia. set (s2 := with_lastch _ (u32 (a - 1))).
  assert (delivers w s2 (seqZ' a (S (Z.to_nat (b - a))) ++ chars_of its) (next_step (next_fuel f) s2)) as Hd.
  { apply range_next; [|done|cbn; lia| |lia|lia].
    - apply (at_rest_step w (Range a b) its s); [done|done|]. change (tail s2) with (tail (advance s1 5)). by rewrite tail_advance, Ht1.
    - unfold s2. cbn [lastch with_lastch]. unfold u32. rewrite Zplus_mod_idemp_l.
      replace (a - 1 + 1) with a by lia. apply Z.mod_small. lia. }
  rewrite seqZ'_S in Hd |- *. exact Hd.
Qed.

Lemma repeat_next w f s c n its : at_rest w (Repeat c n :: its) s -> state s = NORMAL ->
  delivers w s (chars_of (Repeat c n :: its)) (next_fuel (S (S f)) s).
Proof.
  intros Hrest Hst. pose proof (at_rest_tail _ _ _ _ Hrest) as Ht. pose proof Hrest as (Hw & _ & (Hc & Hn & Hw2) & _ & Hits).
  cbn [render1] in Ht. rewrite <- !app_assoc in Ht. cbn [app] in Ht. cbn [next_fuel]. unfold next_step at 1. rewrite Hst, (char_at_tail s 0), Ht.
  change (chars_of (Repeat c n :: its)) with (repeat c (Z.to_nat n) ++ chars_of its).
  cbn [app lookup list_lookup mbind res_bind]. change (chr "[" =? 0) with false. change (chr "[" =? chr "\") with false.
  change (chr "[" =? chr "[") with true. cbn iota.
  destruct (print_digits n Hn) as (d & ds & Ed & Hd & _).
  rewrite (bracket_octal s c _ _ Hc Ht) by (by apply print_nonzero || (rewrite Ed; by apply digits_no_bracket)).
  rewrite (genseq_repeat (advance s 1) c n (render its));
    [|exact (Hw Hw2)|done|done|by eapply render_nonzero|by rewrite tail_advance, Ht].
  cbn [mbind res_bind]. set (s1 := with_state _ SEQUENCE). replace (Z.to_nat n) with (S (Z.to_nat (n - 1))) by lia.
  change c with (lastch s1). apply (seq_next w (next_fuel f) s1 its); [|done|cbn; lia].
  apply (at_rest_step w (Repeat c n) its s); [done|done|].
  change (tail s1) with (tail (advance (advance s 1) (6 + length (print_imax n)))). rewrite !tail_advance, Ht.
  assert (drop 1 (chr "[" :: octal c ++ chr "*" :: print_imax n ++ chr "]" :: render its ++ [0]) =
    (octal c ++ chr "*" :: print_imax n ++ [chr "]"]) ++ render its ++ [0]) as ->
    by (rewrite <- !app_assoc; cbn [app drop]; by rewrite <- app_assoc).
  apply drop_app_length'. rewrite !length_app. cbn [length octal]. rewrite length_app. cbn. lia.
Qed.

Lemma fill_infinite w f s c its : at_rest w (Fill c :: its) s -> state s = NORMAL ->
  exists s', next_fuel (S (S f)) s = Ok (true, s') /\ which s' = which s /\ lastch s' = c /\ state s' = INFINITE.
Proof.
  intros Hrest Hst. pose proof (at_rest_tail _ _ _ _ Hrest) as Ht. pose proof Hrest as (Hw & _ & (Hc & Hw2) & -> & Hits).
  cbn [render1] in Ht. rewrite <- !app_assoc in Ht. cbn [app] in Ht. cbn [next_fuel]. unfold next_step at 1. rewrite Hst, (char_at_tail s 0), Ht.
  cbn [app lookup list_lookup mbind res_bind]. change (chr "[" =? 0) with false. change (chr "[" =? chr "\") with false.
  change (chr "[" =? chr "[") with true. cbn iota.
  rewrite (bracket_octal s c [] _ Hc Ht) by (by constructor || apply not_elem_of_nil).
  rewrite (genseq_fill (advance s 1) c (render [] ++ [0])); [|exact (Hw Hw2)|done|by rewrite tail_advance, Ht].
  cbn [mbind res_bind]. unfold next_step. cbn [state with_state]. by eexists.
Qed.

Lemma fill_next w f s c its : at_rest w (Fill c :: its) s -> state s = NORMAL ->
  delivers w s (chars_of (Fill c :: its)) (next_fuel (S (S f)) s).
Proof.
  intros Hrest Hst. destruct (fill_infinite w f s c its Hrest Hst) as (s' & E & Hw & Hl & Hs).
  destruct Hrest as (_ & _ & (_ & Hw2) & -> & _). exists s'. split; [exact E|]. split; [done|]. split; [done|].
  split; [by apply ready_fill|]. unfold outside_class. by rewrite Hs.
Qed.

Lemma normal_next w f s its : at_rest w its s -> state s = NORMAL ->
  delivers w s (chars_of its) (next_fuel (S (S f)) s).
Proof.
  intros Hrest Hst. destruct its as [|[c|c|a b|c n|c] its].
  - destruct Hrest as (_ & Ht & _). cbn [next_fuel]. unfold next_step at 1. rewrite Hst, (char_at_tail s 0), Ht. cbn.
    exists false, (with_state s EOS). split; [done|]. split; [done|]. split; [done|]. split; [by apply ready_eos|]. split; [by left|done].
  - by apply plain_next.
  - by apply octal_next.
  - by apply rangeitem_next.
  - by apply repeat_next.
  - by apply fill_next.
Qed.

Lemma at_rest_mem w its s : at_rest w its s -> (1 <= length (mem s))%nat.
Proof.
  intros (_ & Ht & _). assert (length (tail s) <= length (mem s))%nat as Hle by (unfold tail; rewrite length_drop; lia).
  rewrite Ht, length_app in Hle. cbn in Hle. lia.
Qed.

(** A range or a repetition that is used up goes on with the next item. *)
Lemma again_next w s st its f : at_rest w its s -> state s = st -> st = RANGE \/ st = SEQUENCE -> cnt s = 0 ->
  delivers w s (chars_of its) (next_fuel (S (S (S f))) s).
Proof.
  intros Hrest Hst Hor Hc. set (s' := with_state (with_cnt s (0 - 1)) NORMAL).
  assert (next_fuel (S (S (S f))) s = next_fuel (S (S f)) s') as ->.
  { change (next_fuel (S (S (S f))) s) with (next_step (next_fuel (S (S f))) s). unfold next_step, count_down. rewrite Hst, Hc.
    destruct Hor as [-> | ->]; reflexivity. }
  by apply (normal_next w f s' its).
Qed.

(** [next] delivers what is left, one character after the other. *)
Lemma ready_next w s l : ready w s l -> delivers w s l (next s).
Proof.
  unfold next. intros Hr. destruct Hr as [s its Hrest Hst|s its a n Hrest Hst Hc Ha Hpos Hle|s its n Hrest Hst Hc|s Hw Hst|s Hst];
    try (pose proof (at_rest_mem _ _ _ Hrest) as Hlen;
         replace (2 * length (mem s) + 2)%nat with (S (S (S (2 * length (mem s) - 1)))) by lia).
  - by apply normal_next.
  - destruct n as [|n]; [|cbn [next_fuel]; by apply range_next]. eapply again_next; [done|exact Hst|by left|done].
  - destruct n as [|n]; [|cbn [next_fuel]; by apply seq_next]. eapply again_next; [done|exact Hst|by right|done].
  - replace (2 * length (mem s) + 2)%nat with (S (2 * length (mem s) + 1)) by lia. cbn [next_fuel]. unfold next_step. rewrite Hst.
    exists true, s. split; [done|]. split; [done|]. split; [done|]. split; [by apply ready_fill|]. split; [by right|by rewrite Hw].
  - replace (2 * length (mem s) + 2)%nat with (S (2 * length (mem s) + 1)) by lia. cbn [next_fuel]. unfold next_step. rewrite Hst.
    exists false, s. split; [done|]. split; [done|]. split; [done|]. split; [by apply ready_eos|]. split; [by left|done].
Qed.

Lemma init_ready w w' its : items_ok w its -> (w = STRING2 -> w' = STRING2) ->
  ready w (str_init w' (render its)) (chars_of its).
Proof. intros Hok Hw. by apply ready_normal. Qed.

End Next.

#[export] Instance c_tr_locale_ok : TrLocaleOk (H := c_tr_locale).
Proof. split. reflexivity. Qed.
