(* ===== verification/TrCorrect.v ===== *)
(** What tr does to its input: deleting, squeezing and translating, for strings
    written from characters, ranges and repetitions. *)

From stdpp Require Import gmap.
From S2P Require Import Prelude Ctype Strto Splay TrSet TrMap TrStr Tr TrNext.

(** ** Specification *)

(** The characters selected by string 1 with [-c] or [-C]. *)
Definition selected `{TrLocale} (cflag Cflag : bool) (l : list Z) (ch : Z) : bool :=
  xorb (cflag || Cflag)
    ((Cflag && negb (iswctype ch (default no_class (wctype (codes "rune"))))) || bool_decide (ch ∈ l)).

(** Of equal neighbours that [sel] selects only the first stays. *)
Definition squeezed (sel : Z -> bool) (l : list Z) : list Z :=
  (fun p => p.2) <$> List.filter (fun p => negb ((p.1 =? p.2) && sel p.2)) (zip (OOBCH :: l) l).

(** The first [n] characters of a string that goes on with its last one. *)
Fixpoint supply (c : Z) (l : list Z) (n : nat) : list Z :=
  match n with
  | O => []
  | S n => c :: match l with [] => supply c [] n | x :: l => supply x l n end
  end.

(** Where a list of pairs takes a character: the last pair counts. *)
Definition image (ps : list (Z * Z)) (ch : Z) : Z :=
  foldl (fun to p => if p.1 =? ch then p.2 else to) ch ps.

Section Correct.
Context {L : TrLocale} {LOk : TrLocaleOk}.
Lemma chars1_range w i : item_ok w i -> Forall (fun c => 0 <= c < 512) (chars1 i).
Proof.
  destruct i as [c|c|a b|c n|c]; cbn [item_ok chars1]; intros Hi; try (by repeat constructor; lia).
  - apply Forall_forall. intros x Hx. unfold seqZ' in Hx. apply list_elem_of_fmap in Hx as (k & -> & Hk). apply elem_of_seq in Hk. lia.
  - apply Forall_forall. intros x Hx. apply list_elem_of_In, repeat_spec in Hx. lia.
Qed.

Lemma chars_range w its : items_ok w its -> Forall (fun c => 0 <= c < 512) (chars_of its).
Proof.
  induction its as [|i its IH]; [constructor|]. intros (Hi & _ & Hits). apply Forall_app. split; [by eapply chars1_range|by apply IH].
Qed.

Lemma add_char_spec cs S ch : TrSet.represents cs S -> is_wchar ch ->
  exists cs', add_char cs ch = Done cs' /\ TrSet.represents cs' (Charset ({[ch]} ∪ chars S) (classes S) (inverted S)).
Proof.
  intros Hrep Hch. destruct (cset_run_op_spec cs S (TrSet.Add true ch) Hrep Hch) as (cs' & E & Hrep').
  cbn [TrSet.run_op set_op orb] in *. unfold add_char. rewrite E. by exists cs'.
Qed.

Lemma cset_in_done cs S ch : TrSet.represents cs S -> 0 <= ch ->
  exists cs', of_option (cset_in cs ch) = Done (contains S ch, cs') /\ TrSet.represents cs' S.
Proof. intros Hrep Hch. destruct (cset_in_spec cs S ch Hrep Hch) as (cs' & -> & Hrep'). by exists cs'. Qed.

Lemma next_of s r : next s = r -> next' s = of_res r.
Proof. by intros <-. Qed.

(** ** setup *)

Lemma setup_loop_spec l : forall fuel s cs S, ready STRING1 s l -> Forall is_wchar l -> (length l < fuel)%nat ->
  TrSet.represents cs S ->
  exists cs', setup_loop fuel s cs = Done cs' /\
    TrSet.represents cs' (Charset (list_to_set l ∪ chars S) (classes S) (inverted S)).
Proof.
  induction l as [|c l IH]; intros fuel s cs S Hr Hl Hf Hrep; (destruct fuel as [|fuel]; [cbn in Hf; lia|]); cbn [setup_loop];
    pose proof (ready_next _ _ _ Hr) as Hd; cbn [delivers] in Hd.
  - destruct Hd as (b & s' & E & _ & _ & _ & _ & Hb). rewrite (next_of _ _ E), Hb by done. cbn [of_res mbind outcome_bind].
    exists cs. split; [done|]. destruct S as [ch cl iv]. cbn. by rewrite union_empty_l_L.
  - destruct Hd as (s' & E & _ & Hc & Hr' & _). rewrite (next_of _ _ E). cbn [of_res mbind outcome_bind]. rewrite Hc.
    apply Forall_cons in Hl as [Hcc Hl]. destruct (add_char_spec cs S c Hrep Hcc) as (cs1 & -> & Hrep1). cbn [mbind outcome_bind].
    destruct (IH fuel s' cs1 _ Hr' Hl ltac:(cbn in Hf; lia) Hrep1) as (cs2 & E2 & Hrep2). exists cs2. split; [done|].
    cbn [chars classes inverted list_to_set foldr] in *.
    by replace ({[c]} ∪ list_to_set l ∪ chars S) with (list_to_set l ∪ ({[c]} ∪ chars S)) by set_solver.
Qed.

Lemma setup_spec set_memory fuel s l cflag Cflag : length set_memory = Z.to_nat CS_CACHE_SIZE -> ready STRING1 s l -> Forall is_wchar l -> (length l < fuel)%nat ->
  exists cs S, setup set_memory fuel s cflag Cflag = Done cs /\ TrSet.represents cs S /\
    forall ch, contains S ch = selected cflag Cflag l ch.
Proof.
  intros Hset Hr Hl Hf. unfold setup.
  destruct (setup_loop_spec l fuel s _ _ Hr Hl Hf (cset_alloc_represents set_memory Hset)) as (cs & -> & Hrep).
  cbn [mbind outcome_bind]. cbn [chars classes inverted] in Hrep. rewrite union_empty_r_L in Hrep. set (rune := default no_class _).
  set (S1 := Charset (list_to_set l) (if Cflag then [(rune, true)] else []) false).
  set (cs1 := if Cflag then _ else cs).
  assert (TrSet.represents cs1 S1) as Hrep1.
  { unfold cs1, S1. destruct Cflag; [|done].
    by destruct (cset_run_op_spec cs _ (AddClass true rune true) Hrep I) as (cs' & [= <-] & Hrep'). }
  set (cs2 := if cflag || Cflag then _ else cs1).
  assert (TrSet.represents cs2 (Charset (list_to_set l) (if Cflag then [(rune, true)] else []) (cflag || Cflag))) as Hrep2.
  { unfold cs2. destruct (cflag || Cflag); [|done].
    by destruct (cset_run_op_spec cs1 S1 Invert Hrep1 I) as (cs' & [= <-] & Hrep'). }
  destruct (cset_cache_spec cs2 _ Hrep2) as (cs3 & -> & Hrep3). eexists _, _. split; [done|]. split; [exact Hrep3|].
  intros ch. unfold contains, selected. cbn [chars classes inverted]. f_equal. f_equal.
  - destruct Cflag; cbn [existsb andb in_class fst snd]; [|done]. by rewrite orb_false_r.
  - apply bool_decide_ext. by rewrite elem_of_list_to_set.
Qed.

(** ** The loops over the input *)

Lemma delete_loop_spec input : forall cs S, TrSet.represents cs S -> Forall (fun ch => 0 <= ch) input ->
  delete_loop cs input = Done (List.filter (fun ch => negb (contains S ch)) input).
Proof.
  induction input as [|ch input IH]; intros cs S Hrep Hin; [done|]. apply Forall_cons in Hin as [Hch Hin]. cbn [delete_loop List.filter].
  destruct (cset_in_done cs S ch Hrep Hch) as (cs' & -> & Hrep'). cbn [mbind outcome_bind]. rewrite (IH cs' S Hrep' Hin). cbn [mbind outcome_bind].
  by destruct (contains S ch).
Qed.

Definition squeezed_from (sel : Z -> bool) (last : Z) (l : list Z) : list Z :=
  (fun p => p.2) <$> List.filter (fun p => negb ((p.1 =? p.2) && sel p.2)) (zip (last :: l) l).

Lemma squeezed_cons sel last ch l :
  squeezed_from sel last (ch :: l) = (if (last =? ch) && sel ch then [] else [ch]) ++ squeezed_from sel ch l.
Proof. unfold squeezed_from. cbn [zip zip_with List.filter fst snd]. by destruct ((last =? ch) && sel ch). Qed.

(** The decision of the squeezing loops. *)
Lemma keep_spec cs S last ch : TrSet.represents cs S -> 0 <= ch ->
  exists cs', (if negb (last =? ch) then Done (true, cs)
               else '(b, cs) ← of_option (cset_in cs ch); Done (negb b, cs)) =
    Done (negb ((last =? ch) && contains S ch), cs') /\ TrSet.represents cs' S.
Proof.
  intros Hrep Hch. destruct (last =? ch); cbn [negb andb]; [|by exists cs].
  destruct (cset_in_done cs S ch Hrep Hch) as (cs' & -> & Hrep'). by exists cs'.
Qed.

Lemma squeeze_loop_spec input : forall cs S last, TrSet.represents cs S -> Forall (fun ch => 0 <= ch) input ->
  squeeze_loop cs last input = Done (squeezed_from (contains S) last input).
Proof.
  induction input as [|ch input IH]; intros cs S last Hrep Hin; [done|]. apply Forall_cons in Hin as [Hch Hin].
  cbn [squeeze_loop]. rewrite squeezed_cons. destruct (keep_spec cs S last ch Hrep Hch) as (cs' & -> & Hrep'). cbn [mbind outcome_bind].
  destruct ((last =? ch) && contains S ch) eqn:E; cbn [negb app]; rewrite (IH cs' S _ Hrep' Hin); [|done].
  by apply andb_true_iff in E as [->%Z.eqb_eq _].
Qed.

Lemma delete_squeeze_loop_spec input : forall ds D cs S last, TrSet.represents ds D -> TrSet.represents cs S ->
  Forall (fun ch => 0 <= ch) input ->
  delete_squeeze_loop ds cs last input =
    Done (squeezed_from (contains S) last (List.filter (fun ch => negb (contains D ch)) input)).
Proof.
  induction input as [|ch input IH]; intros ds D cs S last Hd Hs Hin; [done|]. apply Forall_cons in Hin as [Hch Hin].
  cbn [delete_squeeze_loop List.filter]. destruct (cset_in_done ds D ch Hd Hch) as (ds' & -> & Hd'). cbn [mbind outcome_bind].
  destruct (contains D ch); cbn [negb]; [by apply IH|]. rewrite squeezed_cons.
  destruct (keep_spec cs S last ch Hs Hch) as (cs' & -> & Hs'). cbn [mbind outcome_bind].
  destruct ((last =? ch) && contains S ch) eqn:E; cbn [negb app]; rewrite (IH ds' D cs' S _ Hd' Hs' Hin); [|done].
  by apply andb_true_iff in E as [->%Z.eqb_eq _].
Qed.

Lemma wchars its w : items_ok w its -> Forall is_wchar (chars_of its).
Proof. intros Hok. eapply Forall_impl; [by eapply chars_range|]. unfold is_wchar. cbv beta. lia. Qed.

Lemma filter_ext_eq (f g : Z -> bool) l : (forall x, f x = g x) -> List.filter f l = List.filter g l.
Proof. intros E. induction l as [|x l IH]; [done|]. cbn. rewrite E, IH. done. Qed.

Lemma squeezed_ext f g last l : (forall x, f x = g x) -> squeezed_from f last l = squeezed_from g last l.
Proof.
  intros E. revert last. induction l as [|x l IH]; intros last; [done|]. by rewrite !squeezed_cons, E, IH.
Qed.

(** C12. [tr -d], [tr -s] with one string and [tr -ds]: the characters that string 1
    selects (the others with [-c]) are left out, and of equal neighbours in the
    squeezed set only the first is kept; on every input, with any cache. *)
Theorem tr_deletes_and_squeezes set_memory map_memory fuel cflag Cflag its1 its2 input :
  length set_memory = Z.to_nat CS_CACHE_SIZE -> items_ok STRING1 its1 -> items_ok STRING1 its2 ->
  (length (chars_of its1) < fuel)%nat -> (length (chars_of its2) < fuel)%nat -> Forall (fun ch => 0 <= ch) input ->
  let sel1 := selected cflag Cflag (chars_of its1) in
  let sel2 := selected false false (chars_of its2) in
  let kept := List.filter (fun ch => negb (sel1 ch)) input in
  tr_main set_memory map_memory fuel Cflag cflag true false [render its1] input = Done kept /\
  tr_main set_memory map_memory fuel Cflag cflag false true [render its1] input = Done (squeezed sel1 input) /\
  tr_main set_memory map_memory fuel Cflag cflag true true [render its1; render its2] input = Done (squeezed sel2 kept).
Proof.
  intros Hset H1 H2 Hf1 Hf2 Hin sel1 sel2 kept.
  destruct (setup_spec set_memory fuel (str_init STRING1 (render its1)) _ cflag Cflag Hset (init_ready _ STRING1 its1 H1 (fun e => e)) (wchars _ _ H1) Hf1)
    as (cs1 & S1 & E1 & R1 & C1).
  destruct (setup_spec set_memory fuel (str_init STRING2 (render its2)) _ false false Hset (init_ready _ STRING2 its2 H2 (fun _ => eq_refl)) (wchars _ _ H2) Hf2)
    as (cs2 & S2 & E2 & R2 & C2).
  unfold tr_main. cbn [andb]. rewrite E1, E2. cbn [mbind outcome_bind].
  rewrite (delete_loop_spec input cs1 S1 R1 Hin), (squeeze_loop_spec input cs1 S1 _ R1 Hin),
    (delete_squeeze_loop_spec input cs1 S1 cs2 S2 _ R1 R2 Hin).
  assert (forall ch, negb (contains S1 ch) = negb (sel1 ch)) as Hneg by (intros ch; by rewrite C1).
  rewrite !(filter_ext_eq _ _ input Hneg), (squeezed_ext _ sel1 _ input C1), (squeezed_ext _ sel2 _ _ C2). done.
Qed.

(** ** Translating *)

Lemma add_pair_spec cm M from to : TrMap.represents cm M ->
  exists cm', add_pair cm from to = Done cm' /\
    TrMap.represents cm' (Charmap (<[from := to]> (entries M)) (default_to M)).
Proof.
  intros Hrep. destruct (cmap_add_spec true cm M from to Hrep) as (cm' & E & Hrep'). unfold add_pair. rewrite E. by exists cm'.
Qed.

(** The map and the set that a state of the program stands for. *)
Definition stand_for (m : maps) (M : charmap) (S : charset) : Prop :=
  TrMap.represents (m_map m) M /\ TrSet.represents (m_squeeze m) S.

Definition plus (S : charset) (l : list Z) : charset := Charset (list_to_set l ∪ chars S) (classes S) (inverted S).
Definition put_pairs (M : charmap) (ps : list (Z * Z)) : charmap :=
  Charmap (foldl (fun e p => <[p.1 := p.2]> e) (entries M) ps) (default_to M).

Lemma plus_nil S : plus S [] = S.
Proof. destruct S. unfold plus. cbn. by rewrite union_empty_l_L. Qed.
Lemma plus_cons S c l : plus (plus S [c]) l = plus S (c :: l).
Proof. unfold plus. cbn. f_equal. set_solver. Qed.
Lemma put_nil M : put_pairs M [] = M.
Proof. by destruct M. Qed.

Lemma add_mapping_spec sflag m M S from to : stand_for m M S -> is_wchar to ->
  exists m', add_mapping sflag (fun _ => true) m from to = Done m' /\
    stand_for m' (put_pairs M [(from, to)]) (plus S (if sflag then [to] else [])) /\ m_s1 m' = m_s1 m /\ m_s2 m' = m_s2 m.
Proof.
  intros [Hm Hs] Hto. unfold add_mapping. destruct (add_pair_spec _ M from to Hm) as (map & -> & Hm'). cbn [mbind outcome_bind].
  rewrite andb_true_r. destruct sflag.
  - destruct (add_char_spec _ S to Hs Hto) as (sq & -> & Hs'). cbn [mbind outcome_bind]. eexists. split; [done|].
    split; [|done]. split; [exact Hm'|]. unfold plus. cbn [list_to_set foldr m_squeeze]. by rewrite union_empty_r_L.
  - cbn [mbind outcome_bind]. eexists. split; [done|]. split; [|done]. split; [exact Hm'|]. by rewrite plus_nil.
Qed.

Lemma supply_length c l n : length (supply c l n) = n.
Proof. revert c l. induction n as [|n IH]; intros c l; [done|]. cbn. destruct l; by rewrite IH. Qed.

Lemma supply_wchar n : forall c l, is_wchar c -> Forall is_wchar l -> Forall is_wchar (supply c l n).
Proof.
  induction n as [|n IH]; intros c l Hc Hl; [constructor|]. cbn [supply]. constructor; [done|].
  destruct Hl; by apply IH.
Qed.

(** [next] on string 2, whose end repeats its last character. *)
Lemma next_supply w s l : ready w s l ->
  exists b s', next' s = Done (b, s') /\ which s' = which s /\
    match l with [] => lastch s' = lastch s /\ ready w s' [] /\ exhausted s' | c :: l => lastch s' = c /\ ready w s' l /\ b = true end.
Proof.
  intros Hr. pose proof (ready_next _ _ _ Hr) as Hd. unfold next'. destruct l as [|c l]; cbn [delivers] in Hd.
  - destruct Hd as (b & s' & -> & Hw & Hl & Hr' & He & _). exists b, s'. by split_and!.
  - destruct Hd as (s' & -> & Hw & Hl & Hr' & _). exists true, s'. by split_and!.
Qed.

Lemma conversion_outside s1 s2 : outside_class s1 -> conversion_of s1 s2 = None.
Proof. intros (H1 & H2 & H3). unfold conversion_of. destruct (_ && _); [|done]. by destruct (state s1). Qed.

Lemma map_loop_spec sflag l1 : forall fuel m l2 M S, ready STRING1 (m_s1 m) l1 -> ready STRING2 (m_s2 m) l2 ->
  is_wchar (lastch (m_s2 m)) -> Forall is_wchar l2 -> stand_for m M S -> (length l1 < fuel)%nat ->
  let targets := supply (lastch (m_s2 m)) l2 (length l1) in
  exists m', map_loop fuel sflag false m = Done m' /\ which (m_s2 m') = which (m_s2 m) /\
    stand_for m' (put_pairs M (zip l1 targets)) (plus S (if sflag then targets else [])).
Proof.
  induction l1 as [|c1 l1 IH]; intros fuel m l2 M S Hr1 Hr2 Hc2 Hl2 Hst Hf; (destruct fuel as [|fuel]; [cbn in Hf; lia|]);
    cbn [map_loop]; pose proof (ready_next _ _ _ Hr1) as Hd; cbn [delivers] in Hd.
  - destruct Hd as (b & s' & E & _ & _ & _ & _ & Hb). rewrite (next_of _ _ E), Hb by done. cbn [of_res mbind outcome_bind negb].
    eexists. split; [done|]. split; [done|]. cbn [supply length zip zip_with]. destruct sflag; by rewrite put_nil, plus_nil.
  - destruct Hd as (s1 & E & _ & Hc & Hr1' & Hout). rewrite (next_of _ _ E). cbn [of_res mbind outcome_bind negb m_s1 m_s2].
    rewrite (conversion_outside s1 (m_s2 m) Hout). set (m1 := Maps _ _ s1 (m_s2 m)).
    destruct (add_mapping_spec sflag m1 M S (lastch s1) (lastch (m_s2 m)) Hst Hc2) as (m2 & -> & Hst2 & E1 & E2). cbn [mbind outcome_bind].
    rewrite E2. change (m_s2 m1) with (m_s2 m).
    destruct (next_supply _ _ _ Hr2) as (b & s2 & -> & Hw2 & Hs2). cbn [mbind outcome_bind]. rewrite E1. change (m_s1 m1) with s1.
    set (m3 := Maps (m_map m2) (m_squeeze m2) s1 s2). rewrite Hc in Hst2.
    assert (exists l2', ready STRING2 s2 l2' /\ is_wchar (lastch s2) /\ Forall is_wchar l2' /\
      supply (lastch (m_s2 m)) l2 (length (c1 :: l1)) = lastch (m_s2 m) :: supply (lastch s2) l2' (length l1))
      as (l2' & Hr2' & Hc2' & Hl2' & ->).
    { destruct l2 as [|x l2]; cbn [supply length].
      - destruct Hs2 as (-> & Hr2' & _). by exists [].
      - destruct Hs2 as (-> & Hr2' & _). apply Forall_cons in Hl2 as [Hx Hl2]. by exists l2. }
    destruct (IH fuel m3 l2' _ _ Hr1' Hr2' Hc2' Hl2' Hst2 ltac:(cbn in Hf; lia)) as (m4 & E4 & Hw4 & Hst4).
    exists m4. split; [exact E4|]. split; [by rewrite Hw4|]. destruct sflag; [rewrite plus_cons in Hst4|rewrite (plus_nil S) in Hst4]; exact Hst4.
Qed.

(** ** Output *)

Lemma map_output_spec input : forall cm M, TrMap.represents cm M -> Forall (fun ch => 0 <= ch) input ->
  map_output false cm input = Done (value M <$> input).
Proof.
  induction input as [|ch input IH]; intros cm M Hrep Hin; [done|]. apply Forall_cons in Hin as [Hch Hin]. cbn [map_output negb orb].
  destruct (cmap_lookup_spec cm M ch Hrep Hch) as (cm' & -> & Hrep'). cbn [of_option mbind outcome_bind].
  by rewrite (IH cm' M Hrep' Hin).
Qed.

Lemma map_squeeze_output_spec input : forall cm M cs S last, TrMap.represents cm M -> TrSet.represents cs S ->
  Forall (fun ch => 0 <= ch) input -> (forall ch, 0 <= ch -> 0 <= value M ch) ->
  map_squeeze_output false cm cs last input = Done (squeezed_from (contains S) last (value M <$> input)).
Proof.
  induction input as [|ch input IH]; intros cm M cs S last Hm Hs Hin Hpos; [done|]. apply Forall_cons in Hin as [Hch Hin].
  cbn [map_squeeze_output negb orb fmap list_fmap]. rewrite squeezed_cons.
  destruct (cmap_lookup_spec cm M ch Hm Hch) as (cm' & -> & Hm'). cbn [of_option mbind outcome_bind].
  destruct (keep_spec cs S last (value M ch) Hs (Hpos ch Hch)) as (cs' & -> & Hs'). cbn [mbind outcome_bind].
  destruct ((last =? value M ch) && contains S (value M ch)) eqn:E; cbn [negb app]; rewrite (IH cm' M cs' S _ Hm' Hs' Hin Hpos); [|done].
  by apply andb_true_iff in E as [->%Z.eqb_eq _].
Qed.

(** The map that pairs make is their image. *)
Lemma value_pairs ps ch : forall e : gmap Z Z,
  default ch (foldl (fun e p => <[p.1 := p.2]> e) e ps !! ch) =
  foldl (fun to p => if p.1 =? ch then p.2 else to) (default ch (e !! ch)) ps.
Proof.
  induction ps as [|[a b] ps IH]; intros e; [done|]. cbn [foldl fst snd]. rewrite IH. f_equal.
  destruct (Z.eqb_spec a ch) as [->|]; [by rewrite lookup_insert_eq|by rewrite lookup_insert_ne].
Qed.

Lemma image_value ps ch : value (put_pairs (Charmap ∅ CM_DEF_SELF) ps) ch = image ps ch.
Proof.
  unfold image. change ch with (default ch ((∅ : gmap Z Z) !! ch)) at 3. rewrite <- value_pairs.
  unfold value, put_pairs. cbn [entries default_to]. by destruct (_ !! ch).
Qed.

Lemma image_range ps ch : Forall (fun p => 0 <= p.2) ps -> 0 <= ch -> 0 <= image ps ch.
Proof.
  unfold image. intros Hps Hch. assert (forall to, 0 <= to -> 0 <= foldl (fun to p => if p.1 =? ch then p.2 else to) to ps) as H;
    [|by apply H]. clear Hch. induction Hps as [|p ps Hp _ IH]; intros to Hto; [done|]. cbn [foldl]. apply IH. by destruct (_ =? _).
Qed.

Lemma zip_range l1 l2 : Forall is_wchar l2 -> Forall (fun p : Z * Z => 0 <= p.2) (zip l1 l2).
Proof.
  revert l2. induction l1 as [|x l1 IH]; intros l2 H; [constructor|]. destruct l2 as [|y l2]; [constructor|].
  apply Forall_cons in H as [Hy H]. cbn. constructor; [by destruct Hy|by apply IH].
Qed.

(** C10. [tr string1 string2], with and without [-s]: every character of string 1
    becomes the character at the same place of string 2, the last one of string 2
    standing for all that follow, the last place counting for a character that
    string 1 repeats; all others stay.  With [-s] equal neighbours are then
    squeezed when the character is one of string 2 that stands for one of string 1; the
    characters of string 2 behind the length of string 1 are not, though the manual and
    a comment promise all of string 2 (tr_squeezes_targets_only). *)
Theorem tr_translates set_memory map_memory fuel sflag its1 its2 c l input :
  length set_memory = Z.to_nat CS_CACHE_SIZE -> length map_memory = Z.to_nat CM_CACHE_SIZE -> items_ok STRING1 its1 -> items_ok STRING2 its2 ->
  chars_of its2 = c :: l -> (length (chars_of its1) < fuel)%nat -> Forall (fun ch => 0 <= ch) input ->
  let l1 := chars_of its1 in
  let targets := supply c l (length l1) in
  let out := image (zip l1 targets) <$> input in
  tr_main set_memory map_memory fuel false false false sflag [render its1; render its2] input =
    Done (if sflag then squeezed (selected false false targets) out else out).
Proof.
  intros Hset Hmap H1 H2 E2 Hf Hin l1 targets out. unfold tr_main. cbn [andb]. unfold translate. cbn [orb].
  pose proof (init_ready STRING2 STRING2 its2 H2 (fun e => e)) as Hr2. rewrite E2 in Hr2.
  destruct (next_supply _ _ _ Hr2) as (b & s2 & -> & Hw & Hc & Hr2' & ->). cbn [mbind outcome_bind negb].
  pose proof (wchars its2 _ H2) as Hwc. rewrite E2 in Hwc. apply Forall_cons in Hwc as [Hcw Hlw].
  assert (Forall is_wchar targets) as Htw by (by apply supply_wchar). rewrite <- Hc in Hcw.
  destruct (map_loop_spec sflag l1 fuel (Maps (cmap_alloc map_memory) (cset_alloc set_memory) (str_init STRING1 (render its1)) s2) l
    (Charmap ∅ CM_DEF_SELF) (Charset ∅ [] false) (init_ready _ STRING1 its1 H1 (fun e => e)) Hr2' Hcw Hlw
    (conj (cmap_alloc_represents _ Hmap) (cset_alloc_represents _ Hset)) Hf) as (m & -> & _ & [Hm Hs]).
  cbn [mbind outcome_bind m_s2] in *. rewrite Hc in Hm, Hs. fold targets in Hm, Hs. unfold complement. cbn [orb andb mbind outcome_bind].
  destruct (cset_cache_spec _ _ Hs) as (cs & -> & Hs'). cbn [of_option mbind outcome_bind].
  destruct (cmap_cache_spec _ _ Hm) as (cm & -> & Hm'). cbn [of_option mbind outcome_bind].
  assert (value (put_pairs (Charmap ∅ CM_DEF_SELF) (zip l1 targets)) <$> input = out) as Eout
    by (apply list_fmap_ext; intros ? ch _; apply image_value).
  destruct sflag.
  - rewrite (map_squeeze_output_spec input cm _ cs _ OOBCH Hm' Hs' Hin), Eout.
    + f_equal. apply squeezed_ext. intros ch. unfold contains, selected, plus. cbn. apply bool_decide_ext. set_solver.
    + intros ch Hch. rewrite image_value. apply image_range; [by apply zip_range|done].
  - by rewrite (map_output_spec input cm _ Hm' Hin), Eout.
Qed.
End Correct.

(** In the C locale: squeezing and deleting with a range, and the complement. *)
Lemma tr_deletes_and_squeezes_witness :
  let its1 := [Range 48 57; Plain 120] in
  let its2 := [Octal 97] in
  tr_main (repeat false 256) [] 20 false false true true [render its1; render its2] (codes "aa1ab22bx") = Done (codes "abb") /\
  tr_main (repeat false 256) [] 20 false true true false [render its1] (codes "aa1ab22bx") = Done (codes "122x").
Proof.
  assert (items_ok STRING1 [Range 48 57; Plain 120]) as H1 by (cbn; split_and!; (lia || set_solver)).
  assert (items_ok STRING1 [Octal 97]) as H2 by (cbn; split_and!; (lia || done)).
  assert (Forall (fun ch => 0 <= ch) (codes "aa1ab22bx")) as Hin by (repeat (apply Forall_cons; split; [vm_compute; discriminate|]); by apply Forall_nil).
  destruct (tr_deletes_and_squeezes (repeat false 256) [] 20 false false [Range 48 57; Plain 120] [Octal 97] (codes "aa1ab22bx")
    eq_refl H1 H2 ltac:(vm_compute; lia) ltac:(vm_compute; lia) Hin) as (_ & _ & E1).
  destruct (tr_deletes_and_squeezes (repeat false 256) [] 20 true false [Range 48 57; Plain 120] [Octal 97] (codes "aa1ab22bx")
    eq_refl H1 H2 ltac:(vm_compute; lia) ltac:(vm_compute; lia) Hin) as (E2 & _ & _).
  cbv zeta. rewrite E1, E2. vm_compute. split; reflexivity.
Defined.

Lemma tr_translates_witness :
  tr_main (repeat false 256) (repeat 0 128) 20 false false false true [render [Range 97 99; Plain 120]; render [Repeat 65 2; Fill 66]]
    (codes "abcxdd") = Done (codes "ABdd").
Proof.
  rewrite (tr_translates (repeat false 256) (repeat 0 128) 20 true [Range 97 99; Plain 120] [Repeat 65 2; Fill 66] 65 [65; 66] (codes "abcxdd")).
  - vm_compute. reflexivity.
  - reflexivity.
  - reflexivity.
  - cbn. split_and!; (lia || set_solver).
  - cbn. split_and!; (lia || done).
  - reflexivity.
  - vm_compute. lia.
  - repeat (apply Forall_cons; split; [vm_compute; discriminate|]). by apply Forall_nil.
Defined.
