(* ===== verification/TrComplement.v ===== *)
(** [tr -c]: the characters that string 1 does not name, in order, become those of
    string 2.  The loop over all characters stops behind the last one that needs an
    entry of its own; the others share the default of the map. *)

From stdpp Require Import gmap.
From S2P Require Import Prelude Ctype Strto Splay TrSet TrMap TrStr Tr TrNext TrCorrect.

(** How many characters below [ch] string 1 does not name. *)
Definition rank (l1 : list Z) (ch : Z) : nat :=
  length (List.filter (fun y => bool_decide (y ∉ l1)) (range (Z.to_nat ch))).

(** What [tr -c] makes of a character. *)
Definition complement_image (l1 l2 : list Z) (ch : Z) : Z :=
  if bool_decide (ch ∈ l1) then ch else nth (Nat.min (rank l1 ch) (length l2 - 1)) l2 0.

Lemma rank_S l1 ch : 0 <= ch -> rank l1 (ch + 1) = (rank l1 ch + if bool_decide (ch ∈ l1) then 0 else 1)%nat.
Proof.
  intros Hch. unfold rank. replace (Z.to_nat (ch + 1)) with (S (Z.to_nat ch)) by lia. unfold range.
  rewrite seq_S, map_app, List.filter_app, length_app. f_equal. cbn [map List.filter Nat.add].
  rewrite Z2Nat.id by done. destruct (bool_decide_reflect (ch ∈ l1)).
  - by rewrite (bool_decide_eq_false_2 (ch ∉ l1)) by (intros Hn; by apply Hn).
  - by rewrite (bool_decide_eq_true_2 (ch ∉ l1)).
Qed.

Lemma rank_0 l1 : rank l1 0 = 0%nat.
Proof. done. Qed.

Lemma rank_le l1 ch : 0 <= ch -> Z.of_nat (rank l1 ch) <= ch.
Proof.
  intros Hch. unfold rank. pose proof (List.filter_length_le (fun y => bool_decide (y ∉ l1)) (range (Z.to_nat ch))) as H.
  unfold range in *. rewrite length_map, length_seq in H. lia.
Qed.

(** Behind the characters of string 1 every character counts. *)
Lemma rank_ge l1 n : Forall (fun c => 0 <= c < 512) l1 -> (n <= rank l1 (512 + Z.of_nat n))%nat.
Proof.
  intros Hl. induction n as [|n IH]; [lia|]. replace (512 + Z.of_nat (S n)) with (512 + Z.of_nat n + 1) by lia.
  rewrite rank_S by lia. rewrite bool_decide_eq_false_2; [lia|]. intros Hin. rewrite Forall_forall in Hl. specialize (Hl _ Hin). lia.
Qed.

Lemma wchar_neq v : is_wchar v -> v <> OOBCH.
Proof. unfold is_wchar, OOBCH. lia. Qed.

Section Complement.
Context {L : TrLocale} {LOk : TrLocaleOk}.
Variables (l1 l2 : list Z).
Context (Hl1 : Forall (fun c => 0 <= c < 512) l1) (Hl2 : Forall is_wchar l2) (Hne : l2 <> [])
  (Hlen : Z.of_nat (length l2) < 2 ^ 31).

Definition place (k : nat) : Z := nth (Nat.min k (length l2 - 1)) l2 0.

(** Before the round for [c]. *)
Record round (S : charset) (c : Z) (m : maps) (M : charmap) : Prop := {
  round_map : stand_for m M S;
  round_default : default_to M = OOBCH;
  round_ready : ready STRING2 (m_s2 m) (drop (rank l1 c) l2);
  round_last : (0 < rank l1 c)%nat -> lastch (m_s2 m) = place (rank l1 c - 1);
  round_named x : 0 <= x < c -> x ∈ l1 -> entries M !! x = Some x;
  round_others x : 0 <= x < c -> x ∉ l1 ->
    entries M !! x = Some (place (rank l1 x)) \/ (entries M !! x = None /\ (length l2 <= rank l1 x)%nat);
  round_later x : c <= x -> x ∈ l1 -> exists v, entries M !! x = Some v /\ v <> OOBCH;
  round_free x : c <= x -> x ∉ l1 -> entries M !! x = None
}.

Lemma place_wchar k : is_wchar (place k).
Proof.
  unfold place. rewrite Forall_forall in Hl2. apply Hl2. apply list_elem_of_In, nth_In.
  assert (length l2 <> 0%nat) by (destruct l2; [done|cbn; lia]). lia.
Qed.

(** The next character of string 2: the one at place [k], or none. *)
Lemma next_place s k : ready STRING2 s (drop k l2) -> ((0 < k)%nat -> lastch s = place (k - 1)) ->
  exists b s', next' s = Done (b, s') /\ ready STRING2 s' (drop (S k) l2) /\ lastch s' = place k /\
    (b = false -> (length l2 <= k)%nat) /\ ((length l2 <= k)%nat -> exhausted s').
Proof.
  intros Hr Hlast. destruct (next_supply _ _ _ Hr) as (b & s' & E & _ & Hs'). exists b, s'. split; [exact E|].
  destruct (drop k l2) as [|c r] eqn:Ed.
  - assert (length l2 <= k)%nat as Hk by (rewrite <- (Nat.sub_0_le (length l2) k), <- length_drop, Ed; done).
    destruct Hs' as (-> & Hr' & He). rewrite (drop_ge l2 (S k)) by lia. split; [done|]. split; [|done].
    assert (length l2 <> 0%nat) by (destruct l2; [done|cbn; lia]). rewrite Hlast by lia. unfold place. f_equal. lia.
  - destruct Hs' as (-> & Hr' & ->). assert (l2 !! k = Some c) as Hk by (rewrite <- (Nat.add_0_r k), <- lookup_drop, Ed; done).
    pose proof (lookup_lt_Some _ _ _ Hk) as Hlt. split; [replace (S k) with (k + 1)%nat by lia; by rewrite <- drop_drop, Ed|].
    split; [|split; [done|lia]]. unfold place. rewrite Nat.min_l by lia. symmetry. apply (nth_lookup_Some l2 k 0 c Hk).
Qed.

Lemma rank_mono c c' : 0 <= c <= c' -> (rank l1 c <= rank l1 c')%nat.
Proof.
  intros Hc. replace c' with (c + Z.of_nat (Z.to_nat (c' - c))) by lia. induction (Z.to_nat (c' - c)) as [|n IH]; [by rewrite Z.add_0_r|].
  replace (c + Z.of_nat (S n)) with (c + Z.of_nat n + 1) by lia. rewrite rank_S by lia. lia.
Qed.

(** The entry that the round for [c] adds. *)
Lemma round_named_step S c m M m' : 0 <= c -> c ∈ l1 -> round S c m M -> stand_for m' (put_pairs M [(c, c)]) S ->
  m_s2 m' = m_s2 m -> round S (c + 1) m' (put_pairs M [(c, c)]).
Proof.
  intros Hc Hin [Hm Hd Hr Hl Hn Ho Hla Hf] Hst Es. pose proof (rank_S l1 c Hc) as ER. rewrite bool_decide_eq_true_2, Nat.add_0_r in ER by done.
  split; rewrite ?ER, ?Es; try done; unfold put_pairs; cbn [entries foldl fst snd].
  - intros x Hx Hxin. destruct (decide (x = c)) as [->|]; [by rewrite lookup_insert_eq|rewrite lookup_insert_ne by done; apply Hn; [lia|done]].
  - intros x Hx Hxin. assert (x <> c) by (by intros ->). rewrite lookup_insert_ne by done. apply Ho; [lia|done].
  - intros x Hx Hxin. rewrite lookup_insert_ne by lia. apply Hla; [lia|done].
  - intros x Hx Hxin. rewrite lookup_insert_ne by lia. apply Hf; [lia|done].
Qed.

Lemma round_free_step S c m M m' M' s' : 0 <= c -> c ∉ l1 -> round S c m M -> stand_for m' M' S -> default_to M' = OOBCH ->
  m_s2 m' = s' -> ready STRING2 s' (drop (Datatypes.S (rank l1 c)) l2) -> lastch s' = place (rank l1 c) ->
  entries M' = <[c := place (rank l1 c)]> (entries M) \/ (M' = M /\ (length l2 <= rank l1 c)%nat) ->
  round S (c + 1) m' M'.
Proof.
  intros Hc Hin [Hm Hd Hr Hl Hn Ho Hla Hf] Hst Hd' Es Hr' Hl' Hcase. pose proof (rank_S l1 c Hc) as ER.
  rewrite bool_decide_eq_false_2 in ER by done. replace (rank l1 c + 1)%nat with (Datatypes.S (rank l1 c)) in ER by lia.
  assert (forall x, x <> c -> entries M' !! x = entries M !! x) as Hsame.
  { intros x Hx. destruct Hcase as [-> | [-> _]]; [by rewrite lookup_insert_ne|done]. }
  split; rewrite ?ER, ?Es; try done.
  - intros _. by replace (Datatypes.S (rank l1 c) - 1)%nat with (rank l1 c) by lia.
  - intros x Hx Hxin. rewrite Hsame by (by intros ->). apply Hn; [|done]. assert (x <> c) by (by intros ->). lia.
  - intros x Hx Hxin. destruct (decide (x = c)) as [->|]; [|rewrite Hsame by done; apply Ho; [lia|done]].
    destruct Hcase as [-> | [-> Hge]]; [left; by rewrite lookup_insert_eq|right; split; [by apply Hf|done]].
  - intros x Hx Hxin. rewrite Hsame by lia. apply Hla; [lia|done].
  - intros x Hx Hxin. rewrite Hsame by lia. apply Hf; [lia|done].
Qed.

Lemma ready_exhausted w s l : ready w s l -> Tr.at_end s = true -> l = [].
Proof.
  unfold Tr.at_end. intros Hr [He|He]%orb_true_iff; apply bool_decide_eq_true in He; destruct Hr; congruence.
Qed.

Lemma exhausted_at_end s : exhausted s -> Tr.at_end s = true.
Proof. unfold Tr.at_end, exhausted. intros [-> | ->]; done. Qed.

(** One round, up to the test for the end. *)
Lemma round_step S c m M : 0 <= c -> round S c m M ->
  exists to map m1 M', of_option (cmap_lookup (m_map m) c) = Done (to, map) /\
    (let m := Maps map (m_squeeze m) (m_s1 m) (m_s2 m) in
     if to =? OOBCH then
       '(b, s2) ← next' (m_s2 m);
       let m := Maps (m_map m) (m_squeeze m) (m_s1 m) s2 in
       if b : bool then add_mapping false (fun _ => true) m c (lastch s2) else Done m
     else add_mapping false (fun _ => true) m c c) = Done m1 /\ round S (c + 1) m1 M' /\
    (c ∉ l1 -> (length l2 <= rank l1 c)%nat -> Tr.at_end (m_s2 m1) = true).
Proof.
  intros Hc Hround. pose proof Hround as [[Hm Hs] Hd Hr Hl Hn Ho Hla Hf].
  destruct (cmap_lookup_spec _ M c Hm Hc) as (map & -> & Hm'). cbn [of_option].
  set (m0 := Maps map (m_squeeze m) (m_s1 m) (m_s2 m)). assert (stand_for m0 M S) as Hst0 by done.
  destruct (decide (c ∈ l1)) as [Hin|Hin].
  - destruct (Hla c ltac:(lia) Hin) as (v & Ev & Hv). exists v, map. unfold value. rewrite Ev.
    rewrite (proj2 (Z.eqb_neq v OOBCH)) by done.
    assert (is_wchar c) as Hcw by (unfold is_wchar; rewrite Forall_forall in Hl1; specialize (Hl1 c Hin); lia).
    destruct (add_mapping_spec false m0 M S c c Hst0 Hcw) as (m1 & E1 & Hst1 & _ & Es). rewrite plus_nil in Hst1.
    exists m1, (put_pairs M [(c, c)]). split; [done|]. split; [exact E1|]. split; [|done]. by apply (round_named_step S c m M m1).
  - assert (value M c = OOBCH) as Ev by (unfold value; rewrite (Hf c), Hd by (done || lia); done). rewrite Ev.
    destruct (next_place (m_s2 m) (rank l1 c) Hr Hl) as (b & s' & En & Hr' & Hl' & Hb & He).
    destruct b; exists OOBCH, map; change (OOBCH =? OOBCH) with true; cbv zeta; cbn [m_s2 m_map m_squeeze m_s1 mbind outcome_bind]; rewrite En; cbn [mbind outcome_bind].
    + set (m2 := Maps map (m_squeeze m) (m_s1 m) s'). assert (stand_for m2 M S) as Hst2 by done.
      destruct (add_mapping_spec false m2 M S c (lastch s') Hst2 ltac:(rewrite Hl'; apply place_wchar)) as (m1 & E1 & Hst1 & _ & Es).
      rewrite plus_nil in Hst1. exists m1, (put_pairs M [(c, lastch s')]). split; [done|]. split; [exact E1|]. rewrite Es. split.
      * apply (round_free_step S c m M m1 _ s' Hc Hin Hround Hst1 Hd Es Hr' Hl'). left. by rewrite <- Hl'.
      * intros _ Hge. by apply exhausted_at_end, He.
    + exists (Maps map (m_squeeze m) (m_s1 m) s'), M. split; [done|]. split; [done|]. split.
      * apply (round_free_step S c m M _ M s' Hc Hin Hround); [done|exact Hd|done|exact Hr'|exact Hl'|]. right. split; [done|by apply Hb].
      * intros _ Hge. by apply exhausted_at_end, He.
Qed.

Lemma place_last k : (length l2 <= k)%nat -> place (k - 1) = place (length l2) /\ place k = place (length l2).
Proof. intros Hk. unfold place. split; f_equal; lia. Qed.

(** When the loop stops the map is that of [tr -c]. *)
Lemma round_final S c m M ch : 0 <= c -> round S (c + 1) m M -> Tr.at_end (m_s2 m) = true -> cm_max (m_map m) <= c -> 0 <= ch ->
  value (Charmap (entries M) (lastch (m_s2 m))) ch = complement_image l1 l2 ch.
Proof.
  intros Hc [[Hm _] Hd Hr Hl Hn Ho Hla Hf] Hend Hmax Hch. pose proof (ready_exhausted _ _ _ Hr Hend) as E.
  assert (length l2 <= rank l1 (c + 1))%nat as Hge by (rewrite <- Nat.sub_0_le, <- length_drop, E; done).
  assert (length l2 <> 0%nat) as Hl0 by (destruct l2; [done|cbn; lia]).
  destruct (place_last _ Hge) as [Hlast _]. rewrite Hl, Hlast by lia.
  assert (place (length l2) =? CM_DEF_SELF = false) as Hself
    by (apply Z.eqb_neq; pose proof (place_wchar (length l2)) as H; unfold is_wchar, CM_DEF_SELF in *; lia).
  unfold value. cbn [entries default_to]. rewrite Hself. unfold complement_image. change (nth _ l2 0) with (place (rank l1 ch)).
  assert (forall x, c < x -> entries M !! x = None) as Hbig.
  { intros x Hx. destruct (entries M !! x) as [v|] eqn:Ev; [|done].
    pose proof (stands_bounds _ _ (proj1 Hm) x ltac:(by eexists)). lia. }
  destruct (bool_decide_reflect (ch ∈ l1)) as [Hin|Hin].
  - destruct (Z_lt_le_dec c ch) as [Hlt|Hle]; [|by rewrite (Hn ch) by (done || lia)].
    destruct (Hla ch ltac:(lia) Hin) as (v & Ev & _). by rewrite Hbig in Ev.
  - destruct (Z_lt_le_dec c ch) as [Hlt|Hle].
    + rewrite Hbig by done. symmetry. apply place_last. etrans; [exact Hge|]. apply rank_mono. lia.
    + destruct (Ho ch ltac:(lia) Hin) as [->|[-> Hk]]; [done|]. symmetry. by apply place_last.
Qed.

Lemma keys_behind S c m M : 512 <= c -> round S (c + 1) m M -> cm_max (m_map m) <= c.
Proof.
  intros Hc [[Hm _] Hd Hr Hl Hn Ho Hla Hf]. rewrite Forall_forall in Hl1.
  assert (entries M <> ∅) as Hn0.
  { intros E. assert (exists x v, entries M !! x = Some v) as (x & v & Ev); [|by rewrite E, lookup_empty in Ev].
    destruct l1 as [|a l1'] eqn:El.
    - destruct (Ho 0 ltac:(lia) ltac:(apply not_elem_of_nil)) as [H|[_ H]]; [by eexists _, _|].
      rewrite rank_0 in H. assert (length l2 <> 0%nat) by (destruct l2; [done|cbn; lia]). lia.
    - exists a, a. apply Hn; [|by left]. specialize (Hl1 a ltac:(by left)). lia. }
  destruct (stands_max _ _ (proj1 Hm) Hn0) as [v Hv]. destruct (Z_le_gt_dec (cm_max (m_map m)) c) as [|Hgt]; [done|].
  rewrite Hf in Hv; [done|lia|]. intros Hin. specialize (Hl1 _ Hin). lia.
Qed.

Lemma complement_loop_spec S fuel : forall c m M, 0 <= c <= 512 + Z.of_nat (length l2) -> round S c m M ->
  512 + Z.of_nat (length l2) - c < Z.of_nat fuel ->
  exists m' M', complement_loop fuel false false c m = Done m' /\ stand_for m' M' S /\
    forall ch, 0 <= ch -> value (Charmap (entries M') (lastch (m_s2 m'))) ch = complement_image l1 l2 ch.
Proof.
  induction fuel as [|fuel IH]; intros c m M Hc Hround Hf; [lia|]. cbn [complement_loop andb].
  rewrite (proj2 (Z.ltb_lt c _)) by lia. cbn [negb].
  destruct (round_step S c m M ltac:(lia) Hround) as (to & map & m1 & M1 & -> & E1 & Hround1 & Hend). cbn [mbind outcome_bind].
  cbv zeta in E1. rewrite E1. cbn [mbind outcome_bind].
  destruct (Tr.at_end (m_s2 m1)) eqn:Ee; cbn [andb].
  - destruct (Z.leb_spec (cm_max (m_map m1)) c) as [Hmax|Hmax].
    + exists m1, M1. split; [done|]. split; [apply Hround1|]. intros ch Hch. apply (round_final S c m1 M1 ch); [lia|done|done|done|done].
    + assert (c <> 512 + Z.of_nat (length l2)) as Hne'.
      { intros ->. pose proof (keys_behind S (512 + Z.of_nat (length l2)) m1 M1 ltac:(lia) Hround1). lia. }
      apply (IH (c + 1) m1 M1); [lia|done|lia].
  - assert (c <> 512 + Z.of_nat (length l2)) as Hne'.
    { intros ->. assert (false = true) as Hx; [|discriminate Hx]. apply Hend; [|by apply rank_ge].
      intros Hin. rewrite Forall_forall in Hl1. specialize (Hl1 _ Hin). lia. }
    apply (IH (c + 1) m1 M1); [lia|done|lia].
Qed.
End Complement.

(** The keys of the map that the first pass leaves. *)
Lemma put_pairs_keys ps : forall (e : gmap Z Z) x, (forall v, e !! x = Some v -> v <> OOBCH) -> Forall (fun p : Z * Z => is_wchar p.2) ps ->
  (x ∈ ps.*1 -> exists v, foldl (fun e p => <[p.1 := p.2]> e) e ps !! x = Some v /\ v <> OOBCH) /\
  (x ∉ ps.*1 -> foldl (fun e p => <[p.1 := p.2]> e) e ps !! x = e !! x).
Proof.
  induction ps as [|[a b] ps IH]; intros e x He Hps; [split; [by intros ?%elem_of_nil|done]|].
  apply Forall_cons in Hps as [Hb Hps]. cbn [foldl fmap list_fmap fst snd] in *.
  assert (forall v, <[a := b]> e !! x = Some v -> v <> OOBCH) as He'.
  { intros v. destruct (decide (a = x)) as [->|]; [rewrite lookup_insert_eq; intros [= <-]; by apply wchar_neq|].
    rewrite lookup_insert_ne by done. apply He. }
  destruct (IH (<[a := b]> e) x He' Hps) as [Hin Hout]. split.
  - intros Hx. destruct (decide (x ∈ ps.*1)) as [H|H]; [by apply Hin|]. rewrite Hout by done.
    apply elem_of_cons in Hx as [->|]; [|done]. rewrite lookup_insert_eq. exists b. split; [done|]. by apply wchar_neq.
  - intros Hx. apply not_elem_of_cons in Hx as [Hne Hx]. rewrite Hout by done. by rewrite lookup_insert_ne.
Qed.

Section Whole.
Context {L : TrLocale} {LOk : TrLocaleOk}.
Variables (set_memory : list bool) (map_memory : list Z).
Context (Hset : length set_memory = Z.to_nat CS_CACHE_SIZE) (Hmap : length map_memory = Z.to_nat CM_CACHE_SIZE).

Lemma chars_nonempty w its : items_ok w its -> its <> [] -> exists c l, chars_of its = c :: l.
Proof.
  destruct its as [|i its]; [done|]. intros (Hi & _) _. change (chars_of (i :: its)) with (chars1 i ++ chars_of its).
  assert (exists c l, chars1 i = c :: l) as (c & l & ->); [|by eexists _, _].
  destruct i as [c|c|a b|c n|c]; cbn [chars1 item_ok] in *; try by eexists _, _.
  - replace (Z.to_nat (b - a + 1)) with (S (Z.to_nat (b - a))) by lia. rewrite seqZ'_S. by eexists _, _.
  - replace (Z.to_nat n) with (S (Z.to_nat (n - 1))) by lia. by eexists _, _.
Qed.

(** The state in which the second pass begins. *)
Lemma rewind_round l1 its2 m M S targets : Forall (fun c => 0 <= c < 512) l1 -> items_ok STRING2 its2 ->
  which (m_s2 m) = STRING2 -> Forall is_wchar targets -> length targets = length l1 ->
  M = put_pairs (Charmap ∅ OOBCH) (zip l1 targets) -> stand_for m M S ->
  round l1 (chars_of its2) S 0 (Maps (m_map m) (m_squeeze m) (m_s1 m) (rewind (m_s2 m) (render its2))) M.
Proof.
  intros Hl1 H2 Hw Ht Hlen -> Hst.
  assert (Forall (fun p : Z * Z => is_wchar p.2) (zip l1 targets)) as Hps.
  { clear -Ht. revert targets Ht. induction l1 as [|x l1 IH]; intros targets Ht; [constructor|].
    destruct Ht as [|y ts Hy Ht]; [constructor|]. cbn. constructor; [done|by apply IH]. }
  assert ((zip l1 targets).*1 = l1) as Ek by (apply fst_zip; lia).
  split; cbn [m_map m_squeeze m_s2].
  - exact Hst.
  - done.
  - rewrite rank_0. cbn [drop]. apply ready_normal; [|done]. split; [by intros _|]. by split.
  - rewrite rank_0. lia.
  - lia.
  - lia.
  - intros x _ Hx. destruct (put_pairs_keys (zip l1 targets) ∅ x) as [Hin _]; [by intros v|done|]. apply Hin. by rewrite Ek.
  - intros x _ Hx. destruct (put_pairs_keys (zip l1 targets) ∅ x) as [_ Hout]; [by intros v|done|].
    unfold put_pairs. cbn [entries]. rewrite Hout; [apply lookup_empty|by rewrite Ek].
Qed.

(** C11. [tr -c string1 string2]: the characters of string 1 stay, the others, taken
    in order, become those of string 2 one after the other, the last one standing
    for all that follow; the loop over all characters of the type stops after at
    most 513 rounds and one for each character of string 2. *)
Theorem tr_complements fuel its1 its2 input : items_ok STRING1 its1 -> items_ok STRING2 its2 -> its2 <> [] ->
  Z.of_nat (length (chars_of its2)) < 2 ^ 31 ->
  (length (chars_of its1) < fuel)%nat -> (512 + length (chars_of its2) < fuel)%nat -> Forall (fun ch => 0 <= ch) input ->
  tr_main set_memory map_memory fuel false true false false [render its1; render its2] input =
    Done (complement_image (chars_of its1) (chars_of its2) <$> input).
Proof.
  intros H1 H2 Hne Hlen Hf1 Hf2 Hin. set (l1 := chars_of its1) in *. set (l2 := chars_of its2) in *.
  destruct (chars_nonempty STRING2 its2 H2 Hne) as (c & l & E2). fold l2 in E2.
  unfold tr_main. cbn [andb]. unfold translate. cbn [orb].
  pose proof (init_ready STRING2 STRING2 its2 H2 (fun e => e)) as Hr2. fold l2 in Hr2. rewrite E2 in Hr2.
  destruct (next_supply _ _ _ Hr2) as (b & s2 & -> & Hw & Hc & Hr2' & ->). cbn [mbind outcome_bind negb].
  pose proof (wchars its2 _ H2) as Hwc. fold l2 in Hwc. pose proof Hwc as Hwc'. rewrite E2 in Hwc'. apply Forall_cons in Hwc' as [Hcw Hlw].
  rewrite <- Hc in Hcw. set (map0 := (cmap_default (cmap_alloc map_memory) OOBCH).2).
  assert (TrMap.represents map0 (Charmap ∅ OOBCH)) as Hmap0
    by exact (proj1 (cmap_default_spec _ _ OOBCH (cmap_alloc_represents _ Hmap))).
  destruct (map_loop_spec false l1 fuel (Maps map0 (cset_alloc set_memory) (str_init STRING1 (render its1)) s2) l
    (Charmap ∅ OOBCH) (Charset ∅ [] false) (init_ready _ STRING1 its1 H1 (fun e => e)) Hr2' Hcw Hlw
    (conj Hmap0 (cset_alloc_represents _ Hset)) Hf1) as (m & -> & Hwm & Hst).
  cbn [mbind outcome_bind m_s2] in *. rewrite plus_nil in Hst. set (targets := supply _ _ _) in *.
  assert (which (m_s2 m) = STRING2) as Hw2 by (by rewrite Hwm, Hw).
  pose proof (chars_range _ _ H1) as Hr1. fold l1 in Hr1.
  pose proof (rewind_round l1 its2 m _ _ targets Hr1 H2 Hw2 (supply_wchar _ _ _ Hcw Hlw) (supply_length _ _ _) eq_refl Hst) as Hround.
  fold l2 in Hround. unfold complement. cbn [orb].
  destruct (complement_loop_spec l1 l2 Hr1 Hwc ltac:(by rewrite E2) Hlen _ fuel 0 _ _ ltac:(lia) Hround ltac:(lia))
    as (m' & M' & -> & [Hm' Hs'] & Hval).
  cbn [mbind outcome_bind m_map m_squeeze m_s2].
  destruct (cset_cache_spec _ _ Hs') as (cs & -> & _). cbn [of_option mbind outcome_bind].
  destruct (cmap_default_spec _ _ (lastch (m_s2 m')) Hm') as [Hd _].
  destruct (cmap_cache_spec _ _ Hd) as (cm & -> & Hcm). cbn [of_option mbind outcome_bind].
  rewrite (map_output_spec input cm _ Hcm Hin). f_equal.
  apply list_fmap_ext. intros i ch Hi. apply Hval. rewrite Forall_forall in Hin. apply Hin. by eapply list_elem_of_lookup_2.
Qed.
End Whole.

Lemma tr_complements_witness :
  tr_main (repeat false 256) (repeat 0 128) 600 false true false false [render [Range 97 122]; render [Repeat 45 40; Plain 63]]
    (codes "ab 9!" ++ [300]) = Done (codes "ab-?-" ++ [63]).
Proof.
  rewrite (tr_complements (repeat false 256) (repeat 0 128) eq_refl eq_refl 600 [Range 97 122] [Repeat 45 40; Plain 63] (codes "ab 9!" ++ [300])).
  - vm_compute. reflexivity.
  - cbn. split_and!; (lia || done).
  - cbn. split_and!; (lia || done || set_solver).
  - done.
  - vm_compute. reflexivity.
  - vm_compute. lia.
  - vm_compute. lia.
  - repeat (apply Forall_cons; split; [vm_compute; discriminate|]). by apply Forall_nil.
Defined.
