(* ===== verification/TrCase.v ===== *)
(** [tr '[:lower:]' '[:upper:]'] converts the case of the characters below 256, in
    every locale. *)

From stdpp Require Import gmap.
From S2P Require Import Prelude Ctype Strto Splay TrSet TrMap TrStr Tr TrNext TrCorrect.

Section Case.
Context {L : TrLocale} {LOk : TrLocaleOk}.

(** The members of a class among [n] characters from [ch] on. *)
Definition members (wct : wctype_t) (ch : Z) (n : nat) : list Z :=
  List.filter (fun c => iswctype c wct) (seqZ' ch n).

Lemma members_S wct ch n : members wct ch (S n) = (if iswctype ch wct then [ch] else []) ++ members wct (ch + 1) n.
Proof. unfold members. rewrite seqZ'_S. cbn [List.filter]. by destruct (iswctype ch wct). Qed.

Lemma findwchar_spec n wct : forall ch,
  match members wct ch n with
  | [] => findwchar n wct ch = OOBCH
  | c :: l => findwchar n wct ch = c /\ ch <= c < ch + Z.of_nat n /\ l = members wct (c + 1) (n - Z.to_nat (c + 1 - ch))
  end.
Proof.
  induction n as [|n IH]; intros ch; [done|]. rewrite members_S. cbn [findwchar]. destruct (iswctype ch wct) eqn:E; cbn [app].
  - split; [done|]. split; [lia|]. f_equal. lia.
  - specialize (IH (ch + 1)). destruct (members wct (ch + 1) n) as [|c l]; [done|]. destruct IH as (-> & Hc & ->).
    split; [done|]. split; [lia|]. f_equal. lia.
Qed.

(** What follows a character in its class, below 256. *)
Definition rest_of (wct : wctype_t) (ch : Z) : list Z := members wct (ch + 1) (Z.to_nat (255 - ch)).

Lemma nextwctype_spec wct ch : 0 <= ch < 256 ->
  match rest_of wct ch with
  | [] => nextwctype ch wct = OOBCH
  | c :: l => nextwctype ch wct = c /\ 0 <= c < 256 /\ l = rest_of wct c
  end.
Proof.
  intros Hch. unfold nextwctype, rest_of. rewrite (proj2 (Z.eqb_neq ch OOBCH)) by (unfold OOBCH; lia).
  destruct (Z.leb_spec UCHAR_MAX ch) as [H|H]; unfold UCHAR_MAX in *; [by replace (Z.to_nat (255 - ch)) with 0%nat by lia|].
  pose proof (findwchar_spec (Z.to_nat (255 - ch)) wct (ch + 1)) as Hf.
  replace (Z.to_nat (255 + 1 - (ch + 1))) with (Z.to_nat (255 - ch)) by lia.
  destruct (iswctype (ch + 1) wct) eqn:E; cbn [negb].
  - replace (Z.to_nat (255 - ch)) with (S (Z.to_nat (254 - ch))) by lia. rewrite members_S, E. cbn [app].
    split; [done|]. split; [lia|]. f_equal. lia.
  - destruct (members wct (ch + 1) _) as [|c l]; [done|]. destruct Hf as (-> & Hc & ->). split; [done|]. split; [lia|]. f_equal. lia.
Qed.

Lemma nextwctype_first wct :
  match members wct 0 256 with
  | [] => nextwctype OOBCH wct = OOBCH
  | c :: l => nextwctype OOBCH wct = c /\ 0 <= c < 256 /\ l = rest_of wct c
  end.
Proof.
  pose proof (findwchar_spec 256 wct 0) as Hf. unfold nextwctype. rewrite Z.eqb_refl. change (Z.to_nat (UCHAR_MAX + 1)) with 256%nat.
  destruct (members wct 0 256) as [|c l]; [done|]. destruct Hf as (-> & Hc & ->). split; [done|]. split; [lia|].
  unfold rest_of. f_equal. lia.
Qed.

(** A string in the middle of its only item, a class. *)
Definition in_class (st : str_state) (wct : wctype_t) (s : STR) : Prop :=
  state s = st /\ cclass s = Some wct /\ tail s = [0] /\ (st = CCLASS_LOWER \/ st = CCLASS_UPPER) /\ 0 < cnt s.

Lemma class_next st wct s c l : in_class st wct s -> 0 <= lastch s < 256 -> rest_of wct (lastch s) = c :: l ->
  exists s', next s = Ok (true, s') /\ lastch s' = c /\ 0 <= c < 256 /\ rest_of wct c = l /\ in_class st wct s' /\ 1 < cnt s'.
Proof.
  intros (Hst & Hc & Ht & Hor & Hpos) Hl Hr. pose proof (nextwctype_spec wct (lastch s) Hl) as Hn. rewrite Hr in Hn.
  destruct Hn as (En & Hcr & ->). unfold next. replace (2 * length (mem s) + 2)%nat with (S (2 * length (mem s) + 1)) by lia.
  cbn [next_fuel]. unfold next_step. rewrite Hst, Hc. cbn [lastch with_cnt]. rewrite En.
  rewrite (proj2 (Z.eqb_neq c OOBCH)) by (unfold OOBCH; lia).
  exists (with_lastch (with_cnt s (cnt s + 1)) c). split; [by destruct Hor as [-> | ->]|].
  split; [done|]. split; [done|]. split; [done|]. split; [|cbn; lia]. split; [done|]. split; [done|]. split; [done|]. split; [done|]. cbn. lia.
Qed.

Lemma class_end st wct s : in_class st wct s -> 0 <= lastch s < 256 -> rest_of wct (lastch s) = [] ->
  exists s', next s = Ok (false, s').
Proof.
  intros (Hst & Hc & Ht & Hor & Hpos) Hl Hr. pose proof (nextwctype_spec wct (lastch s) Hl) as Hn. rewrite Hr in Hn.
  unfold next. replace (2 * length (mem s) + 2)%nat with (S (S (2 * length (mem s)))) by lia.
  cbn [next_fuel]. unfold next_step at 1. rewrite Hst, Hc. cbn [lastch with_cnt]. rewrite Hn, Z.eqb_refl.
  set (s1 := with_state (with_cnt s (cnt s + 1)) NORMAL).
  exists (with_state s1 EOS). assert (next_step (next_fuel (2 * length (mem s))) s1 = Ok (false, with_state s1 EOS)) as E.
  { unfold next_step. cbn [state with_state s1]. rewrite (char_at_tail s1 0). change (tail s1) with (tail s). by rewrite Ht. }
  destruct Hor as [-> | ->]; exact E.
Qed.

(** The classes of the two strings. *)
Definition case_class (st : str_state) (name : list Z) : Prop :=
  (st = CCLASS_LOWER /\ name = codes "lower") \/ (st = CCLASS_UPPER /\ name = codes "upper").
Definition class_arg (name : list Z) : list Z := codes "[:" ++ name ++ codes ":]".

Lemma bracket_class w st name wct : case_class st name -> wctype name = Some wct ->
  exists s, bracket (str_init w (class_arg name)) = Ok (true, s) /\ state s = st /\ cclass s = Some wct /\
    cnt s = 0 /\ lastch s = OOBCH /\ tail s = [0] /\ length (mem s) = 10%nat.
Proof.
  intros Hname Hw. unfold bracket. set (s0 := str_init w (class_arg name)).
  assert (char_at s0 1 = Ok (chr ":")) as -> by (by destruct Hname as [[_ ->]|[_ ->]]). cbn [mbind res_bind]. rewrite Z.eqb_refl.
  assert (strchr s0 (str s0 + 2) (chr "]") = Ok (Some 8%nat)) as -> by (by destruct Hname as [[_ ->]|[_ ->]]). cbn [mbind res_bind].
  assert (mem s0 !! (8 - 1)%nat = Some (chr ":")) as -> by (by destruct Hname as [[_ ->]|[_ ->]]).
  rewrite bool_decide_eq_true_2 by done. rewrite bool_decide_eq_false_2 by (cbn; lia). cbn [negb orb].
  destruct (store (mem s0) (8 - 1) 0) as [m| |] eqn:Em; [|by destruct Hname as [[_ ->]|[_ ->]]|by destruct Hname as [[_ ->]|[_ ->]]].
  cbn [mbind res_bind]. unfold genclass.
  assert (string_at (advance (with_mem s0 m) 2) (str (advance (with_mem s0 m) 2)) = Ok name) as ->
    by (destruct Hname as [[_ ->]|[_ ->]]; cbv in Em; injection Em as <-; done).
  cbn [mbind res_bind]. rewrite Hw. eexists. split; [done|].
  destruct Hname as [[-> ->]|[-> ->]]; cbv in Em; injection Em as <-; by repeat split.
Qed.

(** The first character of a class. *)
Lemma class_first w st name wct c l : case_class st name -> wctype name = Some wct -> members wct 0 256 = c :: l ->
  exists s, next (str_init w (class_arg name)) = Ok (true, s) /\ lastch s = c /\ 0 <= c < 256 /\
    rest_of wct c = l /\ in_class st wct s /\ cnt s = 1.
Proof.
  intros Hname Hw Hm. pose proof (nextwctype_first wct) as Hn. rewrite Hm in Hn. destruct Hn as (En & Hc & ->).
  destruct (bracket_class w st name wct Hname Hw) as (s1 & Eb & Hst & Hcl & Hcnt & Hl & Ht & Hlen).
  set (s0 := str_init w (class_arg name)) in *.
  assert (length (mem s0) = 10%nat) as Hlen0 by (by destruct Hname as [[_ ->]|[_ ->]]).
  unfold next. rewrite Hlen0. change (next_fuel (2 * 10 + 2) s0) with (next_step (next_fuel 21) s0). unfold next_step.
  change (state s0) with NORMAL. assert (char_at s0 0 = Ok (chr "[")) as -> by (by destruct Hname as [[_ ->]|[_ ->]]).
  cbn [mbind res_bind]. change (chr "[" =? 0) with false. change (chr "[" =? chr "\") with false. change (chr "[" =? chr "[") with true.
  cbn iota. rewrite Eb. cbn [mbind res_bind].
  exists (with_lastch (with_cnt s1 1) c).
  assert (next_fuel 21 s1 = Ok (true, with_lastch (with_cnt s1 1) c)) as ->.
  { change (next_fuel 21 s1) with (next_step (next_fuel 20) s1). unfold next_step. rewrite Hst, Hcl, Hcnt. cbn [lastch with_cnt]. rewrite Hl, En.
    rewrite (proj2 (Z.eqb_neq c OOBCH)) by (unfold OOBCH; lia). by destruct Hname as [[-> _]|[-> _]]. }
  split; [done|]. split; [done|]. split; [done|]. split; [done|]. split; [|done].
  split; [done|]. split; [done|]. split; [done|]. split; [|cbn; lia]. destruct Hname as [[-> _]|[-> _]]; [by left|by right].
Qed.

(** The first loop over string 1 enters the conversion of every member. *)
Lemma class_loop_spec lo l : forall fuel m M S, in_class CCLASS_LOWER lo (m_s1 m) -> 0 <= lastch (m_s1 m) < 256 ->
  rest_of lo (lastch (m_s1 m)) = l -> stand_for m M S -> (length l < fuel)%nat ->
  exists m', class_loop fuel false to_upper CCLASS_LOWER m = Done (false, m') /\
    stand_for m' (put_pairs M ((fun c => (c, towupper c)) <$> lastch (m_s1 m) :: l)) S.
Proof.
  induction l as [|c l IH]; intros fuel m M S Hin Hl Hr Hst Hf; (destruct fuel as [|fuel]; [cbn in Hf; lia|]); cbn [class_loop];
    unfold add_mapping; cbn [andb];
    destruct Hst as [Hm Hs]; destruct (add_pair_spec _ M (lastch (m_s1 m)) (conv to_upper (lastch (m_s1 m))) Hm) as (cm & -> & Hm');
    cbn [mbind outcome_bind m_map m_squeeze m_s1 m_s2].
  - destruct (class_end _ _ _ Hin Hl Hr) as (s' & E). rewrite (next_of _ _ E). cbn [of_res mbind outcome_bind negb].
    eexists. split; [done|]. by split.
  - destruct (class_next _ _ _ _ _ Hin Hl Hr) as (s' & E & Hc & Hcr & Hr' & Hin' & Hcnt). rewrite (next_of _ _ E).
    cbn [of_res mbind outcome_bind negb]. pose proof Hin' as (Hst' & _). rewrite bool_decide_eq_true_2 by done.
    rewrite (proj2 (Z.ltb_lt 1 (cnt s'))) by done. cbn [andb].
    destruct (IH fuel (Maps cm (m_squeeze m) s' (m_s2 m)) (Charmap (<[lastch (m_s1 m) := towupper (lastch (m_s1 m))]> (entries M)) (default_to M)) S)
      as (m' & -> & Hst''); [exact Hin'|cbn; by rewrite Hc|cbn; by rewrite Hc|by split|cbn in Hf; lia|].
    exists m'. split; [done|]. cbn [m_s1] in Hst''. rewrite Hc in Hst''. exact Hst''.
Qed.

Lemma members_elem wct n : forall ch x, x ∈ members wct ch n <-> ch <= x < ch + Z.of_nat n /\ iswctype x wct = true.
Proof.
  induction n as [|n IH]; intros ch x; [split; [by intros ?%elem_of_nil|lia]|]. rewrite members_S, elem_of_app, IH.
  destruct (iswctype ch wct) eqn:E.
  - rewrite list_elem_of_singleton. split; [intros [->|[Hx Hi]]; [split; [lia|done]|split; [lia|done]]|].
    intros [Hx Hi]. destruct (decide (x = ch)); [by left|right; split; [lia|done]].
  - split; [intros [[]%elem_of_nil|[Hx Hi]]; split; [lia|done]|]. intros [Hx Hi]. right. split; [|done].
    destruct (decide (x = ch)) as [->|]; [congruence|lia].
Qed.

Lemma image_graph (f : Z -> Z) l ch : image ((fun c => (c, f c)) <$> l) ch = if bool_decide (ch ∈ l) then f ch else ch.
Proof.
  unfold image. assert (forall to, foldl (fun to p => if p.1 =? ch then p.2 else to) to ((fun c => (c, f c)) <$> l) =
    if bool_decide (ch ∈ l) then f ch else to) as H; [|by apply H].
  induction l as [|x l IH]; intros to; [done|]. cbn [fmap list_fmap foldl fst snd]. rewrite IH.
  destruct (bool_decide_reflect (ch ∈ l)) as [Hin|Hin].
  - by rewrite bool_decide_eq_true_2 by (by right).
  - destruct (Z.eqb_spec x ch) as [->|Hne]; [by rewrite bool_decide_eq_true_2 by (by left)|].
    rewrite bool_decide_eq_false_2; [done|]. by intros [->|?]%elem_of_cons.
Qed.
End Case.

(** C20. [tr '[:lower:]' '[:upper:]'] converts the case of the lower case letters of
    the locale below 256 and leaves every other character as it is: letters above 255 as
    well, though the manual promises the pairs of the locale. *)
Theorem tr_case `{TrLocale} set_memory map_memory fuel lo up input :
  length set_memory = Z.to_nat CS_CACHE_SIZE -> length map_memory = Z.to_nat CM_CACHE_SIZE ->
  wctype (codes "lower") = Some lo -> wctype (codes "upper") = Some up ->
  (exists c, 0 <= c < 256 /\ iswctype c lo = true) -> (exists c, 0 <= c < 256 /\ iswctype c up = true) ->
  (257 < fuel)%nat -> Forall (fun ch => 0 <= ch) input ->
  tr_main set_memory map_memory fuel false false false false [codes "[:lower:]"; codes "[:upper:]"] input =
    Done ((fun ch => if (ch <? 256) && iswctype ch lo then towupper ch else ch) <$> input).
Proof.
  intros Hset Hmap Hlo Hup [cl Hcl] [cu Hcu] Hf Hin.
  destruct (members lo 0 256) as [|c l] eqn:El; [by apply (members_elem lo 256 0 cl) in Hcl; rewrite El in Hcl; apply elem_of_nil in Hcl|].
  destruct (members up 0 256) as [|u us] eqn:Eu; [by apply (members_elem up 256 0 cu) in Hcu; rewrite Eu in Hcu; apply elem_of_nil in Hcu|].
  destruct (class_first STRING1 CCLASS_LOWER (codes "lower") lo c l) as (s1 & E1 & Hc & Hcr & Hr & Hin1 & Hcnt1); [by left|done|done|].
  destruct (class_first STRING2 CCLASS_UPPER (codes "upper") up u us) as (s2 & E2 & Hu & _ & _ & Hin2 & Hcnt2); [by right|done|done|].
  unfold tr_main. cbn [andb]. unfold translate. cbn [orb].
  change (codes "[:lower:]") with (class_arg (codes "lower")). change (codes "[:upper:]") with (class_arg (codes "upper")).
  rewrite (next_of _ _ E2). cbn [of_res mbind outcome_bind negb]. destruct fuel as [|fuel]; [lia|]. cbn [map_loop m_s1].
  rewrite (next_of _ _ E1). cbn [of_res mbind outcome_bind negb m_s1 m_s2].
  assert (conversion_of s1 s2 = Some to_upper) as ->.
  { unfold conversion_of. rewrite Hcnt1, Hcnt2. destruct Hin1 as (-> & _). by destruct Hin2 as (-> & _). }
  assert (state s1 = CCLASS_LOWER) as -> by apply Hin1. cbn [m_map m_squeeze].
  destruct (class_loop_spec lo l fuel (Maps (cmap_alloc map_memory) (cset_alloc set_memory) s1 s2) (Charmap ∅ CM_DEF_SELF) (Charset ∅ [] false))
    as (m & -> & [Hm Hs]); [exact Hin1|cbn; by rewrite Hc|cbn; by rewrite Hc|split; [by apply cmap_alloc_represents|by apply cset_alloc_represents]| |].
  { assert (length (c :: l) <= 256)%nat as Hle; [|cbn in Hle; lia]. rewrite <- El. unfold members.
    etrans; [apply List.filter_length_le|]. unfold seqZ'. by rewrite length_fmap, length_seq. }
  cbn [mbind outcome_bind negb m_s1] in *. unfold complement. cbn [orb andb mbind outcome_bind].
  destruct (cset_cache_spec _ _ Hs) as (cs & -> & _). cbn [of_option mbind outcome_bind].
  destruct (cmap_cache_spec _ _ Hm) as (cm & -> & Hm'). cbn [of_option mbind outcome_bind].
  rewrite (map_output_spec input cm _ Hm' Hin). f_equal. rewrite Forall_forall in Hin.
  apply list_fmap_ext. intros i ch Hi. assert (0 <= ch) as Hch by (apply Hin; by eapply list_elem_of_lookup_2).
  rewrite image_value, Hc, <- El, image_graph. destruct (bool_decide_reflect (ch ∈ members lo 0 256)) as [Hm1|Hm1].
  - apply members_elem in Hm1 as [Hr1 ->]. by rewrite (proj2 (Z.ltb_lt ch 256)) by lia.
  - destruct (Z.ltb_spec ch 256); [|done]. destruct (iswctype ch lo) eqn:Ei; [|done].
    exfalso. apply Hm1, members_elem. split; [lia|done].
Qed.

Lemma tr_case_witness :
  tr_main (H := c_tr_locale) (repeat false 256) (repeat 0 128) 300 false false false false [codes "[:lower:]"; codes "[:upper:]"] (codes "Hello z1") =
    Done (codes "HELLO Z1").
Proof.
  rewrite (tr_case (H := c_tr_locale) (repeat false 256) (repeat 0 128) 300 (islower : @wctype_t c_wctypes) (isupper : @wctype_t c_wctypes) (codes "Hello z1")).
  - vm_compute. reflexivity.
  - reflexivity.
  - reflexivity.
  - reflexivity.
  - reflexivity.
  - exists 97. split; [lia|reflexivity].
  - exists 65. split; [lia|reflexivity].
  - lia.
  - repeat (apply Forall_cons; split; [vm_compute; discriminate|]). by apply Forall_nil.
Defined.
