(* ===== verification/TrEdge.v ===== *)
(** tr at the edges: a bracket that ends a string, a repetition without a count in a
    string to squeeze, and the complement of the characters of the locale. *)

From stdpp Require Import gmap.
From S2P Require Import Prelude Ctype Strto Splay TrSet TrMap TrStr Tr TrNext TrCorrect.

(** [bracket] looks two characters behind a [\[] without looking at the next one: a
    string that ends in [\[] is read behind its NUL. *)
Lemma bracket_at_end `{TrLocale} w : next (str_init w [chr "["]) = Fault.
Proof. destruct w; reflexivity. Qed.

(** [tr '\[' string2] and [tr -d '\['] read memory behind the argument. *)
Theorem tr_lone_bracket `{TrLocale} set_memory map_memory fuel cflag Cflag arg2 input :
  tr_main set_memory map_memory (S fuel) Cflag cflag true false [codes "["] input = Broken /\
  (forall b s2, next (str_init STRING2 arg2) = Ok (b, s2) -> b = true ->
    tr_main set_memory map_memory (S fuel) Cflag cflag false false [codes "["; arg2] input = Broken).
Proof.
  split.
  - unfold tr_main, setup. cbn [andb setup_loop]. by rewrite (next_of _ _ (bracket_at_end STRING1)).
  - intros b s2 E ->. unfold tr_main, translate. cbn [andb]. rewrite (next_of _ _ E). cbn [of_res mbind outcome_bind negb map_loop m_s1].
    by rewrite (next_of _ _ (bracket_at_end STRING1)).
Qed.

(** A string that goes on for ever is never set up. *)
Lemma setup_infinite `{TrLocale} fuel : forall s cs, state s = INFINITE -> is_wchar (lastch s) -> (exists S, TrSet.represents cs S) ->
  setup_loop fuel s cs = Hang.
Proof.
  induction fuel as [|fuel IH]; intros s cs Hs Hl [S Hrep]; [done|]. cbn [setup_loop].
  assert (next s = Ok (true, s)) as E.
  { unfold next. replace (2 * length (mem s) + 2)%nat with (Datatypes.S (2 * length (mem s) + 1)) by lia. cbn [next_fuel].
    unfold next_step. by rewrite Hs. }
  rewrite (next_of _ _ E). cbn [of_res mbind outcome_bind]. destruct (add_char_spec cs S (lastch s) Hrep Hl) as (cs' & -> & Hrep').
  cbn [mbind outcome_bind]. apply IH; [done|done|by eexists].
Qed.

(** [tr -s a bc] squeezes b, which stands for a, and leaves c, which stands for nothing. *)
Theorem tr_squeezes_targets_only :
  tr_main (repeat false 256) (repeat 0 128) 20 false false false true [codes "a"; codes "bc"] (codes "aabbcc") = Done (codes "bcc").
Proof. vm_compute. reflexivity. Qed.

(** C40. [tr -ds string1 '\[c*\]'] never ends: the second string is set up as a set, and
    [next] delivers its character for ever. *)
Theorem tr_squeeze_hangs `{TrLocaleOk} set_memory map_memory fuel its1 c input :
  length set_memory = Z.to_nat CS_CACHE_SIZE -> items_ok STRING1 its1 -> 0 <= c < 512 ->
  (length (chars_of its1) < fuel)%nat ->
  tr_main set_memory map_memory fuel false false true true [render its1; render [Fill c]] input = Hang.
Proof.
  intros Hset H1 Hc Hf. unfold tr_main. cbn [andb].
  assert (setup set_memory fuel (str_init STRING2 (render [Fill c])) false false = Hang) as ->.
  { destruct fuel as [|fuel]; [done|]. unfold setup. cbn [setup_loop]. set (s0 := str_init STRING2 (render [Fill c])).
    assert (at_rest STRING2 [Fill c] s0) as Hrest by (split; [done|split; [done|]]; by cbn).
    destruct (fill_infinite STRING2 (2 * length (mem s0)) s0 c [] Hrest eq_refl) as (s & E & _ & Hl & Hs).
    assert (next s0 = Ok (true, s)) as En
      by (unfold next; by replace (2 * length (mem s0) + 2)%nat with (S (S (2 * length (mem s0)))) by lia).
    rewrite (next_of _ _ En). cbn [of_res mbind outcome_bind]. rewrite Hl.
    destruct (add_char_spec _ _ c (cset_alloc_represents _ Hset)) as (cs & -> & Hrep); [unfold is_wchar; lia|]. cbn [mbind outcome_bind].
    rewrite setup_infinite; [done|done|rewrite Hl; unfold is_wchar; lia|by eexists]. }
  destruct (setup_spec set_memory fuel (str_init STRING1 (render its1)) _ false false Hset (init_ready _ STRING1 its1 H1 (fun e => e))
    (wchars _ _ H1) Hf) as (cs & S & -> & _). done.
Qed.

Lemma tr_squeeze_hangs_witness :
  tr_main (repeat false 256) [] 1000 false false true true [codes "a"; codes "[\142*]"] (codes "abba") = Hang.
Proof.
  apply (tr_squeeze_hangs (repeat false 256) [] 1000 [Plain 97] 98 (codes "abba")).
  - reflexivity.
  - cbn. split_and!; (lia || set_solver).
  - lia.
  - cbn. lia.
Defined.

(** Where the locale has no class "rune", as with the C libraries of Linux, the
    set of [tr -C] is empty: nothing is deleted and nothing is squeezed. *)
Theorem tr_C_selects_nothing `{TrLocaleOk} set_memory map_memory fuel its input :
  length set_memory = Z.to_nat CS_CACHE_SIZE -> items_ok STRING1 its -> (length (chars_of its) < fuel)%nat ->
  Forall (fun ch => 0 <= ch) input -> wctype (codes "rune") = None -> (forall ch, iswctype ch no_class = false) ->
  tr_main set_memory map_memory fuel true false true false [render its] input = Done input /\
  tr_main set_memory map_memory fuel true false false true [render its] input = Done input.
Proof.
  intros Hset H1 Hf Hin Hr Hno. unfold tr_main. cbn [andb].
  destruct (setup_spec set_memory fuel (str_init STRING1 (render its)) _ false true Hset (init_ready _ STRING1 its H1 (fun e => e))
    (wchars _ _ H1) Hf) as (cs & S & -> & Hrep & Hsel).
  assert (forall ch, contains S ch = false) as Hc by (intros ch; rewrite Hsel; unfold selected; rewrite Hr; cbn; by rewrite Hno).
  cbn [mbind outcome_bind]. rewrite (delete_loop_spec _ cs S Hrep Hin), (squeeze_loop_spec _ cs S _ Hrep Hin). split; f_equal.
  - clear -Hc. induction input as [|ch input IH]; [done|]. cbn. by rewrite Hc, IH.
  - generalize OOBCH. clear -Hc. induction input as [|ch input IH]; intros last; [done|]. by rewrite squeezed_cons, Hc, andb_false_r, IH.
Qed.

Lemma tr_C_selects_nothing_witness :
  tr_main (repeat false 256) [] 20 true false true false [render [Plain 97]] (codes "abc") = Done (codes "abc") /\
  tr_main (repeat false 256) [] 20 true false false true [render [Plain 97]] (codes "abc") = Done (codes "abc").
Proof.
  apply (tr_C_selects_nothing (repeat false 256) [] 20 [Plain 97] (codes "abc")).
  - reflexivity.
  - cbn. split_and!; (lia || set_solver).
  - cbn. lia.
  - repeat (apply Forall_cons; split; [vm_compute; discriminate|]). by apply Forall_nil.
  - reflexivity.
  - reflexivity.
Defined.
