(* ===== verification/TsortHash.v ===== *)
(** The hash table of tsort (src.freebsd/coreutils/tsort/tsort.c): chains and the
    list of free cells run through the same [next] pointers of cells that are
    allocated in chunks of 64.

    A pointer to a cell is its index in the order of allocation; a pointer that
    leads nowhere is [None].  [calloc] succeeds. *)

From stdpp Require Import list.
From S2P Require Import Prelude.

Definition HASH_CHUNK_SIZE : nat := 64.
Definition HASH_BUCKET_COUNT : nat := 1024.

(** [elem] is a node, the index of its record. *)
Record hash_elem := HashElem { elem : option nat; next : option nat }.

(** [pool] are the cells of all chunks. *)
Record hash := Hash { elems : list (option nat); pool : list hash_elem; top : option nat }.

Definition hash_init : hash := Hash (replicate HASH_BUCKET_COUNT None) [] None.

(** A [char] of the key is signed. *)
Definition hash_key (key : list Z) : Z :=
  fold_left (fun h k => Z.lxor (u64 (u64 (h .<< 5) + h)) (u64 (sext 8 k))) key 5381.
Definition bucket (key : list Z) : nat := Z.to_nat (hash_key key .& (Z.of_nat HASH_BUCKET_COUNT - 1)).

(** The walk along a chain; [name] is [n_name]. *)
Fixpoint find_loop (fuel : nat) (h : hash) (name : nat -> option (list Z)) (key : list Z) (c : option nat) : option (option nat) :=
  match c with
  | None => Some None
  | Some c =>
    match fuel with
    | O => None
    | S fuel =>
      e ← pool h !! c;
      n ← elem e;
      nm ← name n;
      if bool_decide (key = nm) then Some (Some n) else find_loop fuel h name key (next e)
    end
  end.
Definition hash_find (h : hash) (name : nat -> option (list Z)) (key : list Z) : option (option nat) :=
  c ← elems h !! bucket key; find_loop (length (pool h)) h name key c.

(** A new chunk at the end of the pool, its cells linked. *)
Definition new_chunk (h : hash) : hash :=
  let base := length (pool h) in
  let linked := (fun i => HashElem None (Some (base + i + 1)%nat)) <$> seq 0 (HASH_CHUNK_SIZE - 1) in
  Hash (elems h) (pool h ++ linked ++ [HashElem None (top h)]) (Some base).

(** The cell that is put at the head of the chain of [key]. *)
Definition hash_insert (h : hash) (key : list Z) : option (nat * hash) :=
  let h := match top h with None => new_chunk h | Some _ => h end in
  hc ← top h;
  e ← pool h !! hc;
  head ← elems h !! bucket key;
  pool ← awrite (pool h) hc (HashElem (elem e) head);
  elems ← awrite (elems h) (bucket key) (Some hc);
  Some (hc, Hash elems pool (next e)).

(** [hc->elem = n]. *)
Definition set_elem (h : hash) (hc n : nat) : option hash :=
  e ← pool h !! hc;
  pool ← awrite (pool h) hc (HashElem (Some n) (next e));
  Some (Hash (elems h) pool (top h)).

(** * Chains *)

Inductive chain (p : list hash_elem) : option nat -> list nat -> Prop :=
| chain_nil : chain p None []
| chain_cons c e l : p !! c = Some e -> chain p (next e) l -> chain p (Some c) (c :: l).

Lemma chain_frame p p' o l : chain p o l -> (forall c, c ∈ l -> p' !! c = p !! c) -> chain p' o l.
Proof.
  induction 1 as [|c e l Hc _ IH]; intros Hf; [constructor|].
  econstructor; [rewrite Hf; [done|set_solver]|]. apply IH. intros; apply Hf; set_solver.
Qed.

Lemma chain_valid p o l : chain p o l -> forall c, c ∈ l -> (c < length p)%nat.
Proof. induction 1; intros c'; set_solver by eauto using lookup_lt_Some. Qed.

Lemma NoDup_bounded_length (l : list nat) n : NoDup l -> (forall c, c ∈ l -> (c < n)%nat) -> (length l <= n)%nat.
Proof.
  intros Hd Hb. rewrite <- (length_seq n 0). apply NoDup_incl_length; [by apply NoDup_ListNoDup|].
  intros c Hc. apply in_seq. apply list_elem_of_In, Hb in Hc. lia.
Qed.

(** * The table finds the nodes by their names *)

Lemma bucket_lt key : (bucket key < HASH_BUCKET_COUNT)%nat.
Proof.
  unfold bucket, HASH_BUCKET_COUNT. change (Z.of_nat 1024 - 1) with (Z.ones 10). rewrite Z.land_ones by lia.
  pose proof (Z.mod_pos_bound (hash_key key) (2 ^ 10)). lia.
Qed.

Definition node_in (p : list hash_elem) (c n : nat) : Prop := exists e, p !! c = Some e /\ elem e = Some n.

(** The chains are [cs], the free cells [free]; the nodes have [names]. *)
Record chains (h : hash) (names : list (list Z)) (cs : nat -> list nat) (free : list nat) : Prop := {
  ch_len : length (elems h) = HASH_BUCKET_COUNT;
  ch_bucket b : (b < HASH_BUCKET_COUNT)%nat -> exists o, elems h !! b = Some o /\ chain (pool h) o (cs b);
  ch_free : chain (pool h) (top h) free;
  ch_used b c : c ∈ cs b -> c ∉ free;
  ch_apart b b' c : c ∈ cs b -> c ∈ cs b' -> b = b';
  ch_nodup b : NoDup (cs b);
  ch_free_nodup : NoDup free;
  ch_sound b c : c ∈ cs b -> exists n nm, node_in (pool h) c n /\ names !! n = Some nm /\ bucket nm = b;
  ch_complete n nm : names !! n = Some nm -> exists c, c ∈ cs (bucket nm) /\ node_in (pool h) c n
}.
Definition hash_ok (h : hash) (names : list (list Z)) : Prop := exists cs free, chains h names cs free.

Lemma hash_init_ok : hash_ok hash_init [].
Proof.
  exists (fun _ => []), []. split; try (intros; set_solver); try (intros; constructor).
  intros b Hb. exists None. split; [|constructor]. by apply lookup_replicate.
Qed.

Lemma find_loop_spec h (names : list (list Z)) key fuel : forall o l, chain (pool h) o l -> (length l <= fuel)%nat ->
  (forall c, c ∈ l -> exists n nm, node_in (pool h) c n /\ names !! n = Some nm) ->
  exists r, find_loop fuel h (fun n => names !! n) key o = Some r /\
    match r with
    | Some n => names !! n = Some key
    | None => forall c n, c ∈ l -> node_in (pool h) c n -> names !! n <> Some key
    end.
Proof.
  induction fuel as [|fuel IH]; intros o l Hc Hl Hin.
  - destruct Hc; [|cbn in Hl; lia]. exists None. split; [done|set_solver].
  - destruct Hc as [|c e l He Hc]; [exists None; split; [done|set_solver]|].
    cbn [find_loop]. destruct (Hin c ltac:(set_solver)) as (n & nm & (e' & He' & Hn) & Hnm).
    assert (e' = e) as -> by congruence. rewrite He. cbn. rewrite Hn. cbn. rewrite Hnm. cbn.
    case_bool_decide as Hk; [exists (Some n); split; [done|congruence]|].
    destruct (IH _ l Hc ltac:(cbn in Hl; lia)) as (r & -> & Hr); [set_solver|]. exists r. split; [done|].
    destruct r; [done|]. intros c' n' [->|Hc']%elem_of_cons Hn'; [|by eapply Hr].
    destruct Hn' as (e' & ? & ?). assert (n' = n) as -> by congruence. congruence.
Qed.

Lemma hash_find_spec h names key : hash_ok h names -> NoDup names ->
  exists r, hash_find h (fun n => names !! n) key = Some r /\
    match r with Some n => names !! n = Some key | None => key ∉ names end.
Proof.
  intros (cs & free & [Hlen Hb _ _ _ Hd _ Hs Hc]) Hnd. unfold hash_find.
  destruct (Hb _ (bucket_lt key)) as (o & -> & Ho). cbn.
  destruct (find_loop_spec h names key (length (pool h)) o _ Ho) as (r & -> & Hr).
  - apply NoDup_bounded_length; [done|]. by apply (chain_valid _ _ _ Ho).
  - intros c Hin. destruct (Hs _ c Hin) as (n & nm & ? & ? & _). eauto.
  - exists r. split; [done|]. destruct r; [done|]. intros [n Hn]%list_elem_of_lookup.
    destruct (Hc _ _ Hn) as (c & Hin & Hnode). by destruct (Hr c n).
Qed.

(** ** Insertion *)

Lemma linked_chain p base n : forall k, (forall i, (k <= i < n)%nat -> p !! (base + i)%nat = Some (HashElem None (Some (base + i + 1)%nat))) ->
  p !! (base + n)%nat = Some (HashElem None None) -> (k <= n)%nat ->
  chain p (Some (base + k)%nat) (seq (base + k) (n + 1 - k)).
Proof.
  intros k Hl He. remember (n - k)%nat as d eqn:Ed. revert k Hl Ed. induction d as [|d IH]; intros k Hl Ed Hk.
  - replace k with n by lia. replace (n + 1 - n)%nat with 1%nat by lia. econstructor; [done|]. constructor.
  - replace (n + 1 - k)%nat with (S (n + 1 - S k)) by lia. cbn [seq]. econstructor; [apply Hl; lia|]. cbn [next].
    replace (base + k + 1)%nat with (base + S k)%nat by lia. replace (S (base + k)) with (base + S k)%nat by lia.
    apply IH; [intros; apply Hl; lia|lia..].
Qed.

Lemma new_chunk_chains h names cs : top h = None -> chains h names cs [] ->
  chains (new_chunk h) names cs (seq (length (pool h)) HASH_CHUNK_SIZE).
Proof.
  intros Ht [Hlen Hb _ _ Ha Hd _ Hs Hc].
  assert (forall c, (c < length (pool h))%nat -> pool (new_chunk h) !! c = pool h !! c) as Hold
    by (intros c Hlt; cbn; by rewrite lookup_app_l).
  assert (forall b c, c ∈ cs b -> (c < length (pool h))%nat) as Hv
    by (intros b c Hin; destruct (Hs _ _ Hin) as (n & nm & (e & He & _) & _); by eapply lookup_lt_Some).
  assert (forall c n, node_in (pool h) c n -> node_in (pool (new_chunk h)) c n) as Hnode
    by (intros c n (e & He & ?); exists e; split; [rewrite Hold; [done|by eapply lookup_lt_Some]|done]).
  split; try done.
  - intros b Hlt. destruct (Hb b Hlt) as (o & Ho & Hch). exists o. split; [done|].
    apply (chain_frame _ _ _ _ Hch). intros c Hin. by apply Hold, (Hv b).
  - cbn [top new_chunk]. rewrite <- (Nat.add_0_r (length (pool h))) at 1 2.
    apply (linked_chain _ _ 63 0); [|cbn; rewrite lookup_app_r by lia|lia].
    + intros i Hi. cbn [pool new_chunk]. rewrite lookup_app_r, lookup_app_l by (rewrite ?length_fmap, ?length_seq; unfold HASH_CHUNK_SIZE; lia).
      rewrite list_lookup_fmap, lookup_seq_lt by (unfold HASH_CHUNK_SIZE; lia). cbn. do 3 f_equal. lia.
    + replace (length (pool h) + 63 - length (pool h))%nat with 63%nat by lia. cbn. by rewrite Ht.
  - intros b c Hin%Hv [? _]%list_elem_of_In%in_seq. lia.
  - apply NoDup_seq.
  - intros b c Hin. destruct (Hs b c Hin) as (n & nm & ? & ?). eauto.
  - intros n nm Hn. destruct (Hc n nm Hn) as (c & ? & ?). eauto.
Qed.

Lemma chain_put (p : list hash_elem) hc x o l : chain p o l -> hc ∉ l -> chain (<[hc := x]> p) o l.
Proof. intros Hc Hn. apply (chain_frame _ _ _ _ Hc). intros c Hin. apply list_lookup_insert_ne. set_solver. Qed.

Lemma extended_elem (cs : nat -> list nat) k hc b c :
  c ∈ (if decide (b = k) then hc :: cs b else cs b) <-> (c = hc /\ b = k) \/ c ∈ cs b.
Proof. case_decide; rewrite ?elem_of_cons; naive_solver. Qed.

Lemma put_cell_spec h names cs free hc key : chains h names cs (hc :: free) -> top h = Some hc ->
  exists e head, pool h !! hc = Some e /\ elems h !! bucket key = Some head /\
    chains (Hash (<[bucket key := Some hc]> (elems h)) (<[hc := HashElem (Some (length names)) head]> (pool h)) (next e))
      (names ++ [key]) (fun b => if decide (b = bucket key) then hc :: cs b else cs b) free.
Proof.
  intros [Hlen Hb Hf Hu Ha Hd [Hhf Hfd]%NoDup_cons Hs Hc] Ht. rewrite Ht in Hf. inversion Hf as [|? e ? He Hf']; subst.
  destruct (Hb _ (bucket_lt key)) as (head & Hh & Hch). exists e, head. split; [done|]. split; [done|].
  pose proof (bucket_lt key) as Hlt. set (x := HashElem (Some (length names)) head).
  assert (hc < length (pool h))%nat as Hhc by by eapply lookup_lt_Some.
  assert (forall b c, c ∈ cs b -> c <> hc) as Hne by (intros b c Hin ->; apply (Hu _ _ Hin); set_solver).
  assert (forall c n, c <> hc -> node_in (pool h) c n -> node_in (<[hc := x]> (pool h)) c n) as Hnode
    by (intros c n Hn (e' & ? & ?); exists e'; split; [by rewrite list_lookup_insert_ne|done]).
  assert (node_in (<[hc := x]> (pool h)) hc (length names)) as Hnew by (exists x; split; [by apply list_lookup_insert_eq|done]).
  split; cbn.
  - by rewrite length_insert.
  - intros b Hlb. destruct (decide (b = bucket key)) as [->|Hnb].
    + exists (Some hc). split; [apply list_lookup_insert_eq; lia|]. econstructor; [by apply list_lookup_insert_eq|].
      apply chain_put; [done|]. intros Hin. by apply (Hne _ _ Hin).
    + destruct (Hb b Hlb) as (o & Ho & Hco). exists o. split; [by rewrite list_lookup_insert_ne|].
      apply chain_put; [done|]. intros Hin. by apply (Hne _ _ Hin).
  - by apply chain_put.
  - intros b c [[-> _]|Hin]%extended_elem; [done|]. apply Hu in Hin. set_solver.
  - intros b b' c [[-> ->]|H1]%extended_elem [[? ->]|H2]%extended_elem; subst; eauto; exfalso; by eapply Hne.
  - intros b. case_decide; [|done]. apply NoDup_cons. split; [|done]. intros Hin. by apply (Hne _ _ Hin).
  - done.
  - intros b c [[-> ->]|Hin']%extended_elem.
    + exists (length names), key. split; [done|]. split; [by rewrite lookup_app_r, Nat.sub_diag|done].
    + destruct (Hs _ _ Hin') as (n & nm & ? & Hn & ?). exists n, nm. split; [apply Hnode; eauto|].
      split; [|done]. apply lookup_app_l_Some. done.
  - intros n nm [Hn|[Hle Hn]]%lookup_app_Some.
    + destruct (Hc _ _ Hn) as (c & Hin & ?). exists c. rewrite extended_elem. eauto.
    + destruct (n - length names)%nat eqn:En; [|done]. cbn in Hn. injection Hn as <-. exists hc. rewrite extended_elem.
      split; [by left|]. by replace n with (length names) by lia.
Qed.

(** A node whose name was not there gets a cell of its own. *)
Lemma hash_insert_spec h names key : hash_ok h names ->
  exists hc h1 h2, hash_insert h key = Some (hc, h1) /\ set_elem h1 hc (length names) = Some h2 /\ hash_ok h2 (names ++ [key]).
Proof.
  intros (cs & free & Hch).
  assert (exists hc free', let h' := match top h with None => new_chunk h | Some _ => h end in
    top h' = Some hc /\ chains h' names cs (hc :: free')) as (hc & free' & Ht & Hch').
  { pose proof (ch_free _ _ _ _ Hch) as Hf. destruct (top h) as [hc|] eqn:Ht.
    - inversion Hf as [|? ? l]; subst. exists hc, l. cbn. rewrite Ht. done.
    - inversion Hf; subst. eexists _, _. split; [done|]. exact (new_chunk_chains h names cs Ht Hch). }
  unfold hash_insert. set (h' := match top h with None => new_chunk h | Some _ => h end) in *. rewrite Ht. cbn.
  destruct (put_cell_spec _ _ _ _ _ key Hch' Ht) as (e & head & He & Hh & Hnew). rewrite He, Hh. cbn.
  assert (hc < length (pool h'))%nat as Hhc by by eapply lookup_lt_Some.
  rewrite (awrite_Some _ hc _ Hhc). cbn. rewrite (awrite_Some _ _ _ (lookup_lt_Some _ _ _ Hh)). cbn.
  eexists _, _, _. split; [done|]. unfold set_elem. cbn [pool top elems]. rewrite list_lookup_insert_eq by done. cbn.
  rewrite awrite_Some by by rewrite length_insert. cbn. split; [done|]. rewrite list_insert_insert_eq. by eexists _, _.
Qed.
