(* ===== verification/Tsort.v ===== *)
(** tsort (src.freebsd/coreutils/tsort/tsort.c): the graph of the input, read as
    pairs of words, is sorted by removing the nodes that no arc points to, and a
    node of a cycle where there is none.

    A pointer to a node is the index of its record, in the order of allocation;
    [n_arcs] are the cells of its array that have been written.  A program is a
    function on the state that ends with a result, leaves with a message, or
    accesses memory it does not own ([Broken]); [Hang] is the end of the fuel.
    Memory is there for every block up to half of the address space. *)

From stdpp Require Import list.
From S2P Require Import Prelude Ctype TsortHash.

Definition NF_MARK : Z := 1.
Definition NF_ACYCLIC : Z := 2.
Definition NF_NODEST : Z := 4.

(** [n_prevp] points to [graph] or to the [n_next] of a node. *)
Inductive link := graph_link | next_of (n : nat).

Record node := Node {
  n_prevp : link;
  n_next : option nat;
  n_arcs : list nat;
  n_narcs : Z;
  n_arcsize : Z;
  n_refcnt : Z;
  n_flags : Z;
  n_name : list Z
}.

(** The standard output, and the lines on the standard error. *)
Inductive event := Print (name : list Z) | Warn_cycle | Warn (name : list Z) | Trace (depth : Z) (from to : list Z) (len : Z).

Record state := State {
  nodes : list node;
  graph : option nat;
  db : hash;
  cycle_buf : option (list (option nat));
  longest_cycle : option (list (option nat));
  out : list event
}.

Inductive outcome (A : Type) : Type := Done (a : A) | Failed (message : string) | Broken | Hang.
Arguments Done {A} a.
Arguments Failed {A} message.
Arguments Broken {A}.
Arguments Hang {A}.

Definition prog (A : Type) : Type := state -> outcome (A * state).
#[export] Instance prog_ret : MRet prog := fun _ a s => Done (a, s).
#[export] Instance prog_bind : MBind prog := fun _ _ f m s =>
  match m s with Done (a, s) => f a s | Failed e => Failed e | Broken => Broken | Hang => Hang end.

Definition failed {A} (message : string) : prog A := fun _ => Failed message.
Definition broken {A} : prog A := fun _ => Broken.
Definition hang {A} : prog A := fun _ => Hang.
Definition of_option {A} (o : option A) : prog A := match o with Some a => mret a | None => broken end.

(** Access to the state. *)
Definition get : prog state := fun s => Done (s, s).
Definition update (f : state -> state) : prog unit := fun s => Done (tt, f s).
Definition with_nodes (s : state) (ns : list node) : state :=
  State ns (graph s) (db s) (cycle_buf s) (longest_cycle s) (out s).
Definition with_graph (s : state) (g : option nat) : state :=
  State (nodes s) g (db s) (cycle_buf s) (longest_cycle s) (out s).
Definition with_db (s : state) (h : hash) : state :=
  State (nodes s) (graph s) h (cycle_buf s) (longest_cycle s) (out s).
Definition with_bufs (s : state) (c l : option (list (option nat))) : state :=
  State (nodes s) (graph s) (db s) c l (out s).
Definition deref (n : nat) : prog node := fun s => match nodes s !! n with Some x => Done (x, s) | None => Broken end.
Definition assign (n : nat) (x : node) : prog unit := fun s =>
  match awrite (nodes s) n x with Some ns => Done (tt, with_nodes s ns) | None => Broken end.
Definition modify (n : nat) (f : node -> node) : prog unit := x ← deref n; assign n (f x).
Definition emit (e : event) : prog unit := fun s =>
  Done (tt, State (nodes s) (graph s) (db s) (cycle_buf s) (longest_cycle s) (out s ++ [e])).

Definition with_prevp (x : node) (p : link) : node :=
  Node p (n_next x) (n_arcs x) (n_narcs x) (n_arcsize x) (n_refcnt x) (n_flags x) (n_name x).
Definition with_next (x : node) (p : option nat) : node :=
  Node (n_prevp x) p (n_arcs x) (n_narcs x) (n_arcsize x) (n_refcnt x) (n_flags x) (n_name x).
Definition with_arcs (x : node) (a : list nat) (n size : Z) : node :=
  Node (n_prevp x) (n_next x) a n size (n_refcnt x) (n_flags x) (n_name x).
Definition with_refcnt (x : node) (n : Z) : node :=
  Node (n_prevp x) (n_next x) (n_arcs x) (n_narcs x) (n_arcsize x) n (n_flags x) (n_name x).
Definition with_flags (x : node) (f : Z) : node :=
  Node (n_prevp x) (n_next x) (n_arcs x) (n_narcs x) (n_arcsize x) (n_refcnt x) f (n_name x).

(** [*p = q] for a pointer to a link. *)
Definition set_link (p : link) (q : option nat) : prog unit :=
  match p with
  | graph_link => update (fun s => with_graph s q)
  | next_of n => modify n (fun x => with_next x q)
  end.

(** The first [n_narcs] cells of the array. *)
Definition arcs (x : node) : prog (list nat) :=
  if n_narcs x <=? Z.of_nat (length (n_arcs x)) then mret (take (Z.to_nat (n_narcs x)) (n_arcs x)) else broken.

(** ** Building the graph *)

(** A string in memory ends at its first NUL. *)
Fixpoint cstr (w : list Z) : list Z :=
  match w with [] => [] | c :: w => if c =? 0 then [] else c :: cstr w end.

Definition grow_buf (size : Z) : prog unit := if size <? 2 ^ 63 then mret tt else failed "realloc".

Definition get_node (name : list Z) : prog nat :=
  s ← get;
  found ← of_option (hash_find (db s) (fun n => n_name <$> nodes s !! n) name);
  match found with
  | Some n => mret n
  | None =>
    let n := length (nodes s) in
    update (fun s => with_nodes s (nodes s ++ [Node graph_link (graph s) [] 0 0 0 0 name]));;
    match graph s with
    | Some g => modify g (fun x => with_prevp x (next_of n))
    | None => mret tt
    end;;
    update (fun s => with_graph s (Some n));;
    '(hc, h) ← of_option (hash_insert (db s) name);
    h ← of_option (set_elem h hc n);
    update (fun s => with_db s h);;
    mret n
  end.

Definition add_arc (s1 s2 : list Z) : prog unit :=
  n1 ← get_node s1;
  if bool_decide (s1 = s2) then mret tt
  else
    n2 ← get_node s2;
    x ← deref n1;
    l ← arcs x;
    if existsb (Nat.eqb n2) l then mret tt
    else
      x ← (if n_narcs x =? n_arcsize x then
             let arcsize := if n_arcsize x =? 0 then 10 else n_arcsize x in
             let bsize := s32 (u64 (u64 (arcsize * 8) * 2)) in
             grow_buf (u64 bsize);;
             mret (with_arcs x (n_arcs x) (n_narcs x) (s32 (u64 bsize / 8)))
           else mret x);
      if n_narcs x <? n_arcsize x
      then
        let k := Z.to_nat (n_narcs x) in
        assign n1 (with_arcs x (take k (n_arcs x) ++ [n2] ++ drop (S k) (n_arcs x)) (n_narcs x + 1) (n_arcsize x));;
        modify n2 (fun y => with_refcnt y (n_refcnt y + 1))
      else broken.

(** ** Reading the input *)

Fixpoint skip_space (input : list Z) : list Z :=
  match input with c :: rest => if isspace c then skip_space rest else input | [] => [] end.

(** The [do] loop: the word, the size of its buffer and the rest. *)
Fixpoint read_word (input used : list Z) (bsize : Z) : prog (list Z * Z * list Z) :=
  match input with
  | c :: rest =>
    if isspace c then mret (used, bsize, input)
    else if Z.of_nat (length used) <? bsize then
      let used := used ++ [c] in
      if Z.of_nat (length used) =? bsize then
        if bsize * 2 <? 2 ^ 31 then grow_buf (bsize * 2);; read_word rest used (bsize * 2) else broken
      else read_word rest used bsize
    else broken
  | [] => mret (used, bsize, [])
  end.

(** [n] and the two buffers: the contents of the first, and the sizes. *)
Fixpoint input_loop (fuel : nat) (input : list Z) (n : bool) (buf0 : list Z) (bsize0 bsize1 : Z) : prog bool :=
  match fuel with
  | O => hang
  | S fuel =>
    let input := skip_space input in
    match input with
    | [] => mret n
    | _ :: _ =>
      '(used, bsize, rest) ← read_word input [] (if n then bsize1 else bsize0);
      if Z.of_nat (length used) <? bsize then
        if n then add_arc (cstr buf0) (cstr used);; input_loop fuel rest (negb n) buf0 bsize0 bsize
        else input_loop fuel rest (negb n) used bsize bsize1
      else broken
    end
  end.

(** ** Sorting *)

(** [for (n = graph; n != NULL; n = n->n_next)] over [f]. *)
Fixpoint for_nodes (fuel : nat) (n : option nat) (f : nat -> prog unit) : prog unit :=
  match n with
  | None => mret tt
  | Some n =>
    match fuel with
    | O => hang
    | S fuel => f n;; x ← deref n; for_nodes fuel (n_next x) f
    end
  end.

Definition flag (n : nat) (f : Z) : prog unit := modify n (fun x => with_flags x (n_flags x .| f)).
Definition unflag (n : nat) (f : Z) : prog unit := modify n (fun x => with_flags x (n_flags x .&~ f)).

Definition clear_cycle (fuel : nat) : prog unit := s ← get; for_nodes fuel (graph s) (fun n => unflag n NF_NODEST).

Fixpoint each {A} (l : list A) (f : A -> prog unit) : prog unit :=
  match l with [] => mret tt | a :: l => f a;; each l f end.

Definition remove_node (n : nat) : prog unit :=
  x ← deref n;
  emit (Print (n_name x));;
  l ← arcs x;
  each l (fun m => modify m (fun y => with_refcnt y (n_refcnt y - 1)));;
  modify n (fun x => with_arcs x (n_arcs x) 0 (n_arcsize x));;
  x ← deref n;
  set_link (n_prevp x) (n_next x);;
  x ← deref n;
  match n_next x with
  | Some m => modify m (fun y => with_prevp y (n_prevp x))
  | None => mret tt
  end.

(** ** Cycles *)

Section Options.
Variables (debug longest quiet : bool).

(** [cycle_buf[depth] = n]. *)
Definition log_node (depth : Z) (n : nat) : prog unit := fun s =>
  match cycle_buf s with
  | Some c => match awrite c (Z.to_nat depth) (Some n) with
              | Some c => Done (tt, with_bufs s (Some c) (longest_cycle s))
              | None => Broken
              end
  | None => Broken
  end.

(** The [memcpy] of the first [len] cells. *)
Definition save_cycle (len : Z) : prog unit := fun s =>
  match cycle_buf s, longest_cycle s with
  | Some c, Some l =>
    if (len <=? Z.of_nat (length c)) && (len <=? Z.of_nat (length l))
    then Done (tt, with_bufs s (Some c) (Some (take (Z.to_nat len) c ++ drop (Z.to_nat len) l)))
    else Broken
  | _, _ => Broken
  end.

Definition trace (depth : Z) (from to : nat) (len : Z) : prog unit :=
  if debug then x ← deref from; y ← deref to; emit (Trace depth (n_name x) (n_name y) len) else mret tt.

(** The loop over the arcs of [from]; [rec] is [find_cycle]. *)
Fixpoint arc_loop (rec : nat -> Z -> Z -> prog Z) (from to : nat) (depth : Z) (l : list nat) (longest_len : Z) : prog Z :=
  match l with
  | [] => mret longest_len
  | n :: l =>
    log_node depth n;;
    if (n =? to)%nat then
      longest_len ← (if longest_len <? depth + 1 then save_cycle (depth + 1);; mret (depth + 1) else mret longest_len);
      arc_loop rec from to depth l longest_len
    else
      x ← deref n;
      if tst (n_flags x) (NF_MARK .| NF_ACYCLIC .| NF_NODEST) then arc_loop rec from to depth l longest_len
      else
        len ← rec n longest_len (depth + 1);
        trace depth from to len;;
        (if len =? 0 then flag n NF_NODEST else mret tt);;
        let longest_len := if longest_len <? len then len else longest_len in
        if (0 <? len) && negb longest then mret longest_len
        else arc_loop rec from to depth l longest_len
  end.

Fixpoint find_cycle (fuel : nat) (from to : nat) (longest_len depth : Z) : prog Z :=
  match fuel with
  | O => hang
  | S fuel =>
    x ← deref from;
    if tst (n_flags x) (NF_NODEST .| NF_MARK .| NF_ACYCLIC) then mret 0
    else
      flag from NF_MARK;;
      l ← arcs x;
      longest_len ← arc_loop (fun n longest_len depth => find_cycle fuel n to longest_len depth) from to depth l longest_len;
      unflag from NF_MARK;;
      mret longest_len
  end.

(** ** tsort *)

(** The inner [for] loop. *)
Fixpoint pass (fuel : nat) (n : option nat) (cnt : Z) : prog Z :=
  match n with
  | None => mret cnt
  | Some n =>
    match fuel with
    | O => hang
    | S fuel =>
      x ← deref n;
      if n_refcnt x =? 0 then remove_node n;; pass fuel (n_next x) (cnt + 1) else pass fuel (n_next x) cnt
    end
  end.

(** The [do] loop. *)
Fixpoint sweep (fuel : nat) : prog unit :=
  match fuel with
  | O => hang
  | S fuel =>
    s ← get;
    cnt ← pass (S (length (nodes s))) (graph s) 0;
    s ← get;
    if negb (bool_decide (graph s = None)) && negb (cnt =? 0) then sweep fuel else mret tt
  end.

(** Counting the nodes that are left and allocating the two logs. *)
Fixpoint count_nodes (fuel : nat) (n : option nat) (cnt : Z) : prog Z :=
  match n with
  | None => mret cnt
  | Some n => match fuel with O => hang | S fuel => x ← deref n; count_nodes fuel (n_next x) (cnt + 1) end
  end.
Definition alloc_logs : prog unit :=
  s ← get;
  match cycle_buf s with
  | Some _ => mret tt
  | None =>
    cnt ← count_nodes (S (length (nodes s))) (graph s) 0;
    let logs := Some (replicate (Z.to_nat cnt) None) in update (fun s => with_bufs s logs logs)
  end.

(** The [for] loop over [warnx], from [i]. *)
Definition warn_cell (c : option nat) : prog unit := n ← of_option c; x ← deref n; emit (Warn (n_name x)).
Definition warn_loop (cnt : Z) : prog unit :=
  s ← get;
  l ← of_option (longest_cycle s);
  if cnt <=? Z.of_nat (length l) then each (take (Z.to_nat cnt) l) warn_cell else broken.

(** The search; [None] is [n == NULL] at its end. *)
Fixpoint search (fuel : nat) (n : option nat) : prog (option nat) :=
  match n with
  | None => mret None
  | Some n =>
    match fuel with
    | O => hang
    | S fuel =>
      x ← deref n;
      if tst (n_flags x) NF_ACYCLIC then search fuel (n_next x)
      else
        s ← get;
        let size := S (length (nodes s)) in
        cnt ← find_cycle size n n 0 0;
        if negb (cnt =? 0) then
          (if quiet then mret tt else emit Warn_cycle;; warn_loop cnt);;
          remove_node n;; clear_cycle size;; mret (Some n)
        else
          flag n NF_ACYCLIC;; clear_cycle size;;
          x ← deref n; search fuel (n_next x)
    end
  end.

Fixpoint tsort_loop (fuel : nat) : prog unit :=
  s ← get;
  match graph s with
  | None => mret tt
  | Some _ =>
    match fuel with
    | O => hang
    | S fuel =>
      sweep (S (length (nodes s)));;
      s ← get;
      match graph s with
      | None => mret tt
      | Some _ =>
        alloc_logs;;
        n ← search (S (length (nodes s))) (graph s);
        match n with
        | None => failed "internal error -- could not find cycle"
        | Some _ => tsort_loop fuel
        end
      end
    end
  end.
Definition tsort : prog unit := s ← get; tsort_loop (S (length (nodes s))).

Definition main (input : list Z) : prog unit :=
  n ← input_loop (S (length input)) input false [] 1024 1024;
  if n : bool then failed "odd data count" else tsort.

Definition tsort_main (input : list Z) : outcome (list event) :=
  match main input (State [] None hash_init None None []) with
  | Done (_, s) => Done (out s)
  | Failed e => Failed e
  | Broken => Broken
  | Hang => Hang
  end.
End Options.

Example tsort_runs :
  tsort_main false false false (codes "a b b c a c d c x x") =
    Done (map Print [codes "x"; codes "d"; codes "a"; codes "b"; codes "c"]) /\
  tsort_main false false false (codes "a b b c c a b d") =
    Done [Warn_cycle; Warn (codes "a"); Warn (codes "b"); Warn (codes "c"); Print (codes "c"); Print (codes "a"); Print (codes "b"); Print (codes "d")] /\
  tsort_main false false false (codes "a b c") = Failed "odd data count".
Proof. vm_compute. repeat split. Qed.
