(* ===== verification/TsortGraph.v ===== *)
(** The graph of tsort: what the records stand for, and what building it and
    removing a node mean. *)

From stdpp Require Import list.
From S2P Require Import Prelude Ctype TsortHash Tsort.

(** * Running programs *)

Lemma run_bind {A B} (m : prog A) (f : A -> prog B) s a s1 : m s = Done (a, s1) -> (m ≫= f) s = f a s1.
Proof. intros E. unfold mbind, prog_bind. by rewrite E. Qed.

Lemma run_deref n x s : nodes s !! n = Some x -> deref n s = Done (x, s).
Proof. intros E. unfold deref. by rewrite E. Qed.

Lemma run_modify n x f s : nodes s !! n = Some x -> modify n f s = Done (tt, with_nodes s (<[n := f x]> (nodes s))).
Proof.
  intros E. unfold modify. rewrite (run_bind _ _ _ _ _ (run_deref _ _ _ E)). unfold assign.
  by rewrite awrite_Some by by eapply lookup_lt_Some.
Qed.

(** * The list of nodes *)

Fixpoint linked (ns : list node) (p : link) (o : option nat) (L : list nat) : Prop :=
  match L with
  | [] => o = None
  | n :: L => o = Some n /\ exists x, ns !! n = Some x /\ n_prevp x = p /\ linked ns (next_of n) (n_next x) L
  end.

Definition links_of (x : node) : link * option nat := (n_prevp x, n_next x).

Lemma linked_frame ns ns' L : forall p o, (forall n, n ∈ L -> links_of <$> ns' !! n = links_of <$> ns !! n) -> linked ns p o L -> linked ns' p o L.
Proof.
  induction L as [|n L IH]; intros p o Hf; [done|]. intros (-> & x & Hx & Hp & Hl). split; [done|].
  pose proof (Hf n ltac:(set_solver)) as Hn. rewrite Hx in Hn. destruct (ns' !! n) as [x'|] eqn:Hx'; [|done].
  injection Hn as E1 E2. exists x'. split; [done|]. split; [congruence|]. rewrite E2. apply IH; [set_solver|done].
Qed.

Lemma linked_lookup ns L : forall p o n, linked ns p o L -> n ∈ L -> is_Some (ns !! n).
Proof.
  induction L as [|m L IH]; intros p o n; [set_solver|]. intros (_ & x & Hx & _ & Hl) [->|Hn]%elem_of_cons; [by eexists|by eapply IH].
Qed.

(** Changing what is not a link. *)
Lemma linked_put ns n x y p o L : ns !! n = Some x -> links_of y = links_of x -> linked ns p o L -> linked (<[n := y]> ns) p o L.
Proof.
  intros Hx Hy. apply linked_frame. intros m _. destruct (decide (m = n)) as [->|Hne].
  - rewrite list_lookup_insert_eq by by eapply lookup_lt_Some. rewrite Hx. cbn. by rewrite Hy.
  - by rewrite list_lookup_insert_ne.
Qed.

Lemma insert_links ns m y n : (forall x, ns !! m = Some x -> m = n -> links_of y = links_of x) ->
  links_of <$> (<[m := y]> ns : list node) !! n = links_of <$> ns !! n.
Proof.
  intros H. destruct (decide (m = n)) as [->|Hne]; [|by rewrite list_lookup_insert_ne].
  destruct (ns !! n) as [x|] eqn:E.
  - rewrite list_lookup_insert_eq by by eapply lookup_lt_Some. cbn. by rewrite (H x).
  - rewrite lookup_ge_None_2; [done|]. rewrite length_insert. by apply lookup_ge_None.
Qed.

(** Behind [n], the first node gets another predecessor. *)
Lemma linked_repoint ns p p' o L : NoDup L -> linked ns p o L ->
  linked (match o with Some m => match ns !! m with Some y => <[m := with_prevp y p']> ns | None => ns end | None => ns end) p' o L.
Proof.
  destruct L as [|m L]; [cbn; by intros _ ->|]. intros [Hm _]%NoDup_cons (-> & y & Hy & _ & Hl). rewrite Hy. split; [done|].
  exists (with_prevp y p'). split; [apply list_lookup_insert_eq; by eapply lookup_lt_Some|]. split; [done|]. cbn.
  apply (linked_frame ns); [|done]. intros n Hn. apply insert_links. intros; subst. done.
Qed.

Definition repoint (ns : list node) (o : option nat) (p : link) : list node :=
  match o with Some m => match ns !! m with Some y => <[m := with_prevp y p]> ns | None => ns end | None => ns end.

Lemma repoint_links ns o p n : o <> Some n -> links_of <$> repoint ns o p !! n = links_of <$> ns !! n.
Proof.
  intros Hn. destruct o as [m|]; [|done]. cbn. destruct (ns !! m) as [y|]; [|done].
  rewrite list_lookup_insert_ne; [done|congruence].
Qed.

Lemma linked_prev ns n L2 x : ns !! n = Some x -> forall L1 p o, linked ns p o (L1 ++ n :: L2) ->
  n_prevp x = match last L1 with Some a => next_of a | None => p end.
Proof.
  intros Hx. induction L1 as [|a L1 IH]; intros p o.
  - intros (_ & y & Hy & Hp & _). cbn. congruence.
  - intros (_ & y & _ & _ & Hl). rewrite (IH _ _ Hl). rewrite last_cons. by destruct (last L1).
Qed.

Lemma linked_next ns n L2 x : ns !! n = Some x -> forall L1 p o, linked ns p o (L1 ++ n :: L2) -> n_next x = head L2.
Proof.
  intros Hx. induction L1 as [|a L1 IH]; intros p o.
  - intros (_ & y & Hy & _ & Hl). assert (y = x) as -> by congruence. destruct L2; [done|]. by destruct Hl as [-> _].
  - intros (_ & y & _ & _ & Hl). by eapply IH.
Qed.

(** Removing [n] behind [a]. *)
Lemma unlink_behind ns n x a xa L2 : ns !! n = Some x -> ns !! a = Some xa -> forall L1 p o,
  last L1 = Some a -> NoDup (L1 ++ n :: L2) -> linked ns p o (L1 ++ n :: L2) ->
  linked (repoint (<[a := with_next xa (n_next x)]> ns) (n_next x) (next_of a)) p o (L1 ++ L2).
Proof.
  intros Hx Ha. induction L1 as [|b L1 IH]; [done|]. intros p o Hlast. cbn [app]. intros [Hb Hd]%NoDup_cons (-> & y & Hy & Hp & Hl).
  set (ns1 := <[a := with_next xa (n_next x)]> ns) in *.
  assert (n_next x <> Some b) as Hnb.
  { rewrite (linked_next _ _ _ _ Hx _ _ _ Hl). intros Hh%head_Some_elem_of. set_solver. }
  split; [done|]. destruct L1 as [|c L1].
  - cbn in Hlast. injection Hlast as ->. assert (y = xa) as -> by congruence.
    destruct Hl as (_ & z & Hz & _ & Hl). assert (z = x) as -> by congruence. apply NoDup_cons in Hd as [Hn Hd].
    exists (with_next xa (n_next x)). cbn [app n_prevp n_next with_next].
    assert (linked ns1 (next_of n) (n_next x) L2) as Hl1.
    { apply (linked_frame ns); [|done]. intros m Hm. apply insert_links. intros; subst. set_solver. }
    split; [|split; [done|by apply (linked_repoint _ _ _ _ _ Hd Hl1)]].
    unfold repoint. destruct (n_next x) as [m|] eqn:En; [|apply list_lookup_insert_eq; by eapply lookup_lt_Some].
    destruct (ns1 !! m); [rewrite list_lookup_insert_ne by congruence|]; apply list_lookup_insert_eq; by eapply lookup_lt_Some.
  - assert (b <> a) as Hba.
    { rewrite last_cons_cons in Hlast. apply last_Some in Hlast as [l' E]. intros ->. apply Hb. rewrite E. set_solver. }
    rewrite last_cons_cons in Hlast. specialize (IH _ _ Hlast Hd Hl).
    pose proof (repoint_links ns1 (n_next x) (next_of a) b Hnb) as Hlinks. unfold ns1 in Hlinks at 2.
    rewrite list_lookup_insert_ne, Hy in Hlinks by congruence.
    destruct (repoint ns1 (n_next x) (next_of a) !! b) as [y'|] eqn:Ey; [|done]. injection Hlinks as E1 E2.
    exists y'. split; [done|]. split; [congruence|]. by rewrite E2.
Qed.

Lemma unlink_spec ns g n x L1 L2 : NoDup (L1 ++ n :: L2) -> linked ns graph_link g (L1 ++ n :: L2) -> ns !! n = Some x ->
  exists xa, match n_prevp x with graph_link => True | next_of a => ns !! a = Some xa /\ a ∈ L1 end /\
  let '(ns1, g1) := match n_prevp x with graph_link => (ns, n_next x) | next_of a => (<[a := with_next xa (n_next x)]> ns, g) end in
  linked (repoint ns1 (n_next x) (n_prevp x)) graph_link g1 (L1 ++ L2).
Proof.
  intros Hd Hl Hx. rewrite (linked_prev _ _ _ _ Hx _ _ _ Hl). destruct (last L1) as [a|] eqn:Ea.
  - assert (a ∈ L1) as Hin by (apply last_Some in Ea as [l' ->]; set_solver).
    destruct (linked_lookup _ _ _ _ a Hl ltac:(set_solver)) as [xa Hxa]. exists xa. split; [done|].
    by apply (unlink_behind ns n x a xa L2 Hx Hxa).
  - apply last_None in Ea as ->. exists x. split; [done|]. destruct Hl as (_ & y & Hy & _ & Hl). assert (y = x) as -> by congruence.
    apply NoDup_cons in Hd as [_ Hd]. exact (linked_repoint _ _ graph_link _ _ Hd Hl).
Qed.

(** * What a record stands for *)

Definition view (x : node) (l : list nat) : Prop := n_narcs x = Z.of_nat (length l) /\ take (length l) (n_arcs x) = l.

Lemma run_arcs x l s : view x l -> arcs x s = Done (l, s).
Proof.
  intros [Hn Hl]. unfold arcs. rewrite Hn. assert (length l <= length (n_arcs x))%nat as Hlen
    by (rewrite <- Hl at 1; rewrite length_take; lia).
  rewrite (proj2 (Z.leb_le _ _)) by lia. by rewrite Nat2Z.id, Hl.
Qed.

(** The arcs of the nodes that are left, and the number of those that lead to [n]. *)
Definition adj (succ : nat -> list nat) (L : list nat) (n : nat) : list nat := if decide (n ∈ L) then succ n else [].
Definition indeg (succ : nat -> list nat) (L : list nat) (n : nat) : Z := Z.of_nat (length (filter (fun m => n ∈ succ m) L)).

Lemma indeg_split succ L1 L2 a n : indeg succ (L1 ++ a :: L2) n = indeg succ (L1 ++ L2) n + (if decide (n ∈ succ a) then 1 else 0).
Proof. unfold indeg. rewrite !filter_app, filter_cons, !length_app. case_decide; cbn [length]; lia. Qed.

Lemma indeg_0 succ L n : indeg succ L n = 0 -> forall m, m ∈ L -> n ∉ succ m.
Proof.
  intros E m Hm Hn. assert (m ∈ filter (fun m => n ∈ succ m) L) as Hin by by apply list_elem_of_filter.
  unfold indeg in E. destruct (filter _ L); [by apply elem_of_nil in Hin|cbn in E; lia].
Qed.
Lemma indeg_pos succ L n : indeg succ L n <> 0 -> exists m, m ∈ L /\ n ∈ succ m.
Proof.
  unfold indeg. destruct (filter _ L) as [|m l] eqn:E; [done|]. intros _. exists m.
  assert (m ∈ filter (fun m => n ∈ succ m) L) as [? ?]%list_elem_of_filter by (rewrite E; set_solver). done.
Qed.

Record node_ok (names : list (list Z)) (succ : nat -> list nat) (L : list nat) (n : nat) (x : node) : Prop := {
  o_name : names !! n = Some (n_name x);
  o_view : view x (adj succ L n);
  o_refcnt : n_refcnt x = indeg succ L n
}.

(** The nodes of [L] are left of a graph with arcs [succ]. *)
Record graph_ok (names : list (list Z)) (succ : nat -> list nat) (L : list nat) (s : state) : Prop := {
  g_len : length (nodes s) = length names;
  g_nodup : NoDup L;
  g_linked : linked (nodes s) graph_link (graph s) L;
  g_node n x : nodes s !! n = Some x -> node_ok names succ L n x;
  g_left n : n ∈ L -> (n < length names)%nat;
  g_valid n m : m ∈ succ n -> (m < length names)%nat;
  g_simple n : NoDup (succ n) /\ n ∉ succ n
}.

Lemma graph_lookup names succ L s n : graph_ok names succ L s -> (n < length names)%nat ->
  exists x, nodes s !! n = Some x /\ node_ok names succ L n x.
Proof.
  intros Hg Hn. destruct (lookup_lt_is_Some_2 (nodes s) n) as [x Hx]; [by rewrite (g_len _ _ _ _ Hg)|].
  exists x. split; [done|]. by apply (g_node _ _ _ _ Hg).
Qed.

(** * Removing a node *)

Definition core (x : node) := (n_arcs x, n_narcs x, n_arcsize x, n_refcnt x, n_flags x, n_name x).

Lemma fmap_insert_same {A B} (f : A -> B) (l : list A) m x y : l !! m = Some x -> f y = f x ->
  forall k, f <$> (<[m := y]> l) !! k = f <$> l !! k.
Proof.
  intros Hx E k. destruct (decide (m = k)) as [->|Hne]; [|by rewrite list_lookup_insert_ne].
  rewrite list_lookup_insert_eq by by eapply lookup_lt_Some. rewrite Hx. cbn. by rewrite E.
Qed.

Lemma each_dec l : forall s, NoDup l -> (forall m, m ∈ l -> (m < length (nodes s))%nat) ->
  exists ns, each l (fun m => modify m (fun y => with_refcnt y (n_refcnt y - 1))) s = Done (tt, with_nodes s ns) /\
    length ns = length (nodes s) /\
    forall k, ns !! k = (fun x => if decide (k ∈ l) then with_refcnt x (n_refcnt x - 1) else x) <$> nodes s !! k.
Proof.
  induction l as [|m l IH]; intros s Hd Hv.
  - exists (nodes s). split; [by destruct s|]. split; [done|]. intros k. destruct (nodes s !! k); [|done]. cbn.
    by rewrite decide_False by set_solver.
  - apply NoDup_cons in Hd as [Hm Hd]. destruct (lookup_lt_is_Some_2 (nodes s) m) as [y Hy]; [apply Hv; set_solver|].
    pose proof (run_modify m y (fun y => with_refcnt y (n_refcnt y - 1)) s Hy) as E1.
    destruct (IH (with_nodes s (<[m := with_refcnt y (n_refcnt y - 1)]> (nodes s))) Hd) as (ns & E2 & Hlen & Hns).
    { intros k Hk. cbn. rewrite length_insert. apply Hv. set_solver. }
    exists ns. split; [cbn [each]; by rewrite (run_bind _ _ _ _ _ E1), E2|]. cbn in Hlen. rewrite length_insert in Hlen. split; [done|].
    intros k. rewrite Hns. cbn. destruct (decide (m = k)) as [->|Hne].
    + rewrite list_lookup_insert_eq, Hy by by eapply lookup_lt_Some. cbn. rewrite decide_False by done. by rewrite decide_True by set_solver.
    + rewrite list_lookup_insert_ne by done. destruct (nodes s !! k); [|done]. cbn. f_equal.
      destruct (decide (k ∈ l)); [by rewrite decide_True by set_solver|by rewrite decide_False by set_solver].
Qed.

(** The last steps of [remove_node] take the node out of the list. *)
Lemma run_unlink s n x L1 L2 : NoDup (L1 ++ n :: L2) -> linked (nodes s) graph_link (graph s) (L1 ++ n :: L2) -> nodes s !! n = Some x ->
  exists s', (x ← deref n; set_link (n_prevp x) (n_next x);; x ← deref n;
              match n_next x with Some m => modify m (fun y => with_prevp y (n_prevp x)) | None => mret tt end) s = Done (tt, s') /\
    s' = with_graph (with_nodes s (nodes s')) (graph s') /\
    linked (nodes s') graph_link (graph s') (L1 ++ L2) /\ length (nodes s') = length (nodes s) /\
    forall k, core <$> nodes s' !! k = core <$> nodes s !! k.
Proof.
  intros Hd Hl Hx. destruct (unlink_spec _ _ _ _ _ _ Hd Hl Hx) as (xa & Ha & Hl').
  rewrite (run_bind _ _ _ _ _ (run_deref _ _ _ Hx)).
  lazy beta. assert (exists s1, set_link (n_prevp x) (n_next x) s = Done (tt, s1) /\ s1 = with_graph (with_nodes s (nodes s1)) (graph s1) /\
    linked (repoint (nodes s1) (n_next x) (n_prevp x)) graph_link (graph s1) (L1 ++ L2) /\
    nodes s1 !! n = Some x /\ length (nodes s1) = length (nodes s) /\ forall k, core <$> nodes s1 !! k = core <$> nodes s !! k)
    as (s1 & E1 & Es1 & Hl1 & Hx1 & Hlen1 & Hc1).
  { destruct (n_prevp x) as [|a] eqn:Ep; cbn [set_link].
    - eexists. split; [done|]. by destruct s.
    - destruct Ha as [Ha Hin]. rewrite (run_modify _ _ _ _ Ha). eexists. split; [done|]. cbn. split; [by destruct s|].
      split; [done|]. split; [rewrite list_lookup_insert_ne; [done|]|split; [by rewrite length_insert|by apply (fmap_insert_same core _ _ _ _ Ha)]].
      intros ->. apply NoDup_app in Hd as (_ & Hd & _). by apply (Hd _ Hin); left. }
  rewrite (run_bind _ _ _ _ _ E1). lazy beta. rewrite (run_bind _ _ _ _ _ (run_deref _ _ _ Hx1)). lazy beta.
  destruct (n_next x) as [m|] eqn:En; cbn [repoint] in Hl1; [|exists s1; by repeat split].
  assert (is_Some (nodes s1 !! m)) as [y Hy].
  { apply lookup_lt_is_Some. rewrite Hlen1. apply lookup_lt_is_Some. rewrite (linked_next _ _ _ _ Hx _ _ _ Hl) in En.
    apply head_Some_elem_of in En. apply (linked_lookup _ _ _ _ m Hl). set_solver. }
  rewrite Hy in Hl1. rewrite (run_modify _ _ _ _ Hy). eexists. split; [done|]. cbn. split; [rewrite Es1; by destruct s|].
  split; [done|]. rewrite length_insert. split; [done|]. intros k. rewrite <- Hc1. by apply (fmap_insert_same core _ _ _ _ Hy).
Qed.

Definition keeps_flags (s s' : state) : Prop := forall k, n_flags <$> nodes s' !! k = n_flags <$> nodes s !! k.

Lemma remove_node_spec names succ L1 n L2 s : graph_ok names succ (L1 ++ n :: L2) s ->
  exists s' name, remove_node n s = Done (tt, s') /\ graph_ok names succ (L1 ++ L2) s' /\ names !! n = Some name /\
    s' = State (nodes s') (graph s') (db s) (cycle_buf s) (longest_cycle s) (out s ++ [Print name]) /\ keeps_flags s s'.
Proof.
  intros Hg. pose proof Hg as [Hlen Hd Hl Hnode Hleft Hvalid Hsimple].
  destruct (graph_lookup _ _ _ _ n Hg) as (x & Hx & [Hname Hview Href]); [apply Hleft; set_solver|].
  unfold adj in Hview. rewrite decide_True in Hview by set_solver.
  unfold remove_node. rewrite (run_bind _ _ _ _ _ (run_deref _ _ _ Hx)). lazy beta.
  rewrite (run_bind (emit _) _ s tt (State (nodes s) (graph s) (db s) (cycle_buf s) (longest_cycle s) (out s ++ [Print (n_name x)]))) by done.
  lazy beta. rewrite (run_bind _ _ _ _ _ (run_arcs _ _ _ Hview)). lazy beta.
  set (s0 := State _ _ _ _ _ _).
  destruct (each_dec (succ n) s0 (proj1 (Hsimple n))) as (ns & E & Hlns & Hns); [intros m Hm; cbn; rewrite Hlen; by eapply Hvalid|].
  rewrite (run_bind _ _ _ _ _ E). lazy beta. cbn in Hlns.
  assert (ns !! n = Some x) as Hx1 by (rewrite Hns; cbn; rewrite Hx; cbn; by rewrite decide_False by apply Hsimple).
  set (y := with_arcs x (n_arcs x) 0 (n_arcsize x)).
  rewrite (run_bind _ _ _ _ _ (run_modify n x (fun x => with_arcs x (n_arcs x) 0 (n_arcsize x)) (with_nodes s0 ns) Hx1)). lazy beta.
  set (s1 := with_nodes _ _).
  assert (linked (nodes s1) graph_link (graph s1) (L1 ++ n :: L2)) as Hl1.
  { cbn. apply (linked_put _ _ x); [done..|]. apply (linked_frame (nodes s)); [|done]. intros k _. rewrite Hns. cbn.
    destruct (nodes s !! k); [|done]. cbn. by case_decide. }
  assert (nodes s1 !! n = Some y) as Hy by (apply list_lookup_insert_eq; by eapply lookup_lt_Some).
  destruct (run_unlink s1 n y L1 L2 Hd Hl1 Hy) as (s' & -> & Es' & Hl' & Hlen' & Hcore).
  cbn in Hlen'. rewrite length_insert, Hlns in Hlen'.
  set (upd := fun k w => if decide (k = n) then with_arcs w (n_arcs w) 0 (n_arcsize w)
                         else if decide (k ∈ succ n) then with_refcnt w (n_refcnt w - 1) else w).
  assert (forall k, core <$> nodes s' !! k = core ∘ upd k <$> nodes s !! k) as Hupd.
  { intros k. rewrite Hcore. subst upd. cbn. destruct (decide (k = n)) as [->|Hne].
    - rewrite list_lookup_insert_eq, Hx by by eapply lookup_lt_Some. cbn -[decide]. done.
    - rewrite list_lookup_insert_ne, Hns by done. cbn -[decide]. rewrite <- option_fmap_compose.
      destruct (nodes s !! k); [|done]. cbn -[decide]. done. }
  assert (NoDup (L1 ++ L2) /\ n ∉ L1 ++ L2) as [Hd' Hn'].
  { rewrite <- Permutation_middle in Hd. by apply NoDup_cons in Hd as [? ?]. }
  exists s', (n_name x). split; [done|]. split; [|split; [done|split]].
  - split; try done; try lia.
    + intros k z Hk. specialize (Hupd k). rewrite Hk in Hupd. destruct (nodes s !! k) as [w|] eqn:Hw; [|done].
      destruct (Hnode k w Hw) as [Hnm Hv Hr]. injection Hupd as Ea Eb _ Er _ En. subst upd. cbn beta in *.
      pose proof (indeg_split succ L1 L2 n k) as Hi. destruct (decide (k = n)) as [->|Hne].
      * split; [by rewrite En|unfold view, adj; by rewrite Ea, Eb, decide_False|].
        rewrite decide_False in Hi by apply Hsimple. rewrite Er. cbn. lia.
      * assert (k ∈ L1 ++ L2 <-> k ∈ L1 ++ n :: L2) as Eq by set_solver. unfold adj in Hv.
        rewrite <- (decide_ext _ _ _ _ Eq) in Hv.
        split; [rewrite En; by case_decide|unfold view, adj; rewrite Ea, Eb; by destruct (decide (k ∈ succ n))|].
        rewrite Er. destruct (decide (k ∈ succ n)); cbn; lia.
    + intros k Hk. apply Hleft. set_solver.
  - rewrite Es'. done.
  - intros k. specialize (Hupd k). apply (f_equal (fmap (fun c => c.1.2))) in Hupd. rewrite <- !option_fmap_compose in Hupd.
    etrans; [exact Hupd|]. destruct (nodes s !! k); [|done]. cbn. subst upd. cbn. by repeat case_decide.
Qed.

(** * Building the graph *)

(** The nodes of [names] with the arcs of [pairs], none of them removed. *)
Record built (names : list (list Z)) (pairs : list (list Z * list Z)) (succ : nat -> list nat) (s : state) : Prop := {
  b_graph : graph_ok names succ (rev (seq 0 (length names))) s;
  b_hash : hash_ok (db s) names;
  b_distinct : NoDup names;
  b_arcs i j a b : names !! i = Some a -> names !! j = Some b -> j ∈ succ i <-> (a, b) ∈ pairs /\ a <> b;
  b_pairs a b : (a, b) ∈ pairs -> a ∈ names /\ b ∈ names;
  b_none n : (length names <= n)%nat -> succ n = [];
  b_size n x : nodes s !! n = Some x -> n_flags x = 0 /\ n_narcs x <= n_arcsize x <= 20 + 2 * n_narcs x;
  b_fresh : cycle_buf s = None /\ longest_cycle s = None /\ out s = []
}.

Definition add_name (names : list (list Z)) (w : list Z) : list (list Z) := if decide (w ∈ names) then names else names ++ [w].

Lemma rev_seq_S n : rev (seq 0 (S n)) = n :: rev (seq 0 n).
Proof. rewrite seq_S, rev_app_distr. done. Qed.
Lemma elem_of_rev_seq n k : k ∈ rev (seq 0 n) <-> (k < n)%nat.
Proof. rewrite list_elem_of_In, <- in_rev, in_seq. lia. Qed.

Lemma adj_here succ n k : (forall m, (n <= m)%nat -> succ m = []) -> adj succ (rev (seq 0 n)) k = succ k.
Proof.
  intros H. unfold adj. case_decide as Hk; [done|]. rewrite elem_of_rev_seq in Hk. rewrite H; [done|lia].
Qed.

(** A new node at the head of the list. *)
Definition new_node (g : option nat) (name : list Z) : node := Node graph_link g [] 0 0 0 0 name.
Definition push (ns : list node) (g : option nat) (name : list Z) : list node :=
  repoint (ns ++ [new_node g name]) g (next_of (length ns)).

Lemma push_linked ns g name L : NoDup L -> (forall n, n ∈ L -> (n < length ns)%nat) -> linked ns graph_link g L ->
  linked (push ns g name) graph_link (Some (length ns)) (length ns :: L) /\ length (push ns g name) = S (length ns) /\
  forall k, core <$> push ns g name !! k = core <$> (ns ++ [new_node g name]) !! k.
Proof.
  intros Hd Hv Hl. assert (linked (ns ++ [new_node g name]) graph_link g L) as Hl1.
  { apply (linked_frame ns); [|done]. intros n Hn. by rewrite lookup_app_l by by apply Hv. }
  assert ((ns ++ [new_node g name]) !! length ns = Some (new_node g name)) as Hnew by (by rewrite lookup_app_r, Nat.sub_diag).
  assert (g <> Some (length ns)) as Hg.
  { destruct L as [|m L]; [by rewrite Hl|]. destruct Hl as (-> & _). intros [= ->]. specialize (Hv (length ns)). 
    assert (length ns < length ns)%nat by (apply Hv; set_solver). lia. }
  split; [|split].
  - split; [done|]. exists (new_node g name). split; [|split; [done|by apply (linked_repoint _ _ _ _ _ Hd Hl1)]].
    unfold push, repoint. destruct g as [m|]; [|done]. destruct ((ns ++ _) !! m); [|done]. rewrite list_lookup_insert_ne; [done|congruence].
  - unfold push, repoint. destruct g as [m|]; [|rewrite length_app; cbn; lia].
    destruct ((ns ++ _) !! m); rewrite ?length_insert, length_app; cbn; lia.
  - intros k. unfold push, repoint. destruct g as [m|]; [|done]. destruct ((ns ++ _) !! m) eqn:E; [|done].
    by apply (fmap_insert_same core _ _ _ _ E).
Qed.

Lemma core_eq x y : core x = core y ->
  n_arcs x = n_arcs y /\ n_narcs x = n_narcs y /\ n_arcsize x = n_arcsize y /\ n_refcnt x = n_refcnt y /\ n_flags x = n_flags y /\ n_name x = n_name y.
Proof. unfold core. intros [= ? ? ? ? ? ?]. done. Qed.

Lemma push_built names pairs succ s w h : built names pairs succ s -> w ∉ names -> hash_ok h (names ++ [w]) ->
  built (names ++ [w]) pairs succ (State (push (nodes s) (graph s) w) (Some (length names)) h (cycle_buf s) (longest_cycle s) (out s)).
Proof.
  intros [[Hlen Hd Hl Hnode Hleft Hvalid Hsimple] Hh Hdn Harcs Hpairs Hnone Hsize Hfresh] Hw Hh'.
  destruct (push_linked (nodes s) (graph s) w _ Hd) as (Hl' & Hlen' & Hcore); [|done|].
  { intros n. rewrite elem_of_rev_seq. lia. }
  rewrite Hlen in Hl', Hlen'.
  assert (forall k x, push (nodes s) (graph s) w !! k = Some x ->
    exists y, core x = core y /\ (nodes s !! k = Some y \/ (k = length names /\ y = new_node (graph s) w))) as Hk.
  { intros k x Hx. specialize (Hcore k). rewrite Hx in Hcore. destruct ((nodes s ++ _) !! k) as [y|] eqn:E; [|done].
    exists y. apply (inj Some) in Hcore. split; [done|]. apply lookup_app_Some in E as [E|[Hle E]]; [by left|right].
    rewrite Hlen in Hle, E. destruct (k - length names)%nat eqn:Ek; [|done]. cbn in E. split; [lia|congruence]. }
  assert (length (names ++ [w]) = S (length names)) as Elen by (rewrite length_app; cbn; lia).
  assert (forall k, indeg succ (rev (seq 0 (S (length names)))) k = indeg succ (rev (seq 0 (length names))) k) as Hindeg.
  { intros k. rewrite rev_seq_S. pose proof (indeg_split succ [] (rev (seq 0 (length names))) (length names) k) as Hi. cbn [app] in Hi.
    rewrite Hi, Hnone by lia. rewrite decide_False by set_solver. lia. }
  split; cbn; try done.
  - rewrite Elen. split; cbn [nodes graph db cycle_buf longest_cycle out]; rewrite ?Elen; try done.
    + rewrite rev_seq_S. apply NoDup_cons. split; [|done]. rewrite elem_of_rev_seq. lia.
    + by rewrite rev_seq_S.
    + intros k x Hx. destruct (Hk k x Hx) as (y & (Ea & Eb & _ & Er & _ & En)%core_eq & Hy).
      assert (node_ok (names ++ [w]) succ (rev (seq 0 (S (length names)))) k y) as [? [? ?] ?];
        [|split; [by rewrite En|unfold view; by rewrite Ea, Eb|by rewrite Er]].
      assert (forall l, view y l -> l = succ k -> view y (adj succ (rev (seq 0 (S (length names)))) k)) as Hview
        by (intros l Hl0 ->; by rewrite adj_here by (intros; apply Hnone; lia)). destruct Hy as [Hy|[-> ->]].
      * destruct (Hnode k y Hy) as [Hnm Hv Hr]. rewrite adj_here in Hv by done. split; [by apply lookup_app_l_Some|by eapply Hview|by rewrite Hindeg].
      * split; [by rewrite lookup_app_r, Nat.sub_diag by lia|by apply (Hview []); [|rewrite Hnone]|]. rewrite Hindeg. cbn [n_refcnt new_node]. unfold indeg.
        destruct (filter _ _) as [|m l] eqn:E; [done|exfalso].
        assert (m ∈ filter (fun m => length names ∈ succ m) (rev (seq 0 (length names)))) as [Hin _]%list_elem_of_filter by (rewrite E; set_solver).
        apply Hvalid in Hin. lia.
    + intros n. rewrite elem_of_rev_seq. lia.
    + intros n m Hm. apply Hvalid in Hm. lia.
  - apply NoDup_app. split; [done|]. split; [set_solver|apply NoDup_singleton].
  - intros i j a b Hi Hj. assert (forall k c, (names ++ [w]) !! k = Some c -> names !! k = Some c \/ (k = length names /\ c = w)) as Hsplit.
    { intros k c [?|[Hle E]]%lookup_app_Some; [by left|right]. destruct (k - length names)%nat eqn:Ek; [|done]. cbn in E. split; [lia|congruence]. }
    destruct (Hsplit i a Hi) as [Hi'|[-> ->]].
    + destruct (Hsplit j b Hj) as [Hj'|[-> ->]]; [by apply Harcs|]. split; [intros Hin%Hvalid; lia|]. intros [Hin _]. by apply Hpairs in Hin as [_ ?].
    + rewrite Hnone by done. split; [set_solver|]. intros [Hin _]. by apply Hpairs in Hin as [? _].
  - intros a b Hin%Hpairs. set_solver.
  - intros n Hn. apply Hnone. lia.
  - intros n x Hx. destruct (Hk n x Hx) as (y & (_ & Eb & Ec & _ & Ef & _)%core_eq & Hy). rewrite Eb, Ec, Ef.
    destruct Hy as [Hy|[_ ->]]; [by eapply Hsize|cbn; lia].
Qed.

Lemma add_name_spec names w a : a ∈ add_name names w <-> a ∈ names \/ a = w.
Proof. unfold add_name. case_decide; set_solver. Qed.

Lemma get_node_spec names pairs succ s w : built names pairs succ s ->
  exists n s', get_node w s = Done (n, s') /\ built (add_name names w) pairs succ s' /\ add_name names w !! n = Some w.
Proof.
  intros Hb. pose proof Hb as [[Hlen Hd Hl Hnode Hleft Hvalid Hsimple] Hh Hdn _ _ _ _ _]. unfold get_node.
  rewrite (run_bind get _ s s s) by done. lazy beta.
  assert (hash_find (db s) (fun n => n_name <$> nodes s !! n) w = hash_find (db s) (fun n => names !! n) w) as ->.
  { assert (forall n, n_name <$> nodes s !! n = names !! n) as E.
    { intros n. destruct (nodes s !! n) as [x|] eqn:Hx; [by rewrite (o_name _ _ _ _ _ (Hnode n x Hx))|].
      symmetry. apply lookup_ge_None. rewrite <- Hlen. by apply lookup_ge_None. }
    unfold hash_find. destruct (elems (db s) !! bucket w) as [c|]; [|done]. cbn. generalize (length (pool (db s))). intros fuel.
    revert c. induction fuel as [|fuel IH]; intros [c|]; [done..| |done]. cbn [find_loop]. destruct (pool (db s) !! c) as [e|]; [|done]. cbn.
    destruct (elem e) as [n|]; [|done]. cbn. rewrite E. destruct (names !! n); [|done]. cbn. case_bool_decide; [done|]. apply IH. }
  destruct (hash_find_spec _ _ w Hh Hdn) as (r & -> & Hr). rewrite (run_bind (of_option (Some r)) _ s r s) by done. lazy beta.
  destruct r as [n|].
  - exists n, s. split; [done|]. unfold add_name. rewrite decide_True by by eapply list_elem_of_lookup_2. done.
  - destruct (hash_insert_spec _ _ w Hh) as (hc & h1 & h2 & E1 & E2 & Hh2).
    pose proof (push_built _ _ _ _ w h2 Hb Hr Hh2) as Hb'. unfold add_name. rewrite decide_False by done.
    exists (length names), (State (push (nodes s) (graph s) w) (Some (length names)) h2 (cycle_buf s) (longest_cycle s) (out s)).
    split; [|split; [done|by rewrite lookup_app_r, Nat.sub_diag]].
    unfold update. rewrite (run_bind _ _ s tt (with_nodes s (nodes s ++ [new_node (graph s) w]))) by done. lazy beta.
    rewrite (run_bind _ _ _ tt (with_nodes s (push (nodes s) (graph s) w))).
    2:{ unfold push, repoint. destruct (graph s) as [g|] eqn:Eg; [|done].
        destruct ((nodes s ++ [new_node (Some g) w]) !! g) as [x|] eqn:Ex; [by rewrite (run_modify _ x)|exfalso].
        destruct (rev (seq 0 (length names))) as [|m L] eqn:EL; [done|]. destruct Hl as ([= ->] & x & Hx & _).
        rewrite lookup_app_l in Ex by by eapply lookup_lt_Some. congruence. }
    lazy beta. rewrite (run_bind _ _ _ tt (with_graph (with_nodes s (push (nodes s) (graph s) w)) (Some (length (nodes s))))) by done.
    lazy beta. cbn [db with_graph with_nodes]. rewrite E1. cbn [of_option]. unfold mbind, prog_bind, mret, prog_ret. rewrite Hlen, E2. done.
Qed.

Lemma indeg_ext succ succ' L n : (forall m, m ∈ L -> n ∈ succ m <-> n ∈ succ' m) -> indeg succ L n = indeg succ' L n.
Proof.
  intros H. unfold indeg. induction L as [|m L IH]; [done|]. pose proof (H m ltac:(set_solver)) as Hm.
  rewrite !filter_cons, (decide_ext _ _ _ _ Hm). specialize (IH ltac:(set_solver)). case_decide; cbn [length]; lia.
Qed.

Definition add_succ (succ : nat -> list nat) (n1 n2 : nat) : nat -> list nat := fun i => if decide (i = n1) then succ i ++ [n2] else succ i.

Lemma indeg_add succ L n1 n2 n : NoDup L -> n1 ∈ L -> n2 ∉ succ n1 ->
  indeg (add_succ succ n1 n2) L n = indeg succ L n + (if decide (n = n2) then 1 else 0).
Proof.
  intros Hd (L1 & L2 & ->)%list_elem_of_split Hn. rewrite !indeg_split.
  assert (indeg (add_succ succ n1 n2) (L1 ++ L2) n = indeg succ (L1 ++ L2) n) as ->.
  { apply indeg_ext. intros m Hm. unfold add_succ. rewrite decide_False; [done|]. intros ->.
    rewrite <- Permutation_middle in Hd. by apply NoDup_cons in Hd as [? _]. }
  assert (add_succ succ n1 n2 n1 = succ n1 ++ [n2]) as -> by (unfold add_succ; by rewrite decide_True).
  destruct (decide (n = n2)) as [->|Hne].
  - rewrite decide_True, decide_False by set_solver. lia.
  - destruct (decide (n ∈ succ n1)); [rewrite decide_True by set_solver|rewrite decide_False by set_solver]; lia.
Qed.

(** ** add_arc *)

Lemma grow_arcs a s : 0 < a < 2 ^ 27 ->
  let bsize := s32 (u64 (u64 (a * 8) * 2)) in grow_buf (u64 bsize) s = Done (tt, s) /\ s32 (u64 bsize / 8) = 2 * a.
Proof.
  intros Ha. assert (s32 (u64 (u64 (a * 8) * 2)) = 16 * a) as ->.
  { unfold u64. rewrite (Z.mod_small (a * 8)), Z.mod_small by lia. rewrite s32_small by lia. lia. }
  cbn zeta. unfold u64, grow_buf. rewrite Z.mod_small by lia. rewrite (proj2 (Z.ltb_lt _ _)) by lia. split; [done|].
  replace (16 * a) with (2 * a * 8) by lia. rewrite Z.div_mul by lia. by rewrite s32_small by lia.
Qed.

(** The array with room for one more. *)
Definition grown (x y : node) : Prop :=
  core x = (n_arcs y, n_narcs y, n_arcsize x, n_refcnt y, n_flags y, n_name y) /\ links_of x = links_of y /\
  n_narcs x < n_arcsize x <= 20 + 2 * n_narcs x.

Lemma run_grow x s : 0 <= n_narcs x < 2 ^ 26 -> n_narcs x <= n_arcsize x <= 20 + 2 * n_narcs x ->
  exists y, (if n_narcs x =? n_arcsize x then
       let arcsize := if n_arcsize x =? 0 then 10 else n_arcsize x in
       let bsize := s32 (u64 (u64 (arcsize * 8) * 2)) in
       grow_buf (u64 bsize);;
       mret (with_arcs x (n_arcs x) (n_narcs x) (s32 (u64 bsize / 8)))
     else mret x : prog node) s = Done (y, s) /\ grown y x.
Proof.
  intros Hn Hs. destruct (Z.eqb_spec (n_narcs x) (n_arcsize x)) as [E|E]; [|exists x; by repeat split; try lia].
  cbn zeta. set (a := if n_arcsize x =? 0 then 10 else n_arcsize x).
  assert (0 < a < 2 ^ 27 /\ n_narcs x < 2 * a <= 20 + 2 * n_narcs x) as [Ha Hb] by (subst a; destruct (Z.eqb_spec (n_arcsize x) 0); lia).
  destruct (grow_arcs a s Ha) as [E1 E2]. rewrite (run_bind _ _ _ _ _ E1). lazy beta. rewrite E2.
  eexists. split; [done|]. by repeat split; cbn; try lia.
Qed.

Lemma view_add x l m : view x l -> take (S (length l)) (take (length l) (n_arcs x) ++ [m] ++ drop (S (length l)) (n_arcs x)) = l ++ [m].
Proof.
  intros [_ Hl]. rewrite Hl. rewrite take_app_ge by lia. replace (S (length l) - length l)%nat with 1%nat by lia. done.
Qed.

Lemma built_pairs names pairs pairs' succ s : built names pairs succ s ->
  (forall a b, a <> b -> (a, b) ∈ pairs' <-> (a, b) ∈ pairs) -> (forall a b, (a, b) ∈ pairs' -> a ∈ names /\ b ∈ names) ->
  built names pairs' succ s.
Proof.
  intros [] H1 H2. split; try done. intros i j a b Hi Hj. rewrite b_arcs0 by done.
  split; intros [? ?]; (split; [by apply H1|done]).
Qed.

Lemma add_name_lookup names w n a : names !! n = Some a -> add_name names w !! n = Some a.
Proof. intros E. unfold add_name. case_decide; [done|by apply lookup_app_l_Some]. Qed.

Lemma add_arc_built names pairs succ s n1 n2 a b x y : built names pairs succ s -> Z.of_nat (length names) < 2 ^ 26 ->
  names !! n1 = Some a -> names !! n2 = Some b -> a <> b -> n2 ∉ succ n1 -> nodes s !! n1 = Some x -> grown y x ->
  let k := Z.to_nat (n_narcs y) in
  let z := with_arcs y (take k (n_arcs y) ++ [n2] ++ drop (S k) (n_arcs y)) (n_narcs y + 1) (n_arcsize y) in
  exists u s', (assign n1 z;; modify n2 (fun y => with_refcnt y (n_refcnt y + 1))) s = Done (u, s') /\
    built names (pairs ++ [(a, b)]) (add_succ succ n1 n2) s'.
Proof.
  intros [[Hlen Hd Hl Hnode Hleft Hvalid Hsimple] Hh Hdn Harcs Hpairs Hnone Hsize Hfresh] Hmax Ha Hb Hab Hnew Hx (Ec & El & Hy) k z.
  assert (n1 <> n2) as H12 by (intros ->; congruence).
  destruct (lookup_lt_is_Some_2 (nodes s) n2) as [w Hw]; [rewrite Hlen; by eapply lookup_lt_Some|].
  unfold assign. unfold mbind, prog_bind. rewrite awrite_Some by by eapply lookup_lt_Some.
  rewrite (run_modify n2 w) by (cbn; by rewrite list_lookup_insert_ne). eexists tt, _. split; [done|]. cbn [nodes with_nodes].
  set (w' := with_refcnt w (n_refcnt w + 1)). set (ns := <[n2 := w']> (<[n1 := z]> (nodes s))).
  unfold core in Ec. injection Ec as Ea En Er Ef Enm.
  assert (forall m v, ns !! m = Some v -> exists v0, nodes s !! m = Some v0 /\ n_name v = n_name v0 /\ n_flags v = n_flags v0 /\
    links_of v = links_of v0 /\ n_refcnt v = n_refcnt v0 + (if decide (m = n2) then 1 else 0) /\
    if decide (m = n1) then v = z else n_arcs v = n_arcs v0 /\ n_narcs v = n_narcs v0 /\ n_arcsize v = n_arcsize v0) as Hns.
  { intros m v. subst ns. destruct (decide (m = n2)) as [->|H2].
    - rewrite list_lookup_insert_eq by (rewrite length_insert; by eapply lookup_lt_Some). intros [= <-]. exists w.
      rewrite (decide_False _ _ (not_eq_sym H12)). by repeat split.
    - rewrite list_lookup_insert_ne by done. destruct (decide (m = n1)) as [->|H1].
      + rewrite list_lookup_insert_eq by by eapply lookup_lt_Some. intros [= <-]. exists x. repeat split; try done. cbn. lia.
      + rewrite list_lookup_insert_ne by done. intros Hv. exists v. repeat split; try done. lia. }
  assert (n_narcs x = Z.of_nat (length (succ n1)) /\ view x (succ n1)) as [Hnx Hvx].
  { destruct (Hnode n1 x Hx) as [_ Hv _]. rewrite adj_here in Hv by done. by split; [destruct Hv|]. }
  split.
  - split; cbn [nodes graph with_nodes]; try done.
    + subst ns. by rewrite !length_insert.
    + apply (linked_frame (nodes s)); [|done]. intros m _. destruct (ns !! m) as [v|] eqn:Ev.
      * destruct (Hns m v Ev) as (v0 & -> & _ & _ & E & _). cbn. by rewrite E.
      * apply lookup_ge_None in Ev. subst ns. rewrite !length_insert in Ev. by rewrite lookup_ge_None_2.
    + intros m v Hv. destruct (Hns m v Hv) as (v0 & Hv0 & Env & _ & _ & Erv & Harr). destruct (Hnode m v0 Hv0) as [Hnm Hview Href].
      split; [by rewrite Env| |].
      * rewrite adj_here by (intros i Hi; unfold add_succ; rewrite decide_False by (intros ->; apply lookup_lt_Some in Ha; lia); by apply Hnone).
        rewrite adj_here in Hview by done. unfold add_succ. destruct (decide (m = n1)) as [->|Hm].
        -- subst v z k. unfold view. cbn [n_narcs n_arcs with_arcs]. rewrite Ea, En, Hnx, Nat2Z.id, length_app. cbn [length].
           split; [lia|]. replace (length (succ n1) + 1)%nat with (S (length (succ n1))) by lia. by apply view_add.
        -- destruct Harr as (Ea' & En' & _). unfold view. by rewrite Ea', En'.
      * rewrite Erv, Href. symmetry. apply indeg_add; [done|rewrite elem_of_rev_seq; by eapply lookup_lt_Some|done].
    + intros i m. unfold add_succ. case_decide; [|by apply Hvalid]. intros [Hm|Hm%list_elem_of_singleton]%elem_of_app; [by eapply Hvalid|].
      subst m. by eapply lookup_lt_Some.
    + intros i. destruct (Hsimple i) as [Hs1 Hs2]. unfold add_succ. case_decide as Ei; [|done]. subst i. split; [|set_solver].
      apply NoDup_app. split; [done|]. split; [set_solver|apply NoDup_singleton].
  - done.
  - done.
  - intros i j c d Hi Hj. unfold add_succ. rewrite elem_of_app, list_elem_of_singleton.
    assert (forall q r v, names !! q = Some v -> names !! r = Some v -> q = r) as Hinj by (intros q r v; by apply NoDup_lookup).
    case_decide as Ei; [subst i; rewrite elem_of_app, list_elem_of_singleton|]; rewrite (Harcs _ _ _ _ Hi Hj).
    + split.
      * intros [[? ?]| ->]; [by split; [left|]|]. assert (c = a) as -> by congruence. assert (d = b) as -> by congruence. by split; [right|].
      * intros [[?|[= -> ->]] ?]; [by left; split|right]. by eapply Hinj.
    + split; [intros [? ?]; by split; [left|]|]. intros [[?|[= -> ->]] ?]; [by split|]. exfalso. apply Ei. by eapply Hinj.
  - intros c d [Hin|[= -> ->]%list_elem_of_singleton]%elem_of_app; [by apply Hpairs|]. split; by eapply list_elem_of_lookup_2.
  - intros m Hm. unfold add_succ. rewrite decide_False; [by apply Hnone|]. intros ->. apply lookup_lt_Some in Ha. lia.
  - intros m v Hv. destruct (Hns m v Hv) as (v0 & Hv0 & _ & -> & _ & _ & Harr). destruct (Hsize m v0 Hv0) as [Hf Hs]. split; [done|].
    case_decide as Em; [|destruct Harr as (_ & -> & ->); done]. subst v z. cbn. lia.
  - done.
Qed.

Lemma add_arc_spec names pairs succ s a b : built names pairs succ s ->
  Z.of_nat (length (add_name (add_name names a) b)) < 2 ^ 26 ->
  exists succ' s', add_arc a b s = Done (tt, s') /\ built (add_name (add_name names a) b) (pairs ++ [(a, b)]) succ' s'.
Proof.
  intros Hb Hmax. destruct (get_node_spec _ _ _ _ a Hb) as (n1 & s1 & E1 & Hb1 & Hn1).
  unfold add_arc. rewrite (run_bind _ _ _ _ _ E1). lazy beta. case_bool_decide as Hab.
  - subst b. exists succ, s1. split; [done|]. assert (add_name (add_name names a) a = add_name names a) as ->
      by (unfold add_name at 1; rewrite decide_True; [done|]; rewrite add_name_spec; by right).
    apply (built_pairs _ _ _ _ _ Hb1); [set_solver|]. intros c d [Hin|[= -> ->]%list_elem_of_singleton]%elem_of_app; [by apply (b_pairs _ _ _ _ Hb1)|].
    rewrite add_name_spec. by split; right.
  - destruct (get_node_spec _ _ _ _ b Hb1) as (n2 & s2 & E2 & Hb2 & Hn2). apply (add_name_lookup _ b) in Hn1.
    set (names2 := add_name (add_name names a) b) in *. rewrite (run_bind _ _ _ _ _ E2). lazy beta.
    pose proof (b_graph _ _ _ _ Hb2) as Hg.
    destruct (graph_lookup _ _ _ _ n1 Hg) as (x & Hx & [_ Hv _]); [by eapply lookup_lt_Some|].
    rewrite adj_here in Hv by apply (b_none _ _ _ _ Hb2).
    rewrite (run_bind _ _ _ _ _ (run_deref _ _ _ Hx)). lazy beta. rewrite (run_bind _ _ _ _ _ (run_arcs _ _ _ Hv)). lazy beta.
    assert ((n2 ∈ succ n1) <-> (a, b) ∈ pairs) as Hin by (rewrite (b_arcs _ _ _ _ Hb2 _ _ _ _ Hn1 Hn2); naive_solver).
    destruct (existsb (Nat.eqb n2) (succ n1)) eqn:Ex.
    + apply existsb_exists in Ex as (m & Hm%list_elem_of_In & <-%Nat.eqb_eq). apply Hin in Hm. exists succ, s2. split; [done|].
      apply (built_pairs _ _ _ _ _ Hb2); [set_solver|]. intros c d Hcd. apply (b_pairs _ _ _ _ Hb2). set_solver.
    + assert (n2 ∉ succ n1) as Hnew.
      { intros Hm%list_elem_of_In. assert (existsb (Nat.eqb n2) (succ n1) = true) as Et; [|congruence].
        apply existsb_exists. exists n2. by rewrite Nat.eqb_refl. }
      pose proof (g_simple _ _ _ _ Hg n1) as [Hd _].
      assert (n_narcs x < 2 ^ 26) as Hsmall.
      { destruct Hv as [-> _]. assert (length (succ n1) <= length names2)%nat; [|lia].
        apply NoDup_bounded_length; [done|]. intros m. apply (g_valid _ _ _ _ Hg). }
      destruct (b_size _ _ _ _ Hb2 n1 x Hx) as [_ Hs]. destruct (run_grow x s2) as (y & Ey & Hy); [destruct Hv; lia|lia|].
      rewrite (run_bind _ _ _ _ _ Ey). lazy beta. rewrite (proj2 (Z.ltb_lt (n_narcs y) (n_arcsize y))).
      2:{ destruct Hy as (_ & _ & ?). lia. }
      destruct (add_arc_built _ _ _ _ _ _ _ _ x y Hb2 Hmax Hn1 Hn2 Hab Hnew Hx Hy) as ([] & s' & E & Hb').
      by exists (add_succ succ n1 n2), s'.
Qed.
