(* ===== verification/TsortInput.v ===== *)
(** The input of tsort: words separated by white space, two to an arc. *)

From stdpp Require Import list.
From S2P Require Import Prelude Ctype TsortHash Tsort TsortGraph.

Fixpoint split_words (cur input : list Z) : list (list Z) :=
  match input with
  | [] => match cur with [] => [] | _ => [cur] end
  | c :: input =>
    if isspace c then match cur with [] => split_words [] input | _ => cur :: split_words [] input end
    else split_words (cur ++ [c]) input
  end.
Definition words (input : list Z) : list (list Z) := split_words [] input.

Fixpoint pairs_of {A} (ws : list A) : list (A * A) :=
  match ws with a :: b :: ws => (a, b) :: pairs_of ws | _ => [] end.

Fixpoint upto_space (input : list Z) : list Z :=
  match input with c :: input => if isspace c then [] else c :: upto_space input | [] => [] end.
Fixpoint from_space (input : list Z) : list Z :=
  match input with c :: rest => if isspace c then input else from_space rest | [] => [] end.

Lemma upto_from input : upto_space input ++ from_space input = input.
Proof. induction input as [|c input IH]; [done|]. cbn. case_match; [done|]. cbn. by rewrite IH. Qed.

Lemma split_words_run input : forall cur, cur ++ upto_space input <> [] -> split_words cur input = (cur ++ upto_space input) :: words (from_space input).
Proof.
  induction input as [|c input IH]; intros cur Hne.
  - cbn in *. rewrite app_nil_r in *. by destruct cur.
  - cbn [split_words upto_space from_space] in *. destruct (isspace c) eqn:E.
    + rewrite app_nil_r in *. destruct cur; [done|]. unfold words. cbn [split_words]. by rewrite E.
    + rewrite IH, <- app_assoc; [done|]. intros [? _]%app_eq_nil. by destruct cur.
Qed.

Lemma words_skip input : words (skip_space input) = words input.
Proof. induction input as [|c input IH]; [done|]. unfold words in *. cbn. case_match eqn:E; [done|]. cbn. by rewrite E. Qed.

Lemma skip_space_first input c rest : skip_space input = c :: rest -> isspace c = false.
Proof. induction input as [|d input IH]; [done|]. cbn. case_match eqn:E; [done|]. by intros [= <- <-]. Qed.

Lemma skip_space_length input : (length (skip_space input) <= length input)%nat.
Proof. induction input as [|c input IH]; [done|]. cbn. case_match; cbn; lia. Qed.

(** A buffer that is doubled when it is full has room for the word and its NUL. *)
Lemma read_word_spec input : forall used bsize s, Z.of_nat (length used) < bsize -> Z.of_nat (length used + length input) < 2 ^ 30 ->
  exists bsize', read_word input used bsize s = Done ((used ++ upto_space input, bsize', from_space input), s) /\
    Z.of_nat (length (used ++ upto_space input)) < bsize' /\ bsize <= bsize'.
Proof.
  induction input as [|c input IH]; intros used bsize s Hb Hmax.
  - exists bsize. cbn. rewrite app_nil_r. split_and!; [done|done|lia].
  - cbn [read_word upto_space from_space]. destruct (isspace c); [exists bsize; by rewrite app_nil_r|].
    rewrite (proj2 (Z.ltb_lt _ _) Hb). cbn [length] in Hmax.
    assert (length (used ++ [c]) = S (length used)) as El by (rewrite length_app; cbn; lia).
    assert (forall l, used ++ c :: l = (used ++ [c]) ++ l) as Eapp by (intros; by rewrite <- app_assoc).
    destruct (Z.eqb_spec (Z.of_nat (length (used ++ [c]))) bsize) as [E|E].
    + rewrite (proj2 (Z.ltb_lt (bsize * 2) _)) by lia. rewrite (run_bind (grow_buf (bsize * 2)) _ s tt s).
      2:{ unfold grow_buf. by rewrite (proj2 (Z.ltb_lt _ _)) by lia. }
      lazy beta. destruct (IH (used ++ [c]) (bsize * 2) s ltac:(lia) ltac:(lia)) as (b & -> & ? & ?).
      exists b. rewrite (Eapp (upto_space input)). split; [done|]. split; [done|lia].
    + destruct (IH (used ++ [c]) bsize s ltac:(lia) ltac:(lia)) as (b & -> & ? & ?). exists b. by rewrite (Eapp (upto_space input)).
Qed.

(** The nodes after some arcs more. *)
Definition add_names (names : list (list Z)) (pairs : list (list Z * list Z)) : list (list Z) :=
  foldl (fun names p => add_name (add_name names p.1) p.2) names pairs.

Lemma add_names_spec pairs : forall names a, a ∈ add_names names pairs <-> a ∈ names \/ exists p, p ∈ pairs /\ (a = p.1 \/ a = p.2).
Proof.
  induction pairs as [|p pairs IH]; intros names a; [set_solver|]. cbn. rewrite IH, !add_name_spec. set_solver.
Qed.

Lemma add_name_length names w : (length (add_name names w) <= S (length names))%nat.
Proof. unfold add_name. case_decide; rewrite ?length_app; cbn; lia. Qed.

Lemma input_loop_spec fuel : forall input n buf0 b0 b1 names pairs succ s, built names pairs succ s ->
  (length input < fuel)%nat -> Z.of_nat (length input) < 2 ^ 30 -> 0 < b0 -> 0 < b1 ->
  let ws := cstr <$> ((if n : bool then [buf0] else []) ++ words input) in
  Z.of_nat (length names + length ws) < 2 ^ 26 ->
  exists succ' s', input_loop fuel input n buf0 b0 b1 s = Done (Nat.odd (length ws), s') /\
    built (add_names names (pairs_of ws)) (pairs ++ pairs_of ws) succ' s'.
Proof.
  induction fuel as [|fuel IH]; intros input n buf0 b0 b1 names pairs succ s Hb Hf Hmax H0 H1 ws Hsmall; [lia|]. subst ws.
  cbn [input_loop]. pose proof (skip_space_length input) as Hlen. pose proof (words_skip input) as Hws.
  destruct (skip_space input) as [|c rest] eqn:Esk.
  - rewrite <- Hws. exists succ, s. cbn [words split_words]. rewrite !app_nil_r. destruct n; cbn [length fmap list_fmap pairs_of]; rewrite app_nil_r; done.
  - pose proof (skip_space_first _ _ _ Esk) as Hc. set (input' := c :: rest) in *. set (bs := if n then b1 else b0).
    destruct (read_word_spec input' [] bs s) as (b & Er & Hroom & Hle); [subst bs; cbn; destruct n; lia|cbn [length Nat.add]; lia|].
    rewrite (run_bind _ _ _ _ _ Er). cbn [app] in *. lazy beta iota. rewrite (proj2 (Z.ltb_lt _ _) Hroom).
    assert (words input = upto_space input' :: words (from_space input')) as Ew.
    { rewrite <- Hws. unfold words at 1. rewrite split_words_run; [done|]. cbn. by rewrite Hc. }
    assert (length (from_space input') < length input')%nat as Hshort.
    { rewrite <- (upto_from input') at 2. rewrite length_app. cbn. rewrite Hc. cbn. lia. }
    rewrite Ew in Hsmall |- *. set (w := upto_space input') in *. set (rest' := from_space input') in *.
    assert (0 < b) as Hpos by (subst bs; destruct n; lia).
    destruct n; cbn [app negb] in *.
    + rewrite !fmap_cons in Hsmall |- *. cbn [length pairs_of] in *.
      pose proof (add_name_length names (cstr buf0)). pose proof (add_name_length (add_name names (cstr buf0)) (cstr w)).
      destruct (add_arc_spec _ _ _ _ (cstr buf0) (cstr w) Hb) as (succ1 & s1 & E1 & Hb1); [lia|].
      rewrite (run_bind _ _ _ _ _ E1). lazy beta.
      destruct (IH rest' false buf0 b0 b _ _ _ _ Hb1) as (succ' & s' & -> & Hb'); [lia..|cbn [app]; lia|].
      exists succ', s'. split; [done|]. by rewrite <- app_assoc in Hb'.
    + destruct (IH rest' true w b b1 _ _ _ _ Hb) as (succ' & s' & -> & Hb'); [lia..| |by exists succ', s'].
      cbn [app]. lia.
Qed.

Definition init_state : state := State [] None hash_init None None [].

Lemma init_built : built [] [] (fun _ => []) init_state.
Proof.
  split; try done; try apply hash_init_ok; try apply NoDup_nil_2; try set_solver.
  split; try done; try apply NoDup_nil_2; try set_solver. intros; split; [apply NoDup_nil_2|set_solver].
Qed.

Lemma words_length input : (length (words input) <= length input)%nat.
Proof.
  unfold words. assert (forall cur, (length (split_words cur input) <= length input + (match cur with [] => 0 | _ => 1 end))%nat) as H.
  { induction input as [|c input IH]; intros cur; cbn [split_words].
    - destruct cur; cbn; lia.
    - destruct (isspace c).
      + specialize (IH []). destruct cur; cbn in *; lia.
      + specialize (IH (cur ++ [c])). destruct cur; cbn in *; lia. }
  specialize (H []). cbn in H. lia.
Qed.

(** The graph of the input. *)
Lemma input_spec input : Z.of_nat (length input) < 2 ^ 26 ->
  let ws := cstr <$> words input in
  exists succ s, input_loop (S (length input)) input false [] 1024 1024 init_state = Done (Nat.odd (length ws), s) /\
    built (add_names [] (pairs_of ws)) (pairs_of ws) succ s.
Proof.
  intros Hmax ws. pose proof (words_length input) as Hl.
  destruct (input_loop_spec (S (length input)) input false [] 1024 1024 _ _ _ _ init_built) as (succ & s & -> & Hb); [lia..| |by exists succ, s].
  cbn [app length Nat.add]. rewrite length_fmap. lia.
Qed.
