(* ===== verification/TsortCycle.v ===== *)
(** [find_cycle] of tsort: it finds a cycle through a node when there is one, logs
    only cycles, and stays inside its two logs. *)

From stdpp Require Import list.
From S2P Require Import Prelude Ctype TsortHash Tsort TsortGraph.

(** * Flags *)

Definition has (f : Z) (ns : list node) (n : nat) : bool := match ns !! n with Some x => tst (n_flags x) f | None => false end.
Definition is_flag (f : Z) : Prop := f = NF_MARK \/ f = NF_ACYCLIC \/ f = NF_NODEST.

Lemma tst_testbit x k : 0 <= k -> tst x (2 ^ k) = Z.testbit x k.
Proof.
  intros Hk. unfold tst. rewrite Z.land_comm. destruct (Z.testbit x k) eqn:E.
  - destruct (Z.eqb_spec (2 ^ k .& x) 0) as [H0|]; [|done]. apply (f_equal (fun z => Z.testbit z k)) in H0.
    rewrite Z.land_spec, Z.pow2_bits_true, E, Z.bits_0 in H0 by done. done.
  - rewrite (proj2 (Z.eqb_eq _ _)); [done|]. apply Z.bits_inj'. intros i Hi. rewrite Z.land_spec, Z.bits_0.
    destruct (Z.eq_dec i k) as [->|]; [by rewrite E, andb_false_r|by rewrite Z.pow2_bits_false by lia].
Qed.

Lemma flag_bit f : is_flag f -> exists k, 0 <= k /\ f = 2 ^ k.
Proof. intros [->|[->| ->]]; [exists 0|exists 1|exists 2]; split; done || lia. Qed.

Lemma tst_lor x f g : is_flag f -> is_flag g -> tst (x .| f) g = tst x g || (f =? g).
Proof.
  intros (k & Hk & ->)%flag_bit (l & Hl & ->)%flag_bit. rewrite !tst_testbit, Z.lor_spec by done. f_equal.
  rewrite Z.pow2_bits_eqb by done. destruct (Z.eqb_spec k l) as [->|Hne]; [by rewrite Z.eqb_refl|].
  symmetry. apply Z.eqb_neq. intros E%Z.pow_inj_r; lia.
Qed.
Lemma tst_ldiff x f g : is_flag f -> is_flag g -> tst (x .&~ f) g = tst x g && negb (f =? g).
Proof.
  intros (k & Hk & ->)%flag_bit (l & Hl & ->)%flag_bit. rewrite !tst_testbit, Z.land_spec, Z.lnot_spec by done. f_equal. f_equal.
  rewrite Z.pow2_bits_eqb by done. destruct (Z.eqb_spec k l) as [->|Hne]; [by rewrite Z.eqb_refl|].
  symmetry. apply Z.eqb_neq. intros E%Z.pow_inj_r; lia.
Qed.
Lemma tst_or x f g : tst x (f .| g) = tst x f || tst x g.
Proof.
  unfold tst. rewrite Z.land_lor_distr_r.
  destruct (Z.eqb_spec (x .& f) 0) as [->|H1]; [by rewrite Z.lor_0_l|].
  destruct (Z.eqb_spec (x .& f .| x .& g) 0) as [E|]; [|done]. by apply Z.lor_eq_0_iff in E as [? _].
Qed.

Ltac is_a_flag := unfold is_flag; auto.

(** * What a search may change *)

Definition bare (x : node) : node := with_flags x 0.
Definition is_trace (e : event) : Prop := match e with Trace _ _ _ _ => True | _ => False end.

Record frame (s s' : state) : Prop := {
  fr_nodes k : bare <$> nodes s' !! k = bare <$> nodes s !! k;
  fr_graph : graph s' = graph s;
  fr_db : db s' = db s;
  fr_out : exists l, out s' = out s ++ l /\ Forall is_trace l
}.

Lemma frame_refl s : frame s s.
Proof. split; try done. exists []. by rewrite app_nil_r. Qed.
Lemma frame_trans s1 s2 s3 : frame s1 s2 -> frame s2 s3 -> frame s1 s3.
Proof.
  intros [H1 ? ? (l1 & E1 & F1)] [H2 ? ? (l2 & E2 & F2)]. split; [intros k; by rewrite H2|congruence..|].
  exists (l1 ++ l2). rewrite E2, E1, app_assoc. split; [done|by apply Forall_app].
Qed.

Lemma frame_length s s' : frame s s' -> length (nodes s') = length (nodes s).
Proof.
  intros [H _ _ _]. apply Nat.le_antisymm; apply Nat.nlt_ge; intros Hlt.
  - destruct (lookup_lt_is_Some_2 _ _ Hlt) as [x Hx]. specialize (H (length (nodes s))). rewrite Hx in H.
    rewrite (lookup_ge_None_2 (nodes s)) in H by done. done.
  - destruct (lookup_lt_is_Some_2 _ _ Hlt) as [x Hx]. specialize (H (length (nodes s'))). rewrite Hx in H.
    rewrite (lookup_ge_None_2 (nodes s')) in H by done. done.
Qed.

Lemma frame_put s n x f : nodes s !! n = Some x -> frame s (with_nodes s (<[n := with_flags x f]> (nodes s))).
Proof.
  intros Hx. split; try done; [|exists []; by rewrite app_nil_r]. intros k. cbn. by apply (fmap_insert_same bare _ _ _ _ Hx).
Qed.

Lemma has_put ns n x f g k : ns !! n = Some x -> has g (<[n := with_flags x f]> ns) k = if decide (k = n) then tst f g else has g ns k.
Proof.
  intros Hx. unfold has. case_decide as E; [subst k; by rewrite list_lookup_insert_eq by by eapply lookup_lt_Some|].
  by rewrite list_lookup_insert_ne.
Qed.

Lemma run_flag n f s : (n < length (nodes s))%nat -> is_flag f ->
  exists ns, flag n f s = Done (tt, with_nodes s ns) /\ frame s (with_nodes s ns) /\
    forall g k, is_flag g -> has g ns k = has g (nodes s) k || (bool_decide (k = n) && (f =? g)).
Proof.
  intros [x Hx]%lookup_lt_is_Some Hf. unfold flag. rewrite (run_modify n x) by done. eexists. split; [done|].
  split; [by apply frame_put|]. intros g k Hg. rewrite (has_put _ _ _ _ _ _ Hx). case_decide as E.
  - subst k. rewrite tst_lor, bool_decide_true by done. unfold has. by rewrite Hx.
  - rewrite bool_decide_false by done. by rewrite orb_false_r.
Qed.
Lemma run_unflag n f s : (n < length (nodes s))%nat -> is_flag f ->
  exists ns, unflag n f s = Done (tt, with_nodes s ns) /\ frame s (with_nodes s ns) /\
    forall g k, is_flag g -> has g ns k = has g (nodes s) k && negb (bool_decide (k = n) && (f =? g)).
Proof.
  intros [x Hx]%lookup_lt_is_Some Hf. unfold unflag. rewrite (run_modify n x) by done. eexists. split; [done|].
  split; [by apply frame_put|]. intros g k Hg. rewrite (has_put _ _ _ _ _ _ Hx). case_decide as E.
  - subst k. rewrite tst_ldiff, bool_decide_true by done. unfold has. by rewrite Hx.
  - rewrite bool_decide_false by done. by rewrite andb_true_r.
Qed.

(** * Paths *)

Fixpoint path (adj : nat -> list nat) (a : nat) (l : list nat) : Prop :=
  match l with [] => True | b :: l => b ∈ adj a /\ path adj b l end.
Definition is_cycle (adj : nat -> list nat) (n : nat) (c : list nat) : Prop := path adj n c /\ last c = Some n.

Lemma path_snoc adj l m b : forall a, path adj a l -> last (a :: l) = Some b -> m ∈ adj b -> path adj a (l ++ [m]).
Proof.
  induction l as [|c l IH]; intros a; cbn [path app].
  - intros _ [= ->]. done.
  - intros [Hc Hp]. rewrite last_cons_cons. intros Hl Hm. split; [done|by apply IH].
Qed.

Lemma path_app adj l1 l2 : forall a, path adj a (l1 ++ l2) <-> path adj a l1 /\ path adj (default a (last l1)) l2.
Proof.
  induction l1 as [|b l1 IH]; intros a; [cbn; tauto|]. cbn [app path]. rewrite IH, last_cons. destruct (last l1); cbn; tauto.
Qed.

Lemma path_mono (adj adj' : nat -> list nat) l : forall a, (forall n m, m ∈ adj n -> m ∈ adj' n) -> path adj a l -> path adj' a l.
Proof. induction l as [|b l IH]; intros a H; [done|]. intros [? ?]. split; [by apply H|by apply IH]. Qed.

(** * The search *)

Section Search.
Variables (debug longest : bool).
(** The arcs of [N] nodes; the ones with arcs are among [L]; the logs have [cap] cells. *)
Variables (N : nat) (adj : nat -> list nat) (L : list nat) (cap : nat).
Hypothesis adj_live : forall n m, m ∈ adj n -> n ∈ L.
Hypothesis adj_valid : forall n m, m ∈ adj n -> (m < N)%nat.
Hypothesis live_valid : forall n, n ∈ L -> (n < N)%nat.
Hypothesis live_cap : (length L <= cap)%nat.
(** The node that the cycle is to go through. *)
Variable to : nat.

(** [p] are the nodes on the way. *)
Record ok (s : state) (p : list nat) : Prop := {
  ok_len : length (nodes s) = N;
  ok_view n x : nodes s !! n = Some x -> view x (adj n);
  ok_marks k : has NF_MARK (nodes s) k = true <-> k ∈ p;
  ok_logs : exists c l, cycle_buf s = Some c /\ longest_cycle s = Some l /\ length c = cap /\ length l = cap
}.

Definition logged (s : state) (lg : list nat) : Prop := exists c, cycle_buf s = Some c /\ take (length lg) c = Some <$> lg.
Definition best (s : state) (ll : Z) : Prop :=
  0 <= ll /\ (0 < ll -> exists l c, longest_cycle s = Some l /\ take (Z.to_nat ll) l = Some <$> c /\ Z.of_nat (length c) = ll /\ is_cycle adj to c).

(** Nothing is left to find behind [m], and behind the nodes known to lead nowhere. *)
Definition fine (s : state) (p : list nat) (m : nat) : Prop :=
  m <> to /\ (has NF_NODEST (nodes s) m = true \/ has NF_ACYCLIC (nodes s) m = true \/ m ∈ p).
Definition closed (s : state) (p : list nat) : Prop :=
  forall n m, has NF_NODEST (nodes s) n = true -> m ∈ adj n -> fine s p m.

Record step (s s' : state) : Prop := {
  st_frame : frame s s';
  st_dead k : has NF_NODEST (nodes s) k = true -> has NF_NODEST (nodes s') k = true;
  st_acyclic k : has NF_ACYCLIC (nodes s') k = has NF_ACYCLIC (nodes s) k
}.
Lemma step_refl s : step s s.
Proof. split; [apply frame_refl|done..]. Qed.
Lemma step_trans s1 s2 s3 : step s1 s2 -> step s2 s3 -> step s1 s3.
Proof. intros [F1 D1 A1] [F2 D2 A2]. split; [by eapply frame_trans|auto|congruence]. Qed.

Lemma fine_step s s' p m : step s s' -> fine s p m -> fine s' p m.
Proof. intros [_ Hd Ha] [? H]. split; [done|]. rewrite Ha. naive_solver. Qed.

Definition result (s s' : state) (p lg : list nat) (ll r : Z) : Prop :=
  step s s' /\ ok s' p /\ logged s' lg /\ ll <= r /\ best s' r.

Lemma logged_prefix s lg m : logged s (lg ++ [m]) -> logged s lg.
Proof.
  intros (c & Hc & E). exists c. split; [done|]. apply (f_equal (take (length lg))) in E.
  rewrite take_take, length_app, Nat.min_l in E by lia. rewrite E, fmap_app, take_app_le by by rewrite length_fmap.
  by rewrite take_ge by by rewrite length_fmap.
Qed.

(** ** Small steps *)

Lemma run_log_node s p lg m : ok s p -> logged s lg -> (length lg < cap)%nat ->
  exists s', log_node (Z.of_nat (length lg)) m s = Done (tt, s') /\ nodes s' = nodes s /\ longest_cycle s' = longest_cycle s /\
    step s s' /\ ok s' p /\ logged s' (lg ++ [m]).
Proof.
  intros [Hlen Hview Hmarks (c & l & Hc & Hl & Hlc & Hll)] (c' & Hc' & E) Hlt. assert (c' = c) as -> by congruence. clear Hc'.
  unfold log_node. rewrite Hc, Nat2Z.id, awrite_Some by lia. eexists. split; [done|]. split; [done|]. split; [done|].
  split; [split; [split; [done..|exists []; by rewrite app_nil_r]|done..]|]. split.
  - split; [done..|]. eexists _, _. cbn. split_and!; [done..|by rewrite length_insert|done].
  - eexists. split; [done|]. rewrite length_app. cbn [length]. rewrite Nat.add_1_r.
    rewrite (take_S_r _ _ (Some m)) by by apply list_lookup_insert_eq; lia.
    rewrite take_insert_ge by lia. by rewrite E, fmap_app.
Qed.

Lemma run_save s p lg : ok s p -> logged s (lg ++ [to]) -> path adj to (lg ++ [to]) -> (length lg < cap)%nat ->
  let d := Z.of_nat (length lg) + 1 in
  exists s', save_cycle d s = Done (tt, s') /\ nodes s' = nodes s /\ step s s' /\ ok s' p /\ logged s' (lg ++ [to]) /\ best s' d.
Proof.
  intros [Hlen Hview Hmarks (c & l & Hc & Hl & Hlc & Hll)] (c' & Hc' & E) Hp Hlt d. assert (c' = c) as -> by congruence. clear Hc'.
  unfold save_cycle. rewrite Hc, Hl. rewrite (proj2 (Z.leb_le d _)), (proj2 (Z.leb_le d _)) by lia. cbn [andb].
  replace (Z.to_nat d) with (length (lg ++ [to])) by (rewrite length_app; cbn; lia). eexists. split; [done|]. split; [done|].
  assert (length (lg ++ [to]) <= cap)%nat as Hcap by (rewrite length_app; cbn; lia).
  split; [split; [split; [done..|exists []; by rewrite app_nil_r]|done..]|]. split; [split; [done..|]|split].
  - eexists _, _. cbn. split_and!; [done..|]. rewrite length_app, length_take, length_drop. lia.
  - by exists c.
  - split; [lia|]. intros _. eexists _, (lg ++ [to]). split; [done|]. split; [|split; [rewrite length_app; cbn; lia|split; [done|apply last_snoc]]].
    replace (Z.to_nat d) with (length (lg ++ [to])) by (rewrite length_app; cbn; lia).
    rewrite E, take_app_le by by rewrite length_fmap. by rewrite take_ge by by rewrite length_fmap.
Qed.

Lemma run_trace s p lg ll d a b len : ok s p -> logged s lg -> best s ll -> (a < N)%nat -> (b < N)%nat ->
  exists s', trace debug d a b len s = Done (tt, s') /\ nodes s' = nodes s /\ step s s' /\ ok s' p /\ logged s' lg /\ best s' ll.
Proof.
  intros Hok Hlg Hbest Ha Hb. unfold trace. destruct debug; [|exists s; by split_and!; [..|apply step_refl|done|done|done]].
  destruct (lookup_lt_is_Some_2 (nodes s) a) as [x Hx]; [by rewrite (ok_len _ _ Hok)|].
  destruct (lookup_lt_is_Some_2 (nodes s) b) as [y Hy]; [by rewrite (ok_len _ _ Hok)|].
  rewrite (run_bind _ _ _ _ _ (run_deref _ _ _ Hx)). lazy beta. rewrite (run_bind _ _ _ _ _ (run_deref _ _ _ Hy)). lazy beta.
  eexists. split; [done|]. split; [done|]. split; [split; [split; [done..|]|done..]|].
  - eexists [_]. split; [done|]. apply Forall_singleton. done.
  - destruct Hok. split; [by split|]. done.
Qed.

Lemma view_frame s s' : frame s s' -> (forall n x, nodes s !! n = Some x -> view x (adj n)) ->
  forall n x, nodes s' !! n = Some x -> view x (adj n).
Proof.
  intros Hfr Hv n x Hx. pose proof (fr_nodes _ _ Hfr n) as E. rewrite Hx in E. destruct (nodes s !! n) as [y|] eqn:Ey; [|done].
  specialize (Hv n y Ey). unfold view in *. cbn in E. injection E as _ _ Ea En _ _ _. by rewrite Ea, En.
Qed.

Lemma ok_put s p ns : ok s p -> frame s (with_nodes s ns) -> (forall k, has NF_MARK ns k = has NF_MARK (nodes s) k) -> ok (with_nodes s ns) p.
Proof.
  intros [Hlen Hview Hmarks Hlogs] Hfr Hm.
  split; [by rewrite (frame_length _ _ Hfr)|exact (view_frame _ _ Hfr Hview)|intros k; cbn; by rewrite Hm|done].
Qed.

Lemma run_nodest s p lg ll n : ok s p -> logged s lg -> best s ll -> (n < N)%nat ->
  exists s', flag n NF_NODEST s = Done (tt, s') /\ step s s' /\ ok s' p /\ logged s' lg /\ best s' ll /\
    forall k, has NF_NODEST (nodes s') k = true <-> has NF_NODEST (nodes s) k = true \/ k = n.
Proof.
  intros Hok Hlg Hbest Hn. destruct (run_flag n NF_NODEST s) as (ns & -> & Hfr & Hh); [by rewrite (ok_len _ _ Hok)|is_a_flag|].
  eexists. split; [done|]. assert (forall k, has NF_NODEST ns k = has NF_NODEST (nodes s) k || bool_decide (k = n)) as Hd
    by (intros k; rewrite Hh by is_a_flag; by rewrite andb_true_r).
  split; [split; [done| |]|].
  - intros k Hk. cbn. by rewrite Hd, Hk.
  - intros k. cbn. rewrite Hh by is_a_flag. by rewrite andb_false_r, orb_false_r.
  - split; [|split; [done|split; [done|]]].
    + apply ok_put; [done..|]. intros k. rewrite Hh by is_a_flag. by rewrite andb_false_r, orb_false_r.
    + intros k. cbn. rewrite Hd, orb_true_iff, bool_decide_eq_true. done.
Qed.

(** ** The loop over the arcs *)

Definition unflagged (s : state) (n : nat) : Prop :=
  has NF_MARK (nodes s) n = false /\ has NF_ACYCLIC (nodes s) n = false /\ has NF_NODEST (nodes s) n = false.

Lemma unflagged_tst s n x : nodes s !! n = Some x -> forall b, tst (n_flags x) (NF_MARK .| NF_ACYCLIC .| NF_NODEST) = b ->
  if b then has NF_MARK (nodes s) n = true \/ has NF_ACYCLIC (nodes s) n = true \/ has NF_NODEST (nodes s) n = true else unflagged s n.
Proof.
  intros Hx b. rewrite !tst_or. unfold unflagged, has. rewrite Hx.
  destruct (tst _ NF_MARK), (tst _ NF_ACYCLIC), (tst _ NF_NODEST); intros <-; cbn; auto.
Qed.

Definition answers (o : outcome (Z * state)) (p lg : list nat) (ll : Z) (l : list nat) (s0 : state) (p0 : list nat) : Prop :=
  exists r s', o = Done (r, s') /\ result s0 s' p0 lg ll r /\ (r = 0 -> closed s' p /\ forall m, m ∈ l -> fine s' p m).

(** What [find_cycle] does with [n] at the end of the way [p]. *)
Definition finds (rec : nat -> Z -> Z -> prog Z) (p : list nat) : Prop := forall s n ll lg,
  ok s p -> NoDup (p ++ [n]) -> (n < N)%nat -> p ++ [n] = to :: lg -> path adj to lg -> logged s lg -> best s ll ->
  (ll = 0 -> closed s p) -> unflagged s n -> (forall k, k ∈ p -> k ∈ L) ->
  answers (rec n ll (Z.of_nat (length lg)) s) (p ++ [n]) lg ll (adj n) s p.

Lemma closed_nodest s s' p n : (forall k, has NF_NODEST (nodes s') k = true <-> has NF_NODEST (nodes s) k = true \/ k = n) ->
  step s s' -> closed s (p ++ [n]) -> (forall m, m ∈ adj n -> fine s (p ++ [n]) m) -> closed s' p.
Proof.
  intros Hd Hst Hcl Hadj k m Hk Hm. assert (fine s (p ++ [n]) m) as [Hne Hf]
    by (apply Hd in Hk as [Hk| ->]; [by eapply Hcl|by apply Hadj]).
  split; [done|]. rewrite Hd, (st_acyclic _ _ Hst). rewrite elem_of_app, list_elem_of_singleton in Hf. naive_solver.
Qed.

Lemma result_trans s1 s2 s3 p lg ll1 ll2 r : step s1 s2 -> ll1 <= ll2 -> result s2 s3 p lg ll2 r -> result s1 s3 p lg ll1 r.
Proof. intros H ? (? & ? & ? & ? & ?). split; [by eapply step_trans|]. split; [done|]. split; [done|]. split; [lia|done]. Qed.

Lemma arc_loop_spec rec p from lg : finds rec (p ++ [from]) -> p ++ [from] = to :: lg -> path adj to lg -> NoDup (p ++ [from]) ->
  (forall k, k ∈ p -> k ∈ L) ->
  forall l ll s, (forall m, m ∈ l -> m ∈ adj from) -> ok s (p ++ [from]) -> logged s lg -> best s ll -> (ll = 0 -> closed s (p ++ [from])) ->
  answers (arc_loop debug longest rec from to (Z.of_nat (length lg)) l ll s) (p ++ [from]) lg ll l s (p ++ [from]).
Proof.
  intros Hrec Hway Hpath Hnd Hlive. set (p' := p ++ [from]) in *.
  induction l as [|n l IH]; intros ll s Hl Hok Hlg Hbest Hcl.
  - exists ll, s. split; [done|]. split; [split; [apply step_refl|]; split; [done|]; split; [done|]; split; [lia|done]|]. intros ->. split; [by apply Hcl|set_solver].
  - pose proof (Hl n ltac:(set_solver)) as Hn. pose proof (adj_valid _ _ Hn) as HnN.
    assert (forall k, k ∈ p' -> k ∈ L) as Hlive' by (intros k [?|Hk]%elem_of_app; [auto|apply list_elem_of_singleton in Hk; subst; by eapply adj_live]).
    assert (length lg < cap)%nat as Hcap.
    { assert (length p' <= length L)%nat as Hle by (apply submseteq_length, NoDup_submseteq; [done|]; done). rewrite Hway in Hle. cbn in Hle. lia. }
    assert (path adj to (lg ++ [n])) as Hpath' by (apply (path_snoc adj lg n from); [done|rewrite <- Hway; apply last_snoc|done]).
    cbn [arc_loop]. destruct (run_log_node s p' lg n Hok Hlg Hcap) as (s1 & E1 & Hns1 & Hlc1 & Hst1 & Hok1 & Hlg1).
    rewrite (run_bind _ _ _ _ _ E1). lazy beta.
    assert (best s1 ll) as Hb1 by (unfold best; by rewrite Hlc1).
    assert (ll = 0 -> closed s1 p') as Hcl1 by (intros E k m; unfold fine; rewrite Hns1; by apply Hcl).
    assert (forall s2 ll2, step s s2 -> ok s2 p' -> logged s2 lg -> best s2 ll2 -> ll <= ll2 -> (ll2 = 0 -> closed s2 p' /\ fine s2 p' n) ->
      answers (arc_loop debug longest rec from to (Z.of_nat (length lg)) l ll2 s2) p' lg ll (n :: l) s p') as Hnext.
    { intros s2 ll2 Hst2 Hok2 Hlg2 Hb2 Hle Hcl2. destruct (IH ll2 s2) as (r & s3 & E & Hres & Hf); [set_solver|done|done|done|apply Hcl2|].
      exists r, s3. split; [done|]. split; [by eapply result_trans|]. intros Hr. destruct (Hf Hr) as [Hc3 Hf3]. split; [done|].
      intros m [->|Hm]%elem_of_cons; [|by apply Hf3]. apply (fine_step s2); [by destruct Hres|].
      apply Hcl2. destruct Hb2 as [? _], Hres as (_ & _ & _ & ? & _). lia. }
    destruct (Nat.eqb_spec n to) as [->|Hne].
    + destruct (Z.ltb_spec ll (Z.of_nat (length lg) + 1)) as [Hlt|Hge].
      * destruct (run_save s1 p' lg Hok1 Hlg1 Hpath' Hcap) as (s2 & E2 & Hns2 & Hst2 & Hok2 & Hlg2 & Hb2).
        rewrite (run_bind _ _ s1 (Z.of_nat (length lg) + 1) s2) by by rewrite (run_bind _ _ _ _ _ E2).
        lazy beta.
        apply (Hnext s2 (Z.of_nat (length lg) + 1)); [by eapply step_trans|done|by eapply logged_prefix|done|lia|lia].
      * rewrite (run_bind (mret ll) _ s1 ll s1) by done. lazy beta. apply Hnext; [done|done|by eapply logged_prefix|done|lia|lia].
    + destruct (lookup_lt_is_Some_2 (nodes s1) n) as [x Hx]; [by rewrite (ok_len _ _ Hok1)|].
      rewrite (run_bind _ _ _ _ _ (run_deref _ _ _ Hx)). lazy beta.
      pose proof (unflagged_tst _ _ _ Hx _ eq_refl) as Hfl. destruct (tst (n_flags x) _) eqn:Et.
      * apply Hnext; [done|done|by eapply logged_prefix|done|lia|]. intros E. split; [by apply Hcl1|]. split; [done|].
        destruct Hfl as [?%(ok_marks _ _ Hok1)|[?|?]]; auto.
      * destruct (Hrec s1 n ll (lg ++ [n])) as (r & s2 & E2 & (Hst2 & Hok2 & Hlg2 & Hr & Hb2) & Hzero);
          [done| |done|by rewrite Hway|done|done|done|done|done|done|].
        { apply NoDup_app. split; [done|]. split; [|apply NoDup_singleton]. intros k Hk Hkn%list_elem_of_singleton. subst k.
          apply (ok_marks _ _ Hok1) in Hk. destruct Hfl as [? _]. congruence. }
        rewrite length_app, Nat2Z.inj_add in E2. cbn [length] in E2. change (Z.of_nat 1) with 1 in E2.
        rewrite (run_bind _ _ _ _ _ E2). lazy beta.
        assert ((from < N)%nat /\ (to < N)%nat) as [HfN HtN].
        { split; apply live_valid, Hlive'; [subst p'; set_solver|rewrite Hway; set_solver]. }
        destruct (run_trace s2 p' (lg ++ [n]) r (Z.of_nat (length lg)) from to r Hok2 Hlg2 Hb2 HfN HtN) as (s3 & E3 & Hns3 & Hst3 & Hok3 & Hlg3 & Hb3).
        rewrite (run_bind _ _ _ _ _ E3). lazy beta.
        assert ((if ll <? r then r else ll) = r) as -> by (destruct (Z.ltb_spec ll r); lia). apply logged_prefix in Hlg3.
        assert (step s s3) as Hst03 by (eapply step_trans; [exact Hst1|]; by eapply step_trans).
        assert (forall m, fine s2 (p' ++ [n]) m -> fine s3 (p' ++ [n]) m) as Hf23 by (intros m; by apply fine_step).
        destruct (Z.eqb_spec r 0) as [->|Hpos].
        -- destruct (Hzero eq_refl) as [Hc2 Hf2]. destruct (run_nodest s3 p' lg 0 n Hok3 Hlg3 Hb3 HnN) as (s4 & E4 & Hst4 & Hok4 & Hlg4 & Hb4 & Hd4).
           rewrite (run_bind _ _ _ _ _ E4). lazy beta. cbn [Z.ltb Z.compare andb]. apply Hnext; try done; [by eapply step_trans|]. intros _.
           split; [|split; [done|left; apply Hd4; by right]]. apply (closed_nodest s3 s4 p' n); try done; [|auto].
           intros k m Hk Hm. apply Hf23, (Hc2 k); [by rewrite <- Hns3|done].
        -- assert (0 < r) as Hgt by (destruct Hb1; lia).
           rewrite (run_bind (mret tt) _ s3 tt s3) by done. lazy beta. rewrite (proj2 (Z.ltb_lt 0 r)) by lia. cbn [andb].
           destruct (negb longest); [|apply Hnext; try done; lia]. exists r, s3. split; [done|]. split; [|lia].
           split; [done|]. split; [done|]. split; [done|]. split; [lia|done].
Qed.

(** ** find_cycle *)

Lemma find_cycle_finds fuel : forall p, (N < length p + fuel)%nat -> finds (fun n ll depth => find_cycle debug longest fuel n to ll depth) p.
Proof.
  induction fuel as [|fuel IH]; intros p Hfuel s n ll lg Hok Hnd HnN Hway Hpath Hlg Hbest Hcl Hun Hlive.
  - exfalso. assert (length (p ++ [n]) <= N)%nat; [|rewrite length_app in *; cbn in *; lia].
    apply NoDup_bounded_length; [done|]. intros k [Hk|Hk%list_elem_of_singleton]%elem_of_app; [by apply live_valid, Hlive|by subst].
  - cbn [find_cycle]. destruct (lookup_lt_is_Some_2 (nodes s) n) as [x Hx]; [by rewrite (ok_len _ _ Hok)|].
    rewrite (run_bind _ _ _ _ _ (run_deref _ _ _ Hx)). lazy beta.
    assert (tst (n_flags x) (NF_NODEST .| NF_MARK .| NF_ACYCLIC) = false) as ->.
    { destruct Hun as (H1 & H2 & H3). unfold has in *. rewrite Hx in *. by rewrite !tst_or, H1, H2, H3. }
    destruct (run_flag n NF_MARK s) as (ns & E1 & Hfr1 & Hh1); [by rewrite (ok_len _ _ Hok)|is_a_flag|].
    rewrite (run_bind _ _ _ _ _ E1). lazy beta. set (s1 := with_nodes s ns) in *.
    assert (view x (adj n)) as Hv by by apply (ok_view _ _ Hok).
    rewrite (run_bind _ _ _ _ _ (run_arcs _ _ s1 Hv)). lazy beta.
    assert (forall g k, is_flag g -> g <> NF_MARK -> has g ns k = has g (nodes s) k) as Hsame.
    { intros g k Hg Hne. rewrite Hh1 by done. by rewrite (proj2 (Z.eqb_neq NF_MARK g)), andb_false_r, orb_false_r by congruence. }
    assert (ok s1 (p ++ [n])) as Hok1.
    { pose proof Hok as [_ _ Hm Hlogs]. split; [by rewrite (frame_length _ _ Hfr1), (ok_len _ _ Hok)|exact (view_frame _ _ Hfr1 (ok_view _ _ Hok))| |done].
      intros k. cbn. rewrite Hh1 by is_a_flag. rewrite orb_true_iff, Hm, elem_of_app, list_elem_of_singleton, andb_true_r, bool_decide_eq_true. done. }
    assert (step s s1) as Hst1.
    { split; [done| |]; intros k; cbn; rewrite Hsame by (is_a_flag || done); done. }
    assert (ll = 0 -> closed s1 (p ++ [n])) as Hcl1.
    { intros E k m Hk Hm. cbn in Hk. rewrite Hsame in Hk by (is_a_flag || done). destruct (Hcl E k m Hk Hm) as [? Hf]. split; [done|].
      cbn. rewrite !Hsame by (is_a_flag || done). rewrite elem_of_app. naive_solver. }
    destruct (arc_loop_spec (fun n ll depth => find_cycle debug longest fuel n to ll depth) p n lg) with (l := adj n) (ll := ll) (s := s1)
      as (r & s2 & E2 & (Hst2 & Hok2 & Hlg2 & Hr & Hb2) & Hzero); try done.
    { apply IH. rewrite length_app. cbn. lia. }
    rewrite (run_bind _ _ _ _ _ E2). lazy beta.
    destruct (run_unflag n NF_MARK s2) as (ns3 & E3 & Hfr3 & Hh3); [by rewrite (ok_len _ _ Hok2)|is_a_flag|].
    rewrite (run_bind _ _ _ _ _ E3). lazy beta. set (s3 := with_nodes s2 ns3) in *.
    assert (forall g k, is_flag g -> g <> NF_MARK -> has g ns3 k = has g (nodes s2) k) as Hsame3.
    { intros g k Hg Hne. rewrite Hh3 by done. by rewrite (proj2 (Z.eqb_neq NF_MARK g)), andb_false_r, andb_true_r by congruence. }
    assert (step s2 s3) as Hst3 by (split; [done| |]; intros k; cbn; rewrite Hsame3 by (is_a_flag || done); done).
    exists r, s3. split; [done|]. split.
    + split; [by eapply step_trans; [|eapply step_trans]|]. split; [|by split].
      pose proof Hok2 as [_ _ Hm Hlogs]. split; [by rewrite (frame_length _ _ Hfr3), (ok_len _ _ Hok2)|exact (view_frame _ _ Hfr3 (ok_view _ _ Hok2))| |done].
      intros k. cbn. rewrite Hh3 by is_a_flag. rewrite andb_true_iff, Hm, elem_of_app, list_elem_of_singleton, andb_true_r, negb_true_iff, bool_decide_eq_false.
        apply NoDup_app in Hnd as (_ & Hnd & _). set_solver.
    + intros E. destruct (Hzero E) as [Hc2 Hf2].
      assert (forall m, fine s2 (p ++ [n]) m -> fine s3 (p ++ [n]) m) as Hf23 by (intros m; by apply fine_step).
      split; [|auto]. intros k m Hk Hm. cbn in Hk. rewrite Hsame3 in Hk by (is_a_flag || done). apply Hf23. by eapply Hc2.
Qed.

(** ** A search from its beginning *)

Definition on_cycle (n : nat) : Prop := exists c, is_cycle adj n c.

Lemma closed_no_cycle s : closed s [to] -> (forall m, m ∈ adj to -> fine s [to] m) ->
  (forall n, has NF_ACYCLIC (nodes s) n = true -> ~ on_cycle n) -> ~ on_cycle to.
Proof.
  intros Hcl Hto Hac (c & Hp & Hlast).
  assert (forall l pre, path adj to (pre ++ l) -> last (pre ++ l) = Some to -> l <> [] ->
    (pre = [] \/ exists a, last pre = Some a /\ has NF_NODEST (nodes s) a = true) -> False) as H.
  { induction l as [|b l IH]; intros pre Hpl Hla Hne Hpre; [done|].
    assert (fine s [to] b) as [Hb Hf].
    { apply path_app in Hpl as [_ [Hin _]]. destruct Hpre as [->|(a & Ha & Hd)]; [by apply Hto|]. rewrite Ha in Hin. by eapply Hcl. }
    destruct Hf as [Hf|[Hf|Hf%list_elem_of_singleton]]; [| |done].
    - destruct l as [|d l]; [rewrite last_snoc in Hla; congruence|].
      apply (IH (pre ++ [b])); [by rewrite <- app_assoc|by rewrite <- app_assoc|done|right; exists b; by rewrite last_snoc].
    - apply (Hac b Hf). destruct l as [|d l]; [rewrite last_snoc in Hla; congruence|].
      change (b :: d :: l) with ([b] ++ (d :: l)) in Hpl, Hla. rewrite app_assoc in Hpl, Hla. apply path_app in Hpl as [H1 H2].
      rewrite last_snoc in H2. exists ((d :: l) ++ (pre ++ [b])). split; [|by rewrite app_assoc, last_snoc].
      apply path_app. split; [done|]. rewrite last_app_cons in Hla. by rewrite Hla. }
  apply (H c []); [done..| |by left]. by intros ->.
Qed.

Lemma find_cycle_spec s : ok s [] -> to ∈ L -> unflagged s to -> (forall n, has NF_NODEST (nodes s) n = true -> adj n = []) ->
  (forall n, has NF_ACYCLIC (nodes s) n = true -> ~ on_cycle n) ->
  exists r s', find_cycle debug longest (S N) to to 0 0 s = Done (r, s') /\ step s s' /\ ok s' [] /\ best s' r /\ (r = 0 -> ~ on_cycle to).
Proof.
  intros Hok Hto Hun Hdead Hac.
  destruct (find_cycle_finds (S N) [] ltac:(cbn; lia) s to 0 []) as (r & s' & E & (Hst & Hok' & _ & _ & Hb) & Hz); try done.
  - apply NoDup_singleton.
  - by apply live_valid.
  - destruct (ok_logs _ _ Hok) as (c & l & Hc & _). by exists c.
  - intros _ n m Hn Hm. rewrite (Hdead n Hn) in Hm. set_solver.
  - set_solver.
  - exists r, s'. split; [done|]. split; [done|]. split; [done|]. split; [done|]. intros Er. destruct (Hz Er) as [Hcl Hto'].
    apply (closed_no_cycle s'); [done|done|]. intros n. rewrite (st_acyclic _ _ Hst). apply Hac.
Qed.
End Search.
