(* ===== verification/TsortCorrect.v ===== *)
(** tsort prints every name once, and in order but for the arcs into the nodes at
    which it reports a cycle. *)

From stdpp Require Import list.
From S2P Require Import Prelude Ctype TsortHash Tsort TsortGraph TsortInput TsortCycle.

(** * What is printed *)

Definition prints (es : list event) : list (list Z) := omap (fun e => match e with Print n => Some n | _ => None end) es.
Definition is_warning (e : event) : bool := match e with Warn_cycle | Warn _ => true | _ => false end.
Definition warnings (es : list event) : list event := List.filter is_warning es.

Lemma prints_app l1 l2 : prints (l1 ++ l2) = prints l1 ++ prints l2.
Proof. apply omap_app. Qed.
Lemma warnings_app l1 l2 : warnings (l1 ++ l2) = warnings l1 ++ warnings l2.
Proof. apply List.filter_app. Qed.

Lemma traces_silent l : Forall is_trace l -> prints l = [] /\ warnings l = [].
Proof. induction 1 as [|e l He _ [IH1 IH2]]; [done|]. destruct e; done. Qed.

(** The lines of a cycle on the standard error. *)
Definition report (name : nat -> list Z) (c : list nat) : list event := Warn_cycle :: (Warn ∘ name <$> c).

(** * A graph without a source has a cycle *)

Lemma duplicate (l : list nat) : ~ NoDup l -> exists l1 x l2 l3, l = l1 ++ x :: l2 ++ x :: l3.
Proof.
  induction l as [|a l IH]; [intros []; constructor|]. intros Hnd. destruct (decide (a ∈ l)) as [(l2 & l3 & ->)%list_elem_of_split|Hn].
  - by exists [], a, l2, l3.
  - destruct IH as (l1 & x & l2 & l3 & ->); [intros ?; apply Hnd; by constructor|]. by exists (a :: l1), x, l2, l3.
Qed.

Lemma backwards adj L n : L <> [] -> (forall n, n ∈ L -> exists m, m ∈ L /\ n ∈ adj m) ->
  exists a l, length l = n /\ path adj a l /\ forall k, k ∈ a :: l -> k ∈ L.
Proof.
  intros Hne Hpre. induction n as [|n (a & l & Hlen & Hp & Hin)].
  - destruct L as [|a L]; [done|]. exists a, []. repeat split. intros k Hk%list_elem_of_singleton. subst. by left.
  - destruct (Hpre a) as (m & Hm & Ha); [apply Hin; by left|]. exists m, (a :: l). cbn [length path]. split; [lia|]. split; [done|].
    intros k [->|Hk]%elem_of_cons; [done|by apply Hin].
Qed.

Lemma no_source_cycle adj L : L <> [] -> (forall n, n ∈ L -> exists m, m ∈ L /\ n ∈ adj m) -> exists n, n ∈ L /\ on_cycle adj n.
Proof.
  intros Hne Hpre. destruct (backwards adj L (length L) Hne Hpre) as (a & l & Hlen & Hp & Hin).
  destruct (duplicate (a :: l)) as (l1 & x & l2 & l3 & E).
  { intros Hnd. assert (length (a :: l) <= length L)%nat as Hle; [|cbn in Hle; lia].
    by apply submseteq_length, NoDup_submseteq. }
  exists x. split; [apply Hin; rewrite E; set_solver|]. exists (l2 ++ [x]). split; [|apply last_snoc].
  assert (path adj x (l2 ++ x :: l3)) as Hx.
  { destruct l1 as [|b l1]; cbn in E; injection E as -> ->; [done|]. apply path_app in Hp as [_ [_ Hp]]. done. }
  apply path_app in Hx as [H1 [H2 _]]. apply path_app. done.
Qed.

(** * The invariant of the sort *)

Section Sort.
Variables (debug longest quiet : bool).
Variables (names : list (list Z)) (succ : nat -> list nat).

Definition name (n : nat) : list Z := default [] (names !! n).

(** Every node follows its predecessors, the [broken] ones aside. *)
Definition ordered (P broken : list nat) : Prop :=
  forall P1 i P2, P = P1 ++ i :: P2 -> i ∈ broken \/ forall j, i ∈ succ j -> j ∈ P1.

(** [P] are printed, [L] are left; [cleared] outside a search. *)
Record sorting (cleared : bool) (P : list nat) (cycles : list (list nat)) (L : list nat) (s : state) : Prop := {
  so_graph : graph_ok names succ L s;
  so_perm : P ++ L ≡ₚ seq 0 (length names);
  so_order : ordered P (omap last cycles);
  so_cycles c : c ∈ cycles -> exists n, is_cycle succ n c;
  so_prints : prints (out s) = name <$> P;
  so_warns : warnings (out s) = if quiet then [] else concat (report name <$> cycles);
  so_marks n : has NF_MARK (nodes s) n = false;
  so_dead n : cleared = true -> has NF_NODEST (nodes s) n = true -> n ∉ L;
  so_acyclic n : has NF_ACYCLIC (nodes s) n = true -> ~ on_cycle (adj succ L) n;
  so_logs : match cycle_buf s, longest_cycle s with
            | Some c, Some l => length c = length l /\ (length L <= length c)%nat
            | None, None => True
            | _, _ => False
            end;
  so_none n : (length names <= n)%nat -> succ n = []
}.

Lemma adj_sub L L' n m : (forall k, k ∈ L' -> k ∈ L) -> m ∈ adj succ L' n -> m ∈ adj succ L n.
Proof. intros H. unfold adj. case_decide as H1; [rewrite decide_True by auto; done|set_solver]. Qed.
Lemma adj_succ L n m : m ∈ adj succ L n -> m ∈ succ n.
Proof. unfold adj. case_decide; [done|set_solver]. Qed.

Lemma on_cycle_mono (a a' : nat -> list nat) n : (forall k m, m ∈ a k -> m ∈ a' k) -> on_cycle a n -> on_cycle a' n.
Proof. intros H (c & Hp & Hl). exists c. split; [by eapply path_mono|done]. Qed.

Lemma ordered_snoc P broken n : ordered P broken -> (n ∈ broken \/ forall j, n ∈ succ j -> j ∈ P) -> ordered (P ++ [n]) broken.
Proof.
  intros Ho Hn P1 i P2 E. destruct P2 as [|k P2 _] using rev_ind.
  - apply app_inj_tail in E as [<- <-]. done.
  - change (P1 ++ i :: P2 ++ [k]) with (P1 ++ (i :: P2) ++ [k]) in E. rewrite app_assoc in E. apply app_inj_tail in E as [-> _].
    by eapply Ho.
Qed.

(** Removing a node that has no predecessor left, or one with a reported cycle. *)
Lemma remove_sorting cl P cycles L1 n L2 s : sorting cl P cycles (L1 ++ n :: L2) s ->
  (n ∈ omap last cycles \/ indeg succ (L1 ++ n :: L2) n = 0) ->
  exists s', remove_node n s = Done (tt, s') /\ sorting cl (P ++ [n]) cycles (L1 ++ L2) s' /\ keeps_flags s s' /\
    cycle_buf s' = cycle_buf s /\ longest_cycle s' = longest_cycle s.
Proof.
  intros [Hg Hperm Hord Hcyc Hpr Hw Hm Hd Ha Hlogs Hnone] Hn.
  destruct (remove_node_spec _ _ _ _ _ _ Hg) as (s' & nm & -> & Hg' & Hnm & Es' & Hflags).
  assert (forall f k, has f (nodes s') k = has f (nodes s) k) as Hhas.
  { intros f k. unfold has. specialize (Hflags k). destruct (nodes s' !! k), (nodes s !! k); try done. cbn in Hflags. by injection Hflags as ->. }
  exists s'. split; [done|]. split; [|split; [done|by rewrite Es']]. split; try done.
  - rewrite <- app_assoc. cbn. rewrite Permutation_middle. by rewrite <- Hperm.
  - apply ordered_snoc; [done|]. destruct Hn as [?|Hi]; [by left|right]. intros j Hj.
    assert (j ∈ seq 0 (length names)) as Hjn.
    { rewrite elem_of_seq. destruct (decide (length names <= j)%nat) as [Hle|]; [|lia]. rewrite Hnone in Hj by done. set_solver. }
    rewrite <- Hperm in Hjn. apply elem_of_app in Hjn as [?|HjL]; [done|]. by destruct (indeg_0 _ _ _ Hi j HjL).
  - rewrite Es'. cbn. rewrite prints_app, Hpr, fmap_app. cbn. unfold name at 3. by rewrite Hnm.
  - rewrite Es'. cbn. rewrite warnings_app, Hw. cbn. apply app_nil_r.
  - intros k. by rewrite Hhas.
  - intros k E. rewrite Hhas. intros Hk%(Hd _ E). set_solver.
  - intros k. rewrite Hhas. intros Hk%Ha Hc. apply Hk. apply (on_cycle_mono (adj succ (L1 ++ L2))); [|done]. intros i m. apply adj_sub. set_solver.
  - rewrite Es'. cbn. destruct (cycle_buf s), (longest_cycle s); try done. rewrite length_app in *. cbn in Hlogs. lia.
Qed.

Lemma sorting_head cl P cycles L1 n L2 s : sorting cl P cycles (L1 ++ n :: L2) s ->
  exists x, nodes s !! n = Some x /\ n_refcnt x = indeg succ (L1 ++ n :: L2) n /\ n_next x = head L2.
Proof.
  intros Hs. pose proof (so_graph _ _ _ _ _ Hs) as Hg. destruct (graph_lookup _ _ _ _ n Hg) as (x & Hx & [_ _ Hr]).
  { apply (g_left _ _ _ _ Hg). set_solver. }
  exists x. split; [done|]. split; [done|]. exact (linked_next _ _ _ _ Hx _ _ _ (g_linked _ _ _ _ Hg)).
Qed.

Lemma graph_head cl P cycles L s : sorting cl P cycles L s -> graph s = head L.
Proof.
  intros Hs. pose proof (g_linked _ _ _ _ (so_graph _ _ _ _ _ Hs)) as Hl. destruct L; [done|]. by destruct Hl as [-> _].
Qed.

(** ** The passes over nodes without predecessors *)

Lemma pass_spec L2 : forall fuel L1 cl P cycles s cnt, sorting cl P cycles (L1 ++ L2) s -> (length L2 <= fuel)%nat ->
  exists cnt' P' L2' s', pass fuel (head L2) cnt s = Done (cnt', s') /\ sorting cl P' cycles (L1 ++ L2') s' /\
    ((cnt' = cnt /\ P' = P /\ L2' = L2 /\ forall n, n ∈ L2 -> indeg succ (L1 ++ L2) n <> 0) \/ (cnt < cnt' /\ (length L2' < length L2)%nat)).
Proof.
  induction L2 as [|n L2 IH]; intros fuel L1 cl P cycles s cnt Hs Hf.
  - exists cnt, P, [], s. split; [by destruct fuel|]. split; [done|]. left. set_solver.
  - destruct fuel as [|fuel]; [cbn in Hf; lia|]. destruct (sorting_head _ _ _ _ _ _ _ Hs) as (x & Hx & Hr & Hnext). cbn [pass head].
    rewrite (run_bind _ _ _ _ _ (run_deref _ _ _ Hx)). lazy beta. rewrite Hr, Hnext. destruct (Z.eqb_spec (indeg succ (L1 ++ n :: L2) n) 0) as [E|E].
    + destruct (remove_sorting _ _ _ _ _ _ _ Hs (or_intror E)) as (s1 & E1 & Hs1 & _). rewrite (run_bind _ _ _ _ _ E1). lazy beta.
      destruct (IH fuel L1 _ _ _ _ (cnt + 1) Hs1) as (cnt' & P' & L2' & s' & -> & Hs' & Hcase); [cbn in Hf; lia|].
      exists cnt', P', L2', s'. split; [done|]. split; [done|]. right. destruct Hcase as [(-> & _ & -> & _)|[? ?]]; cbn; lia.
    + assert (L1 ++ n :: L2 = (L1 ++ [n]) ++ L2) as Eapp by by rewrite <- app_assoc. rewrite Eapp in Hs.
      destruct (IH fuel (L1 ++ [n]) _ _ _ _ cnt Hs) as (cnt' & P' & L2' & s' & -> & Hs' & Hcase); [cbn in Hf; lia|].
      exists cnt', P', (n :: L2'), s'. split; [done|]. rewrite <- app_assoc in Hs'. split; [done|].
      destruct Hcase as [(-> & -> & -> & Hin)|[? ?]]; [left|right; cbn; lia]. split_and!; [done..|].
      intros k [->|Hk]%elem_of_cons; [done|]. rewrite Eapp. by apply Hin.
Qed.

Lemma left_short cl P cycles L s : sorting cl P cycles L s -> (length L <= length (nodes s))%nat.
Proof.
  intros Hs. pose proof (so_graph _ _ _ _ _ Hs) as Hg. rewrite (g_len _ _ _ _ Hg).
  apply NoDup_bounded_length; [apply Hg|apply (g_left _ _ _ _ Hg)].
Qed.

Lemma sweep_spec fuel : forall cl P cycles L s, sorting cl P cycles L s -> (length L < fuel)%nat ->
  exists P' L' s', sweep fuel s = Done (tt, s') /\ sorting cl P' cycles L' s' /\ (length L' <= length L)%nat /\
    forall n, n ∈ L' -> indeg succ L' n <> 0.
Proof.
  induction fuel as [|fuel IH]; intros cl P cycles L s Hs Hf; [lia|]. cbn [sweep].
  rewrite (run_bind get _ s s s) by done. lazy beta. rewrite (graph_head _ _ _ _ _ Hs).
  destruct (pass_spec L (S (length (nodes s))) [] cl P cycles s 0 Hs) as (cnt & P1 & L1 & s1 & E & Hs1 & Hcase).
  { pose proof (left_short _ _ _ _ _ Hs). lia. }
  rewrite (run_bind _ _ _ _ _ E). lazy beta. rewrite (run_bind get _ s1 s1 s1) by done. lazy beta. cbn [app] in *.
  rewrite (graph_head _ _ _ _ _ Hs1). destruct Hcase as [(-> & -> & -> & Hin)|[Hlt Hshort]].
  - rewrite andb_false_r. exists P, L, s1. split; [done|]. split; [done|]. split; [done|]. exact Hin.
  - rewrite (proj2 (Z.eqb_neq cnt 0)) by lia. destruct L1 as [|n L1].
    + exists P1, [], s1. cbn. split; [done|]. split; [done|]. split; [lia|set_solver].
    + rewrite bool_decide_false by done. cbn [negb andb]. destruct (IH _ _ _ _ _ Hs1) as (P' & L' & s' & -> & Hs' & Hle & Hin); [lia|].
      exists P', L', s'. split; [done|]. split; [done|]. split; [lia|done].
Qed.

(** ** The search for a cycle *)

Lemma graph_frame L s s' : frame s s' -> graph_ok names succ L s -> graph_ok names succ L s'.
Proof.
  intros Hfr [Hlen Hd Hl Hnode Hleft Hvalid Hsimple].
  split; try done.
  - by rewrite (frame_length _ _ Hfr).
  - rewrite (fr_graph _ _ Hfr). apply (linked_frame (nodes s)); [|done]. intros n _. pose proof (fr_nodes _ _ Hfr n) as E.
    destruct (nodes s' !! n), (nodes s !! n); try done. cbn in *. injection E as E1 E2 _ _ _ _ _. unfold links_of. by rewrite E1, E2.
  - intros n x Hx. pose proof (fr_nodes _ _ Hfr n) as E. rewrite Hx in E. destruct (nodes s !! n) as [y|] eqn:Ey; [|done].
    destruct (Hnode n y Ey) as [Hn Hv Hr]. cbn in E. injection E as _ _ Ea Eb _ Er En. split; [by rewrite En| |by rewrite Er].
    unfold view in *. by rewrite Ea, Eb.
Qed.

Lemma sorting_step cl cl' P cycles L s s' : sorting cl P cycles L s -> frame s s' -> (forall n, has NF_MARK (nodes s') n = false) ->
  (forall n, cl' = true -> has NF_NODEST (nodes s') n = true -> n ∉ L) ->
  (forall n, has NF_ACYCLIC (nodes s') n = true -> ~ on_cycle (adj succ L) n) ->
  match cycle_buf s', longest_cycle s' with
  | Some c, Some l => length c = length l /\ (length L <= length c)%nat
  | None, None => True
  | _, _ => False
  end -> sorting cl' P cycles L s'.
Proof.
  intros [Hg Hperm Hord Hcyc Hpr Hw _ _ _ _ Hnone] Hfr Hm Hd Ha Hlogs. destruct (fr_out _ _ Hfr) as (l & El & [Hl1 Hl2]%traces_silent).
  split; try done; [by eapply graph_frame| |].
  - by rewrite El, prints_app, Hl1, Hpr, app_nil_r.
  - by rewrite El, warnings_app, Hl2, Hw, app_nil_r.
Qed.

Lemma count_nodes_spec L s L2 : graph_ok names succ L s -> forall L1 fuel cnt, L = L1 ++ L2 -> (length L2 <= fuel)%nat ->
  count_nodes fuel (head L2) cnt s = Done (cnt + Z.of_nat (length L2), s).
Proof.
  intros Hg. induction L2 as [|n L2 IH]; intros L1 fuel cnt E Hf; [destruct fuel; cbn; by rewrite Z.add_0_r|].
  destruct fuel as [|fuel]; [cbn in Hf; lia|]. cbn [count_nodes head].
  destruct (graph_lookup _ _ _ _ n Hg) as (x & Hx & _); [apply (g_left _ _ _ _ Hg); rewrite E; set_solver|].
  rewrite (run_bind _ _ _ _ _ (run_deref _ _ _ Hx)). lazy beta. pose proof (g_linked _ _ _ _ Hg) as Hl. rewrite E in Hl.
  rewrite (linked_next _ _ _ _ Hx _ _ _ Hl), (IH (L1 ++ [n])); [|by rewrite <- app_assoc|cbn in Hf; lia]. do 2 f_equal. cbn [length]. lia.
Qed.

Lemma alloc_logs_spec cl P cycles L s : sorting cl P cycles L s ->
  exists s', alloc_logs s = Done (tt, s') /\ sorting cl P cycles L s' /\ is_Some (cycle_buf s').
Proof.
  intros Hs. unfold alloc_logs. rewrite (run_bind get _ s s s) by done. lazy beta. destruct (cycle_buf s) as [c|] eqn:Ec; [by exists s; rewrite Ec|].
  rewrite (graph_head _ _ _ _ _ Hs). pose proof (left_short _ _ _ _ _ Hs) as Hshort.
  rewrite (run_bind _ _ _ _ _ (count_nodes_spec L s L (so_graph _ _ _ _ _ Hs) [] (S (length (nodes s))) 0 eq_refl ltac:(lia))). lazy beta.
  eexists. split; [done|]. split; [|by eexists]. rewrite Z.add_0_l, Nat2Z.id. destruct Hs as [Hg ? ? ? ? ? ? ? ? ? ?].
  split; try done; [by destruct Hg|]. cbn. by rewrite length_replicate.
Qed.

Lemma clear_spec L2 : forall L1 fuel s, graph_ok names succ (L1 ++ L2) s -> (length L2 <= fuel)%nat ->
  exists ns, for_nodes fuel (head L2) (fun n => unflag n NF_NODEST) s = Done (tt, with_nodes s ns) /\ frame s (with_nodes s ns) /\
    forall g k, is_flag g -> has g ns k = has g (nodes s) k && negb (bool_decide (k ∈ L2) && (NF_NODEST =? g)).
Proof.
  induction L2 as [|n L2 IH]; intros L1 fuel s Hg Hf.
  - exists (nodes s). split; [destruct fuel, s; done|]. split; [destruct s; apply frame_refl|]. intros g k _. by rewrite andb_true_r.
  - destruct fuel as [|fuel]; [cbn in Hf; lia|]. cbn [for_nodes head].
    assert (n < length (nodes s))%nat as Hn by (rewrite (g_len _ _ _ _ Hg); apply (g_left _ _ _ _ Hg); set_solver).
    destruct (run_unflag n NF_NODEST s Hn) as (ns & E & Hfr & Hh); [is_a_flag|]. rewrite (run_bind _ _ _ _ _ E). lazy beta.
    pose proof (graph_frame _ _ _ Hfr Hg) as Hg1.
    destruct (lookup_lt_is_Some_2 (nodes (with_nodes s ns)) n) as [x Hx]; [by rewrite (frame_length _ _ Hfr)|].
    rewrite (run_bind _ _ _ _ _ (run_deref _ _ _ Hx)). lazy beta. rewrite (linked_next _ _ _ _ Hx _ _ _ (g_linked _ _ _ _ Hg1)).
    rewrite (cons_middle n L1 L2), app_assoc in Hg1.
    destruct (IH (L1 ++ [n]) fuel _ Hg1) as (ns' & -> & Hfr' & Hh'); [cbn in Hf; lia|]. exists ns'. split; [done|].
    split; [by eapply frame_trans|]. intros g k Hgf. rewrite Hh', Hh by done. cbn [nodes with_nodes].
    rewrite <- andb_assoc. f_equal. destruct (NF_NODEST =? g); rewrite ?andb_true_r, ?andb_false_r; [|done].
    rewrite <- negb_orb. f_equal. rewrite <- bool_decide_or. apply bool_decide_ext. set_solver.
Qed.

(** Clearing makes a search complete. *)
Lemma clear_cycle_spec P cycles L s fuel : sorting false P cycles L s -> (length L <= fuel)%nat ->
  exists s', clear_cycle fuel s = Done (tt, s') /\ sorting true P cycles L s' /\ cycle_buf s' = cycle_buf s.
Proof.
  intros Hs Hf. unfold clear_cycle. rewrite (run_bind get _ s s s) by done. lazy beta. rewrite (graph_head _ _ _ _ _ Hs).
  destruct (clear_spec L [] fuel s (so_graph _ _ _ _ _ Hs) Hf) as (ns & -> & Hfr & Hh). eexists. split; [done|]. split; [|done].
  apply (sorting_step _ _ _ _ _ _ _ Hs Hfr).
  - intros n. cbn. rewrite Hh by is_a_flag. by rewrite (so_marks _ _ _ _ _ Hs).
  - intros n _. cbn. rewrite Hh by is_a_flag. rewrite andb_true_iff, andb_true_r, negb_true_iff, bool_decide_eq_false. by intros [_ ?].
  - intros n. cbn. rewrite Hh by is_a_flag. rewrite andb_true_iff. intros [Hn _]. by apply (so_acyclic _ _ _ _ _ Hs).
  - apply (so_logs _ _ _ _ _ Hs).
Qed.

(** ** Reporting *)

Lemma run_warns L l : forall s, graph_ok names succ L s -> (forall n, n ∈ l -> (n < length names)%nat) ->
  each (Some <$> l) warn_cell s = Done (tt, State (nodes s) (graph s) (db s) (cycle_buf s) (longest_cycle s) (out s ++ (Warn ∘ name <$> l))).
Proof.
  induction l as [|n l IH]; intros s Hg Hv; [cbn; rewrite app_nil_r; by destruct s|].
  destruct (graph_lookup _ _ _ _ n Hg) as (x & Hx & [Hn _ _]); [apply Hv; set_solver|]. cbn [fmap list_fmap each].
  rewrite (run_bind (warn_cell (Some n)) _ s tt (State (nodes s) (graph s) (db s) (cycle_buf s) (longest_cycle s) (out s ++ [Warn (n_name x)]))).
  2:{ unfold warn_cell. rewrite (run_bind (of_option (Some n)) _ s n s) by done. lazy beta.
      by rewrite (run_bind _ _ _ _ _ (run_deref _ _ _ Hx)). }
  lazy beta. rewrite IH.
  - cbn. rewrite <- app_assoc. cbn. unfold name at 2. by rewrite Hn.
  - destruct Hg. by split.
  - intros k Hk. apply Hv. set_solver.
Qed.

Lemma path_valid a l : (forall n m, m ∈ succ n -> (m < length names)%nat) -> path succ a l -> forall n, n ∈ l -> (n < length names)%nat.
Proof. intros Hv. revert a. induction l as [|b l IH]; intros a; [set_solver|]. intros [Hb Hp] n [->|Hn]%elem_of_cons; [by eapply Hv|by eapply IH]. Qed.

Lemma run_report P cycles L s l c r n : sorting false P cycles L s -> longest_cycle s = Some l ->
  take (Z.to_nat r) l = Some <$> c -> Z.of_nat (length c) = r -> is_cycle succ n c ->
  exists s', (if quiet then mret tt else emit Warn_cycle;; warn_loop r : prog unit) s = Done (tt, s') /\
    sorting false P (cycles ++ [c]) L s' /\ cycle_buf s' = cycle_buf s.
Proof.
  intros [Hg Hperm Hord Hcyc Hpr Hw Hm Hd Ha Hlogs Hnone] Hl Ht Hlen Hc.
  assert (ordered P (omap last (cycles ++ [c]))) as Hord'.
  { intros P1 i P2 E. destruct (Hord _ _ _ E); [left|by right]. rewrite omap_app. set_solver. }
  assert (forall d, d ∈ cycles ++ [c] -> exists n, is_cycle succ n d) as Hcyc'.
  { intros d [?|Hd'%list_elem_of_singleton]%elem_of_app; [by apply Hcyc|]. subst. by exists n. }
  destruct quiet eqn:Eq; [exists s; split; [done|]; split; [split; try done; by rewrite Eq|done]|].
  assert (forall k, k ∈ c -> (k < length names)%nat) as Hv by (apply (path_valid n); [apply (g_valid _ _ _ _ Hg)|apply Hc]).
  unfold emit. rewrite (run_bind _ _ s tt (State (nodes s) (graph s) (db s) (cycle_buf s) (longest_cycle s) (out s ++ [Warn_cycle]))) by done.
  lazy beta. unfold warn_loop. set (s1 := State _ _ _ _ _ _). rewrite (run_bind get _ s1 s1 s1) by done. lazy beta. subst s1. cbn [longest_cycle].
  rewrite Hl. cbn [of_option]. set (s1 := State _ _ _ _ _ _). rewrite (run_bind (mret l) _ s1 l s1) by done. lazy beta.
  assert (length c <= length l)%nat as Hle by (apply (f_equal length) in Ht; rewrite length_fmap, length_take in Ht; lia).
  rewrite (proj2 (Z.leb_le _ _)) by lia. rewrite Ht, (run_warns L c) by (destruct Hg; by split || done). subst s1.
  eexists. split; [done|]. split; [|done]. cbn [nodes graph db cycle_buf longest_cycle out]. split; try done.
  - destruct Hg. by split.
  - cbn. rewrite !prints_app, Hpr. cbn. assert (prints (Warn ∘ name <$> c) = []) as -> by (clear; by induction c). by rewrite !app_nil_r.
  - rewrite Eq. cbn. rewrite !warnings_app, Hw, fmap_app, concat_app. cbn. rewrite app_nil_r, <- app_assoc. f_equal. f_equal.
    clear. induction c as [|k c IH]; [done|]. cbn. by f_equal.
  - cbn. by rewrite Hl in Hlogs.
Qed.

(** ** Searching all nodes *)

Lemma run_find P cycles L s n c0 : sorting true P cycles L s -> n ∈ L -> cycle_buf s = Some c0 -> has NF_ACYCLIC (nodes s) n = false ->
  exists r s', find_cycle debug longest (S (length (nodes s))) n n 0 0 s = Done (r, s') /\ sorting false P cycles L s' /\
    (exists c1, cycle_buf s' = Some c1) /\ (forall k, has NF_ACYCLIC (nodes s') k = has NF_ACYCLIC (nodes s) k) /\
    (r = 0 -> ~ on_cycle (adj succ L) n) /\
    (r <> 0 -> exists l c, longest_cycle s' = Some l /\ take (Z.to_nat r) l = Some <$> c /\ Z.of_nat (length c) = r /\ is_cycle succ n c).
Proof.
  intros Hs Hn Hc0 Hun. pose proof Hs as [Hg _ _ _ _ _ Hm Hd Ha Hlogs _]. rewrite Hc0 in Hlogs.
  destruct (longest_cycle s) as [l0|] eqn:Hl0; [|done]. destruct Hlogs as [Hlen Hcap]. rewrite (g_len _ _ _ _ Hg).
  destruct (find_cycle_spec debug longest (length names) (adj succ L) L (length c0)) with (to := n) (s := s)
    as (r & s' & E & [Hfr Hdead Hac] & [Hlen' Hview' Hmarks' (c1 & l1 & Hc1 & Hl1 & Hlc1 & Hll1)] & Hbest & Hz).
  - intros k m. unfold adj. case_decide; set_solver.
  - intros k m Hk%adj_succ. by apply (g_valid _ _ _ _ Hg) in Hk.
  - apply (g_left _ _ _ _ Hg).
  - done.
  - split; [apply (g_len _ _ _ _ Hg)|intros k x Hx; by destruct (g_node _ _ _ _ Hg k x Hx)|intros k; rewrite Hm; set_solver|].
    by exists c0, l0.
  - done.
  - split; [done|]. split; [done|]. destruct (has NF_NODEST (nodes s) n) eqn:E; [|done]. by apply Hd in E.
  - intros k Hk. unfold adj. rewrite decide_False; [done|]. by apply Hd.
  - done.
  - exists r, s'. split; [done|]. split; [|split; [by eexists|split; [done|split; [done|]]]].
    + apply (sorting_step _ _ _ _ _ _ _ Hs Hfr); try done.
      * intros k. specialize (Hmarks' k). destruct (has NF_MARK (nodes s') k); [|done]. assert (k ∈ []) as Hk by by apply Hmarks'. set_solver.
      * intros k. rewrite Hac. apply Ha.
      * rewrite Hc1, Hl1. split; [congruence|lia].
    + intros Hr. destruct Hbest as [H0 Hb]. destruct (Hb ltac:(lia)) as (l & c & Hl & Ht & Hlc & [Hp Hlast]).
      exists l, c. split; [done|]. split; [done|]. split; [done|]. split; [|done]. eapply path_mono; [|done]. intros k m. apply adj_succ.
Qed.

Lemma search_all L2 : forall fuel L1 P cycles s, sorting true P cycles (L1 ++ L2) s -> is_Some (cycle_buf s) -> (length L2 <= fuel)%nat ->
  (forall n, n ∈ L1 -> ~ on_cycle (adj succ (L1 ++ L2)) n) ->
  exists r s', search debug longest quiet fuel (head L2) s = Done (r, s') /\
    match r with
    | None => forall n, n ∈ L1 ++ L2 -> ~ on_cycle (adj succ (L1 ++ L2)) n
    | Some _ => exists P' c L', sorting true P' (cycles ++ [c]) L' s' /\ (length L' < length (L1 ++ L2))%nat
    end.
Proof.
  induction L2 as [|n L2 IH]; intros fuel L1 P cycles s Hs [c0 Hc0] Hf Hno.
  - exists None, s. split; [by destruct fuel|]. by rewrite app_nil_r in *.
  - destruct fuel as [|fuel]; [cbn in Hf; lia|]. cbn [length] in Hf. cbn [search head].
    destruct (sorting_head _ _ _ _ _ _ _ Hs) as (x & Hx & _ & Hnext). rewrite (run_bind _ _ _ _ _ (run_deref _ _ _ Hx)). lazy beta.
    assert (L1 ++ n :: L2 = (L1 ++ [n]) ++ L2) as Eapp by by rewrite <- app_assoc.
    assert (forall P s, sorting true P cycles (L1 ++ n :: L2) s -> is_Some (cycle_buf s) -> ~ on_cycle (adj succ (L1 ++ n :: L2)) n ->
      exists r s', search debug longest quiet fuel (head L2) s = Done (r, s') /\
        match r with
        | None => forall n', n' ∈ L1 ++ n :: L2 -> ~ on_cycle (adj succ (L1 ++ n :: L2)) n'
        | Some _ => exists P' c L', sorting true P' (cycles ++ [c]) L' s' /\ (length L' < length (L1 ++ n :: L2))%nat
        end) as Hnextnode.
    { intros P1 s1 Hs1 Hb1 Hn1. rewrite Eapp in *. apply (IH fuel (L1 ++ [n]) P1); [done|done|lia|].
      intros k [Hk|Hk%list_elem_of_singleton]%elem_of_app; [by apply Hno|by subst]. }
    destruct (tst (n_flags x) NF_ACYCLIC) eqn:Et.
    + rewrite Hnext. apply (Hnextnode P); [done|by eexists|]. apply (so_acyclic _ _ _ _ _ Hs). unfold has. by rewrite Hx.
    + rewrite (run_bind get _ s s s) by done. lazy beta zeta.
      destruct (run_find P cycles _ s n c0 Hs) as (r & s1 & E1 & Hs1 & [c1 Hc1] & Hac & Hz & Hnz); [set_solver|done|unfold has; by rewrite Hx|].
      rewrite (run_bind _ _ _ _ _ E1). lazy beta. assert (length (nodes s1) = length (nodes s)) as Hlen
        by (rewrite (g_len _ _ _ _ (so_graph _ _ _ _ _ Hs1)); by rewrite (g_len _ _ _ _ (so_graph _ _ _ _ _ Hs))).
      destruct (Z.eqb_spec r 0) as [->|Hr]; cbn [negb].
      * destruct (run_flag n NF_ACYCLIC s1) as (ns & E2 & Hfr & Hh); [rewrite Hlen; by eapply lookup_lt_Some|is_a_flag|].
        rewrite (run_bind _ _ _ _ _ E2). lazy beta.
        assert (sorting false P cycles (L1 ++ n :: L2) (with_nodes s1 ns)) as Hs2.
        { apply (sorting_step _ _ _ _ _ _ _ Hs1 Hfr); try done.
          - intros k. cbn. rewrite Hh by is_a_flag. by rewrite (so_marks _ _ _ _ _ Hs1), andb_false_r.
          - intros k. cbn. rewrite Hh by is_a_flag. rewrite orb_true_iff, andb_true_r, bool_decide_eq_true.
            intros [Hk| ->]; [by apply (so_acyclic _ _ _ _ _ Hs1)|by apply Hz].
          - apply (so_logs _ _ _ _ _ Hs1). }
        destruct (clear_cycle_spec _ _ _ _ (S (length (nodes s))) Hs2) as (s3 & E3 & Hs3 & Hb3).
        { pose proof (left_short _ _ _ _ _ Hs). lia. }
        rewrite (run_bind _ _ _ _ _ E3). lazy beta.
        destruct (sorting_head _ _ _ _ _ _ _ Hs3) as (x3 & Hx3 & _ & Hnext3). rewrite (run_bind _ _ _ _ _ (run_deref _ _ _ Hx3)). lazy beta.
        rewrite Hnext3. apply (Hnextnode P); [done|rewrite Hb3; by eexists|by apply Hz].
      * destruct (Hnz Hr) as (l & c & Hl & Ht & Hlc & Hcyc). destruct (run_report P cycles _ s1 l c r n Hs1 Hl Ht Hlc Hcyc) as (s2 & E2 & Hs2 & Hb2).
        rewrite (run_bind _ _ _ _ _ E2). lazy beta.
        destruct (remove_sorting _ _ _ _ _ _ _ Hs2) as (s3 & E3 & Hs3 & _ & Hb3 & _).
        { left. rewrite omap_app. cbn. destruct Hcyc as [_ ->]. set_solver. }
        rewrite (run_bind _ _ _ _ _ E3). lazy beta.
        destruct (clear_cycle_spec _ _ _ _ (S (length (nodes s))) Hs3) as (s4 & E4 & Hs4 & _).
        { pose proof (left_short _ _ _ _ _ Hs) as Hsh. rewrite !length_app in *. cbn in Hsh. lia. }
        rewrite (run_bind _ _ _ _ _ E4). exists (Some n), s4. split; [done|]. exists (P ++ [n]), c, (L1 ++ L2). split; [done|].
        rewrite !length_app. cbn. lia.
Qed.

Lemma tsort_loop_spec fuel : forall P cycles L s, sorting true P cycles L s -> (length L < fuel)%nat ->
  exists P' cycles' s', tsort_loop debug longest quiet fuel s = Done (tt, s') /\ sorting true P' cycles' [] s'.
Proof.
  induction fuel as [|fuel IH]; intros P cycles L s Hs Hf; [lia|]. cbn [tsort_loop].
  rewrite (run_bind get _ s s s) by done. lazy beta. rewrite (graph_head _ _ _ _ _ Hs). destruct L as [|n L]; [by exists P, cycles, s|].
  cbn [head]. destruct (sweep_spec (S (length (nodes s))) _ _ _ _ _ Hs) as (P1 & L1 & s1 & E1 & Hs1 & Hle & Hpos).
  { pose proof (left_short _ _ _ _ _ Hs). lia. }
  rewrite (run_bind _ _ _ _ _ E1). lazy beta. rewrite (run_bind get _ s1 s1 s1) by done. lazy beta. rewrite (graph_head _ _ _ _ _ Hs1).
  destruct L1 as [|m L1]; [by exists P1, cycles, s1|]. cbn [head].
  destruct (alloc_logs_spec _ _ _ _ _ Hs1) as (s2 & E2 & Hs2 & Hb2). rewrite (run_bind _ _ _ _ _ E2). lazy beta.
  destruct (search_all (m :: L1) (S (length (nodes s1))) [] P1 cycles s2 Hs2 Hb2) as (r & s3 & E3 & Hr).
  { pose proof (left_short _ _ _ _ _ Hs1). lia. }
  { set_solver. }
  change (head (m :: L1)) with (Some m) in E3. rewrite (run_bind _ _ _ _ _ E3). lazy beta. cbn [app] in Hr. destruct r as [k|].
  - destruct Hr as (P' & c & L' & Hs3 & Hlt). apply (IH P' (cycles ++ [c]) L'); [done|]. cbn [length] in *. lia.
  - exfalso. destruct (no_source_cycle (adj succ (m :: L1)) (m :: L1)) as (k & Hk & Hcyc); [done| |by apply (Hr k)].
    intros k Hk. destruct (indeg_pos _ _ _ (Hpos k Hk)) as (j & Hj & Hin). exists j. split; [done|]. unfold adj. by rewrite decide_True.
Qed.
End Sort.

(** * tsort on its input *)

(** [a] comes before [b] in the input; an arc of a word to itself only makes a node. *)
Definition arc (ws : list (list Z)) (a b : list Z) : Prop := (a, b) ∈ pairs_of ws /\ a <> b.

Fixpoint route {A} (R : A -> A -> Prop) (a : A) (l : list A) : Prop :=
  match l with [] => True | b :: l => R a b /\ route R b l end.
(** From the last word of [c] along [c] back to it. *)
Definition is_loop (ws c : list (list Z)) : Prop := exists a, last c = Some a /\ route (arc ws) a c.
Definition reported (c : list (list Z)) : list event := Warn_cycle :: (Warn <$> c).

Lemma pairs_of_elem {A} (ws : list A) : Nat.odd (length ws) = false -> forall a, a ∈ ws <-> exists p, p ∈ pairs_of ws /\ (a = p.1 \/ a = p.2).
Proof.
  remember (length ws) as n eqn:E. revert ws E. induction n as [n IH] using lt_wf_ind. intros [|x [|y ws]] E Ho a; subst n.
  - set_solver.
  - done.
  - cbn [pairs_of]. rewrite !elem_of_cons, (IH (length ws)) by (cbn in *; lia || done). split.
    + intros [->|[->|(p & ? & ?)]]; [exists (x, y)|exists (x, y)|exists p]; set_solver.
    + intros (p & [->|?]%elem_of_cons & Hp); [naive_solver|right; right; eauto].
Qed.

Lemma name_lookup names n : (n < length names)%nat -> names !! n = Some (name names n).
Proof. intros [w Hw]%lookup_lt_is_Some. unfold name. by rewrite Hw. Qed.

Lemma names_seq names : name names <$> seq 0 (length names) = names.
Proof.
  apply list_eq. intros i. rewrite list_lookup_fmap. destruct (decide (i < length names)%nat) as [Hi|Hi].
  - rewrite lookup_seq_lt by done. cbn. by rewrite name_lookup.
  - rewrite !lookup_ge_None_2; [done|lia|rewrite length_seq; lia].
Qed.

Lemma path_route names ws succ s : built names (pairs_of ws) succ s -> forall l a, (a < length names)%nat -> path succ a l ->
  route (arc ws) (name names a) (name names <$> l).
Proof.
  intros Hb. induction l as [|b l IH]; intros a Ha; [done|]. intros [Hab Hp].
  pose proof (g_valid _ _ _ _ (b_graph _ _ _ _ Hb) _ _ Hab) as Hbl. split; [|by apply IH].
  by apply (b_arcs _ _ _ _ Hb a b); [apply name_lookup..|].
Qed.

Lemma built_sorting quiet names pairs succ s : built names pairs succ s -> sorting quiet names succ true [] [] (rev (seq 0 (length names))) s.
Proof.
  intros Hb. pose proof Hb as [Hg _ _ _ _ Hnone Hsize (Hc & Hl & Ho)].
  assert (forall f n, has f (nodes s) n = false) as Hno.
  { intros f n. unfold has. destruct (nodes s !! n) as [x|] eqn:Hx; [|done]. destruct (Hsize n x Hx) as [-> _]. done. }
  split; try done.
  - cbn. symmetry. apply Permutation_rev.
  - intros [] ? ?; discriminate.
  - set_solver.
  - by rewrite Ho.
  - rewrite Ho. by destruct quiet.
  - intros n _. by rewrite Hno.
  - intros n. by rewrite Hno.
  - by rewrite Hc, Hl.
Qed.

Section Main.
Variables (debug longest quiet : bool).

(** An input with an odd number of words is refused. *)
Lemma tsort_odd input : Z.of_nat (length input) < 2 ^ 26 -> Nat.odd (length (words input)) = true ->
  tsort_main debug longest quiet input = Failed "odd data count".
Proof.
  intros Hlen Hodd. destruct (input_spec input Hlen) as (succ & s & E & _). unfold tsort_main, main. fold init_state.
  rewrite (run_bind _ _ _ _ _ E). lazy beta. by rewrite length_fmap, Hodd.
Qed.

(** C13. tsort ends on every input with an even number of words and prints each word
    once.  A word is printed behind all that come before it in some pair, unless it
    closes a cycle; each cycle it reports is one of the input.  No memory is
    accessed that the program does not own, and the search for a cycle never comes
    back empty. *)
Theorem tsort_sorts input : Z.of_nat (length input) < 2 ^ 26 -> Nat.odd (length (words input)) = false ->
  let ws := cstr <$> words input in
  exists es cycles, tsort_main debug longest quiet input = Done es /\
    NoDup (prints es) /\ (forall a, a ∈ prints es <-> a ∈ ws) /\
    warnings es = (if quiet then [] else concat (reported <$> cycles)) /\ Forall (is_loop ws) cycles /\
    forall l1 b l2, prints es = l1 ++ b :: l2 -> b ∈ omap last cycles \/ forall a, arc ws a b -> a ∈ l1.
Proof.
  intros Hlen Hodd ws. destruct (input_spec input Hlen) as (succ & s & E & Hb). fold ws in E, Hb.
  set (names := add_names [] (pairs_of ws)) in *.
  destruct (tsort_loop_spec debug longest quiet names succ (S (length (nodes s))) _ _ _ _ (built_sorting quiet _ _ _ _ Hb)) as (P & cycles & s' & E' & Hs).
  { rewrite length_rev, length_seq. pose proof (g_len _ _ _ _ (b_graph _ _ _ _ Hb)). lia. }
  exists (out s'), ((fun c : list nat => name names <$> c) <$> (cycles : list (list nat))). split.
  { unfold tsort_main, main. fold init_state. rewrite (run_bind _ _ _ _ _ E). lazy beta. unfold ws. rewrite length_fmap, Hodd.
    unfold tsort. rewrite (run_bind get _ s s s) by done. lazy beta. by rewrite E'. }
  destruct Hs as [Hg Hperm Hord Hcyc Hpr Hw _ _ _ _ _]. rewrite app_nil_r in Hperm.
  assert (name names <$> P ≡ₚ names) as Hnames by (by rewrite Hperm, names_seq).
  assert (forall a, a ∈ names <-> a ∈ ws) as Hin.
  { intros a. subst names. rewrite add_names_spec, (pairs_of_elem ws) by (unfold ws; by rewrite length_fmap). set_solver. }
  assert (forall i, i ∈ P -> (i < length names)%nat) as Hlt by (intros i; rewrite Hperm, elem_of_seq; lia).
  split; [rewrite Hpr, Hnames; apply (b_distinct _ _ _ _ Hb)|]. split; [intros a; by rewrite Hpr, Hnames|]. split; [|split].
  - rewrite Hw. destruct quiet; [done|]. f_equal. rewrite <- list_fmap_compose. apply list_fmap_ext. intros _ c _. unfold report, reported. cbn.
    by rewrite <- list_fmap_compose.
  - apply Forall_forall. intros d (c & -> & Hc)%list_elem_of_fmap. destruct (Hcyc c Hc) as (n & Hp & Hl). exists (name names n).
    split; [by rewrite fmap_last, Hl|]. apply (path_route _ _ _ _ Hb); [|done].
    apply last_Some_elem_of in Hl. apply (path_valid names succ n c); [apply (g_valid _ _ _ _ Hg)|done..].
  - intros l1 b l2 Eb. rewrite Hpr in Eb. apply fmap_app_inv in Eb as (P1 & P2' & -> & E2 & EP).
    destruct P2' as [|i P2]; [done|]. cbn in E2. injection E2 as -> ->. destruct (Hord P1 i P2 EP) as [Hi|Hi]; [left|right].
    + apply list_elem_of_omap in Hi as (c & Hc & Hl). apply list_elem_of_omap. exists (name names <$> c). split; [by apply list_elem_of_fmap_2|].
      by rewrite fmap_last, Hl.
    + intros a Ha. assert (a ∈ names) as [j Hj]%list_elem_of_lookup by (by apply (b_pairs _ _ _ _ Hb a (name names i)); apply Ha).
      apply list_elem_of_fmap. exists j. split; [unfold name; by rewrite Hj|]. apply Hi.
      apply (b_arcs _ _ _ _ Hb j i a (name names i)); [done| |done]. apply name_lookup, Hlt. rewrite EP. set_solver.
Qed.
End Main.

Lemma tsort_sorts_witness :
  exists es cycles, tsort_main false false false (codes "a b b c c a b d") = Done es /\
    NoDup (prints es) /\ warnings es = concat (reported <$> cycles) /\ prints es = [codes "c"; codes "a"; codes "b"; codes "d"].
Proof.
  destruct (tsort_sorts false false false (codes "a b b c c a b d")) as (es & cycles & E & Hd & _ & Hw & _).
  - vm_compute. reflexivity.
  - reflexivity.
  - exists es, cycles. split; [exact E|]. split; [exact Hd|]. split; [exact Hw|].
    assert (tsort_main false false false (codes "a b b c c a b d") = Done
      [Warn_cycle; Warn (codes "a"); Warn (codes "b"); Warn (codes "c"); Print (codes "c"); Print (codes "a"); Print (codes "b"); Print (codes "d")]) as E'
      by (vm_compute; reflexivity).
    rewrite E' in E. injection E as <-. reflexivity.
Defined.

(** With [-l] the search is for the longest cycle, but a node that was visited while
    the way back was blocked stays marked as leading nowhere: here the cycle of n, x
    and y is missed. *)
Lemma tsort_longest_missed :
  let input := codes "y x x y y n n y n x" in
  tsort_main false true false input =
    Done (reported [codes "y"; codes "n"] ++ [Print (codes "n")] ++ reported [codes "y"; codes "x"] ++ [Print (codes "x"); Print (codes "y")]) /\
  is_loop (cstr <$> words input) [codes "x"; codes "y"; codes "n"].
Proof.
  split; [vm_compute; reflexivity|]. exists (codes "n"). split; [done|]. unfold arc.
  repeat split; try done; change (cstr <$> words (codes "y x x y y n n y n x")) with (codes <$> ["y"; "x"; "x"; "y"; "y"; "n"; "n"; "y"; "n"; "x"]%string); cbn [pairs_of fmap list_fmap]; set_solver.
Qed.
