(* ===== verification/FindPlan.v ===== *)
(** The plans of find (src.freebsd/findutils/find/operator.c, find.c, function.c):
    the list of nodes made from the command line, and the three passes that turn
    parentheses, [!] and [-o] into nodes with plans of their own.

    A plan is the list of its nodes along [next].  The nodes are moved from list to
    list and never shared, so that no store is needed.  [p_data] of a new node is
    not initialised ([None]); reading it is [Fault].  The primaries, with what they
    do and whether they leave the program, are parameters. *)

From stdpp Require Import list.
From S2P Require Import Prelude.

Inductive res (A : Type) : Type := Ok (a : A) | Errx (message : string) | Fault.
Arguments Ok {A} a.
Arguments Errx {A} message.
Arguments Fault {A}.
#[export] Instance res_ret : MRet res := fun _ a => Ok a.
#[export] Instance res_bind : MBind res := fun _ _ f m =>
  match m with Ok a => f a | Errx e => Errx e | Fault => Fault end.

Section Plan.
Context {P : Type}.

(** [execute]: the operators are told apart by their functions. *)
Inductive execute := f_openparen | f_closeparen | f_not | f_or | f_expr | f_prim (p : P).
Inductive plan_node := Node (ex : execute) (p_data0 p_data1 : option (list plan_node)).

Definition exec_of (n : plan_node) : execute := match n with Node ex _ _ => ex end.
(** [palloc]. *)
Definition palloc (ex : execute) : plan_node := Node ex None None.

Definition is_open (n : plan_node) : bool := match exec_of n with f_openparen => true | _ => false end.
Definition is_close (n : plan_node) : bool := match exec_of n with f_closeparen => true | _ => false end.
Definition is_not (n : plan_node) : bool := match exec_of n with f_not => true | _ => false end.
Definition is_or (n : plan_node) : bool := match exec_of n with f_or => true | _ => false end.
Definition is_expr (n : plan_node) : bool := match exec_of n with f_expr => true | _ => false end.

Definition yanknode (plan : list plan_node) : option plan_node * list plan_node :=
  match plan with [] => (None, []) | n :: plan => (Some n, plan) end.

(** ** Parentheses *)

(** [loop] is the [for] loop behind a ['(']: the nodes up to its [')']. *)
Fixpoint yankexpr (fuel : nat) (plan : list plan_node) : res (option plan_node * list plan_node) :=
  match fuel with
  | O => Fault
  | S fuel =>
    match yanknode plan with
    | (None, plan) => Ok (None, plan)
    | (Some node, plan) =>
      if is_open node then
        '(subplan, plan) ← yank_loop fuel [] plan;
        match node with Node _ _ d1 => Ok (Some (Node f_expr (Some subplan) d1), plan) end
      else Ok (Some node, plan)
    end
  end
with yank_loop (fuel : nat) (subplan plan : list plan_node) : res (list plan_node * list plan_node) :=
  match fuel with
  | O => Fault
  | S fuel =>
    '(next, plan) ← yankexpr fuel plan;
    match next with
    | None => Errx "(: missing closing ')'"
    | Some next =>
      if is_close next then
        match subplan with [] => Errx "(): empty inner expression" | _ => Ok (subplan, plan) end
      else yank_loop fuel (subplan ++ [next]) plan
    end
  end.

Fixpoint paren_loop (fuel : nat) (result plan : list plan_node) : res (list plan_node) :=
  match fuel with
  | O => Fault
  | S fuel =>
    '(expr, plan) ← yankexpr (2 * length plan + 1) plan;
    match expr with
    | None => Ok result
    | Some expr => if is_close expr then Errx "): no beginning '('" else paren_loop fuel (result ++ [expr]) plan
    end
  end.
Definition paren_squish (plan : list plan_node) : res (list plan_node) := paren_loop (length plan + 1) [] plan.

(** ** Not *)

(** The [while] loop that counts the [!]s in front of an expression, and what is done
    with [next], the first of them.  [squish] is the treatment of a node that may be an
    expression. *)
Definition nots (squish : plan_node -> res plan_node) (loop : list plan_node -> res (list plan_node)) (next : plan_node) :
    Z -> list plan_node -> res (list plan_node) :=
  fix nots notlevel plan :=
  match plan with
  | [] => Errx "!: no following expression"
  | node :: plan =>
    if is_not node then nots (notlevel + 1) plan
    else if is_or node then Errx "!: nothing between ! and -o"
    else
      node ← squish node;
      let next := if negb (notlevel mod 2 =? 1) then node
                  else match next with Node ex _ d1 => Node ex (Some [node]) d1 end in
      rest ← loop plan; Ok (next :: rest)
  end.

Definition not_loop (squish : plan_node -> res plan_node) : list plan_node -> res (list plan_node) :=
  fix loop plan :=
  match plan with
  | [] => Ok []
  | next :: plan =>
    if is_not next then nots squish loop next 1 plan
    else next ← squish next; rest ← loop plan; Ok (next :: rest)
  end.

(** [next->p_data[0] = not_squish(next->p_data[0])] for an expression. *)
Fixpoint not_expr (n : plan_node) : res plan_node :=
  match n with
  | Node f_expr (Some sub) d1 => sub ← not_loop not_expr sub; Ok (Node f_expr (Some sub) d1)
  | Node f_expr None _ => Fault
  | _ => Ok n
  end.
Definition not_squish (plan : list plan_node) : res (list plan_node) := not_loop not_expr plan.

(** ** Or *)

Definition or_loop (squish : plan_node -> res plan_node) : list plan_node -> list plan_node -> res (list plan_node) :=
  fix loop result plan :=
  match plan with
  | [] => Ok result
  | next :: plan =>
    next ← squish next;
    if is_or next then
      match result with
      | [] => Errx "-o: no expression before -o"
      | _ =>
        right ← loop [] plan;
        match right with
        | [] => Errx "-o: no expression after -o"
        | _ => Ok [Node f_or (Some result) (Some right)]
        end
      end
    else loop (result ++ [next]) plan
  end.

(** The plans inside an expression or a not. *)
Fixpoint or_inside (n : plan_node) : res plan_node :=
  match n with
  | Node (f_expr | f_not) (Some sub) d1 => sub ← or_loop or_inside [] sub; Ok (Node (exec_of n) (Some sub) d1)
  | Node (f_expr | f_not) None _ => Fault
  | _ => Ok n
  end.
Definition or_squish (plan : list plan_node) : res (list plan_node) := or_loop or_inside [] plan.

Definition squish (plan : list plan_node) : res (list plan_node) :=
  plan ← paren_squish plan; plan ← not_squish plan; or_squish plan.

(** ** find_formplan *)

(** [created] are the results of [find_create]: [-a] makes no node.  [print] is the
    [-print] that is added when no primary has output. *)
Definition find_formplan (print : P) (isoutput : bool) (created : list (option execute)) : res (list plan_node) :=
  let plan := omap (fmap palloc) created in
  let plan := if isoutput then plan
              else match plan with
                   | [] => [palloc (f_prim print)]
                   | _ => palloc f_openparen :: plan ++ [palloc f_closeparen; palloc (f_prim print)]
                   end in
  squish plan.

(** ** Execution *)

(** What a primary does to a file: its answer, or [None] when it leaves the program. *)
Context {E St : Type} (prim : P -> E -> St -> option bool * St).

(** [for (p = ...; p && (state = (p->execute)(p, entry)); p = p->next)]. *)
Definition exec_loop (exec : plan_node -> E -> St -> option bool * St) (entry : E) : list plan_node -> bool -> St -> option bool * St :=
  fix loop l state s :=
  match l with
  | [] => (Some state, s)
  | p :: l =>
    match exec p entry s with
    | (Some true, s) => loop l true s
    | (Some false, s) => (Some false, s)
    | (None, s) => (None, s)
    end
  end.

(** A node that is only a marker aborts. *)
Fixpoint exec_node (n : plan_node) (entry : E) (s : St) : option bool * St :=
  match n with
  | Node (f_prim p) _ _ => prim p entry s
  | Node f_expr (Some l) _ => exec_loop exec_node entry l false s
  | Node f_not (Some l) _ =>
    match exec_loop exec_node entry l false s with (Some b, s) => (Some (negb b), s) | r => r end
  | Node f_or (Some l) (Some r) =>
    match exec_loop exec_node entry l false s with
    | (Some false, s) => exec_loop exec_node entry r false s
    | r => r
    end
  | _ => (None, s)
  end.

(** The loop of [find_execute] over the plan, for one file. *)
Definition run_plan (plan : list plan_node) (entry : E) (s : St) : option bool * St := exec_loop exec_node entry plan false s.
End Plan.
Arguments execute P : clear implicits.
Arguments plan_node P : clear implicits.

Example find_formplan_runs :
  let prim (p : Z) (entry : Z) (out : list Z) := if p =? 0 then (Some true, out ++ [entry]) else (Some (entry =? p), out) in
  match find_formplan 0 false [Some f_not; Some (f_prim 1); None; Some f_openparen; Some (f_prim 2); Some f_or; Some (f_prim 3); Some f_closeparen] with
  | Ok plan => foldl (fun out entry => (run_plan prim plan entry out).2) [] [1; 2; 3; 4] = [2; 3]
  | _ => False
  end /\
  find_formplan 0 false [Some f_not; Some f_not] = Errx "!: no following expression" /\
  find_formplan 0 true [Some f_or; Some (f_prim 1)] = Errx "-o: no expression before -o" /\
  find_formplan 0 true [Some f_openparen; Some (f_prim 1)] = Errx "(: missing closing ')'".
Proof. vm_compute. repeat split. Qed.
