(* ===== verification/FindGrammar.v ===== *)
(** The passes of find are a parser: they accept the expressions of the grammar, and
    the plan does what the expression means. *)

From stdpp Require Import list.
From S2P Require Import Prelude FindPlan.

(** * The grammar and the meaning of expressions *)

Inductive expr (P : Type) := Prim (p : P) | Not (e : expr P) | And (e1 e2 : expr P) | Or (e1 e2 : expr P).
Arguments Prim {P} p.
Arguments Not {P} e.
Arguments And {P} e1 e2.
Arguments Or {P} e1 e2.

Section Grammar.
Context {P : Type}.

(** Alternatives of sequences of terms; [-a] has been dropped from the tokens. *)
Inductive disj : list (execute P) -> expr P -> Prop :=
| disj_conj ts e : conj ts e -> disj ts e
| disj_or ts1 ts2 e1 e2 : conj ts1 e1 -> disj ts2 e2 -> disj (ts1 ++ f_or :: ts2) (Or e1 e2)
with conj : list (execute P) -> expr P -> Prop :=
| conj_term ts e : term ts e -> conj ts e
| conj_and ts1 ts2 e1 e2 : term ts1 e1 -> conj ts2 e2 -> conj (ts1 ++ ts2) (And e1 e2)
with term : list (execute P) -> expr P -> Prop :=
| term_prim p : term [f_prim p] (Prim p)
| term_paren ts e : disj ts e -> term (f_openparen :: ts ++ [f_closeparen]) e
| term_not ts e : term ts e -> term (f_not :: ts) (Not e).

Scheme disj_mut := Induction for disj Sort Prop
  with conj_mut := Induction for conj Sort Prop
  with term_mut := Induction for term Sort Prop.
Combined Scheme grammar_mut from disj_mut, conj_mut, term_mut.

(** Evaluation from left to right, no further than the answer needs. *)
Context {E St : Type} (prim : P -> E -> St -> option bool * St).
Fixpoint meaning (e : expr P) (entry : E) (s : St) : option bool * St :=
  match e with
  | Prim p => prim p entry s
  | Not e => match meaning e entry s with (Some b, s) => (Some (negb b), s) | r => r end
  | And e1 e2 => match meaning e1 entry s with (Some true, s) => meaning e2 entry s | r => r end
  | Or e1 e2 => match meaning e1 entry s with (Some false, s) => meaning e2 entry s | r => r end
  end.

(** * Parentheses *)

(** The nodes behind [paren_squish], and the tokens they stand for. *)
Inductive grouped : list (plan_node P) -> list (execute P) -> Prop :=
| grouped_nil : grouped [] []
| grouped_leaf ex f ts : ex <> f_openparen -> ex <> f_closeparen -> ex <> f_expr -> grouped f ts -> grouped (palloc ex :: f) (ex :: ts)
| grouped_expr sub tsub f ts : sub <> [] -> grouped sub tsub -> grouped f ts ->
    grouped (Node f_expr (Some sub) None :: f) (f_openparen :: tsub ++ f_closeparen :: ts).

Lemma grouped_app f1 t1 f2 t2 : grouped f1 t1 -> grouped f2 t2 -> grouped (f1 ++ f2) (t1 ++ t2).
Proof. induction 1; intros Hg2; cbn; rewrite <- ?app_assoc; [done|constructor; auto..]. Qed.

Notation tokens := (Forall (fun ex => ex <> f_expr)).

(** What [yankexpr] takes off a list of tokens. *)
Definition yanked (ts : list (execute P)) (r : res (option (plan_node P) * list (plan_node P))) : Prop :=
  match r with
  | Ok (None, rest) => ts = [] /\ rest = []
  | Ok (Some n, rest) => exists ts1 ts2, ts = ts1 ++ ts2 /\ rest = palloc <$> ts2 /\ (0 < length ts1)%nat /\
      ((n = palloc f_closeparen /\ ts1 = [f_closeparen]) \/ (is_close n = false /\ grouped [n] ts1))
  | Errx _ => True
  | Fault => False
  end.

Lemma yank_spec fuel : forall ts, tokens ts ->
  ((2 * length ts < fuel)%nat -> yanked ts (yankexpr fuel (palloc <$> ts))) /\
  (forall sub tsub, grouped sub tsub -> (2 * length ts + 1 < fuel)%nat ->
    match yank_loop fuel sub (palloc <$> ts) with
    | Ok (sub', rest) => sub' <> [] /\ exists ts1 ts2, ts = ts1 ++ f_closeparen :: ts2 /\ rest = palloc <$> ts2 /\ grouped sub' (tsub ++ ts1)
    | Errx _ => True
    | Fault => False
    end).
Proof.
  induction fuel as [|fuel IH]; intros ts Hts; [split; [lia|intros; lia]|]. split.
  - intros Hf. destruct ts as [|ex ts]; [done|]. apply Forall_cons in Hts as [Hex Hts]. cbn [yankexpr yanknode fmap list_fmap].
    destruct ex; try done; cbn [is_open exec_of palloc].
    + destruct (IH ts Hts) as [_ IHl]. specialize (IHl [] [] grouped_nil ltac:(cbn in Hf; lia)).
      destruct (yank_loop fuel [] (palloc <$> ts)) as [[sub rest]|m|]; [|done..]. destruct IHl as (Hne & ts1 & ts2 & -> & -> & Hg).
      exists (f_openparen :: ts1 ++ [f_closeparen]), ts2. split; [cbn; by rewrite <- app_assoc|]. split; [done|]. split; [cbn; lia|]. right.
      split; [done|]. apply (grouped_expr sub ts1 [] []); [done|done|constructor].
    + exists [f_closeparen], ts. split_and!; [done|done|cbn; lia|by left].
    + exists [f_not], ts. split_and!; [done|done|cbn; lia|right]. split; [done|]. by repeat constructor.
    + exists [f_or], ts. split_and!; [done|done|cbn; lia|right]. split; [done|]. by repeat constructor.
    + exists [f_prim p], ts. split_and!; [done|done|cbn; lia|right]. split; [done|]. by repeat constructor.
  - intros sub tsub Hsub Hf. cbn [yank_loop]. destruct (IH ts Hts) as [IHy _]. specialize (IHy ltac:(lia)).
    destruct (yankexpr fuel (palloc <$> ts)) as [[[n|] rest]|m|]; cbn [mbind res_bind]; [|done..].
    destruct IHy as (ts1 & ts2 & -> & -> & Hlen & Hn). apply Forall_app in Hts as [_ Hts2]. rewrite length_app in Hf.
    destruct Hn as [[-> ->]|[-> Hn]].
    + cbn [is_close exec_of palloc]. destruct sub as [|n sub]; [done|]. split; [done|]. exists [], ts2. by rewrite app_nil_r.
    + destruct (IH ts2 Hts2) as [_ IHl]. specialize (IHl _ _ (grouped_app _ _ _ _ Hsub Hn) ltac:(lia)).
      destruct (yank_loop fuel (sub ++ [n]) (palloc <$> ts2)) as [[sub' rest]|m|]; [|done..].
      destruct IHl as (Hne & ts3 & ts4 & -> & -> & Hg). split; [done|]. exists (ts1 ++ ts3), ts4. rewrite <- !app_assoc in *. done.
Qed.

Lemma paren_loop_spec fuel : forall ts result tr, tokens ts -> grouped result tr -> (length ts < fuel)%nat ->
  match paren_loop fuel result (palloc <$> ts) with Ok f => grouped f (tr ++ ts) | Errx _ => True | Fault => False end.
Proof.
  induction fuel as [|fuel IH]; intros ts result tr Hts Hr Hf; [lia|]. cbn [paren_loop]. rewrite length_fmap.
  destruct (yank_spec (2 * length ts + 1) ts Hts) as [Hy _]. specialize (Hy ltac:(lia)).
  destruct (yankexpr _ (palloc <$> ts)) as [[[n|] rest]|m|]; cbn [mbind res_bind]; [| |done..].
  - destruct Hy as (ts1 & ts2 & -> & -> & Hlen & Hn). apply Forall_app in Hts as [_ Hts2]. rewrite length_app in Hf.
    destruct Hn as [[-> ->]|[-> Hn]]; [done|]. rewrite app_assoc. apply IH; [done|by apply grouped_app|lia].
  - destruct Hy as [-> _]. by rewrite app_nil_r.
Qed.

Lemma yankexpr_leaf fuel (n : plan_node P) l : is_open n = false -> yankexpr (S fuel) (n :: l) = Ok (Some n, l).
Proof. intros Hop. cbn. by rewrite Hop. Qed.
Lemma yankexpr_open fuel (l : list (plan_node P)) :
  yankexpr (S fuel) (palloc f_openparen :: l) = ('(sub, l) ← yank_loop fuel [] l; Ok (Some (Node f_expr (Some sub) None), l)).
Proof. done. Qed.
Lemma yank_loop_next fuel sub (l l' : list (plan_node P)) n : yankexpr fuel l = Ok (Some n, l') -> is_close n = false ->
  yank_loop (S fuel) sub l = yank_loop fuel (sub ++ [n]) l'.
Proof. intros Hy Hn. cbn. rewrite Hy. cbn. by rewrite Hn. Qed.

(** Every group of nodes comes back from its tokens. *)
Lemma yank_grouped f ts : grouped f ts -> forall fuel rest,
  (forall n f', f = n :: f' -> (2 * length ts < fuel)%nat -> exists ts1 ts2, ts = ts1 ++ ts2 /\ grouped f' ts2 /\ is_close n = false /\ (0 < length ts1)%nat /\
     yankexpr fuel (palloc <$> ts ++ rest) = Ok (Some n, palloc <$> ts2 ++ rest)) /\
  (forall sub, (2 * length ts + 3 < fuel)%nat -> sub ++ f <> [] ->
     yank_loop fuel sub (palloc <$> ts ++ f_closeparen :: rest) = Ok (sub ++ f, palloc <$> rest)).
Proof.
  induction 1 as [|ex f ts Ho Hc He Hg IH|sub0 tsub f ts Hne Hsub IHs Hg IH]; intros fuel rest; (split; [intros n f' [= <- <-] Hf|intros sub Hf Hsne]).
  - destruct fuel as [|[|fuel]]; [lia..|]. cbn. rewrite app_nil_r in *. by destruct sub.
  - exists [ex], ts. split; [done|]. split; [done|]. split; [by destruct ex|]. split; [cbn; lia|]. destruct fuel; [lia|].
    cbn [fmap list_fmap app]. apply yankexpr_leaf. by destruct ex.
  - cbn [length] in Hf. destruct fuel as [|[|fuel]]; [lia..|]. cbn [fmap list_fmap app].
    rewrite (yank_loop_next _ _ _ (palloc <$> ts ++ f_closeparen :: rest) (palloc ex));
      [|apply yankexpr_leaf; by destruct ex|by destruct ex].
    destruct (IH (S fuel) rest) as [_ IHl]. rewrite IHl; [by rewrite <- app_assoc|lia|by destruct sub].
  - destruct fuel as [|fuel]; [lia|]. exists (f_openparen :: tsub ++ [f_closeparen]), ts. split; [cbn; by rewrite <- app_assoc|].
    split; [done|]. split; [done|]. split; [cbn; lia|]. cbn [length] in Hf. rewrite length_app in Hf. cbn [length] in Hf.
    cbn [fmap list_fmap app]. rewrite yankexpr_open, <- app_assoc. cbn [app].
    destruct (IHs fuel (ts ++ rest)) as [_ IHl]. rewrite IHl; [done|lia|done].
  - cbn [length] in Hf. rewrite length_app in Hf. cbn [length] in Hf. destruct fuel as [|[|fuel]]; [lia..|].
    cbn [fmap list_fmap app]. rewrite <- app_assoc. cbn [app].
    rewrite (yank_loop_next _ _ _ (palloc <$> ts ++ f_closeparen :: rest) (Node f_expr (Some sub0) None)); [| |done].
    + destruct (IH (S fuel) rest) as [_ IHl]. rewrite IHl; [by rewrite <- app_assoc|lia|by destruct sub].
    + rewrite yankexpr_open. destruct (IHs fuel (ts ++ f_closeparen :: rest)) as [_ IHl]. by rewrite IHl by (lia || done).
Qed.

Lemma paren_loop_grouped f ts : grouped f ts -> forall fuel result, (length ts < fuel)%nat ->
  paren_loop fuel result (palloc <$> ts) = Ok (result ++ f).
Proof.
  remember (length f) as k eqn:Ek. revert f ts Ek. induction k as [|k IH]; intros f ts Ek Hg fuel result Hf; (destruct fuel as [|fuel]; [lia|]).
  - destruct f; [|done]. inversion Hg; subst. cbn. by rewrite app_nil_r.
  - destruct f as [|n f]; [done|]. injection Ek as Ek. cbn [paren_loop]. rewrite length_fmap.
    destruct (yank_grouped _ _ Hg (2 * length ts + 1) []) as [Hy _]. destruct (Hy n f eq_refl) as (ts1 & ts2 & -> & Hg2 & Hcl & Hpos & Ey); [lia|].
    rewrite !app_nil_r in Ey. rewrite Ey. cbn [mbind res_bind]. rewrite Hcl. rewrite length_app in Hf. rewrite (IH f ts2); [by rewrite <- app_assoc|done|done|lia].
Qed.

(** ** Expressions over nodes *)

Inductive disji : list (plan_node P) -> expr P -> Prop :=
| disji_conj l e : conji l e -> disji l e
| disji_or l1 l2 e1 e2 : conji l1 e1 -> disji l2 e2 -> disji (l1 ++ palloc f_or :: l2) (Or e1 e2)
with conji : list (plan_node P) -> expr P -> Prop :=
| conji_term l e : termi l e -> conji l e
| conji_and l1 l2 e1 e2 : termi l1 e1 -> conji l2 e2 -> conji (l1 ++ l2) (And e1 e2)
with termi : list (plan_node P) -> expr P -> Prop :=
| termi_prim p : termi [palloc (f_prim p)] (Prim p)
| termi_expr sub e : disji sub e -> termi [Node f_expr (Some sub) None] e
| termi_not l e : termi l e -> termi (palloc f_not :: l) (Not e).

Scheme disji_mut := Induction for disji Sort Prop
  with conji_mut := Induction for conji Sort Prop
  with termi_mut := Induction for termi Sort Prop.
Combined Scheme nodes_mut from disji_mut, conji_mut, termi_mut.

Lemma grammar_grouped :
  (forall ts e, disj ts e -> exists f, grouped f ts /\ f <> [] /\ disji f e) /\
  (forall ts e, conj ts e -> exists f, grouped f ts /\ f <> [] /\ conji f e) /\
  (forall ts e, term ts e -> exists f, grouped f ts /\ f <> [] /\ termi f e).
Proof.
  apply (grammar_mut (fun ts e _ => exists f, grouped f ts /\ f <> [] /\ disji f e) (fun ts e _ => exists f, grouped f ts /\ f <> [] /\ conji f e)
    (fun ts e _ => exists f, grouped f ts /\ f <> [] /\ termi f e)).
  - intros ts e _ (f & Hg & Hne & Hf). exists f. split; [done|]. split; [done|by constructor].
  - intros ts1 ts2 e1 e2 _ (f1 & Hg1 & Hne1 & Hf1) _ (f2 & Hg2 & Hne2 & Hf2). exists (f1 ++ palloc f_or :: f2).
    split; [apply grouped_app; [done|by constructor]|]. split; [by destruct f1|by constructor].
  - intros ts e _ (f & Hg & Hne & Hf). exists f. split; [done|]. split; [done|by constructor].
  - intros ts1 ts2 e1 e2 _ (f1 & Hg1 & Hne1 & Hf1) _ (f2 & Hg2 & Hne2 & Hf2). exists (f1 ++ f2).
    split; [by apply grouped_app|]. split; [by destruct f1|by constructor].
  - intros p. exists [palloc (f_prim p)]. split; [by repeat constructor|]. split; [done|constructor].
  - intros ts e _ (f & Hg & Hne & Hf). exists [Node f_expr (Some f) None]. split; [|split; [done|by constructor]].
    apply (grouped_expr f ts [] []); [done|done|constructor].
  - intros ts e _ (f & Hg & Hne & Hf). exists (palloc f_not :: f). split; [by constructor|]. split; [done|by constructor].
Qed.

Lemma grouped_app_inv f1 f2 : forall ts, grouped (f1 ++ f2) ts -> exists t1 t2, ts = t1 ++ t2 /\ grouped f1 t1 /\ grouped f2 t2.
Proof.
  induction f1 as [|n f1 IH]; intros ts Hg; [exists [], ts; split; [done|split; [constructor|done]]|].
  inversion Hg as [|ex f ts' Ho Hc He Hg'|sub tsub f ts' Hne Hsub Hg']; subst.
  - destruct (IH _ Hg') as (t1 & t2 & -> & H1 & H2). exists (ex :: t1), t2. split; [done|]. split; [by constructor|done].
  - destruct (IH _ Hg') as (t1 & t2 & -> & H1 & H2). exists (f_openparen :: tsub ++ f_closeparen :: t1), t2.
    split; [cbn; by rewrite <- app_assoc|]. split; [by constructor|done].
Qed.

Lemma grouped_nil_inv ts : grouped [] ts -> ts = [].
Proof. by inversion 1. Qed.

Lemma grouped_grammar :
  (forall f e, disji f e -> forall ts, grouped f ts -> disj ts e) /\
  (forall f e, conji f e -> forall ts, grouped f ts -> conj ts e) /\
  (forall f e, termi f e -> forall ts, grouped f ts -> term ts e).
Proof.
  apply (nodes_mut (fun f e _ => forall ts, grouped f ts -> disj ts e) (fun f e _ => forall ts, grouped f ts -> conj ts e)
    (fun f e _ => forall ts, grouped f ts -> term ts e)).
  - intros l e _ IH ts Hg. constructor. by apply IH.
  - intros l1 l2 e1 e2 _ IH1 _ IH2 ts Hg. apply grouped_app_inv in Hg as (t1 & t2 & -> & H1 & H2). inversion H2; subst.
    constructor; [by apply IH1|by apply IH2].
  - intros l e _ IH ts Hg. constructor. by apply IH.
  - intros l1 l2 e1 e2 _ IH1 _ IH2 ts Hg. apply grouped_app_inv in Hg as (t1 & t2 & -> & H1 & H2). constructor; [by apply IH1|by apply IH2].
  - intros p ts Hg. inversion Hg as [|? ? ? ? ? ? Hg'|]; subst. apply grouped_nil_inv in Hg' as ->. constructor.
  - intros sub e _ IH ts Hg. inversion Hg as [| |? ? ? ? ? ? Hg']; subst. apply grouped_nil_inv in Hg' as ->. constructor. by apply IH.
  - intros l e _ IH ts Hg. inversion Hg; subst. constructor. by apply IH.
Qed.
(** * Not *)

Definition negs (j : nat) (e : expr P) : expr P := Nat.iter j Not e.
(** What [not_squish] makes of [j] nots and a node. *)
Definition wrap (j : nat) (n : plan_node P) : plan_node P := if Nat.even j then n else Node f_not (Some [n]) None.

Lemma even_mod z : (0 <= z)%Z -> negb (z mod 2 =? 1)%Z = Nat.even (Z.to_nat z).
Proof.
  intros Hz. rewrite <- (Z2Nat.id z) at 1 by done. generalize (Z.to_nat z) as n. intros n.
  destruct (Nat.Even_or_Odd n) as [[k ->]|[k ->]].
  - rewrite Nat.even_even. destruct (Z.eqb_spec (Z.of_nat (2 * k) mod 2) 1); [Z.to_euclidean_division_equations; lia|done].
  - rewrite Nat.even_odd. destruct (Z.eqb_spec (Z.of_nat (2 * k + 1) mod 2) 1); [done|Z.to_euclidean_division_equations; lia].
Qed.

Lemma nots_spec squish loop (x : plan_node P) f j : forall notlevel, is_not x = false -> is_or x = false -> (0 < notlevel)%Z ->
  nots squish loop (palloc f_not) notlevel (replicate j (palloc f_not) ++ x :: f) =
    (x ← squish x; rest ← loop f; Ok (wrap (Z.to_nat notlevel + j) x :: rest)).
Proof.
  induction j as [|j IH]; intros notlevel Hn Ho Hl; cbn [replicate app nots].
  - rewrite Hn, Ho. destruct (squish x) as [x'| |]; cbn [mbind res_bind]; [|done..]. destruct (loop f); cbn [mbind res_bind palloc]; [|done..].
    do 2 f_equal. unfold wrap. rewrite Nat.add_0_r, even_mod by lia. done.
  - cbn [is_not exec_of palloc]. rewrite IH by (done || lia). replace (Z.to_nat (notlevel + 1) + j)%nat with (Z.to_nat notlevel + S j)%nat by lia. done.
Qed.

Lemma not_loop_spec squish (x : plan_node P) f j : is_not x = false -> (0 < j -> is_or x = false)%nat ->
  not_loop squish (replicate j (palloc f_not) ++ x :: f) = (x ← squish x; rest ← not_loop squish f; Ok (wrap j x :: rest)).
Proof.
  intros Hn Ho. destruct j as [|j]; cbn [replicate app not_loop]; [by rewrite Hn|]. cbn [is_not exec_of palloc].
  rewrite nots_spec by (done || lia || (apply Ho; lia)). by replace (Z.to_nat 1 + j)%nat with (S j) by lia.
Qed.

Lemma meaning_negs j e entry s : meaning (negs j e) entry s = meaning (if Nat.even j then e else Not e) entry s.
Proof.
  induction j as [|j IH] in s |- *; [done|]. change (negs (S j) e) with (Not (negs j e)). cbn [meaning]. rewrite IH, Nat.even_succ, <- Nat.negb_even.
  destruct (Nat.even j); cbn [negb meaning]; [done|]. destruct (meaning e entry s) as [[[]|] s']; done.
Qed.

(** * What the passes make of an expression *)

Notation run l entry s := (run_plan prim l entry s).

Definition ready (n : plan_node P) (e : expr P) : Prop :=
  is_or n = false /\ exists n', or_inside n = Ok n' /\ is_or n' = false /\ forall entry s, exec_node prim n' entry s = meaning e entry s.

Lemma run_one n entry s : run [n] entry s = exec_node prim n entry s.
Proof. unfold run_plan. cbn. by destruct (exec_node prim n entry s) as [[[]|] s']. Qed.
Lemma exec_loop_true l b b' entry s : l <> [] -> exec_loop (exec_node prim) entry l b s = exec_loop (exec_node prim) entry l b' s.
Proof. by destruct l. Qed.
Lemma run_cons n l e entry s : l <> [] -> (forall entry s, exec_node prim n entry s = meaning e entry s) ->
  run (n :: l) entry s = match meaning e entry s with (Some true, s) => run l entry s | r => r end.
Proof.
  intros Hl He. unfold run_plan. cbn [exec_loop]. rewrite He. destruct (meaning e entry s) as [[[]|] s']; [|done..]. by apply exec_loop_true.
Qed.
Lemma exec_expr l entry s : exec_node prim (Node f_expr (Some l) None) entry s = run l entry s.
Proof. done. Qed.
Lemma exec_or l r entry s : exec_node prim (Node f_or (Some l) (Some r)) entry s = match run l entry s with (Some false, s) => run r entry s | x => x end.
Proof. done. Qed.
Lemma exec_not l entry s : exec_node prim (Node f_not (Some l) None) entry s = match run l entry s with (Some b, s) => (Some (negb b), s) | x => x end.
Proof. done. Qed.

Lemma or_loop_next sq (result l : list (plan_node P)) n n' : sq n = Ok n' -> is_or n' = false -> or_loop sq result (n :: l) = or_loop sq (result ++ [n']) l.
Proof. intros Hs Hn. cbn. rewrite Hs. cbn. by rewrite Hn. Qed.

Lemma or_loop_or (result l right : list (plan_node P)) : result <> [] -> right <> [] -> or_squish l = Ok right ->
  or_loop or_inside result (palloc f_or :: l) = Ok [Node f_or (Some result) (Some right)].
Proof. unfold or_squish. intros Hr Hri Hor. cbn. destruct result; [done|]. cbn in Hor. rewrite Hor. by destruct right. Qed.
Lemma not_squish_or (l : list (plan_node P)) : not_squish (palloc f_or :: l) = (rest ← not_squish l; Ok (palloc f_or :: rest)).
Proof. done. Qed.

Lemma ready_wrap j n e : ready n e -> ready (wrap j n) (negs j e).
Proof.
  intros (Ho & n' & Hi & Ho' & He). unfold ready, wrap. setoid_rewrite meaning_negs. destruct (Nat.even j); [by split; [|exists n']|].
  split; [done|]. exists (Node f_not (Some [n']) None). cbn [or_inside]. rewrite (or_loop_next _ _ _ _ n') by done. split; [done|]. split; [done|].
  intros entry s. rewrite exec_not, run_one, He. done.
Qed.

(** ** Accepted expressions *)

(** A sequence of terms behind [not_squish], in the loop of [or_squish]. *)
Definition ready_seq (gs : list (plan_node P)) (e : expr P) : Prop :=
  exists gs', gs' <> [] /\ (forall result l, or_loop or_inside result (gs ++ l) = or_loop or_inside (result ++ gs') l) /\ forall entry s, run gs' entry s = meaning e entry s.
Definition ready_plan (gs : list (plan_node P)) (e : expr P) : Prop :=
  exists plan, plan <> [] /\ or_squish gs = Ok plan /\ forall entry s, run plan entry s = meaning e entry s.

Lemma passes_complete :
  (forall l e, disji l e -> exists gs, not_squish l = Ok gs /\ ready_plan gs e) /\
  (forall l e, conji l e -> exists gs, (forall f, not_squish (l ++ f) = (rest ← not_squish f; Ok (gs ++ rest))) /\ ready_seq gs e) /\
  (forall l e, termi l e -> exists j x x' e0, l = replicate j (palloc f_not) ++ [x] /\ is_not x = false /\ is_or x = false /\
     not_expr x = Ok x' /\ ready x' e0 /\ e = negs j e0).
Proof.
  assert (forall l e, (exists j x x' e0, l = replicate j (palloc f_not) ++ [x] /\ is_not x = false /\ is_or x = false /\
     not_expr x = Ok x' /\ ready x' e0 /\ e = negs j e0) ->
     exists g, (forall f, not_squish (l ++ f) = (rest ← not_squish f; Ok (g :: rest))) /\ ready g e) as Hterm.
  { intros l e (j & x & x' & e0 & -> & Hn & Ho & Hx & Hr & ->). exists (wrap j x'). split; [|by apply ready_wrap].
    intros f. unfold not_squish. rewrite <- app_assoc. cbn [app]. rewrite not_loop_spec by done. by rewrite Hx. }
  apply (nodes_mut (fun l e _ => exists gs, not_squish l = Ok gs /\ ready_plan gs e)
    (fun l e _ => exists gs, (forall f, not_squish (l ++ f) = (rest ← not_squish f; Ok (gs ++ rest))) /\ ready_seq gs e)
    (fun l e _ => exists j x x' e0, l = replicate j (palloc f_not) ++ [x] /\ is_not x = false /\ is_or x = false /\
     not_expr x = Ok x' /\ ready x' e0 /\ e = negs j e0)).
  - intros l e _ (gs & Hl & gs' & Hne & Hor & Hrun). exists gs. rewrite <- (app_nil_r l), Hl. cbn. rewrite app_nil_r. split; [done|].
    exists gs'. unfold or_squish. by rewrite <- (app_nil_r gs), Hor.
  - intros l1 l2 e1 e2 _ (gs1 & Hl1 & gs1' & Hne1 & Hor1 & Hrun1) _ (gs2 & Hl2 & [|b gs2'] & Hne2 & Hor2 & Hrun2); [done|].
    exists (gs1 ++ palloc f_or :: gs2). split. { rewrite Hl1, not_squish_or, Hl2. done. }
    destruct gs1' as [|a gs1']; [done|]. exists [Node f_or (Some (a :: gs1')) (Some (b :: gs2'))]. split; [done|].
    split; [unfold or_squish; rewrite Hor1; cbn [app]; by rewrite (or_loop_or _ _ (b :: gs2'))|]. intros entry s. rewrite run_one, exec_or, Hrun1.
    cbn. destruct (meaning e1 entry s) as [[[]|] s1]; [done| |done]. apply Hrun2.
  - intros l e _ (g & Hl & Ho & n' & Hi & Ho' & He)%Hterm. exists [g]. split; [done|]. exists [n']. split; [done|].
    split; [intros; by apply or_loop_next|]. intros entry s. by rewrite run_one.
  - intros l1 l2 e1 e2 _ (g & Hl1 & Ho & n' & Hi & Ho' & He)%Hterm _ (gs & Hl2 & gs' & Hne & Hor & Hrun). exists (g :: gs).
    split. { intros f. rewrite <- app_assoc, Hl1, Hl2. by destruct (not_squish f). }
    exists (n' :: gs'). split; [done|]. split; [intros; rewrite <- app_comm_cons, (or_loop_next _ _ _ _ n'), Hor, <- app_assoc by done; done|].
    intros entry s. rewrite (run_cons _ _ e1) by done. cbn. by destruct (meaning e1 entry s) as [[[]|] s1].
  - intros p. exists 0%nat, (palloc (f_prim p)), (palloc (f_prim p)), (Prim p). split_and!; [done..| |done]. split; [done|]. by exists (palloc (f_prim p)).
  - intros sub e _ (gs & Hl & plan & Hne & Hor & Hrun). exists 0%nat, (Node f_expr (Some sub) None), (Node f_expr (Some gs) None), e.
    cbn. change (not_loop not_expr sub) with (not_squish sub). rewrite Hl. split_and!; [done..| |done]. split; [done|]. exists (Node f_expr (Some plan) None). cbn.
    change (or_loop or_inside [] gs) with (or_squish gs). rewrite Hor. done.
  - intros l e _ (j & x & x' & e0 & -> & Hn & Ho & Hx & Hr & ->). by exists (S j), x, x', e0.
Qed.
(** ** Only expressions are accepted *)

Lemma or_inside_is_or (n n' : plan_node P) : or_inside n = Ok n' -> is_or n' = is_or n.
Proof.
  destruct n as [ex [d0|] d1]; destruct ex; cbn; intros Hn; simplify_eq; try done;
    (destruct (or_loop or_inside [] d0); cbn in Hn; [|done..]; by injection Hn as <-).
Qed.

Lemma conji_snoc l1 e1 : conji l1 e1 -> forall l2 e2, termi l2 e2 -> exists e, conji (l1 ++ l2) e.
Proof.
  induction 1 as [l e Ht|l l' e e' Ht Hc IH]; intros l2 e2 H2; [exists (And e e2); constructor; [done|by constructor]|].
  destruct (IH _ _ H2) as [e3 H3]. exists (And e e3). rewrite <- app_assoc. by constructor.
Qed.

(** A node behind [not_squish] and the nodes it was made of. *)
Definition block (l : list (plan_node P)) (g : plan_node P) : Prop :=
  is_or g = false /\ match or_inside g with Ok _ => exists e, termi l e | Errx _ => True | Fault => False end.
Inductive blocks : list (plan_node P) -> list (plan_node P) -> Prop :=
| blocks_nil : blocks [] []
| blocks_or f gs : blocks f gs -> blocks (palloc f_or :: f) (palloc f_or :: gs)
| blocks_block l g f gs : block l g -> blocks f gs -> blocks (l ++ f) (g :: gs).

Definition or_sound (f : list (plan_node P)) (r : res (list (plan_node P))) : Prop :=
  match r with Ok plan => plan = [] /\ f = [] \/ plan <> [] /\ exists e, disji f e | Errx _ => True | Fault => False end.

Lemma or_blocks f gs : blocks f gs -> forall result l0, result = [] /\ l0 = [] \/ result <> [] /\ (exists e, conji l0 e) ->
  or_sound (l0 ++ f) (or_loop or_inside result gs).
Proof.
  induction 1 as [|f gs Hb IH|l g f gs [Ho Hg] Hb IH]; intros result l0 Hr.
  - rewrite app_nil_r. destruct Hr as [[-> ->]|[Hr [e Hc]]]; [by left|right]. split; [done|]. exists e. by constructor.
  - cbn. destruct result as [|n result]; [done|]. destruct Hr as [[]|[_ [e1 Hc]]]; [done|].
    specialize (IH [] [] ltac:(by left)). destruct (or_loop or_inside [] gs) as [right|m|]; cbn in *; [|done..].
    destruct right; [done|]. destruct IH as [[]|[_ [e2 H2]]]; [done|]. right. split; [done|]. exists (Or e1 e2). by constructor.
  - destruct (or_inside g) as [n|m|] eqn:Ei; [|by cbn; rewrite Ei|done]. rewrite (or_loop_next _ _ _ _ n) by (done || by rewrite (or_inside_is_or _ _ Ei)).
    destruct Hg as [e Ht]. rewrite app_assoc. apply IH. right. split; [by destruct result|].
    destruct Hr as [[-> ->]|[Hr [e1 Hc]]]; [exists e; by constructor|]. by eapply conji_snoc.
Qed.

Lemma block_wrap j l g : block l g -> block (replicate j (palloc f_not) ++ l) (wrap j g).
Proof.
  intros [Ho Hg]. assert (forall e, termi l e -> termi (replicate j (palloc f_not) ++ l) (negs j e)) as Hj.
  { intros e Ht. induction j as [|j IHj]; [done|]. by constructor. }
  unfold block, wrap. destruct (Nat.even j); [split; [done|]; destruct (or_inside g); [|done..]; destruct Hg as [e Ht]; eauto|].
  split; [done|]. cbn [or_inside]. destruct (or_inside g) as [n|m|] eqn:Ei; [|by cbn; rewrite Ei|done].
  rewrite (or_loop_next _ _ _ _ n) by (done || by rewrite (or_inside_is_or _ _ Ei)). cbn. destruct Hg as [e Ht]. eauto.
Qed.

Lemma nots_none squish loop (n : plan_node P) j : forall notlevel, nots squish loop n notlevel (replicate j (palloc f_not)) = Errx "!: no following expression".
Proof. induction j as [|j IH]; intros notlevel; cbn; [done|apply IH]. Qed.
Lemma nots_or squish loop (n : plan_node P) f j : forall notlevel,
  nots squish loop n notlevel (replicate j (palloc f_not) ++ palloc f_or :: f) = Errx "!: nothing between ! and -o".
Proof. induction j as [|j IH]; intros notlevel; cbn; [done|apply IH]. Qed.

Lemma grouped_nots f ts : grouped f ts -> exists j, f = replicate j (palloc f_not) \/
  exists x f' tx t', f = replicate j (palloc f_not) ++ x :: f' /\ ts = replicate j f_not ++ tx ++ t' /\ grouped f' t' /\
    ((exists ex, x = palloc ex /\ tx = [ex] /\ ex <> f_not /\ ex <> f_expr /\ ex <> f_openparen /\ ex <> f_closeparen) \/ exists sub tsub, x = Node f_expr (Some sub) None /\ tx = f_openparen :: tsub ++ [f_closeparen] /\ sub <> [] /\ grouped sub tsub).
Proof.
  induction 1 as [|ex f ts Ho Hc He Hg IH|sub tsub f ts Hne Hs IHs Hg IH].
  - exists 0%nat. by left.
  - assert (ex = f_not \/ ex <> f_not) as [->|Hn] by (destruct ex; auto; right; congruence).
    + destruct IH as [j [->|(x & f' & tx & t' & -> & -> & Hg' & Hx)]]; [exists (S j); by left|]. exists (S j). right. by exists x, f', tx, t'.
    + exists 0%nat. right. exists (palloc ex), f, [ex], ts. split_and!; [done..|left]. by exists ex.
  - exists 0%nat. right. exists (Node f_expr (Some sub) None), f, (f_openparen :: tsub ++ [f_closeparen]), ts.
    split_and!; [done|cbn; by rewrite <- app_assoc|done|right]. by exists sub, tsub.
Qed.

Lemma not_blocks k : forall f ts, grouped f ts -> (length ts < k)%nat ->
  match not_squish f with Ok gs => blocks f gs | Errx _ => True | Fault => False end.
Proof.
  induction k as [|k IH]; intros f ts Hg Hk; [lia|]. destruct (grouped_nots _ _ Hg) as [j [->|(x & f' & tx & t' & -> & -> & Hg' & Hx)]].
  { destruct j as [|j]; [constructor|]. cbn. change (match nots not_expr (not_loop not_expr) (palloc f_not) 1 (replicate j (palloc f_not)) with Ok gs => blocks (replicate (S j) (palloc f_not)) gs | Errx _ => True | Fault => False end). by rewrite nots_none. }
  rewrite !length_app in Hk. assert (0 < length tx)%nat as Htx by (destruct Hx as [(? & ? & -> & ?)|(? & ? & ? & -> & ?)]; cbn; lia).
  specialize (IH f' t' Hg' ltac:(lia)) as Hf.
  assert (forall x', not_expr x = Ok x' -> is_not x = false -> is_or x = false -> block [x] x' ->
    match not_squish (replicate j (palloc f_not) ++ x :: f') with Ok gs => blocks (replicate j (palloc f_not) ++ x :: f') gs | Errx _ => True | Fault => False end) as Hok.
  { intros x' Hx' Hn Ho Hb. unfold not_squish in *. rewrite not_loop_spec by done. rewrite Hx'. cbn. destruct (not_loop not_expr f'); cbn; [|done..].
    change (x :: f') with ([x] ++ f'). rewrite app_assoc. constructor; [by apply block_wrap|done]. }
  destruct Hx as [(ex & -> & -> & Hn & He & Ho & Hc)|(sub & tsub & -> & -> & Hne & Hs)].
  - destruct ex; try done; cycle 1.
    + by apply (Hok (palloc (f_prim p))); [..|split; [|exists (Prim p); constructor]].
    + destruct j as [|j]; [|cbn; change (match nots not_expr (not_loop not_expr) (palloc f_not) 1 (replicate j (palloc f_not) ++ palloc f_or :: f') with Ok gs => blocks (palloc f_not :: replicate j (palloc f_not) ++ palloc f_or :: f') gs | Errx _ => True | Fault => False end); by rewrite nots_or].
      cbn [replicate app]. rewrite not_squish_or. destruct (not_squish f'); [by constructor|done..].
  - specialize (IH sub tsub Hs ltac:(cbn in Hk; rewrite length_app in Hk; lia)). destruct (not_squish sub) as [sub'|m|] eqn:Es; [|shelve|done].
    apply (Hok (Node f_expr (Some sub') None)); [by cbn; unfold not_squish in Es; rewrite Es|done..|]. split; [done|]. cbn.
    pose proof (or_blocks _ _ IH [] [] ltac:(by left)) as Ho. cbn in Ho. destruct (or_loop or_inside [] sub'); [|done..]. cbn.
    destruct Ho as [[_ ->]|[_ [e He]]]; [done|]. exists e. by constructor.
    Unshelve. unfold not_squish in *. rewrite not_loop_spec by done. cbn. by rewrite Es.
Qed.

(** * The parser *)

Notation squished f := (gs ← not_squish f; or_squish gs).

Lemma passes_sound f ts : grouped f ts -> or_sound f (squished f).
Proof.
  intros Hg. pose proof (not_blocks (S (length ts)) _ _ Hg ltac:(lia)) as Hb. destruct (not_squish f) as [gs| |]; cbn; [|done..].
  apply (or_blocks _ _ Hb [] []). by left.
Qed.

Lemma squish_complete ts e : disj ts e -> exists plan, squish (palloc <$> ts) = Ok plan /\ forall entry s, run plan entry s = meaning e entry s.
Proof.
  intros Hd. destruct grammar_grouped as [Hgr _]. destruct (Hgr _ _ Hd) as (f & Hg & Hne & Hf).
  destruct passes_complete as [Hp _]. destruct (Hp _ _ Hf) as (gs & Hn & plan & _ & Ho & Hrun).
  exists plan. split; [|done]. unfold squish, paren_squish. rewrite (paren_loop_grouped _ _ Hg) by (rewrite length_fmap; lia). cbn [mbind res_bind app]. rewrite Hn. done.
Qed.

Lemma squish_sound ts : tokens ts ->
  match squish (palloc <$> ts) with Ok plan => plan = [] /\ ts = [] \/ exists e, disj ts e | Errx _ => True | Fault => False end.
Proof.
  intros Hts. unfold squish, paren_squish. pose proof (paren_loop_spec (length (palloc <$> ts) + 1) ts [] [] Hts grouped_nil ltac:(rewrite length_fmap; lia)) as Hp.
  destruct (paren_loop _ [] (palloc <$> ts)) as [f| |]; cbn [mbind res_bind]; [|done..]. cbn in Hp. pose proof (passes_sound _ _ Hp) as Hs. unfold or_sound in Hs.
  destruct (squished f); [|done..]. destruct Hs as [[-> ->]|[_ [e He]]]; [left|right].
  - split; [done|]. by apply grouped_nil_inv.
  - exists e. destruct grouped_grammar as [Hgr _]. by eapply Hgr.
Qed.

Lemma squish_parses ts : tokens ts ->
  match squish (palloc <$> ts) with
  | Ok plan => plan = [] /\ ts = [] \/ exists e, disj ts e /\ forall entry s, run plan entry s = meaning e entry s
  | Errx _ => ~ exists e, disj ts e
  | Fault => False
  end.
Proof.
  intros Hts. pose proof (squish_sound ts Hts) as Hs. destruct (squish (palloc <$> ts)) as [plan|m|] eqn:Eq; [|intros [e He]|done].
  - destruct Hs as [?|[e He]]; [by left|right]. exists e. split; [done|]. destruct (squish_complete _ _ He) as (plan' & Eq' & Hrun). congruence.
  - destruct (squish_complete _ _ He) as (plan' & Eq' & Hrun). congruence.
Qed.
End Grammar.

(** The tokens with the [-print] that [find_formplan] adds. *)
Definition with_print {P} (print : P) (isoutput : bool) (ts : list (execute P)) : list (execute P) :=
  if isoutput then ts else match ts with [] => [f_prim print] | _ => f_openparen :: ts ++ [f_closeparen; f_prim print] end.

Lemma find_formplan_squish {P} (print : P) isoutput created :
  find_formplan print isoutput created = squish (palloc <$> with_print print isoutput (omap id created)).
Proof.
  unfold find_formplan, with_print. f_equal. assert (omap (fmap palloc) created = palloc <$> omap id created) as ->.
  { induction created as [|[t|] created IH]; cbn; [done|by f_equal|done]. }
  destruct isoutput; [done|]. destruct (omap id created); [done|]. cbn. by rewrite fmap_app.
Qed.

Lemma tokens_with_print {P} (print : P) isoutput created : Forall (fun t => t <> Some f_expr) created ->
  Forall (fun t => t <> f_expr) (with_print print isoutput (omap id created)).
Proof.
  intros Hc. assert (Forall (fun t => t <> f_expr) (omap id created)) as Ho.
  { induction Hc as [|[t|] created Ht Hc IH]; [constructor| |done]. constructor; [congruence|done]. }
  unfold with_print. destruct isoutput; [done|]. destruct (omap id created) as [|t ts]; [by repeat constructor|].
  constructor; [done|]. apply Forall_app. split; [done|by repeat constructor].
Qed.

(** C14. [find_formplan] is a parser of the expressions of find.  The tokens it parses are
    those of the command line when a primary has output and otherwise those of
    [( command line ) -print].  It ends without reading a field that was not set; it
    makes a plan exactly when these tokens are an expression (or none), and running the
    plan on a file evaluates that expression, from left to right and no further than
    needed, with [!] binding tighter than juxtaposition and [-o] weakest.  Without an
    output primary every command line that is an expression is accepted, as the one that
    prints where it holds; some others are too (find_unbalanced_accepted). *)
Theorem find_formplan_parses {P E St} (prim : P -> E -> St -> option bool * St) (print : P) (isoutput : bool) (created : list (option (execute P))) :
  Forall (fun t => t <> Some f_expr) created ->
  let ts := with_print print isoutput (omap id created) in
  match find_formplan print isoutput created with
  | Ok plan => plan = [] /\ ts = [] \/
      exists e, disj ts e /\ forall entry s, run_plan prim plan entry s = meaning prim e entry s
  | Errx _ => ~ exists e, disj ts e
  | Fault => False
  end /\
  (isoutput = false -> forall e, disj (omap id created) e -> exists plan, find_formplan print isoutput created = Ok plan /\
    forall entry s, run_plan prim plan entry s = meaning prim (And e (Prim print)) entry s).
Proof.
  intros Hc ts. rewrite find_formplan_squish. fold ts. split; [by apply squish_parses, tokens_with_print|].
  intros -> e He. apply squish_complete. unfold ts, with_print. destruct (omap id created) as [|t l] eqn:Et.
  - exfalso. destruct (@grammar_grouped P) as [Hgr _]. destruct (Hgr _ _ He) as (f & Hg & Hne & _). inversion Hg; subst. done.
  - apply disj_conj. change (f_openparen :: (t :: l) ++ [f_closeparen; f_prim print]) with ((f_openparen :: t :: l) ++ [f_closeparen] ++ [f_prim print]).
    rewrite app_assoc. apply conj_and; [by apply (term_paren (t :: l))|]. apply conj_term, term_prim.
Qed.

(** Two primaries and an output primary, on an integer file. *)
Definition sample_prim (p entry : Z) (out : list Z) : option bool * list Z :=
  if p =? 0 then (Some true, out ++ [entry]) else (Some (entry =? p), out).

Example find_formplan_parses_witness :
  exists plan, find_formplan 0 false [Some f_not; Some (f_prim 1); None; Some (f_prim 2); Some f_or; Some (f_prim 3)] = Ok plan /\
    forall entry out, run_plan sample_prim plan entry out = meaning sample_prim (And (Or (And (Not (Prim 1)) (Prim 2)) (Prim 3)) (Prim 0)) entry out.
Proof.
  refine (proj2 (find_formplan_parses sample_prim 0 false _ _) eq_refl _ _); [by repeat constructor|].
  change (disj ([f_not; f_prim 1; f_prim 2] ++ f_or :: [f_prim 3]) (Or (And (Not (Prim 1)) (Prim 2)) (Prim 3))). apply disj_or.
  - change (conj ([f_not; f_prim 1] ++ [f_prim 2]) (And (Not (Prim 1)) (Prim 2))). apply (conj_and [f_not; f_prim 1] [f_prim 2]); [apply (term_not [f_prim 1]), term_prim|apply conj_term, term_prim].
  - apply disj_conj, conj_term, term_prim.
Defined.

(** The parentheses that go around the expression match those of the user: what is not
    an expression is accepted when no primary has output, and refused otherwise. *)
Lemma find_unbalanced_accepted (P : Type) (print p1 p2 : P) :
  let created := [Some (f_prim p1); Some f_closeparen; Some f_or; Some f_openparen; Some (f_prim p2)] in
  (~ exists e, disj (omap id created) e) /\
  find_formplan print true created = Errx "): no beginning '('" /\
  exists plan, find_formplan print false created = Ok plan.
Proof.
  intros created. split; [|split; [done|by eexists]].
  pose proof (squish_parses (fun _ (_ : unit) (s : unit) => (None, s)) [f_prim p1; f_closeparen; f_or; f_openparen; f_prim p2] ltac:(by repeat constructor)) as Hs. exact Hs.
Qed.
