(* ===== verification/AwkFa.v ===== *)
(** The automata of awk (src.freebsd/awk/b.c): follow sets of the leaves of a regular
    expression, states made while a string is read, and the three searches.

    A node is a tree; the parent pointers that [penter] sets are the path that
    [follow] climbs.  Positions and states are [nat], runes and the entries of the
    arrays of marks [Z].  An array of positions has its length in its first entry, as
    in the source.  Memory that [realloc] adds holds [junk], an arbitrary value; an
    access outside an array, or through NULL, is [Fault].  Allocations succeed. *)

From stdpp Require Import numbers list sorting.
From S2P Require Import Prelude Ctype.

Inductive out (A : Type) : Type := Ok (a : A) | Fatal (message : string) | Fault.
Arguments Ok {A} a.
Arguments Fatal {A} message.
Arguments Fault {A}.
#[export] Instance out_ret : MRet out := fun _ a => Ok a.
#[export] Instance out_bind : MBind out := fun _ _ f m =>
  match m with Ok a => f a | Fatal e => Fatal e | Fault => Fault end.

(** A checked access to an array. *)
Definition get {A} (l : list A) (i : nat) : out A := match l !! i with Some x => Ok x | None => Fault end.
Definition put {A} (l : list A) (i : nat) (x : A) : out (list A) := if (i <? length l)%nat then Ok (<[i := x]> l) else Fault.
Definition deref {A} (p : option A) : out A := match p with Some x => Ok x | None => Fault end.

(** * Trees *)

(** A class is the array of its runes without the last 0. *)
Inductive leaf := CHAR (c : Z) | DOT | ALL | CCL (s : list Z) | NCCL (s : list Z) | FINAL | EMPTYRE.
Inductive unary_op := STAR | PLUS | QUEST | ZERO.
Inductive Node :=
| Leaf (type : leaf) (info : option nat)
| Unary (type : unary_op) (l : Node)
| CAT (l r : Node)
| OR (l r : Node).

(** [penter]: leaves get their numbers, but not those below a [ZERO]. *)
Fixpoint penter (p : Node) (poscnt : nat) : Node * nat :=
  match p with
  | Leaf type _ => (Leaf type (Some poscnt), S poscnt)
  | Unary ZERO _ => (p, poscnt)
  | Unary type l => let '(l, poscnt) := penter l poscnt in (Unary type l, poscnt)
  | CAT l r => let '(l, poscnt) := penter l poscnt in
      let '(r, poscnt) := penter r poscnt in (CAT l r, poscnt)
  | OR l r => let '(l, poscnt) := penter l poscnt in
      let '(r, poscnt) := penter r poscnt in (OR l r, poscnt)
  end.

(** The parent of a node, and which of its children the node is. *)
Inductive parent := InUnary (type : unary_op) | InCATl (r : Node) | InCATr (l : Node) | InORl (r : Node) | InORr (l : Node).
Definition plug (p : parent) (v : Node) : Node :=
  match p with InUnary type => Unary type v | InCATl r => CAT v r | InCATr l => CAT l v | InORl r => OR v r | InORr l => OR l v end.

(** * Sets of positions *)

Definition MAXLIN : nat := 22.
Definition NCHARS : Z := 1256 + 3.
Definition HAT : Z := NCHARS + 2.

Section Fa.
Context (junk : Z).

(** [setvec] with its [maxsetvec] entries, and [setcnt]. *)
Record sets := Sets { setvec : list Z; setcnt : nat }.
Definition maxsetvec (v : sets) : nat := length (setvec v).

Definition resizesetvec (v : sets) : sets :=
  let max := if (maxsetvec v =? 0)%nat then MAXLIN else (maxsetvec v * 4)%nat in
  Sets (setvec v ++ replicate (max - maxsetvec v) junk) (setcnt v).
Fixpoint resize_while (fuel : nat) (small : sets -> bool) (v : sets) : out sets :=
  match fuel with
  | O => Fault
  | S fuel => if small v then resize_while fuel small (resizesetvec v) else Ok v
  end.

(** [setvec[i] = 0] for all positions, and [setcnt = 0]. *)
Definition clear_sets (accept : nat) (v : sets) : out sets :=
  v ← resize_while (accept + 2) (fun v => maxsetvec v <=? accept)%nat v;
  Ok (Sets (replicate (S accept) 0 ++ drop (S accept) (setvec v)) 0).

(** The positions in the set, from [accept] down to 0. *)
Definition positions (test : Z -> bool) (accept : nat) (v : sets) : out (list nat) :=
  foldr (fun i m => l ← m; x ← get (setvec v) i; Ok (if test x then l ++ [i] else l)) (Ok []) (seq 0 (S accept)).

(** [first]: 0 when the node matches the empty string. *)
Fixpoint first (p : Node) (v : sets) : out (Z * sets) :=
  match p with
  | Leaf type info =>
    lp ← deref info;
    v ← resize_while (setcnt v + lp + 2) (fun v => (maxsetvec v <=? setcnt v) || (maxsetvec v <=? lp))%nat v;
    match type with
    | EMPTYRE => s ← put (setvec v) lp 0; Ok (0, Sets s (setcnt v))
    | _ =>
      x ← get (setvec v) lp;
      v ← (if x =? 1 then Ok v else s ← put (setvec v) lp 1; Ok (Sets s (S (setcnt v))));
      Ok (match type with CCL s => if hd 0 s =? 0 then 0 else 1 | _ => 1 end, v)
    end
  | Unary PLUS l => first l v
  | Unary (STAR | QUEST) l => '(_, v) ← first l v; Ok (0, v)
  | Unary ZERO _ => Ok (0, v)
  | CAT l r =>
    '(a, v) ← first l v;
    if a =? 0 then first r v else Ok (1, v)
  | OR l r =>
    '(b, v) ← first r v;
    '(a, v) ← first l v;
    Ok (if (a =? 0) || (b =? 0) then 0 else 1, v)
  end.

(** [follow]: the leaves that can come behind a node. *)
Fixpoint follow (n : Node) (parents : list parent) (v : sets) : out sets :=
  match n with
  | Leaf FINAL _ => Ok v
  | _ =>
    match parents with
    | [] => Fault
    | p :: parents =>
      let up := follow (plug p n) parents in
      match p with
      | InUnary (STAR | PLUS) => '(_, v) ← first n v; up v
      | InUnary QUEST | InORl _ | InORr _ => up v
      | InUnary ZERO => Ok v
      | InCATl r => '(a, v) ← first r v; if a =? 0 then up v else Ok v
      | InCATr _ => up v
      end
    end
  end.

(** * Follow sets *)

Record rrow := Rrow { ltype : leaf; lfollow : list nat }.

(** [intalloc(setcnt + 1)], filled from the set. *)
Definition posarray (setcnt : nat) (l : list nat) : out (list nat) :=
  if (length l <=? setcnt)%nat then Ok (setcnt :: l ++ replicate (setcnt - length l) 0%nat) else Fault.

Fixpoint cfoll (accept : nat) (n : Node) (parents : list parent) (re : list (option rrow)) (v : sets) : out (list (option rrow) * sets) :=
  match n with
  | Leaf type info =>
    i ← deref info;
    v ← clear_sets accept v;
    v ← follow n parents v;
    l ← positions (fun x => x =? 1) accept v;
    p ← posarray (setcnt v) l;
    re ← put re i (Some (Rrow type p));
    Ok (re, v)
  | Unary ZERO _ => Ok (re, v)
  | Unary type l => cfoll accept l (InUnary type :: parents) re v
  | CAT l r =>
    '(re, v) ← cfoll accept l (InCATl r :: parents) re v;
    cfoll accept r (InCATr l :: parents) re v
  | OR l r =>
    '(re, v) ← cfoll accept l (InORl r :: parents) re v;
    cfoll accept r (InORr l :: parents) re v
  end.

(** * The table of a state *)

(** The entries in use, by their characters, and how many there is room for. *)
Record gtt := Gtt { allocated : Z; entries : list (Z * nat) }.
Definition inuse (t : gtt) : nat := length (entries t).
Definition entry_cmp (l r : Z * nat) : Z := s32 (u32 (l.1 - r.1)).

(** [bsearch] of the C library: an index with an equal entry. *)
Fixpoint bsearch (fuel : nat) (key : Z * nat) (l : list (Z * nat)) (lo hi : nat) : option nat :=
  match fuel with
  | O => None
  | S fuel =>
    if (hi <=? lo)%nat then None
    else
      let i := ((lo + hi) / 2)%nat in
      match l !! i with
      | None => None
      | Some e =>
        let cmp := entry_cmp key e in
        if cmp <? 0 then bsearch fuel key l lo i
        else if 0 <? cmp then bsearch fuel key l (S i) hi
        else Some i
      end
  end.
Definition search_entry (t : gtt) (ch : Z) : option nat := bsearch (S (inuse t)) (u32 ch, 0%nat) (entries t) 0 (inuse t).
Definition entry_le (x y : Z * nat) : Prop := entry_cmp x y <= 0.
#[local] Instance entry_le_dec : RelDecision entry_le.
Proof. intros x y. unfold entry_le. apply _. Defined.
Definition qsort : list (Z * nat) -> list (Z * nat) := merge_sort entry_le.

(** 0 when the character has no entry. *)
Definition get_entry (t : gtt) (ch : Z) : nat :=
  match search_entry t ch with Some i => match entries t !! i with Some e => e.2 | None => 0%nat end | None => 0%nat end.

(** Insertion of a new entry at the end. *)
Definition add_entry (t : gtt) (ch : Z) (val : nat) : out gtt :=
  let max := if allocated t <=? Z.of_nat (inuse t) + 1 then allocated t * 2 else allocated t in
  if Z.of_nat (inuse t) <? max then Ok (Gtt max (entries t ++ [(u32 ch, val)])) else Fault.

Definition set_entry (t : gtt) (ch : Z) (val : nat) : out gtt :=
  match last (entries t) with
  | None => if 0 <? allocated t then Ok (Gtt (allocated t) [(u32 ch, val)]) else Fault
  | Some e =>
    if e.1 <? u32 ch then add_entry t ch val
    else
      match search_entry t ch with
      | Some i => Ok (Gtt (allocated t) (<[i := (u32 ch, val)]> (entries t)))
      | None => t ← add_entry t ch val; Ok (Gtt (allocated t) (qsort (entries t)))
      end
  end.

(** * Automata *)

Record fa := Fa {
  gototab : list gtt; fout : list Z; posns : list (option (list nat));
  anchor : bool; initstat : nat; curstat : nat; accept : nat;
  fre : list (option rrow) }.
Definition state_count (f : fa) : nat := length (gototab f).

Definition with_gototab (f : fa) g := Fa g (fout f) (posns f) (anchor f) (initstat f) (curstat f) (accept f) (fre f).
Definition with_out (f : fa) o := Fa (gototab f) o (posns f) (anchor f) (initstat f) (curstat f) (accept f) (fre f).
Definition with_posns (f : fa) p := Fa (gototab f) (fout f) p (anchor f) (initstat f) (curstat f) (accept f) (fre f).
Definition with_curstat (f : fa) c := Fa (gototab f) (fout f) (posns f) (anchor f) (initstat f) c (accept f) (fre f).
Definition with_initstat (f : fa) a i := Fa (gototab f) (fout f) (posns f) a i (curstat f) (accept f) (fre f).

Definition resize_state (f : fa) (state : nat) : fa :=
  if (S state <? state_count f)%nat then f
  else
    let more := (S state + 10 - state_count f)%nat in
    with_posns (with_out (with_gototab f (gototab f ++ replicate more (Gtt NCHARS [])))
      (fout f ++ replicate more 0)) (posns f ++ replicate more None).

Definition get_gototab (f : fa) (state : nat) (ch : Z) : out nat := t ← get (gototab f) state; Ok (get_entry t ch).
Definition set_gototab (f : fa) (state : nat) (ch : Z) (val : nat) : out fa :=
  t ← get (gototab f) state;
  t ← set_entry t ch val;
  g ← put (gototab f) state t;
  Ok (with_gototab f g).
Definition clear_gototab (f : fa) (state : nat) : out fa :=
  t ← get (gototab f) state;
  g ← put (gototab f) state (Gtt (allocated t) []);
  Ok (with_gototab f g).
Definition set_posns (f : fa) (state : nat) (p : list nat) : out fa := q ← put (posns f) state (Some p); Ok (with_posns f q).
Definition set_out (f : fa) (state : nat) (x : Z) : out fa := o ← put (fout f) state x; Ok (with_out f o).
Definition get_posns (f : fa) (state : nat) : out (list nat) := p ← get (posns f) state; deref p.

Fixpoint member (c : Z) (s : list Z) : bool :=
  match s with [] => false | x :: s => if x =? 0 then false else if c =? x then true else member c s end.

(** The leaf takes the character. *)
Definition takes (k : leaf) (c : Z) : bool :=
  match k with
  | CHAR x => c =? x
  | DOT => negb (c =? 0) && negb (c =? HAT)
  | ALL => negb (c =? 0)
  | EMPTYRE => negb (c =? 0)
  | CCL s => member c s
  | NCCL s => negb (member c s) && negb (c =? 0) && negb (c =? HAT)
  | FINAL => false
  end.

(** [p[i]] for [i] from 1 to [*p]. *)
Definition elements (p : list nat) : out (list nat) :=
  n ← get p 0; if (n <? length p)%nat then Ok (take n (drop 1 p)) else Fault.

Fixpoint add_positions (q : list nat) (v : sets) : out sets :=
  match q with
  | [] => Ok v
  | j :: q =>
    let v := if (maxsetvec v <=? j)%nat then resizesetvec v else v in
    x ← get (setvec v) j;
    v ← (if x =? 0 then s ← put (setvec v) j 1; Ok (Sets s (S (setcnt v))) else Ok v);
    add_positions q v
  end.

Fixpoint step_positions (re : list (option rrow)) (c : Z) (p : list nat) (v : sets) : out sets :=
  match p with
  | [] => Ok v
  | i :: p =>
    r ← get re i; r ← deref r;
    v ← (if takes (ltype r) c then q ← elements (lfollow r); add_positions q v else Ok v);
    step_positions re c p v
  end.

(** [tmpset == previous state?], from state [i] on. *)
Fixpoint find_state (f : fa) (tmpset : list nat) (n i : nat) : out (option nat) :=
  match n with
  | O => Ok None
  | S n =>
    p ← get_posns f i;
    k ← get tmpset 0;
    k' ← get p 0;
    if negb (k =? k')%nat then find_state f tmpset n (S i)
    else
      l ← elements p;
      if decide (l = drop 1 tmpset) then Ok (Some i) else find_state f tmpset n (S i)
  end.

(** [tmpset] has as many entries as [setvec], the first of them for the count. *)
Definition cgoto (f : fa) (s : nat) (c : Z) (v : sets) : out (nat * fa * sets) :=
  v ← clear_sets (accept f) v;
  let f := resize_state f s in
  p ← get_posns f s;
  p ← elements p;
  v ← step_positions (fre f) c p v;
  l ← positions (fun x => negb (x =? 0)) (accept f) v;
  tmpset ← posarray (setcnt v) l;
  if (maxsetvec v <? S (length l))%nat then Fault
  else
    let f := resize_state f (max (curstat f) s) in
    same ← find_state f tmpset (curstat f) 1;
    match same with
    | Some i => f ← (if c =? HAT then Ok f else set_gototab f s c i); Ok (i, f, v)
    | None =>
      let f := with_curstat f (S (curstat f)) in
      let f := resize_state f (curstat f) in
      f ← clear_gototab f (curstat f);
      f ← set_posns f (curstat f) tmpset;
      f ← (if c =? HAT then Ok f else set_gototab f s c (curstat f));
      x ← get (setvec v) (accept f);
      f ← set_out f (curstat f) (if x =? 0 then 0 else 1);
      Ok (curstat f, f, v)
    end.

Definition makeinit (f : fa) (anchor : bool) (v : sets) : out (nat * fa * sets) :=
  let f := with_curstat f 2 in
  f ← set_out f 2 0;
  r ← get (fre f) 0; r ← deref r;
  k ← get (lfollow r) 0;
  l ← elements (lfollow r);
  f ← set_posns f 2 (k :: l);
  x ← get (k :: l) 1;
  f ← (if (x =? accept f)%nat then set_out f 2 1 else Ok f);
  f ← clear_gototab f 2;
  '(s, f, v) ← cgoto f 2 HAT v;
  let f := with_curstat f s in
  if anchor then
    p2 ← get_posns f 2;
    p2 ← put p2 0 (k - 1)%nat;
    f ← set_posns f 2 p2;
    p0 ← get_posns f 0;
    if (length p0 <? k)%nat then Fault
    else
      f ← set_posns f 0 (take k p2 ++ drop k p0);
      o ← get (fout f) 2;
      f ← set_out f 0 o;
      f ← (if (curstat f =? 2)%nat then Ok f
           else p ← get_posns f (curstat f); n ← get p 0; p ← put p 0 (n - 1)%nat; set_posns f (curstat f) p);
      Ok (curstat f, f, v)
  else Ok (curstat f, f, v).

(** [mkdfa] behind [reparse]. *)
Definition mkdfa_tree (p : Node) (anchor : bool) (v : sets) : out (fa * sets) :=
  let p1 := CAT (Unary STAR (Leaf ALL None)) p in
  let p1 := CAT p1 (Leaf FINAL None) in
  let '(p1, poscnt) := penter p1 0 in
  let accept := (poscnt - 1)%nat in
  '(re, v) ← cfoll accept p1 [] (replicate (S poscnt) None) v;
  let f := resize_state (Fa [] [] [] false 0 0 accept re) 1 in
  r ← get re 0; r ← deref r;
  k ← get (lfollow r) 0;
  f ← set_posns f 0 (replicate k 0%nat);
  f ← set_posns f 1 [0%nat];
  '(i, f, v) ← makeinit f anchor v;
  Ok (with_initstat f anchor i, v).

(** * Searches *)

(** [u8_rune] (run.c) on the bytes up to the NUL: the rune and its length.  [single]
    says that [awk_mb_cur_max] is 1. *)
Context (single : bool).
Definition u8_rune (s : list Z) : Z * nat :=
  let b i := nth i s 0 in
  let cont i := b i .& 192 =? 128 in
  let c := b 0%nat in
  let n := length s in
  if (c <? 128) || single then (c, 1%nat)
  else if (2 <=? n)%nat && ((c .>> 5) .& 7 =? 6) && cont 1%nat then
    (((c .& 31) .<< 6) .| (b 1%nat .& 63), 2%nat)
  else if (3 <=? n)%nat && ((c .>> 4) .& 15 =? 14) && cont 1%nat && cont 2%nat then
    (((c .& 15) .<< 12) .| ((b 1%nat .& 63) .<< 6) .| (b 2%nat .& 63), 3%nat)
  else if (4 <=? n)%nat && ((c .>> 3) .& 31 =? 30) && cont 1%nat && cont 2%nat && cont 3%nat then
    (((c .& 7) .<< 18) .| ((b 1%nat .& 63) .<< 12) .| ((b 2%nat .& 63) .<< 6) .| (b 3%nat .& 63), 4%nat)
  else (c, 1%nat).

(** One character of a search. *)
Definition goto (f : fa) (s : nat) (rune : Z) (v : sets) : out (nat * fa * sets) :=
  ns ← get_gototab f s rune;
  if negb (ns =? 0)%nat then Ok (ns, f, v) else cgoto f s rune v.

Fixpoint match_loop (fuel : nat) (f : fa) (s : nat) (p : list Z) (v : sets) : out (bool * fa * sets) :=
  match fuel with
  | O => Fault
  | S fuel =>
    let '(rune, n) := u8_rune p in
    '(s, f, v) ← goto f s rune v;
    o ← get (fout f) s;
    if negb (o =? 0) then Ok (true, f, v)
    else match p with [] => Ok (false, f, v) | _ => match_loop fuel f s (drop n p) v end
  end.
Definition match_ (f : fa) (p0 : list Z) (v : sets) : out (bool * fa * sets) :=
  let s := initstat f in
  o ← get (fout f) s;
  if negb (o =? 0) then Ok (true, f, v) else match_loop (S (length p0)) f s p0 v.

(** The inner loop of [pmatch] and [nematch]: the longest match from a position, of
    which [read] bytes have been read.  [patlen] is -1 while there is none.  The result
    says whether the automaton was left by state 1. *)
Fixpoint longest (fuel : nat) (f : fa) (s : nat) (q : list Z) (read patlen : Z) (v : sets) : out (Z * fa * sets) :=
  match fuel with
  | O => Fault
  | S fuel =>
    o ← get (fout f) s;
    let patlen := if negb (o =? 0) then read else patlen in
    let '(rune, n) := u8_rune q in
    '(s, f, v) ← goto f s rune v;
    if negb (s <? state_count f)%nat then Fault
    else if (s =? 1)%nat then Ok (patlen, f, v)
    else match q with
         | [] => o ← get (fout f) s; Ok (if negb (o =? 0) then read else patlen, f, v)
         | _ => longest fuel f s (drop n q) (read + Z.of_nat n) patlen v
         end
  end.

(** [patbeg] as an offset, and [patlen]. *)
Fixpoint pmatch_loop (fuel : nat) (f : fa) (s : nat) (p : list Z) (patbeg : Z) (v : sets) : out (option (Z * Z) * fa * sets) :=
  match fuel with
  | O => Fault
  | S fuel =>
    '(patlen, f, v) ← longest (S (length p)) f s p 0 (-1) v;
    if 0 <=? patlen then Ok (Some (patbeg, patlen), f, v)
    else match p with
         | [] => Ok (None, f, v)
         | _ => let '(_, n) := u8_rune p in pmatch_loop fuel f 2 (drop n p) (patbeg + Z.of_nat n) v
         end
  end.
Definition pmatch (f : fa) (p0 : list Z) (v : sets) : out (option (Z * Z) * fa * sets) :=
  pmatch_loop (S (length p0)) f (initstat f) p0 0 v.

Fixpoint nematch_loop (fuel : nat) (f : fa) (s : nat) (p : list Z) (patbeg patlen : Z) (v : sets) : out (option (Z * Z) * fa * sets) :=
  match fuel with
  | O => Fault
  | S fuel =>
    match p with
    | [] => Ok (None, f, v)
    | _ :: p' =>
      '(patlen, f, v) ← longest (S (length p)) f s p 0 patlen v;
      if 0 <? patlen then Ok (Some (patbeg, patlen), f, v)
      else nematch_loop fuel f 2 p' (patbeg + 1) patlen v
    end
  end.
Definition nematch (f : fa) (p0 : list Z) (v : sets) : out (option (Z * Z) * fa * sets) :=
  nematch_loop (S (length p0)) f (initstat f) p0 0 (-1) v.
End Fa.

Section Runs.
Let v0 := resizesetvec 7 (Sets [] 0).
Let chars s := CHAR (chr s).
Let re1 := CAT (Leaf (chars "a") None) (CAT (Unary STAR (OR (Leaf (chars "b") None) (Leaf DOT None))) (Leaf (chars "c") None)).

Example pmatch_runs : match '(f, v) ← mkdfa_tree 7 re1 true v0; pmatch 7 true f (codes "xxabbczcz") v with Ok (r, _, _) => r | _ => None end = Some (2, 6).
Proof. vm_compute. reflexivity. Qed.
Example match_runs : match '(f, v) ← mkdfa_tree 7 re1 false v0; match_ 7 true f (codes "xxabbczcz") v with Ok (r, _, _) => r | _ => false end = true.
Proof. vm_compute. reflexivity. Qed.
(** Twenty optional characters: all 22 positions are in one set, and [tmpset] has no
    room for the count. *)
Example overrun : mkdfa_tree 7 (Nat.iter 19 (fun n => CAT n (Unary QUEST (Leaf (chars "a") None))) (Unary QUEST (Leaf (chars "a") None))) true v0 = Fault.
Proof. vm_compute. reflexivity. Qed.
End Runs.
