(* ===== verification/AwkLang.v ===== *)
(** The language of a regular expression of awk, and the positions of its leaves: the
    leaves a text can begin with, those that can follow a leaf, and the text that is
    still to come at a leaf. *)

From stdpp Require Import numbers list.
From S2P Require Import Prelude AwkFa.

(** * Languages *)

(** The end mark and the empty expression stand for the empty text, and so does the
    class without characters, as which [()] is read. *)
Inductive lang : Node -> list Z -> Prop :=
| lang_leaf k i c : k <> EMPTYRE -> takes k c = true -> lang (Leaf k i) [c]
| lang_empty i : lang (Leaf EMPTYRE i) []
| lang_final i : lang (Leaf FINAL i) []
| lang_ccl s i : hd 0 s = 0 -> lang (Leaf (CCL s) i) []
| lang_star_nil n : lang (Unary STAR n) []
| lang_star n v u : lang n v -> lang (Unary STAR n) u -> lang (Unary STAR n) (v ++ u)
| lang_plus n v u : lang n v -> lang (Unary STAR n) u -> lang (Unary PLUS n) (v ++ u)
| lang_quest_nil n : lang (Unary QUEST n) []
| lang_quest n v : lang n v -> lang (Unary QUEST n) v
| lang_zero n : lang (Unary ZERO n) []
| lang_cat l r v u : lang l v -> lang r u -> lang (CAT l r) (v ++ u)
| lang_or_l l r v : lang l v -> lang (OR l r) v
| lang_or_r l r v : lang r v -> lang (OR l r) v.
#[export] Hint Constructors lang : core.

Lemma lang_cat_inv l r w : lang (CAT l r) w -> exists v u, w = v ++ u /\ lang l v /\ lang r u.
Proof. inversion 1; subst. eauto. Qed.
Lemma lang_plus_inv n w : lang (Unary PLUS n) w -> exists v u, w = v ++ u /\ lang n v /\ lang (Unary STAR n) u.
Proof. inversion 1; subst. eauto. Qed.
Lemma lang_star_ind n (Q : list Z -> Prop) : Q [] -> (forall v u, lang n v -> lang (Unary STAR n) u -> Q u -> Q (v ++ u)) ->
  forall w, lang (Unary STAR n) w -> Q w.
Proof.
  intros Hnil Hcons w Hw. remember (Unary STAR n) as m eqn:Em. induction Hw as [| | | | |n' v u Hv _ Hu IH| | | | | | |]; try done; injection Em as ->; auto.
Qed.

(** * Positions *)

(** A leaf with its number and its parents. *)
Definition pos : Type := nat * leaf * list parent.
Definition leaf_of (p : pos) : Node := let '(i, k, _) := p in Leaf k (Some i).

Fixpoint nullable (n : Node) : bool :=
  match n with
  | Leaf EMPTYRE _ => true
  | Leaf (CCL s) _ => hd 0 s =? 0
  | Leaf _ _ => false
  | Unary PLUS l => nullable l
  | Unary _ _ => true
  | CAT l r => nullable l && nullable r
  | OR l r => nullable l || nullable r
  end.

Fixpoint firsts (n : Node) (parents : list parent) : list pos :=
  match n with
  | Leaf EMPTYRE _ | Leaf _ None => []
  | Leaf k (Some i) => [(i, k, parents)]
  | Unary ZERO _ => []
  | Unary t l => firsts l (InUnary t :: parents)
  | CAT l r => firsts l (InCATl r :: parents) ++ if nullable l then firsts r (InCATr l :: parents) else []
  | OR l r => firsts l (InORl r :: parents) ++ firsts r (InORr l :: parents)
  end.

Definition final (n : Node) : bool := match n with Leaf FINAL _ => true | _ => false end.
Fixpoint follows (n : Node) (parents : list parent) : list pos :=
  if final n then []
  else
    match parents with
    | [] => []
    | p :: parents =>
      match p with
      | InUnary (STAR | PLUS) => firsts n (p :: parents) ++ follows (plug p n) parents
      | InUnary ZERO => []
      | InCATl r => firsts r (InCATr n :: parents) ++ if nullable r then follows (plug p n) parents else []
      | InUnary QUEST | InORl _ | InORr _ | InCATr _ => follows (plug p n) parents
      end
    end.

(** What may come behind a node on the way to one of its parents. *)
Definition behind (p : parent) (n : Node) (u : list Z) : Prop :=
  match p with
  | InUnary (STAR | PLUS) => lang (Unary STAR n) u
  | InCATl r => lang r u
  | _ => u = []
  end.
Fixpoint cont (n : Node) (parents : list parent) (w : list Z) : Prop :=
  match parents with
  | [] => w = []
  | p :: parents => exists u1 u2, w = u1 ++ u2 /\ behind p n u1 /\ cont (plug p n) parents u2
  end.

(** The texts that can be read from a leaf on. *)
Definition rest (p : pos) (w : list Z) : Prop :=
  let '(i, k, parents) := p in
  match k with
  | FINAL => cont (leaf_of p) parents w
  | _ => exists c u, w = c :: u /\ takes k c = true /\ cont (leaf_of p) parents u
  end.
Definition rests (l : list pos) (w : list Z) : Prop := exists p, p ∈ l /\ rest p w.

Lemma rests_app l1 l2 w : rests (l1 ++ l2) w <-> rests l1 w \/ rests l2 w.
Proof. unfold rests. setoid_rewrite elem_of_app. naive_solver. Qed.

(** All leaves that are not below a [ZERO] have a number. *)
Fixpoint numbered (n : Node) : Prop :=
  match n with
  | Leaf _ info => is_Some info
  | Unary ZERO _ => True
  | Unary _ l => numbered l
  | CAT l r | OR l r => numbered l /\ numbered r
  end.

Lemma nullable_lang n : nullable n = true -> lang n [].
Proof.
  induction n as [k i|t l IH|l IHl r IHr|l IHl r IHr]; cbn.
  - destruct k; try done. intros Hs%Z.eqb_eq. by constructor.
  - destruct t; auto. intros Hl. change ([] : list Z) with ([] ++ [] : list Z). auto.
  - intros [Hl Hr]%andb_true_iff. change ([] : list Z) with ([] ++ [] : list Z). auto.
  - intros [Hl|Hr]%orb_true_iff; auto.
Qed.

Lemma cont_cons n p parents u1 u2 : behind p n u1 -> cont (plug p n) parents u2 -> cont n (p :: parents) (u1 ++ u2).
Proof. cbn. eauto. Qed.
Lemma cont_skip n p parents u : behind p n [] -> cont (plug p n) parents u -> cont n (p :: parents) u.
Proof. intros Hb Hc. by apply (cont_cons _ _ _ [] u). Qed.

Definition first_complete_at (n : Node) : Prop := forall parents v u, numbered n -> lang n v -> cont n parents u ->
  v = [] /\ nullable n = true \/ rests (firsts n parents) (v ++ u).

Lemma star_firsts n t parents : first_complete_at n -> numbered n -> t = STAR \/ t = PLUS -> forall v, lang (Unary STAR n) v ->
  forall u, cont (Unary t n) parents u -> v = [] \/ rests (firsts n (InUnary t :: parents)) (v ++ u).
Proof.
  intros Hn Hnum Ht. refine (lang_star_ind _ _ _ _); [by left|]. intros v w Hv Hw IH u Hu.
  destruct (Hn (InUnary t :: parents) v (w ++ u) Hnum Hv) as [[-> Hnull]|Hr].
  - apply cont_cons; [by destruct Ht as [->| ->]|done].
  - by apply IH.
  - right. by rewrite <- app_assoc.
Qed.

Lemma firsts_complete n : first_complete_at n.
Proof.
  induction n as [k i|t l IH|l IHl r IHr|l IHl r IHr]; intros parents v u Hnum Hv Hu.
  - destruct Hnum as [j ->]. inversion Hv as [k' i' c Hk Hc| | |s i' Hs| | | | | | | | |]; subst; cbn; try by auto.
    + right. destruct k; try done; (eexists; split; [by apply list_elem_of_singleton|]; cbn; eauto).
    + right. eexists. split; [by apply list_elem_of_singleton|]. done.
    + left. split; [done|]. by apply Z.eqb_eq.
  - destruct t; cbn in Hnum |- *.
    + destruct (star_firsts l STAR parents IH Hnum (or_introl eq_refl) v Hv u Hu) as [->|]; auto.
    + apply lang_plus_inv in Hv as (v1 & v2 & -> & Hv1 & Hv2).
      destruct (IH (InUnary PLUS :: parents) v1 (v2 ++ u) Hnum Hv1) as [[-> Hnull]|Hr]; [by apply cont_cons| |right; by rewrite <- app_assoc].
      destruct (star_firsts l PLUS parents IH Hnum (or_intror eq_refl) v2 Hv2 u Hu) as [->|]; auto.
    + inversion Hv; subst; [by auto|]. destruct (IH (InUnary QUEST :: parents) v u Hnum ltac:(done)) as [[-> ?]|]; auto. by apply cont_skip.
    + inversion Hv; subst. by auto.
  - destruct Hnum as [Hnl Hnr]. apply lang_cat_inv in Hv as (v1 & v2 & -> & Hv1 & Hv2). cbn.
    destruct (IHl (InCATl r :: parents) v1 (v2 ++ u) Hnl Hv1) as [[-> Hl]|Hr]; [by apply cont_cons| |].
    + rewrite Hl. destruct (IHr (InCATr l :: parents) v2 u Hnr Hv2) as [[-> Hr]|Hr]; [by apply cont_skip|by left|].
      right. apply rests_app. by right.
    + right. apply rests_app. left. by rewrite <- app_assoc.
  - destruct Hnum as [Hnl Hnr]. cbn. rewrite rests_app, orb_true_iff. inversion Hv; subst.
    + destruct (IHl (InORl r :: parents) v u Hnl ltac:(done)) as [[-> ?]|]; [by apply cont_skip|auto..].
    + destruct (IHr (InORr l :: parents) v u Hnr ltac:(done)) as [[-> ?]|]; [by apply cont_skip|auto..].
Qed.

Lemma firsts_sound n : forall parents w, rests (firsts n parents) w -> exists v u, w = v ++ u /\ lang n v /\ cont n parents u.
Proof.
  induction n as [k i|t l IH|l IHl r IHr|l IHl r IHr]; intros parents w Hw.
  - destruct i as [i|]; [|destruct Hw as (p & Hp & _); destruct k; by apply elem_of_nil in Hp].
    destruct Hw as (p & Hp & Hr).
    assert (k <> EMPTYRE /\ p = (i, k, parents)) as [Hk ->] by (destruct k; cbn in Hp; (by apply elem_of_nil in Hp) || (apply list_elem_of_singleton in Hp; done)).
    destruct k; try done; cbn in Hr; try (destruct Hr as (x & u & -> & Hc & Hu); exists [x], u; split_and!; [done|by constructor|done]).
    exists [], w. split_and!; [done|constructor|done].
  - destruct t; cbn in Hw.
    + apply IH in Hw as (v & u & -> & Hv & (u1 & u2 & -> & Hu1 & Hu2)). exists (v ++ u1), u2. rewrite app_assoc. cbn in Hu1. split_and!; [done|auto|done].
    + apply IH in Hw as (v & u & -> & Hv & (u1 & u2 & -> & Hu1 & Hu2)). exists (v ++ u1), u2. rewrite app_assoc. cbn in Hu1. split_and!; [done|auto|done].
    + apply IH in Hw as (v & u & -> & Hv & (u1 & u2 & -> & -> & Hu2)). exists v, u2. split_and!; [done|auto|done].
    + destruct Hw as (p & Hp & _). by apply elem_of_nil in Hp.
  - cbn in Hw. apply rests_app in Hw as [Hw|Hw].
    + apply IHl in Hw as (v & u & -> & Hv & (u1 & u2 & -> & Hu1 & Hu2)). exists (v ++ u1), u2. rewrite app_assoc. cbn in Hu1. split_and!; [done|auto|done].
    + destruct (nullable l) eqn:El; [|destruct Hw as (p & Hp & _); by apply elem_of_nil in Hp].
      apply IHr in Hw as (v & u & -> & Hv & (u1 & u2 & -> & -> & Hu2)). exists ([] ++ v), u2. split_and!; [done|auto using nullable_lang|done].
  - cbn in Hw. apply rests_app in Hw as [Hw|Hw].
    + apply IHl in Hw as (v & u & -> & Hv & (u1 & u2 & -> & -> & Hu2)). exists v, u2. split_and!; [done|auto|done].
    + apply IHr in Hw as (v & u & -> & Hv & (u1 & u2 & -> & -> & Hu2)). exists v, u2. split_and!; [done|auto|done].
Qed.

(** * What follows a leaf *)

Definition par_numbered (p : parent) : Prop :=
  match p with InUnary t => t <> ZERO | InCATl n | InCATr n | InORl n | InORr n => numbered n end.
(** On the way up there is a sibling to the right that is not empty. *)
Definition closed (parents : list parent) : Prop :=
  Forall par_numbered parents /\ Exists (fun p => exists r, p = InCATl r /\ nullable r = false) parents.

Lemma numbered_plug p n : par_numbered p -> numbered n -> numbered (plug p n).
Proof. destruct p as [[]| | | |]; cbn; auto. Qed.
Lemma not_final_plug p n : final (plug p n) = false.
Proof. by destruct p. Qed.

Lemma closed_up p parents : closed (p :: parents) -> (forall r, p = InCATl r -> nullable r = true) -> closed parents.
Proof.
  intros [Hn Hc] Hp. apply Forall_cons in Hn as [_ Hn]. split; [done|]. apply Exists_cons in Hc as [(r & -> & Hr)|Hc]; [|done].
  rewrite (Hp r eq_refl) in Hr. done.
Qed.

Lemma follows_cons n p parents : final n = false ->
  follows n (p :: parents) =
    match p with
    | InUnary (STAR | PLUS) => firsts n (p :: parents) ++ follows (plug p n) parents
    | InUnary ZERO => []
    | InCATl r => firsts r (InCATr n :: parents) ++ if nullable r then follows (plug p n) parents else []
    | InUnary QUEST | InORl _ | InORr _ | InCATr _ => follows (plug p n) parents
    end.
Proof. intros Hf. destruct n as [[]| | |]; try done. Qed.

Lemma follows_spec parents : forall n w, numbered n -> final n = false -> closed parents -> cont n parents w <-> rests (follows n parents) w.
Proof.
  induction parents as [|p parents IH]; intros n w Hnum Hf Hc; [by destruct Hc as [_ Hc%Exists_nil]|].
  rewrite follows_cons by done. pose proof Hc as [Hp _]. apply Forall_cons in Hp as [Hp _].
  assert ((forall r, p = InCATl r -> nullable r = true) -> forall u, cont (plug p n) parents u <-> rests (follows (plug p n) parents) u) as Hup.
  { intros Hn u. apply IH; [by apply numbered_plug|by apply not_final_plug|by eapply closed_up]. }
  assert (forall t, t = STAR \/ t = PLUS -> p = InUnary t -> cont n (p :: parents) w <-> rests (firsts n (p :: parents) ++ follows (plug p n) parents) w) as Hrep.
  { intros t Ht ->. rewrite rests_app. split.
    - intros (u1 & u2 & -> & Hu1 & Hu2). assert (lang (Unary STAR n) u1) as Hs by (by destruct Ht as [->| ->]).
      destruct (star_firsts n t parents (firsts_complete n) Hnum Ht _ Hs u2 Hu2) as [->|]; [|by left]. right. by apply Hup.
    - intros [Hw|Hw]; [|apply cont_skip; [destruct Ht as [->| ->]; cbn; auto|by apply Hup]].
      apply firsts_sound in Hw as (v & u & -> & Hv & (u1 & u2 & -> & Hu1 & Hu2)). rewrite app_assoc. apply cont_cons; [|done].
      destruct Ht as [->| ->]; cbn in *; auto. }
  assert (behind p n = (fun u => u = []) -> (forall r, p <> InCATl r) -> cont n (p :: parents) w <-> rests (follows (plug p n) parents) w) as Hskip.
  { intros Hb Hr. rewrite <- Hup by (intros r ->; by destruct (Hr r)). cbn. rewrite Hb. split; [by intros (u1 & u2 & -> & -> & ?)|]. intros Hw. by exists [], w. }
  destruct p as [[]|r|l|r|l]; try (by apply Hskip).
  - by apply (Hrep STAR); auto.
  - by apply (Hrep PLUS); auto.
  - done.
  - rewrite rests_app. split.
    + intros (u1 & u2 & -> & Hu1 & Hu2). destruct (firsts_complete r (InCATr n :: parents) u1 u2 Hp Hu1) as [[-> Hr]|Hr]; [by apply cont_skip| |by left].
      right. rewrite Hr. apply Hup; [by intros ? [= <-]|done].
    + intros [Hw|Hw].
      * apply firsts_sound in Hw as (v & u & -> & Hv & (u1 & u2 & -> & -> & Hu2)). by apply cont_cons.
      * destruct (nullable r) eqn:Er; [|destruct Hw as (q & Hq & _); by apply elem_of_nil in Hq].
        apply cont_skip; [by apply nullable_lang|]. apply Hup; [by intros ? [= <-]|done].
Qed.
