(* ===== verification/AwkSets.v ===== *)
(** The marks in [setvec]: [first] and [follow] mark the leaves of [AwkLang.firsts] and
    [AwkLang.follows], and [cfoll] writes them down for every leaf. *)

From stdpp Require Import numbers list.
From S2P Require Import Prelude AwkFa AwkLang.

Definition idx (p : pos) : nat := p.1.1.

(** All leaves of a node that are not below a [ZERO]. *)
Fixpoint leaves (n : Node) (parents : list parent) : list pos :=
  match n with
  | Leaf _ None => []
  | Leaf k (Some i) => [(i, k, parents)]
  | Unary ZERO _ => []
  | Unary t l => leaves l (InUnary t :: parents)
  | CAT l r => leaves l (InCATl r :: parents) ++ leaves r (InCATr l :: parents)
  | OR l r => leaves l (InORl r :: parents) ++ leaves r (InORr l :: parents)
  end.

Lemma filter_agree {A} (P Q : A -> Prop) `{!forall x, Decision (P x)} `{!forall x, Decision (Q x)} (l : list A) :
  (forall x, x ∈ l -> P x <-> Q x) -> filter P l = filter Q l.
Proof.
  intros Hpq. induction l as [|x l IH]; [done|]. rewrite !filter_cons, IH by (intros; apply Hpq; by right).
  destruct (Hpq x ltac:(by left)). destruct (decide (P x)), (decide (Q x)); tauto.
Qed.

(** * Growing *)

(** The sizes [setvec] takes. *)
Definition sized (v : sets) : Prop := exists k, maxsetvec v = (MAXLIN * 4 ^ k)%nat.
Definition extends (v v' : sets) : Prop := sized v' /\ exists more, v' = Sets (setvec v ++ more) (setcnt v).

Lemma extends_refl v : sized v -> extends v v.
Proof. intros Hs. split; [done|]. exists []. destruct v. by rewrite app_nil_r. Qed.
Lemma extends_trans v1 v2 v3 : extends v1 v2 -> extends v2 v3 -> extends v1 v3.
Proof. intros [_ [m1 ->]] [Hs [m2 ->]]. split; [done|]. exists (m1 ++ m2). cbn. by rewrite app_assoc. Qed.

Section Sets.
Context (junk : Z).

Lemma resize_extends v : sized v -> extends v (resizesetvec junk v) /\ (maxsetvec v < maxsetvec (resizesetvec junk v))%nat.
Proof.
  intros [k Hk]. assert (0 < 4 ^ k)%nat as Hpos by (by apply Nat.neq_0_lt_0, Nat.pow_nonzero).
  assert (maxsetvec (resizesetvec junk v) = (maxsetvec v * 4)%nat) as E.
  { unfold resizesetvec. unfold maxsetvec at 1. cbn. rewrite length_app, length_replicate. change (length (setvec v)) with (maxsetvec v).
    destruct (Nat.eqb_spec (maxsetvec v) 0) as [E|E]; unfold MAXLIN in *; lia. }
  split; [|unfold MAXLIN in *; lia]. split; [|by eexists]. exists (S k). rewrite E, Hk. cbn [Nat.pow]. lia.
Qed.

Lemma resize_while_ok fuel small bound : forall v, sized v -> (forall w, small w = true -> setcnt w = setcnt v -> (maxsetvec w <= bound)%nat) ->
  (bound < maxsetvec v + fuel)%nat -> exists v', resize_while junk (S fuel) small v = Ok v' /\ small v' = false /\ extends v v'.
Proof.
  induction fuel as [|fuel IH]; intros v Hs Hb Hf; cbn [resize_while].
  - destruct (small v) eqn:Ev; [|exists v; auto using extends_refl]. apply Hb in Ev; [lia|done].
  - destruct (small v) eqn:Ev; [|exists v; auto using extends_refl]. destruct (resize_extends v Hs) as [Hx Hlt].
    destruct (IH (resizesetvec junk v)) as (v' & Ev' & Hv' & Hx'); [apply Hx|done|lia|]. exists v'. eauto using extends_trans.
Qed.

(** * Marks *)

Context (kind : nat -> leaf) (accept : nat).

Definition marked (v : sets) (i : nat) : Prop := (i <= accept)%nat /\ setvec v !! i = Some 1.
#[local] Instance marked_dec v i : Decision (marked v i).
Proof. unfold marked. apply _. Defined.
Definition marks (v : sets) : list nat := filter (marked v) (seq 0 (S accept)).

Record sets_ok (v : sets) : Prop := {
  ok_size : sized v;
  ok_room : (accept < maxsetvec v)%nat;
  ok_values : forall i, (i <= accept)%nat -> setvec v !! i = Some 0 \/ setvec v !! i = Some 1;
  ok_count : setcnt v = length (marks v);
  ok_kind : forall i, marked v i -> kind i <> EMPTYRE }.

Lemma elem_of_marks v i : i ∈ marks v <-> marked v i.
Proof. clear. unfold marks. rewrite list_elem_of_filter, elem_of_seq. unfold marked. split; [tauto|]. intros [? ?]. split_and!; [done..|lia|lia]. Qed.
Lemma NoDup_marks v : NoDup (marks v).
Proof. apply NoDup_filter, NoDup_seq. Qed.
Lemma marks_le v : (length (marks v) <= S accept)%nat.
Proof. unfold marks. rewrite length_filter. by rewrite length_seq. Qed.

Lemma marks_ext v v' : (forall i, marked v i <-> marked v' i) -> marks v = marks v'.
Proof. intros Hm. unfold marks. apply list_filter_iff. intros i. apply Hm. Qed.

Lemma extends_marked v v' i : sets_ok v -> extends v v' -> marked v' i <-> marked v i.
Proof.
  intros Hok [_ [more ->]]. unfold marked. cbn. split; intros [Hi Hv]; (split; [done|]).
  - rewrite lookup_app_l in Hv; [done|]. pose proof (ok_room _ Hok). unfold maxsetvec in *. lia.
  - by apply lookup_app_l_Some.
Qed.

Lemma extends_ok v v' : sets_ok v -> extends v v' -> sets_ok v'.
Proof.
  intros Hok Hx. pose proof (fun i => extends_marked v v' i Hok Hx) as Hm. destruct Hx as [Hs [more ->]]. destruct Hok as [_ Hr Hv Hc Hk]. split; [done| | | |].
  - unfold maxsetvec in *. cbn. rewrite length_app. lia.
  - intros i Hi. cbn. rewrite lookup_app_l by (unfold maxsetvec in Hr; lia). auto.
  - cbn [setcnt]. rewrite Hc. f_equal. symmetry. by apply marks_ext.
  - intros i Hi. apply Hk. by apply Hm.
Qed.

Lemma get_Some {A} (l : list A) i x : l !! i = Some x -> get l i = Ok x.
Proof. unfold get. by intros ->. Qed.
Lemma put_lt {A} (l : list A) i x : (i < length l)%nat -> put l i x = Ok (<[i := x]> l).
Proof. unfold put. by intros ->%Nat.ltb_lt. Qed.

(** Marking a leaf that is not marked. *)
Lemma mark_ok v i : sets_ok v -> (i <= accept)%nat -> ~ marked v i -> kind i <> EMPTYRE ->
  let v' := Sets (<[i := 1]> (setvec v)) (S (setcnt v)) in sets_ok v' /\ forall j, marked v' j <-> marked v j \/ j = i.
Proof.
  intros [Hs Hr Hv Hc Hk] Hi Hni Hki v'. unfold maxsetvec in *.
  assert (forall j, marked v' j <-> marked v j \/ j = i) as Hm.
  { intros j. unfold marked, v'. cbn. destruct (decide (j = i)) as [->|Hj].
    - rewrite list_lookup_insert_eq by lia. naive_solver.
    - rewrite list_lookup_insert_ne by done. naive_solver. }
  split; [|done]. split.
  - destruct Hs as [k Hs]. exists k. unfold maxsetvec. cbn. by rewrite length_insert.
  - unfold maxsetvec. cbn. by rewrite length_insert.
  - intros j Hj. cbn. destruct (decide (j = i)) as [->|Hji]; [right; apply list_lookup_insert_eq; lia|]. rewrite list_lookup_insert_ne by done. auto.
  - cbn [setcnt v']. rewrite Hc. change (S (length (marks v))) with (length (i :: marks v)). apply Permutation_length, NoDup_Permutation.
    + constructor; [by rewrite elem_of_marks|apply NoDup_marks].
    + apply NoDup_marks.
    + intros j. rewrite elem_of_cons, !elem_of_marks, Hm. naive_solver.
  - intros j [Hj|Hj]%Hm; [by apply Hk|congruence].
Qed.

(** * Leaves of the tree *)

Fixpoint well (n : Node) : Prop :=
  match n with
  | Leaf k info => exists i, info = Some i /\ (i <= accept)%nat /\ kind i = k
  | Unary ZERO _ => True
  | Unary _ l => well l
  | CAT l r | OR l r => well l /\ well r
  end.
Definition par_well (p : parent) : Prop :=
  match p with InUnary t => t <> ZERO | InCATl n | InCATr n | InORl n | InORr n => well n end.

Lemma well_numbered n : well n -> numbered n.
Proof. induction n as [| [] | |]; cbn; naive_solver. Qed.
Lemma par_well_numbered p : par_well p -> par_numbered p.
Proof. destruct p; cbn; auto using well_numbered. Qed.
Lemma well_plug p n : par_well p -> well n -> well (plug p n).
Proof. destruct p as [[]| | | |]; cbn; auto. Qed.

(** What marking a list of positions does. *)
Definition adds (v : sets) (l : list pos) (v' : sets) : Prop :=
  sets_ok v' /\ forall i, marked v' i <-> marked v i \/ i ∈ idx <$> l.
Lemma adds_nil v : sets_ok v -> adds v [] v.
Proof. intros Hok. split; [done|]. intros i. cbn. rewrite elem_of_nil. naive_solver. Qed.
Lemma adds_app v v1 v2 l1 l2 : adds v l1 v1 -> adds v1 l2 v2 -> adds v (l1 ++ l2) v2.
Proof. intros [_ H1] [Hok H2]. split; [done|]. intros i. rewrite H2, H1, fmap_app, elem_of_app. tauto. Qed.
Lemma adds_comm v v1 v2 l1 l2 : adds v l1 v1 -> adds v1 l2 v2 -> adds v (l2 ++ l1) v2.
Proof. intros [_ H1] [Hok H2]. split; [done|]. intros i. rewrite H2, H1, fmap_app, elem_of_app. tauto. Qed.

Lemma first_leaf k i parents v : well (Leaf k (Some i)) -> sets_ok v ->
  exists r v', first junk (Leaf k (Some i)) v = Ok (r, v') /\ (r = 0 <-> nullable (Leaf k (Some i)) = true) /\ adds v (firsts (Leaf k (Some i)) parents) v'.
Proof.
  intros (j & [= <-] & Hi & Hk) Hok. cbn [first deref mbind out_bind].
  destruct (resize_while_ok (setcnt v + i + 1) (fun w => (maxsetvec w <=? setcnt w) || (maxsetvec w <=? i))%nat (max (setcnt v) i) v) as (v1 & E1 & _ & Hx).
  { apply Hok. }
  { intros w [Hw|Hw]%orb_true_iff Hc; apply Nat.leb_le in Hw; lia. }
  { pose proof (marks_le v). pose proof (ok_room _ Hok). rewrite (ok_count _ Hok). lia. }
  replace (setcnt v + i + 2)%nat with (S (setcnt v + i + 1)) by lia. rewrite E1. cbn [mbind out_bind].
  pose proof (extends_ok _ _ Hok Hx) as Hok1. pose proof (fun i => extends_marked _ _ i Hok Hx) as Hm1.
  pose proof (ok_room _ Hok1) as Hr. unfold maxsetvec in Hr.
  assert (k <> EMPTYRE -> exists v', (x ← get (setvec v1) i; v ← (if x =? 1 then Ok v1 else s ← put (setvec v1) i 1; Ok (Sets s (S (setcnt v1))));
      Ok (match k with CCL s => if hd 0 s =? 0 then 0 else 1 | _ => 1 end, v)) = Ok (match k with CCL s => if hd 0 s =? 0 then 0 else 1 | _ => 1 end, v') /\
      adds v [(i, k, parents)] v') as Hmark.
  { intros Hne. destruct (ok_values _ Hok1 i Hi) as [Ev|Ev]; rewrite (get_Some _ _ _ Ev); cbn [mbind out_bind Z.eqb].
    - rewrite put_lt by lia. cbn [mbind out_bind]. eexists. split; [done|]. destruct (mark_ok v1 i Hok1 Hi) as [Hok2 Hm2]; [unfold marked; naive_solver|congruence|].
      split; [done|]. intros j. rewrite Hm2, Hm1. cbn. by rewrite list_elem_of_singleton.
    - exists v1. split; [done|]. split; [done|]. intros j. rewrite Hm1. cbn. rewrite list_elem_of_singleton. split; [auto|].
      intros [Hj| ->]; [done|]. apply Hm1. by split. }
  destruct k; try (destruct (Hmark ltac:(done)) as (v' & -> & Ha); eexists _, v'; split; [done|]; split; [|done]; cbn;
    first [done | by destruct (_ =? 0)%Z]).
  assert (setvec v1 !! i = Some 0) as Ev.
  { destruct (ok_values _ Hok1 i Hi) as [?|Ev]; [done|]. destruct (ok_kind _ Hok1 i); [by split|done]. }
  rewrite put_lt by lia. cbn [mbind out_bind]. rewrite list_insert_id by done. eexists _, _. split; [done|]. split; [done|]. cbn.
  destruct v1; cbn. split; [done|]. intros j. rewrite Hm1, elem_of_nil. naive_solver.
Qed.

Lemma first_spec n : forall parents v, well n -> sets_ok v ->
  exists r v', first junk n v = Ok (r, v') /\ (r = 0 <-> nullable n = true) /\ adds v (firsts n parents) v'.
Proof.
  induction n as [k i|t l IH|l IHl r IHr|l IHl r IHr]; intros parents v Hw Hok.
  - destruct i as [i|]; [by apply first_leaf|by destruct Hw as (? & [=] & _)].
  - destruct t; cbn [first nullable firsts].
    + destruct (IH (InUnary STAR :: parents) v Hw Hok) as (a & v' & -> & _ & Ha). eexists _, _. split; [done|]. done.
    + destruct (IH (InUnary PLUS :: parents) v Hw Hok) as (a & v' & -> & Hn & Ha). eexists _, _. split; [done|]. done.
    + destruct (IH (InUnary QUEST :: parents) v Hw Hok) as (a & v' & -> & _ & Ha). eexists _, _. split; [done|]. done.
    + eexists _, _. split; [done|]. split; [done|]. by apply adds_nil.
  - destruct Hw as [Hwl Hwr]. cbn [first nullable firsts]. destruct (IHl (InCATl r :: parents) v Hwl Hok) as (a & v1 & -> & Hn1 & Ha1). cbn [mbind out_bind].
    destruct (Z.eqb_spec a 0) as [->|Ha].
    + rewrite (proj1 Hn1 eq_refl). destruct (IHr (InCATr l :: parents) v1 Hwr) as (b & v2 & -> & Hn2 & Ha2); [apply Ha1|].
      eexists _, _. split; [done|]. split; [done|]. by eapply adds_app.
    + destruct (nullable l); [by destruct Ha; apply Hn1|]. eexists _, _. split; [done|]. split; [done|]. by rewrite app_nil_r.
  - destruct Hw as [Hwl Hwr]. cbn [first nullable firsts]. destruct (IHr (InORr l :: parents) v Hwr Hok) as (b & v1 & -> & Hn1 & Ha1). cbn [mbind out_bind].
    destruct (IHl (InORl r :: parents) v1 Hwl) as (a & v2 & -> & Hn2 & Ha2); [apply Ha1|]. cbn [mbind out_bind]. eexists _, _. split; [done|].
    split; [|by eapply adds_comm]. rewrite orb_true_iff, <- Hn1, <- Hn2. destruct (Z.eqb_spec a 0), (Z.eqb_spec b 0); cbn; naive_solver.
Qed.
Lemma closed_par_up p parents : closed (p :: parents) -> match p with InCATl r => nullable r = true | _ => True end -> closed parents.
Proof. intros Hc Hp. eapply closed_up; [done|]. by intros r ->. Qed.

Lemma follow_spec parents : forall n v, well n -> Forall par_well parents -> closed parents -> sets_ok v ->
  exists v', follow junk n parents v = Ok v' /\ adds v (follows n parents) v'.
Proof.
  induction parents as [|p parents IH]; intros n v Hw Hps Hc Hok; [by destruct Hc as [_ Hc%Exists_nil]|].
  apply Forall_cons in Hps as [Hp Hps]. destruct (final n) eqn:Ef.
  { destruct n as [[]| | |]; try done. exists v. split; [done|]. by apply adds_nil. }
  rewrite follows_cons by done.
  assert (follow junk n (p :: parents) v = match p with
      | InUnary (STAR | PLUS) => '(_, v) ← first junk n v; follow junk (plug p n) parents v
      | InUnary QUEST | InORl _ | InORr _ | InCATr _ => follow junk (plug p n) parents v
      | InUnary ZERO => Ok v
      | InCATl r => '(a, v) ← first junk r v; if a =? 0 then follow junk (plug p n) parents v else Ok v
      end) as -> by (destruct n as [[]| | |]; try done; by destruct p as [[]| | | |]).
  pose proof (well_plug p n Hp Hw) as Hwp.
  pose proof (fun v Hok Hn => IH (plug p n) v Hwp Hps (closed_par_up _ _ Hc Hn) Hok) as Hup.
  assert (forall t, p = InUnary t -> t = STAR \/ t = PLUS -> exists v', ('(_, v) ← first junk n v; follow junk (plug p n) parents v) = Ok v' /\
    adds v (firsts n (p :: parents) ++ follows (plug p n) parents) v') as Hrep.
  { intros t -> Ht. destruct (first_spec n (InUnary t :: parents) v Hw Hok) as (a & v1 & -> & _ & Ha). cbn [mbind out_bind].
    destruct (Hup v1) as (v2 & -> & Hb); [apply Ha|done|]. exists v2. split; [done|]. by eapply adds_app. }
  destruct p as [[]|r|l|r|l]; try (by apply Hup); try (by eapply Hrep; auto).
  { done. }
  destruct (first_spec r (InCATr n :: parents) v Hp Hok) as (a & v1 & -> & Hn & Ha). cbn [mbind out_bind].
  destruct (Z.eqb_spec a 0) as [->|Hne].
  - rewrite (proj1 Hn eq_refl). destruct (Hup v1) as (v2 & -> & Hb); [apply Ha|by apply Hn|]. exists v2. split; [done|]. by eapply adds_app.
  - destruct (nullable r); [by destruct Hne; apply Hn|]. exists v1. by rewrite app_nil_r.
Qed.

Lemma clear_ok v : sized v -> exists v', clear_sets junk accept v = Ok v' /\ sets_ok v' /\ forall i, ~ marked v' i.
Proof.
  intros Hs. unfold clear_sets. replace (accept + 2)%nat with (S (accept + 1)) by lia.
  destruct (resize_while_ok (accept + 1) (fun w => maxsetvec w <=? accept)%nat accept v Hs) as (v1 & -> & Hv1%Nat.leb_gt & Hx & _); [by intros w Hw%Nat.leb_le|lia|].
  cbn [mbind out_bind]. set (v2 := Sets _ _). assert (maxsetvec v2 = maxsetvec v1) as El.
  { unfold maxsetvec in *. cbn. rewrite length_app, length_replicate, length_drop. lia. }
  assert (forall i, (i <= accept)%nat -> setvec v2 !! i = Some 0) as H0.
  { intros i Hi. unfold v2. cbn [setvec]. rewrite lookup_app_l by (rewrite length_replicate; lia). apply lookup_replicate_2. lia. }
  assert (forall i, ~ marked v2 i) as Hm by (intros i [Hi Hv]; rewrite H0 in Hv; done).
  exists v2. split; [done|]. split; [|done]. split.
  - destruct Hx as [k Hk]. exists k. congruence.
  - lia.
  - intros i Hi. left. by apply H0.
  - assert (marks v2 = []) as ->; [|done]. destruct (marks v2) as [|i l] eqn:E; [done|]. destruct (Hm i). apply elem_of_marks. rewrite E. by left.
  - intros i Hi. by destruct (Hm i).
Qed.

(** The positions of a set in the order of the arrays. *)
Definition canon (l : list nat) : list nat := reverse (filter (fun i => i ∈ l) (seq 0 (S accept))).
Definition posarr (l : list nat) : list nat := length (canon l) :: canon l.

Lemma elem_of_canon l i : i ∈ canon l <-> i ∈ l /\ (i <= accept)%nat.
Proof. clear. unfold canon. rewrite elem_of_reverse, list_elem_of_filter, elem_of_seq. split; intros [? ?]; (split; [done|lia]). Qed.
Lemma canon_ext l l' : (forall i, (i <= accept)%nat -> i ∈ l <-> i ∈ l') -> canon l = canon l'.
Proof.
  intros H. unfold canon. f_equal. apply filter_agree. intros i Hi%elem_of_seq. apply H. lia.
Qed.

Lemma positions_eq test v (Q : nat -> Prop) `{!forall i, Decision (Q i)} n :
  (forall i, (i < n)%nat -> exists x, setvec v !! i = Some x /\ (test x = true <-> Q i)) ->
  foldr (fun i m => l ← m; x ← get (setvec v) i; Ok (if test x then l ++ [i] else l)) (Ok []) (seq 0 n) = Ok (reverse (filter Q (seq 0 n))).
Proof.
  intros Hv. assert (forall k, (k <= n)%nat -> foldr (fun i m => l ← m; x ← get (setvec v) i; Ok (if test x then l ++ [i] else l)) (Ok []) (seq (n - k) k) = Ok (reverse (filter Q (seq (n - k) k)))) as Hk.
  { induction k as [|k IH]; intros Hle; [done|]. cbn [seq foldr]. replace (S (n - S k)) with (n - k)%nat by lia. rewrite IH by lia. cbn [mbind out_bind].
    destruct (Hv (n - S k)%nat) as (x & Hx & Ht); [lia|]. rewrite (get_Some _ _ _ Hx). cbn [mbind out_bind]. rewrite filter_cons.
    destruct (decide (Q (n - S k)%nat)) as [Hq|Hq].
    - by rewrite (proj2 Ht Hq), reverse_cons.
    - destruct (test x) eqn:Et; [by destruct Hq; apply Ht|done]. }
  specialize (Hk n ltac:(lia)). by rewrite Nat.sub_diag in Hk.
Qed.

Lemma positions_canon test v l : sets_ok v -> test 0 = false -> test 1 = true -> (forall i, (i <= accept)%nat -> marked v i <-> i ∈ l) -> positions test accept v = Ok (canon l).
Proof.
  intros Hok H0 H1 Hl. unfold positions, canon. apply positions_eq. intros i Hi.
  assert (i <= accept)%nat as Hle by lia. pose proof (Hl i Hle) as Hm. unfold marked in Hm.
  destruct (ok_values _ Hok i Hle) as [Ev|Ev]; rewrite Ev in Hm; eexists; (split; [done|]); rewrite ?H0, ?H1; naive_solver.
Qed.

Lemma count_canon v l : sets_ok v -> (forall i, (i <= accept)%nat -> marked v i <-> i ∈ l) -> setcnt v = length (canon l).
Proof.
  intros Hok Hl. rewrite (ok_count _ Hok). unfold canon, marks. rewrite length_reverse. f_equal. apply filter_agree.
  intros i Hi%elem_of_seq. apply Hl. lia.
Qed.

Lemma posarray_canon v l : sets_ok v -> (forall i, (i <= accept)%nat -> marked v i <-> i ∈ l) -> posarray (setcnt v) (canon l) = Ok (posarr l).
Proof.
  intros Hok Hl. unfold posarray. rewrite (count_canon v l Hok Hl), Nat.leb_refl, Nat.sub_diag. cbn. by rewrite app_nil_r.
Qed.

(** * Follow sets *)

Definition row (p : pos) : rrow := let '(i, k, parents) := p in Rrow k (posarr (idx <$> follows (leaf_of p) parents)).

Lemma leaf_follow k i parents v : well (Leaf k (Some i)) -> Forall par_well parents -> closed parents \/ k = FINAL -> sets_ok v ->
  exists v', follow junk (Leaf k (Some i)) parents v = Ok v' /\ adds v (follows (Leaf k (Some i)) parents) v'.
Proof.
  intros Hw Hp Hc Hok. destruct (decide (final (Leaf k (Some i)) = true)) as [Hf|Hf].
  - destruct k; try done. exists v. assert (follow junk (Leaf FINAL (Some i)) parents v = Ok v) as -> by (by destruct parents).
    split; [done|]. assert (follows (Leaf FINAL (Some i)) parents = []) as -> by (by destruct parents). by apply adds_nil.
  - destruct Hc as [Hc| ->]; [|done]. by apply follow_spec.
Qed.

Lemma cfoll_leaf k i parents re v : well (Leaf k (Some i)) -> Forall par_well parents -> closed parents \/ k = FINAL -> (i < length re)%nat -> sized v ->
  exists v', cfoll junk accept (Leaf k (Some i)) parents re v = Ok (<[i := Some (row (i, k, parents))]> re, v') /\ sized v'.
Proof.
  intros Hw Hp Hc Hi Hs. cbn [cfoll deref mbind out_bind]. destruct (clear_ok v Hs) as (v1 & -> & Hok1 & Hm1). cbn [mbind out_bind].
  destruct (leaf_follow k i parents v1 Hw Hp Hc Hok1) as (v2 & E2 & Hok2 & Hm2).
  assert (forall j, (j <= accept)%nat -> marked v2 j <-> j ∈ idx <$> follows (Leaf k (Some i)) parents) as Hm by (intros j _; specialize (Hm1 j); specialize (Hm2 j); tauto).
  rewrite E2. cbn [mbind out_bind]. rewrite (positions_canon _ v2 _ Hok2 eq_refl eq_refl Hm). cbn [mbind out_bind]. rewrite (posarray_canon _ _ Hok2 Hm). cbn [mbind out_bind].
  rewrite put_lt by done. cbn [mbind out_bind]. exists v2. split; [done|apply Hok2].
Qed.

Definition rows (l : list pos) (re re' : list (option rrow)) : Prop :=
  length re' = length re /\ (forall p, p ∈ l -> re' !! idx p = Some (Some (row p))) /\ (forall i, i ∉ idx <$> l -> re' !! i = re !! i).

Lemma rows_app l1 l2 re re1 re2 : NoDup (idx <$> l1 ++ l2) -> rows l1 re re1 -> rows l2 re1 re2 -> rows (l1 ++ l2) re re2.
Proof.
  rewrite fmap_app. intros (_ & Hd & _)%NoDup_app (L1 & H1 & U1) (L2 & H2 & U2). split_and!; [congruence| |].
  - intros p [Hp|Hp]%elem_of_app; [|by apply H2]. rewrite U2; [by apply H1|]. apply Hd. by apply list_elem_of_fmap_2.
  - intros i. rewrite fmap_app, not_elem_of_app. intros [Hi1 Hi2]. rewrite U2, U1 by done. done.
Qed.

Lemma cfoll_spec n : forall parents re v, well n -> Forall par_well parents -> NoDup (idx <$> leaves n parents) ->
  (forall p, p ∈ leaves n parents -> (idx p < length re)%nat /\ (closed p.2 \/ p.1.2 = FINAL)) -> sized v ->
  exists re' v', cfoll junk accept n parents re v = Ok (re', v') /\ sized v' /\ rows (leaves n parents) re re'.
Proof.
  assert (forall l r (a b : parent), (forall ps re v, well l -> Forall par_well ps -> NoDup (idx <$> leaves l ps) ->
      (forall p, p ∈ leaves l ps -> (idx p < length re)%nat /\ (closed p.2 \/ p.1.2 = FINAL)) -> sized v ->
      exists re' v', cfoll junk accept l ps re v = Ok (re', v') /\ sized v' /\ rows (leaves l ps) re re') ->
    (forall ps re v, well r -> Forall par_well ps -> NoDup (idx <$> leaves r ps) ->
      (forall p, p ∈ leaves r ps -> (idx p < length re)%nat /\ (closed p.2 \/ p.1.2 = FINAL)) -> sized v ->
      exists re' v', cfoll junk accept r ps re v = Ok (re', v') /\ sized v' /\ rows (leaves r ps) re re') ->
    forall ps re v, well l -> well r -> Forall par_well (a :: ps) -> par_well b -> NoDup (idx <$> leaves l (a :: ps) ++ leaves r (b :: ps)) ->
      (forall p, p ∈ leaves l (a :: ps) ++ leaves r (b :: ps) -> (idx p < length re)%nat /\ (closed p.2 \/ p.1.2 = FINAL)) -> sized v ->
      exists re' v', ('(re, v) ← cfoll junk accept l (a :: ps) re v; cfoll junk accept r (b :: ps) re v) = Ok (re', v') /\ sized v' /\
        rows (leaves l (a :: ps) ++ leaves r (b :: ps)) re re') as Hboth.
  { intros l r a b IHl IHr ps re v Hwl Hwr [Ha Hps]%Forall_cons Hb Hnd Hp Hs. pose proof Hnd as Hnd'. rewrite fmap_app in Hnd'. apply NoDup_app in Hnd' as (Hn1 & _ & Hn2).
    destruct (IHl (a :: ps) re v Hwl) as (re1 & v1 & -> & Hs1 & Hr1); [by constructor|done|intros p Hin; apply Hp, elem_of_app; by left|done|]. cbn [mbind out_bind].
    destruct (IHr (b :: ps) re1 v1 Hwr) as (re2 & v2 & -> & Hs2 & Hr2); [by constructor|done| |done|].
    - intros p Hin. rewrite (proj1 Hr1). apply Hp, elem_of_app. by right.
    - exists re2, v2. split_and!; [done..|]. by eapply rows_app. }
  induction n as [k i|t l IH|l IHl r IHr|l IHl r IHr]; intros parents re v Hw Hps Hnd Hp Hs.
  - destruct i as [i|]; [|by destruct Hw as (? & [=] & _)]. cbn [leaves] in *.
    destruct (Hp (i, k, parents)) as [Hi Hc]; [by left|]. destruct (cfoll_leaf k i parents re v Hw Hps Hc Hi Hs) as (v' & -> & Hs').
    eexists _, v'. split_and!; [done..|]. cbn in Hi. split_and!.
    + by rewrite length_insert.
    + intros p ->%list_elem_of_singleton. by apply list_lookup_insert_eq.
    + intros j Hj. apply list_lookup_insert_ne. intros ->. apply Hj. by left.
  - destruct t; try (by apply (IH (_ :: parents)); [done|by constructor|..]). exists re, v. split_and!; [done|done|]. split_and!; [done| |done]. by intros p ?%elem_of_nil.
  - destruct Hw as [Hwl Hwr]. cbn [cfoll]. apply Hboth; try done. by constructor.
  - destruct Hw as [Hwl Hwr]. cbn [cfoll]. apply Hboth; try done. by constructor.
Qed.
End Sets.
