(* ===== verification/AwkDfa.v ===== *)
(** The states of an automaton: the sorted table of each, and [cgoto], which finds or
    makes the state of the positions that follow the ones that take a character. *)

From stdpp Require Import numbers list sorting.
From S2P Require Import Prelude AwkFa AwkLang AwkSets.

(** * Tables *)

Definition in_range (c : Z) : Prop := 0 <= c < 2 ^ 31.
Definition ch_lt (x y : Z * nat) : Prop := x.1 < y.1.
Record table_ok (t : gtt) : Prop := {
  table_room : 2 <= allocated t /\ Z.of_nat (inuse t) < allocated t;
  table_sorted : StronglySorted ch_lt (entries t);
  table_range : Forall (fun e => in_range e.1) (entries t) }.

Lemma entry_cmp_sub x y : in_range x.1 -> in_range y.1 -> entry_cmp x y = x.1 - y.1.
Proof.
  unfold in_range, entry_cmp. intros Hx Hy. destruct (decide (x.1 - y.1 < 0)) as [Hlt|Hge].
  - assert (u32 (x.1 - y.1) = x.1 - y.1 + 2 ^ 32) as ->.
    { unfold u32. rewrite <- (Z_mod_plus_full _ 1). apply Z.mod_small. lia. }
    unfold s32, sext. rewrite Z.mod_small by lia. destruct (Z.ltb_spec (x.1 - y.1 + 2 ^ 32) (2 ^ (32 - 1))); lia.
  - rewrite u32_small by lia. apply s32_small. lia.
Qed.
Lemma u32_in_range c : in_range c -> u32 c = c.
Proof. unfold in_range. intros. apply u32_small. lia. Qed.

Lemma sorted_lookup_lt l i j x y : StronglySorted ch_lt l -> l !! i = Some x -> l !! j = Some y -> (i < j)%nat -> x.1 < y.1.
Proof.
  intros Hs. revert i j. induction Hs as [|z l Hs IH Hz]; intros i j Hi Hj Hlt; [done|].
  destruct j as [|j]; [lia|]. destruct i as [|i]; [|by apply (IH i j); [..|lia]].
  injection Hi as <-. rewrite Forall_forall in Hz. apply Hz. by apply (list_elem_of_lookup_2 l j).
Qed.

Lemma bsearch_spec fuel c v l : forall lo hi, StronglySorted ch_lt l -> Forall (fun e => in_range e.1) l -> in_range c ->
  (hi <= length l)%nat -> (hi < lo + fuel)%nat -> (forall i x, l !! i = Some x -> x.1 = c -> lo <= i < hi)%nat ->
  match bsearch fuel (c, v) l lo hi with
  | Some i => exists x, l !! i = Some x /\ x.1 = c
  | None => forall x, x ∈ l -> x.1 <> c
  end.
Proof.
  induction fuel as [|fuel IH]; intros lo hi Hs Hr Hc Hhi Hf Hin; cbn [bsearch].
  - intros x [i Hi]%list_elem_of_lookup_1 Hx. specialize (Hin i x Hi Hx). lia.
  - destruct (Nat.leb_spec hi lo) as [Hle|Hlt].
    { intros x [i Hi]%list_elem_of_lookup_1 Hx. specialize (Hin i x Hi Hx). lia. }
    assert (lo <= (lo + hi) / 2 < hi)%nat as Hmid.
    { split; [apply Nat.div_le_lower_bound; lia|apply Nat.Div0.div_lt_upper_bound; lia]. }
    set (m := ((lo + hi) / 2)%nat) in *. destruct (lookup_lt_is_Some_2 l m) as [e He]; [lia|]. rewrite He.
    assert (in_range e.1) as Hre by (rewrite Forall_forall in Hr; apply Hr; by apply list_elem_of_lookup_2 in He).
    rewrite entry_cmp_sub by done. cbn [fst]. destruct (Z.ltb_spec (c - e.1) 0) as [Hl|Hl]; [|destruct (Z.ltb_spec 0 (c - e.1)) as [Hg|Hg]].
    + apply IH; try done; [lia..|]. intros i x Hi Hx. destruct (decide (i < m)%nat) as [Him|Him]; [specialize (Hin i x Hi Hx); lia|].
      destruct (decide (i = m)) as [->|Hne]; [naive_solver lia|]. pose proof (sorted_lookup_lt l m i e x Hs He Hi ltac:(lia)). lia.
    + apply IH; try done; [lia..|]. intros i x Hi Hx. destruct (decide (m < i)%nat) as [Him|Him]; [specialize (Hin i x Hi Hx); lia|].
      destruct (decide (i = m)) as [->|Hne]; [naive_solver lia|]. pose proof (sorted_lookup_lt l i m x e Hs Hi He ltac:(lia)). lia.
    + exists e. split; [done|lia].
Qed.

Lemma search_entry_spec t c : table_ok t -> in_range c ->
  match search_entry t c with
  | Some i => exists x, entries t !! i = Some x /\ x.1 = c
  | None => forall x, x ∈ entries t -> x.1 <> c
  end.
Proof.
  intros [_ Hs Hr] Hc. unfold search_entry. rewrite u32_in_range by done. apply bsearch_spec; try done; unfold inuse; [lia..|].
  intros i x Hi _. apply lookup_lt_Some in Hi. lia.
Qed.

Lemma sorted_inj l x y : StronglySorted ch_lt l -> x ∈ l -> y ∈ l -> x.1 = y.1 -> x = y.
Proof.
  intros Hs [i Hi]%list_elem_of_lookup_1 [j Hj]%list_elem_of_lookup_1 E. destruct (Nat.lt_trichotomy i j) as [Hlt|[->|Hlt]]; [|congruence|].
  - pose proof (sorted_lookup_lt _ _ _ _ _ Hs Hi Hj Hlt). lia.
  - pose proof (sorted_lookup_lt _ _ _ _ _ Hs Hj Hi Hlt). lia.
Qed.

(** The table as a map. *)
Lemma get_entry_spec t c : table_ok t -> in_range c ->
  (exists v, (c, v) ∈ entries t /\ get_entry t c = v) \/ get_entry t c = 0%nat /\ forall v, (c, v) ∉ entries t.
Proof.
  intros Ht Hc. unfold get_entry. pose proof (search_entry_spec t c Ht Hc) as Hs. destruct (search_entry t c) as [i|].
  - destruct Hs as ([c' v] & Hi & E). cbn in E. subst c'. rewrite Hi. left. exists v. split; [|done]. by apply list_elem_of_lookup_2 in Hi.
  - right. split; [done|]. intros v Hv. by apply Hs in Hv.
Qed.

Lemma add_entry_spec t c v : table_ok t -> in_range c -> exists t', add_entry t c v = Ok t' /\ entries t' = entries t ++ [(c, v)] /\
  2 <= allocated t' /\ Z.of_nat (inuse t') < allocated t'.
Proof.
  intros [[H2 Hr] _ _] Hc. unfold add_entry. rewrite u32_in_range by done. destruct (Z.leb_spec (allocated t) (Z.of_nat (inuse t) + 1)).
  - rewrite (proj2 (Z.ltb_lt _ _)) by lia. eexists. split_and!; [done|done|cbn; lia|]. unfold inuse in *. cbn. rewrite length_app. cbn. lia.
  - rewrite (proj2 (Z.ltb_lt _ _)) by lia. eexists. split_and!; [done|done|cbn; lia|]. unfold inuse in *. cbn. rewrite length_app. cbn. lia.
Qed.

(** What [set_entry] does to the table. *)
Definition updated (t t' : gtt) (c : Z) (v : nat) : Prop :=
  table_ok t' /\ forall c' v', (c', v') ∈ entries t' <-> c' = c /\ v' = v \/ c' <> c /\ (c', v') ∈ entries t.

#[local] Instance entry_le_total : Total entry_le.
Proof.
  intros x y. unfold entry_le, entry_cmp, s32, sext, u32.
  rewrite !Zmod_mod. set (d := x.1 - y.1). replace (y.1 - x.1) with (- d) by lia.
  destruct (Z.eq_dec (d mod 2 ^ 32) 0) as [E|E].
  - left. rewrite E. done.
  - rewrite (Z.mod_opp_l_nz d) by done. pose proof (Z.mod_pos_bound d (2 ^ 32) ltac:(lia)).
    destruct (Z.ltb_spec (d mod 2 ^ 32) (2 ^ (32 - 1))); [right|left; lia]. destruct (Z.ltb_spec (2 ^ 32 - d mod 2 ^ 32) (2 ^ (32 - 1))); lia.
Qed.

Lemma qsort_spec l : Forall (fun e => in_range e.1) l -> NoDup l.*1 -> StronglySorted ch_lt (qsort l) /\ qsort l ≡ₚ l.
Proof.
  intros Hr Hnd. assert (qsort l ≡ₚ l) as Hp by apply merge_sort_Permutation. split; [|done].
  assert (Sorted entry_le (qsort l)) as Hs by (apply Sorted_merge_sort, _).
  rewrite <- Hp in Hr, Hnd. revert Hr Hnd Hs. generalize (qsort l) as k. clear. intros k Hr Hnd Hs.
  apply Sorted_StronglySorted; [intros x y z; unfold ch_lt; lia|]. induction Hs as [|x k Hs IH Hx]; [constructor|].
  apply Forall_cons in Hr as [Hxr Hr]. apply NoDup_cons in Hnd as [Hni Hnd]. constructor; [by apply IH|].
  destruct Hx as [|y k Hxy]; constructor. apply Forall_cons in Hr as [Hyr _]. unfold entry_le in Hxy. rewrite entry_cmp_sub in Hxy by done.
  unfold ch_lt. assert (x.1 <> y.1) by (intros E; apply Hni; rewrite E; by left). lia.
Qed.

Lemma StronglySorted_snoc l x : StronglySorted ch_lt l -> Forall (fun y => ch_lt y x) l -> StronglySorted ch_lt (l ++ [x]).
Proof. intros Hs Hx. apply StronglySorted_app_2; [|done|by repeat constructor]. intros y z Hy ->%list_elem_of_singleton. rewrite Forall_forall in Hx. by apply Hx. Qed.

Lemma updated_of t t' l c v : table_ok t -> 2 <= allocated t' -> Z.of_nat (inuse t') < allocated t' -> in_range c ->
  StronglySorted ch_lt (entries t') -> entries t' ≡ₚ l ++ [(c, v)] -> (forall c' v', (c', v') ∈ l <-> c' <> c /\ (c', v') ∈ entries t) -> updated t t' c v.
Proof.
  intros Ht H2 Hi Hc Hs Hp Hl. split.
  - split; [done|done|]. apply Forall_forall. intros [c' v'] Hx. rewrite Hp, elem_of_app, list_elem_of_singleton in Hx. destruct Hx as [Hx|[= -> ->]]; [|done].
    apply Hl in Hx as [_ Hx]. pose proof (table_range _ Ht) as Hr. rewrite Forall_forall in Hr. by apply Hr.
  - intros c' v'. rewrite Hp, elem_of_app, list_elem_of_singleton, Hl. split; [intros [?|[= -> ->]]|intros [[-> ->]|?]]; auto.
Qed.

Lemma set_entry_spec t c v : table_ok t -> in_range c -> exists t', set_entry t c v = Ok t' /\ updated t t' c v.
Proof.
  intros Ht Hc. pose proof Ht as [[H2 Hi] Hs Hr]. unfold set_entry. rewrite u32_in_range by done.
  destruct (last (entries t)) as [e|] eqn:El.
  2:{ apply last_None in El. rewrite (proj2 (Z.ltb_lt _ _)) by lia. eexists. split; [done|]. apply (updated_of _ _ []); try done; [cbn; lia|by repeat constructor|].
      intros c' v'. rewrite El, !elem_of_nil. tauto. }
  assert (forall x, x ∈ entries t -> x.1 <= e.1) as Hmax.
  { apply last_Some in El as [l El]. rewrite El in Hs |- *. intros x [Hx|Hx%list_elem_of_singleton]%elem_of_app; [|naive_solver lia].
    pose proof (StronglySorted_app_1_elem_of _ _ _ _ e Hs Hx ltac:(by left)) as Hlt. unfold ch_lt in Hlt. lia. }
  destruct (Z.ltb_spec e.1 c) as [Hlt|Hge].
  - destruct (add_entry_spec t c v Ht Hc) as (t' & E & Ee & Ha & Hu). exists t'. split; [done|]. apply (updated_of _ _ (entries t)); try done; rewrite ?Ee; [|done|].
    + apply StronglySorted_snoc; [done|]. apply Forall_forall. intros x Hx. specialize (Hmax x Hx). unfold ch_lt. cbn. lia.
    + intros c' v'. split; [|tauto]. intros Hx. split; [|done]. specialize (Hmax _ Hx). cbn in Hmax. lia.
  - pose proof (search_entry_spec t c Ht Hc) as Hf. destruct (search_entry t c) as [i|].
    + destruct Hf as ([c1 v1] & Hl & E). cbn in E. subst c1. eexists. split; [done|]. pose proof (lookup_lt_Some _ _ _ Hl) as Hlen.
      assert (forall y, y ∈ <[i := (c, v)]> (entries t) <-> y = (c, v) \/ y.1 <> c /\ y ∈ entries t) as Hm.
      { intros y. split.
        - intros [j Hj]%list_elem_of_lookup_1. destruct (decide (j = i)) as [->|Hne].
          + rewrite list_lookup_insert_eq in Hj by done. left. congruence.
          + rewrite list_lookup_insert_ne in Hj by done. right. split; [|by apply list_elem_of_lookup_2 in Hj]. intros E.
            destruct (Nat.lt_trichotomy i j) as [Hij|[?|Hij]]; [|done|]; [pose proof (sorted_lookup_lt _ _ _ _ _ Hs Hl Hj Hij)|pose proof (sorted_lookup_lt _ _ _ _ _ Hs Hj Hl Hij)]; cbn in *; lia.
        - intros [->|[Hne [j Hj]%list_elem_of_lookup_1]]; [by apply list_elem_of_insert|]. apply (list_elem_of_lookup_2 _ j).
          rewrite list_lookup_insert_ne; [done|]. intros ->. rewrite Hl in Hj. naive_solver. }
      split.
      * split; [|cbn|].
        -- unfold inuse in *. cbn. rewrite length_insert. lia.
        -- rewrite insert_take_drop in Hm |- * by done. rewrite <- (take_drop_middle _ _ _ Hl) in Hs. clear -Hs.
           apply StronglySorted_app in Hs as (H1 & H2 & H3). apply StronglySorted_cons in H3 as [H3 H4].
           apply StronglySorted_app. split_and!; [|done|by apply StronglySorted_cons].
           intros x y Hx [->|Hy]%elem_of_cons; [apply (H1 x (c, v1) Hx); by left|apply H1; [done|by right]].
        -- cbn. apply Forall_forall. intros y Hy. apply Hm in Hy as [->|[_ Hy]]; [done|]. rewrite Forall_forall in Hr. by apply Hr.
      * intros c' v'. cbn [entries]. rewrite Hm. cbn. naive_solver.
    + destruct (add_entry_spec t c v Ht Hc) as (t' & E & Ee & Ha & Hu). rewrite E. cbn [mbind out_bind]. eexists. split; [done|].
      assert (Forall (fun e => in_range e.1) (entries t')) as Hr' by (rewrite Ee; apply Forall_app; split; [done|by apply Forall_singleton]).
      destruct (qsort_spec (entries t') Hr') as [Hsq Hpq].
      { rewrite Ee, fmap_app. apply NoDup_app. split_and!; [|intros c' (x & -> & Hx)%list_elem_of_fmap Hc'%list_elem_of_singleton; by apply (Hf _ Hx)|apply NoDup_singleton].
        clear -Hs. induction Hs as [|x l Hs IH Hx]; [constructor|]. cbn. constructor; [|done]. intros (y & E & Hy)%list_elem_of_fmap. rewrite Forall_forall in Hx. specialize (Hx _ Hy). unfold ch_lt in Hx. lia. }
      apply (updated_of _ _ (entries t)); try done; cbn [allocated entries].
      * unfold inuse in *. cbn. by rewrite Hpq.
      * by rewrite Hpq, Ee.
      * intros c' v'. split; [|tauto]. intros Hx. split; [|done]. intros ->. by apply (Hf _ Hx).
Qed.

(** * States *)

Definition repr (arr l : list nat) : Prop := exists more, arr = length l :: l ++ more.
Definition state (f : fa) (s : nat) (l : list nat) : Prop := exists arr, posns f !! s = Some (Some arr) /\ repr arr l.

Lemma repr_elements arr l : repr arr l -> elements arr = Ok l.
Proof.
  intros [more ->]. unfold elements, get. cbn [lookup list_lookup mbind out_bind drop length]. rewrite length_app, (proj2 (Nat.ltb_lt _ _)) by lia.
  by rewrite drop_0, take_app_length.
Qed.
Lemma repr_head arr l : repr arr l -> get arr 0 = Ok (length l).
Proof. by intros [more ->]. Qed.
Lemma repr_fun arr l1 l2 : repr arr l1 -> repr arr l2 -> l1 = l2.
Proof. intros H1 H2. apply repr_elements in H1, H2. congruence. Qed.
Lemma state_fun f s l1 l2 : state f s l1 -> state f s l2 -> l1 = l2.
Proof. intros (a1 & E1 & H1) (a2 & E2 & H2). assert (a1 = a2) as -> by congruence. by eapply repr_fun. Qed.
Lemma state_get f s l : state f s l -> exists arr, get_posns f s = Ok arr /\ repr arr l.
Proof. intros (arr & E & Hr). exists arr. unfold get_posns. by rewrite (get_Some _ _ _ E). Qed.

Section Dfa.
Context (junk : Z) (kind : nat -> leaf) (acc : nat) (fol : nat -> list nat).
Notation canon := (canon acc).
Notation posarr := (posarr acc).

(** The positions after a character. *)
Definition targets (l : list nat) (c : Z) : list nat := l ≫= (fun i => if takes (kind i) c then fol i else []).
Definition step (l : list nat) (c : Z) : list nat := canon (targets l c).
Definition bit (P : Prop) `{Decision P} : Z := if decide P then 1 else 0.

Lemma canon_idem l : canon (canon l) = canon l.
Proof. clear. apply canon_ext. intros i Hi. rewrite elem_of_canon. tauto. Qed.
Lemma repr_posarr l : repr (posarr l) (canon l).
Proof. exists []. by rewrite app_nil_r. Qed.

Record fa_ok (f : fa) : Prop := {
  ok_lengths : length (fout f) = state_count f /\ length (posns f) = state_count f;
  ok_cur : (1 <= curstat f < state_count f)%nat;
  ok_accept : accept f = acc;
  ok_rows : forall i, (i <= acc)%nat -> fre f !! i = Some (Some (Rrow (kind i) (posarr (fol i))));
  ok_alloc : Forall (fun t => 2 <= allocated t) (gototab f);
  ok_one : state f 1 [];
  ok_state : forall s, (1 <= s <= curstat f)%nat -> exists l, state f s l /\ canon l = l /\ fout f !! s = Some (bit (acc ∈ l));
  ok_table : forall s t l, (1 <= s <= curstat f)%nat -> gototab f !! s = Some t -> state f s l -> table_ok t /\
    forall c n, (c, n) ∈ entries t -> c <> HAT /\ (1 <= n <= curstat f)%nat /\ state f n (step l c) }.

(** The positions and their rows. *)
Record rows_ok : Prop := {
  rows_kind : forall i j, (i <= acc)%nat -> j ∈ fol i -> kind j <> EMPTYRE /\ (j <= acc)%nat;
  rows_room : forall k, S acc <> (MAXLIN * 4 ^ k)%nat }.
Context (Hrows : rows_ok).

Definition grows (f f' : fa) : Prop := (curstat f <= curstat f')%nat /\ initstat f' = initstat f /\ forall s l, (1 <= s <= curstat f)%nat -> state f s l -> state f' s l.
Lemma grows_refl f : grows f f.
Proof. by split_and!. Qed.
Lemma grows_trans f1 f2 f3 : grows f1 f2 -> grows f2 f3 -> grows f1 f3.
Proof. intros (H1 & E1 & S1) (H2 & E2 & S2). split_and!; [lia|congruence|]. intros s l Hs Hl. apply S2; [lia|auto]. Qed.

Lemma resize_lookup {A} (l : list A) n x i y : l !! i = Some y -> (l ++ replicate n x) !! i = Some y.
Proof. apply lookup_app_l_Some. Qed.

Lemma resize_ok f n : fa_ok f -> fa_ok (resize_state f n) /\ grows f (resize_state f n) /\ curstat (resize_state f n) = curstat f /\ (n < state_count (resize_state f n))%nat.
Proof.
  intros Hok. unfold resize_state. destruct (Nat.ltb_spec (S n) (state_count f)) as [Hlt|Hge].
  { split_and!; [done|apply grows_refl|done|lia]. }
  destruct Hok as [[Lo Lp] Hc Ha Hr Hal H1 Hst Ht]. set (f' := with_posns _ _).
  assert (forall s l, state f s l -> state f' s l) as Hs by (intros s l (arr & E & Ha'); exists arr; split; [by apply resize_lookup|done]).
  assert (forall s l, (1 <= s <= curstat f)%nat -> state f' s l -> state f s l) as Hs'.
  { intros s l Hsc Hl. destruct (Hst s Hsc) as (l' & Hl' & _). by rewrite (state_fun _ _ _ _ Hl (Hs _ _ Hl')). }
  assert (state_count f' = S n + 10)%nat as En by (unfold f', state_count in *; cbn; rewrite length_app, length_replicate; lia).
  split_and!; [|split_and!; auto|done|lia]. split.
  - unfold f', state_count in *. cbn in *. rewrite !length_app, !length_replicate. lia.
  - change (curstat f') with (curstat f). unfold state_count in *. lia.
  - done.
  - done.
  - apply Forall_app. split; [done|]. apply Forall_replicate. done.
  - auto.
  - intros s Hsc. destruct (Hst s Hsc) as (l & Hl & Hcl & Ho). exists l. split_and!; [auto|done|]. by apply resize_lookup.
  - intros s t l Hsc Et Hl. apply Hs' in Hl; [|done]. assert (gototab f !! s = Some t) as Et'.
    { cbn in Et. rewrite lookup_app_l in Et; [done|]. unfold state_count in *. change (curstat f') with (curstat f) in Hsc. lia. }
    destruct (Ht s t l Hsc Et' Hl) as [Htk He]. split; [done|]. intros c m Hm. destruct (He c m Hm) as (H3 & H4 & H5). auto.
Qed.

(** * The next set *)

Lemma add_positions_spec q : forall v, sets_ok kind acc v -> (forall j, j ∈ q -> (j <= acc)%nat /\ kind j <> EMPTYRE) ->
  exists v', add_positions junk q v = Ok v' /\ sets_ok kind acc v' /\ forall j, marked acc v' j <-> marked acc v j \/ j ∈ q.
Proof.
  induction q as [|j q IH]; intros v Hok Hq; cbn [add_positions].
  { exists v. split_and!; [done|done|]. intros j. rewrite elem_of_nil. tauto. }
  destruct (Hq j) as [Hj Hk]; [by left|]. pose proof (ok_room _ _ _ Hok) as Hr. rewrite (proj2 (Nat.leb_gt _ _)) by lia.
  destruct (ok_values _ _ _ Hok j Hj) as [Ev|Ev]; rewrite (get_Some _ _ _ Ev); cbn [mbind out_bind Z.eqb].
  - rewrite put_lt by (unfold maxsetvec in Hr; lia). cbn [mbind out_bind].
    destruct (mark_ok kind acc v j Hok Hj) as [Hok1 Hm1]; [unfold marked; naive_solver|done|].
    destruct (IH _ Hok1) as (v' & -> & Hok' & Hm'); [intros; apply Hq; by right|]. exists v'. split_and!; [done|done|].
    intros i. rewrite Hm', Hm1, elem_of_cons. tauto.
  - destruct (IH _ Hok) as (v' & -> & Hok' & Hm'); [intros; apply Hq; by right|]. exists v'. split_and!; [done|done|].
    intros i. rewrite Hm', elem_of_cons. split; [tauto|]. intros [?|[->|?]]; auto. left. by split.
Qed.

Lemma step_positions_spec f c l : fa_ok f -> (forall i, i ∈ l -> (i <= acc)%nat) -> forall v, sets_ok kind acc v ->
  exists v', step_positions junk (fre f) c l v = Ok v' /\ sets_ok kind acc v' /\ forall j, marked acc v' j <-> marked acc v j \/ j ∈ targets l c.
Proof.
  intros Hf. induction l as [|i l IH]; intros Hl v Hok; cbn [step_positions].
  { exists v. split_and!; [done|done|]. intros j. cbn. rewrite elem_of_nil. tauto. }
  assert (i <= acc)%nat as Hi by (apply Hl; by left). rewrite (get_Some _ _ _ (ok_rows _ Hf i Hi)). cbn [mbind out_bind deref ltype lfollow].
  unfold targets. setoid_rewrite bind_cons. fold (targets l c). destruct (takes (kind i) c) eqn:Et.
  - rewrite (repr_elements _ _ (repr_posarr (fol i))). cbn [mbind out_bind].
    destruct (add_positions_spec (canon (fol i)) v Hok) as (v1 & -> & Hok1 & Hm1).
    { intros j [Hj Hja]%elem_of_canon. split; [done|]. by destruct (rows_kind Hrows i j Hi Hj). }
    cbn [mbind out_bind]. destruct (IH ltac:(intros; apply Hl; by right) v1 Hok1) as (v' & -> & Hok' & Hm'). exists v'. split_and!; [done|done|].
    intros j. rewrite Hm', Hm1, elem_of_canon, elem_of_app. split; [tauto|]. intros [?|[Hj|?]]; auto. left. right. split; [done|]. by destruct (rows_kind Hrows i j Hi Hj).
  - cbn [mbind out_bind]. apply IH; [intros; apply Hl; by right|done].
Qed.

Lemma find_state_spec f l : fa_ok f -> forall n i, (1 <= i)%nat -> (i + n = S (curstat f))%nat ->
  exists r, find_state f (length l :: l) n i = Ok r /\ forall t, r = Some t -> (1 <= t <= curstat f)%nat /\ state f t l.
Proof.
  intros Hf. induction n as [|n IH]; intros i Hi Hn; cbn [find_state]; [by exists None|].
  destruct (ok_state _ Hf i ltac:(lia)) as (l' & Hl' & _). destruct (state_get _ _ _ Hl') as (arr & -> & Har). cbn [mbind out_bind].
  change (get (length l :: l) 0) with (Ok (length l)). rewrite (repr_head _ _ Har). cbn [mbind out_bind]. change (drop 1 (length l :: l)) with l.
  destruct (Nat.eqb_spec (length l) (length l')) as [E|E]; cbn [negb]; [|apply IH; lia].
  rewrite (repr_elements _ _ Har). cbn [mbind out_bind]. destruct (decide (l' = l)) as [->|Hne]; [|apply IH; lia].
  exists (Some i). split; [done|]. intros t [= <-]. split; [lia|done].
Qed.

(** * New states and new entries *)

Lemma set_gototab_eq f s c n t : gototab f !! s = Some t -> table_ok t -> in_range c ->
  exists t', set_gototab f s c n = Ok (with_gototab f (<[s := t']> (gototab f))) /\ updated t t' c n.
Proof.
  intros Et Ht Hc. destruct (set_entry_spec t c n Ht Hc) as (t' & E & Hu). exists t'. split; [|done].
  unfold set_gototab. rewrite (get_Some _ _ _ Et). cbn [mbind out_bind]. rewrite E. cbn [mbind out_bind].
  rewrite put_lt; [done|by eapply lookup_lt_Some].
Qed.

Lemma ok_with_entry f s t t' c n l : fa_ok f -> (1 <= s <= curstat f)%nat -> gototab f !! s = Some t -> updated t t' c n -> c <> HAT ->
  state f s l -> (1 <= n <= curstat f)%nat -> state f n (step l c) -> fa_ok (with_gototab f (<[s := t']> (gototab f))).
Proof.
  intros [[Lo Lp] Hc Ha Hr Hal H1 Hst Ht] Hs Et [Htk Hu] Hne Hl Hn Hln. split; cbn; try done; unfold state_count in *; cbn; rewrite ?length_insert; try done.
  - apply Forall_insert; [done|apply Htk].
  - intros s2 t2 l2 Hs2 Et2 Hl2. destruct (decide (s2 = s)) as [->|Hne2].
    + rewrite list_lookup_insert_eq in Et2 by (by eapply lookup_lt_Some). injection Et2 as <-. split; [done|].
      assert (l2 = l) as -> by (by eapply (state_fun f)).
      intros c2 n2 [[-> ->]|[Hc2 Hin]]%Hu; [done|]. by apply (Ht s t l Hs Et Hl).
    + rewrite list_lookup_insert_ne in Et2 by done. by apply (Ht s2 t2 l2).
Qed.

(** The automaton with one more state. *)
Definition add_state (f : fa) (l : list nat) : fa :=
  let n := S (curstat f) in
  Fa (alter (fun t => Gtt (allocated t) []) n (gototab f)) (<[n := bit (acc ∈ l)]> (fout f)) (<[n := Some (posarr l)]> (posns f))
     (anchor f) (initstat f) n (accept f) (fre f).

Lemma add_state_ok f l : fa_ok f -> (S (curstat f) < state_count f)%nat -> canon l = l ->
  fa_ok (add_state f l) /\ grows f (add_state f l) /\ state (add_state f l) (S (curstat f)) l.
Proof.
  intros [[Lo Lp] Hc Ha Hr Hal H1 Hst Ht] Hn Hl. set (f' := add_state f l). set (n := S (curstat f)) in *.
  assert (forall s m, (1 <= s <= curstat f)%nat -> state f' s m <-> state f s m) as Hsame.
  { intros s m Hs. unfold state, f'. cbn [posns add_state]. by rewrite list_lookup_insert_ne by (fold n; lia). }
  assert (state f' n l) as Hnew.
  { exists (posarr l). unfold f'. cbn [posns add_state]. split; [apply list_lookup_insert_eq; fold n; lia|]. rewrite <- Hl at 2. apply repr_posarr. }
  split_and!; [|split_and!; [cbn; lia|done|intros; by apply Hsame]|done]. split; try done; unfold f', state_count in *; cbn [add_state gototab fout posns curstat]; fold n.
  - by rewrite length_alter, !length_insert.
  - rewrite length_alter. lia.
  - apply Forall_alter; [done|]. intros t Et Hta. done.
  - apply Hsame; [lia|done].
  - intros s Hs. destruct (decide (s = n)) as [->|Hne].
    + exists l. split_and!; [done|done|]. apply list_lookup_insert_eq. lia.
    + destruct (Hst s ltac:(lia)) as (m & Hm & Hcm & Ho). exists m. split_and!; [apply Hsame; [lia|done]|done|]. by rewrite list_lookup_insert_ne.
  - intros s t m Hs Et Hm. destruct (decide (s = n)) as [->|Hne].
    + rewrite list_lookup_alter_eq in Et. destruct (gototab f !! n) as [t0|] eqn:E0; [|done]. injection Et as <-.
      rewrite Forall_forall in Hal. apply list_elem_of_lookup_2, Hal in E0. split; [|by intros c k ?%elem_of_nil]. split; cbn; [lia|constructor|constructor].
    + rewrite list_lookup_alter_ne in Et by done. apply Hsame in Hm; [|lia]. destruct (Ht s t m ltac:(lia) Et Hm) as [Htk He]. split; [done|].
      intros c k Hk. destruct (He c k Hk) as (H3 & H4 & H5). split_and!; [done|lia|lia|]. by apply Hsame.
Qed.

Lemma clear_gototab_eq f n t : gototab f !! n = Some t -> clear_gototab f n = Ok (with_gototab f (alter (fun t => Gtt (allocated t) []) n (gototab f))).
Proof.
  intros Et. unfold clear_gototab. rewrite (get_Some _ _ _ Et). cbn [mbind out_bind]. rewrite put_lt by (by eapply lookup_lt_Some). cbn [mbind out_bind].
  do 2 f_equal. rewrite list_insert_alter. apply list_alter_ext; [|done]. intros x Ex. rewrite Et in Ex. by injection Ex as ->.
Qed.

(** What a step gives: the state of the positions that follow. *)
Definition stepped (f : fa) (l : list nat) (c : Z) (r : out (nat * fa * sets)) : Prop :=
  exists t f' v', r = Ok (t, f', v') /\ fa_ok f' /\ grows f f' /\ sized v' /\ (1 <= t <= curstat f')%nat /\ state f' t (step l c).

Lemma cgoto_old f s c l t v : fa_ok f -> (1 <= s <= curstat f)%nat -> state f s l -> in_range c -> sized v ->
  (1 <= t <= curstat f)%nat -> state f t (step l c) ->
  stepped f l c (f' ← (if c =? HAT then Ok f else set_gototab f s c t); Ok (t, f', v)).
Proof.
  intros Hf Hs Hl Hc Hv Ht Htl. destruct (Z.eqb_spec c HAT) as [->|Hne].
  { exists t, f, v. split_and!; try done; apply grows_refl || lia. }
  destruct (lookup_lt_is_Some_2 (gototab f) s) as [g Eg]; [pose proof (ok_cur _ Hf); unfold state_count in *; lia|].
  destruct (ok_table _ Hf s g l Hs Eg Hl) as [Hg _]. destruct (set_gototab_eq f s c t g Eg Hg Hc) as (g' & -> & Hu).
  exists t, (with_gototab f (<[s := g']> (gototab f))), v. split_and!; try done; [by eapply ok_with_entry|cbn; lia..].
Qed.

Lemma stepped_grows f1 f2 l c r : grows f1 f2 -> stepped f2 l c r -> stepped f1 l c r.
Proof. intros Hg (t & f' & v' & -> & H1 & H2 & H3). exists t, f', v'. split; [done|]. split; [done|]. split; [by eapply grows_trans|done]. Qed.

Lemma resize_with_curstat f m n : resize_state (with_curstat f m) n = with_curstat (resize_state f n) m.
Proof. unfold resize_state. change (state_count (with_curstat f m)) with (state_count f). by destruct (S n <? state_count f)%nat. Qed.

(** The rest of [cgoto] when there is no such state. *)
Lemma new_state f s c l v : fa_ok f -> (1 <= s <= curstat f)%nat -> state f s l -> in_range c -> sized v -> (acc < maxsetvec v)%nat ->
  (forall x, setvec v !! acc = Some x -> (if x =? 0 then 0 else 1) = bit (acc ∈ step l c)) ->
  stepped f l c (let f := resize_state (with_curstat f (S (curstat f))) (S (curstat f)) in
    f ← clear_gototab f (curstat f); f ← set_posns f (curstat f) (length (step l c) :: step l c);
    f ← (if c =? HAT then Ok f else set_gototab f s c (curstat f)); x ← get (setvec v) (accept f);
    f ← set_out f (curstat f) (if x =? 0 then 0 else 1); Ok (curstat f, f, v)).
Proof.
  intros Hf Hs Hl Hc Hv Hm Hb. cbn zeta. set (n := S (curstat f)). rewrite resize_with_curstat. destruct (resize_ok f n Hf) as (Hf3 & Hg3 & Ec3 & Hn3). set (f3 := resize_state f n) in *.
  eapply stepped_grows; [exact Hg3|]. assert (state f3 s l) as Hl3 by (by apply Hg3). rewrite <- Ec3 in Hs.
  pose proof (canon_idem (targets l c)) as Hci. fold (step l c) in Hci.
  destruct (add_state_ok f3 (step l c) Hf3) as (Hf4 & Hg4 & Hs4); [rewrite Ec3; done|done|]. set (f4 := add_state f3 (step l c)) in *.
  destruct (ok_lengths _ Hf3) as [Lo Lp]. destruct (lookup_lt_is_Some_2 (gototab f3) n) as [t0 Et0]; [done|].
  change (curstat (with_curstat f3 n)) with n. rewrite (clear_gototab_eq (with_curstat f3 n) n t0 Et0). cbn [mbind out_bind]. unfold set_posns at 1.
  set (fA := with_gototab _ _). change (curstat fA) with n. change (posns fA) with (posns f3).
  rewrite put_lt by lia. cbn [mbind out_bind]. set (fB := with_posns _ _). change (curstat fB) with n.
  assert (exists f', (if c =? HAT then Ok fB else set_gototab fB s c n) = Ok f' /\ fa_ok (with_out f' (<[n := bit (acc ∈ step l c)]> (fout f3))) /\
    fout f' = fout f3 /\ curstat f' = n /\ initstat f' = initstat f3 /\ posns f' = posns f4) as (f' & -> & Hf' & Eo & Ecu & Ein & Ep).
  { assert (f4 = with_out fB (<[n := bit (acc ∈ step l c)]> (fout f3))) as E4.
    { unfold f4, add_state, fB. rewrite Ec3. unfold posarr, AwkSets.posarr. by rewrite Hci. }
    destruct (Z.eqb_spec c HAT) as [->|Hne].
    { exists fB. split_and!; [done|by rewrite <- E4|done..|by rewrite E4]. }
    destruct (lookup_lt_is_Some_2 (gototab f4) s) as [g Eg]; [pose proof (ok_cur _ Hf4); unfold state_count in *; destruct Hg4 as [? _]; lia|].
    assert (1 <= s <= curstat f4)%nat as Hs4' by (destruct Hg4 as [? _]; lia). assert (state f4 s l) as Hl4 by (by apply Hg4).
    destruct (ok_table _ Hf4 s g l Hs4' Eg Hl4) as [Hg _]. rewrite E4 in Eg. destruct (set_gototab_eq fB s c n g Eg Hg Hc) as (g' & -> & Hu).
    eexists. split; [done|]. split_and!; [|done..|by rewrite E4]. rewrite Ec3 in Hs4. rewrite E4 in Hf4, Hl4, Hs4, Hs4'.
    apply (ok_with_entry _ s g g' c n l Hf4); try done. cbn. lia. }
  cbn [mbind out_bind]. assert (accept f' = acc) as -> by apply (ok_accept _ Hf'). rewrite Ecu. destruct (lookup_lt_is_Some_2 (setvec v) acc) as [x Ex]; [done|]. rewrite (get_Some _ _ _ Ex). cbn [mbind out_bind].
  unfold set_out. rewrite Eo, put_lt by lia. cbn [mbind out_bind]. rewrite (Hb x Ex). set (fC := with_out _ _). change (curstat fC) with (curstat f'). rewrite Ecu. rewrite Ec3 in Hs4.
  exists n, fC, v. split_and!; try done.
  - destruct Hg4 as (_ & _ & Hg4). split; [cbn; rewrite Ecu; lia|]. split; [by cbn|]. intros s1 l1 Hs1 Hl1. destruct (Hg4 s1 l1 Hs1 Hl1) as (arr & Ea & Har). exists arr. cbn. by rewrite Ep.
  - lia.
  - cbn. rewrite Ecu. lia.
  - destruct Hs4 as (arr & Ea & Har). exists arr. cbn. by rewrite Ep.
Qed.

Lemma positions_bit v (l : list nat) x : sets_ok kind acc v -> (forall j, (j <= acc)%nat -> marked acc v j <-> j ∈ l) -> setvec v !! acc = Some x ->
  (if x =? 0 then 0 else 1) = bit (acc ∈ canon l).
Proof.
  intros Hok Hm Hx. unfold bit. specialize (Hm acc ltac:(lia)). unfold marked in Hm.
  destruct (decide (acc ∈ canon l)) as [Hin|Hni].
  - apply elem_of_canon in Hin as [Hin _]. apply Hm in Hin as [_ E]. rewrite E in Hx. by injection Hx as <-.
  - destruct (ok_values _ _ _ Hok acc ltac:(lia)) as [E|E]; rewrite E in Hx; injection Hx as <-; [done|]. destruct Hni. apply elem_of_canon. split; [by apply Hm|done].
Qed.

Lemma cgoto_spec f s c l v : fa_ok f -> (1 <= s <= curstat f)%nat -> state f s l -> in_range c -> sized v ->
  stepped f l c (cgoto junk f s c v).
Proof.
  intros Hf Hs Hl Hc Hv. unfold cgoto. rewrite (ok_accept _ Hf). destruct (clear_ok junk kind acc v Hv) as (v1 & -> & Hok1 & Hm1). cbn [mbind out_bind].
  destruct (resize_ok f s Hf) as (Hf1 & (_ & _ & Hg1) & Ec1 & _). set (f1 := resize_state f s) in *.
  destruct (state_get _ _ _ (Hg1 s l Hs Hl)) as (arr & -> & Har). cbn [mbind out_bind]. rewrite (repr_elements _ _ Har). cbn [mbind out_bind].
  assert (canon l = l) as Hcl. { destruct (ok_state _ Hf s Hs) as (l' & Hl' & Hcl & _). by rewrite (state_fun _ _ _ _ Hl Hl'). }
  destruct (step_positions_spec f1 c l Hf1) with (v := v1) as (v2 & -> & Hok2 & Hm2); [intros i; rewrite <- Hcl, elem_of_canon; tauto|done|].
  assert (forall j, (j <= acc)%nat -> marked acc v2 j <-> j ∈ targets l c) as Hm by (intros j _; specialize (Hm1 j); specialize (Hm2 j); tauto).
  cbn [mbind out_bind]. rewrite (ok_accept _ Hf1), (positions_canon kind acc _ v2 _ Hok2 eq_refl eq_refl Hm). cbn [mbind out_bind].
  rewrite (posarray_canon kind acc _ _ Hok2 Hm). cbn [mbind out_bind]. fold (step l c).
  assert (length (step l c) <= S acc)%nat as Hlen.
  { unfold step, AwkSets.canon. rewrite length_reverse, length_filter. by rewrite length_seq. }
  assert (S acc < maxsetvec v2)%nat as Hroom.
  { pose proof (ok_room _ _ _ Hok2) as Hr. destruct (ok_size _ _ _ Hok2) as [k Hk]. pose proof (rows_room Hrows k). lia. }
  rewrite (proj2 (Nat.ltb_ge _ _)) by lia.
  destruct (resize_ok f1 (max (curstat f1) s) Hf1) as (Hf2 & Hg2 & Ec2 & _). set (f2 := resize_state f1 _) in *.
  assert (grows f f2) as Hg by (eapply grows_trans; [by split_and!; [rewrite Ec1| |]|done] || (apply (grows_trans _ f1); [apply resize_ok; done|done])).
  assert (state f2 s l) as Hl2 by (by apply Hg). assert (1 <= s <= curstat f2)%nat as Hs2 by lia.
  destruct (find_state_spec f2 (step l c) Hf2 (curstat f2) 1) as (r & Er & Hr); [lia|lia|]. unfold posarr. fold (step l c). rewrite Er. cbn [mbind out_bind].
  destruct r as [t|].
  { destruct (Hr t eq_refl) as [Ht Htl]. destruct (cgoto_old f2 s c l t v2 Hf2 Hs2 Hl2 Hc (ok_size _ _ _ Hok2) Ht Htl) as (t' & f' & v' & E & H1 & H2 & H3).
    exists t', f', v'. split; [exact E|]. split; [done|]. split; [by eapply grows_trans|done]. }
  eapply stepped_grows; [exact Hg|]. apply new_state; try done.
  - apply Hok2.
  - lia.
  - intros x Hx. rewrite (positions_bit v2 (targets l c) x Hok2 Hm Hx). done.
Qed.

Lemma goto_spec f s c l v : fa_ok f -> (1 <= s <= curstat f)%nat -> state f s l -> in_range c -> sized v -> stepped f l c (goto junk f s c v).
Proof.
  intros Hf Hs Hl Hc Hv. unfold goto, get_gototab. destruct (lookup_lt_is_Some_2 (gototab f) s) as [t Et]; [pose proof (ok_cur _ Hf); unfold state_count in *; lia|].
  rewrite (get_Some _ _ _ Et). cbn [mbind out_bind]. destruct (ok_table _ Hf s t l Hs Et Hl) as [Ht He].
  destruct (get_entry_spec t c Ht Hc) as [(n & Hn & ->)|[-> _]]; [|by apply cgoto_spec].
  destruct (He c n Hn) as (_ & Hr & Hst). destruct (Nat.eqb_spec n 0); [lia|]. exists n, f, v. split_and!; try done; lia.
Qed.

Lemma fout_get f s l : fa_ok f -> (1 <= s <= curstat f)%nat -> state f s l -> get (fout f) s = Ok (bit (acc ∈ l)).
Proof. intros Hf Hs Hl. destruct (ok_state _ Hf s Hs) as (l' & Hl' & _ & Ho). rewrite (state_fun _ _ _ _ Hl Hl'). by apply get_Some. Qed.

(** * The first states *)

Definition no_entries (f : fa) : Prop := Forall (fun t => entries t = []) (gototab f).

Lemma resize_no_entries f n : no_entries f -> no_entries (resize_state f n).
Proof.
  intros Hn. unfold resize_state. destruct (S n <? state_count f)%nat; [done|]. apply Forall_app. split; [done|]. by apply Forall_replicate.
Qed.

Lemma bind_Ok {A B} (m : out A) (g : A -> out B) x : m ≫= g = Ok x -> exists a, m = Ok a /\ g a = Ok x.
Proof. destruct m as [a| |]; cbn; [eauto|done..]. Qed.

Lemma find_state_le f tmpset t : forall n i, find_state f tmpset n i = Ok (Some t) -> (t < i + n)%nat.
Proof.
  induction n as [|n IH]; intros i E; cbn [find_state] in E; [done|]. apply bind_Ok in E as (p & _ & E). apply bind_Ok in E as (k & _ & E). apply bind_Ok in E as (k' & _ & E).
  destruct (negb _); [apply IH in E; lia|]. apply bind_Ok in E as (l & _ & E). destruct (decide _); [injection E as <-; lia|apply IH in E; lia].
Qed.

Lemma resize_curstat f n : curstat (resize_state f n) = curstat f.
Proof. unfold resize_state. by destruct (S n <? state_count f)%nat. Qed.

Lemma resize_posns f n i p : posns f !! i = Some p -> posns (resize_state f n) !! i = Some p.
Proof. intros Hp. unfold resize_state. destruct (S n <? state_count f)%nat; [done|]. by apply resize_lookup. Qed.

(** The step on [HAT] enters nothing into the tables. *)
Lemma cgoto_HAT f s v t f' v' : cgoto junk f s HAT v = Ok (t, f', v') -> no_entries f ->
  no_entries f' /\ ((t <= curstat f)%nat /\ curstat f' = curstat f \/ t = S (curstat f) /\ curstat f' = S (curstat f)) /\
  forall p, posns f !! 0%nat = Some p -> posns f' !! 0%nat = Some p.
Proof.
  intros E Hn. unfold cgoto in E. apply bind_Ok in E as (v1 & _ & E). apply bind_Ok in E as (p & _ & E). apply bind_Ok in E as (q & _ & E).
  apply bind_Ok in E as (v2 & _ & E). apply bind_Ok in E as (l & _ & E). apply bind_Ok in E as (tmpset & _ & E). destruct (_ <? _)%nat; [done|].
  set (f2 := resize_state (resize_state f s) _) in E. assert (no_entries f2) as Hn2 by (by do 2 apply resize_no_entries).
  assert (curstat f2 = curstat f) as Ec by (unfold f2; by rewrite !resize_curstat).
  assert (forall o, posns f !! 0%nat = Some o -> posns f2 !! 0%nat = Some o) as Hp2 by (intros ? ?; by do 2 apply resize_posns). apply bind_Ok in E as (same & Ef & E). destruct same as [i|].
  { cbn in E. injection E as <- <- <-. apply find_state_le in Ef. split; [done|]. split; [|done]. left. split; [lia|done]. }
  rewrite resize_with_curstat in E. set (f3 := resize_state f2 _) in E. assert (no_entries f3) as Hn3 by (by apply resize_no_entries).
  apply bind_Ok in E as (f4 & E4 & E). apply bind_Ok in E as (f5 & E5 & E). apply bind_Ok in E as (f6 & E6 & E). apply bind_Ok in E as (x & _ & E). apply bind_Ok in E as (f7 & E7 & E).
  cbn in E6. injection E6 as <-. injection E as <- <- _.
  apply bind_Ok in E4 as (g & Eg & E4). apply bind_Ok in E4 as (gs & Egs & [= <-]). apply bind_Ok in E5 as (ps & Eps & [= <-]). apply bind_Ok in E7 as (os & _ & [= <-]).
  cbn. split_and!; [|right; by rewrite <- Ec|].
  - unfold put in Egs. destruct (_ <? _)%nat; [injection Egs as <-|done]. by apply Forall_insert.
  - intros p0 Hp0. unfold put in Eps. destruct (_ <? _)%nat; [injection Eps as <-|done]. rewrite list_lookup_insert_ne by done. by apply resize_posns, Hp2.
Qed.
End Dfa.
