(* ===== verification/AwkInit.v ===== *)
(** The first states of an automaton: [makeinit]. *)

From stdpp Require Import numbers list.
From S2P Require Import Prelude AwkFa AwkLang AwkSets AwkDfa.

Section Init.
Context (junk : Z) (kind : nat -> leaf) (acc : nat) (fol : nat -> list nat).
Notation canon := (canon acc).
Notation posarr := (posarr acc).
Notation fa_ok := (fa_ok kind acc fol).
Notation step := (step kind acc fol).
Context (Hrows : rows_ok kind acc fol).

(** Position 0 comes last. *)
Lemma canon_zero m : canon m = m -> 0%nat ∈ m -> exists l, m = l ++ [0%nat] /\ canon l = l /\ forall i, i ∈ l <-> i ∈ m /\ i <> 0%nat.
Proof.
  intros Hm H0. set (l := reverse (filter (fun i => i ∈ m) (seq 1 acc))).
  assert (m = l ++ [0%nat]) as E.
  { rewrite <- Hm at 1. unfold AwkSets.canon. cbn [seq]. rewrite filter_cons, decide_True by done. by rewrite reverse_cons. }
  assert (forall i, i ∈ l <-> i ∈ m /\ i <> 0%nat) as Hl.
  { intros i. unfold l. rewrite elem_of_reverse, list_elem_of_filter, elem_of_seq. rewrite <- Hm at 2. rewrite elem_of_canon. naive_solver lia. }
  exists l. split_and!; [done| |done]. unfold AwkSets.canon. cbn [seq]. rewrite filter_cons, decide_False by (rewrite Hl; tauto).
  unfold l at 2. f_equal. apply filter_agree. intros i Hi%elem_of_seq. rewrite Hl. split; [tauto|]. intros ?. split; [done|lia].
Qed.

Lemma canon_head l x r : canon l = x :: r -> (x =? acc)%nat = bool_decide (acc ∈ canon l).
Proof.
  intros E. assert (acc ∈ canon l <-> x = acc) as Hx.
  { split.
    - intros [Hin _]%elem_of_canon. unfold AwkSets.canon in E. rewrite seq_S, filter_app, reverse_app in E. change (0 + acc)%nat with acc in E.
      rewrite filter_cons, decide_True, filter_nil in E by done. cbn in E. congruence.
    - intros ->. rewrite E. by left. }
  destruct (Nat.eqb_spec x acc), (bool_decide_reflect (acc ∈ canon l)); tauto.
Qed.

Lemma canon_nil : canon [] = [].
Proof. destruct (canon []) as [|x l] eqn:E; [done|]. assert (x ∈ canon []) as Hx by (rewrite E; by left). apply elem_of_canon in Hx as [Hx _]. by apply elem_of_nil in Hx. Qed.

(** Changes that keep an automaton without entries good. *)
Lemma with_posns_ok f s l l' arr : fa_ok f -> no_entries f -> (1 < s <= curstat f)%nat -> state f s l -> repr arr l' -> canon l' = l' -> (acc ∈ l' <-> acc ∈ l) ->
  let f' := with_posns f (<[s := Some arr]> (posns f)) in
  set_posns f s arr = Ok f' /\ fa_ok f' /\ no_entries f' /\ state f' s l' /\ (forall s' m, s' <> s -> state f s' m -> state f' s' m).
Proof.
  intros [[Lo Lp] Hc Ha Hr Hal H1 Hst Ht] Hne Hs Hl Harr Hcl Hacc' f'. assert (state f' s l') as Hs' by (exists arr; split; [apply list_lookup_insert_eq; lia|done]).
  assert (forall s' m, s' <> s -> state f s' m -> state f' s' m) as Ho.
  { intros s' m Hs2 (a & Ea & Hra). exists a. split; [|done]. cbn. by rewrite list_lookup_insert_ne. }
  split_and!; try done; [unfold set_posns; by rewrite put_lt by lia|]. split; cbn; try done.
  - by rewrite length_insert.
  - apply Ho; [lia|done].
  - intros s1 Hs1. destruct (decide (s1 = s)) as [->|Hd].
    + exists l'. split_and!; [done..|]. destruct (Hst s Hs1) as (l0 & Hl0 & _ & E). rewrite (state_fun _ _ _ _ Hl0 Hl) in E. rewrite E. f_equal. unfold bit.
      destruct (decide (acc ∈ l)), (decide (acc ∈ l')); tauto.
    + destruct (Hst s1 Hs1) as (m & Hm & Hcm & E). exists m. split_and!; [by apply Ho|done..].
  - intros s1 t m Hs1 Et _. unfold no_entries in Hne. rewrite Forall_forall in Hne, Hal. apply list_elem_of_lookup_2 in Et. specialize (Hne t Et). specialize (Hal t Et).
    split; [|rewrite Hne; by intros c k ?%elem_of_nil]. split; rewrite ?Hne; [|constructor..]. unfold inuse. rewrite Hne. cbn. lia.
Qed.

(** Dropping position 0 by shortening the array. *)
Lemma shorten arr m l : repr arr m -> m = l ++ [0%nat] -> exists arr', put arr 0 (length m - 1)%nat = Ok arr' /\ repr arr' l.
Proof.
  intros [more ->] ->. eexists. split; [done|]. exists (0%nat :: more). rewrite length_app. cbn. rewrite <- app_assoc. cbn. f_equal. lia.
Qed.

Lemma with_zero_ok f arr o : fa_ok f -> fa_ok (with_out (with_posns f (<[0%nat := Some arr]> (posns f))) (<[0%nat := o]> (fout f))) /\
  forall s l, (1 <= s)%nat -> state f s l -> state (with_out (with_posns f (<[0%nat := Some arr]> (posns f))) (<[0%nat := o]> (fout f))) s l.
Proof.
  intros [[Lo Lp] Hc Ha Hr Hal H1 Hst Ht]. set (f' := with_out _ _).
  assert (forall s l, (1 <= s)%nat -> state f' s l <-> state f s l) as Hs.
  { intros s l Hs. unfold state. cbn. by rewrite list_lookup_insert_ne by lia. }
  split; [|intros; by apply Hs]. split; cbn; try done.
  - by rewrite !length_insert.
  - by apply Hs.
  - intros s Hsc. destruct (Hst s Hsc) as (l & Hl & Hcl & Ho). exists l. split_and!; [apply Hs; [lia|done]|done|]. by rewrite list_lookup_insert_ne by lia.
  - intros s t l Hsc Et Hl. apply Hs in Hl; [|lia]. destruct (Ht s t l Hsc Et Hl) as [Htk He]. split; [done|]. intros c n Hn.
    destruct (He c n Hn) as (H3 & H4 & H5). split_and!; [done|lia|lia|]. apply Hs; [lia|done].
Qed.

(** * makeinit *)

Definition S0 : list nat := canon (fol 0).
Context (Hkind0 : kind 0 = ALL) (Hfol0 : 0%nat ∈ fol 0) (Hacc : acc <> 0%nat).

Lemma zero_S0 : 0%nat ∈ S0.
Proof. apply elem_of_canon. split; [done|lia]. Qed.
Lemma zero_init : 0%nat ∈ step S0 HAT.
Proof.
  apply elem_of_canon. split; [|lia]. unfold targets. apply list_elem_of_bind. exists 0%nat. split; [|apply zero_S0]. rewrite Hkind0. cbn. done.
Qed.

(** The automaton with the states 1 and 2. *)
Definition start (re : list (option rrow)) (p0 : list nat) (x : Z) : fa :=
  Fa (replicate 12 (Gtt NCHARS [])) (0 :: 0 :: x :: replicate 9 0) (Some p0 :: Some [0%nat] :: Some (length S0 :: S0) :: replicate 9 None) false 0 2 acc re.

Lemma start_ok re p0 : (forall i, (i <= acc)%nat -> re !! i = Some (Some (Rrow (kind i) (posarr (fol i))))) -> fa_ok (start re p0 (bit (acc ∈ S0))).
Proof.
  intros Hre. assert (state (start re p0 (bit (acc ∈ S0))) 1 []) as H1 by (exists [0%nat]; split; [done|by exists []]).
  assert (state (start re p0 (bit (acc ∈ S0))) 2 S0) as H2 by (exists (length S0 :: S0); split; [done|exists []; by rewrite app_nil_r]).
  split; try done.
  - cbn. unfold state_count. cbn. lia.
  - cbn. repeat constructor; cbn; unfold NCHARS; lia.
  - intros s Hs. change (curstat _) with 2%nat in Hs. assert (s = 1 \/ s = 2)%nat as [->| ->] by lia.
    + exists []. split_and!; [done|apply canon_nil|done].
    + exists S0. split_and!; [done|apply (canon_idem acc)|done].
  - intros s t l Hs Et Hl. change (gototab (start re p0 (bit (acc ∈ S0)))) with (replicate 12 (Gtt NCHARS [])) in Et.
    apply lookup_replicate in Et as [-> _]. split; [|by intros c n ?%elem_of_nil]. split; [cbn; unfold NCHARS; lia|constructor..].
Qed.

Lemma start_no_entries re p0 x : no_entries (start re p0 x).
Proof. unfold no_entries. cbn. by repeat constructor. Qed.

Lemma makeinit_start re p0 anchor v : (forall i, (i <= acc)%nat -> re !! i = Some (Some (Rrow (kind i) (posarr (fol i))))) ->
  makeinit junk (Fa (replicate 12 (Gtt NCHARS [])) (replicate 12 0) (Some p0 :: Some [0%nat] :: replicate 10 None) false 0 0 acc re) anchor v =
    ('(s, f, v) ← cgoto junk (start re p0 (bit (acc ∈ S0))) 2 HAT v;
     let f := with_curstat f s in
     if anchor then
       p2 ← get_posns f 2; p2 ← put p2 0 (length S0 - 1)%nat; f ← set_posns f 2 p2; p0 ← get_posns f 0;
       if (length p0 <? length S0)%nat then Fault
       else
         f ← set_posns f 0 (take (length S0) p2 ++ drop (length S0) p0); o ← get (fout f) 2; f ← set_out f 0 o;
         f ← (if (curstat f =? 2)%nat then Ok f else p ← get_posns f (curstat f); n ← get p 0; p ← put p 0 (n - 1)%nat; set_posns f (curstat f) p);
         Ok (curstat f, f, v)
     else Ok (curstat f, f, v)).
Proof.
  intros Hre. unfold makeinit. set (rest := fun r : nat * fa * sets => _). 
  cbn [set_out put with_curstat fout replicate length Nat.ltb Nat.leb mbind out_bind with_out fre].
  rewrite (get_Some _ _ _ (Hre 0%nat ltac:(lia))). cbn [mbind out_bind deref lfollow]. change (get (posarr (fol 0)) 0) with (Ok (length S0)). cbn [mbind out_bind].
  rewrite (repr_elements _ _ (repr_posarr acc (fol 0))). fold S0. cbn [mbind out_bind].
  match goal with |- set_posns ?f 2 ?p ≫= _ = _ => change (set_posns f 2 p) with (Ok (with_posns f (<[2%nat := Some p]> (posns f)))) end.
  cbn [mbind out_bind].
  assert (exists x, get (length S0 :: S0) 1 = Ok x /\ (x =? acc)%nat = bool_decide (acc ∈ S0)) as (x & -> & Ex).
  { pose proof zero_S0 as Hz. destruct S0 as [|x r] eqn:E0; [by apply elem_of_nil in Hz|]. exists x. split; [done|]. rewrite <- E0. by apply (canon_head _ _ r). }
  cbn [mbind out_bind]. match goal with |- context [accept ?f] => change (accept f) with acc end. rewrite Ex. unfold start, bit, rest. clear rest.
  destruct (decide (acc ∈ S0)) as [Hin|Hni]; [rewrite bool_decide_true by done|rewrite bool_decide_false by done]; done.
Qed.

(** What the two first states stand for. *)
Definition init_sets (anchor : bool) (l2 l : list nat) : Prop :=
  if anchor then (forall i, i ∈ l2 <-> i ∈ S0 /\ i <> 0%nat) /\ (forall i, i ∈ l <-> i ∈ step S0 HAT /\ i <> 0%nat)
  else l2 = S0 /\ l = step S0 HAT.

Lemma with_curstat_id f n : curstat f = n -> with_curstat f n = f.
Proof. intros <-. by destruct f. Qed.

Lemma makeinit_spec re p0 anchor v : (forall i, (i <= acc)%nat -> re !! i = Some (Some (Rrow (kind i) (posarr (fol i))))) -> length p0 = length S0 -> sized v ->
  exists i f v' l2 l, makeinit junk (Fa (replicate 12 (Gtt NCHARS [])) (replicate 12 0) (Some p0 :: Some [0%nat] :: replicate 10 None) false 0 0 acc re) anchor v = Ok (i, f, v') /\
    fa_ok f /\ sized v' /\ (2 <= i <= curstat f)%nat /\ state f 2 l2 /\ state f i l /\ init_sets anchor l2 l.
Proof.
  intros Hre Hp0 Hv. rewrite makeinit_start by done. set (f0 := start re p0 (bit (acc ∈ S0))).
  pose proof (start_ok re p0 Hre) as Hf0. fold f0 in Hf0. assert (state f0 2 S0) as Hs2 by (exists (length S0 :: S0); split; [done|exists []; by rewrite app_nil_r]).
  destruct (cgoto_spec junk kind acc fol Hrows f0 2 HAT S0 v Hf0) as (t & f & v' & E & Hf & Hg & Hv' & Ht & Htl); [cbn; lia|done|unfold in_range, HAT, NCHARS; lia|done|].
  destruct (cgoto_HAT _ _ _ _ _ _ _ E (start_no_entries _ _ _)) as (Hne & Hcur & Hp). rewrite E. cbn [mbind out_bind].
  assert (t = curstat f /\ (t = 2 \/ t = 3)%nat) as [Et Ht23].
  { change (curstat f0) with 2%nat in Hcur. destruct Hcur as [[Hle Ec]|[-> Ec]]; [|by auto]. rewrite Ec. destruct (decide (t = 1%nat)) as [->|]; [|lia].
    pose proof (state_fun _ _ _ _ Htl (ok_one _ _ _ _ Hf)) as E1. pose proof zero_init as Hz. rewrite E1 in Hz. by apply elem_of_nil in Hz. }
  assert (state f 2 S0) as Hf2 by (apply Hg; [cbn; lia|done]). rewrite (with_curstat_id f t) by done.
  destruct anchor; [|exists (curstat f), f, v', S0, (step S0 HAT); split_and!; try done; [lia..|by rewrite <- Et]].
  destruct (canon_zero S0 (canon_idem acc _) zero_S0) as (l2 & E2 & Hc2 & Hl2).
  destruct (canon_zero (step S0 HAT) (canon_idem acc _) zero_init) as (l & El & Hcl & Hl).
  destruct (state_get _ _ _ Hf2) as (a2 & Ea2 & Ha2). rewrite Ea2. cbn [mbind out_bind]. destruct (shorten _ _ _ Ha2 E2) as (a2' & -> & Ha2'). cbn [mbind out_bind].
  destruct (with_posns_ok f 2 S0 l2 a2' Hf Hne) as (-> & Hf1 & Hne1 & Hs1 & Ho1); [lia|done..|rewrite Hl2; tauto|]. cbn [mbind out_bind]. set (f1 := with_posns f _) in *.
  assert (get_posns f1 0 = Ok p0) as ->. { unfold get_posns. rewrite (get_Some _ _ (Some p0)); [done|]. cbn. rewrite list_lookup_insert_ne by done. by apply Hp. }
  cbn [mbind out_bind]. rewrite Hp0, Nat.ltb_irrefl. destruct (ok_lengths _ _ _ _ Hf1) as [Lo Lp]. pose proof (ok_cur _ _ _ _ Hf1) as Hcu. change (curstat f1) with (curstat f) in Hcu.
  set (arr0 := take _ _ ++ _). assert (set_posns f1 0 arr0 = Ok (with_posns f1 (<[0%nat := Some arr0]> (posns f1)))) as -> by (unfold set_posns; by rewrite put_lt by lia).
  cbn [mbind out_bind]. destruct (lookup_lt_is_Some_2 (fout f1) 2) as [o Eo]; [lia|].
  change (fout (with_posns f1 (<[0%nat := Some arr0]> (posns f1)))) with (fout f1). rewrite (get_Some _ _ _ Eo). cbn [mbind out_bind].
  assert (forall f, fout f = fout f1 -> set_out f 0 o = Ok (with_out f (<[0%nat := o]> (fout f1)))) as -> by (intros ? E'; unfold set_out; by rewrite E', put_lt by lia); [|done].
  cbn [mbind out_bind].
  destruct (with_zero_ok f1 arr0 o Hf1) as [Hf3 Hs3]. set (f3 := with_out _ _) in *. change (curstat f3) with (curstat f). rewrite <- Et.
  assert (no_entries f3) as Hne3 by done.
  destruct Ht23 as [->| ->]; cbn [Nat.eqb mbind out_bind].
  - exists 2%nat, f3, v', l2, l2. change (curstat f3) with (curstat f). rewrite <- Et. split_and!; [done..|lia|lia|by apply Hs3; [lia|]|by apply Hs3; [lia|]|].
    pose proof (state_fun _ _ _ _ Hf2 Htl) as Eq. split; [done|]. by rewrite <- Eq.
  - assert (state f3 3 (step S0 HAT)) as Htl3 by (apply Hs3; [lia|]; by apply Ho1).
    destruct (state_get _ _ _ Htl3) as (a3 & Ea3 & Ha3). rewrite Ea3. cbn [mbind out_bind]. rewrite (repr_head _ _ Ha3). cbn [mbind out_bind].
    destruct (shorten _ _ _ Ha3 El) as (a3' & -> & Ha3'). cbn [mbind out_bind].
    destruct (with_posns_ok f3 3 (step S0 HAT) l a3' Hf3 Hne3) as (-> & Hf4 & Hne4 & Hs4 & Ho4); [change (curstat f3) with (curstat f); lia|done..|rewrite Hl; tauto|].
    cbn [mbind out_bind]. set (f4 := with_posns f3 _) in *. change (curstat f4) with (curstat f). rewrite <- Et.
    exists 3%nat, f4, v', l2, l. change (curstat f4) with (curstat f). rewrite <- Et. split_and!; [done..|lia|lia| |done|by split]. apply Ho4; [done|]. by apply Hs3; [lia|].
Qed.
End Init.
