(* ===== verification/AwkTree.v ===== *)
(** The positions of a numbered tree: the texts that can be read from a set of them,
    and how a character moves on. *)

From stdpp Require Import numbers list.
From S2P Require Import Prelude AwkFa AwkLang AwkSets AwkDfa.

(** * Paths *)

Fixpoint root (n : Node) (parents : list parent) : Node :=
  match parents with [] => n | p :: parents => root (plug p n) parents end.

Lemma firsts_leaves n q : forall parents, q ∈ firsts n parents -> q ∈ leaves n parents /\ q.1.2 <> EMPTYRE.
Proof.
  induction n as [k i|t l IH|l IHl r IHr|l IHl r IHr]; intros parents Hq; cbn in *.
  - destruct k, i; cbn in *; try (by apply elem_of_nil in Hq); (split; [done|]); by apply list_elem_of_singleton in Hq as ->.
  - destruct t; cbn in *; [by apply IH..|by apply elem_of_nil in Hq].
  - rewrite elem_of_app in *. destruct Hq as [Hq|Hq]; [apply IHl in Hq as [? ?]; auto|]. destruct (nullable l); [apply IHr in Hq as [? ?]; auto|by apply elem_of_nil in Hq].
  - rewrite elem_of_app in *. destruct Hq as [Hq|Hq]; [apply IHl in Hq as [? ?]|apply IHr in Hq as [? ?]]; auto.
Qed.

Lemma leaves_plug p n q parents : par_numbered p -> q ∈ leaves n (p :: parents) -> q ∈ leaves (plug p n) parents.
Proof. intros Hp Hq. destruct p as [[]| | | |]; cbn; try done; apply elem_of_app; auto. Qed.
Lemma leaves_root parents : forall n q, Forall par_numbered parents -> q ∈ leaves n parents -> q ∈ leaves (root n parents) [].
Proof.
  induction parents as [|p parents IH]; intros n q Hp Hq; [done|]. apply Forall_cons in Hp as [Hp Hps]. apply IH; [done|]. by apply leaves_plug.
Qed.

Lemma path_up p up parents q n : par_numbered p -> root (leaf_of q) q.2 = root n (p :: parents) -> q.2 = up ++ p :: parents -> Forall par_numbered up -> root (leaf_of q) up = n ->
  root (leaf_of q) q.2 = root (plug p n) parents /\ exists up, q.2 = up ++ parents /\ Forall par_numbered up /\ root (leaf_of q) up = plug p n.
Proof.
  intros Hp Hr Hq Hu Hn. split; [done|]. exists (up ++ [p]). split_and!; [by rewrite <- app_assoc|apply Forall_app; split; [done|by constructor]|].
  rewrite <- Hn. clear. generalize (leaf_of q) as m. induction up as [|a up IH]; intros m; [done|]. apply IH.
Qed.

Lemma leaves_path n : forall parents q, numbered n -> q ∈ leaves n parents ->
  root (leaf_of q) q.2 = root n parents /\ exists up, q.2 = up ++ parents /\ Forall par_numbered up /\ root (leaf_of q) up = n.
Proof.
  induction n as [k i|t l IH|l IHl r IHr|l IHl r IHr]; intros parents q Hn Hq; cbn in Hq.
  - destruct i as [i|]; [|by apply elem_of_nil in Hq]. apply list_elem_of_singleton in Hq as ->. split; [done|]. exists []. by split_and!.
  - destruct t; try (apply (IH (_ :: parents)) in Hq as (Hr & up & Hu & Hp & Hl); [|done]; by apply (path_up (InUnary _) up parents q l)). by apply elem_of_nil in Hq.
  - destruct Hn as [Hnl Hnr]. apply elem_of_app in Hq as [Hq|Hq]; [apply IHl in Hq as (Hr & up & Hu & Hp & Hl)|apply IHr in Hq as (Hr & up & Hu & Hp & Hl)]; try done;
      [by apply (path_up (InCATl r) up)|by apply (path_up (InCATr l) up)].
  - destruct Hn as [Hnl Hnr]. apply elem_of_app in Hq as [Hq|Hq]; [apply IHl in Hq as (Hr & up & Hu & Hp & Hl)|apply IHr in Hq as (Hr & up & Hu & Hp & Hl)]; try done;
      [by apply (path_up (InORl r) up)|by apply (path_up (InORr l) up)].
Qed.

Lemma follows_leaves parents q : forall n, Forall par_numbered parents -> q ∈ follows n parents -> q ∈ leaves (root n parents) [] /\ q.1.2 <> EMPTYRE.
Proof.
  induction parents as [|p parents IH]; intros n Hps Hq; [destruct n as [[]| | |]; by apply elem_of_nil in Hq|].
  destruct (final n) eqn:Ef; [destruct n as [[]| | |]; try done; by apply elem_of_nil in Hq|]. rewrite follows_cons in Hq by done.
  pose proof Hps as Hps'. apply Forall_cons in Hps' as [Hp Hps'].
  assert (q ∈ firsts n (p :: parents) ++ follows (plug p n) parents -> q ∈ leaves (root n (p :: parents)) [] /\ q.1.2 <> EMPTYRE) as Hrep.
  { intros [Hf|Hf]%elem_of_app; [|by apply IH]. apply firsts_leaves in Hf as [Hf ?]. split; [|done]. by apply leaves_root. }
  destruct p as [[]|r|l|r|l]; try (by apply Hrep); try (by apply IH).
  apply elem_of_app in Hq as [Hq|Hq].
  - apply firsts_leaves in Hq as [Hq ?]. split; [|done]. apply (leaves_root _ _ _ Hps'). cbn. rewrite elem_of_app. auto.
  - destruct (nullable r); [by apply IH|by apply elem_of_nil in Hq].
Qed.

(** * Sets of positions *)

Section Texts.
Context (p1 : Node) (acc : nat).
Let ps := leaves p1 [].
Context (Hnum : numbered p1) (Hidx : idx <$> ps = seq 0 (S acc)).

Definition posn (i : nat) : pos := nth i ps (0%nat, FINAL, []).
Definition kind (i : nat) : leaf := (posn i).1.2.
Definition fol (i : nat) : list nat := idx <$> follows (leaf_of (posn i)) (posn i).2.

Lemma posn_lookup i : (i <= acc)%nat -> ps !! i = Some (posn i) /\ idx (posn i) = i.
Proof.
  intros Hi. assert (length ps = S acc) as Hl by (rewrite <- (length_fmap idx), Hidx; apply length_seq).
  destruct (lookup_lt_is_Some_2 ps i) as [q Eq]; [lia|]. assert (posn i = q) as -> by (unfold posn; by apply nth_lookup_Some).
  split; [done|]. pose proof (list_lookup_fmap idx ps i) as E. rewrite Eq, Hidx, lookup_seq_lt in E by lia. cbn in E. congruence.
Qed.
Lemma posn_idx q : q ∈ ps -> (idx q <= acc)%nat /\ posn (idx q) = q.
Proof.
  intros Hq. assert (idx q <= acc)%nat as Hi. { assert (idx q ∈ idx <$> ps) as H by (by apply list_elem_of_fmap_2). rewrite Hidx, elem_of_seq in H. lia. }
  split; [done|]. destruct (posn_lookup (idx q) Hi) as [E _]. apply list_elem_of_lookup_1 in Hq as [j Ej].
  pose proof (list_lookup_fmap idx ps j) as Ef. rewrite Ej, Hidx in Ef. apply (lookup_seq _ _ _ (idx q)) in Ef as [Ef _]. cbn in Ef. congruence.
Qed.
Lemma posn_in i : (i <= acc)%nat -> posn i ∈ ps.
Proof. intros Hi. destruct (posn_lookup i Hi) as [E _]. by apply list_elem_of_lookup_2 in E. Qed.

Lemma posn_path i : (i <= acc)%nat -> root (leaf_of (posn i)) (posn i).2 = p1 /\ Forall par_numbered (posn i).2.
Proof.
  intros Hi. destruct (leaves_path p1 [] (posn i) Hnum (posn_in i Hi)) as (Hr & up & Eu & Hu & _). split; [done|]. by rewrite Eu, app_nil_r.
Qed.

Lemma fol_posn i q : (i <= acc)%nat -> q ∈ follows (leaf_of (posn i)) (posn i).2 -> q ∈ ps /\ q.1.2 <> EMPTYRE.
Proof. intros Hi Hq. destruct (posn_path i Hi) as [Hr Hp]. apply follows_leaves in Hq; [|done]. by rewrite Hr in Hq. Qed.

Lemma fol_ok i j : (i <= acc)%nat -> j ∈ fol i -> kind j <> EMPTYRE /\ (j <= acc)%nat.
Proof.
  intros Hi (q & -> & Hq)%list_elem_of_fmap. apply fol_posn in Hq as [Hq Hk]; [|done]. destruct (posn_idx q Hq) as [Hle E]. split; [|done]. unfold kind. by rewrite E.
Qed.

(** The texts that can be read from a set of positions. *)
Definition texts (l : list nat) (w : list Z) : Prop := exists i, i ∈ l /\ rest (posn i) w.

Lemma texts_fmap l w : (forall q, q ∈ l -> q ∈ ps) -> texts (idx <$> l) w <-> rests l w.
Proof.
  intros Hl. unfold texts, rests. split.
  - intros (i & (q & -> & Hq)%list_elem_of_fmap & Hr). exists q. split; [done|]. by rewrite (proj2 (posn_idx q (Hl q Hq))) in Hr.
  - intros (q & Hq & Hr). exists (idx q). split; [by apply list_elem_of_fmap_2|]. by rewrite (proj2 (posn_idx q (Hl q Hq))).
Qed.
Lemma texts_ext l l' w : (forall i, i ∈ l <-> i ∈ l') -> texts l w <-> texts l' w.
Proof. intros H. unfold texts. by setoid_rewrite H. Qed.
Lemma texts_app l l' w : texts (l ++ l') w <-> texts l w \/ texts l' w.
Proof. unfold texts. setoid_rewrite elem_of_app. naive_solver. Qed.

Context (l0 : Node) (Hclosed : forall i, (i < acc)%nat -> closed (posn i).2 /\ kind i <> FINAL) (Hfinal : posn acc = (acc, FINAL, [InCATr l0])).

Lemma final_leaf_of q : q.1.2 <> FINAL -> final (leaf_of q) = false.
Proof. destruct q as [[i []] up]; cbn; done. Qed.
Lemma numbered_leaf_of q : numbered (leaf_of q).
Proof. destruct q as [[i k] up]. by exists i. Qed.

Lemma fol_texts i w : (i < acc)%nat -> texts (fol i) w <-> cont (leaf_of (posn i)) (posn i).2 w.
Proof.
  intros Hi. destruct (Hclosed i Hi) as [Hc Hf]. unfold fol. rewrite texts_fmap by (intros q Hq; by apply (fol_posn i q); [lia|]).
  symmetry. apply follows_spec; [apply numbered_leaf_of|by apply final_leaf_of|done].
Qed.

Lemma rest_eq q w : q.1.2 <> FINAL -> rest q w <-> exists c u, w = c :: u /\ takes q.1.2 c = true /\ cont (leaf_of q) q.2 u.
Proof. destruct q as [[i k] up]. cbn. by destruct k. Qed.

(** Reading a character, and the end. *)
Lemma rest_cons i c w : (i <= acc)%nat -> rest (posn i) (c :: w) <-> takes (kind i) c = true /\ texts (fol i) w.
Proof.
  intros Hi. destruct (decide (i = acc)) as [->|Hne].
  - unfold kind. rewrite Hfinal. cbn. split; [|by intros []]. intros (u1 & u2 & E & -> & ->). done.
  - destruct (Hclosed i ltac:(lia)) as [_ Hf]. rewrite fol_texts by lia. rewrite rest_eq by done. split; [intros (c' & u & [= <- <-] & H)|intros H; exists c, w]; done.
Qed.
Lemma rest_nil i : (i <= acc)%nat -> rest (posn i) [] <-> i = acc.
Proof.
  intros Hi. destruct (decide (i = acc)) as [->|Hne].
  - rewrite Hfinal. cbn. split; [done|]. intros _. by exists [], [].
  - destruct (Hclosed i ltac:(lia)) as [_ Hf]. rewrite rest_eq by done. split; [by intros (c & u & [=] & _)|done].
Qed.

Notation step := (step kind acc fol).
Definition bounded (l : list nat) : Prop := forall i, i ∈ l -> (i <= acc)%nat.

Lemma texts_step l c w : bounded l -> texts (step l c) w <-> texts l (c :: w).
Proof.
  intros Hl. unfold texts, AwkDfa.step. setoid_rewrite elem_of_canon. unfold targets. setoid_rewrite list_elem_of_bind. split.
  - intros (j & [(i & Hj & Hi) Hja] & Hr). exists i. split; [done|]. apply rest_cons; [by apply Hl|]. destruct (takes (kind i) c); [|by apply elem_of_nil in Hj].
    split; [done|]. by exists j.
  - intros (i & Hi & Hr). apply rest_cons in Hr as [Ht (j & Hj & Hr)]; [|by apply Hl]. exists j. split; [|done]. split; [exists i; by rewrite Ht|].
    apply (fol_ok i j); [by apply Hl|done].
Qed.
Lemma texts_nil l : bounded l -> texts l [] <-> acc ∈ l.
Proof.
  intros Hl. unfold texts. split; [intros (i & Hi & Hr)|intros Ha; exists acc; split; [done|]; by apply rest_nil].
  apply rest_nil in Hr as ->; [done|by apply Hl].
Qed.
Lemma bounded_step l c : bounded (step l c).
Proof. intros i Hi. by apply elem_of_canon in Hi as [_ Hi]. Qed.
End Texts.
