(* ===== verification/AwkMk.v ===== *)
(** The automaton of a regular expression: [mkdfa] numbers the tree, computes the follow
    sets and makes the first states; what these stand for is told by the language. *)

From stdpp Require Import numbers list.
From S2P Require Import Prelude AwkFa AwkLang AwkSets AwkDfa AwkInit AwkTree.

(** * Numbering *)

Lemma lang_unary_mono t l l' : (forall w, lang l w -> lang l' w) -> forall w, lang (Unary t l) w -> lang (Unary t l') w.
Proof.
  intros Hl. assert (forall w, lang (Unary STAR l) w -> lang (Unary STAR l') w) as Hs.
  { apply lang_star_ind; [constructor|]. intros v u Hv _ Hu. constructor; auto. }
  intros w Hw. destruct t; [auto| |inversion Hw; subst; auto..].
  apply lang_plus_inv in Hw as (v & u & -> & Hv & Hu). constructor; auto.
Qed.

Lemma penter_spec p : forall n p' m, penter p n = (p', m) ->
  (forall parents, idx <$> leaves p' parents = seq n (m - n)) /\ (n <= m)%nat /\ numbered p' /\ (forall w, lang p' w <-> lang p w).
Proof.
  assert (forall (l r l' r' : Node) n m k, (forall ps, idx <$> leaves l' ps = seq n (m - n)) /\ (n <= m)%nat -> (forall ps, idx <$> leaves r' ps = seq m (k - m)) /\ (m <= k)%nat ->
    forall a b, idx <$> leaves l' a ++ leaves r' b = seq n (k - n)) as Hseq.
  { intros l r l' r' n m k [Hl Hnm] [Hr Hmk] a b. rewrite fmap_app, Hl, Hr. replace (k - n)%nat with ((m - n) + (k - m))%nat by lia. rewrite seq_app. do 2 f_equal. lia. }
  induction p as [k i|t l IH|l IHl r IHr|l IHl r IHr]; intros n p' m E; cbn [penter] in E.
  - injection E as <- <-. split_and!; [intros ps; cbn; by replace (S n - n)%nat with 1%nat by lia|lia|by eexists|].
    intros w. split; intros Hw; inversion Hw; subst; auto.
  - destruct t.
    4:{ injection E as <- <-. split_and!; [intros ps; cbn; by rewrite Nat.sub_diag|lia|done|done]. }
    all: destruct (penter l n) as [l' m'] eqn:El; injection E as <- <-; destruct (IH _ _ _ El) as (Hi & Hle & Hn & Hl);
      split_and!; [intros ps; apply Hi|done|done|]; intros w; split; apply lang_unary_mono; intros; by apply Hl.
  - destruct (penter l n) as [l' m1] eqn:El. destruct (penter r m1) as [r' m2] eqn:Er. injection E as <- <-.
    destruct (IHl _ _ _ El) as (Hi1 & Hle1 & Hn1 & Hl1), (IHr _ _ _ Er) as (Hi2 & Hle2 & Hn2 & Hl2).
    split_and!; [intros ps; by apply (Hseq l r l' r' n m1 m2)|lia|by split|].
    intros w. split; intros (v & u & -> & Hv & Hu)%lang_cat_inv; (constructor; [by apply Hl1|by apply Hl2]).
  - destruct (penter l n) as [l' m1] eqn:El. destruct (penter r m1) as [r' m2] eqn:Er. injection E as <- <-.
    destruct (IHl _ _ _ El) as (Hi1 & Hle1 & Hn1 & Hl1), (IHr _ _ _ Er) as (Hi2 & Hle2 & Hn2 & Hl2).
    split_and!; [intros ps; by apply (Hseq l r l' r' n m1 m2)|lia|by split|].
    intros w. split; intros Hw; inversion Hw; subst; [apply lang_or_l|apply lang_or_r|apply lang_or_l|apply lang_or_r]; by (apply Hl1 || apply Hl2).
Qed.

(** No leaf but that of [mkdfa] is the end mark. *)
Fixpoint no_final (n : Node) : Prop :=
  match n with
  | Leaf k _ => k <> FINAL
  | Unary _ l => no_final l
  | CAT l r | OR l r => no_final l /\ no_final r
  end.
Lemma penter_no_final p : forall n, no_final p -> no_final (penter p n).1.
Proof.
  induction p as [k i|t l IH|l IHl r IHr|l IHl r IHr]; intros n Hp; cbn [penter].
  - done.
  - destruct t; [..|done]; (specialize (IH n Hp); by destruct (penter l n)).
  - destruct Hp as [Hl Hr]. specialize (IHl n Hl). destruct (penter l n) as [l' m]. specialize (IHr m Hr). by destruct (penter r m).
  - destruct Hp as [Hl Hr]. specialize (IHl n Hl). destruct (penter l n) as [l' m]. specialize (IHr m Hr). by destruct (penter r m).
Qed.
Lemma no_final_leaves n q : forall parents, no_final n -> q ∈ leaves n parents -> q.1.2 <> FINAL.
Proof.
  induction n as [k i|t l IH|l IHl r IHr|l IHl r IHr]; intros parents Hn Hq; cbn in Hq.
  - destruct i; [by apply list_elem_of_singleton in Hq as ->|by apply elem_of_nil in Hq].
  - destruct t; [by eapply IH..|by apply elem_of_nil in Hq].
  - destruct Hn as [Hl Hr]. apply elem_of_app in Hq as [Hq|Hq]; eauto.
  - destruct Hn as [Hl Hr]. apply elem_of_app in Hq as [Hq|Hq]; eauto.
Qed.

Lemma leaves_well kind acc n : forall parents, numbered n -> (forall q, q ∈ leaves n parents -> (idx q <= acc)%nat /\ kind (idx q) = q.1.2) -> well kind acc n.
Proof.
  induction n as [k i|t l IH|l IHl r IHr|l IHl r IHr]; intros parents Hn Hq; cbn in *.
  - destruct Hn as [i' ->]. destruct (Hq (i', k, parents)) as [H1 H2]; [by left|]. by exists i'.
  - destruct t; [by eapply IH..|done].
  - setoid_rewrite elem_of_app in Hq. destruct Hn as [Hl Hr]. split; [eapply IHl|eapply IHr]; eauto.
  - setoid_rewrite elem_of_app in Hq. destruct Hn as [Hl Hr]. split; [eapply IHl|eapply IHr]; eauto.
Qed.

Lemma follows_app up parents q : forall n, Forall par_numbered up -> q ∈ follows n (up ++ parents) ->
  q ∈ leaves (root n up) parents \/ q ∈ follows (root n up) parents.
Proof.
  induction up as [|p up IH]; intros n Hp Hq; [by right|]. apply Forall_cons in Hp as [Hp Hps]. cbn [root app] in *.
  destruct (final n) eqn:Ef; [destruct n as [[]| | |]; try done; by apply elem_of_nil in Hq|]. rewrite follows_cons in Hq by done.
  assert (forall n q, q ∈ leaves n (up ++ parents) -> q ∈ leaves (root n up) parents) as Hroot.
  { clear -Hps. induction up as [|a up IH]; intros n q Hq; [done|]. apply Forall_cons in Hps as [Ha Hps]. cbn. apply IH; [done|]. by apply leaves_plug. }
  assert (q ∈ firsts n (p :: up ++ parents) ++ follows (plug p n) (up ++ parents) -> q ∈ leaves (root (plug p n) up) parents \/ q ∈ follows (root (plug p n) up) parents) as Hrep.
  { intros [Hf|Hf]%elem_of_app; [|by apply IH]. apply firsts_leaves in Hf as [Hf _]. left. apply Hroot. by apply leaves_plug. }
  destruct p as [[]|r|l|r|l]; try (by apply Hrep); try (by apply IH).
  apply elem_of_app in Hq as [Hq|Hq].
  - apply firsts_leaves in Hq as [Hq _]. left. apply Hroot. cbn. rewrite elem_of_app. auto.
  - destruct (nullable r); [by apply IH|by apply elem_of_nil in Hq].
Qed.

(** * The whole tree *)

Lemma all_star u i : lang (Unary STAR (Leaf ALL i)) u <-> 0 ∉ u.
Proof.
  split.
  - revert u. apply lang_star_ind; [apply not_elem_of_nil|]. intros v u Hv _ Hu. inversion Hv as [k i' c Hk Hc| | | | | | | | | | | |]; subst. cbn in *.
    destruct (Z.eqb_spec c 0); [done|]. rewrite elem_of_cons. naive_solver.
  - induction u as [|c u IH]; intros Hu; [constructor|]. apply not_elem_of_cons in Hu as [Hc Hu]. apply (lang_star _ [c] u); [|by apply IH].
    constructor; [done|]. cbn. by destruct (Z.eqb_spec c 0).
Qed.

(** What is read from the state in which a search starts over: the expression, at once
    or, when the automaton is not anchored, behind any characters. *)
Definition from (p : Node) (anchor : bool) (w : list Z) : Prop :=
  if anchor then lang p w else exists u v, w = u ++ v /\ 0 ∉ u /\ lang p v.

Section Whole.
Context (p p' : Node) (m : nat) (Hp : no_final p) (E : penter p 1 = (p', m)).
Let fin := Leaf FINAL (Some m).
Let star := Unary STAR (Leaf ALL (Some 0%nat)).
Definition whole : Node := CAT (CAT star p') fin.

Lemma penter_whole : penter (CAT (CAT (Unary STAR (Leaf ALL None)) p) (Leaf FINAL None)) 0 = (whole, S m).
Proof. cbn. by rewrite E. Qed.

Lemma leaves_whole : leaves whole [] = [(0%nat, ALL, [InUnary STAR; InCATl p'; InCATl fin])] ++ leaves p' [InCATr star; InCATl fin] ++ [(m, FINAL, [InCATr (CAT star p')])].
Proof. done. Qed.

Lemma p'_facts : (forall ps, idx <$> leaves p' ps = seq 1 (m - 1)) /\ (1 <= m)%nat /\ numbered p' /\ (forall w, lang p' w <-> lang p w) /\ no_final p'.
Proof. destruct (penter_spec _ _ _ _ E) as (Hi & Hle & Hn & Hl). pose proof (penter_no_final p 1 Hp) as Hf. rewrite E in Hf. done. Qed.

Lemma whole_numbered : numbered whole.
Proof. destruct p'_facts as (_ & _ & Hn & _). split; [split; [by eexists|done]|by eexists]. Qed.
Lemma whole_idx : idx <$> leaves whole [] = seq 0 (S m).
Proof.
  destruct p'_facts as (Hi & Hle & _). rewrite leaves_whole, !fmap_app, Hi. destruct m as [|k]; [lia|]. replace (S k - 1)%nat with k by lia.
  cbn [fmap list_fmap app idx fst]. change (0%nat :: seq 1 k ++ [S k] = 0%nat :: seq 1 (S k)). f_equal. by rewrite seq_S.
Qed.

Notation posn := (posn whole).
Notation kind := (kind whole).
Notation fol := (fol whole).
Notation texts := (texts whole).

Lemma posn_0 : posn 0 = (0%nat, ALL, [InUnary STAR; InCATl p'; InCATl fin]).
Proof. done. Qed.
Lemma posn_m : posn m = (m, FINAL, [InCATr (CAT star p')]).
Proof.
  destruct (posn_idx whole m whole_idx (m, FINAL, [InCATr (CAT star p')])) as [_ H]; [|done].
  rewrite leaves_whole, !elem_of_app, !list_elem_of_singleton. auto.
Qed.

(** A position inside the expression. *)
Lemma posn_inside i : (0 < i < m)%nat -> posn i ∈ leaves p' [InCATr star; InCATl fin].
Proof.
  intros Hi. destruct (posn_lookup whole m whole_idx i ltac:(lia)) as [Hl Ei]. apply list_elem_of_lookup_2 in Hl.
  rewrite leaves_whole, !elem_of_app, !list_elem_of_singleton in Hl. destruct Hl as [Hl|[Hl|Hl]]; [|done|]; rewrite Hl in Ei; cbn in Ei; lia.
Qed.

Lemma closed_fin up : Forall par_numbered up -> closed (up ++ [InCATl fin]).
Proof.
  intros Hu. split; [apply Forall_app; split; [done|]; constructor; [by eexists|done]|]. apply Exists_app. right. constructor. by exists fin.
Qed.
Lemma star_numbered : numbered star.
Proof. by eexists. Qed.

Lemma whole_closed i : (i < m)%nat -> closed (posn i).2 /\ kind i <> FINAL.
Proof.
  intros Hi. destruct p'_facts as (_ & _ & Hn & _ & Hf). destruct (decide (i = 0%nat)) as [->|Hne].
  { split; [|done]. change (posn 0).2 with ([InUnary STAR; InCATl p'] ++ [InCATl fin]). apply closed_fin. by repeat constructor. }
  pose proof (posn_inside i ltac:(lia)) as Hin. split; [|by eapply no_final_leaves].
  destruct (leaves_path _ _ _ Hn Hin) as (_ & up & -> & Hu & _). change [InCATr star; InCATl fin] with ([InCATr star] ++ [InCATl fin]).
  rewrite app_assoc. apply closed_fin, Forall_app. split; [done|]. constructor; [apply star_numbered|done].
Qed.

Lemma whole_acc : m <> 0%nat.
Proof. destruct p'_facts as (_ & Hle & _). lia. Qed.

(** The positions behind the leading [ALL]: those of the expression and its end. *)
Definition behind0 : list pos := follows star [InCATl p'; InCATl fin].
Lemma fol_0 : fol 0 = 0%nat :: (idx <$> behind0).
Proof. unfold AwkTree.fol. rewrite posn_0. cbn [leaf_of snd]. by rewrite follows_cons. Qed.

Lemma behind0_in q : q ∈ behind0 -> q ∈ leaves whole [] /\ idx q <> 0%nat.
Proof.
  destruct p'_facts as (Hi & Hle & Hn & _). unfold behind0. rewrite follows_cons by done. intros [Hq|Hq]%elem_of_app.
  - apply firsts_leaves in Hq as [Hq _]. split; [rewrite leaves_whole, !elem_of_app; auto|]. apply (list_elem_of_fmap_2 idx) in Hq. rewrite Hi, elem_of_seq in Hq. lia.
  - destruct (nullable p'); [|by apply elem_of_nil in Hq]. cbn in Hq. rewrite list_elem_of_singleton in Hq. subst q.
    split; [rewrite leaves_whole, !elem_of_app, !list_elem_of_singleton; auto|]. apply whole_acc.
Qed.

Lemma behind0_texts w : texts (idx <$> behind0) w <-> lang p w.
Proof.
  destruct p'_facts as (_ & _ & Hn & Hl & _). rewrite (texts_fmap whole m whole_idx) by (intros; by apply behind0_in).
  unfold behind0. rewrite <- follows_spec; [|apply star_numbered|done|change [InCATl p'; InCATl fin] with ([InCATl p'] ++ [InCATl fin]); apply closed_fin; by repeat constructor].
  cbn. split.
  - intros (u1 & u2 & -> & Hu1 & u3 & u4 & -> & Hf & ->). inversion Hf; subst; [done|]. rewrite !app_nil_r. by apply Hl.
  - intros Hw. exists w, []. split; [by rewrite app_nil_r|]. split; [by apply Hl|]. exists [], []. split_and!; [done|constructor|done].
Qed.

Lemma fol_0_texts w : texts (fol 0) w <-> from p false w.
Proof.
  destruct p'_facts as (_ & _ & Hn & Hl & _). rewrite (fol_texts whole m whole_numbered whole_idx whole_closed 0 w) by (pose proof whole_acc; lia).
  rewrite posn_0. cbn. split.
  - intros (u0 & u' & -> & Hu0 & u1 & u2 & -> & Hu1 & u3 & u4 & -> & Hf & ->). inversion Hf; subst; [done|]. rewrite !app_nil_r.
    exists u0, u1. split_and!; [done|by apply all_star in Hu0|by apply Hl].
  - intros (u & v & -> & Hu & Hv). exists u, v. split_and!; [done|by apply all_star|]. exists v, []. split; [by rewrite app_nil_r|]. split; [by apply Hl|].
    exists [], []. split_and!; [done|constructor|done].
Qed.

(** Position 0 follows no other position. *)
Lemma zero_follows i : (0 < i <= m)%nat -> 0%nat ∉ fol i.
Proof.
  destruct p'_facts as (Hidx & Hle & Hn & _ & Hf). intros Hi (q & Eq & Hq)%list_elem_of_fmap. destruct (decide (i = m)) as [->|Hne].
  { rewrite posn_m in Hq. by apply elem_of_nil in Hq. }
  pose proof (posn_inside i ltac:(lia)) as Hin. destruct (leaves_path _ _ _ Hn Hin) as (_ & up & Eu & Hu & Hr). rewrite Eu in Hq.
  apply follows_app in Hq as [Hq|Hq]; [| |done].
  - rewrite Hr in Hq. apply (list_elem_of_fmap_2 idx) in Hq. rewrite Hidx, elem_of_seq in Hq. lia.
  - rewrite Hr in Hq. destruct (final p') eqn:Efi; [destruct p' as [[]| | |]; done|]. rewrite follows_cons in Hq by done. cbn in Hq.
    rewrite list_elem_of_singleton in Hq. subst q. cbn in Eq. by apply whole_acc.
Qed.

Lemma whole_rows (Hroom : forall k, S m <> (MAXLIN * 4 ^ k)%nat) : rows_ok kind m fol.
Proof. split; [|done]. intros i j Hi Hj. by apply (fol_ok whole m whole_numbered whole_idx i j). Qed.

Notation S0 := (S0 m fol).
Notation step := (step kind m fol).

Lemma S0_elem i : i ∈ S0 <-> i ∈ fol 0.
Proof.
  unfold AwkInit.S0. rewrite elem_of_canon. split; [tauto|]. intros Hi. split; [done|].
  by apply (fol_ok whole m whole_numbered whole_idx 0 i); [lia|].
Qed.

Lemma init_texts anchor l2 l : init_sets kind m fol anchor l2 l ->
  (forall w, texts l2 w <-> from p anchor w) /\ (forall w, texts l w <-> from p anchor w \/ lang p (HAT :: w)).
Proof.
  assert (bounded m S0) as Hb0 by (intros i Hi; by apply elem_of_canon in Hi as [_ Hi]).
  pose proof (texts_step whole m whole_numbered whole_idx _ whole_closed posn_m) as Hstep.
  assert (forall w, texts S0 w <-> from p false w) as HS0 by (intros w; rewrite <- fol_0_texts; apply texts_ext, S0_elem).
  assert (forall i, i ∈ S0 /\ i <> 0%nat <-> i ∈ idx <$> behind0) as H0.
  { intros i. rewrite S0_elem, fol_0, elem_of_cons. split; [tauto|]. intros Hi. split; [by right|]. apply list_elem_of_fmap in Hi as (q & -> & Hq). by apply behind0_in. }
  destruct anchor; cbn [init_sets from].
  - intros [H2 Hl]. assert (forall w, texts l2 w <-> lang p w) as Hl2.
    { intros w. rewrite <- behind0_texts. apply texts_ext. intros i. rewrite H2. apply H0. }
    split; [done|]. intros w. assert (bounded m (idx <$> behind0)) as Hb by (intros i Hi; apply Hb0; by apply H0).
    assert (forall i, i ∈ l <-> i ∈ (idx <$> behind0) ++ step (idx <$> behind0) HAT) as Hli.
    { intros i. rewrite Hl, elem_of_app, <- H0. unfold AwkDfa.step. rewrite !elem_of_canon. unfold targets. rewrite !list_elem_of_bind. split.
      - intros [[(j & Hi & Hj) Him] Hi0]. destruct (decide (j = 0%nat)) as [->|Hj0].
        + left. split; [|done]. by apply S0_elem.
        + right. split; [|done]. exists j. split; [done|]. by apply H0.
      - intros [[Hi Hi0]|[(j & Hi & Hj) Him]].
        + split; [|done]. split; [|by apply Hb0]. exists 0%nat. split; [by apply S0_elem|]. apply S0_elem. rewrite fol_0. by left.
        + apply H0 in Hj as [Hj Hj0]. split; [split; [by exists j|done]|]. intros ->. destruct (takes (kind j) HAT); [|by apply elem_of_nil in Hi].
          apply (zero_follows j); [|done]. apply Hb0 in Hj. lia. }
    rewrite (texts_ext whole _ _ _ Hli), texts_app, (Hstep _ _ _ Hb), !behind0_texts. done.
  - intros [-> ->]. split; [done|]. intros w. rewrite (Hstep _ _ _ Hb0), HS0. cbn. split.
    + intros ([|c u] & v & Ew & Hu & Hv); [right; cbn in Ew; by subst v|]. left. injection Ew as <- ->. exists u, v. split_and!; [done| |done].
      by apply not_elem_of_cons in Hu as [_ Hu].
    + intros [(u & v & -> & Hu & Hv)|Hw]; [exists (HAT :: u), v|exists [], (HAT :: w)]; (split_and!; [done| |done]).
      * apply not_elem_of_cons. by split.
      * apply not_elem_of_nil.
Qed.
End Whole.

(** * mkdfa *)

(** The number of leaves that get a number. *)
Fixpoint leaf_count (n : Node) : nat :=
  match n with
  | Leaf _ _ => 1
  | Unary ZERO _ => 0
  | Unary _ l => leaf_count l
  | CAT l r | OR l r => leaf_count l + leaf_count r
  end.
Lemma penter_count p : forall n, (penter p n).2 = (n + leaf_count p)%nat.
Proof.
  induction p as [k i|t l IH|l IHl r IHr|l IHl r IHr]; intros n; cbn [penter leaf_count].
  - cbn. lia.
  - destruct t; [..|cbn; lia]; specialize (IH n); by destruct (penter l n).
  - specialize (IHl n). destruct (penter l n) as [l' m]. specialize (IHr m). destruct (penter r m). cbn in *. lia.
  - specialize (IHl n). destruct (penter l n) as [l' m]. specialize (IHr m). destruct (penter r m). cbn in *. lia.
Qed.

(** With the leading [ALL] and the end mark, the positions are not as many as [setvec]
    has entries at some time: then [tmpset] has room for the count. *)
Definition fits (p : Node) : Prop := forall k, (leaf_count p + 2 <> MAXLIN * 4 ^ k)%nat.

Section Dfa_for.
Context (junk : Z) (p : Node) (anchor : bool).
Definition last_pos : nat := (penter p 1).2.
Definition tree : Node := whole (penter p 1).1 last_pos.

(** State [s] stands for the texts [L]. *)
Definition reads (f : fa) (s : nat) (L : list Z -> Prop) : Prop :=
  (1 <= s <= curstat f)%nat /\ exists l, state f s l /\ bounded last_pos l /\ forall w, texts tree l w <-> L w.

(** [f] is an automaton for [p]. *)
Record dfa_for (f : fa) : Prop := {
  dfa_ok : fa_ok (kind tree) last_pos (fol tree) f;
  dfa_again : reads f 2 (from p anchor);
  dfa_init : reads f (initstat f) (fun w => from p anchor w \/ lang p (HAT :: w)) }.

Context (Hp : no_final p) (Hfits : fits p).

Lemma penter_pair : penter p 1 = ((penter p 1).1, last_pos).
Proof. unfold last_pos. by destruct (penter p 1). Qed.

Lemma tree_numbered : numbered tree.
Proof. exact (whole_numbered p _ _ Hp penter_pair). Qed.
Lemma tree_idx : idx <$> leaves tree [] = seq 0 (S last_pos).
Proof. exact (whole_idx p _ _ Hp penter_pair). Qed.
Lemma tree_closed i : (i < last_pos)%nat -> closed (posn tree i).2 /\ kind tree i <> FINAL.
Proof. exact (whole_closed p _ _ Hp penter_pair i). Qed.
Lemma tree_final : exists l, posn tree last_pos = (last_pos, FINAL, [InCATr l]).
Proof. eexists. exact (posn_m p _ _ Hp penter_pair). Qed.

Lemma tree_rows : rows_ok (kind tree) last_pos (fol tree).
Proof.
  apply (whole_rows p (penter p 1).1 last_pos Hp penter_pair). intros k. unfold last_pos. rewrite penter_count. pose proof (Hfits k). lia.
Qed.

Lemma cfoll_tree v : sized v -> exists re v', cfoll junk last_pos tree [] (replicate (S (S last_pos)) None) v = Ok (re, v') /\ sized v' /\
  forall i, (i <= last_pos)%nat -> re !! i = Some (Some (Rrow (kind tree i) (posarr last_pos (fol tree i)))).
Proof.
  intros Hv. pose proof tree_numbered as Hn. pose proof tree_idx as Hi.
  assert (forall q, q ∈ leaves tree [] -> (idx q <= last_pos)%nat /\ posn tree (idx q) = q) as Hq by (by apply posn_idx).
  destruct (cfoll_spec junk (kind tree) last_pos tree [] (replicate (S (S last_pos)) None) v) as (re & v' & Ec & Hv' & Hlen & Hrow & _).
  - apply (leaves_well _ _ _ []); [done|]. intros q Hin. destruct (Hq q Hin) as [Hle Eq]. split; [done|]. unfold kind. by rewrite Eq.
  - constructor.
  - rewrite Hi. apply NoDup_seq.
  - intros q Hin. destruct (Hq q Hin) as [Hle Eq]. split; [rewrite length_replicate; lia|]. destruct (decide (idx q = last_pos)) as [El|Hne].
    + right. rewrite <- Eq, El. destruct tree_final as [l ->]. done.
    + left. rewrite <- Eq. apply tree_closed. lia.
  - done.
  - exists re, v'. split_and!; [done..|]. intros i Hle. destruct (posn_lookup tree last_pos Hi i Hle) as [Hl Ei].
    apply list_elem_of_lookup_2 in Hl. apply Hrow in Hl. rewrite Ei in Hl. rewrite Hl. do 2 f_equal. unfold row, kind, fol.
    by destruct (posn tree i) as [[j k] up].
Qed.

Lemma mkdfa_dfa v : sized v -> exists f v', mkdfa_tree junk p anchor v = Ok (f, v') /\ dfa_for f /\ sized v'.
Proof.
  intros Hv. unfold mkdfa_tree. rewrite (penter_whole p _ _ penter_pair). cbn zeta. fold tree. replace (S last_pos - 1)%nat with last_pos by lia.
  destruct (cfoll_tree v Hv) as (re & v1 & -> & Hv1 & Hre). cbn [mbind out_bind]. rewrite (get_Some _ _ _ (Hre 0%nat ltac:(lia))). cbn [mbind out_bind deref lfollow].
  change (get (posarr last_pos (fol tree 0)) 0) with (Ok (length (S0 last_pos (fol tree)))). cbn [mbind out_bind].
  pose proof tree_rows as Hrows. pose proof (whole_acc p _ _ Hp penter_pair) as Hacc.
  assert (0%nat ∈ fol tree 0) as H0. { unfold tree. rewrite fol_0. by left. }
  destruct (makeinit_spec junk (kind tree) last_pos (fol tree) Hrows eq_refl H0 Hacc re (replicate (length (S0 last_pos (fol tree))) 0%nat) anchor v1 Hre) as (i & f & v2 & l2 & l & Em & Hf & Hv2 & Hi & H2 & Hl & Hs); [by rewrite length_replicate|done|].
  set (f0 := Fa (replicate 12 (Gtt NCHARS [])) _ _ _ _ _ _ _) in Em.
  assert (forall A (k : nat * fa * sets -> out A), (f ← set_posns (resize_state (Fa [] [] [] false 0 0 last_pos re) 1) 0 (replicate (length (S0 last_pos (fol tree))) 0%nat);
    f ← set_posns f 1 [0%nat]; makeinit junk f anchor v1 ≫= k) = (makeinit junk f0 anchor v1 ≫= k)) as E0 by done.
  rewrite E0, Em. cbn [mbind out_bind]. exists (with_initstat f anchor i), v2. split_and!; [done| |done].
  destruct (init_texts p _ _ Hp penter_pair anchor l2 l Hs) as [Ht2 Htl]. fold tree in Ht2, Htl.
  assert (forall s m, state f s m -> (1 <= s <= curstat f)%nat -> bounded last_pos m) as Hb.
  { intros s m Hm Hsc j Hj. destruct (ok_state _ _ _ _ Hf s Hsc) as (m' & Hm' & Hc & _). rewrite (state_fun _ _ _ _ Hm Hm'), <- Hc in Hj. by apply elem_of_canon in Hj as [_ Hj]. }
  split.
  - destruct Hf. by split.
  - split; [cbn; lia|]. exists l2. split_and!; [done|apply (Hb 2%nat); [done|lia]|done].
  - split; [cbn; lia|]. exists l. split_and!; [done|apply (Hb i); [done|lia]|done].
Qed.

(** ** The interface of the searches *)

Lemma reads_out f s L : dfa_for f -> reads f s L -> exists o, get (fout f) s = Ok o /\ (negb (o =? 0) = true <-> L []).
Proof.
  intros [Hf _ _] (Hs & l & Hl & Hb & Ht). exists (bit (last_pos ∈ l)). split; [by eapply fout_get|].
  destruct tree_final as [l0 Hf0]. rewrite <- Ht, (texts_nil tree last_pos _ tree_closed Hf0 _ Hb). unfold bit. by destruct (decide (last_pos ∈ l)).
Qed.

Lemma reads_one f L w : dfa_for f -> reads f 1 L -> ~ L w.
Proof.
  intros [Hf _ _] (Hs & l & Hl & Hb & Ht) Hw. apply Ht in Hw as (i & Hi & _). rewrite (state_fun _ _ _ _ Hl (ok_one _ _ _ _ Hf)) in Hi. by apply elem_of_nil in Hi.
Qed.

Lemma reads_room f s L : dfa_for f -> reads f s L -> (s < state_count f)%nat.
Proof. intros [Hf _ _] (Hs & _). pose proof (ok_cur _ _ _ _ Hf). lia. Qed.

Lemma reads_goto f s L c v : dfa_for f -> reads f s L -> in_range c -> sized v -> exists t f' v', goto junk f s c v = Ok (t, f', v') /\
  dfa_for f' /\ sized v' /\ initstat f' = initstat f /\ reads f' t (fun w => L (c :: w)).
Proof.
  intros [Hf H2 Hi] (Hs & l & Hl & Hb & Ht) Hc Hv.
  destruct (goto_spec junk (kind tree) last_pos (fol tree) tree_rows f s c l v Hf Hs Hl Hc Hv) as (t & f' & v' & E & Hf' & Hg & Hv' & Htc & Htl).
  assert (forall s L, reads f s L -> reads f' s L) as Hgr.
  { intros s' L' (Hs' & l' & Hl' & Hb' & Ht'). destruct Hg as (Hle & _ & Hst). split; [lia|]. exists l'. split_and!; [by apply Hst|done|done]. }
  exists t, f', v'. split_and!; [done| |done|apply Hg|].
  - split; [done|by apply Hgr|]. replace (initstat f') with (initstat f) by (symmetry; apply Hg). by apply Hgr.
  - split; [done|]. exists (step (kind tree) last_pos (fol tree) l c). split_and!; [done|apply bounded_step|]. intros w. rewrite <- Ht.
    destruct tree_final as [l0 Hf0]. apply (texts_step tree last_pos tree_numbered tree_idx _ tree_closed Hf0 _ _ _ Hb).
Qed.
End Dfa_for.
