(* ===== verification/AwkMatch.v ===== *)
(** The searches of awk for a regular expression: whether a string has a match, the
    leftmost and longest match, and the leftmost match that is not empty. *)

From stdpp Require Import numbers list.
From S2P Require Import Prelude Ctype AwkFa AwkLang AwkSets AwkDfa AwkMk.

(** * Runes *)

Section Match.
Context (junk : Z) (single : bool).
Notation u8_rune := (u8_rune single).

(** The characters of a string with their lengths. *)
Fixpoint decode_fuel (fuel : nat) (p : list Z) : list (Z * nat) :=
  match fuel, p with
  | S fuel, _ :: _ => u8_rune p :: decode_fuel fuel (drop (u8_rune p).2 p)
  | _, _ => []
  end.
Definition decode (p : list Z) : list (Z * nat) := decode_fuel (length p) p.
Fixpoint bytes (cs : list (Z * nat)) : Z := match cs with [] => 0 | c :: cs => Z.of_nat c.2 + bytes cs end.

Lemma lor_lt k a b : 0 <= k -> 0 <= a < 2 ^ k -> 0 <= b < 2 ^ k -> 0 <= Z.lor a b < 2 ^ k.
Proof.
  intros Hk Ha Hb. assert (forall x, 0 <= x < 2 ^ k -> Z.land x (Z.ones k) = x) as Hl by (intros; rewrite Z.land_ones by done; by apply Z.mod_small).
  rewrite <- (Hl a Ha), <- (Hl b Hb), <- Z.land_lor_distr_l, Z.land_ones by done. apply Z.mod_pos_bound. lia.
Qed.
Lemma land_lt n k x : 0 <= k <= n -> 0 <= Z.land x (Z.ones k) < 2 ^ n.
Proof. intros Hk. rewrite Z.land_ones by lia. pose proof (Z.mod_pos_bound x (2 ^ k) ltac:(lia)). pose proof (Z.pow_le_mono_r 2 k n ltac:(lia) ltac:(lia)). lia. Qed.
Lemma part_lt n k j x : 0 <= k -> 0 <= j -> k + j <= n -> 0 <= Z.shiftl (Z.land x (Z.ones k)) j < 2 ^ n.
Proof.
  intros Hk Hj Hn. rewrite Z.shiftl_mul_pow2 by done. pose proof (land_lt k k x ltac:(lia)) as Hx. pose proof (Z.pow_le_mono_r 2 (k + j) n ltac:(lia) ltac:(lia)) as Hp.
  rewrite Z.pow_add_r in Hp by done. nia.
Qed.

Lemma u8_rune_spec p : Forall is_char p -> in_range (u8_rune p).1 /\ (1 <= (u8_rune p).2 <= max 1 (length p))%nat.
Proof.
  intros Hp. unfold AwkFa.u8_rune. set (b := fun i => nth i p 0).
  assert (in_range (b 0%nat)) as Hb.
  { unfold b. destruct Hp as [|c p Hc Hp]; cbn; unfold in_range, is_char in *; lia. }
  change 31 with (Z.ones 5). change 15 with (Z.ones 4). change 7 with (Z.ones 3). change 63 with (Z.ones 6). unfold in_range.
  repeat match goal with |- context [if ?b then _ else _] => let E := fresh "E" in destruct b eqn:E end; cbn [fst snd];
    (split; [first [exact Hb|repeat apply lor_lt; first [apply part_lt; lia|apply land_lt; lia|lia]]|]); rewrite ?andb_true_iff in *; destruct_and?;
    repeat match goal with H : (_ <=? _)%nat = true |- _ => apply Nat.leb_le in H end; lia.
Qed.

Lemma decode_nil : decode [] = [].
Proof. done. Qed.
Lemma decode_fuel_more p : Forall is_char p -> forall fuel, (length p <= fuel)%nat -> decode_fuel fuel p = decode p.
Proof.
  unfold decode. remember (length p) as n eqn:En. revert p En. induction (lt_wf n) as [n _ IH]. intros p -> Hp fuel Hf.
  destruct p as [|c p]; [by destruct fuel|]. destruct fuel as [|fuel]; [cbn in Hf; lia|]. cbn [length decode_fuel].
  destruct (u8_rune_spec (c :: p) Hp) as [_ Hn]. assert (length (drop (u8_rune (c :: p)).2 (c :: p)) < length (c :: p))%nat as Hl by (rewrite length_drop; cbn in *; lia).
  f_equal. rewrite (IH _ Hl) by (done || by apply Forall_drop || (cbn in *; lia)). symmetry. apply (IH _ Hl); [done|by apply Forall_drop|cbn in *; lia].
Qed.
Lemma decode_cons c p : Forall is_char (c :: p) -> decode (c :: p) = u8_rune (c :: p) :: decode (drop (u8_rune (c :: p)).2 (c :: p)).
Proof.
  intros Hp. unfold decode at 1. cbn [length decode_fuel]. f_equal. destruct (u8_rune_spec (c :: p) Hp) as [_ Hn].
  apply decode_fuel_more; [by apply Forall_drop|]. rewrite length_drop. cbn in *. lia.
Qed.
Lemma decode_length p : Forall is_char p -> bytes (decode p) = Z.of_nat (length p).
Proof.
  remember (length p) as n eqn:En. revert p En. induction (lt_wf n) as [n _ IH]. intros p -> Hp. destruct p as [|c p]; [done|].
  rewrite decode_cons by done. destruct (u8_rune_spec (c :: p) Hp) as [_ Hn]. cbn [bytes].
  rewrite (IH (length (drop (u8_rune (c :: p)).2 (c :: p)))); [rewrite length_drop; cbn in *; lia|rewrite length_drop; cbn in *; lia|done|by apply Forall_drop].
Qed.

(** The runes that a search reads: those of the string and the 0 behind it. *)
Definition text (p : list Z) : list Z := (decode p).*1.

Context (re : Node) (anchor : bool) (Hre : no_final re) (Hfits : fits re).
Notation dfa := (dfa_for re anchor).
Notation reads := (reads re).

(** What a search leaves behind. *)
Definition kept (f f' : fa) (v' : sets) : Prop := dfa f' /\ sized v' /\ initstat f' = initstat f.
Lemma kept_trans f f1 v1 f2 v2 : kept f f1 v1 -> kept f1 f2 v2 -> kept f f2 v2.
Proof. intros (_ & _ & E1) (H1 & H2 & E2). unfold kept. split_and!; [done|done|congruence]. Qed.

(** ** match *)

Lemma match_loop_spec fuel : forall f s L p v, dfa f -> reads f s L -> Forall is_char p -> sized v -> (length p < fuel)%nat ->
  exists b f' v', match_loop junk single fuel f s p v = Ok (b, f', v') /\ kept f f' v' /\
    (b = true <-> exists w rest, w <> [] /\ text p ++ [0] = w ++ rest /\ L w).
Proof.
  induction fuel as [|fuel IH]; intros f s L p v Hf Hs Hp Hv Hl; [lia|]. cbn [match_loop]. destruct (u8_rune_spec p Hp) as [Hr Hn].
  destruct (u8_rune p) as [rune n] eqn:Eu. cbn [fst snd] in *. cbn beta iota.
  destruct (reads_goto junk re anchor Hre Hfits f s L rune v Hf Hs Hr Hv) as (t & f1 & v1 & -> & Hf1 & Hv1 & Hi1 & Ht). cbn [mbind out_bind].
  destruct (reads_out re anchor Hre f1 t _ Hf1 Ht) as (o & -> & Ho). cbn [mbind out_bind].
  assert (text p ++ [0] = rune :: match p with [] => [] | _ => text (drop n p) ++ [0] end) as Et.
  { destruct p as [|c p]; [by injection Eu as <- <-|]. unfold text. rewrite decode_cons by done. by rewrite Eu. }
  destruct (negb (o =? 0)) eqn:Eo.
  - exists true, f1, v1. split_and!; [done|done|]. split; [|done]. intros _. exists [rune], (match p with [] => [] | _ => text (drop n p) ++ [0] end).
    split_and!; [done|done|]. by apply Ho.
  - destruct p as [|c p].
    + exists false, f1, v1. split_and!; [done|done|]. split; [done|]. intros (w & rest & Hne & E & HL). rewrite Et in E. destruct w as [|x w]; [done|].
      injection E as <- E. symmetry in E. apply app_eq_nil in E as [-> _]. by apply Ho in HL.
    + destruct (IH f1 t _ (drop n (c :: p)) v1 Hf1 Ht) as (b & f2 & v2 & -> & Hk & Hb); [by apply Forall_drop|done|rewrite length_drop; cbn in *; lia|].
      exists b, f2, v2. split_and!; [done|by eapply kept_trans|]. rewrite Hb, Et. split.
      * intros (w & rest & Hne & E & HL). exists (rune :: w), rest. split_and!; [done| |done]. cbn. by rewrite E.
      * intros (w & rest & Hne & E & HL). destruct w as [|x w]; [done|]. injection E as <- E. exists w, rest. split_and!; [|done|done].
        intros ->. by apply Ho in HL.
Qed.

(** The expression matches a part of the string; what is before it has no 0.  The first
    character may be read behind a [^], the last before the end. *)
Definition occurs (p : list Z) : Prop :=
  (exists w rest, text p ++ [0] = w ++ rest /\ from re anchor w) \/ (exists w rest, text p ++ [0] = w ++ rest /\ lang re (HAT :: w)).

Lemma match_spec f p v : dfa f -> Forall is_char p -> sized v ->
  exists b f' v', match_ junk single f p v = Ok (b, f', v') /\ kept f f' v' /\ (b = true <-> occurs p).
Proof.
  intros Hf Hp Hv. pose proof (dfa_init _ _ _ Hf) as Hi. unfold match_. destruct (reads_out re anchor Hre f _ _ Hf Hi) as (o & -> & Ho). cbn [mbind out_bind].
  assert (occurs p <-> exists w rest, text p ++ [0] = w ++ rest /\ (from re anchor w \/ lang re (HAT :: w))) as Hoc.
  { unfold occurs. split; [intros [(w & r & E & H)|(w & r & E & H)]; eauto|]. intros (w & r & E & [H|H]); eauto. }
  destruct (negb (o =? 0)) eqn:Eo.
  - exists true, f, v. split_and!; [done|done|]. rewrite Hoc. split; [|done]. intros _. exists [], (text p ++ [0]). split; [done|]. by apply Ho.
  - destruct (match_loop_spec (S (length p)) f _ _ p v Hf Hi Hp Hv) as (b & f' & v' & -> & Hk & Hb); [lia|]. exists b, f', v'. split_and!; [done|done|].
    rewrite Hb, Hoc. split; [intros (w & r & _ & E & H); eauto|]. intros (w & r & E & H). exists w, r. split_and!; [|done|done]. intros ->. by apply Ho in H.
Qed.

(** ** The longest match at a position *)

(** [n] bytes from the position on are a match; the end counts for nothing. *)
Definition ends (L : list Z -> Prop) (cs : list (Z * nat)) (n : Z) : Prop :=
  (exists c1 c2, cs = c1 ++ c2 /\ n = bytes c1 /\ L c1.*1) \/ n = bytes cs /\ L (cs.*1 ++ [0]).
Definition longest_of (L : list Z -> Prop) (cs : list (Z * nat)) (n : Z) : Prop := ends L cs n /\ forall m, ends L cs m -> m <= n.

Lemma bytes_nonneg cs : 0 <= bytes cs.
Proof. induction cs as [|c cs IH]; cbn; lia. Qed.

Lemma ends_cons L c cs n : ends L (c :: cs) n <-> n = 0 /\ L [] \/ ends (fun w => L (c.1 :: w)) cs (n - Z.of_nat c.2).
Proof.
  unfold ends. split.
  - intros [(c1 & c2 & E & -> & HL)|[-> HL]].
    + destruct c1 as [|x c1]; [by left|]. injection E as <- ->. right. left. exists c1, c2. cbn. split_and!; [done|lia|done].
    + right. right. cbn. split; [lia|done].
  - intros [[-> HL]|[(c1 & c2 & -> & E & HL)|[E HL]]].
    + left. exists [], (c :: cs). done.
    + left. exists (c :: c1), c2. cbn. split_and!; [done|lia|done].
    + right. cbn. split; [lia|done].
Qed.
Lemma ends_nil L n : ends L [] n <-> n = 0 /\ (L [] \/ L [0]).
Proof.
  unfold ends. split.
  - intros [(c1 & c2 & E & -> & HL)|[-> HL]]; [|auto]. symmetry in E. apply app_eq_nil in E as [-> ->]. auto.
  - intros [-> [HL|HL]]; [left; by exists [], []|by right].
Qed.
Lemma ends_nonneg L cs n : ends L cs n -> 0 <= n.
Proof. intros [(c1 & c2 & _ & -> & _)|[-> _]]; apply bytes_nonneg. Qed.

Definition longest_result (L : list Z -> Prop) (cs : list (Z * nat)) (read patlen r : Z) : Prop :=
  (exists n, longest_of L cs n /\ r = read + n) \/ (forall n, ~ ends L cs n) /\ r = patlen.

Lemma longest_result_cons L c cs read patlen r :
  forall pl, (L [] -> pl = read) -> (~ L [] -> pl = patlen) -> (L [] \/ ~ L []) ->
  longest_result (fun w => L (c.1 :: w)) cs (read + Z.of_nat c.2) pl r -> longest_result L (c :: cs) read patlen r.
Proof.
  intros pl Hy Hn Hd [(n & [He Hm] & ->)|[Hno ->]].
  - left. exists (Z.of_nat c.2 + n). split; [|lia]. split; [apply ends_cons; right; by replace (Z.of_nat c.2 + n - Z.of_nat c.2) with n by lia|].
    intros m [[-> _]|Hm']%ends_cons; [apply ends_nonneg in He; lia|]. apply Hm in Hm'. lia.
  - destruct Hd as [HL|HL].
    + left. exists 0. split; [|rewrite (Hy HL); lia]. split; [apply ends_cons; by left|]. intros m [[-> _]|Hm]%ends_cons; [lia|by apply Hno in Hm].
    + right. split; [|by apply Hn]. intros n [[_ ?]|?]%ends_cons; [done|by eapply Hno].
Qed.

Lemma longest_spec fuel : forall f s L q read patlen v, dfa f -> reads f s L -> Forall is_char q -> sized v -> (length q < fuel)%nat ->
  exists r f' v', longest junk single fuel f s q read patlen v = Ok (r, f', v') /\ kept f f' v' /\ longest_result L (decode q) read patlen r.
Proof.
  induction fuel as [|fuel IH]; intros f s L q read patlen v Hf Hs Hq Hv Hl; [lia|]. cbn [longest]. destruct (u8_rune_spec q Hq) as [Hr Hn].
  destruct (reads_out re anchor Hre f s L Hf Hs) as (o & -> & Ho). cbn [mbind out_bind].
  destruct (u8_rune q) as [rune n] eqn:Eu. cbn [fst snd] in *. cbn beta iota zeta.
  destruct (reads_goto junk re anchor Hre Hfits f s L rune v Hf Hs Hr Hv) as (t & f1 & v1 & -> & Hf1 & Hv1 & Hi1 & Ht). cbn [mbind out_bind].
  rewrite (proj2 (Nat.ltb_lt _ _) (reads_room re anchor f1 t _ Hf1 Ht)). cbn [negb].
  set (pl := if negb (o =? 0) then read else patlen).
  assert (L [] -> pl = read) as Hy by (unfold pl; by intros ->%Ho). assert (~ L [] -> pl = patlen) as Hno by (unfold pl; rewrite <- Ho; by destruct (negb (o =? 0))).
  assert (L [] \/ ~ L []) as Hd by (rewrite <- Ho; destruct (negb (o =? 0)); auto).
  destruct q as [|c q].
  - injection Eu as <- <-. assert (forall r, (L [] \/ L [0]) /\ r = read \/ ~ (L [] \/ L [0]) /\ r = patlen -> longest_result L (decode []) read patlen r) as Hres.
    { intros r [[H ->]|[H ->]].
      - left. exists 0. split; [|lia]. split; [by apply ends_nil|]. intros m [-> _]%ends_nil. lia.
      - right. split; [|done]. intros m [_ ?]%ends_nil. done. }
    destruct (Nat.eqb_spec t 1) as [->|Hne].
    + exists pl, f1, v1. split_and!; [done|done|]. apply Hres. pose proof (reads_one re anchor f1 _ [] Hf1 Ht) as H0. destruct Hd as [Hd|Hd]; [left|right]; intuition.
    + destruct (reads_out re anchor Hre f1 t _ Hf1 Ht) as (o' & -> & Ho'). cbn [mbind out_bind]. eexists _, f1, v1. split_and!; [done|done|]. apply Hres.
      destruct (negb (o' =? 0)); [left; split; [right; by apply Ho'|done]|]. destruct Hd as [Hd|Hd]; [left; split; [by left|by apply Hy]|right]. split; [|by apply Hno].
      intros [?|?%Ho']; done.
  - rewrite decode_cons, Eu by done. cbn [snd]. destruct (Nat.eqb_spec t 1) as [->|Hne].
    + exists pl, f1, v1. split_and!; [done|done|]. apply (longest_result_cons _ _ _ _ _ _ pl); try done. right. split; [|done]. cbn [fst].
      pose proof (fun w => reads_one re anchor f1 _ w Hf1 Ht) as H1. intros m [(c1 & c2 & _ & _ & H)|[_ H]]; by apply H1 in H.
    + destruct (IH f1 t _ (drop n (c :: q)) (read + Z.of_nat n) pl v1 Hf1 Ht) as (r & f2 & v2 & -> & Hk & Hres); [by apply Forall_drop|done|rewrite length_drop; cbn in *; lia|].
      exists r, f2, v2. split_and!; [done|by eapply kept_trans|]. by apply (longest_result_cons _ _ _ _ _ _ pl).
Qed.

Lemma longest_new f s L q v : dfa f -> reads f s L -> Forall is_char q -> sized v ->
  exists r f' v', longest junk single (S (length q)) f s q 0 (-1) v = Ok (r, f', v') /\ kept f f' v' /\
    (0 <= r /\ longest_of L (decode q) r \/ r = -1 /\ forall n, ~ ends L (decode q) n).
Proof.
  intros Hf Hs Hq Hv. destruct (longest_spec (S (length q)) f s L q 0 (-1) v Hf Hs Hq Hv) as (r & f' & v' & -> & Hk & Hres); [lia|].
  exists r, f', v'. split_and!; [done|done|]. destruct Hres as [(n & Hn & ->)|[Hn ->]]; [left|by right]. cbn. split; [|done]. destruct Hn as [Hn _]. by apply ends_nonneg in Hn.
Qed.

(** ** pmatch *)

(** The texts that match behind [i] characters: at the first position also behind [^]. *)
Definition start (L : list Z -> Prop) (i : nat) : list Z -> Prop := match i with O => L | S _ => from re anchor end.
Definition leftmost_longest (L : list Z -> Prop) (cs : list (Z * nat)) (patbeg : Z) (r : option (Z * Z)) : Prop :=
  match r with
  | Some (b, n) => exists i, (i <= length cs)%nat /\ b = patbeg + bytes (take i cs) /\ longest_of (start L i) (drop i cs) n /\
      forall j, (j < i)%nat -> forall m, ~ ends (start L j) (drop j cs) m
  | None => forall j, (j <= length cs)%nat -> forall m, ~ ends (start L j) (drop j cs) m
  end.

Lemma leftmost_here L cs b n : longest_of L cs n -> leftmost_longest L cs b (Some (b, n)).
Proof. intros Hn. exists 0%nat. rewrite take_0, drop_0. cbn. split_and!; [lia|lia|done|]. intros; lia. Qed.
Lemma start_from i : start (from re anchor) i = from re anchor.
Proof. by destruct i. Qed.
Lemma leftmost_next L c cs b r : (forall m, ~ ends L (c :: cs) m) -> leftmost_longest (from re anchor) cs (b + Z.of_nat c.2) r -> leftmost_longest L (c :: cs) b r.
Proof.
  intros Hno. destruct r as [[b' n]|]; cbn [leftmost_longest].
  - intros (i & Hi & -> & Hl & Hj). exists (S i). rewrite start_from in Hl. cbn [take bytes drop start length]. split_and!; [lia|lia|done|].
    intros [|j] Hji; [done|]. specialize (Hj j ltac:(lia)). by rewrite start_from in Hj.
  - intros Hj [|j] Hji; [done|]. cbn in Hji |- *. specialize (Hj j ltac:(lia)). by rewrite start_from in Hj.
Qed.

Lemma pmatch_loop_spec fuel : forall f s L p patbeg v, dfa f -> reads f s L -> Forall is_char p -> sized v -> (length p < fuel)%nat ->
  exists r f' v', pmatch_loop junk single fuel f s p patbeg v = Ok (r, f', v') /\ kept f f' v' /\ leftmost_longest L (decode p) patbeg r.
Proof.
  induction fuel as [|fuel IH]; intros f s L p patbeg v Hf Hs Hp Hv Hl; [lia|]. cbn [pmatch_loop].
  destruct (longest_new f s L p v Hf Hs Hp Hv) as (r & f1 & v1 & -> & Hk & Hres). cbn [mbind out_bind]. destruct Hres as [[Hr Hlo]|[-> Hno]].
  - rewrite (proj2 (Z.leb_le _ _) Hr). eexists _, f1, v1. split_and!; [done|done|]. by apply leftmost_here.
  - cbn [Z.leb Z.compare]. destruct p as [|c p].
    + exists None, f1, v1. split_and!; [done|done|]. intros j Hj. cbn in Hj. by assert (j = 0%nat) as -> by lia.
    + destruct (u8_rune_spec (c :: p) Hp) as [_ Hn]. rewrite decode_cons in Hno |- * by done. destruct (u8_rune (c :: p)) as [rune n] eqn:Eu. cbn [fst snd] in *. cbn beta iota.
      destruct Hk as (Hf1 & Hv1 & Hi1).
      destruct (IH f1 2%nat (from re anchor) (drop n (c :: p)) (patbeg + Z.of_nat n) v1 Hf1 (dfa_again _ _ _ Hf1)) as (r & f2 & v2 & -> & Hk & Hres);
        [by apply Forall_drop|done|rewrite length_drop; cbn in *; lia|].
      exists r, f2, v2. split_and!; [done|by eapply kept_trans|]. by apply leftmost_next.
Qed.

(** The language at the beginning of the string. *)
Definition at_begin (w : list Z) : Prop := from re anchor w \/ lang re (HAT :: w).

Lemma pmatch_spec f p v : dfa f -> Forall is_char p -> sized v ->
  exists r f' v', pmatch junk single f p v = Ok (r, f', v') /\ kept f f' v' /\ leftmost_longest at_begin (decode p) 0 r.
Proof. intros Hf Hp Hv. apply pmatch_loop_spec; try done; first [apply Hf|lia]. Qed.

(** ** nematch *)

Definition ends_some (L : list Z -> Prop) (cs : list (Z * nat)) : Prop := exists m, 0 < m /\ ends L cs m.
(** The positions are bytes here, not characters. *)
Definition leftmost_nonempty (L : list Z -> Prop) (p : list Z) (patbeg : Z) (r : option (Z * Z)) : Prop :=
  match r with
  | Some (b, n) => exists i, (i < length p)%nat /\ b = patbeg + Z.of_nat i /\ 0 < n /\ longest_of (start L i) (decode (drop i p)) n /\
      forall j, (j < i)%nat -> ~ ends_some (start L j) (decode (drop j p))
  | None => forall j, (j < length p)%nat -> ~ ends_some (start L j) (decode (drop j p))
  end.

Lemma nematch_loop_spec fuel : forall f s L p patbeg patlen v, dfa f -> reads f s L -> Forall is_char p -> sized v -> (length p < fuel)%nat -> patlen <= 0 ->
  exists r f' v', nematch_loop junk single fuel f s p patbeg patlen v = Ok (r, f', v') /\ kept f f' v' /\ leftmost_nonempty L p patbeg r.
Proof.
  induction fuel as [|fuel IH]; intros f s L p patbeg patlen v Hf Hs Hp Hv Hl Hpl; [lia|]. cbn [nematch_loop].
  destruct p as [|c p]; [exists None, f, v; split_and!; [done|done|]; intros j Hj; cbn in Hj; lia|].
  destruct (longest_spec (S (length (c :: p))) f s L (c :: p) 0 patlen v Hf Hs Hp Hv) as (r & f1 & v1 & -> & Hk & Hres); [lia|]. cbn [mbind out_bind].
  destruct (Z.ltb_spec 0 r) as [Hr|Hr].
  - exists (Some (patbeg, r)), f1, v1. split_and!; [done|done|]. exists 0%nat. destruct Hres as [(n & Hn & ->)|[_ ->]]; [|lia].
    rewrite drop_0. split_and!; [cbn; lia|lia|done|done|]. intros; lia.
  - assert (~ ends_some L (decode (c :: p))) as Hno.
    { intros (m & Hm & He). destruct Hres as [(n & [_ Hmax] & ->)|[Hno _]]; [|by eapply Hno]. apply Hmax in He. lia. }
    destruct Hk as (Hf1 & Hv1 & Hi1). apply Forall_cons in Hp as [_ Hp].
    destruct (IH f1 2%nat (from re anchor) p (patbeg + 1) r v1 Hf1 (dfa_again _ _ _ Hf1)) as (r' & f2 & v2 & -> & Hk & Hres'); [done|done|cbn in Hl; lia|lia|].
    exists r', f2, v2. split_and!; [done|by eapply kept_trans|]. destruct r' as [[b n]|]; cbn [leftmost_nonempty] in *.
    + destruct Hres' as (i & Hi & -> & Hn & Hlo & Hj). exists (S i). rewrite start_from in Hlo. cbn [length drop start]. split_and!; [lia|lia|done|done|].
      intros [|j] Hji; [done|]. specialize (Hj j ltac:(lia)). by rewrite start_from in Hj.
    + intros [|j] Hji; [done|]. cbn in Hji |- *. specialize (Hres' j ltac:(lia)). by rewrite start_from in Hres'.
Qed.

Lemma nematch_spec f p v : dfa f -> Forall is_char p -> sized v ->
  exists r f' v', nematch junk single f p v = Ok (r, f', v') /\ kept f f' v' /\ leftmost_nonempty at_begin p 0 r.
Proof. intros Hf Hp Hv. apply nematch_loop_spec; try done; first [apply Hf|lia]. Qed.
End Match.
