(* ===== verification/AwkCorrect.v ===== *)
(** What the searches of awk promise for a regular expression: an automaton made by
    [mkdfa] answers every search, in any order, by the language of the expression, and
    the states it makes on the way change no answer. *)

From stdpp Require Import numbers list.
From S2P Require Import Prelude Ctype AwkFa AwkLang AwkSets AwkDfa AwkMk AwkMatch.

Section Correct.
Context (junk : Z) (single : bool).

(** C5. [match]: [mkdfa] makes an automaton for every expression of the parser (none
    has the end mark, [no_final]) whose number of positions is not one of the sizes of
    [setvec] ([fits]), whatever is in the memory it is given; with it, [match] ends on
    every string, which it reads up to the first character that decodes as 0, stays in
    its arrays, leaves an automaton for the same expression, and answers that there is a
    match exactly when the expression matches some part of the string (behind a [^] only
    at the beginning, a [$] only at the end). *)
Theorem match_finds (re : Node) : no_final re -> fits re ->
  (forall v, sized v -> exists f v', mkdfa_tree junk re false v = Ok (f, v') /\ dfa_for re false f /\ sized v') /\
  (forall f t v, dfa_for re false f -> Forall is_char t -> sized v ->
    exists b f' v', match_ junk single f t v = Ok (b, f', v') /\ dfa_for re false f' /\ sized v' /\ (b = true <-> occurs single re false t)).
Proof.
  intros Hre Hfits. split; [intros v; by apply mkdfa_dfa|]. intros f t v Hf Ht Hv.
  destruct (match_spec junk single re false Hre Hfits f t v Hf Ht Hv) as (b & f' & v' & E & (Hf' & Hv' & _) & Hb). by exists b, f', v'.
Qed.

(** C7. [pmatch] and [nematch], for [sub], [split] and the like: on every string they
    end and stay in their arrays, and they give the leftmost match and of those the
    longest, in bytes; [nematch] the leftmost that is not empty. *)
Theorem pmatch_leftmost_longest (re : Node) : no_final re -> fits re ->
  (forall v, sized v -> exists f v', mkdfa_tree junk re true v = Ok (f, v') /\ dfa_for re true f /\ sized v') /\
  (forall f t v, dfa_for re true f -> Forall is_char t -> sized v ->
    (exists r f' v', pmatch junk single f t v = Ok (r, f', v') /\ dfa_for re true f' /\ sized v' /\
      leftmost_longest re true (at_begin re true) (decode single t) 0 r) /\
    (exists r f' v', nematch junk single f t v = Ok (r, f', v') /\ dfa_for re true f' /\ sized v' /\
      leftmost_nonempty single re true (at_begin re true) t 0 r)).
Proof.
  intros Hre Hfits. split; [intros v; by apply mkdfa_dfa|]. intros f t v Hf Ht Hv. split.
  - destruct (pmatch_spec junk single re true Hre Hfits f t v Hf Ht Hv) as (r & f' & v' & E & (Hf' & Hv' & _) & Hr). by exists r, f', v'.
  - destruct (nematch_spec junk single re true Hre Hfits f t v Hf Ht Hv) as (r & f' & v' & E & (Hf' & Hv' & _) & Hr). by exists r, f', v'.
Qed.
End Correct.

(** Expressions of less than twenty leaves fit. *)
Lemma fits_small re : (leaf_count re < 20)%nat -> fits re.
Proof. intros Hc k. pose proof (Nat.pow_nonzero 4 k ltac:(done)). unfold MAXLIN. lia. Qed.

Definition sample_re : Node :=
  CAT (Leaf (CHAR 97) None) (CAT (Unary STAR (OR (Leaf (CHAR 98) None) (Leaf DOT None))) (Leaf (CHAR 99) None)).
Definition sample_sets : sets := resizesetvec 7 (Sets [] 0).
Lemma sample_sized : sized sample_sets.
Proof. by exists 0%nat. Qed.

Lemma match_finds_witness : exists f v, mkdfa_tree 7 sample_re false sample_sets = Ok (f, v) /\
  exists b f' v', match_ 7 false f (codes "xxabbcx") v = Ok (b, f', v') /\ (b = true <-> occurs false sample_re false (codes "xxabbcx")).
Proof.
  destruct (match_finds 7 false sample_re) as [Hmk Hrun]; [by repeat split|apply fits_small; cbn; lia|].
  destruct (Hmk sample_sets sample_sized) as (f & v & Ef & Hf & Hv). exists f, v. split; [exact Ef|].
  destruct (Hrun f (codes "xxabbcx") v Hf) as (b & f' & v' & Eb & _ & _ & Hb); [by repeat constructor|exact Hv|]. exists b, f', v'. by split.
Defined.

Lemma pmatch_leftmost_longest_witness : exists f v, mkdfa_tree 7 sample_re true sample_sets = Ok (f, v) /\
  exists r f' v', pmatch 7 false f (codes "xxabbcx") v = Ok (r, f', v') /\
    leftmost_longest sample_re true (at_begin sample_re true) (decode false (codes "xxabbcx")) 0 r.
Proof.
  destruct (pmatch_leftmost_longest 7 false sample_re) as [Hmk Hrun]; [by repeat split|apply fits_small; cbn; lia|].
  destruct (Hmk sample_sets sample_sized) as (f & v & Ef & Hf & Hv). exists f, v. split; [exact Ef|].
  destruct (Hrun f (codes "xxabbcx") v Hf) as [(r & f' & v' & Er & _ & _ & Hr) _]; [by repeat constructor|exact Hv|]. exists r, f', v'. by split.
Defined.
