(* ===== verification/AwkRe.v ===== *)
(** The regular expressions of awk as text (src.freebsd/awk/b.c): [relex], which also
    expands the repetitions [{n,m}] in the text it reads, the recursive descent from
    [reparse], and [cclenter].

    Pointers into the text are offsets, which is how they are rebased when the text is
    replaced.  A read behind the NUL and a write behind a buffer is [Fault].  The
    <ctype.h> classes of the locale are the parameter [cc_func]. *)

From stdpp Require Import numbers list.
From S2P Require Import Prelude Ctype AwkFa.

Inductive token :=
  T_CHAR | T_OR | T_STAR | T_PLUS | T_QUEST | T_DOT | T_ALL | T_EMPTYRE | T_CCL | T_NCCL | T_ZERO | T_HAT | T_DOLLAR | T_LPAREN | T_RPAREN | T_END.
#[export] Instance token_eq_dec : EqDecision token.
Proof. solve_decision. Defined.

(** The statics of the lexer; [bufsz] is the size of the buffer of [relex]. *)
Record lexer := Lexer {
  basestr : list Z; prestr : nat; starttok : nat; lastatom : option nat;
  rtok : token; rlxval : Z; rlxstr : list Z; bufsz : Z; parens : nat }.

Definition set_rtok (x : lexer) t := Lexer (basestr x) (prestr x) (starttok x) (lastatom x) t (rlxval x) (rlxstr x) (bufsz x) (parens x).
Definition set_prestr (x : lexer) n := Lexer (basestr x) n (starttok x) (lastatom x) (rtok x) (rlxval x) (rlxstr x) (bufsz x) (parens x).
Definition set_starttok (x : lexer) n := Lexer (basestr x) (prestr x) n (lastatom x) (rtok x) (rlxval x) (rlxstr x) (bufsz x) (parens x).
Definition set_lastatom (x : lexer) n := Lexer (basestr x) (prestr x) (starttok x) n (rtok x) (rlxval x) (rlxstr x) (bufsz x) (parens x).
Definition set_rlxval (x : lexer) v := Lexer (basestr x) (prestr x) (starttok x) (lastatom x) (rtok x) v (rlxstr x) (bufsz x) (parens x).
Definition set_rlxstr (x : lexer) s := Lexer (basestr x) (prestr x) (starttok x) (lastatom x) (rtok x) (rlxval x) s (bufsz x) (parens x).
Definition set_bufsz (x : lexer) n := Lexer (basestr x) (prestr x) (starttok x) (lastatom x) (rtok x) (rlxval x) (rlxstr x) n (parens x).
Definition set_parens (x : lexer) n := Lexer (basestr x) (prestr x) (starttok x) (lastatom x) (rtok x) (rlxval x) (rlxstr x) (bufsz x) n.
Definition set_basestr (x : lexer) s n := Lexer s n (starttok x) (lastatom x) (rtok x) (rlxval x) (rlxstr x) (bufsz x) (parens x).

(** [*p++] on the rest of a string. *)
Definition next_char (p : list Z) : out (Z * list Z) := match p with [] => Fault | c :: p => Ok (c, p) end.
Definition char_at (p : list Z) (i : nat) : out Z := if (i <=? length p)%nat then Ok (nth i p 0) else Fault.

(** * Characters *)

Fixpoint hexstr (max : nat) (p : list Z) (n : Z) : Z * list Z :=
  match max, p with
  | S max, c :: p' =>
    if isxdigit c then
      hexstr max p' (if isdigit c then u32 (16 * n + c - 48)
                     else if (97 <=? c) && (c <=? 102) then u32 (16 * n + c - 97 + 10)
                     else u32 (16 * n + c - 65 + 10))
    else (s32 n, p)
  | _, _ => (s32 n, p)
  end.

Definition isoctdigit (c : Z) : bool := (48 <=? c) && (c <=? 55).
Definition quoted (p : list Z) : out (Z * list Z) :=
  '(c, p) ← next_char p;
  Ok (if c =? chr "t" then (9, p) else if c =? chr "n" then (10, p) else if c =? chr "f" then (12, p)
      else if c =? chr "r" then (13, p) else if c =? chr "b" then (8, p) else if c =? chr "v" then (11, p)
      else if c =? chr "a" then (7, p) else if c =? chr "\" then (92, p)
      else if c =? chr "x" then hexstr 2 p 0
      else if c =? chr "u" then hexstr 8 p 0
      else if isoctdigit c then
        match p with
        | d :: p' =>
          if isoctdigit d then
            match p' with
            | e :: p'' => if isoctdigit e then (8 * (8 * (c - 48) + d - 48) + e - 48, p'') else (8 * (c - 48) + d - 48, p')
            | [] => (8 * (c - 48) + d - 48, p')
            end
          else (c - 48, p)
        | [] => (c - 48, p)
        end
      else (c, p)).

Section Re.
Context (single : bool) (cc_func : string -> Z -> bool).
Notation u8_rune := (u8_rune single).

(** [cclenter]: [buf] holds the runes so far, the last one first. *)
Fixpoint cclenter_loop (fuel : nat) (p : list Z) (buf : list Z) : out (list Z) :=
  match fuel with
  | O => Fault
  | S fuel =>
    match p with
    | [] => Ok (rev buf)
    | _ =>
      let '(c, n) := u8_rune p in
      let p := drop n p in
      if c =? chr "\" then '(c, p) ← quoted p; cclenter_loop fuel p (c :: buf)
      else
        match buf with
        | last :: buf' =>
          if (c =? chr "-") && negb (last =? 0) && negb (length p =? 0)%nat then
            let '(c2, n) := u8_rune p in
            let p := drop n p in
            '(c2, p) ← (if c2 =? chr "\" then quoted p else Ok (c2, p));
            if c2 <? last then cclenter_loop fuel p buf'
            else cclenter_loop fuel p (rev (seqZ (last + 1) (c2 - last)) ++ buf)
          else cclenter_loop fuel p (c :: buf)
        | [] => cclenter_loop fuel p (c :: buf)
        end
    end
  end.
Definition cclenter (argp : list Z) : out (list Z) := cclenter_loop (S (length argp)) argp [].

(** * Tokens *)

Definition charclasses : list (string * nat) :=
  [("alnum", 5); ("alpha", 5); ("blank", 5); ("cntrl", 5); ("digit", 5); ("graph", 5); ("lower", 5); ("print", 5);
   ("punct", 5); ("space", 5); ("upper", 5); ("xdigit", 6)]%string%nat.

Definition push (size : Z) (bp : list Z) (c : Z) : out (list Z) := if Z.of_nat (length bp) <? size then Ok (bp ++ [c]) else Fault.
Definition pushes (size : Z) (bp : list Z) (cs : list Z) : out (list Z) := foldl (fun m c => bp ← m; push size bp c) (Ok bp) cs.

(** [adjbuf] (run.c). *)
Definition adjbuf (psiz minlen quantum : Z) : Z :=
  if psiz <? minlen then
    let rminlen := if quantum =? 0 then 0 else minlen mod quantum in
    if rminlen =? 0 then minlen else minlen + (quantum - rminlen)
  else psiz.

(** The characters of a class; room for two is made before each. *)
Definition push_class (name : string) (size : Z) (bp : list Z) : out (Z * list Z) :=
  foldl (fun m i =>
    '(size, bp) ← m;
    let size := adjbuf size (Z.of_nat (length bp) + 2) 100 in
    if cc_func name i then bp ← pushes size bp (if i =? chr "\" then [92; i] else [i]); Ok (size, bp)
    else Ok (size, bp)) (Ok (size, bp)) (seqZ 1 255).

(** [tostring]: up to the first 0. *)
Fixpoint c_string (l : list Z) : list Z := match l with [] => [] | c :: l => if c =? 0 then [] else c :: c_string l end.

(** The text of a bracket expression, what is left, and the size of the buffer; or the
    character of a single collating element or equivalence class. *)
Inductive bracket := Class (rlxstr : list Z) (p : list Z) (size : Z) | Element (c : Z) (p : list Z) (size : Z).

Fixpoint bracket_loop (fuel : nat) (p : list Z) (bp : list Z) (size : Z) : out bracket :=
  match fuel with
  | O => Fault
  | S fuel =>
    let '(_, n) := u8_rune p in
    if (1 <? n)%nat then bp ← pushes size bp (take n p); bracket_loop fuel (drop n p) bp size
    else
      match p with
      | [] => Fatal "nonterminated character class"
      | c :: p =>
        let element (mark : Z) : out bracket :=
          match drop 1 p with
          | [] => Fatal "nonterminated character class"
          | e :: q =>
            match q with
            | m :: b :: q' =>
              if (m =? mark) && (b =? chr "]") then
                match q' with
                | b' :: q'' => if b' =? chr "]" then Ok (Element (s8 e) q'' size) else bracket_loop fuel q' bp size
                | [] => bracket_loop fuel q' bp size
                end
              else bracket_loop fuel q bp size
            | _ => bracket_loop fuel q bp size
            end
          end in
        if c =? chr "\" then
          bp ← push size bp 92;
          match p with
          | [] => Fatal "nonterminated character class"
          | c :: p => bp ← push size bp c; bracket_loop fuel p bp size
          end
        else if (c =? chr "[") && (hd 0 p =? chr ":") then
          match list_find (fun cc => take cc.2 (drop 1 p) = codes cc.1) charclasses with
          | Some (_, (name, len)) =>
            if (nth (1 + len) p 0 =? chr ":") && (nth (2 + len) p 0 =? chr "]") then
              '(size, bp) ← push_class name size bp; bracket_loop fuel (drop (len + 3) p) bp size
            else bp ← push size bp c; bracket_loop fuel p bp size
          | None => bp ← push size bp c; bracket_loop fuel p bp size
          end
        else if (c =? chr "[") && (hd 0 p =? chr ".") then element (chr ".")
        else if (c =? chr "[") && (hd 0 p =? chr "=") then element (chr "=")
        else if (length bp =? 0)%nat then bp ← push size bp c; bracket_loop fuel p bp size
        else if c =? chr "]" then
          _ ← push size bp 0; Ok (Class (c_string bp) p size)
        else bp ← push size bp c; bracket_loop fuel p bp size
      end
  end.

(** ** Repetitions *)

Inductive repeat_case := REPEAT_SIMPLE | REPEAT_PLUS_APPENDED | REPEAT_WITH_Q | REPEAT_ZERO.
Definition MAX_EXPANDED_RE : Z := 16384.

Fixpoint copies (n : nat) (atom : list Z) : list Z := match n with O => [] | S n => atom ++ copies n atom end.

(** [reptok] and [reptoklen] are the repetition, [atom] and [atomlen] what it repeats. *)
Definition replace_repeat (x : lexer) (reptok reptoklen atom atomlen firstnum secondnum : nat) (special_case : repeat_case) : out lexer :=
  let base := basestr x in
  let init_q := if (firstnum =? 0)%nat then 1%nat else 0%nat in
  let n_q_reps := (secondnum - firstnum)%nat in
  let atom := take atomlen (drop atom base) in
  let suffix := drop (reptok + reptoklen) base in
  let size := (reptok + length suffix + (if (1 <? firstnum)%nat then atomlen * (firstnum - 1) else 0) +
    match special_case with
    | REPEAT_SIMPLE => 0
    | REPEAT_PLUS_APPENDED => 1
    | REPEAT_WITH_Q => init_q + (atomlen + 1) * (n_q_reps - init_q)
    | REPEAT_ZERO => 2
    end)%nat in
  if MAX_EXPANDED_RE <? Z.of_nat size then Fatal "repetition expansion too large"
  else
    let prefix := match special_case with REPEAT_ZERO => take (reptok - atomlen) base ++ codes "()" | _ => take reptok base end in
    let more :=
      match special_case with
      | REPEAT_PLUS_APPENDED => codes "+"
      | REPEAT_WITH_Q => (if (init_q =? 1)%nat then codes "?" else []) ++ copies (n_q_reps - init_q) (atom ++ codes "?")
      | _ => []
      end in
    let buf := prefix ++ copies (firstnum - 1) atom ++ more ++ suffix in
    if (size <? length buf)%nat then Fault
    else Ok (set_basestr x buf match special_case with REPEAT_ZERO => (reptok - atomlen)%nat | _ => reptok end).

(** [repeat]: whether the text was replaced.  A missing [secondnum] is [None]. *)
Definition repeat_ (x : lexer) (reptok reptoklen : nat) (atom : option nat) (atomlen firstnum : nat) (secondnum : option nat) : out (bool * lexer) :=
  match atom with
  | None => Ok (false, x)
  | Some atom =>
    x ← (match secondnum with
         | None => if (firstnum <? 2)%nat then Fatal "internal error"
                   else replace_repeat x reptok reptoklen atom atomlen firstnum 0 REPEAT_PLUS_APPENDED
         | Some m =>
           if (firstnum =? m)%nat then
             replace_repeat x reptok reptoklen atom atomlen firstnum m (if (firstnum =? 0)%nat then REPEAT_ZERO else REPEAT_SIMPLE)
           else if (firstnum <? m)%nat then replace_repeat x reptok reptoklen atom atomlen firstnum m REPEAT_WITH_Q
           else Fatal "internal error"
         end);
    Ok (true, x)
  end.

(** The numbers between the braces.  [n] is set at the comma. *)
Inductive braces := Quest | Star | Plus | Repeat (n : nat) (m : option nat).
Fixpoint braces_loop (p : list Z) (num : nat) (n : option nat) (digitfound : bool) : out (braces * list Z) :=
  match p with
  | [] => Fatal "nonterminated character class"
  | c :: p =>
    if c =? chr "}" then
      match n with
      | Some n =>
        if digitfound then
          if (num <? n)%nat then Fatal "illegal repetition expression"
          else if (n =? 0)%nat && (num =? 1)%nat then Ok (Quest, p)
          else Ok (Repeat n (Some num), p)
        else if (n =? 0)%nat then Ok (Star, p)
        else if (n =? 1)%nat then Ok (Plus, p)
        else Ok (Repeat n None, p)
      | None => if digitfound then Ok (Repeat num (Some num), p) else Fatal "illegal repetition expression"
      end
    else if isdigit c then
      let num := (10 * num + Z.to_nat (c - 48))%nat in
      if (255 <? num)%nat then Fatal "repetition count too large" else braces_loop p num n true
    else if c =? chr "," then
      match n with Some _ => Fatal "illegal repetition expression" | None => braces_loop p 0 (Some num) false end
    else Fatal "illegal repetition expression"
  end.

(** ** relex *)

Fixpoint relex (fuel : nat) (x : lexer) : out lexer :=
  match fuel with
  | O => Fault
  | S fuel =>
    let p := drop (prestr x) (basestr x) in
    let start := prestr x in
    let x := set_starttok x start in
    let '(r, n) := u8_rune p in
    let x := set_rlxval x r in
    if (1 <? n)%nat then
      let x := set_prestr x (start + n) in Ok (set_rtok (set_starttok x (start + n)) T_CHAR)
    else
      match p with
      | [] => Ok (set_rtok x T_END)
      | c :: p =>
        let x := set_prestr x (S start) in
        let at_ (q : list Z) := (length (basestr x) - length q)%nat in
        let tok t := Ok (set_rtok x t) in
        if c =? chr "|" then tok T_OR
        else if c =? chr "*" then tok T_STAR
        else if c =? chr "+" then tok T_PLUS
        else if c =? chr "?" then tok T_QUEST
        else if c =? chr "." then tok T_DOT
        else if c =? chr "^" then tok T_HAT
        else if c =? chr "$" then tok T_DOLLAR
        else if c =? chr "(" then Ok (set_rtok (set_parens x (S (parens x))) T_LPAREN)
        else if c =? chr ")" then
          match parens x with
          | S n => Ok (set_rtok (set_parens x n) T_RPAREN)
          | O => Ok (set_rtok (set_rlxval x c) T_CHAR)
          end
        else if c =? chr "\" then
          match p with
          | [] => Fatal "backslash at end of regular expression"
          | _ => '(v, q) ← quoted p; Ok (set_rtok (set_rlxval (set_prestr x (at_ q)) v) T_CHAR)
          end
        else if c =? chr "[" then
          let cflag := hd 0 p =? chr "^" in
          let p := if cflag then drop 1 p else p in
          let n := 5 * Z.of_nat (length p) + 1 in
          b ← bracket_loop (S (length p)) p [] (adjbuf (bufsz x) n n);
          match b with
          | Class s q size => Ok (set_rtok (set_rlxstr (set_bufsz (set_prestr x (at_ q)) size) s) (if cflag then T_NCCL else T_CCL))
          | Element v q size => Ok (set_rtok (set_rlxval (set_bufsz (set_prestr x (at_ q)) size) v) T_CHAR)
          end
        else if (c =? chr "{") && isdigit (hd 0 p) then
          '(b, q) ← braces_loop p 0 None false;
          let x := set_prestr x (at_ q) in
          match b with
          | Quest => Ok (set_rtok x T_QUEST)
          | Star => Ok (set_rtok x T_STAR)
          | Plus => Ok (set_rtok x T_PLUS)
          | Repeat n m =>
            r ← repeat_ x start (prestr x - start) (lastatom x) (start - default 0%nat (lastatom x)) n m;
            let '(replaced, x) := (r : bool * lexer) in
            if replaced then
              if (n =? 0)%nat && bool_decide (m = Some 0%nat) then Ok (set_rtok x T_ZERO) else relex fuel x
            else Ok (set_rtok x T_PLUS)
          end
        else Ok (set_rtok (set_rlxval x c) T_CHAR)
      end
  end.

(** * The parser *)

(** One token; the fuel is for texts that are replaced. *)
Definition next_token (x : lexer) : out lexer := relex (S (length (basestr x))) x.

Fixpoint unary (fuel : nat) (np : Node) (x : lexer) : out (Node * lexer) :=
  match fuel with
  | O => Fault
  | S fuel =>
    match rtok x with
    | T_STAR => x ← next_token x; unary fuel (Unary STAR np) x
    | T_PLUS => x ← next_token x; unary fuel (Unary PLUS np) x
    | T_QUEST => x ← next_token x; unary fuel (Unary QUEST np) x
    | T_ZERO => x ← next_token x; unary fuel (Unary ZERO np) x
    | _ => Ok (np, x)
    end
  end.

Definition leaf_node (k : leaf) : Node := Leaf k None.

Fixpoint primary (fuel : nat) (x : lexer) : out (Node * lexer) :=
  match fuel with
  | O => Fault
  | S fuel =>
    let atom (x : lexer) := set_lastatom x (Some (starttok x)) in
    match rtok x with
    | T_CHAR =>
      let x := atom x in
      let np := leaf_node (CHAR (rlxval x)) in
      x ← next_token x; unary fuel np x
    | T_ALL => x ← next_token x; unary fuel (leaf_node ALL) x
    | T_EMPTYRE => x ← next_token x; unary fuel (leaf_node EMPTYRE) x
    | T_DOT => let x := atom x in x ← next_token x; unary fuel (leaf_node DOT) x
    | T_CCL => s ← cclenter (rlxstr x); let x := atom x in x ← next_token x; unary fuel (leaf_node (CCL s)) x
    | T_NCCL => s ← cclenter (rlxstr x); let x := atom x in x ← next_token x; unary fuel (leaf_node (NCCL s)) x
    | T_HAT => x ← next_token x; unary fuel (leaf_node (CHAR HAT)) x
    | T_DOLLAR => x ← next_token x; unary fuel (leaf_node (CHAR 0)) x
    | T_LPAREN =>
      let savelastatom := starttok x in
      let x := atom x in
      x ← next_token x;
      if decide (rtok x = T_RPAREN) then
        x ← next_token x; s ← cclenter []; unary fuel (leaf_node (CCL s)) x
      else
        '(np, x) ← regexp fuel x;
        if decide (rtok x = T_RPAREN) then
          let x := set_lastatom x (Some savelastatom) in
          x ← next_token x; unary fuel np x
        else Fatal "syntax error in regular expression"
    | _ => Fatal "illegal primary in regular expression"
    end
  end
with regexp (fuel : nat) (x : lexer) : out (Node * lexer) :=
  match fuel with
  | O => Fault
  | S fuel =>
    '(np, x) ← primary fuel x;
    '(np, x) ← concat fuel np x;
    alt fuel np x
  end
with concat (fuel : nat) (np : Node) (x : lexer) : out (Node * lexer) :=
  match fuel with
  | O => Fault
  | S fuel =>
    match rtok x with
    | T_CHAR | T_DOT | T_ALL | T_CCL | T_NCCL | T_DOLLAR | T_LPAREN =>
      '(r, x) ← primary fuel x; concat fuel (CAT np r) x
    | T_EMPTYRE =>
      x ← next_token x;
      s ← cclenter [];
      '(r, x) ← primary fuel x; concat fuel (CAT (leaf_node (CCL s)) r) x
    | _ => Ok (np, x)
    end
  end
with alt (fuel : nat) (np : Node) (x : lexer) : out (Node * lexer) :=
  match fuel with
  | O => Fault
  | S fuel =>
    match rtok x with
    | T_OR =>
      x ← next_token x;
      '(r, x) ← primary fuel x;
      '(r, x) ← concat fuel r x;
      alt fuel (OR np r) x
    | _ => Ok (np, x)
    end
  end.

(** [reparse], from the initialisations in [mkdfa]; [bufsz] and [parens] are kept from
    one expression to the next. *)
Definition reparse (fuel : nat) (p : list Z) (bufsz : Z) (parens : nat) : out (Node * lexer) :=
  x ← next_token (Lexer p 0 0 None T_END 0 [] bufsz parens);
  if decide (rtok x = T_END) then Ok (leaf_node EMPTYRE, x)
  else
    '(np, x) ← regexp fuel x;
    if decide (rtok x = T_END) then Ok (np, x) else Fatal "syntax error in regular expression".

(** [mkdfa]: the automaton, and what is kept for the next expression. *)
Definition mkdfa (junk : Z) (fuel : nat) (s : list Z) (anchor : bool) (bufsz : Z) (parens : nat) (v : sets) : out (fa * sets * lexer) :=
  '(p, x) ← reparse fuel s bufsz parens;
  '(f, v) ← mkdfa_tree junk p anchor v;
  Ok (f, v, x).
End Re.

Section Runs.
Let cc (name : string) (c : Z) : bool :=
  if (name =? "digit")%string then isdigit c else if (name =? "alpha")%string then isalpha c
  else if (name =? "print")%string then (32 <=? c) && (c <=? 126) else false.
Let tree s := match reparse false cc 1000 (codes s) 100 0 with Ok (n, _) => Some n | _ => None end.
Let C c := leaf_node (CHAR (chr c)).

Example reparse_runs :
  tree "ab*|c" = Some (OR (CAT (C "a") (Unary STAR (C "b"))) (C "c")) /\
  tree "(a|b){2,3}c" = Some (CAT (CAT (CAT (OR (C "a") (C "b")) (OR (C "a") (C "b"))) (Unary QUEST (OR (C "a") (C "b")))) (C "c")) /\
  tree "[^a-cx\]]\.$" = Some (CAT (CAT (leaf_node (NCCL [97; 98; 99; 120; 93])) (C ".")) (leaf_node (CHAR 0))) /\
  tree "x{0}y" = Some (CAT (CAT (Unary ZERO (C "x")) (leaf_node (CCL []))) (C "y")) /\
  tree "[[:digit:]]+" = Some (Unary PLUS (leaf_node (CCL (codes "0123456789")))).
Proof. vm_compute. repeat split. Qed.
End Runs.
