(* ===== verification/AwkEdge.v ===== *)
(** Where the regular expressions of awk do not do what they mean to, or leave an array:
    the searches on concrete expressions and strings. *)

From stdpp Require Import numbers list.
From S2P Require Import Prelude Ctype AwkFa AwkLang AwkRe.

Section Edge.
Context (junk : Z).
(** The classes of the C locale, and UTF-8. *)
Definition cc (name : string) (c : Z) : bool :=
  if (name =? "print")%string then (32 <=? c) && (c <=? 126) else if (name =? "digit")%string then isdigit c else false.
Definition v0 : sets := resizesetvec junk (Sets [] 0).
Definition run {A} (s : list Z) (anchor : bool) (search : fa -> sets -> out (A * fa * sets)) : out A :=
  '(f, v, _) ← mkdfa false cc junk 2000 s anchor 100 0 v0; '(a, _, _) ← search f v; Ok a.
Definition run_match (s t : list Z) : out bool := run s false (fun f v => match_ junk false f t v).
Definition run_pmatch (s t : list Z) : out (option (Z * Z)) := run s true (fun f v => pmatch junk false f t v).
Definition run_nematch (s t : list Z) : out (option (Z * Z)) := run s true (fun f v => nematch junk false f t v).

(** Twenty optional characters have 22 positions with the leading [ALL] and the end
    mark, all of them in the set behind a character: [tmpset] has 22 entries, and the
    count takes the first.  Nineteen are fine. *)
Lemma tmpset_overrun : run_match (codes "a{0,20}") (codes "a") = Fault /\ run_match (codes "a{0,19}") (codes "a") = Ok true.
Proof. split; vm_compute; reflexivity. Qed.

(** The mark for the beginning of the string is the code of a letter, U+04ED: it does
    not match a dot, and it does match [^] in the middle of a string. *)
Definition u04ed : list Z := [211; 173].
Lemma hat_is_a_letter : (u8_rune false u04ed).1 = HAT /\ run_match (codes "^.$") u04ed = Ok false /\ run_match (codes "x(^y)") (codes "x" ++ u04ed ++ codes "y") = Ok true.
Proof. split_and!; vm_compute; reflexivity. Qed.

(** [nematch] goes on byte by byte: the second byte of U+00E9 is taken for U+00A9. *)
Lemma nematch_inside : run_nematch [194; 169] [195; 169] = Ok (Some (1, 1)) /\ run_pmatch [194; 169] [195; 169] = Ok None.
Proof. split; vm_compute; reflexivity. Qed.

(** The token of a character of several bytes starts behind it, so that a repetition
    repeats nothing. *)
Lemma repeat_multibyte : run_match ([94; 195; 169] ++ codes "{2}$") [195; 169; 195; 169] = Ok false /\
  run_match ([94; 195; 169] ++ codes "{2}$") [195; 169] = Ok true /\ run_match (codes "^e{2}$") (codes "ee") = Ok true.
Proof. split_and!; vm_compute; reflexivity. Qed.

(** A 0 in two bytes ends the search for a match that is not at the beginning. *)
Lemma overlong_nul : run_match (codes "b") [192; 128; 98] = Ok false /\ run_pmatch (codes "b") [192; 128; 98] = Ok (Some (2, 1)).
Proof. split; vm_compute; reflexivity. Qed.

(** The buffer of a bracket expression grows for its classes, and is then too small for
    the characters behind them. *)
Definition many_classes (n : nat) : list Z := codes "[" ++ foldr (fun _ l => codes "[:print:]" ++ l) (replicate n 97 ++ codes "]") (seq 0 20).
Lemma class_overrun : run_match (many_classes 150) (codes "a") = Fault /\ run_match (many_classes 20) (codes "a") = Ok true.
Proof. split; vm_compute; reflexivity. Qed.
End Edge.
