(* ===== verification/AwkGrammar.v ===== *)
(** The grammar of the regular expressions of awk, as a relation between a text, the
    text that is left when all repetitions in it are expanded, and the tree; and the
    rules by which the functions of the parser can be run without counting fuel. *)

From stdpp Require Import numbers list.
From S2P Require Import Prelude Ctype AwkFa AwkRe AwkLang.

(** * The grammar *)

Definition posts (n : Node) (os : list unary_op) : Node := foldl (fun n o => Unary o n) n os.

(** A number as it is written, up to 255. *)
Definition number (ds : list Z) (n : nat) : Prop :=
  ds <> [] /\ Forall (fun d => isdigit d = true) ds /\ foldl (fun n d => (10 * n + Z.to_nat (d - 48))%nat) 0%nat ds = n /\ (n <= 255)%nat.

(** Operators; three kinds of braces are spellings of the signs. *)
Inductive g_op : list Z -> unary_op -> Prop :=
| op_star : g_op (codes "*") STAR
| op_plus : g_op (codes "+") PLUS
| op_quest : g_op (codes "?") QUEST
| op_star_braces d : number d 0 -> g_op (codes "{" ++ d ++ codes ",}") STAR
| op_plus_braces d : number d 1 -> g_op (codes "{" ++ d ++ codes ",}") PLUS
| op_quest_braces d1 d2 : number d1 0 -> number d2 1 -> g_op (codes "{" ++ d1 ++ codes "," ++ d2 ++ codes "}") QUEST.
Inductive g_ops : list Z -> list unary_op -> Prop :=
| ops_nil : g_ops [] []
| ops_cons t o ts os : g_op t o -> g_ops ts os -> g_ops (t ++ ts) (o :: os).

(** Repetitions that are expanded. *)
Inductive g_braces : list Z -> nat -> option nat -> Prop :=
| braces_n d k : number d k -> g_braces (codes "{" ++ d ++ codes "}") k (Some k)
| braces_from d k : number d k -> (2 <= k)%nat -> g_braces (codes "{" ++ d ++ codes ",}") k None
| braces_range d1 d2 k m : number d1 k -> number d2 m -> (k <= m)%nat -> ~ (k = 0 /\ m = 1)%nat ->
    g_braces (codes "{" ++ d1 ++ codes "," ++ d2 ++ codes "}") k (Some m).

(** The text and the trees that stand for [t{k,m}].  The copies are read from text that
    is expanded, where an empty repetition has become [()]: their tree is [n']. *)
Definition rep_text (t : list Z) (k : nat) (m : option nat) : list Z :=
  match m with
  | None => copies k t ++ codes "+"
  | Some m => if (m =? 0)%nat then codes "()" else copies k t ++ copies (m - k) (t ++ codes "?")
  end.
Definition rep_nodes (n n' : Node) (k : nat) (m : option nat) : list Node :=
  match k, m with
  | O, Some O => [Unary ZERO n; leaf_node (CCL [])]
  | O, Some (S m) => Unary QUEST n :: replicate m (Unary QUEST n')
  | S k, Some m => n :: replicate k n' ++ replicate (m - S k) (Unary QUEST n')
  | k, None => n :: replicate (k - 2) n' ++ [Unary PLUS n']
  end.

(** Characters that stand for themselves. *)
Definition plain (c : Z) : Prop := 0 < c < 128 /\ c ∉ codes "|*+?.^$()\[{".
Definition class_char (c : Z) : Prop := 0 < c < 128 /\ c ∉ codes "\[]".

Section Grammar.
Context (single : bool) (cc_func : string -> Z -> bool).

(** [s] is the text, [s'] the text when it has been read, [w] bounds its length in
    between.  The flag says that a repetition may follow. *)
Inductive g_atom : bool -> list Z -> list Z -> nat -> Node -> Prop :=
| atom_plain c : plain c -> g_atom true [c] [c] 1 (leaf_node (CHAR c))
| atom_wide b r : (forall rest, u8_rune single (b ++ rest) = (r, length b)) -> (1 < length b)%nat -> Forall is_char b -> g_atom false b b (length b) (leaf_node (CHAR r))
| atom_escape b c : b <> [] -> (forall rest, quoted (b ++ rest) = Ok (c, rest)) -> g_atom true (codes "\" ++ b) (codes "\" ++ b) (S (length b)) (leaf_node (CHAR c))
| atom_dot : g_atom true (codes ".") (codes ".") 1 (leaf_node DOT)
| atom_class b s : Forall class_char b -> b <> [] -> head b <> Some (chr "^") -> cclenter single b = Ok s ->
    g_atom true (codes "[" ++ b ++ codes "]") (codes "[" ++ b ++ codes "]") (2 + length b) (leaf_node (CCL s))
| atom_nclass b s : Forall class_char b -> b <> [] -> cclenter single b = Ok s ->
    g_atom true (codes "[^" ++ b ++ codes "]") (codes "[^" ++ b ++ codes "]") (3 + length b) (leaf_node (NCCL s))
| atom_eol : g_atom false (codes "$") (codes "$") 1 (leaf_node (CHAR 0))
| atom_unit : g_atom true (codes "()") (codes "()") 2 (leaf_node (CCL []))
| atom_group s s' w n ns : g_alts s s' w (n :: ns) -> g_atom true (codes "(" ++ s ++ codes ")") (codes "(" ++ s' ++ codes ")") (w + 2) (foldl OR n ns)
with g_conc : list Z -> list Z -> nat -> list Node -> Prop :=
| conc_term rp a a' w n t os : g_atom rp a a' w n -> g_ops t os -> g_conc (a ++ t) (a' ++ t) (w + length t) [posts n os]
| conc_repeat a a' w n n' t os b k m : g_atom true a a' w n -> g_atom true a' a' (length a') n' -> (forall v, lang n v <-> lang n' v) -> g_ops t os -> g_braces b k m ->
    g_conc (a ++ t ++ b) (rep_text (a' ++ t) k m) (max (w + length t + length b) (length (rep_text (a' ++ t) k m))) (rep_nodes (posts n os) (posts n' os) k m)
| conc_app s1 s1' w1 ns1 s2 s2' w2 ns2 : g_conc s1 s1' w1 ns1 -> g_conc s2 s2' w2 ns2 -> g_conc (s1 ++ s2) (s1' ++ s2') (w1 + w2) (ns1 ++ ns2)
with g_seq : list Z -> list Z -> nat -> list Node -> Prop :=
| seq_conc s s' w ns : g_conc s s' w ns -> g_seq s s' w ns
| seq_bol t os : g_ops t os -> g_seq (codes "^" ++ t) (codes "^" ++ t) (1 + length t) [posts (leaf_node (CHAR HAT)) os]
| seq_bol_conc t os s s' w ns : g_ops t os -> g_conc s s' w ns ->
    g_seq (codes "^" ++ t ++ s) (codes "^" ++ t ++ s') (1 + length t + w) (posts (leaf_node (CHAR HAT)) os :: ns)
with g_alts : list Z -> list Z -> nat -> list Node -> Prop :=
| alts_one s s' w n ns : g_seq s s' w (n :: ns) -> g_alts s s' w [foldl CAT n ns]
| alts_or s1 s1' w1 n ns s2 s2' w2 ms : g_seq s1 s1' w1 (n :: ns) -> g_alts s2 s2' w2 ms ->
    g_alts (s1 ++ codes "|" ++ s2) (s1' ++ codes "|" ++ s2') (w1 + 1 + w2) (foldl CAT n ns :: ms).

Scheme g_atom_mut := Induction for g_atom Sort Prop
  with g_conc_mut := Induction for g_conc Sort Prop
  with g_seq_mut := Induction for g_seq Sort Prop
  with g_alts_mut := Induction for g_alts Sort Prop.
Combined Scheme grammar_re_mut from g_atom_mut, g_conc_mut, g_seq_mut, g_alts_mut.

(** * Running the parser *)

Notation next_token := (next_token single cc_func).
Notation unary := (unary single cc_func).
Notation primary := (primary single cc_func).
Notation regexp := (regexp single cc_func).
Notation concat := (concat single cc_func).
Notation alt := (alt single cc_func).

Lemma bind_mono {A B} (m m' : out A) (g g' : A -> out B) r : (forall a, m = Ok a -> m' = Ok a) -> (forall a, g a = Ok r -> g' a = Ok r) -> m ≫= g = Ok r -> m' ≫= g' = Ok r.
Proof. intros Hm Hg. destruct m as [a| |]; cbn; [|done..]. rewrite (Hm a eq_refl). apply Hg. Qed.

Lemma unary_mono f : forall g n x r, (f <= g)%nat -> unary f n x = Ok r -> unary g n x = Ok r.
Proof.
  induction f as [|f IH]; intros [|g] n x r Hg E; [done|done|lia|]. cbn [AwkRe.unary] in *.
  destruct (rtok x); try done; (revert E; apply bind_mono; [done|intros a; apply IH; lia]).
Qed.

Definition U (n : Node) (x : lexer) (r : Node * lexer) : Prop := exists f, unary f n x = Ok r.
Definition EP (x : lexer) (r : Node * lexer) : Prop := exists f, primary f x = Ok r.
Definition ER (x : lexer) (r : Node * lexer) : Prop := exists f, regexp f x = Ok r.
Definition EC (n : Node) (x : lexer) (r : Node * lexer) : Prop := exists f, concat f n x = Ok r.
Definition EA (n : Node) (x : lexer) (r : Node * lexer) : Prop := exists f, alt f n x = Ok r.

Lemma parser_mono f : forall g, (f <= g)%nat ->
  (forall x r, primary f x = Ok r -> primary g x = Ok r) /\ (forall x r, regexp f x = Ok r -> regexp g x = Ok r) /\
  (forall n x r, concat f n x = Ok r -> concat g n x = Ok r) /\ (forall n x r, alt f n x = Ok r -> alt g n x = Ok r).
Proof.
  induction f as [|f IH]; intros [|g] Hg; [done|done|lia|]. destruct (IH g ltac:(lia)) as (IHp & IHr & IHc & IHa).
  assert (forall n x r, unary f n x = Ok r -> unary g n x = Ok r) as IHu by (intros n x r; apply unary_mono; lia).
  split_and!; intros; revert select (_ = Ok _); cbn [AwkRe.primary AwkRe.regexp AwkRe.concat AwkRe.alt].
  - destruct (rtok x); try done; try (apply bind_mono; [done|intros x1]; auto); try (apply bind_mono; [done|intros x2]; auto).
    destruct (decide (rtok x1 = T_RPAREN)); repeat (apply bind_mono; [by auto|intros ?; auto]).
    destruct a as [np x2]. destruct (decide (rtok x2 = T_RPAREN)); [|done]. apply bind_mono; auto.
  - repeat (apply bind_mono; [by auto|intros [? ?]]). auto.
  - destruct (rtok x); try done; repeat (apply bind_mono; [by auto|intros ?; repeat case_match; auto]).
  - destruct (rtok x); try done; repeat (apply bind_mono; [by auto|intros ?; repeat case_match; auto]).
Qed.

(** ** The steps *)

Definition is_op (t : token) : bool := match t with T_STAR | T_PLUS | T_QUEST | T_ZERO => true | _ => false end.
Definition op_token (o : unary_op) : token := match o with STAR => T_STAR | PLUS => T_PLUS | QUEST => T_QUEST | ZERO => T_ZERO end.
Definition is_start (t : token) : bool := match t with T_CHAR | T_DOT | T_ALL | T_CCL | T_NCCL | T_DOLLAR | T_LPAREN => true | _ => false end.

Lemma regexp_S f x : regexp (S f) x = ('(n, x) ← primary f x; '(n, x) ← concat f n x; alt f n x).
Proof. done. Qed.
Lemma concat_S f n x : is_start (rtok x) = true -> concat (S f) n x = ('(r, x) ← primary f x; concat f (CAT n r) x).
Proof. cbv beta iota fix delta [AwkRe.concat]. by destruct (rtok x). Qed.
Lemma alt_S f n x : rtok x = T_OR -> alt (S f) n x = (x ← next_token x; '(r, x) ← primary f x; '(r, x) ← concat f r x; alt f (OR n r) x).
Proof. intros E. cbv beta iota fix delta [AwkRe.alt]. by rewrite E. Qed.
Lemma group_S f x : rtok x = T_LPAREN -> primary (S f) x =
  (let x1 := set_lastatom x (Some (starttok x)) in
   x2 ← next_token x1;
   if decide (rtok x2 = T_RPAREN) then x3 ← next_token x2; unary f (leaf_node (CCL [])) x3
   else
     '(np, x3) ← regexp f x2;
     if decide (rtok x3 = T_RPAREN) then x4 ← next_token (set_lastatom x3 (Some (starttok x))); unary f np x4
     else Fatal "syntax error in regular expression").
Proof. intros E. cbv beta iota fix delta [AwkRe.primary]. by rewrite E. Qed.
Lemma U_stop n x : is_op (rtok x) = false -> U n x (n, x).
Proof. intros Ho. exists 1%nat. cbn. by destruct (rtok x). Qed.
Lemma U_op n x o x1 r : rtok x = op_token o -> next_token x = Ok x1 -> U (Unary o n) x1 r -> U n x r.
Proof. intros Ho E [f Hf]. exists (S f). cbn [AwkRe.unary]. rewrite Ho. destruct o; cbn [op_token]; by rewrite E. Qed.
Lemma EC_stop n x : is_start (rtok x) = false -> rtok x <> T_EMPTYRE -> EC n x (n, x).
Proof. intros Hs He. exists 1%nat. cbn. by destruct (rtok x). Qed.
Lemma EC_next n x n1 x1 r : is_start (rtok x) = true -> EP x (n1, x1) -> EC (CAT n n1) x1 r -> EC n x r.
Proof.
  intros Hs [f1 H1] [f2 H2]. set (f := max f1 f2). exists (S f).
  assert (primary f x = Ok (n1, x1)) as E1 by (by apply (parser_mono f1); [lia|]).
  assert (concat f (CAT n n1) x1 = Ok r) as E2 by (by apply (parser_mono f2); [lia|]).
  rewrite concat_S by done. rewrite E1. exact E2.
Qed.
Lemma EA_stop n x : rtok x <> T_OR -> EA n x (n, x).
Proof. intros Ho. exists 1%nat. cbn. by destruct (rtok x). Qed.
Lemma EA_next n x x1 n1 x2 n2 x3 r : rtok x = T_OR -> next_token x = Ok x1 -> EP x1 (n1, x2) -> EC n1 x2 (n2, x3) -> EA (OR n n2) x3 r -> EA n x r.
Proof.
  intros Ho E [f1 H1] [f2 H2] [f3 H3]. set (f := max f1 (max f2 f3)). exists (S f). rewrite alt_S, E by done. cbn [mbind out_bind].
  assert (primary f x1 = Ok (n1, x2)) as -> by (by apply (parser_mono f1); [lia|]). cbn [mbind out_bind].
  assert (concat f n1 x2 = Ok (n2, x3)) as -> by (by apply (parser_mono f2); [lia|]). cbn [mbind out_bind].
  by apply (parser_mono f3); [lia|].
Qed.
Lemma ER_intro x n1 x1 n2 x2 r : EP x (n1, x1) -> EC n1 x1 (n2, x2) -> EA n2 x2 r -> ER x r.
Proof.
  intros [f1 H1] [f2 H2] [f3 H3]. set (f := max f1 (max f2 f3)). exists (S f). rewrite regexp_S.
  assert (primary f x = Ok (n1, x1)) as -> by (by apply (parser_mono f1); [lia|]). cbn [mbind out_bind].
  assert (concat f n1 x1 = Ok (n2, x2)) as -> by (by apply (parser_mono f2); [lia|]). cbn [mbind out_bind].
  by apply (parser_mono f3); [lia|].
Qed.

(** An atom of one token: its leaf, and whether it is remembered. *)
Definition token_leaf (x : lexer) (k : leaf) (remember : bool) : Prop :=
  match rtok x with
  | T_CHAR => k = CHAR (rlxval x) /\ remember = true
  | T_DOT => k = DOT /\ remember = true
  | T_CCL => (exists s, cclenter single (rlxstr x) = Ok s /\ k = CCL s) /\ remember = true
  | T_NCCL => (exists s, cclenter single (rlxstr x) = Ok s /\ k = NCCL s) /\ remember = true
  | T_HAT => k = CHAR HAT /\ remember = false
  | T_DOLLAR => k = CHAR 0 /\ remember = false
  | _ => False
  end.
Lemma EP_leaf x k remember x1 r : token_leaf x k remember -> next_token (if remember then set_lastatom x (Some (starttok x)) else x) = Ok x1 ->
  U (leaf_node k) x1 r -> EP x r.
Proof.
  unfold token_leaf. intros Hk E [f Hf]. exists (S f). cbn [AwkRe.primary].
  destruct (rtok x); try done; destruct Hk as [Hk ->]; try destruct Hk as (s & Hs & Hk); subst k; rewrite ?Hs; cbn [mbind out_bind]; rewrite E; exact Hf.
Qed.
Lemma EP_unit x x1 x2 r : rtok x = T_LPAREN -> next_token (set_lastatom x (Some (starttok x))) = Ok x1 -> rtok x1 = T_RPAREN -> next_token x1 = Ok x2 ->
  U (leaf_node (CCL [])) x2 r -> EP x r.
Proof.
  intros Hl E1 H1 E2 [f Hf]. exists (S f). rewrite group_S by done. cbv zeta. rewrite E1. cbn [mbind out_bind]. rewrite decide_True by done. rewrite E2. exact Hf.
Qed.
Lemma EP_group x x1 n x2 x3 r : rtok x = T_LPAREN -> next_token (set_lastatom x (Some (starttok x))) = Ok x1 -> rtok x1 <> T_RPAREN ->
  ER x1 (n, x2) -> rtok x2 = T_RPAREN -> next_token (set_lastatom x2 (Some (starttok x))) = Ok x3 -> U n x3 r -> EP x r.
Proof.
  intros Hl E1 H1 [f1 Hr] H2 E3 [f2 Hf]. set (f := max f1 f2). exists (S f). rewrite group_S by done. cbv zeta. rewrite E1. cbn [mbind out_bind]. rewrite decide_False by done.
  assert (regexp f x1 = Ok (n, x2)) as -> by (by apply (parser_mono f1); [lia|]). cbn [mbind out_bind]. rewrite decide_True by done. rewrite E3. cbn [mbind out_bind].
  apply (unary_mono f2); [lia|done].
Qed.
End Grammar.
