(* ===== verification/AwkLex.v ===== *)
(** The lexer of the regular expressions of awk on the texts of the grammar: the tokens,
    the braces, and what the text is when a repetition was expanded. *)

From stdpp Require Import numbers list.
From S2P Require Import Prelude Ctype AwkFa AwkRe AwkGrammar.

Section Lex.
Context (single : bool) (cc_func : string -> Z -> bool).
Notation relex := (relex single cc_func).
Notation next_token := (next_token single cc_func).

(** * Tokens *)

Ltac chars := repeat match goal with |- context [chr ?a =? chr ?b] => let r := eval vm_compute in (chr a =? chr b) in change (chr a =? chr b) with r end; cbv iota beta zeta.

(** The lexer between two parts of its text. *)
Definition at_ (x : lexer) (pre rest : list Z) (pn : nat) : Prop := basestr x = pre ++ rest /\ prestr x = length pre /\ parens x = pn.

(** A token was read: the lexer is behind it. *)
Definition lexed (x x0 : lexer) (start : nat) (t : token) (pre rest : list Z) (pn : nat) : Prop :=
  next_token x = Ok x0 /\ at_ x0 pre rest pn /\ rtok x0 = t /\ lastatom x0 = lastatom x /\ starttok x0 = start.

Lemma at_drop x pre rest pn : at_ x pre rest pn -> drop (prestr x) (basestr x) = rest.
Proof. intros (-> & -> & _). apply drop_app_length. Qed.
Lemma u8_ascii c p : c < 128 -> u8_rune single (c :: p) = (c, 1%nat).
Proof. intros Hc. unfold u8_rune. cbn [nth]. by rewrite (proj2 (Z.ltb_lt c 128)) by done. Qed.
Lemma at_snoc pre c (rest : list Z) : pre ++ c :: rest = (pre ++ [c]) ++ rest.
Proof. by rewrite <- app_assoc. Qed.

(** The state in which [relex] looks at a character of one byte. *)
Definition one (x : lexer) (c : Z) : lexer := set_prestr (set_rlxval (set_starttok x (prestr x)) c) (S (prestr x)).
Lemma one_at x pre c rest pn : at_ x pre (c :: rest) pn -> at_ (one x c) (pre ++ [c]) rest pn.
Proof. intros (Hb & Hp & Hn). split_and!; cbn; [by rewrite Hb, at_snoc|by rewrite Hp, length_app, Nat.add_1_r|done]. Qed.

Definition signs : list (Z * token) :=
  [(chr "|", T_OR); (chr "*", T_STAR); (chr "+", T_PLUS); (chr "?", T_QUEST); (chr ".", T_DOT); (chr "^", T_HAT); (chr "$", T_DOLLAR)].
Lemma lex_sign x pre c t rest pn : at_ x pre (c :: rest) pn -> (c, t) ∈ signs -> exists x0, lexed x x0 (length pre) t (pre ++ [c]) rest pn.
Proof.
  intros Ha Hc. exists (set_rtok (one x c) t). pose proof (at_drop _ _ _ _ Ha) as Hd. pose proof (one_at _ _ _ _ _ Ha) as (Hb' & Hp' & Hn').
  split; [|by destruct Ha as (_ & <- & _)].
  unfold AwkRe.next_token. cbn [AwkRe.relex]. rewrite Hd. unfold signs in Hc.
  repeat (apply elem_of_cons in Hc as [[= -> ->]|Hc]; [by rewrite u8_ascii|]). by apply elem_of_nil in Hc.
Qed.

Lemma lex_end x pre pn : at_ x pre [] pn -> exists x0, lexed x x0 (length pre) T_END pre [] pn.
Proof.
  intros Ha. eexists. split; [unfold AwkRe.next_token; cbn [AwkRe.relex]; rewrite (at_drop _ _ _ _ Ha); reflexivity|].
  destruct Ha as (Hb & Hp & Hn). split_and!; done.
Qed.
Lemma lex_lparen x pre rest pn : at_ x pre (chr "(" :: rest) pn -> exists x0, lexed x x0 (length pre) T_LPAREN (pre ++ codes "(") rest (S pn).
Proof.
  intros Ha. exists (set_rtok (set_parens (one x (chr "(")) (S (parens x))) T_LPAREN). pose proof (one_at _ _ _ _ _ Ha) as (Hb & Hp & Hn).
  split; [unfold AwkRe.next_token; cbn [AwkRe.relex]; by rewrite (at_drop _ _ _ _ Ha), u8_ascii|].
  destruct Ha as (_ & <- & <-). done.
Qed.
Lemma lex_rparen x pre rest pn : at_ x pre (chr ")" :: rest) (S pn) -> exists x0, lexed x x0 (length pre) T_RPAREN (pre ++ codes ")") rest pn.
Proof.
  intros Ha. exists (set_rtok (set_parens (one x (chr ")")) pn) T_RPAREN). pose proof (one_at _ _ _ _ _ Ha) as (Hb & Hp & Hn).
  split; [unfold AwkRe.next_token; cbn [AwkRe.relex]; rewrite (at_drop _ _ _ _ Ha), u8_ascii by done|].
  - destruct Ha as (_ & _ & Hq). cbn. by rewrite Hq.
  - destruct Ha as (_ & <- & _). done.
Qed.
Lemma lex_plain x pre c rest pn : at_ x pre (c :: rest) pn -> plain c -> exists x0, lexed x x0 (length pre) T_CHAR (pre ++ [c]) rest pn /\ rlxval x0 = c.
Proof.
  intros Ha [Hr Hc]. exists (set_rtok (one x c) T_CHAR). pose proof (one_at _ _ _ _ _ Ha) as (Hb & Hp & Hn).
  split; [|done]. split; [|by destruct Ha as (_ & <- & _)].
  assert (forall d, d ∈ codes "|*+?.^$()\[{" -> (c =? d) = false) as Hne by (intros d Hd; apply Z.eqb_neq; congruence).
  unfold AwkRe.next_token. cbn [AwkRe.relex]. rewrite (at_drop _ _ _ _ Ha), u8_ascii by lia. cbn [Nat.ltb Nat.leb].
  by rewrite !Hne by (by apply (bool_decide_unpack _); vm_compute).
Qed.

Lemma at_rest x pre rest pn : at_ x pre rest pn -> length (basestr x) = (length pre + length rest)%nat.
Proof. intros (-> & _). apply length_app. Qed.

Lemma at_behind x pre s rest pn x0 : at_ x pre (s ++ rest) pn -> basestr x0 = basestr x -> prestr x0 = (length (basestr x) - length rest)%nat -> parens x0 = parens x -> at_ x0 (pre ++ s) rest pn.
Proof. intros (Hb & Hp & Hn) Eb Ep En. unfold at_. rewrite Eb, Ep, En, Hb, !length_app, <- app_assoc. split_and!; [done|lia|done]. Qed.

Lemma lex_escape x pre b c rest pn : at_ x pre (chr "\" :: b ++ rest) pn -> b <> [] -> quoted (b ++ rest) = Ok (c, rest) ->
  exists x0, lexed x x0 (length pre) T_CHAR (pre ++ codes "\" ++ b) rest pn /\ rlxval x0 = c.
Proof.
  intros Ha Hb Hq. pose proof (at_drop _ _ _ _ Ha) as Hd. pose proof Ha as (_ & Hp & _).
  exists (set_rtok (set_rlxval (set_prestr (one x (chr "\")) (length (basestr x) - length rest)) c) T_CHAR).
  split; [|done]. split; [|split; [apply (at_behind x); [|done..]|split_and!; [done|done|exact Hp]]].
  - unfold AwkRe.next_token. cbn [AwkRe.relex]. rewrite Hd, u8_ascii by done. cbn -[quoted one length Nat.sub].
    destruct (b ++ rest) as [|d q] eqn:E; [by apply app_eq_nil in E as [-> _]|]. by rewrite Hq.
  - exact Ha.
Qed.

Lemma lex_wide x pre b r rest pn : at_ x pre (b ++ rest) pn -> u8_rune single (b ++ rest) = (r, length b) -> (1 < length b)%nat ->
  exists x0, lexed x x0 (length (pre ++ b)) T_CHAR (pre ++ b) rest pn /\ rlxval x0 = r.
Proof.
  intros Ha Hr Hb. pose proof (at_drop _ _ _ _ Ha) as Hd. destruct Ha as (Hs & Hp & Hn). eexists. split; [split|].
  - unfold AwkRe.next_token. cbn [AwkRe.relex]. rewrite Hd, Hr, (proj2 (Nat.ltb_lt _ _) Hb). reflexivity.
  - rewrite length_app, <- Hp. split; [split_and!; [cbn; by rewrite Hs, <- app_assoc|cbn; by rewrite length_app, Hp|done]|done].
  - done.
Qed.

(** ** Bracket expressions *)

Lemma class_char_ne c : class_char c -> (c =? chr "\") = false /\ (c =? chr "[") = false /\ (c =? chr "]") = false /\ 0 < c < 128.
Proof. intros [Hr Hc]. unfold codes in Hc. split_and!; try apply Z.eqb_neq; try (intros ->; apply Hc; apply (bool_decide_unpack _); by vm_compute); lia. Qed.

Lemma c_string_id l : Forall (fun c => 0 < c) l -> c_string l = l.
Proof. induction 1 as [|c l Hc _ IH]; [done|]. cbn. rewrite (proj2 (Z.eqb_neq c 0)) by lia. by rewrite IH. Qed.

Lemma bracket_plain b : forall fuel bp rest size, Forall class_char b -> Forall (fun c => 0 < c) bp -> b ++ bp <> [] -> (length b < fuel)%nat ->
  Z.of_nat (length bp + length b) < size -> bracket_loop single cc_func fuel (b ++ codes "]" ++ rest) bp size = Ok (Class (bp ++ b) rest size).
Proof.
  induction b as [|c b IH]; intros [|fuel] bp rest size Hb Hbp Hne Hf Hs; try lia; cbn [bracket_loop].
  - change (codes "]" ++ rest) with (chr "]" :: rest). cbn [app]. rewrite u8_ascii by done. cbn -[push c_string]. destruct bp as [|d bp]; [done|]. cbn -[push c_string].
    unfold push. rewrite (proj2 (Z.ltb_lt _ _)) by (cbn in *; lia). cbn -[c_string]. by rewrite app_nil_r, c_string_id.
  - apply Forall_cons in Hb as [(H1 & H2 & H3 & Hr)%class_char_ne Hb]. cbn [app]. rewrite u8_ascii by lia. cbn [Nat.ltb Nat.leb]. rewrite H1, H2, H3. cbn [andb].
    assert (push size bp c = Ok (bp ++ [c])) as E by (unfold push; by rewrite (proj2 (Z.ltb_lt _ _)) by (cbn in *; lia)).
    rewrite E. cbn [mbind out_bind]. rewrite IH, <- app_assoc; [by destruct bp|done|apply Forall_app_2; [done|apply Forall_singleton; lia]| |cbn in *; lia|rewrite length_app; cbn in *; lia].
    intros [_ E']%app_eq_nil. by destruct bp.
Qed.

Lemma adjbuf_ge size n : 0 < n -> n <= adjbuf size n n.
Proof. intros Hn. unfold adjbuf. destruct (Z.ltb_spec size n); [|lia]. rewrite (proj2 (Z.eqb_neq n 0)), Z.mod_same by lia. cbn. lia. Qed.

Lemma bracket_class_ok b rest old : Forall class_char b -> b <> [] ->
  let p := b ++ codes "]" ++ rest in let n := 5 * Z.of_nat (length p) + 1 in
  bracket_loop single cc_func (S (length p)) p [] (adjbuf old n n) = Ok (Class b rest (adjbuf old n n)).
Proof.
  intros Hb Hne p n. assert (length p = length b + 1 + length rest)%nat as Hlp by (unfold p; rewrite !length_app; cbn; lia).
  apply bracket_plain; [done|constructor|by rewrite app_nil_r|lia|].
  pose proof (adjbuf_ge old n ltac:(lia)) as Hge. cbn [length]. lia.
Qed.

Lemma lex_class x pre b rest pn : at_ x pre (codes "[" ++ b ++ codes "]" ++ rest) pn -> Forall class_char b -> b <> [] -> head b <> Some (chr "^") ->
  exists x0, lexed x x0 (length pre) T_CCL (pre ++ codes "[" ++ b ++ codes "]") rest pn /\ rlxstr x0 = b.
Proof.
  intros Ha Hb Hne Hh. pose proof (at_drop _ _ _ _ Ha) as Hd. pose proof Ha as (_ & Hp & _).
  set (p := b ++ codes "]" ++ rest) in *. set (size := adjbuf (bufsz x) (5 * Z.of_nat (length p) + 1) (5 * Z.of_nat (length p) + 1)).
  exists (set_rtok (set_rlxstr (set_bufsz (set_prestr (one x (chr "[")) (length (basestr x) - length rest)) size) b) T_CCL).
  split; [|done]. split; [|split; [apply (at_behind x); [|done..]|split_and!; [done|done|exact Hp]]].
  - unfold AwkRe.next_token. cbn [AwkRe.relex]. rewrite Hd. change (codes "[" ++ p) with (chr "[" :: p). rewrite u8_ascii by done.
    assert ((hd 0 p =? chr "^") = false) as Hc by (unfold p; clear -Hne Hh; destruct b as [|c b]; [done|]; apply Z.eqb_neq; intros Hc; apply Hh; cbn [hd app head] in Hc |- *; by rewrite Hc).
    cbn [Nat.ltb Nat.leb]. chars. rewrite Hc. unfold size, p. by rewrite (bracket_class_ok b rest _).
  - by rewrite <- !app_assoc.
Qed.

Lemma lex_nclass x pre b rest pn : at_ x pre (codes "[^" ++ b ++ codes "]" ++ rest) pn -> Forall class_char b -> b <> [] ->
  exists x0, lexed x x0 (length pre) T_NCCL (pre ++ codes "[^" ++ b ++ codes "]") rest pn /\ rlxstr x0 = b.
Proof.
  intros Ha Hb Hne. pose proof (at_drop _ _ _ _ Ha) as Hd. pose proof Ha as (_ & Hp & _).
  set (p := b ++ codes "]" ++ rest) in *. set (size := adjbuf (bufsz x) (5 * Z.of_nat (length p) + 1) (5 * Z.of_nat (length p) + 1)).
  exists (set_rtok (set_rlxstr (set_bufsz (set_prestr (one x (chr "[")) (length (basestr x) - length rest)) size) b) T_NCCL).
  split; [|done]. split; [|split; [apply (at_behind x); [|done..]|split_and!; [done|done|exact Hp]]].
  - unfold AwkRe.next_token. cbn [AwkRe.relex]. rewrite Hd. change (codes "[^" ++ p) with (chr "[" :: chr "^" :: p). rewrite u8_ascii by done.
    cbn [Nat.ltb Nat.leb hd]. chars. cbn [drop]. unfold size, p. by rewrite (bracket_class_ok b rest _).
  - by rewrite <- !app_assoc.
Qed.

(** ** Braces *)

Notation digits := (foldl (fun n d => (10 * n + Z.to_nat (d - 48))%nat)).
Lemma digits_ge ds : forall n, (n <= digits n ds)%nat.
Proof. induction ds as [|d ds IH]; intros n; cbn; [lia|]. etransitivity; [|apply IH]. lia. Qed.
Lemma isdigit_range c : isdigit c = true -> 48 <= c <= 57.
Proof. unfold isdigit. lia. Qed.
Lemma braces_digits ds : forall n k found rest, Forall (fun d => isdigit d = true) ds -> ds <> [] -> (digits n ds <= 255)%nat ->
  braces_loop (ds ++ rest) n k found = braces_loop rest (digits n ds) k true.
Proof.
  induction ds as [|d ds IH]; intros n k found rest Hds Hne Hn; [done|]. apply Forall_cons in Hds as [Hd Hds]. cbn [app foldl braces_loop] in *.
  pose proof (isdigit_range d Hd). pose proof (digits_ge ds (10 * n + Z.to_nat (d - 48))).
  change (chr "}") with 125. rewrite (proj2 (Z.eqb_neq d 125)) by lia. rewrite Hd. rewrite (proj2 (Nat.ltb_ge _ _)) by lia.
  destruct ds as [|e ds]; [done|]. by apply IH.
Qed.
Lemma braces_number d n k found rest : number d n -> braces_loop (d ++ rest) 0 k found = braces_loop rest n k true.
Proof. intros (Hne & Hd & <- & Hn). by apply braces_digits. Qed.

Lemma braces_comma n rest : braces_loop (codes "," ++ rest) n None true = braces_loop rest 0 (Some n) false.
Proof. done. Qed.

Lemma braces_repeat b k m rest : g_braces b k m -> exists t, b = codes "{" ++ t /\ isdigit (hd 0 t) = true /\ t <> [] /\ braces_loop (t ++ rest) 0 None false = Ok (Repeat k m, rest).
Proof.
  assert (forall d n u, number d n -> isdigit (hd 0 (d ++ u)) = true /\ d ++ u <> []) as Hh.
  { intros d n u (Hne & Hd & _). destruct d as [|c d]; [done|]. by apply Forall_cons in Hd as [Hd _]. }
  destruct 1 as [d k Hd|d k Hd Hk|d1 d2 k m Hd1 Hd2 Hkm Hz]; (eexists; split; [reflexivity|]; split; [by eapply Hh|split; [by eapply Hh|]]).
  - rewrite <- app_assoc, (braces_number _ _ _ _ _ Hd). done.
  - rewrite <- app_assoc, (braces_number _ _ _ _ _ Hd). cbn. destruct k as [|[|k]]; [lia|lia|done].
  - rewrite <- !app_assoc, (braces_number _ _ _ _ _ Hd1), braces_comma, (braces_number _ _ _ _ _ Hd2). cbn.
    destruct k as [|k]; [destruct m as [|[|m]]; [done|by destruct Hz|done]|]. by rewrite (proj2 (Nat.leb_gt m k)) by lia.
Qed.
Lemma braces_op t o rest : g_op t o -> (exists c, t = [c] /\ (c, op_token o) ∈ signs) \/
  exists u b, t = codes "{" ++ u /\ isdigit (hd 0 u) = true /\ u <> [] /\ braces_loop (u ++ rest) 0 None false = Ok (b, rest) /\
    match b with Quest => o = QUEST | Star => o = STAR | Plus => o = PLUS | Repeat _ _ => False end.
Proof.
  assert (forall d n u, number d n -> isdigit (hd 0 (d ++ u)) = true /\ d ++ u <> []) as Hh.
  { intros d n u (Hne & Hd & _). destruct d as [|c d]; [done|]. by apply Forall_cons in Hd as [Hd _]. }
  destruct 1 as [| | |d Hd|d Hd|d1 d2 Hd1 Hd2];
    try (left; eexists; split; [reflexivity|apply (bool_decide_unpack _); by vm_compute]);
    (right; eexists _, _; split; [reflexivity|]; split; [by eapply Hh|split; [by eapply Hh|]]).
  - rewrite <- app_assoc, (braces_number _ _ _ _ _ Hd). by split.
  - rewrite <- app_assoc, (braces_number _ _ _ _ _ Hd). by split.
  - rewrite <- !app_assoc, (braces_number _ _ _ _ _ Hd1), braces_comma, (braces_number _ _ _ _ _ Hd2). by split.
Qed.

(** The state behind braces. *)
Definition behind_braces (x : lexer) (rest : list Z) : lexer := set_prestr (one x (chr "{")) (length (basestr x) - length rest).
Lemma relex_braces f x pre t rest pn b : at_ x pre (codes "{" ++ t ++ rest) pn -> isdigit (hd 0 t) = true -> t <> [] ->
  braces_loop (t ++ rest) 0 None false = Ok (b, rest) ->
  relex (S f) x =
    let y := behind_braces x rest in
    match b with
    | Quest => Ok (set_rtok y T_QUEST)
    | Star => Ok (set_rtok y T_STAR)
    | Plus => Ok (set_rtok y T_PLUS)
    | Repeat n m =>
      '(replaced, y) ← repeat_ y (length pre) (S (length t)) (lastatom x) (length pre - default 0%nat (lastatom x)) n m;
      if replaced : bool then if (n =? 0)%nat && bool_decide (m = Some 0%nat) then Ok (set_rtok y T_ZERO) else relex f y
      else Ok (set_rtok y T_PLUS)
    end.
Proof.
  intros Ha Hd Hne Hb. pose proof (at_drop _ _ _ _ Ha) as Hp. pose proof (at_rest _ _ _ _ Ha) as Hl. destruct Ha as (_ & Hq & _).
  cbn [AwkRe.relex]. rewrite Hp. change (codes "{" ++ t ++ rest) with (chr "{" :: t ++ rest). rewrite u8_ascii by done. cbn [Nat.ltb Nat.leb]. chars.
  assert (isdigit (hd 0 (t ++ rest)) = true) as -> by by destruct t. cbn [andb]. rewrite Hb. cbn [mbind out_bind].
  destruct b; try done. rewrite <- Hq. unfold behind_braces.
  assert (S (length t) = length (basestr x) - length rest - prestr x)%nat as -> by (rewrite Hl, Hq, !length_app; cbn; lia).
  reflexivity.
Qed.

Lemma lex_op x pre t o rest pn : at_ x pre (t ++ rest) pn -> g_op t o -> exists x0, lexed x x0 (length pre) (op_token o) (pre ++ t) rest pn.
Proof.
  intros Ha [(c & -> & Hc)|(u & b & -> & Hd & Hne & Hb & Ho)]%(braces_op t o rest); [by eapply lex_sign|].
  rewrite <- app_assoc in Ha. exists (set_rtok (behind_braces x rest) (op_token o)). split; [|split].
  - unfold AwkRe.next_token. rewrite (relex_braces _ _ _ _ _ _ _ Ha Hd Hne Hb). destruct b; try done; by subst o.
  - apply (at_behind x); [by rewrite <- app_assoc|done..].
  - destruct Ha as (_ & <- & _). done.
Qed.

(** ** Repetitions *)

(** What is written in the place of the braces. *)
Definition rep_more (t : list Z) (k : nat) (m : option nat) : list Z :=
  match m with
  | None => copies (k - 1) t ++ codes "+"
  | Some m => copies (k - 1) t ++ if (k =? 0)%nat then codes "?" ++ copies (m - 1) (t ++ codes "?") else copies (m - k) (t ++ codes "?")
  end.

Definition rep_ok (k : nat) (m : option nat) : Prop := match m with None => (2 <= k)%nat | Some m => (k <= m)%nat /\ ~ (k = 0 /\ m = 1)%nat end.
Lemma braces_ok b k m : g_braces b k m -> rep_ok k m.
Proof. destruct 1; cbn; [split; [done|lia]|done|done]. Qed.

Lemma rep_more_text t k m : rep_ok k m -> m <> Some 0%nat -> t ++ rep_more t k m = rep_text t k m.
Proof.
  unfold rep_ok, rep_more, rep_text. destruct m as [m|]; intros Hk Hm.
  - rewrite (proj2 (Nat.eqb_neq m 0)) by congruence. destruct k as [|k]; cbn -[codes].
    + destruct m as [|m]; [done|]. cbn -[codes]. by rewrite Nat.sub_0_r, <- app_assoc.
    + by rewrite Nat.sub_0_r, app_assoc.
  - destruct k as [|k]; [lia|]. cbn -[codes]. by rewrite Nat.sub_0_r, app_assoc.
Qed.
Lemma length_copies n t : length (copies n t) = (n * length t)%nat.
Proof. induction n as [|n IH]; [done|]. cbn. by rewrite length_app, IH. Qed.

Lemma replace_repeat_ok x p0 t b rest k m special :
  basestr x = p0 ++ t ++ b ++ rest -> rep_ok k m -> m <> Some 0%nat ->
  special = match m with None => REPEAT_PLUS_APPENDED | Some m => if (k =? m)%nat then REPEAT_SIMPLE else REPEAT_WITH_Q end ->
  Z.of_nat (length p0 + length (rep_text t k m) + length rest) <= MAX_EXPANDED_RE ->
  replace_repeat x (length p0 + length t) (length b) (length p0) (length t) k (default 0%nat m) special =
    Ok (set_basestr x (p0 ++ t ++ rep_more t k m ++ rest) (length p0 + length t)).
Proof.
  intros Hb Hk Hm -> Hs. rewrite <- rep_more_text in Hs by done. unfold replace_repeat. rewrite Hb.
  rewrite drop_app_length, take_app_length.
  assert (drop (length p0 + length t + length b) (p0 ++ t ++ b ++ rest) = rest) as -> by (rewrite !app_assoc; apply drop_app_length'; rewrite !length_app; lia).
  assert (take (length p0 + length t) (p0 ++ t ++ b ++ rest) = p0 ++ t) as -> by (rewrite app_assoc; apply take_app_length'; rewrite !length_app; lia).
  assert (length (codes "?") = 1 /\ length (codes "+") = 1)%nat as [H1 H2] by done.
  rewrite (proj2 (Z.ltb_ge _ _)), (proj2 (Nat.ltb_ge _ _)); unfold rep_more, rep_ok in *; destruct m as [[|m]|], k as [|[|k]]; try lia; try done.
  all: try destruct (Nat.eqb_spec (S (S k)) (S m)); try (destruct (Nat.eqb_spec 1 (S m)) as [[= <-]|]).
  all: cbn -[codes Z.of_nat MAX_EXPANDED_RE Nat.mul copies app] in *.
  all: rewrite ?Nat.sub_0_r, <- ?app_assoc; try done; try (by replace (m - S k)%nat with 0%nat by lia).
  all: repeat rewrite ?length_app, ?length_copies, ?H1, ?H2 in *; cbn [length] in *; nia.
Qed.


Lemma relex_fuel f g x pre rest pn : at_ x pre rest pn -> head rest <> Some (chr "{") -> relex (S f) x = relex (S g) x.
Proof.
  intros Ha Hr. cbn [AwkRe.relex]. rewrite (at_drop _ _ _ _ Ha). destruct (u8_rune single rest) as [r n]. destruct (1 <? n)%nat; [done|].
  destruct rest as [|c p]; [done|]. assert ((c =? chr "{") = false) as E by (apply Z.eqb_neq; intros ->; by apply Hr). rewrite E. done.
Qed.

Lemma lex_repeat x p0 t b rest pn k m : at_ x (p0 ++ t) (b ++ rest) pn -> g_braces b k m -> lastatom x = Some (length p0) -> m <> Some 0%nat ->
  Z.of_nat (length p0 + length (rep_text t k m) + length rest) <= MAX_EXPANDED_RE -> head (rep_more t k m ++ rest) <> Some (chr "{") ->
  exists y, at_ y (p0 ++ t) (rep_more t k m ++ rest) pn /\ next_token x = next_token y.
Proof.
  intros Ha Hg Hl Hm Hs Hh. pose proof (braces_ok _ _ _ Hg) as Hk. destruct (braces_repeat b k m rest Hg) as (u & -> & Hd & Hne & Hb).
  set (y := set_basestr (behind_braces x rest) (p0 ++ t ++ rep_more t k m ++ rest) (length p0 + length t)).
  assert (at_ y (p0 ++ t) (rep_more t k m ++ rest) pn) as Hy by (split_and!; cbn; [by rewrite <- app_assoc|by rewrite length_app|by destruct Ha as (_ & _ & ?)]).
  exists y. split; [done|]. pose proof (at_rest _ _ _ _ Ha) as Hlen. rewrite !length_app in Hlen. rewrite <- app_assoc in Ha. cbn [length codes] in Hlen.
  unfold AwkRe.next_token. rewrite (relex_braces _ _ _ _ _ _ _ Ha Hd Hne Hb), Hl. cbn [default id]. cbv zeta.
  assert (repeat_ (behind_braces x rest) (length (p0 ++ t)) (S (length u)) (Some (length p0)) (length (p0 ++ t) - length p0) k m = Ok (true, y)) as ->.
  { unfold repeat_. rewrite length_app. replace (length p0 + length t - length p0)%nat with (length t) by lia.
    pose proof (fun special => replace_repeat_ok (behind_braces x rest) p0 t (codes "{" ++ u) rest k m special) as Hrep. cbn [length codes app default id] in Hrep.
    destruct Ha as (Hbs & _). change (basestr (behind_braces x rest)) with (basestr x) in Hrep. rewrite Hbs, <- app_assoc in Hrep.
    destruct m as [m|]; unfold rep_ok in Hk; cbn [default id] in Hrep.
    - destruct (Nat.eqb_spec k m) as [->|Hkm].
      + rewrite (proj2 (Nat.eqb_neq m 0)) by congruence. by rewrite Hrep.
      + rewrite (proj2 (Nat.ltb_lt k m)) by lia. by rewrite Hrep.
    - rewrite (proj2 (Nat.ltb_ge k 2)) by lia. by rewrite Hrep. }
  cbn [mbind out_bind]. assert ((k =? 0)%nat && bool_decide (m = Some 0%nat) = false) as -> by (rewrite (bool_decide_eq_false_2 _ Hm); apply andb_false_r).
  destruct (length (basestr x)) as [|f]; [lia|]. by apply (relex_fuel _ _ _ _ _ _ Hy).
Qed.

Lemma lex_zero x p0 t b rest pn : at_ x (p0 ++ t) (b ++ rest) pn -> g_braces b 0 (Some 0%nat) -> lastatom x = Some (length p0) ->
  Z.of_nat (length p0 + length t + length rest + 2) <= MAX_EXPANDED_RE ->
  exists x0, next_token x = Ok x0 /\ rtok x0 = T_ZERO /\ at_ x0 p0 (codes "()" ++ rest) pn.
Proof.
  intros Ha Hg Hl Hs. destruct (braces_repeat b _ _ rest Hg) as (u & -> & Hd & Hne & Hb). rewrite <- app_assoc in Ha.
  exists (set_rtok (set_basestr (behind_braces x rest) (p0 ++ codes "()" ++ rest) (length p0)) T_ZERO).
  split; [|split; [done|by destruct Ha as (_ & _ & ?)]].
  unfold AwkRe.next_token. rewrite (relex_braces _ _ _ _ _ _ _ Ha Hd Hne Hb), Hl. cbn [default id]. cbv zeta.
  unfold repeat_, replace_repeat. change (basestr (behind_braces x rest)) with (basestr x). destruct Ha as (-> & _).
  rewrite !length_app. replace (length p0 + length t - length p0)%nat with (length t) by lia. replace (length p0 + length t - length t)%nat with (length p0) by lia.
  rewrite <- app_assoc, take_app_length.
  assert (drop (length p0 + length t + S (length u)) (p0 ++ t ++ codes "{" ++ u ++ rest) = rest) as -> by (rewrite !app_assoc; apply drop_app_length'; rewrite !length_app; cbn; lia).
  cbn [Nat.eqb]. rewrite (proj2 (Z.ltb_ge _ _)), (proj2 (Nat.ltb_ge _ _)); [by rewrite <- app_assoc| |cbn; lia]. cbn. rewrite !length_app. cbn. lia.
Qed.

(** * The text of the grammar *)

Definition headed (s : list Z) : Prop := s <> [] /\ head s <> Some (chr "{").
Definition shaped (s s' : list Z) (w : nat) : Prop := (length s <= w)%nat /\ (length s' <= w)%nat.
Lemma headed_app s r : headed s -> headed (s ++ r).
Proof. intros [Hne Hh]. destruct s; done. Qed.
Lemma headed_cons c s : c <> chr "{" -> headed (c :: s).
Proof. intros Hc. split; [done|]. intros E. apply Hc. by injection E. Qed.

Lemma rep_text_headed t k m : rep_ok k m -> headed t -> headed (rep_text t k m).
Proof.
  intros Hk Ht. destruct (decide (m = Some 0%nat)) as [->|Hm]; [by apply headed_cons|].
  rewrite <- rep_more_text by done. by apply headed_app.
Qed.

Lemma grammar_shape :
  (forall rp s s' w n, g_atom single rp s s' w n -> (headed s /\ headed s') /\ shaped s s' w) /\
  (forall s s' w ns, g_conc single s s' w ns -> (headed s /\ headed s') /\ shaped s s' w) /\
  (forall s s' w ns, g_seq single s s' w ns -> shaped s s' w) /\
  (forall s s' w ns, g_alts single s s' w ns -> shaped s s' w).
Proof.
  apply grammar_re_mut; unfold shaped; intros; rewrite ?length_app in *; cbn [length codes Nat.add] in *; destruct_and?;
    try (split; [split; first [by apply headed_cons|by apply headed_app]|lia]); try lia.
  - assert (c <> chr "{") by (destruct p as [_ Hc]; intros ->; apply Hc; apply (bool_decide_unpack _); by vm_compute). split; [split; by apply headed_cons|lia].
  - assert (headed b); [|split; [done|lia]]. specialize (e []). rewrite app_nil_r in e. destruct b as [|c b]; [cbn in *; lia|]. apply headed_cons. intros ->.
    rewrite u8_ascii in e by done. injection e as _ e. cbn in *. lia.
  - split; [|lia]. split; [by apply headed_app|]. apply rep_text_headed; [by eapply braces_ok|by apply headed_app].
Qed.
End Lex.
