(* ===== verification/AwkParse.v ===== *)
(** The parser of the regular expressions of awk reads every text of the grammar as its
    tree, and leaves the text with its repetitions expanded. *)

From stdpp Require Import numbers list.
From S2P Require Import Prelude Ctype AwkFa AwkRe AwkGrammar AwkLex.

Section Parse.
Context (single : bool) (cc_func : string -> Z -> bool).
Notation next_token := (next_token single cc_func).
Notation lexed := (lexed single cc_func).
Notation U := (U single cc_func).
Notation EP := (EP single cc_func).
Notation ER := (ER single cc_func).
Notation EC := (EC single cc_func).
Notation EA := (EA single cc_func).

(** * What the parser does with a part of the text

    [x] is before the part and [pre] what is before it in the text; [y] is behind it,
    and the text is expanded up to there.  [w] is the room the part needs. *)

Definition fits_re (pre : list Z) (w : nat) (rest : list Z) : Prop := Z.of_nat (length pre + w + length rest) <= MAX_EXPANDED_RE.

(** An atom; behind it the lexer remembers where it begins. *)
Definition atom_parses (rp : bool) (s s' : list Z) (w : nat) (n : Node) : Prop := forall x pre rest pn, at_ x pre (s ++ rest) pn -> fits_re pre w rest ->
  exists x0, next_token x = Ok x0 /\ is_start (rtok x0) = true /\
  exists y, at_ y (pre ++ s') rest pn /\ (rp = true -> lastatom y = Some (length pre)) /\
  forall y0 r, next_token y = Ok y0 -> U n y0 r -> EP x0 r.

(** A sequence of factors with the first one, and one behind others. *)
Definition conc_parses (s s' : list Z) (w : nat) (ns : list Node) : Prop := forall x pre rest pn, at_ x pre (s ++ rest) pn -> fits_re pre w rest -> head rest <> Some (chr "{") ->
  exists x0, next_token x = Ok x0 /\ is_start (rtok x0) = true /\
  exists y, at_ y (pre ++ s') rest pn /\
  forall y0, next_token y = Ok y0 -> is_op (rtok y0) = false ->
  exists n ns' z, ns = n :: ns' /\ EP x0 (n, z) /\ forall acc r, EC (foldl CAT acc ns') y0 r -> EC acc z r.
Definition more_parses (s s' : list Z) (w : nat) (ns : list Node) : Prop := forall x pre rest pn, at_ x pre (s ++ rest) pn -> fits_re pre w rest -> head rest <> Some (chr "{") ->
  exists y, at_ y (pre ++ s') rest pn /\
  forall y0, next_token y = Ok y0 -> is_op (rtok y0) = false ->
  exists x0, next_token x = Ok x0 /\ is_op (rtok x0) = false /\ forall acc r, EC (foldl CAT acc ns) y0 r -> EC acc x0 r.

Lemma ops_parse t os : g_ops t os -> forall x pre rest pn, at_ x pre (t ++ rest) pn ->
  exists y, at_ y (pre ++ t) rest pn /\ lastatom y = lastatom x /\
  forall y0 n r, next_token y = Ok y0 -> U (posts n os) y0 r -> exists x0, next_token x = Ok x0 /\ U n x0 r.
Proof.
  induction 1 as [|t o ts os Ho _ IH]; intros x pre rest pn Ha.
  - exists x. rewrite app_nil_r. split; [done|]. split; [done|]. intros y0 n r Hy Hr. by exists y0.
  - rewrite <- app_assoc in Ha. destruct (lex_op single cc_func _ _ _ _ _ _ Ha Ho) as (x0 & Hx & Ha0 & Ht & Hl & _).
    destruct (IH _ _ _ _ Ha0) as (y & Hy & Hly & Hu). exists y. rewrite app_assoc. split; [done|]. split; [congruence|].
    intros y0 n r Hy0 Hr. destruct (Hu y0 (Unary o n) r Hy0 Hr) as (x1 & Hx1 & Hr1). exists x0. split; [done|]. by eapply U_op.
Qed.

Lemma more_nil : more_parses [] [] 0 [].
Proof. intros x pre rest pn Ha _ _. exists x. rewrite app_nil_r. split; [done|]. intros y0 Hy Ho. by exists y0. Qed.

Lemma conc_more s s' w ns : conc_parses s s' w ns -> more_parses s s' w ns.
Proof.
  intros Hc x pre rest pn Ha Hf Hh. destruct (Hc x pre rest pn Ha Hf Hh) as (x0 & Hx & Hs & y & Hy & Hk). exists y. split; [done|].
  intros y0 Hy0 Ho. destruct (Hk y0 Hy0 Ho) as (n & ns' & z & -> & Hp & Hr). exists x0. split; [done|]. split; [by destruct (rtok x0)|].
  intros acc r Hr'. eapply EC_next; [done|exact Hp|]. by apply Hr.
Qed.

Lemma fits_app_l pre s w1 w2 rest : fits_re pre (w1 + w2) rest -> (length s <= w2)%nat -> fits_re pre w1 (s ++ rest).
Proof. unfold fits_re. rewrite length_app. lia. Qed.
Lemma fits_app_r pre s w1 w2 rest : fits_re pre (w1 + w2) rest -> (length s <= w1)%nat -> fits_re (pre ++ s) w2 rest.
Proof. unfold fits_re. rewrite length_app. lia. Qed.
Lemma head_app (s rest : list Z) : s = [] \/ headed s -> head rest <> Some (chr "{") -> head (s ++ rest) <> Some (chr "{").
Proof. intros [->|[Hne Hh]] Hr; [done|]. by destruct s. Qed.

Lemma more_app s1 s1' w1 ns1 s2 s2' w2 ns2 : more_parses s1 s1' w1 ns1 -> more_parses s2 s2' w2 ns2 ->
  (length s2 <= w2)%nat -> (length s1' <= w1)%nat -> s2 = [] \/ headed s2 -> more_parses (s1 ++ s2) (s1' ++ s2') (w1 + w2) (ns1 ++ ns2).
Proof.
  intros H1 H2 Hl2 Hl1 Hh2 x pre rest pn Ha Hf Hh. rewrite <- app_assoc in Ha.
  destruct (H1 x pre (s2 ++ rest) pn Ha) as (y & Hy & Hk1); [by eapply fits_app_l|by apply head_app|].
  destruct (H2 y (pre ++ s1') rest pn Hy) as (z & Hz & Hk2); [by eapply fits_app_r|done|].
  exists z. rewrite app_assoc. split; [done|]. intros z0 Hz0 Ho. destruct (Hk2 z0 Hz0 Ho) as (y0 & Hy0 & Ho0 & Hr2).
  destruct (Hk1 y0 Hy0 Ho0) as (x0 & Hx0 & Ho1 & Hr1). exists x0. split; [done|]. split; [done|]. intros acc r Hr. apply Hr1, Hr2. by rewrite <- foldl_app.
Qed.
Lemma conc_app_parses s1 s1' w1 ns1 s2 s2' w2 ns2 : conc_parses s1 s1' w1 ns1 -> more_parses s2 s2' w2 ns2 ->
  (length s2 <= w2)%nat -> (length s1' <= w1)%nat -> s2 = [] \/ headed s2 -> conc_parses (s1 ++ s2) (s1' ++ s2') (w1 + w2) (ns1 ++ ns2).
Proof.
  intros H1 H2 Hl2 Hl1 Hh2 x pre rest pn Ha Hf Hh. rewrite <- app_assoc in Ha.
  destruct (H1 x pre (s2 ++ rest) pn Ha) as (x0 & Hx0 & Hs & y & Hy & Hk1); [by eapply fits_app_l|by apply head_app|].
  destruct (H2 y (pre ++ s1') rest pn Hy) as (z & Hz & Hk2); [by eapply fits_app_r|done|].
  exists x0. split; [done|]. split; [done|]. exists z. rewrite app_assoc. split; [done|]. intros z0 Hz0 Ho. destruct (Hk2 z0 Hz0 Ho) as (y0 & Hy0 & Ho0 & Hr2).
  destruct (Hk1 y0 Hy0 Ho0) as (n & ns' & q & -> & Hp & Hr1). exists n, (ns' ++ ns2), q. split; [done|]. split; [done|]. intros acc r Hr. apply Hr1, Hr2. by rewrite <- foldl_app.
Qed.

Lemma more_copies s n k : more_parses s s (length s) [n] -> headed s -> more_parses (copies k s) (copies k s) (length (copies k s)) (replicate k n).
Proof.
  intros Hs Hh. induction k as [|k IH]; [apply more_nil|]. cbn [copies replicate]. rewrite length_app.
  apply (more_app _ _ _ [n]); [done..|]. destruct k as [|k]; [by left|right; by apply headed_app].
Qed.

(** ** Factors *)

Lemma conc_term_parses rp a a' w n t os : atom_parses rp a a' w n -> g_ops t os -> conc_parses (a ++ t) (a' ++ t) (w + length t) [posts n os].
Proof.
  intros Hat Hos x pre rest pn Ha Hf _. rewrite <- app_assoc in Ha.
  destruct (Hat x pre (t ++ rest) pn Ha) as (x0 & Hx & Hs & y & Hy & _ & Hk); [by eapply fits_app_l|].
  destruct (ops_parse t os Hos y _ _ _ Hy) as (z & Hz & _ & Hu). exists x0. split; [done|]. split; [done|].
  exists z. rewrite app_assoc. split; [done|]. intros z0 Hz0 Ho. exists (posts n os), [], z0. split; [done|]. split; [|done].
  destruct (Hu z0 n (posts n os, z0) Hz0) as (y0 & Hy0 & Hr); [by apply U_stop|]. by eapply Hk.
Qed.

Lemma g_ops_app t1 os1 t2 os2 : g_ops t1 os1 -> g_ops t2 os2 -> g_ops (t1 ++ t2) (os1 ++ os2).
Proof. induction 1; intros; [done|]. rewrite <- app_assoc. cbn [app]. constructor; auto. Qed.
Lemma posts_app n os1 os2 : posts n (os1 ++ os2) = posts (posts n os1) os2.
Proof. apply foldl_app. Qed.

(** A repetition whose braces are replaced by operators of the factor and more text. *)
Lemma conc_repeat_parses a a' w n t os b k m o os' s ns w' : atom_parses true a a' w n -> g_ops t os -> g_braces b k m -> m <> Some 0%nat ->
  rep_more (a' ++ t) k m = o ++ s -> g_ops o os' -> more_parses s s (length s) ns -> headed a' ->
  o = [] \/ headed o -> s = [] \/ headed s -> (w + length t + length b <= w')%nat -> (length (rep_text (a' ++ t) k m) <= w')%nat ->
  conc_parses (a ++ t ++ b) (rep_text (a' ++ t) k m) w' (posts n (os ++ os') :: ns).
Proof.
  intros Hat Hos Hb Hm Hmore Hos' Hs Hha Hho Hhs Hw1 Hw2 x pre rest pn Ha Hf Hh. rewrite <- !app_assoc in Ha. unfold fits_re in Hf.
  pose proof (rep_more_text (a' ++ t) k m (braces_ok _ _ _ Hb) Hm) as Htext.
  destruct (Hat x pre (t ++ b ++ rest) pn Ha) as (x0 & Hx & Hst & y1 & Hy1 & Hl1 & Hk1); [unfold fits_re; rewrite !length_app; lia|].
  destruct (ops_parse t os Hos y1 _ _ _ Hy1) as (y2 & Hy2 & Hl2 & Hu2). rewrite <- app_assoc in Hy2.
  destruct (lex_repeat single cc_func y2 pre (a' ++ t) b rest pn k m Hy2 Hb) as (y3 & Hy3 & He3); [by rewrite Hl2, Hl1|done|lia| |].
  { rewrite Hmore, <- app_assoc. apply head_app; [done|]. by apply head_app. }
  rewrite Hmore, <- app_assoc in Hy3. destruct (ops_parse o os' Hos' y3 _ _ _ Hy3) as (y4 & Hy4 & _ & Hu4).
  rewrite <- Htext, Hmore, !length_app in Hw2.
  destruct (Hs y4 _ rest pn Hy4) as (z & Hz & Hk); [unfold fits_re; rewrite !length_app; lia|done|].
  exists x0. split; [done|]. split; [done|]. exists z. split; [by rewrite <- Htext, Hmore, !app_assoc in *|]. intros z0 Hz0 Ho.
  destruct (Hk z0 Hz0 Ho) as (w0 & Hw0 & How & Hr). exists (posts n (os ++ os')), ns, w0. split; [done|]. split; [|done].
  destruct (Hu4 w0 (posts n os) (posts n (os ++ os'), w0) Hw0) as (y30 & Hy30 & Hr3); [rewrite <- posts_app; by apply U_stop|].
  rewrite <- He3 in Hy30. destruct (Hu2 y30 n _ Hy30 Hr3) as (y10 & Hy10 & Hr1). by eapply Hk1.
Qed.

Lemma unit_parses : atom_parses true (codes "()") (codes "()") 2 (leaf_node (CCL [])).
Proof.
  intros x pre rest pn Ha Hf. change (codes "()" ++ rest) with (chr "(" :: codes ")" ++ rest) in Ha.
  destruct (lex_lparen single cc_func _ _ _ _ Ha) as (x0 & Hx & Ha0 & Ht & Hl & Hs). exists x0. split; [done|]. split; [by rewrite Ht|].
  destruct (lex_rparen single cc_func (set_lastatom x0 (Some (starttok x0))) _ _ _ Ha0) as (y & Hy & Hay & Hty & Hly & _).
  exists y. rewrite <- app_assoc in Hay. split; [done|]. split; [intros _; rewrite Hly; cbn; by rewrite Hs|].
  intros y0 r Hy0 Hr. by eapply EP_unit.
Qed.

(** An empty repetition. *)
Lemma conc_zero_parses a a' w n t os b w' : atom_parses true a a' w n -> g_ops t os -> g_braces b 0 (Some 0%nat) ->
  (w + length t + length b <= w')%nat -> (length a' <= w)%nat -> conc_parses (a ++ t ++ b) (codes "()") w' [Unary ZERO (posts n os); leaf_node (CCL [])].
Proof.
  intros Hat Hos Hb Hw Hla x pre rest pn Ha Hf Hh. rewrite <- !app_assoc in Ha. unfold fits_re in Hf.
  assert (2 <= length b)%nat as Hlb by (inversion Hb; rewrite !length_app; cbn; lia).
  destruct (Hat x pre (t ++ b ++ rest) pn Ha) as (x0 & Hx & Hst & y1 & Hy1 & Hl1 & Hk1); [unfold fits_re; rewrite !length_app; lia|].
  destruct (ops_parse t os Hos y1 _ _ _ Hy1) as (y2 & Hy2 & Hl2 & Hu2). rewrite <- app_assoc in Hy2.
  destruct (lex_zero single cc_func y2 pre (a' ++ t) b rest pn Hy2 Hb) as (y20 & Hy20 & Ht & Hz); [by rewrite Hl2, Hl1|rewrite length_app; lia|].
  destruct (conc_term_parses _ _ _ _ _ [] [] unit_parses ops_nil y20 pre rest pn) as (z0 & Hz0 & Hsz & z & Haz & Hk); [done|unfold fits_re; cbn; lia|done|].
  exists x0. split; [done|]. split; [done|]. exists z. split; [done|]. intros z1 Hz1 Ho.
  destruct (Hk z1 Hz1 Ho) as (n1 & ns1 & z2 & [= <- <-] & Hp & Hr). exists (Unary ZERO (posts n os)), [leaf_node (CCL [])], z0. split; [done|]. split.
  - destruct (Hu2 y20 n (Unary ZERO (posts n os), z0) Hy20) as (y10 & Hy10 & Hr1); [|by eapply Hk1].
    eapply (U_op _ _ _ _ ZERO); [done|done|]. apply U_stop. by destruct (rtok z0).
  - intros acc r Hr'. eapply EC_next; [done|exact Hp|]. by apply Hr.
Qed.

Lemma copies_snoc k t : copies (S k) t = copies k t ++ t.
Proof. induction k as [|k IH]; cbn; [by rewrite app_nil_r|]. rewrite <- app_assoc, <- IH. done. Qed.
Lemma more_app_same s1 s2 ns1 ns2 : more_parses s1 s1 (length s1) ns1 -> more_parses s2 s2 (length s2) ns2 -> s2 = [] \/ headed s2 ->
  more_parses (s1 ++ s2) (s1 ++ s2) (length (s1 ++ s2)) (ns1 ++ ns2).
Proof. intros. rewrite length_app. by apply more_app. Qed.
Lemma copies_headed k t : headed t -> copies k t = [] \/ headed (copies k t).
Proof. intros Ht. destruct k; [by left|right; by apply headed_app]. Qed.

Lemma repeat_parses a a' w n n' t os b k m : atom_parses true a a' w n -> atom_parses true a' a' (length a') n' -> g_ops t os -> g_braces b k m ->
  headed a' -> (length a' <= w)%nat ->
  conc_parses (a ++ t ++ b) (rep_text (a' ++ t) k m) (max (w + length t + length b) (length (rep_text (a' ++ t) k m))) (rep_nodes (posts n os) (posts n' os) k m).
Proof.
  intros Ha Ha' Ht Hb Hh Hw. pose proof (braces_ok _ _ _ Hb) as Hk. set (w' := max _ _).
  assert (w + length t + length b <= w' /\ length (rep_text (a' ++ t) k m) <= w')%nat as [Hw1 Hw2] by lia. clearbody w'.
  assert (headed (a' ++ t)) as Hht by by apply headed_app.
  assert (forall t os, g_ops t os -> more_parses (a' ++ t) (a' ++ t) (length (a' ++ t)) [posts n' os]) as HT.
  { intros t0 os0 H0. rewrite length_app. apply conc_more. by eapply conc_term_parses. }
  assert (forall c o, g_op c o -> more_parses ((a' ++ t) ++ c) ((a' ++ t) ++ c) (length ((a' ++ t) ++ c)) [Unary o (posts n' os)]) as HTo.
  { intros c o Ho. rewrite <- app_assoc. replace (Unary o (posts n' os)) with (posts n' (os ++ [o])) by apply posts_app. apply HT. apply g_ops_app; [done|].
    rewrite <- (app_nil_r c). by repeat constructor. }
  destruct m as [m|], k as [|k]; cbn [rep_ok rep_nodes] in *.
  - destruct m as [|m]; [by eapply conc_zero_parses|].
    replace (Unary QUEST (posts n os)) with (posts n (os ++ [QUEST])) by apply posts_app.
    eapply (conc_repeat_parses a a' w n t os b 0 (Some (S m)) (codes "?") [QUEST] (copies m ((a' ++ t) ++ codes "?"))); try done.
    + cbn. by rewrite Nat.sub_0_r.
    + rewrite <- (app_nil_r (codes "?")). by repeat constructor.
    + apply more_copies; [by apply HTo; constructor|by apply headed_app].
    + right. by apply headed_cons.
    + apply copies_headed. by apply headed_app.
  - rewrite <- (app_nil_r os) at 1.
    eapply (conc_repeat_parses a a' w n t os b (S k) (Some m) [] [] (copies k (a' ++ t) ++ copies (m - S k) ((a' ++ t) ++ codes "?"))); try done.
    + intros [= ->]; lia.
    + cbn. by rewrite Nat.sub_0_r.
    + constructor.
    + apply more_app_same; [apply more_copies; [by apply HT|done]|apply more_copies; [by apply HTo; constructor|by apply headed_app]|].
      apply copies_headed. by apply headed_app.
    + by left.
    + destruct k; [apply copies_headed|right; apply headed_app]; by apply headed_app.
  - lia.
  - destruct k as [|k]; [lia|]. rewrite <- (app_nil_r os) at 1. cbn [Nat.sub]. rewrite Nat.sub_0_r.
    eapply (conc_repeat_parses a a' w n t os b (S (S k)) None [] [] (copies k (a' ++ t) ++ (a' ++ t) ++ codes "+")); try done.
    + unfold rep_more. cbn [Nat.sub]. by rewrite copies_snoc, <- app_assoc.
    + constructor.
    + apply more_app_same; [apply more_copies; [by apply HT|done]|apply HTo; constructor|].
      right. by apply headed_app.
    + by left.
    + right. destruct k; cbn [copies app]; rewrite <- ?app_assoc; by apply headed_app.
Qed.

(** ** Atoms *)

Lemma leaf_parses rp s w k : (forall x pre rest pn, at_ x pre (s ++ rest) pn -> exists x0 st t remember,
    lexed x x0 st t (pre ++ s) rest pn /\ is_start t = true /\ token_leaf single x0 k remember /\ (rp = true -> remember = true /\ st = length pre)) ->
  atom_parses rp s s w (leaf_node k).
Proof.
  intros Hlex x pre rest pn Ha _. destruct (Hlex x pre rest pn Ha) as (x0 & st & t & remember & (Hx & Ha0 & Ht & Hl & Hst) & Hs & Hk & Hrp).
  exists x0. split; [done|]. split; [by rewrite Ht|]. exists (if remember then set_lastatom x0 (Some (starttok x0)) else x0).
  split; [by destruct remember|]. split; [intros H; destruct (Hrp H) as [-> Hst']; cbn; by rewrite Hst, Hst'|].
  intros y0 r Hy Hr. by eapply EP_leaf.
Qed.

(** An alternative, and alternatives up to the end or the closing parenthesis. *)
Definition closed (t : token) : Prop := t = T_RPAREN \/ t = T_END.
Definition seq_parses (s s' : list Z) (w : nat) (ns : list Node) : Prop := forall x pre rest pn, at_ x pre (s ++ rest) pn -> fits_re pre w rest -> head rest <> Some (chr "{") ->
  exists x0, next_token x = Ok x0 /\ ~ closed (rtok x0) /\
  exists y, at_ y (pre ++ s') rest pn /\
  forall y0, next_token y = Ok y0 -> is_op (rtok y0) = false ->
  exists n ns' z, ns = n :: ns' /\ EP x0 (n, z) /\ forall acc r, EC (foldl CAT acc ns') y0 r -> EC acc z r.
Definition alts_parse (s s' : list Z) (w : nat) (ns : list Node) : Prop := forall x pre rest pn, at_ x pre (s ++ rest) pn -> fits_re pre w rest -> head rest <> Some (chr "{") ->
  exists x0, next_token x = Ok x0 /\ ~ closed (rtok x0) /\
  exists y, at_ y (pre ++ s') rest pn /\
  forall y0, next_token y = Ok y0 -> closed (rtok y0) ->
  exists n ns' m z1 z2, ns = n :: ns' /\ EP x0 (m, z1) /\ EC m z1 (n, z2) /\ forall acc r, EA (foldl OR acc ns') y0 r -> EA acc z2 r.

Lemma alts_regexp s s' w n ns x pre rest pn : alts_parse s s' w (n :: ns) -> at_ x pre (s ++ rest) pn -> fits_re pre w rest -> head rest <> Some (chr "{") ->
  exists x0, next_token x = Ok x0 /\ ~ closed (rtok x0) /\
  exists y, at_ y (pre ++ s') rest pn /\ forall y0, next_token y = Ok y0 -> closed (rtok y0) -> ER x0 (foldl OR n ns, y0).
Proof.
  intros Hs Ha Hf Hh. destruct (Hs x pre rest pn Ha Hf Hh) as (x0 & Hx & Hc & y & Hy & Hk). exists x0. split; [done|]. split; [done|].
  exists y. split; [done|]. intros y0 Hy0 Hc0. destruct (Hk y0 Hy0 Hc0) as (n1 & ns1 & m & z1 & z2 & [= <- <-] & Hp & He & Hr).
  eapply ER_intro; [exact Hp|exact He|]. apply Hr, EA_stop. by destruct Hc0 as [-> | ->].
Qed.

Lemma group_parses s s' w n ns : alts_parse s s' w (n :: ns) -> atom_parses true (codes "(" ++ s ++ codes ")") (codes "(" ++ s' ++ codes ")") (w + 2) (foldl OR n ns).
Proof.
  intros Hs x pre rest pn Ha Hf. rewrite <- !app_assoc in Ha.
  destruct (lex_lparen single cc_func _ _ _ _ Ha) as (x0 & Hx & Ha0 & Ht & Hl & Hst). exists x0. split; [done|]. split; [by rewrite Ht|].
  destruct (alts_regexp s s' w n ns (set_lastatom x0 (Some (starttok x0))) (pre ++ codes "(") (codes ")" ++ rest) (S pn) Hs Ha0) as (x1 & Hx1 & Hc1 & y & Hy & Hk).
  { unfold fits_re in *. rewrite !length_app. cbn. lia. }
  { done. }
  destruct (lex_rparen single cc_func _ _ _ _ Hy) as (y0 & Hy0 & Hay & Hty & _ & _).
  exists (set_lastatom y0 (Some (starttok x0))). split; [by rewrite <- !app_assoc in Hay|]. split; [intros _; cbn; by rewrite Hst|].
  intros y1 r Hy1 Hr. eapply (EP_group _ _ x0 x1 _ y0); [done|done| |apply Hk; [done|by left]|done|done|done].
  intros E. apply Hc1. by left.
Qed.

(** ** Alternatives *)

Lemma conc_seq s s' w ns : conc_parses s s' w ns -> seq_parses s s' w ns.
Proof.
  intros Hc x pre rest pn Ha Hf Hh. destruct (Hc x pre rest pn Ha Hf Hh) as (x0 & Hx & Hs & Hk). exists x0. split; [done|]. split; [|done].
  intros [E|E]; by rewrite E in Hs.
Qed.

Lemma bol_parses t os s s' w ns : g_ops t os -> more_parses s s' w ns -> (length s <= w)%nat -> s = [] \/ headed s ->
  seq_parses (codes "^" ++ t ++ s) (codes "^" ++ t ++ s') (1 + length t + w) (posts (leaf_node (CHAR HAT)) os :: ns).
Proof.
  intros Ht Hs Hw Hhs x pre rest pn Ha Hf Hh. rewrite <- !app_assoc in Ha.
  destruct (lex_sign single cc_func x pre (chr "^") T_HAT _ _ Ha) as (x0 & Hx & Ha0 & Htok & _); [apply (bool_decide_unpack _); by vm_compute|].
  exists x0. split; [done|]. split; [rewrite Htok; by intros [|]|].
  destruct (ops_parse t os Ht x0 _ _ _ Ha0) as (y & Hy & _ & Hu).
  destruct (Hs y _ rest pn Hy) as (z & Hz & Hk); [unfold fits_re in *; rewrite !length_app; cbn; lia|done|].
  exists z. split; [by rewrite <- !app_assoc in Hz|]. intros z0 Hz0 Ho. destruct (Hk z0 Hz0 Ho) as (y0 & Hy0 & Hoy & Hr).
  exists (posts (leaf_node (CHAR HAT)) os), ns, y0. split; [done|]. split; [|done].
  destruct (Hu y0 (leaf_node (CHAR HAT)) (posts (leaf_node (CHAR HAT)) os, y0) Hy0) as (x1 & Hx1 & Hr1); [by apply U_stop|].
  eapply (EP_leaf _ _ x0 _ false); [|exact Hx1|exact Hr1]. unfold token_leaf. by rewrite Htok.
Qed.

Lemma closed_stop t : closed t \/ t = T_OR -> is_op t = false /\ is_start t = false /\ t <> T_EMPTYRE.
Proof. by intros [[-> | ->]| ->]. Qed.

Lemma seq_alts s s' w n ns : seq_parses s s' w (n :: ns) -> alts_parse s s' w [foldl CAT n ns].
Proof.
  intros Hs x pre rest pn Ha Hf Hh. destruct (Hs x pre rest pn Ha Hf Hh) as (x0 & Hx & Hc & y & Hy & Hk). exists x0. split; [done|]. split; [done|].
  exists y. split; [done|]. intros y0 Hy0 Hc0. destruct (closed_stop (rtok y0)) as (Ho & Hst & He); [by left|].
  destruct (Hk y0 Hy0 Ho) as (n1 & ns1 & z & [= <- <-] & Hp & Hr). exists (foldl CAT n ns), [], n, z, y0. split_and!; [done|done|apply Hr; by apply EC_stop|done].
Qed.

Lemma alts_or_parse s1 s1' w1 n ns s2 s2' w2 ms : seq_parses s1 s1' w1 (n :: ns) -> alts_parse s2 s2' w2 ms -> (length s2 <= w2)%nat -> (length s1' <= w1)%nat ->
  alts_parse (s1 ++ codes "|" ++ s2) (s1' ++ codes "|" ++ s2') (w1 + 1 + w2) (foldl CAT n ns :: ms).
Proof.
  intros H1 H2 Hl2 Hl1 x pre rest pn Ha Hf Hh. rewrite <- !app_assoc in Ha.
  destruct (H1 x pre (codes "|" ++ s2 ++ rest) pn Ha) as (x0 & Hx & Hc & y & Hy & Hk1); [unfold fits_re in *; rewrite !length_app; cbn; lia|done|].
  destruct (lex_sign single cc_func y _ (chr "|") T_OR _ _ Hy) as (y0 & Hy0 & Ha0 & Htok & _); [apply (bool_decide_unpack _); by vm_compute|].
  destruct (H2 y0 _ rest pn Ha0) as (y1 & Hy1 & Hc1 & z & Hz & Hk2); [unfold fits_re in *; rewrite !length_app; cbn; lia|done|].
  exists x0. split; [done|]. split; [done|]. exists z. rewrite <- !app_assoc in Hz. split; [done|]. intros z0 Hz0 Hcz.
  destruct (closed_stop (rtok y0)) as (Ho & Hst & He); [by right|].
  destruct (Hk1 y0 Hy0 Ho) as (n1 & ns1 & u & [= <- <-] & Hp & Hr). destruct (Hk2 z0 Hz0 Hcz) as (n2 & ns2 & m & u1 & u2 & -> & Hp2 & He2 & Hr2).
  exists (foldl CAT n ns), (n2 :: ns2), n, u, y0. split; [done|]. split; [done|]. split; [apply Hr; by apply EC_stop|].
  intros acc r Ha'. eapply EA_next; [exact Htok|exact Hy1|exact Hp2|exact He2|]. by apply Hr2.
Qed.

(** ** Every text of the grammar *)

Theorem grammar_parses :
  (forall rp s s' w n, g_atom single rp s s' w n -> atom_parses rp s s' w n) /\
  (forall s s' w ns, g_conc single s s' w ns -> conc_parses s s' w ns) /\
  (forall s s' w ns, g_seq single s s' w ns -> seq_parses s s' w ns) /\
  (forall s s' w ns, g_alts single s s' w ns -> alts_parse s s' w ns).
Proof.
  destruct (grammar_shape single) as (Sa & Sc & Ss & Sl). apply grammar_re_mut; intros.
  - apply leaf_parses. intros x pre rest pn Ha. destruct (lex_plain single cc_func _ _ _ _ _ Ha p) as (x0 & Hx & Hr).
    exists x0, (length pre), T_CHAR, true. split_and!; try done. destruct Hx as (_ & _ & Ht & _). unfold token_leaf. rewrite Ht. by rewrite Hr.
  - apply leaf_parses. intros x pre rest pn Ha. destruct (lex_wide single cc_func _ _ _ r _ _ Ha (e rest) l) as (x0 & Hx & Hr).
    exists x0, (length (pre ++ b)), T_CHAR, true. split_and!; try done. destruct Hx as (_ & _ & Ht & _). unfold token_leaf. rewrite Ht. by rewrite Hr.
  - apply leaf_parses. intros x pre rest pn Ha. rewrite <- app_assoc in Ha. destruct (lex_escape single cc_func _ _ _ c _ _ Ha n (e rest)) as (x0 & Hx & Hr).
    exists x0, (length pre), T_CHAR, true. split_and!; try done. destruct Hx as (_ & _ & Ht & _). unfold token_leaf. rewrite Ht. by rewrite Hr.
  - apply leaf_parses. intros x pre rest pn Ha. destruct (lex_sign single cc_func _ _ _ T_DOT _ _ Ha) as (x0 & Hx); [apply (bool_decide_unpack _); by vm_compute|].
    exists x0, (length pre), T_DOT, true. split_and!; try done. destruct Hx as (_ & _ & Ht & _). unfold token_leaf. by rewrite Ht.
  - apply leaf_parses. intros x pre rest pn Ha. rewrite <- !app_assoc in Ha. destruct (lex_class single cc_func _ _ _ _ _ Ha f n n0) as (x0 & Hx & Hr).
    exists x0, (length pre), T_CCL, true. split_and!; try done. destruct Hx as (_ & _ & Ht & _). unfold token_leaf. rewrite Ht, Hr. eauto.
  - apply leaf_parses. intros x pre rest pn Ha. rewrite <- !app_assoc in Ha. destruct (lex_nclass single cc_func _ _ _ _ _ Ha f n) as (x0 & Hx & Hr).
    exists x0, (length pre), T_NCCL, true. split_and!; try done. destruct Hx as (_ & _ & Ht & _). unfold token_leaf. rewrite Ht, Hr. eauto.
  - apply leaf_parses. intros x pre rest pn Ha. destruct (lex_sign single cc_func _ _ _ T_DOLLAR _ _ Ha) as (x0 & Hx); [apply (bool_decide_unpack _); by vm_compute|].
    exists x0, (length pre), T_DOLLAR, false. split_and!; try done. destruct Hx as (_ & _ & Ht & _). unfold token_leaf. by rewrite Ht.
  - apply unit_parses.
  - by apply group_parses.
  - by eapply conc_term_parses.
  - destruct (Sa _ _ _ _ _ g) as [[_ Hh] [_ Hw]]. by apply repeat_parses.
  - destruct (Sc _ _ _ _ g) as [_ [_ Hw]], (Sc _ _ _ _ g0) as [[Hh _] [Hw2 _]]. apply conc_app_parses; auto. by apply conc_more.
  - by apply conc_seq.
  - pose proof (bol_parses t os [] [] 0 [] g more_nil (le_n 0) (or_introl eq_refl)) as Hb. by rewrite Nat.add_0_r, !app_nil_r in Hb.
  - destruct (Sc _ _ _ _ g0) as [[Hh _] [Hw _]]. apply bol_parses; auto. by apply conc_more.
  - by apply seq_alts.
  - destruct (Ss _ _ _ _ g) as [_ Hw1], (Sl _ _ _ _ g0) as [Hw2 _]. by apply alts_or_parse.
Qed.
End Parse.
