(* ===== verification/AwkText.v ===== *)
(** What a regular expression of awk stands for, from its text: the languages of sequences
    and repetitions, every text of the grammar can be read again when it is expanded, and
    the searches of awk for an expression that is given as text. *)

From stdpp Require Import numbers list.
From S2P Require Import Prelude Ctype AwkFa AwkRe AwkLang AwkSets AwkDfa AwkMk AwkMatch AwkGrammar AwkLex AwkParse AwkCorrect.

(** * Sequences *)

Definition same (n n' : Node) : Prop := forall v, lang n v <-> lang n' v.
Fixpoint seq_lang (ns : list Node) (v : list Z) : Prop :=
  match ns with [] => v = [] | n :: ns => exists v1 v2, v = v1 ++ v2 /\ lang n v1 /\ seq_lang ns v2 end.

Lemma lang_cat_iff l r v : lang (CAT l r) v <-> exists v1 v2, v = v1 ++ v2 /\ lang l v1 /\ lang r v2.
Proof. split; [apply lang_cat_inv|]. intros (v1 & v2 & -> & H1 & H2). auto. Qed.
Lemma seq_lang_app ns1 ns2 v : seq_lang (ns1 ++ ns2) v <-> exists v1 v2, v = v1 ++ v2 /\ seq_lang ns1 v1 /\ seq_lang ns2 v2.
Proof.
  revert v. induction ns1 as [|n ns1 IH]; intros v; cbn.
  - split; [by exists [], v|]. by intros (v1 & v2 & -> & -> & H2).
  - setoid_rewrite IH. split.
    + intros (v1 & v2 & -> & H1 & v3 & v4 & -> & H3 & H4). exists (v1 ++ v3), v4. rewrite app_assoc. eauto 10.
    + intros (v1 & v2 & -> & (v3 & v4 & -> & H3 & H4) & H2). exists v3, (v4 ++ v2). rewrite app_assoc. eauto 10.
Qed.
Lemma foldl_cat_lang ns n v : lang (foldl CAT n ns) v <-> seq_lang (n :: ns) v.
Proof.
  revert n v. induction ns as [|m ns IH]; intros n v.
  - cbn. split; [intros Hv; exists v, []; by rewrite app_nil_r|]. intros (v1 & v2 & -> & Hv & ->). by rewrite app_nil_r.
  - cbn [foldl]. rewrite IH. change (n :: m :: ns) with ([n; m] ++ ns). change (CAT n m :: ns) with ([CAT n m] ++ ns). rewrite !seq_lang_app.
    assert (forall u, seq_lang [CAT n m] u <-> seq_lang [n; m] u) as E; [|by setoid_rewrite E].
    intros u. cbn. setoid_rewrite lang_cat_iff. split.
    + intros (v1 & v2 & -> & (v3 & v4 & -> & H3 & H4) & ->). exists v3, v4. rewrite app_nil_r. split; [done|]. split; [done|]. exists v4, []. by rewrite app_nil_r.
    + intros (v1 & v2 & -> & H1 & v3 & v4 & -> & H3 & ->). exists (v1 ++ v3), []. rewrite !app_nil_r. eauto 10.
Qed.
Lemma seq_lang_same ns ns' : Forall2 same ns ns' -> forall v, seq_lang ns v <-> seq_lang ns' v.
Proof. induction 1 as [|n n' ns ns' Hn _ IH]; intros v; cbn; [done|]. unfold same in Hn. setoid_rewrite Hn. by setoid_rewrite IH. Qed.

Lemma star_same n n' : same n n' -> forall v, lang (Unary STAR n) v -> lang (Unary STAR n') v.
Proof. intros Hn. apply lang_star_ind; [auto|]. intros v u Hv _ Hu. apply lang_star; [by apply Hn|done]. Qed.
Lemma unary_same o n n' : same n n' -> same (Unary o n) (Unary o n').
Proof.
  assert (forall n n', same n n' -> forall v, lang (Unary o n) v -> lang (Unary o n') v) as Hone.
  { intros n1 n2 Hn v Hv. destruct o.
    - by apply (star_same n1).
    - apply lang_plus_inv in Hv as (v1 & v2 & -> & H1 & H2). apply lang_plus; [by apply Hn|by apply (star_same n1)].
    - inversion Hv; subst; [auto|]. apply lang_quest. by apply Hn.
    - inversion Hv; subst; auto. }
  intros Hn v. split; apply Hone; [done|]. intros u. by rewrite (Hn u).
Qed.
Lemma posts_same os n n' : same n n' -> same (posts n os) (posts n' os).
Proof. revert n n'. induction os as [|o os IH]; intros n n' Hn; [done|]. by apply IH, unary_same. Qed.

(** * Repetitions *)

(** [j] texts of [n], one behind the other. *)
Definition times (n : Node) (j : nat) : list Z -> Prop := seq_lang (replicate j n).
Definition repeats (n : Node) (k : nat) (m : option nat) (v : list Z) : Prop :=
  exists j, (k <= j)%nat /\ (forall m', m = Some m' -> (j <= m')%nat) /\ times n j v.

Lemma times_app n i j v1 v2 : times n i v1 -> times n j v2 -> times n (i + j) (v1 ++ v2).
Proof. intros H1 H2. unfold times. rewrite replicate_add. apply seq_lang_app. by exists v1, v2. Qed.
Lemma times_add n i j v : times n (i + j) v <-> exists v1 v2, v = v1 ++ v2 /\ times n i v1 /\ times n j v2.
Proof. unfold times. rewrite replicate_add. apply seq_lang_app. Qed.
Lemma times_one n v : times n 1 v <-> lang n v.
Proof. unfold times. cbn. split; [intros (v1 & v2 & -> & Hv & ->); by rewrite app_nil_r|]. intros Hv. exists v, []. by rewrite app_nil_r. Qed.

Lemma star_times n v : lang (Unary STAR n) v <-> exists j, times n j v.
Proof.
  split.
  - revert v. apply (lang_star_ind n); [by exists 0%nat|]. intros v u Hv _ [j Hj]. exists (S j). apply (times_app n 1); [by apply times_one|done].
  - intros [j Hj]. revert v Hj. induction j as [|j IH]; intros v Hj; [cbn in Hj; subst; auto|].
    apply (times_add n 1) in Hj as (v1 & v2 & -> & H1 & H2). apply lang_star; [by apply times_one|auto].
Qed.
Lemma plus_times n v : lang (Unary PLUS n) v <-> exists j, (1 <= j)%nat /\ times n j v.
Proof.
  split.
  - intros (v1 & v2 & -> & H1 & [j Hj]%star_times)%lang_plus_inv. exists (1 + j)%nat. split; [lia|]. apply times_app; [by apply times_one|done].
  - intros (j & Hj & Ht). destruct j as [|j]; [lia|]. apply (times_add n 1) in Ht as (v1 & v2 & -> & H1 & H2).
    apply lang_plus; [by apply times_one|]. apply star_times. by exists j.
Qed.
Lemma quests_times n q v : seq_lang (replicate q (Unary QUEST n)) v <-> exists j, (j <= q)%nat /\ times n j v.
Proof.
  revert v. induction q as [|q IH]; intros v.
  - cbn. split; [intros ->; by exists 0%nat|]. intros (j & Hj & Ht). by replace j with 0%nat in Ht by lia.
  - cbn [replicate seq_lang]. setoid_rewrite IH. split.
    + intros (v1 & v2 & -> & H1 & j & Hj & Ht). inversion H1; subst; [exists j; split; [lia|done]|]. exists (1 + j)%nat. split; [lia|]. apply times_app; [by apply times_one|done].
    + intros (j & Hj & Ht). destruct j as [|j]; [exists [], v; split; [done|]; split; [auto|]; exists 0%nat; split; [lia|done]|].
      apply (times_add n 1) in Ht as (v1 & v2 & -> & H1 & H2). exists v1, v2. split; [done|]. split; [apply lang_quest; by apply times_one|]. exists j. split; [lia|done].
Qed.

Lemma unit_lang i v : lang (Leaf (CCL []) i) v <-> v = [].
Proof. split; [|intros ->; auto]. inversion 1; subst; done. Qed.
Lemma zero_lang n v : lang (Unary ZERO n) v <-> v = [].
Proof. split; [|intros ->; auto]. by inversion 1. Qed.

Lemma rep_nodes_same n n' k m : same n n' -> Forall2 same (rep_nodes n n' k m) (rep_nodes n n k m).
Proof.
  intros Hn. assert (same n' n) as Hn' by (intros v; by rewrite (Hn v)).
  assert (forall j (a b : Node), same a b -> Forall2 same (replicate j a) (replicate j b)) as Hrep by (intros j a b Hab; by apply Forall2_replicate).
  assert (forall a, same a a) as Hr by done.
  destruct k as [|k], m as [[|m]|]; cbn [rep_nodes]; repeat first [apply Forall2_nil_2|apply Forall2_cons; split|apply Forall2_app]; auto using unary_same.
Qed.

Lemma rep_nodes_lang n n' k m v : rep_ok k m -> same n n' -> seq_lang (rep_nodes n n' k m) v <-> repeats n k m v.
Proof.
  intros Hk Hn. rewrite (seq_lang_same _ _ (rep_nodes_same n n' k m Hn)). unfold repeats, rep_ok in *.
  destruct m as [m|].
  - assert (seq_lang (rep_nodes n n k (Some m)) v <-> seq_lang (replicate k n ++ replicate (m - k) (Unary QUEST n)) v) as ->.
    { destruct k as [|k]; [|done]. destruct m as [|m]; [|done]. cbn. setoid_rewrite zero_lang. setoid_rewrite unit_lang.
      split; [by intros (? & ? & -> & -> & ? & ? & -> & -> & ->)|]. intros ->. exists [], []. split; [done|]. split; [done|]. by exists [], []. }
    rewrite seq_lang_app. setoid_rewrite quests_times. split.
    + intros (v1 & v2 & -> & H1 & j & Hj & H2). exists (k + j)%nat. split; [lia|]. split; [by intros m' [= <-]; lia|by apply times_app].
    + intros (j & Hj & Hm & Ht). specialize (Hm m eq_refl). replace j with (k + (j - k))%nat in Ht by lia. apply times_add in Ht as (v1 & v2 & -> & H1 & H2).
      exists v1, v2. split; [done|]. split; [done|]. exists (j - k)%nat. split; [lia|done].
  - destruct k as [|k]; [lia|]. assert (rep_nodes n n (S k) None = replicate k n ++ [Unary PLUS n]) as ->.
    { cbn. destruct k as [|k]; [lia|]. cbn. by rewrite Nat.sub_0_r. }
    rewrite seq_lang_app. split.
    + intros (v1 & v2 & -> & H1 & u & u' & -> & (j & Hj & Hu)%plus_times & ->). rewrite app_nil_r. exists (k + j)%nat. split; [lia|]. split; [done|by apply times_app].
    + intros (j & Hj & _ & Ht). replace j with (k + (j - k))%nat in Ht by lia. apply times_add in Ht as (v1 & v2 & -> & H1 & H2).
      exists v1, v2. split; [done|]. split; [done|]. exists v2, []. rewrite app_nil_r. split; [done|]. split; [|done]. apply plus_times. exists (j - k)%nat. split; [lia|done].
Qed.

(** * Expanded texts *)

Section Text.
Context (single : bool) (cc_func : string -> Z -> bool).
Notation g_atom := (g_atom single).
Notation g_conc := (g_conc single).
Notation g_seq := (g_seq single).
Notation g_alts := (g_alts single).

(** A sequence of factors that may be empty, in expanded text. *)
Definition g_more (s : list Z) (ns : list Node) : Prop := (s = [] /\ ns = []) \/ g_conc s s (length s) ns.
Lemma g_more_app s1 ns1 s2 ns2 : g_more s1 ns1 -> g_more s2 ns2 -> g_more (s1 ++ s2) (ns1 ++ ns2).
Proof.
  intros [[-> ->]|H1] [[-> ->]|H2]; rewrite ?app_nil_r; [by left|by right|by right|]. right. rewrite length_app. by apply conc_app.
Qed.
Lemma g_more_copies s n k : g_conc s s (length s) [n] -> g_more (copies k s) (replicate k n).
Proof. intros Hs. induction k as [|k IH]; [by left|]. apply (g_more_app s [n]); [by right|done]. Qed.

Lemma repeat_expanded a n t os k m : g_atom true a a (length a) n -> g_ops t os -> rep_ok k m ->
  exists ns, g_conc (rep_text (a ++ t) k m) (rep_text (a ++ t) k m) (length (rep_text (a ++ t) k m)) ns /\
    forall v, seq_lang ns v <-> repeats (posts n os) k m v.
Proof.
  intros Ha Ht Hk. set (N := posts n os).
  assert (forall u os', g_ops u os' -> g_conc ((a ++ t) ++ u) ((a ++ t) ++ u) (length ((a ++ t) ++ u)) [posts N os']) as HT.
  { intros u os' Hu. unfold N. rewrite <- posts_app, <- app_assoc, length_app. eapply conc_term; [done|]. by apply g_ops_app. }
  assert (g_conc (a ++ t) (a ++ t) (length (a ++ t)) [N]) as HT0 by (pose proof (HT [] [] ops_nil) as H0; by rewrite app_nil_r in H0).
  assert (forall c o, g_op c o -> g_conc ((a ++ t) ++ c) ((a ++ t) ++ c) (length ((a ++ t) ++ c)) [Unary o N]) as HTo.
  { intros c o Ho. apply (HT c [o]). rewrite <- (app_nil_r c). by repeat constructor. }
  assert (forall (s : list Z) ns, s <> [] -> g_more s ns -> g_conc s s (length s) ns) as Hne by (intros s ns Hs [[-> _]|]; done).
  destruct (decide (m = Some 0%nat)) as [->|Hm].
  { assert (k = 0)%nat as -> by (cbn in Hk; lia). exists [leaf_node (CCL [])]. split.
    - apply (conc_term _ true (codes "()") (codes "()") 2 _ [] []); constructor.
    - intros v. rewrite <- (rep_nodes_lang N N 0 (Some 0%nat)) by done. cbn. setoid_rewrite zero_lang. setoid_rewrite unit_lang.
      split; [intros (? & ? & -> & -> & ->); exists [], []; split; [done|]; split; [done|]; by exists [], []|].
      intros (? & ? & -> & -> & ? & ? & -> & -> & ->). by exists [], []. }
  exists (rep_nodes N N k m). split; [|intros v; by apply rep_nodes_lang].
  apply Hne.
  { destruct (headed_app (a ++ t) (rep_more (a ++ t) k m)) as [Hh _]; [|by rewrite <- rep_more_text].
    apply headed_app. by destruct (proj1 (grammar_shape single) _ _ _ _ _ Ha) as [[? _] _]. }
  unfold rep_text, rep_ok in *. destruct m as [m|].
  - rewrite (proj2 (Nat.eqb_neq m 0)) by congruence. destruct k as [|k]; cbn [rep_nodes].
    + destruct m as [|m]; [done|]. apply (g_more_copies _ _ (S m)). by apply HTo; constructor.
    + apply (g_more_app _ (replicate (S k) N)); apply g_more_copies; [done|by apply HTo; constructor].
  - destruct k as [|[|k]]; [lia|lia|]. rewrite copies_snoc, <- app_assoc. cbn [rep_nodes Nat.sub]. rewrite Nat.sub_0_r.
    apply (g_more_app _ (replicate (S k) N)); [by apply g_more_copies|]. right. by apply HTo; constructor.
Qed.

(** * The meaning of a text

    [e] is the length of the text when its repetitions are expanded, [w] the room that
    expanding them one after the other takes at most. *)

Definition language : Type := list Z -> Prop.
Definition cat_lang (L1 L2 : language) : language := fun v => exists v1 v2, v = v1 ++ v2 /\ L1 v1 /\ L2 v2.
Fixpoint power (L : language) (j : nat) : language := match j with O => fun v => v = [] | S j => cat_lang L (power L j) end.
(** [k] to [m] texts of [L], [None] for any number from [k]. *)
Definition rep_lang (L : language) (k : nat) (m : option nat) : language :=
  fun v => exists j, (k <= j)%nat /\ (forall m', m = Some m' -> (j <= m')%nat) /\ power L j v.
Definition op_lang (L : language) (o : unary_op) : language :=
  match o with STAR => rep_lang L 0 None | PLUS => rep_lang L 1 None | QUEST => rep_lang L 0 (Some 1%nat) | ZERO => rep_lang L 0 (Some 0%nat) end.
Definition ops_lang (L : language) (os : list unary_op) : language := foldl op_lang L os.
Definition or_lang (L1 L2 : language) : language := fun v => L1 v \/ L2 v.
Definition rep_len (l k : nat) (m : option nat) : nat :=
  match m with None => k * l + 1 | Some O => 2 | Some m => k * l + (m - k) * (l + 1) end%nat.
Definition one_lang (f : Z -> bool) : language := fun v => exists c, v = [c] /\ f c = true.
Definition char_lang (c : Z) : language := one_lang (Z.eqb c).
(** The mark for the beginning of the string; the end of the string is its 0. *)
Definition bol : language := char_lang HAT.
Definition anything (c : Z) : bool := negb (c =? 0) && negb (c =? HAT).

(** Bracket expressions of characters and ranges. *)
Inductive class_item := One (c : Z) | Span (lo hi : Z).
Definition class_plain (c : Z) : Prop := 0 < c < 128 /\ c ∉ codes "\[]-".
Definition item_ok (i : class_item) : Prop := match i with One c => class_plain c | Span lo hi => class_plain lo /\ class_plain hi /\ lo <= hi end.
Definition item_text (i : class_item) : list Z := match i with One c => [c] | Span lo hi => [lo; chr "-"; hi] end.
Definition item_has (c : Z) (i : class_item) : bool := match i with One d => c =? d | Span lo hi => (lo <=? c) && (c <=? hi) end.
Definition class_text (items : list class_item) : list Z := flat_map item_text items.
Definition class_has (items : list class_item) (c : Z) : bool := existsb (item_has c) items.

(** What stands behind a backslash. *)
Inductive escape : list Z -> Z -> Prop :=
| esc_letter x c : In (x, c) [(chr "t", 9); (chr "n", 10); (chr "f", 12); (chr "r", 13); (chr "b", 8); (chr "v", 11); (chr "a", 7)] -> escape [x] c
| esc_self x : 0 < x < 128 -> x ∉ codes "tnfrbvaxu01234567" -> escape [x] x
| esc_octal a b c : isoctdigit a = true -> isoctdigit b = true -> isoctdigit c = true ->
    escape [a; b; c] (64 * (a - 48) + 8 * (b - 48) + (c - 48)).

Inductive m_atom : bool -> list Z -> nat -> nat -> language -> Prop :=
| ma_plain c : plain c -> m_atom true [c] 1 1 (char_lang c)
| ma_wide b r : (forall rest, u8_rune single (b ++ rest) = (r, length b)) -> (1 < length b)%nat -> Forall is_char b ->
    m_atom false b (length b) (length b) (char_lang r)
| ma_escape b c : escape b c -> m_atom true (codes "\" ++ b) (S (length b)) (S (length b)) (char_lang c)
| ma_dot : m_atom true (codes ".") 1 1 (one_lang anything)
| ma_class its l : its <> [] -> Forall item_ok its -> head (class_text its) <> Some (chr "^") -> l = length (class_text its) ->
    m_atom true (codes "[" ++ class_text its ++ codes "]") (2 + l) (2 + l) (one_lang (class_has its))
| ma_nclass its l : its <> [] -> Forall item_ok its -> l = length (class_text its) ->
    m_atom true (codes "[^" ++ class_text its ++ codes "]") (3 + l) (3 + l) (one_lang (fun c => negb (class_has its c) && anything c))
| ma_eol : m_atom false (codes "$") 1 1 (char_lang 0)
| ma_unit : m_atom true (codes "()") 2 2 (fun v => v = [])
| ma_group s e w L : m_alts s e w L -> m_atom true (codes "(" ++ s ++ codes ")") (e + 2) (w + 2) L
with m_conc : list Z -> nat -> nat -> language -> Prop :=
| mc_term rp a e w L t os : m_atom rp a e w L -> g_ops t os -> m_conc (a ++ t) (e + length t) (w + length t) (ops_lang L os)
| mc_repeat a e w L t os b k m : m_atom true a e w L -> g_ops t os -> g_braces b k m ->
    m_conc (a ++ t ++ b) (rep_len (e + length t) k m) (max (w + length t + length b) (rep_len (e + length t) k m)) (rep_lang (ops_lang L os) k m)
| mc_app s1 e1 w1 L1 s2 e2 w2 L2 : m_conc s1 e1 w1 L1 -> m_conc s2 e2 w2 L2 -> m_conc (s1 ++ s2) (e1 + e2) (w1 + w2) (cat_lang L1 L2)
with m_seq : list Z -> nat -> nat -> language -> Prop :=
| ms_conc s e w L : m_conc s e w L -> m_seq s e w L
| ms_bol t os : g_ops t os -> m_seq (codes "^" ++ t) (1 + length t) (1 + length t) (ops_lang bol os)
| ms_bol_conc t os s e w L : g_ops t os -> m_conc s e w L ->
    m_seq (codes "^" ++ t ++ s) (1 + length t + e) (1 + length t + w) (cat_lang (ops_lang bol os) L)
with m_alts : list Z -> nat -> nat -> language -> Prop :=
| ml_one s e w L : m_seq s e w L -> m_alts s e w L
| ml_or s1 e1 w1 L1 s2 e2 w2 L2 : m_seq s1 e1 w1 L1 -> m_alts s2 e2 w2 L2 ->
    m_alts (s1 ++ codes "|" ++ s2) (e1 + 1 + e2) (w1 + 1 + w2) (or_lang L1 L2).

Scheme m_atom_mut := Induction for m_atom Sort Prop
  with m_conc_mut := Induction for m_conc Sort Prop
  with m_seq_mut := Induction for m_seq Sort Prop
  with m_alts_mut := Induction for m_alts Sort Prop.
Combined Scheme meaning_mut from m_atom_mut, m_conc_mut, m_seq_mut, m_alts_mut.

Definition means (n : Node) (L : language) : Prop := forall v, lang n v <-> L v.
Definition seq_means (ns : list Node) (L : language) : Prop := forall v, seq_lang ns v <-> L v.

Lemma power_times n L : means n L -> forall j v, times n j v <-> power L j v.
Proof.
  intros Hn. unfold means in Hn. induction j as [|j IH]; intros v; [done|]. change (times n (S j) v) with (seq_lang (n :: replicate j n) v).
  cbn [seq_lang power]. unfold cat_lang. setoid_rewrite Hn. by setoid_rewrite IH.
Qed.
Lemma rep_means n L k m v : means n L -> repeats n k m v <-> rep_lang L k m v.
Proof. intros Hn. unfold repeats, rep_lang. by setoid_rewrite (power_times n L Hn). Qed.
Lemma op_means n L o : means n L -> means (Unary o n) (op_lang L o).
Proof.
  intros Hn v. destruct o; cbn [op_lang]; rewrite <- (rep_means n L) by done; unfold repeats.
  - rewrite star_times. split; [intros (j & Hj); exists j; split_and!; [lia|done|done]|intros (j & _ & _ & Hj); by exists j].
  - rewrite plus_times. split; [intros (j & ? & Hj); exists j; by split_and!|intros (j & ? & _ & Hj); by exists j].
  - pose proof (quests_times n 1 v) as Hq. cbn [replicate seq_lang] in Hq. transitivity (exists j, (j <= 1)%nat /\ times n j v).
    + rewrite <- Hq. split; [intros Hv; exists v, []; by rewrite app_nil_r|]. intros (v1 & v2 & -> & Hv & ->). by rewrite app_nil_r.
    + split; intros (j & Hj); exists j; [destruct Hj as [Hj Ht]; split_and!; [lia|by intros m' [= <-]|done]|]. destruct Hj as (_ & Hm & Hj). split; [by apply Hm|done].
  - rewrite zero_lang. split; [intros ->; exists 0%nat; split; [lia|]; split; [by intros m' [= <-]|done]|]. intros (j & _ & Hm & Hj).
    specialize (Hm _ eq_refl). by replace j with 0%nat in Hj by lia.
Qed.
Lemma posts_means os : forall n L, means n L -> means (posts n os) (ops_lang L os).
Proof. induction os as [|o os IH]; intros n L Hn; [done|]. apply IH. by apply op_means. Qed.
Lemma seq_one n L : means n L -> seq_means [n] L.
Proof. intros Hn v. rewrite <- (Hn v). apply times_one. Qed.
Lemma seq_app_means ns1 L1 ns2 L2 : seq_means ns1 L1 -> seq_means ns2 L2 -> seq_means (ns1 ++ ns2) (cat_lang L1 L2).
Proof. intros H1 H2 v. rewrite seq_lang_app. unfold cat_lang, seq_means in *. setoid_rewrite H1. by setoid_rewrite H2. Qed.
Lemma foldl_cat_means n ns L : seq_means (n :: ns) L -> means (foldl CAT n ns) L.
Proof. intros H v. rewrite foldl_cat_lang. apply H. Qed.
Fixpoint or_means (ns : list Node) : language := match ns with [] => fun _ => False | n :: ns => or_lang (lang n) (or_means ns) end.
Lemma foldl_or_lang ns : forall n v, lang (foldl OR n ns) v <-> or_means (n :: ns) v.
Proof.
  induction ns as [|m ns IH]; intros n v; cbn; [unfold or_lang; tauto|]. rewrite IH. cbn. unfold or_lang.
  split; [intros [H|]; [inversion H; subst; tauto|tauto]|intros [?|[?|?]]; [by left; apply lang_or_l|by left; apply lang_or_r|by right]].
Qed.
Lemma rep_text_length t k m : rep_ok k m -> length (rep_text t k m) = rep_len (length t) k m.
Proof.
  intros Hk. unfold rep_text, rep_len. assert (forall j u, length (copies j u) = j * length u)%nat as Hc.
  { intros j u. induction j as [|j IH]; [done|]. change (copies (S j) u) with (u ++ copies j u). rewrite length_app, IH. lia. }
  destruct m as [[|m]|]; cbn [Nat.eqb]; rewrite ?length_app, ?Hc, ?length_app; cbn; lia.
Qed.

(** The grammar gives trees, without the end mark. *)
Definition good_trees (ns : list Node) : Prop := ns <> [] /\ Forall no_final ns.
Lemma posts_no_final os : forall n, no_final n -> no_final (posts n os).
Proof. induction os as [|o os IH]; intros n Hn; [done|]. by apply IH. Qed.
Lemma foldl_no_final (f : Node -> Node -> Node) ns : (forall a b, no_final a -> no_final b -> no_final (f a b)) -> Forall no_final ns -> forall n, no_final n -> no_final (foldl f n ns).
Proof. intros Hf. induction 1 as [|m ns Hm _ IH]; intros n Hn; [done|]. apply IH. auto. Qed.
Lemma rep_good n n' k m : no_final n -> no_final n' -> good_trees (rep_nodes n n' k m).
Proof.
  intros Hn Hn'. split; [by destruct k, m as [[]|]|]. destruct k as [|k], m as [[|m]|]; cbn [rep_nodes]; repeat (apply Forall_cons; split); try done;
    try (apply Forall_app; split); try (apply Forall_replicate); try (by repeat constructor); done.
Qed.
Lemma grammar_good :
  (forall rp s s' w n, g_atom rp s s' w n -> no_final n) /\ (forall s s' w ns, g_conc s s' w ns -> good_trees ns) /\
  (forall s s' w ns, g_seq s s' w ns -> good_trees ns) /\ (forall s s' w ns, g_alts s s' w ns -> good_trees ns).
Proof.
  apply grammar_re_mut; intros; try done.
  - destruct H as [_ H]. apply Forall_cons in H as [Hn Hns]. by apply foldl_no_final.
  - split; [done|]. apply Forall_singleton. by apply posts_no_final.
  - apply rep_good; by apply posts_no_final.
  - destruct H as [H1 H2], H0 as [H3 H4]. split; [by destruct ns1|]. by apply Forall_app.
  - split; [done|]. apply Forall_singleton. by apply posts_no_final.
  - destruct H as [H1 H2]. split; [done|]. apply Forall_cons. split; [by apply posts_no_final|done].
  - destruct H as [_ H]. apply Forall_cons in H as [Hn Hns]. split; [done|]. apply Forall_singleton. by apply foldl_no_final.
  - destruct H as [_ H], H0 as [_ H0]. apply Forall_cons in H as [Hn Hns]. split; [done|]. apply Forall_cons. split; [by apply foldl_no_final|done].
Qed.

(** Every text with a meaning is one of the grammar, and so is the expanded text. *)
Definition atom_tree rp (s : list Z) (e w : nat) (L : language) : Prop := exists s' n n',
  g_atom rp s s' w n /\ g_atom rp s' s' (length s') n' /\ length s' = e /\ means n L /\ means n' L.
Definition list_tree (g : list Z -> list Z -> nat -> list Node -> Prop) (s : list Z) (e w : nat) (L : language) : Prop := exists s' n ns n' ns',
  g s s' w (n :: ns) /\ g s' s' (length s') (n' :: ns') /\ length s' = e /\ seq_means (n :: ns) L /\ seq_means (n' :: ns') L.
Definition alts_tree (s : list Z) (e w : nat) (L : language) : Prop := exists s' n ns n' ns',
  g_alts s s' w (n :: ns) /\ g_alts s' s' (length s') (n' :: ns') /\ length s' = e /\
  (forall v, or_means (n :: ns) v <-> L v) /\ (forall v, or_means (n' :: ns') v <-> L v).

Lemma leaf_means k f : (forall c, takes k c = f c) -> k <> EMPTYRE -> k <> FINAL -> (forall s, k = CCL s -> hd 0 s <> 0) -> means (leaf_node k) (one_lang f).
Proof.
  intros Hf He Hn Hs v. split.
  - inversion 1; subst; [exists c; by rewrite <- Hf|done|done|by destruct (Hs s eq_refl)].
  - intros (c & -> & Hc). apply lang_leaf; [done|]. by rewrite Hf.
Qed.
Lemma char_means c : means (leaf_node (CHAR c)) (char_lang c).
Proof. apply leaf_means; try done. intros d. apply Z.eqb_sym. Qed.
Lemma atom_leaf rp b k l L : g_atom rp b b l (leaf_node k) -> l = length b -> means (leaf_node k) L -> atom_tree rp b l l L.
Proof. intros Hg -> Hm. by exists b, (leaf_node k), (leaf_node k). Qed.

Lemma escape_quoted b c : escape b c -> b <> [] /\ forall rest, quoted (b ++ rest) = Ok (c, rest).
Proof.
  intros [x d Hx|x Hx Hn|x y z Hx Hy Hz]; (split; [done|]); intros rest; cbn [app].
  - cbn in Hx. repeat destruct Hx as [[= <- <-]|Hx]; done.
  - unfold quoted. cbn [next_char mbind out_bind].
    destruct (Z.eqb_spec x (chr "\")) as [->|Hb]; [done|].
    assert (forall y, y ∈ codes "tnfrbvaxu01234567" -> (x =? y) = false) as Hne by (intros y Hy; apply Z.eqb_neq; by intros ->).
    rewrite !Hne by (apply (bool_decide_unpack _); by vm_compute). assert (isoctdigit x = false) as ->.
    { unfold isoctdigit. apply not_true_iff_false. intros Hd. apply Hn.
      assert (x = 48 \/ x = 49 \/ x = 50 \/ x = 51 \/ x = 52 \/ x = 53 \/ x = 54 \/ x = 55) as Hc by lia.
      repeat destruct Hc as [->|Hc]; subst; apply (bool_decide_unpack _); by vm_compute. }
    done.
  - unfold quoted. cbn [next_char mbind out_bind].
    assert (forall y, y ∈ codes "tnfrbva\xu" -> (x =? y) = false) as Hne.
    { intros y' Hy'. apply Z.eqb_neq. intros ->. unfold isoctdigit in Hx. change (codes "tnfrbva\xu") with [116; 110; 102; 114; 98; 118; 97; 92; 120; 117] in Hy'.
      rewrite !elem_of_cons, elem_of_nil in Hy'. lia. }
    rewrite !Hne by (apply (bool_decide_unpack _); by vm_compute). rewrite Hx, Hy, Hz. f_equal. f_equal. lia.
Qed.

(** ** Bracket expressions *)

Definition item_runes (i : class_item) : list Z := match i with One c => [c] | Span lo hi => seqZ lo (hi - lo + 1) end.
Lemma class_plain_steps c (p : list Z) : class_plain c -> u8_rune single (c :: p) = (c, 1%nat) /\ (c =? chr "\") = false /\ (c =? chr "-") = false /\ c <> 0.
Proof.
  intros [Hc Hn]. split_and!; [apply u8_ascii; lia| | |lia]; apply Z.eqb_neq; intros ->; apply Hn; apply (bool_decide_unpack _); by vm_compute.
Qed.
Lemma cclenter_items its : Forall item_ok its -> forall fuel buf, (length (class_text its) < fuel)%nat ->
  cclenter_loop single fuel (class_text its) buf = Ok (rev buf ++ flat_map item_runes its).
Proof.
  induction 1 as [|i its Hi His IH]; intros fuel buf Hf; (destruct fuel as [|fuel]; [lia|]); [by rewrite app_nil_r|].
  destruct i as [c|lo hi]; cbn [class_text flat_map item_text app] in *; fold (class_text its) in *.
  - destruct (class_plain_steps c (class_text its) Hi) as (Hr & Hb & Hd & _). cbn [cclenter_loop length] in *. rewrite Hr, Hb. cbn [drop].
    assert (cclenter_loop single fuel (class_text its) (c :: buf) = Ok (rev buf ++ c :: flat_map item_runes its)) as E
      by (rewrite IH by lia; cbn [rev]; by rewrite <- app_assoc).
    destruct buf; [exact E|]. rewrite Hd. exact E.
  - destruct Hi as (Hlo & Hhi & Hle). destruct (class_plain_steps lo (chr "-" :: hi :: class_text its) Hlo) as (Hr & Hb & Hd & H0).
    destruct (class_plain_steps hi (class_text its) Hhi) as (Hr2 & Hb2 & Hd2 & _). cbn [length] in Hf. destruct fuel as [|fuel]; [lia|].
    assert (cclenter_loop single (S fuel) (chr "-" :: hi :: class_text its) (lo :: buf) = Ok (rev buf ++ item_runes (Span lo hi) ++ flat_map item_runes its)) as E.
    { cbn [cclenter_loop]. rewrite u8_ascii by done. cbn [drop]. change (chr "-" =? chr "\") with false. change (chr "-" =? chr "-") with true. cbv iota.
      rewrite (proj2 (Z.eqb_neq lo 0)) by done. cbn [andb negb length Nat.eqb]. rewrite Hr2, Hb2. cbn [drop mbind out_bind].
      rewrite (proj2 (Z.ltb_ge hi lo)) by done. rewrite IH by lia. rewrite rev_app_distr, rev_involutive. cbn [rev item_runes].
      rewrite <- !app_assoc. f_equal. f_equal. cbn [app]. replace (hi - lo + 1) with (Z.succ (hi - lo)) by lia. rewrite (seqZ_cons lo) by lia. cbn [app].
      by replace (Z.succ lo) with (lo + 1) by lia; rewrite Z.pred_succ. }
    cbn [cclenter_loop]. rewrite Hr, Hb. cbn [drop]. destruct buf; [exact E|]. rewrite Hd. exact E.
Qed.
Lemma member_existsb c s : Forall (fun x => x <> 0) s -> member c s = existsb (Z.eqb c) s.
Proof. induction 1 as [|x s Hx _ IH]; [done|]. cbn. rewrite (proj2 (Z.eqb_neq x 0)), IH by done. by destruct (c =? x). Qed.
Lemma item_runes_nonzero its : Forall item_ok its -> Forall (fun x => x <> 0) (flat_map item_runes its).
Proof.
  induction 1 as [|i its Hi _ IH]; [constructor|]. cbn [flat_map]. apply Forall_app. split; [|done]. destruct i as [c|lo hi]; cbn [item_runes].
  - apply Forall_singleton. destruct Hi as [? _]. lia.
  - destruct Hi as ([? _] & _). apply Forall_forall. intros x Hx%elem_of_seqZ. lia.
Qed.
Lemma member_items its c : Forall item_ok its -> member c (flat_map item_runes its) = class_has its c.
Proof.
  intros Hok. rewrite member_existsb by (by apply item_runes_nonzero). unfold class_has. clear Hok. induction its as [|i its IH]; [done|].
  cbn [flat_map existsb]. rewrite <- IH. rewrite existsb_app. f_equal.
  destruct i as [d|lo hi]; cbn [item_runes item_has]; [cbn; by rewrite orb_false_r|]. apply eq_true_iff_eq. rewrite existsb_exists, andb_true_iff, !Z.leb_le. split.
  - intros (x & Hx & ->%Z.eqb_eq). apply list_elem_of_In, elem_of_seqZ in Hx. lia.
  - intros Hc. exists c. split; [apply list_elem_of_In, elem_of_seqZ; lia|apply Z.eqb_refl].
Qed.
Lemma class_parts its : its <> [] -> Forall item_ok its -> Forall class_char (class_text its) /\ class_text its <> [] /\
  cclenter single (class_text its) = Ok (flat_map item_runes its) /\ hd 0 (flat_map item_runes its) <> 0.
Proof.
  intros Hne Hok. assert (forall c, class_plain c -> class_char c) as Hc.
  { intros c [Hc Hn]. split; [done|]. intros Hin. apply Hn. revert Hin. change (codes "\[]-") with (codes "\[]" ++ [chr "-"]). rewrite elem_of_app. by left. }
  split_and!.
  - induction Hok as [|i its Hi _ IH]; [done|]. cbn [class_text flat_map]. apply Forall_app. split; [|destruct its; [constructor|by apply IH]].
    destruct i as [c|lo hi]; cbn [item_text]; [by apply Forall_singleton, Hc|]. destruct Hi as (H1 & H2 & _). apply Forall_cons. split; [by apply Hc|]. apply Forall_cons.
    split; [|by apply Forall_singleton, Hc]. split; [done|]. apply (bool_decide_unpack (_ ∉ _)). by vm_compute.
  - destruct its as [|[] its]; done.
  - unfold cclenter. rewrite cclenter_items by (done || lia). done.
  - destruct Hok as [|i its Hi _]; [done|]. destruct i as [c|lo hi]; cbn [flat_map item_runes]; [destruct Hi as [? _]; cbn; lia|].
    destruct Hi as ([? _] & _ & Hle). replace (hi - lo + 1) with (Z.succ (hi - lo)) by lia. rewrite seqZ_cons by lia. cbn. lia.
Qed.

Lemma group_tree s e w L : alts_tree s e w L -> atom_tree true (codes "(" ++ s ++ codes ")") (e + 2) (w + 2) L.
Proof.
  intros (s' & n & ns & n' & ns' & Hg & Hg' & He & Hn & Hn'). exists (codes "(" ++ s' ++ codes ")"), (foldl OR n ns), (foldl OR n' ns').
  assert (length (codes "(" ++ s' ++ codes ")") = length s' + 2)%nat as Hl by (rewrite !length_app; cbn; lia).
  split_and!; [by apply atom_group|rewrite Hl; by apply atom_group|lia|..]; intros v; by rewrite foldl_or_lang.
Qed.
Lemma term_tree rp a e w L t os : atom_tree rp a e w L -> g_ops t os -> list_tree g_conc (a ++ t) (e + length t) (w + length t) (ops_lang L os).
Proof.
  intros (a' & n & n' & Hg & Hg' & He & Hn & Hn') Ht. exists (a' ++ t), (posts n os), [], (posts n' os), [].
  split_and!; [by eapply conc_term|rewrite length_app; by eapply conc_term|rewrite length_app; lia|by apply seq_one, posts_means..].
Qed.
Lemma rep_nodes_cons n n' k m : exists h ns, rep_nodes n n' k m = h :: ns.
Proof. destruct k, m as [[]|]; cbn; eauto. Qed.
Lemma repeat_tree a e w L t os b k m : atom_tree true a e w L -> g_ops t os -> g_braces b k m ->
  list_tree g_conc (a ++ t ++ b) (rep_len (e + length t) k m) (max (w + length t + length b) (rep_len (e + length t) k m)) (rep_lang (ops_lang L os) k m).
Proof.
  intros (a' & n & n' & Hg & Hg' & He & Hn & Hn') Ht Hb. pose proof (braces_ok b k m Hb) as Hk.
  assert (same n n') as Hs by (intros v; by rewrite (Hn v), (Hn' v)).
  destruct (repeat_expanded a' n' t os k m Hg' Ht Hk) as (ns' & Hc & Hl).
  assert (length (rep_text (a' ++ t) k m) = rep_len (e + length t) k m) as Hlen by (by rewrite rep_text_length, length_app, He).
  destruct (rep_nodes_cons (posts n os) (posts n' os) k m) as (h & hs & Eh).
  assert (exists h' hs', ns' = h' :: hs') as (h' & hs' & ->).
  { destruct ns' as [|h' hs']; [|eauto]. exfalso. by apply (proj1 (proj2 grammar_good) _ _ _ _ Hc). }
  exists (rep_text (a' ++ t) k m), h, hs, h', hs'. split_and!; [|done|done|..].
  - rewrite <- Eh, <- Hlen. eapply conc_repeat; done.
  - intros v. rewrite <- Eh, rep_nodes_lang; [|done|by apply posts_same]. apply rep_means. by apply posts_means.
  - intros v. rewrite Hl. apply rep_means. by apply posts_means.
Qed.
Lemma app_tree s1 e1 w1 L1 s2 e2 w2 L2 : list_tree g_conc s1 e1 w1 L1 -> list_tree g_conc s2 e2 w2 L2 ->
  list_tree g_conc (s1 ++ s2) (e1 + e2) (w1 + w2) (cat_lang L1 L2).
Proof.
  intros (s1' & n1 & ns1 & n1' & ns1' & Hg1 & Hg1' & He1 & Hn1 & Hn1') (s2' & n2 & ns2 & n2' & ns2' & Hg2 & Hg2' & He2 & Hn2 & Hn2').
  exists (s1' ++ s2'), n1, (ns1 ++ n2 :: ns2), n1', (ns1' ++ n2' :: ns2'). rewrite length_app.
  split_and!; [by apply (conc_app _ _ _ _ (n1 :: ns1))|by apply (conc_app _ _ _ _ (n1' :: ns1'))|lia|by apply (seq_app_means (n1 :: ns1))|by apply (seq_app_means (n1' :: ns1'))].
Qed.

Lemma meaning_grammar :
  (forall rp s e w L, m_atom rp s e w L -> atom_tree rp s e w L) /\
  (forall s e w L, m_conc s e w L -> list_tree g_conc s e w L) /\
  (forall s e w L, m_seq s e w L -> list_tree g_seq s e w L) /\
  (forall s e w L, m_alts s e w L -> alts_tree s e w L).
Proof.
  apply meaning_mut; intros.
  - eapply (atom_leaf true [c]); [by apply atom_plain|done|apply char_means].
  - eapply atom_leaf; [by apply atom_wide|done|apply char_means].
  - destruct (escape_quoted b c e) as [Hb Hq]. eapply (atom_leaf true (codes "\" ++ b)); [by apply atom_escape|done|apply char_means].
  - eapply (atom_leaf true (codes ".")); [apply atom_dot|done|by apply leaf_means].
  - destruct (class_parts its n f) as (Hc & Hne & Hs & Hh). subst l. eapply (atom_leaf true (codes "[" ++ class_text its ++ codes "]"));
      [by apply atom_class|rewrite !length_app; cbn; lia|]. apply leaf_means; [intros c; by apply member_items|done|done|by intros s [= <-]].
  - destruct (class_parts its n f) as (Hc & Hne & Hs & Hh). subst l. eapply (atom_leaf true (codes "[^" ++ class_text its ++ codes "]"));
      [by apply atom_nclass|rewrite !length_app; cbn; lia|]. apply leaf_means; [|done..]. intros c. cbn [takes]. rewrite member_items by done. unfold anything. by rewrite andb_assoc.
  - eapply (atom_leaf false (codes "$")); [apply atom_eol|done|apply char_means].
  - exists (codes "()"), (leaf_node (CCL [])), (leaf_node (CCL [])). split_and!; [apply atom_unit|apply atom_unit|done|..]; intros v; apply unit_lang.
  - by apply group_tree.
  - by eapply term_tree.
  - by apply repeat_tree.
  - by apply app_tree.
  - destruct H as (s' & n & ns & n' & ns' & Hg & Hg' & He & Hn & Hn'). exists s', n, ns, n', ns'. split_and!; [by apply seq_conc|by apply seq_conc|done..].
  - exists (codes "^" ++ t), (posts (leaf_node (CHAR HAT)) os), [], (posts (leaf_node (CHAR HAT)) os), [].
    split_and!; [by apply seq_bol|by apply seq_bol|done|..]; by apply seq_one, posts_means, char_means.
  - destruct H as (s' & n & ns & n' & ns' & Hg & Hg' & He & Hn & Hn'). assert (means (leaf_node (CHAR HAT)) bol) as Hb by apply char_means.
    exists (codes "^" ++ t ++ s'), (posts (leaf_node (CHAR HAT)) os), (n :: ns), (posts (leaf_node (CHAR HAT)) os), (n' :: ns').
    assert (length (codes "^" ++ t ++ s') = 1 + length t + length s')%nat as El by (rewrite !length_app; cbn; lia).
    split_and!; [by apply seq_bol_conc|rewrite El; by apply seq_bol_conc|lia|..];
      apply (seq_app_means [posts (leaf_node (CHAR HAT)) os]); try done; by apply seq_one, posts_means.
  - destruct H as (s' & n & ns & n' & ns' & Hg & Hg' & He & Hn & Hn').
    exists s', (foldl CAT n ns), [], (foldl CAT n' ns'), []. split_and!; [by apply alts_one|by apply alts_one|done|..];
      intros v; cbn; unfold or_lang; rewrite foldl_cat_lang; [rewrite (Hn v)|rewrite (Hn' v)]; tauto.
  - destruct H as (s1' & n & ns & n' & ns' & Hg & Hg' & He & Hn & Hn'), H0 as (s2' & p0 & ps0 & p' & ps' & Hg2 & Hg2' & He2 & Hm & Hm').
    exists (s1' ++ codes "|" ++ s2'), (foldl CAT n ns), (p0 :: ps0), (foldl CAT n' ns'), (p' :: ps').
    assert (length (s1' ++ codes "|" ++ s2') = length s1' + 1 + length s2')%nat as El by (rewrite !length_app; cbn; lia).
    split_and!; [by apply alts_or|rewrite El; by apply alts_or|lia|..]; intros v; change (or_means (?x :: ?l)) with (or_lang (lang x) (or_means l));
      unfold or_lang; rewrite foldl_cat_lang; [rewrite (Hn v), <- (Hm v)|rewrite (Hn' v), <- (Hm' v)]; done.
Qed.

Lemma meaning_width :
  (forall rp s e w L, m_atom rp s e w L -> (length s <= w /\ e <= w)%nat) /\ (forall s e w L, m_conc s e w L -> (length s <= w /\ e <= w)%nat) /\
  (forall s e w L, m_seq s e w L -> (length s <= w /\ e <= w)%nat) /\ (forall s e w L, m_alts s e w L -> (length s <= w /\ e <= w)%nat).
Proof. apply meaning_mut; intros; rewrite ?length_app; cbn; lia. Qed.

End Text.

(** The text [a(b|c){2}$]. *)
Definition sample_text : list Z := codes "a(b|c){2}$".
Definition sample_lang : language :=
  cat_lang (cat_lang (char_lang 97) (rep_lang (or_lang (char_lang 98) (char_lang 99)) 2 (Some 2%nat))) (char_lang 0).
Lemma plain_sample c : bool_decide (0 < c < 128 /\ c ∉ codes "|*+?.^$()\[{") = true -> plain c.
Proof. apply bool_decide_eq_true_1. Qed.
Lemma sample_meaning : m_alts false sample_text 12 12 sample_lang.
Proof.
  assert (forall c, plain c -> m_conc false [c] 1 1 (char_lang c)) as Hc.
  { intros c Hc. apply (mc_term _ true [c] 1 1 _ [] []); constructor. done. }
  assert (m_atom false true (codes "(b|c)") 5 5 (or_lang (char_lang 98) (char_lang 99))) as Hg.
  { apply (ma_group _ (codes "b|c") 3 3). apply (ml_or _ (codes "b") 1 1 _ (codes "c") 1 1); [|apply ml_one]; apply ms_conc, Hc, plain_sample; vm_compute; reflexivity. }
  apply ml_one, ms_conc. apply (mc_app _ (codes "a(b|c){2}") 11 11 _ (codes "$") 1 1).
  - apply (mc_app _ (codes "a") 1 1 _ (codes "(b|c){2}") 10 10); [apply Hc, plain_sample; vm_compute; reflexivity|].
    apply (mc_repeat _ (codes "(b|c)") 5 5 _ [] [] (codes "{2}") 2 (Some 2%nat) Hg ops_nil).
    apply (braces_n (codes "2") 2). split_and!; [done|by repeat constructor|done|lia].
  - apply (mc_term _ false (codes "$") 1 1 _ [] []); [apply ma_eol|constructor].
Qed.
