(* ===== verification/Ohash.v ===== *)
(** Open hashing (src.freebsd/compat/ohash.c): a table of records with double
    hashing, deletion marks, and a resize that drops the marks. Records of the
    client are abstract, with the key string they hold; [calloc] may fail. *)

From S2P Require Import Prelude Ctype.

(** What [t[i].p] points to. *)
Inductive cell (P : Type) := NULL | DELETED | Ptr (p : P).
Arguments NULL {P}. Arguments DELETED {P}. Arguments Ptr {P} p.

Record slot_rec (P : Type) := Rec { hv : Z; cellp : cell P }.
Arguments Rec {P}. Arguments hv {P}. Arguments cellp {P}.

Record ohash (P : Type) := OHash { t : list (slot_rec P); size : Z; total : Z; deleted : Z }.
Arguments OHash {P}. Arguments t {P}. Arguments size {P}. Arguments total {P}. Arguments deleted {P}.

Inductive ores (A : Type) :=
| ROk (a : A)
| RFault     (* access out of bounds *)
| RLoop.     (* probing not finished *)
Arguments ROk {A}. Arguments RFault {A}. Arguments RLoop {A}.
#[export] Instance ores_bind : MBind ores := fun A B f x =>
  match x with ROk a => f a | RFault => RFault | RLoop => RLoop end.

Definition MINSIZE : Z := 1 .<< 4.
Definition MINDELETED : Z := 4.
Definition UINT_MAX : Z := 2 ^ 32 - 1.

(** [k = *s++] and [^ *s++] extend the sign of the character. *)
Definition ohash_interval (s : list Z) : Z :=
  match s with
  | [] => 0
  | c :: s => foldl (fun k c => Z.lxor (u32 (k .<< 2) .| (k .>> 30)) (u32 (s8 c))) (u32 (s8 c)) s
  end.

Section Ohash.
Context {P : Type} (keyof : P -> list Z).

(** [strncmp(a, b, n) == 0]. *)
Fixpoint strncmp_eq (n : nat) (a b : list Z) : bool :=
  match n with
  | O => true
  | S n => (hd 0 a =? hd 0 b) && ((hd 0 a =? 0) || strncmp_eq n (tl a) (tl b))
  end.

(** Whether a record has the key [start..end): [None] for a read beyond its string. *)
Definition same_interval (key : list Z) (p : P) : option bool :=
  if strncmp_eq (length key) (keyof p) key then
    if (length key <=? length (keyof p))%nat then Some (nth (length key) (keyof p) 0 =? 0) else None
  else Some false.

(** [memcmp] with the bytes at the key, NUL included. *)
Definition same_memory (key : list Z) (p : P) : option bool :=
  if (length key <=? S (length (keyof p)))%nat then Some (bool_decide (take (length key) (keyof p ++ [0]) = key)) else None.

Definition start_index (hv size : Z) : Z := hv mod size.
Definition increment (hv size : Z) : Z := u32 (((hv mod (size - 2)) .& Z.lnot 1) + 1).
Definition next_index (i incr size : Z) : Z :=
  let i := u32 (i + incr) in if size <=? i then i - size else i.

Definition get (l : list (slot_rec P)) (i : Z) : ores (slot_rec P) :=
  if i <? 0 then RFault else match l !! Z.to_nat i with Some r => ROk r | None => RFault end.
Definition set (l : list (slot_rec P)) (i : Z) (r : slot_rec P) : ores (list (slot_rec P)) :=
  if i <? 0 then RFault else match awrite l (Z.to_nat i) r with Some l => ROk l | None => RFault end.

Definition with_t (l : list (slot_rec P)) (h : ohash P) : ohash P := OHash l (size h) (total h) (deleted h).

(** The loop of a lookup; [NONE] is [size]. *)
Fixpoint lookup_loop (same : P -> option bool) (fuel : nat) (h : ohash P) (hv0 incr empty i : Z) : ores (ohash P * Z) :=
  match fuel with
  | O => RLoop
  | S fuel =>
    r ← get (t h) i;
    match cellp r with
    | NULL =>
      let i := if empty =? size h then i else empty in
      r ← get (t h) i;
      l ← set (t h) i (Rec hv0 (cellp r));
      ROk (with_t l h, i)
    | DELETED =>
      lookup_loop same fuel h hv0 incr (if empty =? size h then i else empty) (next_index i incr (size h))
    | Ptr p =>
      let continue := lookup_loop same fuel h hv0 incr empty (next_index i incr (size h)) in
      if hv r =? hv0 then
        match same p with
        | None => RFault
        | Some false => continue
        | Some true =>
          if empty =? size h then ROk (h, i)
          else
            l ← set (t h) empty (Rec hv0 (Ptr p));
            l ← set l i (Rec (hv r) DELETED);
            ROk (with_t l h, empty)
        end
      else continue
    end
  end.

Definition ohash_lookup (same : P -> option bool) (h : ohash P) (hv0 : Z) : ores (ohash P * Z) :=
  lookup_loop same (S (Z.to_nat (size h))) h hv0 (increment hv0 (size h)) (size h) (start_index hv0 (size h)).
Definition ohash_lookup_interval (h : ohash P) (key : list Z) (hv0 : Z) : ores (ohash P * Z) :=
  ohash_lookup (same_interval key) h hv0.
Definition ohash_lookup_memory (h : ohash P) (key : list Z) (hv0 : Z) : ores (ohash P * Z) :=
  ohash_lookup (same_memory key) h hv0.
Definition ohash_qlookup (h : ohash P) (key : list Z) : ores (ohash P * Z) :=
  ohash_lookup_interval h key (ohash_interval key).

(** Placing one record in the new table. *)
Fixpoint place_loop (fuel : nat) (n : list (slot_rec P)) (ns incr : Z) (r : slot_rec P) (i : Z) : ores (list (slot_rec P)) :=
  match fuel with
  | O => RLoop
  | S fuel =>
    c ← get n i;
    match cellp c with
    | NULL => set n i r
    | _ => place_loop fuel n ns incr r (next_index i incr ns)
    end
  end.

Definition place (ns : Z) (n : list (slot_rec P)) (r : slot_rec P) : ores (list (slot_rec P)) :=
  match cellp r with
  | Ptr _ => place_loop (S (Z.to_nat ns)) n ns (increment (hv r) ns) r (start_index (hv r) ns)
  | _ => ROk n
  end.

Definition new_size (h : ohash P) : Z :=
  let ns :=
    if u32 (4 * deleted h) <? total h then
      if UINT_MAX .>> 1 <=? size h then UINT_MAX else u32 (size h .<< 1)
    else if u32 (2 * total h) <? u32 (3 * deleted h) then size h .>> 1
    else size h in
  if ns <? MINSIZE then MINSIZE else ns.

(** Whether [calloc] gives memory for that many records. *)
Context (calloc_ok : Z -> bool).
Definition fresh (ns : Z) : list (slot_rec P) := replicate (Z.to_nat ns) (Rec 0 NULL).

Definition ohash_resize (h : ohash P) : ores (ohash P) :=
  let ns := new_size h in
  if negb (calloc_ok ns) then ROk h
  else
    n ← foldl (fun n r => n ← n; place ns n r) (ROk (fresh ns)) (t h);
    ROk (OHash n ns (u32 (total h - deleted h)) 0).

Definition ohash_remove (h : ohash P) (i : Z) : ores (ohash P * option P) :=
  r ← get (t h) i;
  match cellp r with
  | Ptr p =>
    l ← set (t h) i (Rec (hv r) DELETED);
    let h := OHash l (size h) (total h) (u32 (deleted h + 1)) in
    h ← (if (MINDELETED <=? deleted h) && (total h <? u32 (4 * deleted h)) then ohash_resize h else ROk h);
    ROk (h, Some p)
  | _ => ROk (h, None)
  end.

Definition ohash_find (h : ohash P) (i : Z) : ores (option P) :=
  r ← get (t h) i;
  ROk (match cellp r with Ptr p => Some p | _ => None end).

Definition ohash_insert (h : ohash P) (i : Z) (p : P) : ores (ohash P) :=
  r ← get (t h) i;
  l ← set (t h) i (Rec (hv r) (Ptr p));
  match cellp r with
  | DELETED => ROk (OHash l (size h) (total h) (u32 (deleted h - 1)))
  | _ =>
    let h := OHash l (size h) (u32 (total h + 1)) (deleted h) in
    if u32 (size h * 3) <? u32 (total h * 4) then ohash_resize h else ROk h
  end.

Definition ohash_entries (h : ohash P) : Z := u32 (total h - deleted h).

(** The record at or behind [pos], and the next position. *)
Fixpoint next_from (l : list (slot_rec P)) (pos : Z) : option P * Z :=
  match l with
  | [] => (None, pos)
  | r :: l => match cellp r with Ptr p => (Some p, pos + 1) | _ => next_from l (pos + 1) end
  end.
Definition ohash_next (h : ohash P) (pos : Z) : option P * Z := next_from (drop (Z.to_nat pos) (t h)) pos.
Definition ohash_first (h : ohash P) : option P * Z := ohash_next h 0.

(** [None] when the table could not be allocated, which is not checked. *)
Definition ohash_init (size : Z) : option (ohash P) :=
  let size := u32 (1 .<< size) in
  let size := if size <? MINSIZE then MINSIZE else size in
  if calloc_ok size then Some (OHash (fresh size) size 0 0) else None.

End Ohash.
