(* ===== verification/OhashProbe.v ===== *)
(** The probe sequence of ohash.c visits every slot of a table whose size is a power
    of two. *)

From Stdlib Require Import Znumtheory Zpow_facts.
From S2P Require Import Prelude Ohash.

Definition table_size (s : Z) : Prop := exists m, 4 <= m <= 30 /\ s = 2 ^ m.

Lemma table_size_bounds s : table_size s -> 16 <= s <= 2 ^ 30.
Proof.
  intros (m & Hm & ->). split; [change 16 with (2 ^ 4)|]; apply Z.pow_le_mono_r; lia.
Qed.

Lemma increment_spec h s : 3 <= s <= 2 ^ 31 ->
  Z.odd (increment h s) = true /\ 1 <= increment h s <= s - 2.
Proof.
  intros Hs. unfold increment. set (e := h mod (s - 2)).
  pose proof (Z.mod_pos_bound h (s - 2) ltac:(lia)) as He. fold e in He.
  assert (e .& Z.lnot 1 = 2 * (e / 2)) as ->.
  { rewrite <- Z.ldiff_land. change 1 with (Z.ones 1). rewrite Z.ldiff_ones_r by lia.
    rewrite Z.shiftl_mul_pow2, Z.shiftr_div_pow2 by lia. change (2 ^ 1) with 2. lia. }
  pose proof (Z.div_mod e 2 ltac:(lia)). pose proof (Z.mod_pos_bound e 2 ltac:(lia)).
  rewrite u32_small by lia. split; [|lia]. rewrite Z.add_comm, Z.odd_add_mul_2. done.
Qed.

Lemma odd_coprime a m : 0 <= m -> Z.odd a = true -> rel_prime a (2 ^ m).
Proof.
  intros Hm Ha. apply rel_prime_Zpower_r; [done|]. apply rel_prime_sym, prime_rel_prime; [exact prime_2|].
  intros [k Hk]. rewrite Hk, Z.odd_mul in Ha. by rewrite andb_false_r in Ha.
Qed.

(** The slot after [n] steps. *)
Definition pos (h s : Z) (n : nat) : Z := (start_index h s + Z.of_nat n * increment h s) mod s.

Lemma pos_range h s n : 0 < s -> 0 <= pos h s n < s.
Proof. intros Hs. apply Z.mod_pos_bound. done. Qed.

Lemma pos_0 h s : 0 < s -> pos h s 0 = start_index h s.
Proof. intros Hs. unfold pos, start_index. rewrite Z.mul_0_l, Z.add_0_r. apply Z.mod_mod. lia. Qed.

Lemma pos_S h s n : table_size s -> next_index (pos h s n) (increment h s) s = pos h s (S n).
Proof.
  intros Hs. pose proof (table_size_bounds s Hs) as Hb. pose proof (pos_range h s n ltac:(lia)) as Hp.
  destruct (increment_spec h s ltac:(lia)) as [_ Hi]. unfold next_index. rewrite u32_small by lia.
  assert (pos h s (S n) = (pos h s n + increment h s) mod s) as ->.
  { unfold pos. generalize (start_index h s). intros st. rewrite Zplus_mod_idemp_l. by rewrite Nat2Z.inj_succ, Z.mul_succ_l, Z.add_assoc. }
  destruct (Z.leb_spec s (pos h s n + increment h s)).
  - apply (Z.mod_unique _ _ 1); lia.
  - symmetry. apply Z.mod_small. lia.
Qed.

Lemma pos_onto h s j : table_size s -> 0 <= j < s -> exists n, (n < Z.to_nat s)%nat /\ pos h s n = j.
Proof.
  intros Hs Hj. pose proof (table_size_bounds s Hs) as Hb. destruct Hs as (m & Hm & Es).
  destruct (increment_spec h s ltac:(lia)) as [Hodd _].
  destruct (rel_prime_bezout _ _ (odd_coprime (increment h s) m ltac:(lia) Hodd)) as [u v Huv]. rewrite <- Es in Huv.
  set (st := start_index h s). exists (Z.to_nat (((j - st) * u) mod s)).
  pose proof (Z.mod_pos_bound ((j - st) * u) s ltac:(lia)) as Hn. split; [lia|].
  unfold pos. fold st. rewrite Z2Nat.id by lia.
  rewrite <- Zplus_mod_idemp_r, Zmult_mod_idemp_l, Zplus_mod_idemp_r.
  assert ((j - st) * (u * increment h s + v * s) = j - st) as Ej by (rewrite Huv; lia).
  replace (st + (j - st) * u * increment h s) with (j + (- (j - st) * v) * s) by lia.
  rewrite Z_mod_plus_full. by apply Z.mod_small.
Qed.
