(* ===== verification/OhashTable.v ===== *)
(** Tables of ohash.c that can be searched: the invariant of the slots, and what a
    lookup and the placing of a record do to it. *)

From S2P Require Import Prelude Ohash OhashProbe.

Section Table.
Context {P : Type} (keyof : P -> list Z) (hash : list Z -> Z).
Notation table := (list (slot_rec P)).

Definition used (r : slot_rec P) : bool := match cellp r with NULL => false | _ => true end.
Definition marked (r : slot_rec P) : bool := match cellp r with DELETED => true | _ => false end.

(** * Counting slots *)

Fixpoint cnt (f : slot_rec P -> bool) (l : table) : Z :=
  match l with [] => 0 | r :: l => (if f r then 1 else 0) + cnt f l end.

Lemma cnt_bounds f l : 0 <= cnt f l <= Z.of_nat (length l).
Proof. induction l as [|r l IH]; cbn [cnt length]; [lia|]. destruct (f r); lia. Qed.

Lemma cnt_insert f l : forall i r r', l !! i = Some r ->
  cnt f (<[i := r']> l) = cnt f l - (if f r then 1 else 0) + (if f r' then 1 else 0).
Proof.
  induction l as [|x l IH]; intros [|i] r r' E; cbn in E; try done.
  - injection E as ->. cbn [cnt]. change (<[0%nat:=r']> (r :: l)) with (r' :: l). cbn [cnt]. lia.
  - change (<[S i:=r']> (x :: l)) with (x :: <[i:=r']> l). cbn [cnt]. rewrite (IH i r r' E). lia.
Qed.

Lemma cnt_free f l : cnt f l < Z.of_nat (length l) -> exists i r, l !! i = Some r /\ f r = false.
Proof.
  induction l as [|r l IH]; cbn [cnt length]; [lia|]. intros Hc. destruct (f r) eqn:E; [|by exists 0%nat, r].
  destruct IH as (i & r' & Hi & Hf); [lia|]. by exists (S i), r'.
Qed.

Lemma cnt_mono f g l : (forall r, f r = true -> g r = true) -> cnt f l <= cnt g l.
Proof.
  intros Hfg. induction l as [|r l IH]; cbn [cnt]; [lia|]. specialize (Hfg r). destruct (f r), (g r); try lia.
Qed.

Lemma get_ok (l : table) i r : 0 <= i -> l !! Z.to_nat i = Some r -> get l i = ROk r.
Proof. intros Hi E. unfold get. rewrite (proj2 (Z.ltb_ge i 0)) by done. by rewrite E. Qed.

Lemma set_ok (l : table) i r : 0 <= i < Z.of_nat (length l) -> set l i r = ROk (<[Z.to_nat i := r]> l).
Proof. intros Hi. unfold set. rewrite (proj2 (Z.ltb_ge i 0)) by lia. by rewrite awrite_Some by lia. Qed.

(** * Searchable tables *)

Definition at_step (h s : Z) (n : nat) : nat := Z.to_nat (pos h s n).

(** The slots before step [n] are used. *)
Definition reach (l : table) (s h : Z) (n : nat) : Prop :=
  forall n', (n' < n)%nat -> exists r, l !! at_step h s n' = Some r /\ used r = true.

Definition holds (l : table) (j : nat) (p : P) : Prop := exists r, l !! j = Some r /\ cellp r = Ptr p.
Definition in_table (l : table) (p : P) : Prop := exists j, holds l j p.

Record wf_table (l : table) (s : Z) : Prop := {
  wf_size : table_size s;
  wf_length : Z.of_nat (length l) = s;
  wf_placed j r p : l !! j = Some r -> cellp r = Ptr p ->
    hv r = hash (keyof p) /\ exists n, at_step (hv r) s n = j /\ reach l s (hv r) n;
  wf_unique j1 j2 p1 p2 : holds l j1 p1 -> holds l j2 p2 -> keyof p1 = keyof p2 -> j1 = j2 }.

Lemma at_step_bound l s h n : wf_table l s -> (at_step h s n < length l)%nat.
Proof.
  intros [Hs Hl _ _]. pose proof (table_size_bounds s Hs). pose proof (pos_range h s n ltac:(lia)). unfold at_step. lia.
Qed.

Lemma reach_mono l l' s h n : reach l s h n ->
  (forall j r, l !! j = Some r -> used r = true -> exists r', l' !! j = Some r' /\ used r' = true) -> reach l' s h n.
Proof. intros Hr Hu n' Hn. destruct (Hr n' Hn) as (r & E & Hur). by apply (Hu _ r). Qed.

(** A change that keeps used slots used, and records in place but at [e]. *)
Lemma wf_change l l' s e : wf_table l s -> length l' = length l ->
  (forall j r, l !! j = Some r -> used r = true -> exists r', l' !! j = Some r' /\ used r' = true) ->
  (forall j r p, j <> e -> l' !! j = Some r -> cellp r = Ptr p -> l !! j = Some r) ->
  (forall r p, l' !! e = Some r -> cellp r = Ptr p -> hv r = hash (keyof p) /\
     (exists n, at_step (hv r) s n = e /\ reach l s (hv r) n) /\
     forall j p', j <> e -> holds l' j p' -> keyof p' <> keyof p) ->
  wf_table l' s.
Proof.
  intros [Hs Hl Hp Hu] Elen Hmono Hold Hnew. split; [done|lia| |].
  - intros j r p E Ep. destruct (decide (j = e)) as [->|Hne].
    + destruct (Hnew r p E Ep) as (Hh & (n & En & Hr) & _). split; [done|]. exists n. split; [done|]. by eapply reach_mono.
    + destruct (Hp j r p (Hold j r p Hne E Ep) Ep) as (Hh & n & En & Hr). split; [done|]. exists n.
      split; [done|]. by eapply reach_mono.
  - assert (forall j1 p1 p2, j1 <> e -> holds l' j1 p1 -> holds l' e p2 -> keyof p1 = keyof p2 -> False) as He.
    { intros j1 p1 p2 Hne H1 (r2 & E2 & Ep2) Hk. destruct (Hnew r2 p2 E2 Ep2) as (_ & _ & Hd). by apply (Hd j1 p1). }
    intros j1 j2 p1 p2 H1 H2 Hk. destruct (decide (j1 = e)) as [->|N1]; destruct (decide (j2 = e)) as [->|N2]; [done|..].
    + exfalso. by eapply (He j2 p2 p1).
    + exfalso. by eapply (He j1 p1 p2).
    + destruct H1 as (r1 & E1 & Ep1), H2 as (r2 & E2 & Ep2). eapply (Hu j1 j2 p1 p2); [| |done].
      * exists r1. split; [by eapply Hold|done].
      * exists r2. split; [by eapply Hold|done].
Qed.

Lemma used_insert (l : table) i r0 r1 : l !! i = Some r0 -> used r1 = used r0 \/ used r1 = true ->
  forall j r, l !! j = Some r -> used r = true -> exists r', <[i := r1]> l !! j = Some r' /\ used r' = true.
Proof.
  intros E Hu j r Ej Hr. apply lookup_lt_Some in E as Hi. destruct (decide (j = i)) as [->|Hne].
  - rewrite list_lookup_insert_eq by done. exists r1. split; [done|]. rewrite E in Ej. injection Ej as <-. destruct Hu; congruence.
  - rewrite list_lookup_insert_ne by done. by exists r.
Qed.

(** Replacing a slot by one without a record. *)
Lemma wf_vacate l s i r0 r1 : wf_table l s -> l !! i = Some r0 -> used r1 = used r0 \/ used r1 = true ->
  (forall p, cellp r1 <> Ptr p) -> wf_table (<[i := r1]> l) s.
Proof.
  intros Hw E Hu Hn. apply lookup_lt_Some in E as Hi. apply (wf_change l _ s i); [done|apply length_insert|by eapply used_insert| |].
  - intros j r p Hne. by rewrite list_lookup_insert_ne.
  - intros r p. rewrite list_lookup_insert_eq by done. intros [= <-] Ep. by destruct (Hn p).
Qed.

(** Putting a record with a new key in a slot its probes reach. *)
Lemma wf_occupy l s i r0 h p n : wf_table l s -> l !! i = Some r0 -> h = hash (keyof p) ->
  at_step h s n = i -> reach l s h n -> (forall p', in_table l p' -> keyof p' <> keyof p) ->
  wf_table (<[i := Rec h (Ptr p)]> l) s.
Proof.
  intros Hw E -> Hn Hr Habs. apply lookup_lt_Some in E as Hi.
  apply (wf_change l _ s i); [done|apply length_insert|eapply used_insert; [done|by right]| |].
  - intros j r p' Hne. by rewrite list_lookup_insert_ne.
  - intros r p'. rewrite list_lookup_insert_eq by done. intros [= <-] [= <-]. split_and!; [done|by exists n|].
    intros j p' Hne (r & Ej & Ep). rewrite list_lookup_insert_ne in Ej by done. apply Habs. by exists j, r.
Qed.

Lemma in_table_insert l i r1 p : (i < length l)%nat ->
  in_table (<[i := r1]> l) p <-> cellp r1 = Ptr p \/ exists j, j <> i /\ holds l j p.
Proof.
  intros Hi. split.
  - intros (j & r & E & Ep). destruct (decide (j = i)) as [->|Hne].
    + rewrite list_lookup_insert_eq in E by done. injection E as <-. by left.
    + rewrite list_lookup_insert_ne in E by done. right. exists j. split; [done|]. by exists r.
  - intros [Ep|(j & Hne & r & E & Ep)].
    + exists i, r1. by rewrite list_lookup_insert_eq.
    + exists j, r. by rewrite list_lookup_insert_ne.
Qed.

(** * Searching *)

Lemma free_step l s h : wf_table l s -> cnt used l < s ->
  exists n r, (n < Z.to_nat s)%nat /\ l !! at_step h s n = Some r /\ cellp r = NULL.
Proof.
  intros [Hs Hl _ _] Hc. destruct (cnt_free used l) as (i & r & E & Hf); [lia|]. apply lookup_lt_Some in E as Hi.
  destruct (pos_onto h s (Z.of_nat i) Hs ltac:(lia)) as (n & Hn & En). exists n, r. split; [done|].
  unfold at_step. rewrite En, Nat2Z.id. split; [done|]. unfold used in Hf. by destruct (cellp r).
Qed.

(** Steps [0..n) hold no record with the key, and no free slot. *)
Definition passed (l : table) (s h : Z) (key : list Z) (n : nat) : Prop :=
  forall n', (n' < n)%nat -> exists r, l !! at_step h s n' = Some r /\ used r = true /\
    forall p, cellp r = Ptr p -> keyof p <> key.

Lemma passed_reach l s h key n : passed l s h key n -> reach l s h n.
Proof. intros Hp n' Hn. destruct (Hp n' Hn) as (r & E & Hu & _). by exists r. Qed.

Lemma passed_S l s h key n r : passed l s h key n -> l !! at_step h s n = Some r -> used r = true ->
  (forall p, cellp r = Ptr p -> keyof p <> key) -> passed l s h key (S n).
Proof.
  intros Hp E Hu Hk n' Hn. destruct (decide (n' = n)) as [->|]; [by exists r|]. apply Hp. lia.
Qed.

(** A key is absent when its probes come to a free slot without it. *)
Lemma absent l s key n r : wf_table l s -> passed l s (hash key) key n ->
  l !! at_step (hash key) s n = Some r -> cellp r = NULL -> forall p, in_table l p -> keyof p <> key.
Proof.
  intros Hw Hp E Hr p (j & rj & Ej & Ep) Hk. destruct (wf_placed _ _ Hw j rj p Ej Ep) as (Hh & n0 & En0 & Hreach).
  rewrite Hh, Hk in *. destruct (lt_eq_lt_dec n n0) as [[Hlt| ->]|Hlt].
  - destruct (Hreach n Hlt) as (r' & E' & Hu). rewrite E in E'. injection E' as <-. unfold used in Hu. by rewrite Hr in Hu.
  - rewrite En0 in E. rewrite Ej in E. injection E as <-. by rewrite Hr in Ep.
  - destruct (Hp n0 Hlt) as (r' & E' & _ & Hd). rewrite En0, Ej in E'. injection E' as <-. by apply (Hd p).
Qed.

(** What a lookup leaves: the slot with the key, or a free one the key may take. *)
Record looked (l : table) (s : Z) (key : list Z) (l' : table) (i : nat) : Prop := {
  lk_wf : wf_table l' s;
  lk_same p : in_table l' p <-> in_table l p;
  lk_used : cnt used l' = cnt used l;
  lk_marked : cnt marked l' = cnt marked l;
  lk_slot : (exists p, holds l' i p /\ keyof p = key) \/
    (exists c n, l' !! i = Some (Rec (hash key) c) /\ (c = NULL \/ c = DELETED) /\ at_step (hash key) s n = i /\
       reach l' s (hash key) n /\ forall p, in_table l p -> keyof p <> key) }.

Lemma looked_free l s key i n r : wf_table l s -> l !! i = Some r -> (cellp r = NULL \/ cellp r = DELETED) ->
  at_step (hash key) s n = i -> reach l s (hash key) n -> (forall p, in_table l p -> keyof p <> key) ->
  looked l s key (<[i := Rec (hash key) (cellp r)]> l) i.
Proof.
  intros Hw E Hc Hn Hr Habs. apply lookup_lt_Some in E as Hi. set (r1 := Rec (hash key) (cellp r)).
  assert (used r1 = used r) as Hu by done. assert (marked r1 = marked r) as Hm by done.
  assert (forall p, cellp r1 <> Ptr p) as Hnp by (intros p; cbn; destruct Hc; congruence).
  split.
  - by eapply wf_vacate; [| |left|].
  - intros p. rewrite in_table_insert by done. split.
    + intros [Ep|(j & _ & Hj)]; [by destruct (Hnp p)|by exists j].
    + intros (j & rj & Ej & Ep). right. exists j. split; [|by exists rj]. intros ->. rewrite E in Ej. injection Ej as <-. by destruct (Hnp p).
  - rewrite (cnt_insert used l i r r1 E), Hu. lia.
  - rewrite (cnt_insert marked l i r r1 E), Hm. lia.
  - right. exists (cellp r), n. split_and!; [by rewrite list_lookup_insert_eq|done|done| |done].
    eapply reach_mono; [done|]. eapply used_insert; [done|by left].
Qed.

(** Moving the record found to the first mark on its path. *)
Lemma looked_move l s key i e ne re ri p : wf_table l s -> l !! i = Some ri -> cellp ri = Ptr p -> keyof p = key ->
  l !! e = Some re -> cellp re = DELETED -> at_step (hash key) s ne = e -> reach l s (hash key) ne ->
  looked l s key (<[i := Rec (hv ri) DELETED]> (<[e := Rec (hash key) (Ptr p)]> l)) e.
Proof.
  intros Hw Ei Epi Hk Ee Ede Hne Hr. apply lookup_lt_Some in Ei as Hi. apply lookup_lt_Some in Ee as He.
  assert (i <> e) as Hie by (intros ->; rewrite Ei in Ee; injection Ee as <-; congruence).
  set (l1 := <[e := Rec (hash key) (Ptr p)]> l). assert (l1 !! i = Some ri) as E1i by (unfold l1; by rewrite list_lookup_insert_ne).
  set (l2 := <[i := Rec (hv ri) DELETED]> l1).
  assert (forall j, l2 !! j = if decide (j = i) then Some (Rec (hv ri) DELETED)
    else if decide (j = e) then Some (Rec (hash key) (Ptr p)) else l !! j) as E2.
  { intros j. unfold l2, l1. destruct (decide (j = i)) as [->|N1].
    - apply list_lookup_insert_eq. by rewrite length_insert.
    - rewrite list_lookup_insert_ne by done. destruct (decide (j = e)) as [->|N2].
      + by apply list_lookup_insert_eq.
      + by apply list_lookup_insert_ne. }
  assert (holds l i p) as Hip by by exists ri.
  assert (forall j r, l !! j = Some r -> used r = true -> exists r', l2 !! j = Some r' /\ used r' = true) as Hmono.
  { intros j r Ej Hu. rewrite E2. repeat case_decide; [by eexists|by eexists|by exists r]. }
  split.
  - apply (wf_change l l2 s e); [done|unfold l2, l1; by rewrite !length_insert|done| |].
    + intros j r p' Hj. rewrite E2. repeat case_decide; try done. by intros [= <-].
    + intros r p'. rewrite E2. rewrite decide_False, decide_True by done. intros [= <-] [= <-]. cbn. split_and!; [by rewrite Hk|by exists ne|].
      intros j p' Hj (r & Ej & Ep). rewrite E2 in Ej. destruct (decide (j = i)) as [->|N]; [by injection Ej as <-|].
      rewrite decide_False in Ej by done. intros Hk'. apply N. by eapply (wf_unique _ _ Hw); [exists r| |exact Hk'].
  - intros p'. split.
    + intros (j & r & Ej & Ep). rewrite E2 in Ej. repeat case_decide; simplify_eq/=; [by exists i|by exists j, r].
    + intros (j & r & Ej & Ep). destruct (decide (j = i)) as [->|N].
      * assert (p' = p) as -> by congruence. exists e, (Rec (hash key) (Ptr p)). rewrite E2, decide_False, decide_True; done.
      * exists j, r. rewrite E2, !decide_False; [done|congruence|done].
  - unfold l2. rewrite (cnt_insert used l1 i ri _ E1i). unfold l1. rewrite (cnt_insert used l e re _ Ee).
    unfold used at 2 4. rewrite Epi, Ede. cbn. lia.
  - unfold l2. rewrite (cnt_insert marked l1 i ri _ E1i). unfold l1. rewrite (cnt_insert marked l e re _ Ee).
    unfold marked at 2 4. rewrite Epi, Ede. cbn. lia.
  - left. exists p. split; [|done]. exists (Rec (hash key) (Ptr p)). rewrite E2, decide_False, decide_True; done.
Qed.

Lemma looked_hit l s key i p : wf_table l s -> holds l i p -> keyof p = key -> looked l s key l i.
Proof. intros Hw Hi Hk. split; try done. left. by exists p. Qed.

(** * The loop of a lookup *)

Definition mark_seen (l : table) (s h : Z) (n : nat) (empty : Z) : Prop :=
  empty = s \/ 0 <= empty < s /\ exists ne r, (ne < n)%nat /\ at_step h s ne = Z.to_nat empty /\
    l !! Z.to_nat empty = Some r /\ cellp r = DELETED.

Lemma lookup_loop_spec same key h0 l s fuel : wf_table l s -> t h0 = l -> size h0 = s ->
  (forall p, in_table l p -> same p = Some (bool_decide (keyof p = key))) ->
  forall n empty n0 r0, passed l s (hash key) key n -> mark_seen l s (hash key) n empty ->
    (n0 < n + fuel)%nat -> l !! at_step (hash key) s n0 = Some r0 -> cellp r0 = NULL ->
    exists l' i, lookup_loop same fuel h0 (hash key) (increment (hash key) s) empty (pos (hash key) s n) =
      ROk (with_t l' h0, i) /\ 0 <= i /\ looked l s key l' (Z.to_nat i).
Proof.
  intros Hw Et Es Hsame. pose proof (wf_size _ _ Hw) as Hts. pose proof (table_size_bounds s Hts) as Hb.
  pose proof (wf_length _ _ Hw) as Hlen. induction fuel as [|fuel IH]; intros n empty n0 r0 Hp Hm Hn0 E0 Hr0.
  { destruct (Hp n0) as (r & E & Hu & _); [lia|]. rewrite E0 in E. injection E as <-. unfold used in Hu. by rewrite Hr0 in Hu. }
  cbn [lookup_loop]. rewrite Et, Es.
  pose proof (pos_range (hash key) s n ltac:(lia)) as Hpos.
  destruct (lookup_lt_is_Some_2 l (at_step (hash key) s n)) as [r E]; [by eapply at_step_bound|].
  rewrite (get_ok l (pos (hash key) s n) r (proj1 Hpos) E). cbn [mbind ores_bind].
  assert (forall empty', mark_seen l s (hash key) (S n) empty' -> used r = true ->
    (forall p, cellp r = Ptr p -> keyof p <> key) ->
    exists l' i, lookup_loop same fuel h0 (hash key) (increment (hash key) s) empty'
      (next_index (pos (hash key) s n) (increment (hash key) s) s) = ROk (with_t l' h0, i) /\ 0 <= i /\ looked l s key l' (Z.to_nat i)) as Hcont.
  { intros empty' Hm' Hu Hk. rewrite pos_S by done. apply (IH (S n) empty' n0 r0); try done; [by eapply passed_S|lia]. }
  assert (mark_seen l s (hash key) (S n) empty) as HmS.
  { destruct Hm as [->|(He & ne & re & ? & ? & ? & ?)]; [by left|right]. split; [done|]. exists ne, re. split_and!; try done. lia. }
  assert (forall ne, (ne < n)%nat -> reach l s (hash key) ne) as Hreach.
  { intros ne Hne n' Hn'. apply (passed_reach _ _ _ _ _ Hp). lia. }
  destruct (cellp r) as [| |p] eqn:Er.
  - assert (forall p, in_table l p -> keyof p <> key) as Habs by by eapply absent.
    destruct (Z.eqb_spec empty s) as [->|Hne].
    + rewrite (get_ok l (pos (hash key) s n) r (proj1 Hpos) E). cbn [mbind ores_bind]. rewrite set_ok by lia. cbn [mbind ores_bind].
      eexists _, _. split_and!; [reflexivity|lia|]. eapply (looked_free l s key _ n r); try done; [by left|].
      by eapply passed_reach.
    + destruct Hm as [?|(He & ne & re & Hne' & Ene & Ee & Ede)]; [done|].
      rewrite (get_ok l empty re (proj1 He) Ee). cbn [mbind ores_bind]. rewrite set_ok by lia. cbn [mbind ores_bind].
      eexists _, _. split_and!; [reflexivity|lia|]. eapply (looked_free l s key _ ne re); try done; [by right|]. by apply Hreach.
  - apply Hcont; [|unfold used; by rewrite Er|done]. destruct (Z.eqb_spec empty s) as [->|Hne]; [|done].
    right. split; [done|]. exists n, r. split_and!; try done. lia.
  - assert (used r = true) as Hu by (unfold used; by rewrite Er).
    destruct (wf_placed _ _ Hw _ r p E Er) as (Hh & _).
    destruct (Z.eqb_spec (hv r) (hash key)) as [Ehv|Ehv].
    2:{ apply Hcont; [done|done|]. intros p' [= <-] Hk. apply Ehv. by rewrite Hh, Hk. }
    rewrite Hsame by by exists (at_step (hash key) s n), r.
    destruct (bool_decide_reflect (keyof p = key)) as [Hk|Hk].
    2:{ apply Hcont; [done|done|]. by intros p' [= <-]. }
    destruct (Z.eqb_spec empty s) as [->|Hne].
    + exists l, (pos (hash key) s n). split_and!; [f_equal; f_equal; destruct h0; cbn in *; by subst|lia|].
      apply (looked_hit l s key _ p); [done|by exists r|done].
    + destruct Hm as [?|(He & ne & re & Hne' & Ene & Ee & Ede)]; [done|].
      rewrite set_ok by lia. cbn [mbind ores_bind]. rewrite set_ok by (rewrite length_insert; lia). cbn [mbind ores_bind].
      eexists _, _. split_and!; [reflexivity|lia|]. eapply (looked_move l s key _ _ ne re r p); try done. by apply Hreach.
Qed.

End Table.
