(* ===== verification/OhashMap.v ===== *)
(** ohash.c is a finite map: every sequence of searches, insertions and removals
    answers like a map from keys to records, through deletions and resizes. *)

From stdpp Require Import gmap.
From S2P Require Import Prelude Ctype Ohash OhashProbe OhashTable.

(** * The new table of a resize *)

Section Resize.
Context {P : Type} (keyof : P -> list Z) (hash : list Z -> Z).
Notation table := (list (slot_rec P)).
Notation wf_table := (wf_table keyof hash).

Lemma fresh_lookup s i (r : slot_rec P) : fresh s !! i = Some r -> r = Rec 0 NULL.
Proof. unfold fresh. by intros [-> _]%lookup_replicate. Qed.

Lemma fresh_cnt s f : f (Rec 0 NULL) = false -> cnt f (fresh (P := P) s) = 0.
Proof. intros Hf. unfold fresh. induction (Z.to_nat s) as [|n IH]; cbn [replicate cnt]; [done|]. by rewrite Hf, IH. Qed.

Lemma fresh_wf s : table_size s -> wf_table (fresh s) s.
Proof.
  intros Hs. pose proof (table_size_bounds s Hs). split; [done|unfold fresh; rewrite length_replicate; lia| |].
  - intros j r p ->%fresh_lookup. done.
  - intros j1 j2 p1 p2 (r & ->%fresh_lookup & Ep) _ _. done.
Qed.

Lemma fresh_empty s p : ~ in_table (fresh (P := P) s) p.
Proof. intros (j & r & ->%fresh_lookup & Ep). done. Qed.

Lemma place_loop_spec (l : table) s r p fuel : wf_table l s -> cellp r = Ptr p -> hv r = hash (keyof p) ->
  forall n n0 r0, reach l s (hv r) n -> (n0 < n + fuel)%nat -> l !! at_step (hv r) s n0 = Some r0 -> cellp r0 = NULL ->
  exists k rk, place_loop fuel l s (increment (hv r) s) r (pos (hv r) s n) = ROk (<[at_step (hv r) s k := r]> l) /\
    l !! at_step (hv r) s k = Some rk /\ cellp rk = NULL /\ reach l s (hv r) k.
Proof.
  intros Hw Hp Hh. pose proof (wf_size _ _ _ _ Hw) as Hts. pose proof (table_size_bounds s Hts) as Hb.
  pose proof (wf_length _ _ _ _ Hw) as Hlen. induction fuel as [|fuel IH]; intros n n0 r0 Hr Hn0 E0 Hr0.
  { destruct (Hr n0) as (r' & E & Hu); [lia|]. rewrite E0 in E. injection E as <-. unfold used in Hu. by rewrite Hr0 in Hu. }
  cbn [place_loop]. pose proof (pos_range (hv r) s n ltac:(lia)) as Hpos.
  destruct (lookup_lt_is_Some_2 l (at_step (hv r) s n)) as [c E]; [by eapply at_step_bound|].
  rewrite (get_ok l (pos (hv r) s n) c (proj1 Hpos) E). cbn [mbind ores_bind].
  assert (used c = true -> exists k rk, place_loop fuel l s (increment (hv r) s) r (next_index (pos (hv r) s n) (increment (hv r) s) s) =
    ROk (<[at_step (hv r) s k := r]> l) /\ l !! at_step (hv r) s k = Some rk /\ cellp rk = NULL /\ reach l s (hv r) k) as Hcont.
  { intros Hu. rewrite pos_S by done. apply (IH (S n) n0 r0); [|lia|done|done]. intros n' Hn'.
    destruct (decide (n' = n)) as [->|]; [by exists c|]. apply Hr. lia. }
  destruct (cellp c) eqn:Ec; [|apply Hcont; unfold used; by rewrite Ec..].
  exists n, c. split_and!; try done. apply set_ok. lia.
Qed.

Lemma place_spec (l : table) s r p : wf_table l s -> cnt used l < s -> cellp r = Ptr p -> hv r = hash (keyof p) ->
  (forall q, in_table l q -> keyof q <> keyof p) ->
  exists l', place s l r = ROk l' /\ wf_table l' s /\ cnt used l' = cnt used l + 1 /\ cnt marked l' = cnt marked l /\
    forall q, in_table l' q <-> q = p \/ in_table l q.
Proof.
  intros Hw Hc Hp Hh Habs. pose proof (table_size_bounds s (wf_size _ _ _ _ Hw)) as Hb.
  destruct (free_step keyof hash l s (hv r) Hw Hc) as (n0 & r0 & Hn0 & E0 & Hr0).
  unfold place. rewrite Hp, <- pos_0 by lia.
  destruct (place_loop_spec l s r p (S (Z.to_nat s)) Hw Hp Hh 0 n0 r0) as (k & rk & E & Ek & Hrk & Hreach); [by intros n' ?; lia|lia|done|done|].
  rewrite E. eexists. split; [reflexivity|]. assert (r = Rec (hv r) (Ptr p)) as Er by (destruct r; cbn in *; by subst).
  apply lookup_lt_Some in Ek as Hlk. split_and!.
  - rewrite Er at 2. by eapply wf_occupy.
  - rewrite (cnt_insert used l _ rk r Ek). unfold used at 2 3. rewrite Hrk, Hp. lia.
  - rewrite (cnt_insert marked l _ rk r Ek). unfold marked at 2 3. rewrite Hrk, Hp. lia.
  - intros q. rewrite in_table_insert, Hp by done. split.
    + intros [[= ->]|(j & _ & Hj)]; [by left|right; by exists j].
    + intros [->|(j & rj & Ej & Ep)]; [by left|]. right. exists j. split; [|by exists rj]. intros ->.
      rewrite Ek in Ej. injection Ej as <-. congruence.
Qed.

Definition is_ptr (r : slot_rec P) : bool := match cellp r with Ptr _ => true | _ => false end.

Lemma cnt_split (l : table) : cnt used l = cnt is_ptr l + cnt marked l.
Proof.
  induction l as [|r l IH]; cbn [cnt]; [done|]. rewrite IH. unfold used, is_ptr, marked. destruct (cellp r); lia.
Qed.

(** All records of a slot list are placed. *)
Lemma place_all (rs : table) s : forall l,
  wf_table l s -> cnt used l + cnt is_ptr rs < s ->
  (forall i r p, rs !! i = Some r -> cellp r = Ptr p -> hv r = hash (keyof p)) ->
  (forall i p q, holds rs i p -> in_table l q -> keyof q <> keyof p) ->
  (forall i j p q, holds rs i p -> holds rs j q -> keyof p = keyof q -> i = j) ->
  exists l', foldl (fun n r => n ← n; place s n r) (ROk l) rs = ROk l' /\ wf_table l' s /\
    cnt used l' = cnt used l + cnt is_ptr rs /\ cnt marked l' = cnt marked l /\
    forall q, in_table l' q <-> in_table rs q \/ in_table l q.
Proof.
  induction rs as [|r rs IH]; intros l Hw Hc Hhv Hnew Huniq; cbn [foldl cnt] in *.
  { exists l. split_and!; [done|done|lia|done|]. intros q. split; [by right|]. intros [(j & r & E & _)|?]; [|done].
    by rewrite lookup_nil in E. }
  pose proof (proj1 (cnt_bounds is_ptr rs)).
  assert (forall i p, holds rs i p -> holds (r :: rs) (S i) p) as HS by done.
  cbn [mbind ores_bind]. destruct (cellp r) as [| |p] eqn:Er.
  1,2: assert (place s l r = ROk l) as -> by (unfold place; by rewrite Er);
    assert (is_ptr r = false) as Hr0 by (unfold is_ptr; by rewrite Er); rewrite Hr0 in *;
    destruct (IH l Hw ltac:(lia)) as (l' & E & Hw' & Hu & Hm & Hin);
      [by intros i; apply (Hhv (S i))|by intros i; apply (Hnew (S i))|
       intros i j p q Hi Hj Hk; by specialize (Huniq (S i) (S j) p q Hi Hj Hk) as [= ->]|];
    exists l'; split_and!; [done|done|lia|done|]; intros q; rewrite Hin;
    (split; [intros [(j & Hj)|?]; [left; by exists (S j)|by right]|
             intros [([|j] & rj & Ej & Ep)|?]; [injection Ej as <-; congruence|left; by exists j, rj|by right]]).
  assert (is_ptr r = true) as Hr1 by (unfold is_ptr; by rewrite Er). rewrite Hr1 in *.
  assert (holds (r :: rs) 0 p) as H0 by by exists r.
  destruct (place_spec l s r p Hw ltac:(lia) Er (Hhv 0%nat r p eq_refl Er)) as (l1 & E1 & Hw1 & Hu1 & Hm1 & Hin1).
  { intros q Hq. by eapply (Hnew 0%nat). }
  rewrite E1. destruct (IH l1 Hw1 ltac:(lia)) as (l' & E & Hw' & Hu & Hm & Hin).
  - intros i. apply (Hhv (S i)).
  - intros i p' q Hi [->|Hq]%Hin1; [|by eapply (Hnew (S i))]. intros Hk. by specialize (Huniq 0%nat (S i) p p' H0 Hi Hk).
  - intros i j p1 p2 Hi Hj Hk. by specialize (Huniq (S i) (S j) p1 p2 Hi Hj Hk) as [= ->].
  - exists l'. split_and!; [done|done|lia|lia|]. intros q. rewrite Hin, Hin1. split.
    + intros [(j & Hj)|[->|?]]; [left; by exists (S j)|left; by exists 0%nat|by right].
    + intros [([|j] & rj & Ej & Ep)|?]; [injection Ej as <-; right; left; congruence|left; by exists j, rj|by right; right].
Qed.

(** * The table as a map *)

Definition represents (l : table) (m : gmap (list Z) P) : Prop :=
  forall k p, m !! k = Some p <-> keyof p = k /\ in_table l p.

(** At most three quarters of the slots are used. *)
Record map_inv (h : ohash P) (m : gmap (list Z) P) : Prop := {
  mi_wf : wf_table (t h) (size h);
  mi_total : total h = cnt used (t h);
  mi_deleted : deleted h = cnt marked (t h);
  mi_load : total h * 4 <= size h * 3;
  mi_map : represents (t h) m;
  mi_entries : total h - deleted h = Z.of_nat (base.size m) }.

Lemma half_size s : table_size s -> 32 <= s -> table_size (s .>> 1) /\ s .>> 1 = s / 2.
Proof.
  intros (m & Hm & ->) Hs. rewrite Z.shiftr_div_pow2 by lia. change (2 ^ 1) with 2. split; [|done].
  exists (m - 1). assert (4 < m) as H4.
  { destruct (Z.lt_ge_cases 4 m); [done|]. pose proof (Z.pow_le_mono_r 2 m 4 ltac:(lia) ltac:(lia)). change (2 ^ 4) with 16 in *. lia. }
  split; [lia|]. by rewrite Z.pow_sub_r by lia.
Qed.

Lemma twice_size s : table_size s -> s < 2 ^ 30 -> table_size (u32 (s .<< 1)) /\ u32 (s .<< 1) = 2 * s.
Proof.
  intros (m & Hm & ->) Hs. rewrite Z.shiftl_mul_pow2 by lia. change (2 ^ 1) with 2.
  apply Z.pow_lt_mono_r_iff in Hs; [|lia..]. pose proof (Z.pow_lt_mono_r 2 m 30 ltac:(lia) ltac:(lia) Hs) as Hlt.
  assert (0 < 2 ^ m) by (apply Z.pow_pos_nonneg; lia). change (2 ^ 30) with 1073741824 in *.
  rewrite u32_small by lia. split; [|lia]. exists (m + 1). split; [lia|]. rewrite Z.pow_add_r by lia. lia.
Qed.

(** The size chosen, for a table that is not too large, holds the entries with room. *)
Lemma new_size_spec (h : ohash P) : table_size (size h) -> 0 <= deleted h <= total h -> total h <= size h ->
  total h * 4 <= size h * 3 + 4 -> total h - deleted h <= 2 ^ 28 ->
  (size h * 3 < total h * 4 \/ total h < 4 * deleted h) ->
  table_size (new_size h) /\ (total h - deleted h) * 4 <= new_size h * 3.
Proof.
  intros Hs Hd Ht Hl He Hwhy. pose proof (table_size_bounds _ Hs) as Hb. unfold new_size.
  change (2 ^ 28) with 268435456 in *. change (2 ^ 30) with 1073741824 in *.
  rewrite !(u32_small (4 * _)), !(u32_small (2 * _)), !(u32_small (3 * _)) by lia.
  change MINSIZE with 16. change (UINT_MAX .>> 1) with 2147483647.
  destruct (Z.ltb_spec (4 * deleted h) (total h)) as [H1|H1].
  - rewrite (proj2 (Z.leb_gt _ _)) by lia. destruct (twice_size (size h) Hs) as [Ht2 ->]; [change (2 ^ 30) with 1073741824; lia|].
    rewrite (proj2 (Z.ltb_ge _ _)) by lia. split; [|lia].
    destruct (twice_size (size h) Hs) as [Ht3 <-]; [change (2 ^ 30) with 1073741824; lia|]. done.
  - destruct (Z.ltb_spec (2 * total h) (3 * deleted h)) as [H2|H2].
    + destruct (Z.lt_ge_cases (size h) 32) as [H3|H3].
      * assert (size h .>> 1 <? 16 = true) as ->.
        { apply Z.ltb_lt. rewrite Z.shiftr_div_pow2 by lia. apply Z.div_lt_upper_bound; change (2 ^ 1) with 2; lia. }
        split; [exists 4; split; [lia|done]|lia].
      * destruct (half_size (size h) Hs H3) as [Hh Eh]. pose proof (table_size_bounds _ Hh).
        rewrite (proj2 (Z.ltb_ge _ _)) by lia. split; [done|]. rewrite Eh in *.
        pose proof (Z.div_mod (size h) 2 ltac:(lia)). pose proof (Z.mod_pos_bound (size h) 2 ltac:(lia)). lia.
    + rewrite (proj2 (Z.ltb_ge _ _)) by lia. split; [done|]. lia.
Qed.

Lemma resize_inv calloc_ok h m : (forall n, n <= 2 ^ 30 -> calloc_ok n = true) ->
  wf_table (t h) (size h) -> total h = cnt used (t h) -> deleted h = cnt marked (t h) -> total h * 4 <= size h * 3 + 4 ->
  represents (t h) m -> total h - deleted h = Z.of_nat (base.size m) -> total h - deleted h <= 2 ^ 28 ->
  (size h * 3 < total h * 4 \/ total h < 4 * deleted h) ->
  exists h', ohash_resize calloc_ok h = ROk h' /\ map_inv h' m.
Proof.
  intros Hcalloc Hw Ht Hd Hl Hm He Hsmall Hwhy.
  pose proof (cnt_split (t h)) as Hsplit. pose proof (cnt_bounds marked (t h)) as Hbm. pose proof (cnt_bounds is_ptr (t h)) as Hbp.
  pose proof (cnt_bounds used (t h)) as Hbu. pose proof (wf_length _ _ _ _ Hw) as Hlen.
  destruct (new_size_spec h (wf_size _ _ _ _ Hw)) as [Hns Hfit]; [lia|lia|lia|done|done|].
  pose proof (table_size_bounds _ Hns) as Hnb. pose proof (table_size_bounds _ (wf_size _ _ _ _ Hw)) as Hsb. unfold ohash_resize. rewrite Hcalloc by lia. cbn [negb].
  destruct (place_all (t h) (new_size h) (fresh (new_size h))) as (l' & E & Hw' & Hu & Hmk & Hin).
  - by apply fresh_wf.
  - rewrite fresh_cnt by done. lia.
  - intros i r p Er Ep. by destruct (wf_placed _ _ _ _ Hw i r p Er Ep).
  - intros i p q _ Hq. by apply fresh_empty in Hq.
  - intros i j p q Hi Hj. by apply (wf_unique _ _ _ _ Hw i j p q).
  - rewrite E. cbn [mbind ores_bind]. eexists. split; [reflexivity|].
    rewrite fresh_cnt in Hu, Hmk by done. change (2 ^ 30) with 1073741824 in *.
    assert (u32 (total h - deleted h) = total h - deleted h) as -> by (apply u32_small; lia).
    split; cbn [t size total deleted]; [done|lia|done|done| |lia].
    intros k p. rewrite (Hm k p), Hin. split; [intros [? ?]; split; [done|by left]|].
    intros [? [?|Hq]]; [done|by apply fresh_empty in Hq].
Qed.

End Resize.

(** * Operations *)

Definition key_ok (k : list Z) : Prop := Forall (fun c => c <> 0) k.

Lemma strncmp_eq_prefix b : key_ok b -> forall a, key_ok a ->
  strncmp_eq (length b) a b = true <-> b `prefix_of` a.
Proof.
  induction 1 as [|c b Hc Hb IH]; intros a Ha; cbn [length strncmp_eq].
  - split; [intros _; by exists a|done].
  - destruct a as [|x a]; cbn [hd tl].
    + rewrite (proj2 (Z.eqb_neq 0 c)) by done. split; [done|]. by intros [r Hr].
    + apply Forall_cons in Ha as [Hx Ha]. rewrite (proj2 (Z.eqb_neq x 0)) by done. cbn [orb].
      rewrite andb_true_iff, Z.eqb_eq, (IH a Ha). split.
      * intros [-> Hp]. by apply prefix_cons.
      * intros [r [= -> ->]]. split; [done|]. by exists r.
Qed.

Lemma same_interval_spec {P} (keyof : P -> list Z) key p : key_ok (keyof p) -> key_ok key ->
  same_interval keyof key p = Some (bool_decide (keyof p = key)).
Proof.
  intros Hp Hk. unfold same_interval. pose proof (strncmp_eq_prefix key Hk (keyof p) Hp) as Hpre.
  destruct (strncmp_eq (length key) (keyof p) key).
  - destruct (proj1 Hpre eq_refl) as [r Hr]. rewrite Hr in *. rewrite length_app, (proj2 (Nat.leb_le _ _)) by lia.
    f_equal. rewrite app_nth2 by lia. rewrite Nat.sub_diag. destruct r as [|x r]; cbn [nth].
    + rewrite app_nil_r. by rewrite bool_decide_true.
    + apply Forall_app in Hp as [_ Hx]. rewrite (proj2 (Z.eqb_neq x 0)) by exact (Forall_inv Hx).
      rewrite bool_decide_false; [done|]. intros E. apply (f_equal length) in E. rewrite length_app in E. cbn in E. lia.
  - rewrite bool_decide_false; [done|]. intros E. rewrite E in Hpre. specialize (proj2 Hpre (reflexivity key)). done.
Qed.

Section Map.
Context {P : Type} (keyof : P -> list Z) (calloc_ok : Z -> bool).
Context (Hcalloc : forall n, n <= 2 ^ 30 -> calloc_ok n = true) (Hkeys : forall p, key_ok (keyof p)).
Notation map_inv := (map_inv keyof ohash_interval).
Notation looked := (looked keyof ohash_interval).
Notation wf_table := (wf_table keyof ohash_interval).

Lemma lookup_spec h m key : map_inv h m -> key_ok key ->
  exists l' i, ohash_qlookup keyof h key = ROk (with_t l' h, i) /\ 0 <= i /\ looked (t h) (size h) key l' (Z.to_nat i) /\
    map_inv (with_t l' h) m.
Proof.
  intros [Hw Ht Hd Hl Hm He] Hk. pose proof (table_size_bounds _ (wf_size _ _ _ _ Hw)) as Hb.
  pose proof (wf_length _ _ _ _ Hw) as Hlen. pose proof (cnt_bounds used (t h)).
  destruct (free_step keyof ohash_interval (t h) (size h) (ohash_interval key) Hw ltac:(lia)) as (n0 & r0 & Hn0 & E0 & Hr0).
  unfold ohash_qlookup, ohash_lookup_interval, ohash_lookup. rewrite <- pos_0 by lia.
  destruct (lookup_loop_spec keyof ohash_interval (same_interval keyof key) key h (t h) (size h) (S (Z.to_nat (size h))) Hw eq_refl eq_refl)
    with (n := 0%nat) (empty := size h) (n0 := n0) (r0 := r0) as (l' & i & E & Hi & Hlk);
    [intros p _; by apply same_interval_spec|by intros n' ?; lia|by left|lia|done|done|].
  exists l', i. split_and!; try done. destruct Hlk as [Hw' Hs Hu Hmk _].
  split; cbn [t size total deleted with_t]; [done|lia|lia|done| |done].
  intros k p. by rewrite (Hm k p), Hs.
Qed.

Lemma find_spec l s key m l' h i : looked l s key l' (Z.to_nat i) -> represents keyof l m -> 0 <= i -> t h = l' ->
  ohash_find h i = ROk (m !! key) /\ (m !! key = None ->
    exists c n, l' !! Z.to_nat i = Some (Rec (ohash_interval key) c) /\ (c = NULL \/ c = DELETED) /\
      at_step (ohash_interval key) s n = Z.to_nat i /\ reach l' s (ohash_interval key) n) /\
  (forall p, m !! key = Some p -> holds l' (Z.to_nat i) p).
Proof.
  intros [Hw' Hs _ _ Hslot] Hm Hi Et. unfold ohash_find. rewrite Et.
  destruct Hslot as [(p & (r & E & Ep) & Hk)|(c & n & E & Hc & Hn & Hr & Habs)].
  - assert (m !! key = Some p) as Em by (apply Hm; split; [done|]; apply Hs; exists (Z.to_nat i), r; done).
    rewrite (get_ok l' i r Hi E). cbn. rewrite Ep, Em. split_and!; [done|done|]. intros p' [= <-]. by exists r.
  - assert (m !! key = None) as Em.
    { destruct (m !! key) as [p|] eqn:Ep; [|done]. apply Hm in Ep as [Hk Hin]. by destruct (Habs p Hin). }
    rewrite (get_ok l' i _ Hi E). cbn. rewrite Em. split_and!; [by destruct Hc as [-> | ->]|by exists c, n|done].
Qed.

Lemma represents_insert l m i r0 h p : represents keyof l m -> l !! i = Some r0 -> (forall q, cellp r0 <> Ptr q) ->
  m !! keyof p = None -> represents keyof (<[i := Rec h (Ptr p)]> l) (<[keyof p := p]> m).
Proof.
  intros Hm E Hn Habs k q. apply lookup_lt_Some in E as Hi. rewrite in_table_insert by done.
  rewrite lookup_insert_Some, (Hm k q). split.
  - intros [[<- <-]|[Hne [Hk (j & rj & Ej & Ep)]]]; [split; [done|by left]|]. split; [done|]. right. exists j. split; [|by exists rj].
    intros ->. rewrite E in Ej. injection Ej as <-. by destruct (Hn q).
  - intros [Hk [[= <-]|(j & Hne & Hj)]]; [by left|]. assert (in_table l q) as Hq by by exists j.
    right. split; [|done]. intros Ek. assert (m !! keyof p = Some q) as Eq by (apply Hm; split; [congruence|done]). congruence.
Qed.

Lemma insert_spec h m i p c n : map_inv h m -> 0 <= i -> t h !! Z.to_nat i = Some (Rec (ohash_interval (keyof p)) c) ->
  (c = NULL \/ c = DELETED) -> at_step (ohash_interval (keyof p)) (size h) n = Z.to_nat i ->
  reach (t h) (size h) (ohash_interval (keyof p)) n -> m !! keyof p = None -> total h - deleted h < 2 ^ 28 ->
  exists h', ohash_insert calloc_ok h i p = ROk h' /\ map_inv h' (<[keyof p := p]> m).
Proof.
  intros [Hw Ht Hd Hl Hm He] Hi E Hc Hn Hr Habs Hsmall. pose proof (table_size_bounds _ (wf_size _ _ _ _ Hw)) as Hb.
  pose proof (wf_length _ _ _ _ Hw) as Hlen. pose proof (cnt_bounds used (t h)). pose proof (cnt_bounds marked (t h)).
  pose proof (cnt_split (t h)) as Hsplit. pose proof (cnt_bounds is_ptr (t h)). change (2 ^ 30) with 1073741824 in *. change (2 ^ 28) with 268435456 in *.
  apply lookup_lt_Some in E as Hlt. set (r1 := Rec (ohash_interval (keyof p)) (Ptr p)).
  assert (wf_table (<[Z.to_nat i := r1]> (t h)) (size h)) as Hw'.
  { eapply wf_occupy; [done|done|done|done|done|]. intros q Hq Hk.
    assert (m !! keyof p = Some q) by (by apply Hm). congruence. }
  assert (represents keyof (<[Z.to_nat i := r1]> (t h)) (<[keyof p := p]> m)) as Hm'
    by (eapply represents_insert; [done|done| |done]; intros q; cbn; destruct Hc; congruence).
  assert (Z.of_nat (base.size (<[keyof p := p]> m)) = Z.of_nat (base.size m) + 1) as Hsz
    by (rewrite map_size_insert_None by done; lia).
  unfold ohash_insert. rewrite (get_ok _ _ _ Hi E). cbn [mbind ores_bind]. rewrite set_ok by lia. cbn [mbind ores_bind hv cellp]. fold r1.
  pose proof (cnt_insert used _ _ _ r1 E) as Cu. pose proof (cnt_insert marked _ _ _ r1 E) as Cm.
  change (used r1) with true in Cu. change (marked r1) with false in Cm.
  assert (c = DELETED -> 1 <= cnt marked (t h)) as Hm1.
  { intros ->. pose proof (cnt_bounds marked (<[Z.to_nat i := r1]> (t h))).
    change (marked (Rec (ohash_interval (keyof p)) DELETED)) with true in Cm. cbn iota in Cm. lia. }
  destruct Hc as [-> | ->]; cbn [hv] in *;
    [change (used (Rec (ohash_interval (keyof p)) NULL)) with false in Cu; change (marked (Rec (ohash_interval (keyof p)) NULL)) with false in Cm|
     change (used (Rec (ohash_interval (keyof p)) DELETED)) with true in Cu; change (marked (Rec (ohash_interval (keyof p)) DELETED)) with true in Cm]; cbn iota in Cu, Cm.
  - rewrite (u32_small (total h + 1)) by lia. cbn [size total].
    rewrite !u32_small by lia. destruct (Z.ltb_spec (size h * 3) ((total h + 1) * 4)) as [Hlo|Hlo].
    + apply (resize_inv keyof ohash_interval); cbn [t size total deleted]; try done; lia.
    + eexists. split; [reflexivity|]. split; cbn [t size total deleted]; try done; lia.
  - specialize (Hm1 eq_refl). rewrite u32_small by lia. eexists. split; [reflexivity|].
    split; cbn [t size total deleted]; try done; lia.
Qed.

Lemma remove_spec h m i p : map_inv h m -> 0 <= i -> holds (t h) (Z.to_nat i) p -> total h - deleted h <= 2 ^ 28 ->
  exists h', ohash_remove calloc_ok h i = ROk (h', Some p) /\ map_inv h' (delete (keyof p) m).
Proof.
  intros [Hw Ht Hd Hl Hm He] Hi (r & E & Ep) Hsmall. pose proof (table_size_bounds _ (wf_size _ _ _ _ Hw)) as Hb.
  pose proof (wf_length _ _ _ _ Hw) as Hlen. pose proof (cnt_bounds used (t h)). pose proof (cnt_bounds marked (t h)).
  pose proof (cnt_split (t h)) as Hsplit. pose proof (cnt_bounds is_ptr (t h)). change (2 ^ 30) with 1073741824 in *. change (2 ^ 28) with 268435456 in *.
  apply lookup_lt_Some in E as Hlt. set (r1 := Rec (P := P) (hv r) DELETED).
  assert (wf_table (<[Z.to_nat i := r1]> (t h)) (size h)) as Hw' by (eapply wf_vacate; [done|done|by right|done]).
  assert (holds (t h) (Z.to_nat i) p) as Hip by by exists r.
  assert (m !! keyof p = Some p) as Emp by (apply Hm; split; [done|by exists (Z.to_nat i)]).
  assert (represents keyof (<[Z.to_nat i := r1]> (t h)) (delete (keyof p) m)) as Hm'.
  { intros k q. rewrite in_table_insert by done. rewrite lookup_delete_Some, (Hm k q). split.
    - intros [Hne [Hk (j & Hj)]]. split; [done|]. right. exists j. split; [|done]. intros ->.
      destruct Hj as (rj & Ej & Eq). rewrite E in Ej. injection Ej as <-. congruence.
    - intros [Hk [?|(j & Hne & Hj)]]; [done|]. split_and!; [|done|by exists j]. intros Ek.
      apply Hne. by eapply (wf_unique _ _ _ _ Hw j (Z.to_nat i) q p); [| |congruence]. }
  assert (Z.of_nat (base.size (delete (keyof p) m)) = Z.of_nat (base.size m) - 1) as Hsz.
  { rewrite map_size_delete, Emp. cbn. assert (base.size m <> 0%nat); [|lia].
    intros Hz. apply map_size_empty_iff in Hz. by rewrite Hz, lookup_empty in Emp. }
  unfold ohash_remove. rewrite (get_ok _ _ _ Hi E). cbn [mbind ores_bind]. rewrite Ep.
  rewrite set_ok by lia. cbn [mbind ores_bind].
  pose proof (cnt_insert used _ _ _ r1 E) as Cu. pose proof (cnt_insert marked _ _ _ r1 E) as Cm.
  change (used r1) with true in Cu. change (marked r1) with true in Cm.
  assert (used r = true) as Eu by (unfold used; by rewrite Ep). assert (marked r = false) as Em by (unfold marked; by rewrite Ep).
  rewrite Eu in Cu. rewrite Em in Cm. cbn iota in Cu, Cm.
  pose proof (cnt_split (<[Z.to_nat i := r1]> (t h))) as Hsplit'. pose proof (cnt_bounds is_ptr (<[Z.to_nat i := r1]> (t h))).
  cbn [deleted total]. rewrite (u32_small (deleted h + 1)) by lia. rewrite (u32_small (4 * _)) by lia.
  match goal with |- context [if ?c then ohash_resize _ ?g else _] => set (h1 := g); destruct c eqn:Ec end.
  - apply andb_prop in Ec as [_ Ec]. zbool.
    assert (exists h', ohash_resize calloc_ok h1 = ROk h' /\ map_inv h' (delete (keyof p) m)) as (h' & -> & Hinv).
    { apply (resize_inv keyof ohash_interval); unfold h1; cbn [t size total deleted]; fold r1; try done; lia. }
    cbn [mbind ores_bind]. by exists h'.
  - cbn [mbind ores_bind]. exists h1. split; [done|]. unfold h1. split; cbn [t size total deleted]; fold r1; try done; lia.
Qed.

(** * Sessions *)

(** A search, an insertion of a record unless its key is there, a removal. *)
Inductive mop := Find (k : list Z) | Insert (p : P) | Remove (k : list Z).
Definition mop_ok (o : mop) : Prop := match o with Find k | Remove k => key_ok k | Insert _ => True end.

Definition run_op (h : ohash P) (o : mop) : ores (ohash P * option P) :=
  match o with
  | Find k => '(h, i) ← ohash_qlookup keyof h k; r ← ohash_find h i; ROk (h, r)
  | Insert p =>
    '(h, i) ← ohash_qlookup keyof h (keyof p);
    r ← ohash_find h i;
    match r with
    | Some _ => ROk (h, r)
    | None => h ← ohash_insert calloc_ok h i p; ROk (h, None)
    end
  | Remove k => '(h, i) ← ohash_qlookup keyof h k; ohash_remove calloc_ok h i
  end.
Fixpoint run_ops (h : ohash P) (os : list mop) : ores (ohash P * list (option P)) :=
  match os with
  | [] => ROk (h, [])
  | o :: os => '(h, r) ← run_op h o; '(h, rs) ← run_ops h os; ROk (h, r :: rs)
  end.

Definition map_op (m : gmap (list Z) P) (o : mop) : gmap (list Z) P * option P :=
  match o with
  | Find k => (m, m !! k)
  | Insert p => match m !! keyof p with Some q => (m, Some q) | None => (<[keyof p := p]> m, None) end
  | Remove k => (delete k m, m !! k)
  end.
Fixpoint map_ops (m : gmap (list Z) P) (os : list mop) : gmap (list Z) P * list (option P) :=
  match os with
  | [] => (m, [])
  | o :: os => let '(m, r) := map_op m o in let '(m, rs) := map_ops m os in (m, r :: rs)
  end.

Lemma run_op_spec h m o : map_inv h m -> mop_ok o -> Z.of_nat (base.size m) < 2 ^ 28 ->
  exists h', run_op h o = ROk (h', (map_op m o).2) /\ map_inv h' (map_op m o).1.
Proof.
  intros Hinv Ho Hsz. pose proof (mi_entries _ _ _ _ Hinv) as Hent.
  destruct o as [k|p|k]; cbn [run_op map_op].
  - destruct (lookup_spec h m k Hinv Ho) as (l' & i & -> & Hi & Hlk & Hinv'). cbn [mbind ores_bind].
    destruct (find_spec _ _ _ m _ (with_t l' h) _ Hlk (mi_map _ _ _ _ Hinv) Hi eq_refl) as (-> & _ & _). by exists (with_t l' h).
  - destruct (lookup_spec h m (keyof p) Hinv (Hkeys p)) as (l' & i & -> & Hi & Hlk & Hinv'). cbn [mbind ores_bind].
    destruct (find_spec _ _ _ m _ (with_t l' h) _ Hlk (mi_map _ _ _ _ Hinv) Hi eq_refl) as (-> & Hmiss & _). cbn [mbind ores_bind].
    destruct (m !! keyof p) as [q|] eqn:E; [by exists (with_t l' h)|].
    destruct (Hmiss eq_refl) as (c & n & Ec & Hc & Hn & Hr).
    destruct (insert_spec (with_t l' h) m i p c n) as (h' & -> & Hinv2); try done.
    { cbn [total deleted with_t]. lia. }
    by exists h'.
  - destruct (lookup_spec h m k Hinv Ho) as (l' & i & -> & Hi & Hlk & Hinv'). cbn [mbind ores_bind].
    destruct (find_spec _ _ _ m _ (with_t l' h) _ Hlk (mi_map _ _ _ _ Hinv) Hi eq_refl) as (_ & Hmiss & Hhit).
    destruct (m !! k) as [q|] eqn:E.
    + assert (keyof q = k) as <- by by apply (mi_map _ _ _ _ Hinv) in E as [? _].
      apply (remove_spec (with_t l' h)); [done|done|by apply Hhit|]. cbn [total deleted with_t]. lia.
    + destruct (Hmiss eq_refl) as (c & n & Ec & Hc & Hn & Hr). unfold ohash_remove. rewrite (get_ok (t (with_t l' h)) i _ Hi Ec).
      cbn [mbind ores_bind cellp fst snd]. rewrite delete_id by done. exists (with_t l' h). by destruct Hc as [-> | ->].
Qed.

Lemma map_op_size m o : (base.size (map_op m o).1 <= S (base.size m))%nat.
Proof.
  destruct o as [k|p|k]; cbn; [lia| |].
  - destruct (m !! keyof p) eqn:E; cbn; [lia|]. rewrite map_size_insert_None by done. lia.
  - rewrite map_size_delete. destruct (m !! k); cbn; lia.
Qed.

Lemma run_ops_spec os : forall h m, map_inv h m -> Forall mop_ok os -> Z.of_nat (base.size m + length os) <= 2 ^ 28 ->
  exists h', run_ops h os = ROk (h', (map_ops m os).2) /\ map_inv h' (map_ops m os).1.
Proof.
  induction os as [|o os IH]; intros h m Hinv Hok Hsz; cbn [run_ops map_ops].
  { by exists h. }
  cbn [length] in Hsz. apply Forall_cons in Hok as [Ho Hos].
  destruct (run_op_spec h m o Hinv Ho ltac:(lia)) as (h1 & -> & Hinv1). cbn [mbind ores_bind].
  pose proof (map_op_size m o). destruct (map_op m o) as [m1 r]. cbn [fst snd] in *.
  destruct (IH h1 m1 Hinv1 Hos ltac:(lia)) as (h2 & -> & Hinv2). cbn [mbind ores_bind].
  destruct (map_ops m1 os) as [m2 rs]. by exists h2.
Qed.

Lemma init_spec sz : 0 <= sz <= 30 -> exists h, ohash_init calloc_ok sz = Some h /\ map_inv h ∅.
Proof.
  intros Hsz. unfold ohash_init. rewrite Z.shiftl_1_l.
  assert (1 <= 2 ^ sz <= 2 ^ 30) as Hb by (split; [change 1 with (2 ^ 0)|]; apply Z.pow_le_mono_r; lia).
  change (2 ^ 30) with 1073741824 in Hb. rewrite u32_small by lia. change MINSIZE with 16.
  set (s := if 2 ^ sz <? 16 then 16 else 2 ^ sz).
  assert (table_size s) as Hs.
  { unfold s. destruct (Z.ltb_spec (2 ^ sz) 16) as [H|H]; [by exists 4|]. exists sz. split; [|done]. split; [|lia].
    destruct (Z.le_gt_cases 4 sz); [done|]. pose proof (Z.pow_lt_mono_r 2 sz 4 ltac:(lia) ltac:(lia)). change (2 ^ 4) with 16 in *. lia. }
  pose proof (table_size_bounds s Hs). rewrite Hcalloc by lia. eexists. split; [reflexivity|].
  split; cbn [t size total deleted]; [by apply fresh_wf|by rewrite fresh_cnt|by rewrite fresh_cnt|lia| |done].
  intros k p. rewrite lookup_empty. split; [done|]. intros [_ H1]. by apply fresh_empty in H1.
Qed.

End Map.

(** C17. A hash table is a finite map: from [ohash_init] on, with memory for the
    tables, every sequence of up to 2^28 searches, insertions and removals stays in
    bounds, ends, and gives the answers of a map from keys to records; the count of
    entries is the size of the map. *)
Theorem ohash_refines_map {P} (keyof : P -> list Z) calloc_ok sz os :
  (forall n, n <= 2 ^ 30 -> calloc_ok n = true) -> (forall p, key_ok (keyof p)) -> Forall mop_ok os ->
  0 <= sz <= 30 -> Z.of_nat (length os) <= 2 ^ 28 ->
  exists h0 h, ohash_init calloc_ok sz = Some h0 /\
    run_ops keyof calloc_ok h0 os = ROk (h, (map_ops keyof ∅ os).2) /\
    ohash_entries h = Z.of_nat (base.size (map_ops keyof ∅ os).1).
Proof.
  intros Hc Hk Hos Hsz Hlen. destruct (init_spec keyof calloc_ok Hc sz Hsz) as (h0 & E0 & H0).
  destruct (run_ops_spec keyof calloc_ok Hc Hk os h0 ∅ H0 Hos) as (h & E & Hinv); [rewrite map_size_empty; lia|].
  exists h0, h. split_and!; [done|done|]. unfold ohash_entries. rewrite <- (mi_entries _ _ _ _ Hinv).
  destruct Hinv as [Hw Ht Hd Hl _ _]. pose proof (table_size_bounds _ (wf_size _ _ _ _ Hw)) as Hb. change (2 ^ 30) with 1073741824 in Hb.
  pose proof (cnt_split (t h)). pose proof (cnt_bounds is_ptr (t h)). pose proof (cnt_bounds marked (t h)). apply u32_small. lia.
Qed.

Definition two_keys (p : bool) : list Z := codes (if p then "key" else "other").

Lemma ohash_refines_map_witness :
  let os := [Insert true; Insert false; Find (codes "key"); Remove (codes "key"); Find (codes "key"); Insert true] in
  exists h0 h, ohash_init (fun n => n <=? 2 ^ 30) 4 = Some h0 /\
    run_ops two_keys (fun n => n <=? 2 ^ 30) h0 os = ROk (h, (map_ops two_keys ∅ os).2) /\
    ohash_entries h = Z.of_nat (base.size (map_ops two_keys ∅ os).1).
Proof.
  apply (ohash_refines_map two_keys); [intros n Hn; by apply Z.leb_le| | |done|done].
  - intros [|]; repeat constructor; done.
  - repeat constructor; done.
Defined.

(** * Without memory *)

(** A lookup in a full table with other hash values. *)
Lemma full_loops {P} (same : P -> option bool) h hv0 fuel : table_size (size h) ->
  (forall j, (j < Z.to_nat (size h))%nat -> exists r p, t h !! j = Some r /\ cellp r = Ptr p /\ hv r <> hv0) ->
  forall empty n, lookup_loop same fuel h hv0 (increment hv0 (size h)) empty (pos hv0 (size h) n) = RLoop.
Proof.
  intros Hs Hfull. pose proof (table_size_bounds _ Hs). induction fuel as [|fuel IH]; intros empty n; [done|]. cbn [lookup_loop].
  pose proof (pos_range hv0 (size h) n ltac:(lia)) as Hp.
  destruct (Hfull (Z.to_nat (pos hv0 (size h) n)) ltac:(lia)) as (r & p & E & Ep & Hne).
  rewrite (get_ok _ _ _ (proj1 Hp) E). cbn [mbind ores_bind]. rewrite Ep, (proj2 (Z.eqb_neq _ _) Hne).
  rewrite pos_S by done. apply IH.
Qed.

Definition byte_key (c : Z) : list Z := [c].
Definition sixteen : list Z := map Z.of_nat (seq 1 16).

(** C39. A failed [calloc] is ignored by the resize: with memory for the first table
    only, sixteen records still go in, and the search for a seventeenth key then
    never comes to an empty slot. *)
Theorem ohash_full_never_ends :
  exists h0 h, ohash_init (fun n => n <=? 16) 4 = Some h0 /\
    run_ops byte_key (fun n => n <=? 16) h0 (map Insert sixteen) = ROk (h, repeat None 16) /\
    forall fuel, lookup_loop (same_interval byte_key [17]) fuel h (ohash_interval [17]) (increment (ohash_interval [17]) (size h))
      (size h) (start_index (ohash_interval [17]) (size h)) = RLoop.
Proof.
  set (recs := map (fun j => Rec (if j =? 0 then 16 else j) (Ptr (if j =? 0 then 16 else j))) (map Z.of_nat (seq 0 16))).
  exists (OHash (fresh 16) 16 0 0), (OHash recs 16 16 0). split_and!; [done|vm_compute; reflexivity|].
  intros fuel. rewrite <- pos_0 by done. apply full_loops; cbn [size t]; [by exists 4|].
  intros j Hj. change (Z.to_nat 16) with 16%nat in Hj. change (ohash_interval [17]) with 17.
  do 16 (destruct j as [|j]; [by eexists _, _|]). lia.
Qed.
